(* ===== verification/_CoqProject ===== *)
-Q . S2P
Prelude.v
HeapOrder.v
TimerHeap.v
TimerHeapArray.v
TimerHeapInv.v
TimerHeapOps.v
TimerHeapSpec.v
TimerHeapHost.v
TimerHeapProps.v
TimerVariants.v
TimerVariantsProps.v
TimerVariantsLazy.v
TimerVariantsSame.v
QueueHeap.v
QueueHeapArray.v
QueueHeapSpec.v
QueueHeapProps.v
Slab.v
SlabInv.v
SlabOps.v
SlabProps.v
SlabFrame.v
NodeList.v
NodeListProps.v
Task.v
Queue.v
QueueInv.v
QueueSteps.v
QueueRest.v
QueueProps.v
Executor.v
QueueRefine.v
QueueLinks.v
QueueLinksInv.v
QueueLinksSteps.v
QueueLinksSim.v
QueueLinksProps.v
LoopStart.v
Event.v
EventInv.v
EventSteps.v
EventProps.v
EventTable.v
EventTableInv.v
EventTableSteps.v
EventTableOpen.v
EventTableOrder.v
EventTableProps.v
TimerService.v
TimerServiceInv.v
TimerServiceSteps.v
TimerServiceExec.v
TimerServiceProps.v
Worker.v
WorkerInv.v
WorkerSteps.v
WorkerCallers.v
WorkerRest.v
WorkerLive.v
WorkerProps.v
LoopRun.v
LoopRunInv.v
LoopRunSetup.v
LoopRunProps.v
LoopJoint.v
LoopWhole.v
LoopWholeInv.v
LoopWholeProps.v
Reader.v
ReaderProps.v
Signal.v
SignalProps.v
Process.v
ProcessProps.v
