(* ===== verification/Prelude.v ===== *)
(** * Verification of the ntt event loop library

    ntt runs tasks on a few worker threads.  A task is pushed to a queue; a
    queue that has tasks is put into the combine of its loop; workers take
    queues out of the combine and run their tasks, so that the tasks of one queue
    run one after the other.  Workers with nothing to do wait in epoll; a
    notification is dispatched to an event, whose handlers run in queues of their
    own.  Timers live in a heap per queue, and the timer service keeps a second
    heap with the earliest deadline of every queue.  Queues and events live in
    slabs that never move an object and tell a stale reference from a live one
    by a generation.

    ** Parts

    - [Prelude]: the result type of the model, assertions, machine integers,
      arrays, sums over lists, and the automation the other files share.
    - [HeapOrder]: the textbook binary heap, by swaps, over any weak order.
    - [TimerHeap] (data and operations of [src/timer_heap.c], [timer_heap.h]),
      [TimerHeapArray] (sifts, growth and shrinking against [HeapOrder]),
      [TimerHeapInv] (slots, versions, free list, links between entries and slots),
      [TimerHeapOps] (operations on the whole heap), [TimerHeapSpec] (the armed
      timers as a finite map from tags, what every operation does to it),
      [TimerHeapHost] (callbacks that come back to the heap), [TimerHeapProps].
    - [TimerVariants], [TimerVariantsProps], [TimerVariantsLazy],
      [TimerVariantsSame]: the other structures of timers in
      [src/timer_heap_benchmark.cpp], a [std::multimap] and a heap in growing
      vectors, as instances of one class with the timer heap.
    - [QueueHeap], [QueueHeapArray], [QueueHeapSpec], [QueueHeapProps]: the heap of
      queue registrations, [src/queue_heap.c] and [queue_heap.h].
    - [Slab], [SlabInv], [SlabOps], [SlabProps]: the slab, [src/slab.c] and
      [slab.h], with the allocation wrappers of [src/malloc.c] that it calls;
      [SlabFrame]: several slabs, and anything else, in one memory.
    - [NodeList], [NodeListProps]: intrusive lists and lists of tasks,
      [src/node.h], [list.h], [task_list.h], and what [task.h] and [task.c] link.
    - [Task]: the other wrappers of [src/malloc.c], and the life of a task in
      memory, [src/task.h] and [task.c].
    - [Queue], [QueueInv], [QueueSteps], [QueueRest], [QueueProps]: serial queues,
      the combine and the wake-up of the loop, [src/queue.c], [src/combine.c] and
      parts of [src/loop.c].  [Executor] is the specification of queues, a serial
      executor without threads, and [QueueRefine] the simulation.
    - [QueueLinks], [QueueLinksInv], [QueueLinksSteps], [QueueLinksSim],
      [QueueLinksProps]: the same queues and combine with their lists as they are in
      memory, the intrusive lists of [NodeList], and every decision taken from links.
    - [Event], [EventInv], [EventSteps], [EventProps]: one event, [src/event.c],
      [event.h], [include/ntt/event.h], in one slot of the slab.
    - [EventTable], [EventTableInv], [EventTableSteps], [EventTableOpen],
      [EventTableOrder], [EventTableProps]: all events of a loop, in the slab of [Slab] and under the
      epoll of [src/loop.c], reached by their handles.
    - [TimerService] (data and operations of [src/timer_service.c], [src/timer.c]
      and of the registration of timers in [src/queue.c] and [queue.h]),
      [TimerServiceInv], [TimerServiceSteps], [TimerServiceExec] and
      [TimerServiceProps]: the timers of queues, from arming to firing, on top of
      [TimerHeapSpec] and [QueueHeapSpec].
    - [Worker] (data and operations of [src/worker.c] and of the life of the loop
      in [src/loop.c]), [WorkerInv], [WorkerSteps] (the threads), [WorkerCallers]
      and [WorkerRest] (the calls), [WorkerLive] (termination), [WorkerProps].
    - [LoopStart] (the first queue), [LoopRun], [LoopRunInv], [LoopRunSetup],
      [LoopRunProps]: [ntt_loop_run] and [ntt_loop_destroy] of [src/loop.c] with
      descriptors and memory, the events that the loop owns, both slabs, and
      the wrappers that abort when a system call fails; this puts [EventTable],
      [Slab], [Queue] and [TimerService] together.
    - [LoopJoint]: one run of a loop, in which the queues of [Queue] are made in and
      given back to the queue slab of [LoopRun], while events and other allocations
      use the same memory; here [ntt_queue_deinit] has all its assertions, those of
      [Queue] and the one about the timers of [TimerService].
    - [LoopWhole], [LoopWholeInv], [LoopWholeProps]: queues and workers in one run,
      the threads of [Queue] as what the workers of [Worker] do in their service
      callback and in tasks of their local queues.
    - [Reader], [ReaderProps]: the reader, [src/reader.c], as a client of [Event].
    - [Signal], [SignalProps]: signals, [src/signal.c].
    - [Process], [ProcessProps]: what the threads of a process share, the log of
      [src/log.c] and the keys of threads of [src/worker.c].

    Definitions carry the names of the C functions; a loop inside of a function
    has a definition of its own, named after it.

    ** How the code is modelled

    Sequential code (heaps, slab, lists) is a function in the monad [res]: it
    returns the new state, or the fault the C program would commit: a failed
    assertion, an access out of bounds, a read of memory never written, a pointer
    that must not be followed, a loop that exceeds its fuel, or the abort of
    [ntt_die].  Integers are [Z] with the wrap-around of [uint32_t] and [uint64_t]
    written out ([u32], [u64]).  The class [Platform] says whether assertions are
    compiled in and which allocations succeed; theorems hold for every platform.
    [returns m Q] is total correctness up to the abort of a failed allocation;
    [returns_or R m Q] names what must have been refused when [m] aborts.

    Concurrent code (queues, events, the timer service, workers) is a transition
    system: a thread is the
    place it has reached in the code, with its local variables.  Every atomic
    operation, and every critical section of a spinlock, is one step; a loop
    around a compare-exchange is the step at which the exchange succeeds.  The
    interleaving is sequentially consistent: weaker memory orders are not
    modelled.  The code around the library may make any call its contract
    allows, at any time.  What the system does is part of the state: the timerfd and
    the clock, signals sent to a worker, mutex and condition variable of the
    meeting of the workers, bytes of a descriptor, actions and masks of signals.  A
    part that another part calls is either used as it is - the two heaps in the
    timer service, the event under the reader - or kept as the sequence of steps it
    takes there: the timer service sees a queue as the tasks it runs one after the
    other, which [Queue] justifies, and the workers see their local queue so.

    Interfaces: [TaskHost] and [TaskHostLaws] say what the timer heap needs of
    task callbacks, which may push and cancel timers themselves; [Allocator] and
    [AllocatorLaws] what the slab needs of [aligned_alloc]; [Callbacks] and
    [CallbackLaws] are the callbacks of a task, which leave the storage of tasks
    alone; [System] and [SystemLaws] the system calls of the start of a loop, which
    may be refused, [Epoll] the refusals of [epoll_ctl] that do not depend on what is
    registered, and [Layout] sizes of structures; [QueueLayout] and
    [QueueLayoutLaws] say where the nodes of queues are, which do not overlap;
    [Timers] is the interface that the benchmarks are templates over; the heap of registrations
    takes the generation of a queue as an argument.  The laws are instantiated by
    concrete machines in the witnesses.

    ** What is proved

    - Timer heap: every public operation does to the map of armed timers what its
      documentation says, on every branch, and keeps the invariant, from callbacks
      and with stale tags too; timers fire in
      order of deadline, then of arming, disarmed before their task runs; the loop
      of [ntt_timer_heap_svc] ends; the sifts equal the textbook ones.  On every run
      of calls it behaves, in a debug build, as a [std::multimap] ordered by deadline
      does, and in any build as the heap in vectors, which differs in one point: a
      stale tag, which fails an assertion of the timer heap, is ignored there.
    - Heap of registrations: no standing registration is lost or taken early, and
      the deadline reported is a bound for all of them.
    - Slab: slots of live objects are disjoint memory, indices resolve to stable
      addresses, stale references are told apart, all blocks are freed; a slab
      touches its own allocations only.
    - Tasks: the callback runs, then drops the payload, then the storage is freed,
      each once.
    - Lists: push and drop are those of a first-in first-out queue.
    - Queues: tasks of a queue run one at a time, in order, each once; a queue with
      tasks always has exactly one server; wake-ups are not lost; no assertion
      fails and nothing is used after it was given back; the loop comes to rest
      with all tasks run; workers are stopped only when nothing is left.  All of
      this is summed up by a simulation: what is observed of a loop is a behaviour
      of the serial executor, from which the life of every task follows.  The
      intrusive lists refine the sequences of this model: links are set where they
      are followed, and what they link is the sequence.
    - Events: handlers of a side exclude each other, notifications are not lost,
      cancellations are reported once, in order and after the last handler; the
      reference count is exact; a cancelled event gives its slot back, and after
      that only the references it held are let go of.
    - All events of a loop: each slot refines the model of one event, whatever the
      other slots and the rest of the memory do; handles lead to the event they
      were registered for or to nothing; [epoll_ctl] is never asked to add what is
      there or to remove what is not, so that only the kernel's own reasons make it
      fail; slots in use and registrations are the same events.
    - The loop and its resources: the start aborts only when the system refuses
      one of the requests it makes, and leaves a loop that the other theorems speak
      of.  In a joint run the queues in use are the live slots of their slab, a
      queue is given back after every assertion about it has held, and a loop that
      stops has no queue left: its end closes and frees what was taken, the array
      of registrations included, once each, and nothing else.
    - Timer service: an armed timer of a queue at rest is always covered by a
      standing registration that is not later, or the queue is about to run its
      timers; when nothing can move no armed timer is due; armed timers keep their
      queue alive, and exactly as long; no assertion fails and no queue is used
      after it was given back; at the end no registration stands.
    - Workers and the life of the loop: nothing uses a worker that has left or a
      loop that was freed; a signal is sent exactly when a local queue becomes
      non-empty; the stop task is the last one of its worker; a barrier runs once,
      after all workers; by itself the library takes boundedly many steps, and
      without work and references [ntt_loop_run] returns.
    - Queues and workers together: by itself the library comes to rest, with every
      task run; a loop that nobody holds any more then has dropped every task and
      freed itself; and no worker leaves, nor is the loop freed, before that.
    - Reader: bytes reach the client complete and in order, the handler leaves the
      descriptor drained, [on_cancel] comes once and last, and the reader may be
      deleted there.
    - Signals: setting up and reverting is a round trip, and no signal is lost.
    - Log and thread keys: messages come out whole and unmixed, those of a thread
      in the order of its calls; keys are unique.

    ** Bounds and fuel

    Loops over an array have fuel for one turn per cell plus one, growth has 33
    doublings, more than a 32-bit number can take; the theorems show that the
    fuel is enough.  [ntt_timer_heap_svc] may be kept busy forever by tasks that
    arm timers already due: its fuel is a parameter, and the termination theorem
    states the condition.  The heaps are verified up to [MAX_TIMERS] = 2^30 and
    [MAX_REGISTRATIONS] = 2^31 entries; beyond, the 32-bit arithmetic of the code
    goes wrong, as [timer_grow_capacity_diverges], [timer_shrink_overflow],
    [queue_reserve_diverges] and [slab_at_aliases] (blocks of more than 4 GiB)
    show.  Termination of the concurrent parts is a bound on the number of steps
    by a measure ([potential], [life_measure]), that of queues and workers together
    by both in lexicographic order.  The timer service is verified as
    long as the generation of no slot has come round and the heap of registrations
    can grow ([bounded]), the workers as long as no count reaches the greatest value
    of its type ([refs_bounded]), the table of events as long as no generation has
    come round and the offset of the next slot fits in 32 bits ([gens_bounded]).
    [run_alone] and [run_calls] have the fuel that the few steps of one call need;
    [loop_setup_sound] shows that it is enough.  The variants of the timer heap are
    compared within the contract of [ntt_timer_heap_push] ([roomy]); the vectors of
    the benchmark have fuel for one turn per entry plus one.  Reference counts and the generation of an event
    are unbounded in the concurrent models: the former are bounded by the number
    of threads and tasks, for the latter [slab_stale_detected] shows after how
    many reuses a generation comes back.

    ** Not modelled

    - Benchmarks, tests and examples, but for the structures of timers above: the
      class over a heap of boost, whose code is elsewhere, the class with a list per
      timeout, which orders timers within a list only, and the measured loops.
    - What [vprintf] makes of a format: the pieces of a message are an argument.
    - Allocation of barrier contexts and of the arrays of the timer heaps as
      addresses.  The array of registrations has one where it is freed, at the end
      of a loop; where it grows, only its size and the refusal are modelled.
    - Failures of system calls on descriptors and threads that are in order, where
      the code only repeats the call or aborts: [pthread_sigqueue] to a live worker
      ([EAGAIN] is repeated until there is room), and [read] of a timerfd with
      another error than [EAGAIN].  [timerfd_settime] aborts for a value out of range
      only.
    - Timer calls from the drop callback of a task of a queue.  The callback of the
      last task runs when the queue may already be served by another worker, so
      they are outside of the contract.
    - Weak memory: every atomic operation is sequentially consistent.
    - Code that is commented out in [src/loop.c].

    Two joint runs put the parts of a loop together: [LoopJoint] queues, their
    slots, events and memory, [LoopWhole] queues and workers.  The timer service
    is a transition system of its own, which sees a queue as the tasks it runs one
    after the other; it is started and ended with the loop, but its steps are not
    interleaved with those of the workers.  In [LoopWhole] the combine of a loop is
    not served by threads that are no workers. *)

From stdpp Require Import base numbers list gmap.
From Stdlib Require Import ZArith Lia.

#[global] Set Default Goal Selector "!".
#[local] Open Scope Z_scope.

(** ** Faults and the result type

    Every modelled operation returns a [res].  A fault is what the C program
    must never do ([AssertFailure], [OutOfBounds], [UninitRead],
    [InvalidPointer]), a loop that did not finish within the fuel of the model
    ([OutOfFuel]), or a call of [ntt_die], which aborts the process. *)
Inductive fault : Type :=
  | AssertFailure
  | OutOfBounds
  | UninitRead
  | InvalidPointer
  | OutOfFuel
  | Die.

Inductive res (A : Type) : Type :=
  | Ok (a : A)
  | Err (f : fault).
Arguments Ok {A} a.
Arguments Err {A} f.

#[global] Instance res_ret : MRet res := fun A a => Ok a.
#[global] Instance res_bind : MBind res := fun A B k m =>
  match m with Ok a => k a | Err f => Err f end.

Lemma bind_ok {A B} (a : A) (k : A -> res B) : (Ok a ≫= k) = k a.
Proof. reflexivity. Qed.

Lemma bind_err {A B} f (k : A -> res B) : (Err f ≫= k) = Err f.
Proof. reflexivity. Qed.

Lemma bind_assoc {A B C} (m : res A) (f : A -> res B) (g : B -> res C) :
  ((m ≫= f) ≫= g) = (m ≫= fun a => f a ≫= g).
Proof. by destruct m. Qed.

Lemma bind_inv_ok {A B} (m : res A) (k : A -> res B) b :
  (m ≫= k) = Ok b -> exists a, m = Ok a /\ k a = Ok b.
Proof. destruct m as [a|f]; [eauto | discriminate]. Qed.

(** ** The platform

    What the build and the machine decide: whether [assert] is compiled in,
    and whether an allocation of the given number of bytes succeeds. *)
Class Platform : Type := {
  ndebug : bool;
  alloc_ok : Z -> bool;
}.

(** [assert(b)] *)
Definition c_assert `{Platform} (b : bool) : res unit :=
  if ndebug then Ok tt else if b then Ok tt else Err AssertFailure.

Lemma c_assert_true `{Platform} b : b = true -> c_assert b = Ok tt.
Proof. intros ->. unfold c_assert. by destruct ndebug. Qed.

(** [returns m Q]: the computation returns a value satisfying [Q]; the only
    other outcome is the abort that a failed allocation asks for. *)
Definition returns `{Platform} {A} (m : res A) (Q : A -> Prop) : Prop :=
  match m with
  | Ok a => Q a
  | Err Die => exists bytes, alloc_ok bytes = false
  | Err _ => False
  end.

Lemma returns_ok `{Platform} {A} (a : A) (Q : A -> Prop) : Q a -> returns (Ok a) Q.
Proof. done. Qed.

Lemma returns_bind `{Platform} {A B} (m : res A) (k : A -> res B) P Q :
  returns m P -> (forall a, P a -> returns (k a) Q) -> returns (m ≫= k) Q.
Proof. destruct m as [a|[]]; simpl; auto. Qed.

Lemma returns_mono `{Platform} {A} (m : res A) (P Q : A -> Prop) :
  returns m P -> (forall a, P a -> Q a) -> returns m Q.
Proof. destruct m as [a|[]]; simpl; auto. Qed.

Lemma returns_inv `{Platform} {A} (m : res A) (Q : A -> Prop) a :
  returns m Q -> m = Ok a -> Q a.
Proof. intros HQ ->. exact HQ. Qed.

(** [returns_or R m Q]: the computation returns a value satisfying [Q], or it
    aborts and [R] says what was refused. *)
Definition returns_or {A} (R : Prop) (m : res A) (Q : A -> Prop) : Prop :=
  match m with
  | Ok a => Q a
  | Err Die => R
  | Err _ => False
  end.

Lemma returns_or_ok {A} (R : Prop) (a : A) (Q : A -> Prop) : Q a -> returns_or R (Ok a) Q.
Proof. done. Qed.

Lemma returns_or_bind {A B} (R : Prop) (m : res A) (k : A -> res B) P Q :
  returns_or R m P -> (forall a, P a -> returns_or R (k a) Q) -> returns_or R (m ≫= k) Q.
Proof. destruct m as [a|[]]; simpl; auto. Qed.

Lemma returns_or_mono {A} (R R' : Prop) (m : res A) (P Q : A -> Prop) :
  returns_or R m P -> (R -> R') -> (forall a, P a -> Q a) -> returns_or R' m Q.
Proof. destruct m as [a|[]]; simpl; auto. Qed.

Lemma returns_or_inv {A} (R : Prop) (m : res A) (Q : A -> Prop) a : returns_or R m Q -> m = Ok a -> Q a.
Proof. intros HQ ->. exact HQ. Qed.

(** [returns] forgets which allocation failed. *)
Lemma returns_or_returns `{Platform} {A} (R : Prop) (m : res A) (Q : A -> Prop) :
  returns_or R m Q -> (R -> exists bytes, alloc_ok bytes = false) -> returns m Q.
Proof. destruct m as [a|[]]; simpl; eauto. Qed.

(** When no allocation fails, [returns] is plain total correctness. *)
Lemma returns_total `{Platform} {A} (m : res A) (Q : A -> Prop) :
  (forall n, alloc_ok n = true) -> returns m Q -> exists a, m = Ok a /\ Q a.
Proof.
  intros Hal. destruct m as [a|[]]; simpl; eauto; try done.
  intros [n Hn]. by rewrite Hal in Hn.
Qed.

(** [runs b m Q]: like [returns], but when [b] holds the computation may also
    run out of fuel. *)
Definition runs `{Platform} {A} (b : Prop) (m : res A) (Q : A -> Prop) : Prop :=
  match m with
  | Err OutOfFuel => b
  | _ => returns m Q
  end.

Lemma runs_bind `{Platform} {A B} (b : Prop) (m : res A) (k : A -> res B) P Q :
  returns m P -> (forall a, P a -> runs b (k a) Q) -> runs b (m ≫= k) Q.
Proof. destruct m as [a|[]]; simpl; auto; done. Qed.

Lemma runs_returns `{Platform} {A} (m : res A) (Q : A -> Prop) : runs False m Q -> returns m Q.
Proof. by destruct m as [a|[]]. Qed.

(** ** Fixed width unsigned integers *)
Definition UINT32_MAX : Z := 2 ^ 32 - 1.
Definition UINT64_MAX : Z := 2 ^ 64 - 1.
Definition u32 (z : Z) : Z := z mod 2 ^ 32.
Definition u64 (z : Z) : Z := z mod 2 ^ 64.

Lemma u32_small z : 0 <= z < 2 ^ 32 -> u32 z = z.
Proof. apply Z.mod_small. Qed.

Lemma u64_small z : 0 <= z < 2 ^ 64 -> u64 z = z.
Proof. apply Z.mod_small. Qed.

Lemma u32_range z : 0 <= u32 z < 2 ^ 32.
Proof. apply Z.mod_pos_bound. lia. Qed.

Lemma u64_range z : 0 <= u64 z < 2 ^ 64.
Proof. apply Z.mod_pos_bound. lia. Qed.

Lemma u32_u64 z : u32 (u64 z) = u32 z.
Proof. unfold u32, u64. apply Z.mod_mod_divide. by exists (2 ^ 32). Qed.

Lemma u32_add_l a b : u32 (u32 a + b) = u32 (a + b).
Proof. unfold u32. by rewrite Zplus_mod_idemp_l. Qed.

Lemma u32_add_u64 a b c : u32 (u64 (a + b) + c) = u32 (a + (b + c)).
Proof. rewrite <- (u32_add_l (u64 _)), u32_u64, u32_add_l. f_equal. lia. Qed.

(** A counter that moved by less than its period shows it. *)
Lemma u32_moved g d : 0 < d < 2 ^ 32 -> u32 (g + d) <> u32 g.
Proof.
  intros Hd Heq. unfold u32 in Heq. pose proof (Z.div_mod (g + d) (2 ^ 32) ltac:(lia)).
  pose proof (Z.div_mod g (2 ^ 32) ltac:(lia)). nia.
Qed.

(** The parity of a version survives the wrap-around. *)
Lemma u32_odd z : Z.odd (u32 z) = Z.odd z.
Proof. unfold u32. rewrite <- !Z.bit0_odd. by rewrite Z.mod_pow2_bits_low by lia. Qed.

Lemma land_1_odd z : Z.land z 1 = if Z.odd z then 1 else 0.
Proof.
  change 1 with (Z.ones 1) at 1. rewrite Z.land_ones by lia. change (2 ^ 1) with 2.
  rewrite Zmod_odd. done.
Qed.

Lemma odd_succ_true z : Z.odd z = true -> Z.odd (z + 1) = false.
Proof. intros Hz. by rewrite Z.add_1_r, Z.odd_succ, <- Z.negb_odd, Hz. Qed.

Lemma odd_succ_false z : Z.odd z = false -> Z.odd (z + 1) = true.
Proof. intros Hz. by rewrite Z.add_1_r, Z.odd_succ, <- Z.negb_odd, Hz. Qed.

(** Addresses; the null pointer is zero. *)
Definition ptr : Type := Z.
Definition NULL : ptr := 0.

(** ** Flat arrays

    A C array is the list of its cells.  Reading or writing outside of it is a
    fault, and so is reading a cell that was never written ([None]). *)
Definition arr_get {A} (a : list A) (i : Z) : res A :=
  if i <? 0 then Err OutOfBounds
  else match a !! Z.to_nat i with Some x => Ok x | None => Err OutOfBounds end.

Definition arr_set {A} (a : list A) (i : Z) (x : A) : res (list A) :=
  if (i <? 0) || (Z.of_nat (length a) <=? i) then Err OutOfBounds
  else Ok (<[Z.to_nat i := x]> a).

Definition defined {A} (c : option A) : res A :=
  match c with Some x => Ok x | None => Err UninitRead end.

(** [ntt_realloc_or_die]: keeps the common prefix, new cells are undefined. *)
Definition realloc_cells {A} (undef : A) (n : Z) (a : list A) : list A :=
  take (Z.to_nat n) a ++ replicate (Z.to_nat n - length a) undef.

Definition ntt_realloc_or_die `{Platform} {A} (undef : A) (elem_size n : Z)
    (a : list A) : res (list A) :=
  if alloc_ok (elem_size * n) then Ok (realloc_cells undef n a) else Err Die.

Lemma arr_get_lookup {A} (a : list A) i x :
  0 <= i -> a !! Z.to_nat i = Some x -> arr_get a i = Ok x.
Proof. intros Hi Hx. unfold arr_get. destruct (Z.ltb_spec i 0); [lia|]. by rewrite Hx. Qed.

Lemma arr_get_nat {A} (a : list A) (i : nat) x :
  a !! i = Some x -> arr_get a (Z.of_nat i) = Ok x.
Proof. intros Hx. apply arr_get_lookup; [lia|]. by rewrite Nat2Z.id. Qed.

Lemma arr_set_nat {A} (a : list A) (i : nat) x :
  (i < length a)%nat -> arr_set a (Z.of_nat i) x = Ok (<[i := x]> a).
Proof.
  intros Hi. unfold arr_set.
  destruct (Z.ltb_spec (Z.of_nat i) 0); [lia|].
  destruct (Z.leb_spec (Z.of_nat (length a)) (Z.of_nat i)); [lia|].
  simpl. by rewrite Nat2Z.id.
Qed.

Lemma arr_set_lookup {A} (a : list A) i x :
  0 <= i < Z.of_nat (length a) -> arr_set a i x = Ok (<[Z.to_nat i := x]> a).
Proof. intros Hi. rewrite <- (arr_set_nat a (Z.to_nat i)) by lia. by rewrite Z2Nat.id by lia. Qed.

Lemma length_realloc_cells {A} (undef : A) n a :
  0 <= n -> Z.of_nat (length (realloc_cells undef n a)) = n.
Proof. intros Hn. unfold realloc_cells. rewrite length_app, length_take, length_replicate. lia. Qed.

Lemma realloc_cells_prefix {A} (undef : A) n (l r : list A) :
  Z.of_nat (length l) <= n ->
  exists r', realloc_cells undef n (l ++ r) = l ++ r'.
Proof.
  intros Hn. unfold realloc_cells. rewrite take_app_ge by lia.
  rewrite <- app_assoc. eauto.
Qed.

(** ** Lists *)
Lemma NoDup_fmap_eq {A B} (f : A -> B) (l : list A) x y :
  NoDup (f <$> l) -> x ∈ l -> y ∈ l -> f x = f y -> x = y.
Proof.
  intros Hnd [i Hi]%list_elem_of_lookup [j Hj]%list_elem_of_lookup Heq.
  assert (i = j) as ->; [|congruence].
  apply (NoDup_lookup (f <$> l) i j (f x) Hnd).
  - by rewrite list_lookup_fmap, Hi.
  - by rewrite list_lookup_fmap, Hj, Heq.
Qed.

Lemma filter_iff_length {A} (P Q : A -> Prop) `{!forall x, Decision (P x), !forall x, Decision (Q x)}
    (l : list A) :
  (forall x, x ∈ l -> P x <-> Q x) -> length (filter P l) = length (filter Q l).
Proof.
  induction l as [|x l IH]; intros HPQ; [done|]. rewrite !filter_cons.
  assert (Hx : P x <-> Q x) by (apply HPQ; by left).
  assert (Hl : length (filter P l) = length (filter Q l)).
  { apply IH. intros y Hy. apply HPQ. by right. }
  destruct (decide (P x)), (decide (Q x)); simpl; tauto || congruence.
Qed.

Lemma filter_all {A} (P : A -> Prop) `{!forall x, Decision (P x)} (l : list A) :
  (forall x, x ∈ l -> P x) -> filter P l = l.
Proof.
  induction l as [|x l IH]; intros HP; [done|]. rewrite filter_cons, decide_True by (apply HP; by left).
  f_equal. apply IH. intros y Hy. apply HP. by right.
Qed.

(** ** Automation *)
Create HintDb ntt.
Create Rewrite HintDb ntt.

#[export] Hint Rewrite @bind_ok @bind_err : ntt.
#[export] Hint Resolve returns_ok : ntt.

(** Splits the boolean test of the goal's outermost comparison. *)
Ltac case_cmp :=
  match goal with
  | |- context [ ?a =? ?b ] => destruct (Z.eqb_spec a b)
  | |- context [ ?a <? ?b ] => destruct (Z.ltb_spec a b)
  | |- context [ ?a <=? ?b ] => destruct (Z.leb_spec a b)
  end.

(** Discharges an [assert] whose condition is an arithmetic fact of the context. *)
Ltac assert_ok :=
  rewrite c_assert_true; [rewrite bind_ok | repeat case_cmp; simpl; try done; lia].

(** Removes the wrap-around of arithmetic that stays in range. *)
Ltac no_wrap :=
  repeat match goal with
  | |- context [u32 ?x] => rewrite (u32_small x) by lia
  | |- context [u64 ?x] => rewrite (u64_small x) by lia
  end.

(** ** Sums over a list

    What the members of a group hold together. *)
Definition total {A} (f : A -> nat) (l : list A) : nat := sum_list_with f l.

Lemma total_perm {A} (f : A -> nat) l l' : l ≡ₚ l' -> total f l = total f l'.
Proof. unfold total. induction 1; simpl; lia. Qed.

Lemma total_app {A} (f : A -> nat) l l' : total f (l ++ l') = (total f l + total f l')%nat.
Proof. apply sum_list_with_app. Qed.

Lemma total_cons {A} (f : A -> nat) x l : total f (x :: l) = (f x + total f l)%nat.
Proof. done. Qed.

Lemma total_le {A} (f g : A -> nat) l : (forall x, (f x <= g x)%nat) -> (total f l <= total g l)%nat.
Proof. intros Hle. unfold total. induction l as [|x l IH]; simpl; [lia|]. specialize (Hle x). lia. Qed.

Lemma total_zero {A} (f : A -> nat) l : total f l = 0%nat -> Forall (fun x => f x = 0%nat) l.
Proof. unfold total. induction l as [|x l IH]; simpl; intros Hz; constructor; [lia|apply IH; lia]. Qed.

Lemma total_elem {A} (f : A -> nat) l x : x ∈ l -> (f x <= total f l)%nat.
Proof. unfold total. induction 1 as [|x y l _ IH]; simpl; lia. Qed.

Lemma total_insert {A} (f : A -> nat) l i (y y' : A) :
  l !! i = Some y -> (total f (<[i := y']> l) + f y = total f l + f y')%nat.
Proof.
  intros Hy. assert (Hl : (i < length l)%nat) by (by eapply lookup_lt_Some).
  rewrite <- (take_drop_middle l i y Hy) at 2. rewrite insert_take_drop by done.
  rewrite !total_app, !total_cons. lia.
Qed.

Lemma total_pos {A} (f : A -> nat) l : (0 < total f l)%nat -> exists x, x ∈ l /\ (0 < f x)%nat.
Proof.
  unfold total. induction l as [|x l IH]; simpl; [lia|]. intros Hp.
  destruct (f x) eqn:Hf; [|exists x; split; [by left|lia]].
  destruct IH as (y & Hy & Hpos); [lia|]. exists y. split; [by right|done].
Qed.
