(* ===== verification/HeapOrder.v ===== *)
(** * Binary heaps over lists

    The textbook binary min-heap, kept in a list with the root at zero, that
    the array code of [timer_heap.c] and [queue_heap.c] is compared with.
    Elements move by swapping here, where the C code carries the moving entry
    in a local variable and leaves a hole in the array. *)

From stdpp Require Import base numbers list sorting.
From Stdlib Require Import ZArith Lia Permutation.
From S2P Require Import Prelude.

#[local] Open Scope nat_scope.

Definition parent (i : nat) : nat := (i - 1) / 2.

Lemma parent_lt i : 0 < i -> parent i < i.
Proof. unfold parent. intros. apply (Nat.Div0.div_lt_upper_bound); lia. Qed.

Lemma parent_spec i : 0 < i -> i = 2 * parent i + 1 \/ i = 2 * parent i + 2.
Proof.
  unfold parent. intros.
  pose proof (Nat.div_mod_eq (i - 1) 2).
  pose proof (Nat.mod_upper_bound (i - 1) 2). lia.
Qed.

Lemma parent_children i c : 0 < c -> parent c = i <-> c = 2 * i + 1 \/ c = 2 * i + 2.
Proof. intros Hc. pose proof (parent_spec c Hc). lia. Qed.

(** A strict weak order given by a boolean test, as [ntt_timer_heap_less] and
    [ntt_queue_heap_less] are. *)
Class WeakOrder {A : Type} (less : A -> A -> bool) : Prop := {
  less_irrefl : forall x, less x x = false;
  less_asym : forall x y, less x y = true -> less y x = false;
  less_trans_neg : forall x y z, less y x = false -> less z y = false -> less z x = false;
}.

Section heap.
Context {A : Type} (less : A -> A -> bool) `{!WeakOrder less}.
Implicit Types (l : list A) (x y : A).

(** [above x y]: [x] may sit above [y]. *)
Definition above x y : Prop := less y x = false.

Lemma above_refl x : above x x.
Proof. apply less_irrefl. Qed.

Lemma above_trans x y z : above x y -> above y z -> above x z.
Proof. unfold above. intros. by eapply less_trans_neg. Qed.

Lemma less_above x y : less x y = true -> above x y.
Proof. apply less_asym. Qed.

(** Exchange of two positions. *)
Definition swap (i j : nat) (l : list A) : list A :=
  match l !! i, l !! j with
  | Some x, Some y => <[i := y]> (<[j := x]> l)
  | _, _ => l
  end.

Lemma length_swap i j l : length (swap i j l) = length l.
Proof.
  unfold swap. destruct (l !! i), (l !! j); try done.
  by rewrite !length_insert.
Qed.

Lemma swap_perm i j l : swap i j l ≡ₚ l.
Proof.
  unfold swap. destruct (l !! i) as [x|] eqn:Hi; [|done].
  destruct (l !! j) as [y|] eqn:Hj; [|done].
  by apply Permutation_insert_swap.
Qed.

Lemma lookup_swap i j l x y k :
  l !! i = Some x -> l !! j = Some y ->
  swap i j l !! k =
    if decide (k = i) then Some y else if decide (k = j) then Some x else l !! k.
Proof.
  intros Hi Hj. unfold swap. rewrite Hi, Hj.
  apply lookup_lt_Some in Hi as Hli. apply lookup_lt_Some in Hj as Hlj.
  destruct (decide (k = i)) as [->|Hki].
  { rewrite list_lookup_insert_eq; [done|]. by rewrite length_insert. }
  rewrite list_lookup_insert_ne by done.
  destruct (decide (k = j)) as [->|Hkj]; [by rewrite list_lookup_insert_eq|].
  by rewrite list_lookup_insert_ne.
Qed.

(** ** Heap order *)

(** Every parent at or below position [k] may sit above its children. *)
Definition ordered_from (k : nat) (l : list A) : Prop :=
  forall i x p, 0 < i -> k <= parent i ->
    l !! i = Some x -> l !! parent i = Some p -> above p x.

Definition heap_ordered (l : list A) : Prop := ordered_from 0 l.

Lemma heap_root_min l r x :
  heap_ordered l -> l !! 0 = Some r -> x ∈ l -> above r x.
Proof.
  intros Ho Hr [i Hi]%list_elem_of_lookup. revert x Hi.
  induction (lt_wf i) as [i _ IH]. intros x Hi.
  destruct (decide (i = 0)) as [->|Hne].
  { rewrite Hr in Hi. injection Hi as ->. apply above_refl. }
  pose proof (parent_lt i ltac:(lia)) as Hlt.
  apply lookup_lt_Some in Hi as Hli.
  destruct (lookup_lt_is_Some_2 l (parent i)) as [p Hp]; [lia|].
  apply above_trans with p; [by eapply IH|]. apply (Ho i x p); auto; lia.
Qed.

Lemma heap_ordered_nil : heap_ordered [].
Proof. intros i x p _ _ Hi. by rewrite lookup_nil in Hi. Qed.

Lemma heap_ordered_prefix l l' : heap_ordered (l ++ l') -> heap_ordered l.
Proof.
  intros Ho i x p Hi _ Hx Hp.
  apply (Ho i x p Hi (Nat.le_0_l _)); by apply lookup_app_l_Some.
Qed.

(** ** Moving an element up *)
Fixpoint swim (fuel : nat) (l : list A) (pos : nat) : list A :=
  match fuel with
  | O => l
  | S fuel =>
      match l !! pos, l !! parent pos with
      | Some x, Some p =>
          if (0 <? pos) && less x p then swim fuel (swap pos (parent pos) l) (parent pos)
          else l
      | _, _ => l
      end
  end.

(** All but position [pos] is in order, and its children may sit below its parent. *)
Definition up_inv (l : list A) (pos : nat) : Prop :=
  (forall i x p, 0 < i -> i <> pos -> l !! i = Some x -> l !! parent i = Some p -> above p x) /\
  (forall c x g, 0 < c -> parent c = pos -> 0 < pos ->
     l !! c = Some x -> l !! parent pos = Some g -> above g x).

Lemma up_inv_app l x : heap_ordered l -> up_inv (l ++ [x]) (length l).
Proof.
  intros Ho. split.
  - intros i y p Hi Hne Hy Hp. apply lookup_lt_Some in Hy as Hl.
    rewrite length_app in Hl. simpl in Hl. pose proof (parent_lt i Hi).
    rewrite lookup_app_l in Hy by lia. rewrite lookup_app_l in Hp by lia.
    apply (Ho i y p); auto; lia.
  - intros c y g Hc Hpc Hpos Hy _. apply lookup_lt_Some in Hy as Hl.
    rewrite length_app in Hl. simpl in Hl. pose proof (parent_lt c Hc). lia.
Qed.

Lemma up_inv_swap l pos x p :
  up_inv l pos -> 0 < pos -> l !! pos = Some x -> l !! parent pos = Some p ->
  less x p = true -> up_inv (swap pos (parent pos) l) (parent pos).
Proof.
  intros [Hord Hgr] Hpos Hx Hp Hless.
  pose proof (parent_lt pos Hpos) as Hlt. pose proof (less_above _ _ Hless) as Hxp.
  pose proof (lookup_swap pos (parent pos) l x p) as Hsw.
  split.
  - intros i y q Hi Hne Hy Hq. pose proof (parent_lt i Hi).
    rewrite Hsw in Hy, Hq by done. repeat case_decide; simplify_eq; try lia.
    + eapply Hgr; eauto.
    + done.
    + apply above_trans with p; [done|]. eapply (Hord i); eauto. congruence.
    + eapply (Hord i); eauto.
  - intros c y g Hc Hpc Hpp Hy Hg. pose proof (parent_lt c Hc).
    pose proof (parent_lt (parent pos) Hpp).
    rewrite Hsw in Hy, Hg by done.
    repeat case_decide; simplify_eq; try lia.
    + by eapply (Hord (parent pos)); eauto; lia.
    + apply above_trans with p; [by eapply (Hord (parent pos)); eauto; lia|].
      eapply (Hord c); eauto. congruence.
Qed.

Lemma swim_ordered fuel l pos :
  pos <= fuel -> up_inv l pos -> heap_ordered (swim fuel l pos).
Proof.
  assert (Hstop : forall l pos, up_inv l pos ->
    (forall x p, 0 < pos -> l !! pos = Some x -> l !! parent pos = Some p -> above p x) ->
    heap_ordered l).
  { intros l' q [Hord _] Hq i x p Hi _ Hx Hp.
    destruct (decide (i = q)) as [->|]; eauto. }
  revert l pos. induction fuel as [|fuel IH]; intros l pos Hf Hinv; simpl.
  { apply (Hstop l pos Hinv). lia. }
  destruct (l !! pos) as [x|] eqn:Hx; [|apply (Hstop l pos Hinv); congruence].
  destruct (l !! parent pos) as [p|] eqn:Hp; [|apply (Hstop l pos Hinv); congruence].
  destruct (Nat.ltb_spec 0 pos) as [Hpos|Hpos]; simpl;
    [|apply (Hstop l pos Hinv); lia].
  destruct (less x p) eqn:Hless.
  - pose proof (parent_lt pos Hpos). apply IH; [lia|]. by eapply up_inv_swap.
  - apply (Hstop l pos Hinv). intros ? ? _ ? ?. by simplify_eq.
Qed.

Lemma swim_perm fuel l pos : swim fuel l pos ≡ₚ l.
Proof.
  revert l pos. induction fuel as [|fuel IH]; intros l pos; simpl; [done|].
  destruct (l !! pos), (l !! parent pos); try done.
  case_match; [|done]. rewrite IH. apply swap_perm.
Qed.

(** ** Moving an element down *)
Definition min_child (l : list A) (pos : nat) : nat :=
  match l !! (2 * pos + 1), l !! (2 * pos + 2) with
  | Some x, Some y => if less y x then 2 * pos + 2 else 2 * pos + 1
  | _, _ => 2 * pos + 1
  end.

Fixpoint sink (fuel : nat) (l : list A) (pos : nat) : list A :=
  match fuel with
  | O => l
  | S fuel =>
      match l !! pos, l !! min_child l pos with
      | Some x, Some c =>
          if less c x then sink fuel (swap pos (min_child l pos) l) (min_child l pos) else l
      | _, _ => l
      end
  end.

(** All parents from [k] on but [pos] are in order, and the children of
    [pos] may sit below its parent. *)
Definition down_inv (k : nat) (l : list A) (pos : nat) : Prop :=
  (forall i x p, 0 < i -> k <= parent i -> parent i <> pos ->
     l !! i = Some x -> l !! parent i = Some p -> above p x) /\
  (forall c x g, 0 < c -> parent c = pos -> 0 < pos -> k <= parent pos ->
     l !! c = Some x -> l !! parent pos = Some g -> above g x).

Lemma min_child_parent l pos : 0 < min_child l pos /\ parent (min_child l pos) = pos.
Proof.
  assert (Hc : min_child l pos = 2 * pos + 1 \/ min_child l pos = 2 * pos + 2).
  { unfold min_child. repeat case_match; auto. }
  split; [lia|]. apply parent_children; lia.
Qed.

Lemma min_child_some l pos x :
  l !! (2 * pos + 1) = Some x -> exists c, l !! min_child l pos = Some c.
Proof.
  intros Hx. unfold min_child. rewrite Hx.
  destruct (l !! (2 * pos + 2)) as [y|] eqn:Hy; [destruct (less y x)|]; eauto.
Qed.

Lemma min_child_min l pos c i x :
  l !! min_child l pos = Some c -> 0 < i -> parent i = pos -> l !! i = Some x -> above c x.
Proof.
  intros Hc Hi Hpi Hx. apply parent_children in Hpi; [|done].
  unfold min_child in Hc.
  destruct (l !! (2 * pos + 1)) as [a|] eqn:Ha, (l !! (2 * pos + 2)) as [b|] eqn:Hb.
  - destruct (less b a) eqn:Hba; destruct Hpi as [-> | ->]; simplify_eq;
      eauto using above_refl, less_above.
  - destruct Hpi as [-> | ->]; simplify_eq. apply above_refl.
  - simplify_eq.
  - simplify_eq.
Qed.

Lemma down_inv_swap k l pos x c :
  down_inv k l pos -> l !! pos = Some x -> l !! min_child l pos = Some c ->
  less c x = true -> down_inv k (swap pos (min_child l pos) l) (min_child l pos).
Proof.
  intros [Hord Hgr] Hx Hc Hless. pose proof (min_child_min l pos c) as Hmin.
  destruct (min_child_parent l pos) as [Hm0 Hmp].
  set (m := min_child l pos) in *. pose proof (parent_lt m Hm0) as Hlt.
  pose proof (lookup_swap pos m l x c) as Hsw.
  split.
  - intros i y q Hi Hk Hne Hy Hq. pose proof (parent_lt i Hi).
    rewrite Hsw in Hy, Hq by done. repeat case_decide; simplify_eq; try lia.
    all: first [by apply less_above | by eapply (Hmin i) | by eapply (Hord i)
               | by apply (Hgr m y q)].
  - intros d y g Hd Hpd _ Hk Hy Hg. pose proof (parent_lt d Hd).
    rewrite Hsw in Hy, Hg by done. rewrite Hmp in *.
    repeat case_decide; simplify_eq; try lia.
    eapply (Hord d); eauto; [lia|lia|]. by rewrite Hpd.
Qed.

Lemma sink_ordered k fuel l pos :
  length l <= fuel + pos -> down_inv k l pos -> ordered_from k (sink fuel l pos).
Proof.
  assert (Hstop : forall l pos, down_inv k l pos ->
    (forall i x p, 0 < i -> parent i = pos -> l !! i = Some x -> l !! pos = Some p -> above p x) ->
    ordered_from k l).
  { intros l' q [Hord _] Hq i x p Hi Hk Hx Hp.
    destruct (decide (parent i = q)) as [<-|]; eauto. }
  revert l pos. induction fuel as [|fuel IH]; intros l pos Hf Hinv; simpl.
  { apply (Hstop l pos Hinv). intros i x p Hi Hpi Hx.
    apply lookup_lt_Some in Hx. pose proof (parent_lt i Hi). lia. }
  destruct (l !! pos) as [x|] eqn:Hx; [|apply (Hstop l pos Hinv); congruence].
  destruct (min_child_parent l pos) as [Hm0 Hmp].
  pose proof (parent_lt _ Hm0) as Hlt.
  destruct (l !! min_child l pos) as [c|] eqn:Hc.
  - destruct (less c x) eqn:Hless.
    + apply IH; [rewrite length_swap; lia|]. by eapply down_inv_swap.
    + apply (Hstop l pos Hinv). intros i y p Hi Hpi Hy Hp. simplify_eq.
      apply above_trans with c; [done|]. by eapply min_child_min.
  - apply (Hstop l pos Hinv). intros i y p Hi Hpi Hy _. exfalso.
    apply parent_children in Hpi; [|done].
    destruct (lookup_lt_is_Some_2 l (2 * pos + 1)) as [a Ha].
    { apply lookup_lt_Some in Hy. lia. }
    destruct (min_child_some l pos a Ha) as [c Hc']. congruence.
Qed.

Lemma sink_perm fuel l pos : sink fuel l pos ≡ₚ l.
Proof.
  revert l pos. induction fuel as [|fuel IH]; intros l pos; simpl; [done|].
  destruct (l !! pos), (l !! min_child l pos); try done.
  case_match; [|done]. rewrite IH. apply swap_perm.
Qed.

Lemma length_sink fuel l pos : length (sink fuel l pos) = length l.
Proof. by rewrite (sink_perm fuel l pos). Qed.

Lemma length_swim fuel l pos : length (swim fuel l pos) = length l.
Proof. by rewrite (swim_perm fuel l pos). Qed.

(** ** Floyd's construction *)
Fixpoint heapify (l : list A) (i : nat) : list A :=
  match i with
  | O => l
  | S i => heapify (sink (length l) l i) i
  end.

Lemma heapify_perm l i : heapify l i ≡ₚ l.
Proof.
  revert l. induction i as [|i IH]; intros l; simpl; [done|].
  rewrite IH. apply sink_perm.
Qed.

Lemma heapify_ordered l i : ordered_from i l -> heap_ordered (heapify l i).
Proof.
  revert l. induction i as [|i IH]; intros l Ho; simpl; [done|].
  apply IH. apply sink_ordered; [lia|]. split.
  - intros j x p Hj Hk Hne. apply Ho; lia.
  - intros c x g Hc Hpc Hi Hk. pose proof (parent_lt i Hi). lia.
Qed.

Lemma ordered_from_half l : ordered_from (length l / 2) l.
Proof.
  intros i x p Hi Hk Hx. apply lookup_lt_Some in Hx. exfalso.
  pose proof (parent_spec i Hi). pose proof (Nat.div_mod_eq (length l) 2).
  pose proof (Nat.mod_upper_bound (length l) 2). lia.
Qed.

(** ** Removing the root *)

(** The last entry takes the place of the root and sinks. *)
Lemma down_inv_root l x : heap_ordered l -> down_inv 0 (<[0 := x]> l) 0.
Proof.
  intros Ho. split.
  - intros i y p Hi _ Hne Hy Hp.
    rewrite list_lookup_insert_ne in Hy, Hp by lia. apply (Ho i y p); auto; lia.
  - lia.
Qed.
End heap.
