(* ===== verification/TimerHeap.v ===== *)
(** * The timer heap of a queue: data and operations

    Translates [src/timer_heap.c], [src/timer_heap.h] and the tag of
    [include/ntt/timer.h].  The two C arrays are lists of cells, an
    uninitialised cell or field is [None], and every loop runs on fuel that the
    theorems of [TimerHeapInv] show to be enough.  Integers are kept at their
    width: [u32] and [u64] mark the arithmetic that wraps in C. *)

From stdpp Require Import base numbers list gmap.
From Stdlib Require Import ZArith Lia.
From S2P Require Import Prelude.

#[local] Open Scope Z_scope.

Definition NTT_TIMER_MIN_CAPACITY : Z := 8.
Definition NTT_TIMER_SLOT_NONE : Z := UINT32_MAX.

(** ** Data *)
Record ntt_timer_tag : Type := mk_tag { tag_index : Z; tag_version : Z }.

Definition ntt_timer_tag_null : ntt_timer_tag := mk_tag 0 0.

Definition ntt_timer_tag_is_null (tag : ntt_timer_tag) : bool := tag_version tag =? 0.

Record ntt_timer_heap_elem : Type := mk_elem {
  deadline : Z;
  seq : Z;
  index : Z;
  version : Z;
}.

Record ntt_timer_slot : Type := mk_slot {
  slot_task : option ptr;
  slot_version : option Z;
  slot_next_free : option Z;
}.

(** A slot of freshly allocated memory. *)
Definition undef_slot : ntt_timer_slot := mk_slot None None None.

Record ntt_timer_heap : Type := mk_heap {
  heap : list (option ntt_timer_heap_elem);
  heap_cap : Z;
  slots : list ntt_timer_slot;
  slot_cap : Z;
  size : Z;
  tombstones : Z;
  slot_cnt : Z;
  free_head : Z;
  seq_next : Z;
}.

#[global] Instance tag_eq_dec : EqDecision ntt_timer_tag.
Proof. solve_decision. Defined.

#[global] Instance elem_eq_dec : EqDecision ntt_timer_heap_elem.
Proof. solve_decision. Defined.

(** The tag of the timer that pushed an entry. *)
Definition elem_tag (e : ntt_timer_heap_elem) : ntt_timer_tag := mk_tag (index e) (version e).

(** Field updates. *)
Definition with_heap h s := mk_heap h (heap_cap s) (slots s) (slot_cap s) (size s)
  (tombstones s) (slot_cnt s) (free_head s) (seq_next s).
Definition with_heap_cap h c s := mk_heap h c (slots s) (slot_cap s) (size s)
  (tombstones s) (slot_cnt s) (free_head s) (seq_next s).
Definition with_slots sl s := mk_heap (heap s) (heap_cap s) sl (slot_cap s) (size s)
  (tombstones s) (slot_cnt s) (free_head s) (seq_next s).
Definition with_slot_cap sl c s := mk_heap (heap s) (heap_cap s) sl c (size s)
  (tombstones s) (slot_cnt s) (free_head s) (seq_next s).
Definition with_size n s := mk_heap (heap s) (heap_cap s) (slots s) (slot_cap s) n
  (tombstones s) (slot_cnt s) (free_head s) (seq_next s).
Definition with_tombstones n s := mk_heap (heap s) (heap_cap s) (slots s) (slot_cap s) (size s)
  n (slot_cnt s) (free_head s) (seq_next s).
Definition with_slot_cnt n s := mk_heap (heap s) (heap_cap s) (slots s) (slot_cap s) (size s)
  (tombstones s) n (free_head s) (seq_next s).
Definition with_free_head n s := mk_heap (heap s) (heap_cap s) (slots s) (slot_cap s) (size s)
  (tombstones s) (slot_cnt s) n (seq_next s).
Definition with_seq_next n s := mk_heap (heap s) (heap_cap s) (slots s) (slot_cap s) (size s)
  (tombstones s) (slot_cnt s) (free_head s) n.

Definition set_version v (sl : ntt_timer_slot) := mk_slot (slot_task sl) v (slot_next_free sl).
Definition set_task t (sl : ntt_timer_slot) := mk_slot t (slot_version sl) (slot_next_free sl).
Definition set_next_free n (sl : ntt_timer_slot) := mk_slot (slot_task sl) (slot_version sl) n.

Section ops.
Context `{Platform}.
Implicit Types (self : ntt_timer_heap) (elem : ntt_timer_heap_elem).

(** ** Access *)

(** Reads the entry [ntt_timer_heap_elem_at] points to. *)
Definition ntt_timer_heap_elem_at self (pos : Z) : res ntt_timer_heap_elem :=
  c_assert (pos <? size self) ;;
  cell ← arr_get (heap self) pos;
  defined cell.

Definition ntt_timer_heap_slot_at self (i : Z) : res ntt_timer_slot :=
  c_assert (i <? slot_cnt self) ;;
  arr_get (slots self) i.

(** Writes the slot [ntt_timer_heap_slot_at] points to. *)
Definition slot_store self (i : Z) (sl : ntt_timer_slot) : res ntt_timer_heap :=
  a ← arr_set (slots self) i sl;
  Ok (with_slots a self).

Definition ntt_timer_heap_less (lhs rhs : ntt_timer_heap_elem) : bool :=
  if negb (deadline lhs =? deadline rhs) then deadline lhs <? deadline rhs
  else seq lhs <? seq rhs.

Definition ntt_timer_heap_elem_live self elem : res bool :=
  slot ← ntt_timer_heap_slot_at self (index elem);
  v ← defined (slot_version slot);
  Ok (v =? version elem).

Definition ntt_timer_heap_place self (pos : Z) elem : res ntt_timer_heap :=
  c_assert (pos <? size self) ;;
  h ← arr_set (heap self) pos (Some elem);
  Ok (with_heap h self).

(** ** Sifting *)
Fixpoint sift_up_loop (fuel : nat) self (pos : Z) elem : res ntt_timer_heap :=
  match fuel with
  | O => Err OutOfFuel
  | S fuel =>
      if pos >? 0 then
        let parent := u32 (pos - 1) / 2 in
        parent_elem ← ntt_timer_heap_elem_at self parent;
        if negb (ntt_timer_heap_less elem parent_elem) then
          ntt_timer_heap_place self pos elem
        else
          self ← ntt_timer_heap_place self pos parent_elem;
          sift_up_loop fuel self parent elem
      else ntt_timer_heap_place self pos elem
  end.

Definition ntt_timer_heap_sift_up self (pos : Z) elem : res ntt_timer_heap :=
  sift_up_loop (S (Z.to_nat pos)) self pos elem.

(** The [&&] of the choice of the child: the right entry is read only when
    it exists. *)
Definition right_first self (left right : Z) : res bool :=
  if right <? size self then
    r ← ntt_timer_heap_elem_at self right;
    l ← ntt_timer_heap_elem_at self left;
    Ok (ntt_timer_heap_less r l)
  else Ok false.

Fixpoint sift_down_loop (fuel : nat) self (pos : Z) elem : res ntt_timer_heap :=
  match fuel with
  | O => Err OutOfFuel
  | S fuel =>
      let left := u32 (u32 (pos * 2) + 1) in
      if left >=? size self then ntt_timer_heap_place self pos elem
      else
        let right := u32 (left + 1) in
        b ← right_first self left right;
        let child := if b : bool then right else left in
        child_elem ← ntt_timer_heap_elem_at self child;
        if negb (ntt_timer_heap_less child_elem elem) then
          ntt_timer_heap_place self pos elem
        else
          self ← ntt_timer_heap_place self pos child_elem;
          sift_down_loop fuel self child elem
  end.

Definition ntt_timer_heap_sift_down self (pos : Z) elem : res ntt_timer_heap :=
  sift_down_loop (S (Z.to_nat (size self))) self pos elem.

(** ** Capacity *)
Fixpoint grow_loop (fuel : nat) (new_cap cnt : Z) : res Z :=
  match fuel with
  | O => Err OutOfFuel
  | S fuel => if new_cap <? cnt then grow_loop fuel (u32 (new_cap * 2)) cnt else Ok new_cap
  end.

(** Doubling a 32-bit number more than 32 times yields nothing new. *)
Definition ntt_timer_heap_grow_capacity (cap cnt : Z) : res Z :=
  grow_loop 33 (if cap =? 0 then NTT_TIMER_MIN_CAPACITY else cap) cnt.

Definition ntt_timer_heap_reserve_elem self (pos : Z) : res ntt_timer_heap :=
  if pos <? heap_cap self then Ok self
  else
    new_cap ← ntt_timer_heap_grow_capacity (heap_cap self) (u32 (pos + 1));
    h ← ntt_realloc_or_die None 24 new_cap (heap self);
    Ok (with_heap_cap h new_cap self).

Definition ntt_timer_heap_reserve_slot self (i : Z) : res ntt_timer_heap :=
  if i <? slot_cap self then Ok self
  else
    new_cap ← ntt_timer_heap_grow_capacity (slot_cap self) (u32 (i + 1));
    a ← ntt_realloc_or_die undef_slot 16 new_cap (slots self);
    Ok (with_slot_cap a new_cap self).

Definition ntt_timer_heap_shrink self : res ntt_timer_heap :=
  if heap_cap self <=? NTT_TIMER_MIN_CAPACITY then Ok self
  else if u32 (size self * 4) >? heap_cap self then Ok self
  else
    let new_cap := heap_cap self / 2 in
    h ← ntt_realloc_or_die None 24 new_cap (heap self);
    Ok (with_heap_cap h new_cap self).

(** ** Slots *)
Definition ntt_timer_heap_alloc_slot self : res (Z * ntt_timer_heap) :=
  if negb (free_head self =? NTT_TIMER_SLOT_NONE) then
    let i := free_head self in
    slot ← ntt_timer_heap_slot_at self i;
    next ← defined (slot_next_free slot);
    let self := with_free_head next self in
    v ← defined (slot_version slot);
    let v := u32 (v + 1) in
    self ← slot_store self i (set_version (Some v) slot);
    c_assert (Z.land v 1 =? 1) ;;
    Ok (i, self)
  else
    let i := slot_cnt self in
    self ← ntt_timer_heap_reserve_slot self i;
    let self := with_slot_cnt (u32 (slot_cnt self + 1)) self in
    slot ← ntt_timer_heap_slot_at self i;
    self ← slot_store self i (set_version (Some 1) slot);
    Ok (i, self).

Definition ntt_timer_heap_free_slot self (i : Z) : res ntt_timer_heap :=
  slot ← ntt_timer_heap_slot_at self i;
  let slot := set_task (Some NULL) slot in
  v ← defined (slot_version slot);
  let v := u32 (v + 1) in
  let slot := set_version (Some v) slot in
  c_assert (Z.land v 1 =? 0) ;;
  let slot := set_next_free (Some (free_head self)) slot in
  self ← slot_store self i slot;
  Ok (with_free_head i self).

(** ** Removing entries *)
Definition ntt_timer_heap_pop_root self : res ntt_timer_heap :=
  c_assert (size self >? 0) ;;
  let last := u32 (size self - 1) in
  if last =? 0 then ntt_timer_heap_shrink (with_size 0 self)
  else
    elem ← ntt_timer_heap_elem_at self last;
    let self := with_size last self in
    self ← ntt_timer_heap_sift_down self 0 elem;
    ntt_timer_heap_shrink self.

Fixpoint drop_dead_loop (fuel : nat) self : res ntt_timer_heap :=
  match fuel with
  | O => Err OutOfFuel
  | S fuel =>
      if size self >? 0 then
        root ← ntt_timer_heap_elem_at self 0;
        live ← ntt_timer_heap_elem_live self root;
        if live : bool then Ok self
        else
          self ← ntt_timer_heap_pop_root self;
          c_assert (tombstones self >? 0) ;;
          drop_dead_loop fuel (with_tombstones (u32 (tombstones self - 1)) self)
      else Ok self
  end.

Definition ntt_timer_heap_drop_dead_root self : res ntt_timer_heap :=
  drop_dead_loop (S (Z.to_nat (size self))) self.

(** The filter loop of [ntt_timer_heap_compact]: moves the live entries of
    the positions from [pos] on down to [out], and returns the final [out]. *)
Fixpoint compact_filter_loop (fuel : nat) self (out pos : Z) : res (Z * ntt_timer_heap) :=
  match fuel with
  | O => Err OutOfFuel
  | S fuel =>
      if pos <? size self then
        elem ← ntt_timer_heap_elem_at self pos;
        live ← ntt_timer_heap_elem_live self elem;
        if live : bool then
          self ← ntt_timer_heap_place self out elem;
          compact_filter_loop fuel self (u32 (out + 1)) (u32 (pos + 1))
        else compact_filter_loop fuel self out (u32 (pos + 1))
      else Ok (out, self)
  end.

(** [while (i-- > 0)] of Floyd's construction. *)
Fixpoint compact_build_loop (fuel : nat) self (i : Z) : res ntt_timer_heap :=
  match fuel with
  | O => Err OutOfFuel
  | S fuel =>
      if i >? 0 then
        let i := u32 (i - 1) in
        elem ← ntt_timer_heap_elem_at self i;
        self ← ntt_timer_heap_sift_down self i elem;
        compact_build_loop fuel self i
      else Ok self
  end.

Definition ntt_timer_heap_compact self : res ntt_timer_heap :=
  if u32 (tombstones self * 2) <=? size self then Ok self
  else
    '(out, self) ← compact_filter_loop (S (Z.to_nat (size self))) self 0 0;
    let self := with_tombstones 0 (with_size out self) in
    self ← (if size self >? 1
            then compact_build_loop (S (Z.to_nat (size self))) self (size self / 2)
            else Ok self);
    ntt_timer_heap_shrink self.

(** ** Public operations on the heap alone *)
Definition ntt_timer_heap_init : ntt_timer_heap :=
  mk_heap [] 0 [] 0 0 0 0 NTT_TIMER_SLOT_NONE 0.

Definition ntt_timer_heap_size self : Z := u32 (size self - tombstones self).

Definition ntt_timer_heap_empty self : bool := size self =? tombstones self.

Definition ntt_timer_heap_peek self : res (option Z * ntt_timer_heap) :=
  self ← ntt_timer_heap_drop_dead_root self;
  if size self =? 0 then Ok (None, self)
  else
    root ← ntt_timer_heap_elem_at self 0;
    Ok (Some (deadline root), self).

(** [ntt_timer_heap_push] after its assertions about the task. *)
Definition push_entry self (dl : Z) (task : ptr) : res (ntt_timer_tag * ntt_timer_heap) :=
  '(i, self) ← ntt_timer_heap_alloc_slot self;
  slot ← ntt_timer_heap_slot_at self i;
  self ← slot_store self i (set_task (Some task) slot);
  let pos := size self in
  self ← ntt_timer_heap_reserve_elem self pos;
  let self := with_size (u32 (pos + 1)) self in
  v ← defined (slot_version slot);
  let elem := mk_elem dl (seq_next self) i v in
  let self := with_seq_next (u64 (seq_next self + 1)) self in
  self ← ntt_timer_heap_sift_up self pos elem;
  Ok (mk_tag i v, self).
End ops.

(** ** Operations that involve the task of a timer

    What the timer heap needs from the code around it: where the heap is kept,
    the link check of a task, and the two calls of the task callback, which may
    come back to the heap and change it. *)
Class TaskHost (W : Type) : Type := {
  th_heap : W -> ntt_timer_heap;
  th_set_heap : ntt_timer_heap -> W -> W;
  th_task_unlinked : ptr -> W -> res bool;
  th_task_svc : ptr -> W -> res W;
  th_task_destroy : ptr -> W -> res W;
}.

Section host_ops.
Context `{Platform} {W : Type} `{TaskHost W}.
Implicit Types (w : W).

Definition ntt_timer_heap_push w (dl : Z) (task : ptr) : res (ntt_timer_tag * W) :=
  c_assert (negb (task =? NULL)) ;;
  unlinked ← th_task_unlinked task w;
  c_assert unlinked ;;
  '(tag, self) ← push_entry (th_heap w) dl task;
  Ok (tag, th_set_heap self w).

Definition ntt_timer_heap_cancel w (tag : ntt_timer_tag) : res W :=
  let self := th_heap w in
  c_assert (negb (ntt_timer_tag_is_null tag)) ;;
  c_assert (tag_index tag <? slot_cnt self) ;;
  if tag_index tag >=? slot_cnt self then Ok w
  else
    slot ← ntt_timer_heap_slot_at self (tag_index tag);
    v ← defined (slot_version slot);
    c_assert (v =? tag_version tag) ;;
    if negb (v =? tag_version tag) then Ok w
    else
      task ← defined (slot_task slot);
      self ← ntt_timer_heap_free_slot self (tag_index tag);
      let self := with_tombstones (u32 (tombstones self + 1)) self in
      w ← th_task_destroy task (th_set_heap self w);
      self ← ntt_timer_heap_compact (th_heap w);
      Ok (th_set_heap self w).

(** The task may arm timers that are due at once, so the loop of
    [ntt_timer_heap_svc] has no bound of its own. *)
Fixpoint ntt_timer_heap_svc (fuel : nat) w (now cnt : Z) : res (Z * W) :=
  match fuel with
  | O => Err OutOfFuel
  | S fuel =>
      let self := th_heap w in
      if size self =? 0 then Ok (cnt, w)
      else
        elem ← ntt_timer_heap_elem_at self 0;
        if deadline elem >? now then Ok (cnt, w)
        else
          self ← ntt_timer_heap_pop_root self;
          live ← ntt_timer_heap_elem_live self elem;
          if negb live then
            c_assert (tombstones self >? 0) ;;
            let self := with_tombstones (u32 (tombstones self - 1)) self in
            ntt_timer_heap_svc fuel (th_set_heap self w) now cnt
          else
            slot ← ntt_timer_heap_slot_at self (index elem);
            task ← defined (slot_task slot);
            self ← ntt_timer_heap_free_slot self (index elem);
            w ← th_task_svc task (th_set_heap self w);
            w ← th_task_destroy task w;
            ntt_timer_heap_svc fuel w now (u64 (cnt + 1))
  end.

Fixpoint deinit_loop (fuel : nat) w (pos : Z) : res W :=
  match fuel with
  | O => Err OutOfFuel
  | S fuel =>
      let self := th_heap w in
      if pos <? size self then
        elem ← ntt_timer_heap_elem_at self pos;
        live ← ntt_timer_heap_elem_live self elem;
        w ← (if live : bool then
               slot ← ntt_timer_heap_slot_at self (index elem);
               task ← defined (slot_task slot);
               th_task_destroy task w
             else Ok w);
        deinit_loop fuel w (u32 (pos + 1))
      else Ok w
  end.

Definition ntt_timer_heap_deinit w : res W :=
  w ← deinit_loop (S (Z.to_nat (size (th_heap w)))) w 0;
  Ok (th_set_heap ntt_timer_heap_init w).
End host_ops.
