(* ===== verification/TimerHeapArray.v ===== *)
(** * The timer heap: the array of entries

    The part of the invariant of [ntt_timer_heap_t] that concerns the array of
    entries, and its operations: sifting with a hole moves entries exactly as
    the textbook heap of [HeapOrder] does, growing and shrinking keep the
    entries, and dropping the root leaves a heap of the others. *)

From stdpp Require Import base numbers list gmap.
From Stdlib Require Import ZArith Lia.
From S2P Require Import Prelude.
From S2P Require Import HeapOrder.
From S2P Require Import TimerHeap.

#[local] Open Scope Z_scope.

(** ** Order of the entries *)
#[global] Instance timer_less_order : WeakOrder ntt_timer_heap_less.
Proof.
  split; unfold ntt_timer_heap_less.
  - intros x. repeat case_cmp; simpl; try done; lia.
  - intros x y. repeat case_cmp; simpl; intros; try done; lia.
  - intros x y z. repeat case_cmp; simpl; intros; try done; lia.
Qed.

(** ** The array of entries *)

(** Largest number of entries: beyond it [size * 4] of the shrink test wraps. *)
Definition MAX_TIMERS : Z := 2 ^ 30.

Definition cap_ok (c : Z) : Prop := c = 0 \/ exists k, 3 <= k <= 30 /\ c = 2 ^ k.

Record array_inv (s : ntt_timer_heap) (l : list ntt_timer_heap_elem) : Prop := {
  ai_cells : exists rest, heap s = (Some <$> l) ++ rest;
  ai_size : size s = Z.of_nat (length l);
  ai_cap : heap_cap s = Z.of_nat (length (heap s));
  ai_shape : cap_ok (heap_cap s);
}.

(** The array with the moving entry [e] put back in its hole at [pos] holds [v]. *)
Definition holds_at (s : ntt_timer_heap) (v : list ntt_timer_heap_elem)
    (rest : list (option ntt_timer_heap_elem)) (pos : nat) (e : ntt_timer_heap_elem) : Prop :=
  <[pos := Some e]> (heap s) = (Some <$> v) ++ rest /\
  v !! pos = Some e /\ size s = Z.of_nat (length v) /\ Z.of_nat (length v) <= MAX_TIMERS.

Lemma pow2_ge_8 k : 3 <= k -> 8 <= 2 ^ k.
Proof. intros. change 8 with (2 ^ 3). apply Z.pow_le_mono_r; lia. Qed.

Lemma pow2_le_30 k : k <= 30 -> 2 ^ k <= MAX_TIMERS.
Proof. intros. apply Z.pow_le_mono_r; lia. Qed.

Lemma cap_ok_bound c : cap_ok c -> c = 0 \/ 8 <= c <= MAX_TIMERS.
Proof.
  intros [->|(k & Hk & ->)]; [by left|right].
  split; [apply pow2_ge_8 | apply pow2_le_30]; lia.
Qed.

Section array.
Context `{Platform}.
Implicit Types (s : ntt_timer_heap) (l v : list ntt_timer_heap_elem).

Lemma elem_at_ok s (i : nat) e :
  Z.of_nat i < size s -> heap s !! i = Some (Some e) ->
  ntt_timer_heap_elem_at s (Z.of_nat i) = Ok e.
Proof.
  intros Hi He. unfold ntt_timer_heap_elem_at. assert_ok.
  erewrite arr_get_nat by done. done.
Qed.

Lemma place_ok s (i : nat) e :
  Z.of_nat i < size s -> (i < length (heap s))%nat ->
  ntt_timer_heap_place s (Z.of_nat i) e = Ok (with_heap (<[i := Some e]> (heap s)) s).
Proof.
  intros Hi Hl. unfold ntt_timer_heap_place. assert_ok. by rewrite arr_set_nat.
Qed.

Lemma array_lookup s l (i : nat) e :
  array_inv s l -> l !! i = Some e -> heap s !! i = Some (Some e).
Proof.
  intros [[rest ->] _ _ _] He. apply lookup_app_l_Some.
  by rewrite list_lookup_fmap, He.
Qed.

Lemma array_elem_at s l (i : nat) e :
  array_inv s l -> l !! i = Some e -> ntt_timer_heap_elem_at s (Z.of_nat i) = Ok e.
Proof.
  intros Hinv He. apply elem_at_ok; [|by eapply array_lookup].
  rewrite (ai_size _ _ Hinv). apply lookup_lt_Some in He. lia.
Qed.

Lemma holds_lookup s v rest pos e i x :
  holds_at s v rest pos e -> i <> pos -> v !! i = Some x -> heap s !! i = Some (Some x).
Proof.
  intros (Hc & _) Hne Hx.
  rewrite <- (list_lookup_insert_ne (heap s) pos i (Some e)) by done.
  rewrite Hc. apply lookup_app_l_Some. by rewrite list_lookup_fmap, Hx.
Qed.

Lemma holds_length s v rest pos e :
  holds_at s v rest pos e -> (pos < length v <= length (heap s))%nat.
Proof.
  intros (Hc & Hp & _). apply lookup_lt_Some in Hp.
  apply (f_equal length) in Hc. rewrite length_insert, length_app, length_fmap in Hc. lia.
Qed.

(** Moving the hole from [pos] to [i] is a swap of the abstract list. *)
Lemma holds_move s v rest pos e i x :
  holds_at s v rest pos e -> i <> pos -> v !! i = Some x ->
  holds_at (with_heap (<[pos := Some x]> (heap s)) s) (swap pos i v) rest i e.
Proof.
  intros Hh Hne Hx. pose proof Hh as (Hc & Hp & Hs & Hm).
  pose proof (holds_length _ _ _ _ _ Hh). apply lookup_lt_Some in Hx as Hi.
  unfold holds_at. simpl.
  rewrite length_swap, (lookup_swap _ _ _ e x) by done.
  rewrite decide_False, decide_True by done. split_and!; try done.
  rewrite <- (list_insert_insert_eq (heap s) pos (Some x) (Some e)), Hc.
  unfold swap. rewrite Hp, Hx, !list_fmap_insert.
  rewrite list_insert_insert_ne by done.
  rewrite !insert_app_l; rewrite ?length_insert, ?length_fmap; [done|lia..].
Qed.

Lemma holds_place s v rest pos e :
  holds_at s v rest pos e ->
  ntt_timer_heap_place s (Z.of_nat pos) e = Ok (with_heap ((Some <$> v) ++ rest) s).
Proof.
  intros Hh. pose proof (holds_length _ _ _ _ _ Hh). destruct Hh as (Hc & _ & Hs & _).
  rewrite place_ok by lia. by rewrite Hc.
Qed.

(** ** Sifting moves entries as the textbook heap does *)
Lemma parent_Z (pos : nat) :
  (0 < pos)%nat -> Z.of_nat pos < 2 ^ 32 ->
  u32 (Z.of_nat pos - 1) / 2 = Z.of_nat (parent pos).
Proof.
  intros Hp Hb. no_wrap. unfold parent. rewrite Nat2Z.inj_div, Nat2Z.inj_sub by lia. done.
Qed.

Lemma sift_up_loop_refines fuel s v rest (pos : nat) e :
  holds_at s v rest pos e -> (pos <= fuel)%nat ->
  sift_up_loop (S fuel) s (Z.of_nat pos) e =
    Ok (with_heap ((Some <$> swim ntt_timer_heap_less fuel v pos) ++ rest) s).
Proof.
  revert s v pos. induction fuel as [|fuel IH]; intros s v pos Hh Hf.
  - assert (pos = O) as -> by lia. simpl. by rewrite (holds_place _ _ _ O _ Hh).
  - cbn [sift_up_loop swim]. destruct Hh as (Hc & Hp & Hs & Hm) eqn:E. clear E.
    rewrite Hp. destruct (Nat.ltb_spec 0 pos) as [Hpos|Hpos].
    + pose proof (holds_length _ _ _ _ _ Hh) as Hlen. pose proof (parent_lt pos Hpos).
      destruct (lookup_lt_is_Some_2 v (parent pos)) as [x Hx]; [lia|]. rewrite Hx.
      destruct (Z.gtb_spec (Z.of_nat pos) 0); [|lia].
      rewrite parent_Z by (unfold MAX_TIMERS in *; lia).
      rewrite (elem_at_ok s (parent pos) x) by
        (try lia; eapply holds_lookup; eauto; lia).
      rewrite bind_ok. simpl. destruct (ntt_timer_heap_less e x); simpl.
      * rewrite place_ok by lia. rewrite bind_ok.
        apply (IH (with_heap _ s)); [|lia]. by eapply holds_move; eauto; lia.
      * by apply holds_place.
    + assert (pos = O) as -> by lia. simpl. rewrite (holds_place _ _ _ O _ Hh).
      by destruct (v !! parent 0).
Qed.

Lemma right_first_ok s v rest (pos : nat) e (i : nat) x :
  holds_at s v rest pos e -> (pos <= i)%nat -> v !! (2 * i + 1)%nat = Some x ->
  right_first s (Z.of_nat (2 * i + 1)) (Z.of_nat (2 * i + 2)) =
    Ok (bool_decide (min_child ntt_timer_heap_less v i = (2 * i + 2)%nat)).
Proof.
  intros Hh Hle Hx. pose proof Hh as (_ & _ & Hs & _). unfold right_first, min_child.
  rewrite Hx. destruct (Z.ltb_spec (Z.of_nat (2 * i + 2)) (size s)).
  - destruct (lookup_lt_is_Some_2 v (2 * i + 2)) as [y Hy]; [lia|]. rewrite Hy.
    rewrite (elem_at_ok s (2 * i + 2) y) by (try lia; eapply holds_lookup; eauto; lia).
    rewrite (elem_at_ok s (2 * i + 1) x) by (try lia; eapply holds_lookup; eauto; lia).
    rewrite !bind_ok. destruct (ntt_timer_heap_less y x);
      [by rewrite bool_decide_true | rewrite bool_decide_false; [done|lia]].
  - rewrite lookup_ge_None_2 by lia. rewrite bool_decide_false; [done|lia].
Qed.

Lemma sift_down_loop_refines fuel s v rest (pos : nat) e :
  holds_at s v rest pos e -> (length v <= fuel + pos)%nat ->
  sift_down_loop (S fuel) s (Z.of_nat pos) e =
    Ok (with_heap ((Some <$> sink ntt_timer_heap_less fuel v pos) ++ rest) s).
Proof.
  revert s v pos. induction fuel as [|fuel IH]; intros s v pos Hh Hf.
  - pose proof (holds_length _ _ _ _ _ Hh). lia.
  - pose proof (holds_length _ _ _ _ _ Hh) as Hlen.
    pose proof Hh as (_ & Hp & Hs & Hm). unfold MAX_TIMERS in Hm.
    remember (S fuel) as f eqn:Ef. cbn [sift_down_loop]. rewrite Ef. cbn [sink].
    replace (u32 (u32 (Z.of_nat pos * 2) + 1)) with (Z.of_nat (2 * pos + 1))
      by (no_wrap; lia).
    replace (u32 (Z.of_nat (2 * pos + 1) + 1)) with (Z.of_nat (2 * pos + 2))
      by (no_wrap; lia).
    rewrite Hp. destruct (Z.geb_spec (Z.of_nat (2 * pos + 1)) (size s)) as [Hge|Hlt].
    { rewrite (holds_place _ _ _ _ _ Hh).
      assert (v !! min_child ntt_timer_heap_less v pos = None) as ->; [|done].
      apply lookup_ge_None. destruct (min_child_parent ntt_timer_heap_less v pos) as [H0 H1].
      apply parent_children in H1; lia. }
    destruct (lookup_lt_is_Some_2 v (2 * pos + 1)) as [x Hx]; [lia|].
    rewrite (right_first_ok _ _ _ _ _ pos x Hh) by (lia || done). rewrite bind_ok.
    destruct (min_child_parent ntt_timer_heap_less v pos) as [Hm0 Hmp].
    pose proof (proj1 (parent_children _ _ Hm0) Hmp) as Hch.
    pose proof (parent_lt _ Hm0) as Hgt. rewrite Hmp in Hgt.
    destruct (min_child_some ntt_timer_heap_less v pos x Hx) as [c Hc].
    set (m := min_child ntt_timer_heap_less v pos) in *.
    replace (if bool_decide (m = (2 * pos + 2)%nat) then Z.of_nat (2 * pos + 2)
             else Z.of_nat (2 * pos + 1)) with (Z.of_nat m) by (case_bool_decide; lia).
    rewrite Hc, (elem_at_ok s m c) by
      (try (eapply holds_lookup; eauto; lia); apply lookup_lt_Some in Hc; lia).
    rewrite bind_ok. destruct (ntt_timer_heap_less c e); cbn [negb].
    + rewrite place_ok by lia. rewrite bind_ok, <- Ef.
      apply (IH (with_heap _ s)); [|rewrite length_swap; lia].
      by eapply holds_move; eauto; lia.
    + by apply holds_place.
Qed.

Lemma sift_up_refines s v rest (pos : nat) e :
  holds_at s v rest pos e ->
  ntt_timer_heap_sift_up s (Z.of_nat pos) e =
    Ok (with_heap ((Some <$> swim ntt_timer_heap_less pos v pos) ++ rest) s).
Proof.
  intros Hh. unfold ntt_timer_heap_sift_up. rewrite Nat2Z.id.
  by apply sift_up_loop_refines.
Qed.

Lemma sift_down_refines s v rest (pos : nat) e :
  holds_at s v rest pos e ->
  ntt_timer_heap_sift_down s (Z.of_nat pos) e =
    Ok (with_heap ((Some <$> sink ntt_timer_heap_less (length v) v pos) ++ rest) s).
Proof.
  intros Hh. unfold ntt_timer_heap_sift_down. rewrite (proj1 (proj2 (proj2 Hh))), Nat2Z.id.
  apply sift_down_loop_refines; [done|lia].
Qed.

(** ** Capacity *)
Lemma grow_loop_pow2 fuel k m cnt :
  0 <= k <= m -> m <= 31 -> cnt <= 2 ^ m -> m - k < Z.of_nat fuel ->
  exists j, k <= j <= m /\ grow_loop fuel (2 ^ k) cnt = Ok (2 ^ j) /\
    cnt <= 2 ^ j /\ (j = k \/ 2 ^ (j - 1) < cnt).
Proof.
  revert k. induction fuel as [|fuel IH]; intros k Hk Hm Hcnt Hf; [lia|]. simpl.
  destruct (Z.ltb_spec (2 ^ k) cnt) as [Hlt|Hge].
  - assert (k < m) by (apply (Z.pow_lt_mono_r_iff 2); lia).
    assert (2 ^ k * 2 = 2 ^ (k + 1)) as E by (rewrite Z.pow_add_r; lia).
    assert (2 ^ (k + 1) < 2 ^ 32) by (apply Z.pow_lt_mono_r; lia).
    pose proof (Z.pow_nonneg 2 (k + 1)).
    rewrite E, u32_small by lia.
    destruct (IH (k + 1)) as (j & Hj & Hok & Hle & Hmin); [lia..|].
    exists j. split_and!; [lia..|done|done|]. right.
    destruct Hmin as [->|]; [|done]. by replace (k + 1 - 1) with k by lia.
  - exists k. split_and!; auto; lia.
Qed.

Lemma grow_capacity_ok cap cnt :
  cap_ok cap -> cnt <= MAX_TIMERS ->
  exists c, ntt_timer_heap_grow_capacity cap cnt = Ok c /\
    cap_ok c /\ cnt <= c /\ cap <= c /\ 0 < c.
Proof.
  intros Hcap Hcnt. unfold ntt_timer_heap_grow_capacity.
  assert (exists k, 3 <= k <= 30 /\ cap <= 2 ^ k /\
    (if cap =? 0 then NTT_TIMER_MIN_CAPACITY else cap) = 2 ^ k) as (k & Hk & Hle & ->).
  { destruct Hcap as [->|(k & Hk & ->)]; [by exists 3|].
    exists k. pose proof (pow2_ge_8 k). case_cmp; [lia|]. split_and!; auto; lia. }
  unfold MAX_TIMERS in Hcnt.
  destruct (grow_loop_pow2 33 k 30 cnt) as (j & Hj & -> & Hcj & _); [lia..|].
  assert (2 ^ k <= 2 ^ j) by (apply Z.pow_le_mono_r; lia).
  exists (2 ^ j). pose proof (pow2_ge_8 j).
  split_and!; [done|right; exists j; split; [lia|done]|lia..].
Qed.

(** What array operations leave alone. *)
Definition array_frame s s' : Prop :=
  s' = mk_heap (heap s') (heap_cap s') (slots s) (slot_cap s) (size s')
         (tombstones s) (slot_cnt s) (free_head s) (seq_next s).

Lemma array_frame_refl s : array_frame s s.
Proof. by destruct s. Qed.

Lemma array_frame_trans s1 s2 s3 :
  array_frame s1 s2 -> array_frame s2 s3 -> array_frame s1 s3.
Proof. unfold array_frame. intros -> ->. done. Qed.

Lemma realloc_ok s l n :
  array_inv s l -> cap_ok n -> Z.of_nat (length l) <= n ->
  returns (h ← ntt_realloc_or_die None 24 n (heap s); Ok (with_heap_cap h n s))
    (fun s' => array_frame s s' /\ array_inv s' l /\ heap_cap s' = n).
Proof.
  intros Hinv Hn Hl. unfold ntt_realloc_or_die.
  destruct (alloc_ok (24 * n)) eqn:Hal; [|simpl; eauto].
  rewrite bind_ok. apply returns_ok. split_and!; [done| |done].
  destruct Hinv as [[rest Hc] Hs Hcap _]. split; simpl; [|done| |done].
  - rewrite Hc. apply realloc_cells_prefix. by rewrite length_fmap.
  - rewrite length_realloc_cells; lia.
Qed.

Lemma array_inv_cap s l : array_inv s l -> Z.of_nat (length l) <= heap_cap s.
Proof.
  intros [[rest Hc] _ Hcap _]. rewrite Hcap, Hc, length_app, length_fmap. lia.
Qed.

Lemma reserve_elem_ok s l :
  array_inv s l -> size s < MAX_TIMERS ->
  returns (ntt_timer_heap_reserve_elem s (size s))
    (fun s' => array_frame s s' /\ array_inv s' l /\ size s < heap_cap s').
Proof.
  intros Hinv Hmax. unfold ntt_timer_heap_reserve_elem.
  pose proof (ai_size _ _ Hinv) as Hs.
  destruct (Z.ltb_spec (size s) (heap_cap s)).
  { apply returns_ok. eauto using array_frame_refl. }
  unfold MAX_TIMERS in Hmax. no_wrap.
  destruct (grow_capacity_ok (heap_cap s) (size s + 1)) as (c & -> & Hc & Hle & _);
    [apply Hinv | unfold MAX_TIMERS; lia |].
  rewrite bind_ok. eapply returns_mono; [apply realloc_ok; eauto; lia|].
  intros s' (? & ? & ->). split_and!; auto; lia.
Qed.

Lemma shrink_ok s l :
  array_inv s l -> size s < MAX_TIMERS ->
  returns (ntt_timer_heap_shrink s) (fun s' => array_frame s s' /\ array_inv s' l).
Proof.
  intros Hinv Hmax. unfold ntt_timer_heap_shrink, NTT_TIMER_MIN_CAPACITY.
  pose proof (ai_size _ _ Hinv) as Hs. unfold MAX_TIMERS in Hmax.
  destruct (Z.leb_spec (heap_cap s) 8).
  { apply returns_ok. eauto using array_frame_refl. }
  no_wrap. destruct (Z.gtb_spec (size s * 4) (heap_cap s)).
  { apply returns_ok. eauto using array_frame_refl. }
  destruct (ai_shape _ _ Hinv) as [|(k & Hk & Hkc)]; [lia|].
  assert (3 < k) by (apply (Z.pow_lt_mono_r_iff 2); lia).
  assert (heap_cap s / 2 = 2 ^ (k - 1)) as ->.
  { rewrite Hkc. replace k with (k - 1 + 1) at 1 by lia.
    rewrite Z.pow_add_r, Z.div_mul; lia. }
  assert (heap_cap s = 2 * 2 ^ (k - 1)).
  { rewrite Hkc, <- Z.pow_succ_r by lia. f_equal. lia. }
  eapply returns_mono; [apply realloc_ok; [done| |lia]|intros ? (? & ? & _); auto].
  right. exists (k - 1). split; [lia|done].
Qed.

(** ** Dropping the root *)
Lemma pop_root_ok s l r :
  array_inv s l -> heap_ordered ntt_timer_heap_less l -> l !! O = Some r ->
  returns (ntt_timer_heap_pop_root s) (fun s' => exists l',
    array_frame s s' /\ array_inv s' l' /\ l ≡ₚ r :: l' /\
    heap_ordered ntt_timer_heap_less l').
Proof.
  intros Hinv Ho Hr. destruct l as [|r' l1]; simplify_eq/=.
  pose proof (array_inv_cap _ _ Hinv) as Hcap.
  destruct (cap_ok_bound _ (ai_shape _ _ Hinv)) as [|[_ Hmax]]; [simpl in *; lia|].
  pose proof Hinv as [[rest Hc] Hs Hcl Hsh]. unfold MAX_TIMERS in Hmax.
  unfold ntt_timer_heap_pop_root. simpl in *. assert_ok. no_wrap.
  destruct (list_eq_nil_dec l1) as [->|Hne]; simpl in *.
  - destruct (Z.eqb_spec (size s - 1) 0); [|lia].
    eapply returns_mono.
    + apply (shrink_ok (with_size 0 s) []); simpl; [|unfold MAX_TIMERS; lia].
      split; simpl; [by exists (heap s)|done..].
    + simpl. intros s' (Hf & Ha). exists []. split_and!; auto. apply heap_ordered_nil.
  - destruct (exists_last Hne) as (mid & x & ->). rewrite length_app in *. simpl in *.
    destruct (Z.eqb_spec (size s - 1) 0); [lia|].
    replace (size s - 1) with (Z.of_nat (S (length mid))) by lia.
    rewrite (array_elem_at s (r :: mid ++ [x]) _ x Hinv)
      by (simpl; by rewrite list_lookup_middle). rewrite bind_ok.
    rewrite (sift_down_refines _ (x :: mid) (Some x :: rest) O x), bind_ok.
    2:{ split_and!; simpl; [|done|lia|unfold MAX_TIMERS; lia].
        rewrite Hc. simpl. by rewrite fmap_app, <- app_assoc. }
    set (l' := sink _ _ _ _).
    assert (Hlen : length l' = S (length mid)) by (unfold l'; by rewrite length_sink).
    eapply returns_mono.
    + apply (shrink_ok _ l'); simpl; [|unfold MAX_TIMERS; lia].
      split; simpl; [eauto|by rewrite Hlen| |done].
      rewrite Hcl, Hc. simpl.
      rewrite !length_app, !length_fmap, length_app, Hlen. simpl. lia.
    + simpl. intros s' (Hf & Ha). exists l'. split_and!; auto.
      * rewrite <- Permutation_cons_append. unfold l'. by rewrite sink_perm.
      * apply sink_ordered; [apply _|simpl; lia|].
        apply (down_inv_root ntt_timer_heap_less (r :: mid) x).
        eapply heap_ordered_prefix. simpl. exact Ho.
Qed.
End array.
