(* ===== verification/TimerHeapInv.v ===== *)
(** * The timer heap: invariant and preservation

    The invariant of [ntt_timer_heap_t] and the lemmas that every operation of
    [TimerHeap] keeps it: the array holds a binary heap of entries, the slab a
    free list of vacant slots, and the entries and the slots agree. *)

From stdpp Require Import base numbers list gmap.
From Stdlib Require Import ZArith Lia.
From S2P Require Import Prelude.
From S2P Require Import HeapOrder.
From S2P Require Import TimerHeap.
From S2P Require Import TimerHeapArray.

#[local] Open Scope Z_scope.

(** ** The slab of slots *)
Definition slot_of (s : ntt_timer_heap) (i : Z) : option ntt_timer_slot :=
  if bool_decide (0 <= i < slot_cnt s) then slots s !! Z.to_nat i else None.

Definition ver_at (s : ntt_timer_heap) (i : Z) : option Z := slot_of s i ≫= slot_version.
Definition task_at (s : ntt_timer_heap) (i : Z) : option ptr := slot_of s i ≫= slot_task.

(** The free list: the slots from [h] on, linked by [next_free]. *)
Fixpoint free_chain (s : ntt_timer_heap) (h : Z) (fl : list Z) : Prop :=
  match fl with
  | [] => h = NTT_TIMER_SLOT_NONE
  | i :: fl => h = i /\ exists sl nx,
      slot_of s i = Some sl /\ slot_next_free sl = Some nx /\ free_chain s nx fl
  end.

Record slots_inv (s : ntt_timer_heap) (fl : list Z) : Prop := {
  si_cap : slot_cap s = Z.of_nat (length (slots s));
  si_shape : cap_ok (slot_cap s);
  si_cnt : 0 <= slot_cnt s <= slot_cap s;
  si_ver : forall i, 0 <= i < slot_cnt s -> exists v, ver_at s i = Some v /\ 0 <= v < 2 ^ 32;
  si_chain : free_chain s (free_head s) fl;
  si_nodup : NoDup fl;
  si_free : forall i, i ∈ fl <-> exists v, ver_at s i = Some v /\ Z.odd v = false;
}.

Lemma slot_of_bounds s i sl : slot_of s i = Some sl -> 0 <= i < slot_cnt s.
Proof. unfold slot_of. case_bool_decide; [done|discriminate]. Qed.

Lemma ver_at_slot s i v :
  ver_at s i = Some v -> exists sl, slot_of s i = Some sl /\ slot_version sl = Some v.
Proof. unfold ver_at. destruct (slot_of s i); simpl; [eauto|discriminate]. Qed.

Lemma ver_at_bounds s i v : ver_at s i = Some v -> 0 <= i < slot_cnt s.
Proof. intros (sl & Hs & _)%ver_at_slot. by eapply slot_of_bounds. Qed.

Lemma free_chain_ext s s' h fl :
  (forall i sl, i ∈ fl -> slot_of s i = Some sl -> slot_of s' i = Some sl) ->
  free_chain s h fl -> free_chain s' h fl.
Proof.
  revert h. induction fl as [|i fl IH]; simpl; [done|]. intros h Hext (-> & sl & nx & Hs & Hn & Hc).
  split; [done|]. exists sl, nx. split_and!; [|done|].
  - apply Hext; [by left|done].
  - apply IH; [|done]. intros. apply Hext; [by right|done].
Qed.

Section slots.
Context `{Platform}.
Implicit Types (s : ntt_timer_heap).

Lemma slots_length s fl i :
  slots_inv s fl -> 0 <= i < slot_cnt s -> 0 <= i < Z.of_nat (length (slots s)).
Proof. intros [] ?. lia. Qed.

Lemma slot_at_ok s fl i :
  slots_inv s fl -> 0 <= i < slot_cnt s ->
  exists sl v, ntt_timer_heap_slot_at s i = Ok sl /\ slot_of s i = Some sl /\
    slot_version sl = Some v /\ ver_at s i = Some v /\ 0 <= v < 2 ^ 32.
Proof.
  intros Hinv Hi. destruct (si_ver _ _ Hinv i Hi) as (v & Hv & Hvr).
  destruct (ver_at_slot _ _ _ Hv) as (sl & Hsl & Hslv).
  exists sl, v. split_and!; auto; try lia.
  unfold ntt_timer_heap_slot_at. assert_ok. unfold slot_of in Hsl.
  rewrite bool_decide_true in Hsl by done. apply arr_get_lookup; [lia|done].
Qed.

Lemma slot_store_ok s i sl :
  0 <= i < Z.of_nat (length (slots s)) ->
  slot_store s i sl = Ok (with_slots (<[Z.to_nat i := sl]> (slots s)) s).
Proof. intros Hi. unfold slot_store. by rewrite arr_set_lookup. Qed.

(** Reading back a slot that was written, whatever else changed. *)
Lemma slot_of_insert s s' i j sl :
  slots s' = <[Z.to_nat i := sl]> (slots s) -> slot_cnt s' = slot_cnt s ->
  0 <= i < slot_cnt s -> i < Z.of_nat (length (slots s)) ->
  slot_of s' j = if decide (j = i) then Some sl else slot_of s j.
Proof.
  intros Hs Hc Hi Hl. unfold slot_of. rewrite Hs, Hc.
  destruct (decide (j = i)) as [->|Hne].
  - rewrite bool_decide_true by lia. apply list_lookup_insert_eq. lia.
  - case_bool_decide; [|done]. apply list_lookup_insert_ne. lia.
Qed.

(** What slot operations leave alone. *)
Definition slot_frame s s' : Prop :=
  s' = mk_heap (heap s) (heap_cap s) (slots s') (slot_cap s') (size s)
         (tombstones s) (slot_cnt s') (free_head s') (seq_next s).

Lemma free_slot_ok s fl i v :
  slots_inv s fl -> ver_at s i = Some v -> Z.odd v = true ->
  exists s', ntt_timer_heap_free_slot s i = Ok s' /\ slot_frame s s' /\
    slots_inv s' (i :: fl) /\ slot_cnt s' = slot_cnt s /\
    (forall j, ver_at s' j = if decide (j = i) then Some (u32 (v + 1)) else ver_at s j) /\
    (forall j, task_at s' j = if decide (j = i) then Some NULL else task_at s j).
Proof.
  intros Hinv Hv Hodd. pose proof (ver_at_bounds _ _ _ Hv) as Hi.
  pose proof (slots_length _ _ _ Hinv Hi) as Hl.
  destruct (slot_at_ok s fl i Hinv Hi) as (sl & v' & Hat & Hsl & Hslv & Hv' & Hvr).
  assert (v' = v) as -> by congruence.
  unfold ntt_timer_heap_free_slot. rewrite Hat, bind_ok. simpl. rewrite Hslv. simpl.
  rewrite c_assert_true, bind_ok by
    (rewrite land_1_odd, u32_odd, (odd_succ_true v) by done; done).
  rewrite slot_store_ok by done. rewrite bind_ok.
  eexists. split; [reflexivity|]. set (s' := with_free_head _ _).
  set (sl' := mk_slot (Some NULL) (Some (u32 (v + 1))) (Some (free_head s))).
  assert (Hso : forall j, slot_of s' j = if decide (j = i) then Some sl' else slot_of s j)
    by (intros j; apply slot_of_insert; simpl; [done|done|lia|lia]).
  assert (Hve : forall j, ver_at s' j = if decide (j = i) then Some (u32 (v + 1)) else ver_at s j)
    by (intros j; unfold ver_at; rewrite Hso; by case_decide).
  assert (Hnot : i ∉ fl).
  { rewrite (si_free _ _ Hinv). intros (v' & ? & ?). congruence. }
  split_and!; [done| |done|done|intros j; unfold task_at; rewrite Hso; by case_decide].
  pose proof Hinv as [Hcap Hsh Hcnt Hver Hch Hnd Hfree].
  split; simpl; [by rewrite length_insert|done|done| | |by constructor|].
  - intros j Hj. rewrite Hve. case_decide; [|by apply Hver].
    eexists. split; [done|]. apply u32_range.
  - split; [done|]. exists sl', (free_head s). rewrite Hso, decide_True by done.
    split_and!; [done..|]. apply free_chain_ext with s; [|done].
    intros j sl0 Hj. rewrite Hso. rewrite decide_False; [done|]. by intros ->.
  - intros j. rewrite elem_of_cons, Hfree. setoid_rewrite Hve.
    destruct (decide (j = i)) as [->|Hne]; [|split; [intros [|]; done|by right]].
    split; [|by left]. intros _. eexists. split; [done|].
    rewrite u32_odd. by apply odd_succ_true.
Qed.

(** The tag the next armed timer gets. *)
Definition next_tag s : ntt_timer_tag :=
  if free_head s =? NTT_TIMER_SLOT_NONE then mk_tag (slot_cnt s) 1
  else mk_tag (free_head s) (u32 (default 0 (ver_at s (free_head s)) + 1)).

Lemma slots_inv_bound s fl i : slots_inv s fl -> 0 <= i < slot_cnt s -> i < NTT_TIMER_SLOT_NONE.
Proof.
  intros [_ Hsh Hcnt _ _ _ _] Hi. destruct (cap_ok_bound _ Hsh) as [|[_ Hm]]; [lia|].
  unfold NTT_TIMER_SLOT_NONE, UINT32_MAX, MAX_TIMERS in *. lia.
Qed.

(** Taking a slot off the free list. *)
Lemma alloc_slot_reuse s i fl :
  slots_inv s (i :: fl) ->
  exists s' v, ntt_timer_heap_alloc_slot s = Ok (i, s') /\ slot_frame s s' /\
    slots_inv s' fl /\ slot_cnt s' = slot_cnt s /\
    next_tag s = mk_tag i v /\ Z.odd v = true /\ ver_at s i <> Some v /\
    (forall j, ver_at s' j = if decide (j = i) then Some v else ver_at s j) /\
    (forall j, task_at s' j = task_at s j).
Proof.
  intros Hinv. pose proof Hinv as [Hcap Hsh Hcnt Hver Hch Hnd Hfree].
  simpl in Hch. destruct Hch as (Hhd & sl & nx & Hsl & Hnx & Hch).
  pose proof (slot_of_bounds _ _ _ Hsl) as Hi.
  pose proof (slots_length _ _ _ Hinv Hi) as Hl.
  pose proof (slots_inv_bound _ _ _ Hinv Hi) as Hnone.
  destruct (slot_at_ok s _ i Hinv Hi) as (sl' & v & Hat & Hsl' & Hslv & Hv & Hvr).
  assert (sl' = sl) as -> by congruence.
  assert (Hev : Z.odd v = false).
  { destruct (proj1 (Hfree i)) as (v' & ? & ?); [by left|congruence]. }
  assert (Hod : Z.odd (u32 (v + 1)) = true) by (rewrite u32_odd; by apply odd_succ_false).
  unfold ntt_timer_heap_alloc_slot. rewrite Hhd. destruct (Z.eqb_spec i NTT_TIMER_SLOT_NONE); [lia|].
  simpl. rewrite Hat, bind_ok, Hnx. simpl. rewrite Hslv. simpl.
  rewrite slot_store_ok by (simpl; lia). rewrite bind_ok.
  rewrite c_assert_true, bind_ok by (by rewrite land_1_odd, Hod).
  set (sl' := set_version (Some (u32 (v + 1))) sl).
  set (s' := with_slots _ _).
  assert (Hso : forall j, slot_of s' j = if decide (j = i) then Some sl' else slot_of s j)
    by (intros j; apply slot_of_insert; simpl; [done|done|lia|lia]).
  assert (Hve : forall j, ver_at s' j = if decide (j = i) then Some (u32 (v + 1)) else ver_at s j)
    by (intros j; unfold ver_at; rewrite Hso; by case_decide).
  apply NoDup_cons in Hnd as [Hnot Hnd].
  exists s', (u32 (v + 1)). split_and!; [done|done| |done| |done| |done|].
  - split; simpl; [by rewrite length_insert|done|done| | |done|].
    + intros j Hj. rewrite Hve. case_decide; [|by apply Hver].
      eexists. split; [done|]. apply u32_range.
    + apply free_chain_ext with s; [|done].
      intros j sl0 Hj. rewrite Hso. rewrite decide_False; [done|]. by intros ->.
    + intros j. setoid_rewrite Hve. specialize (Hfree j). rewrite elem_of_cons in Hfree.
      destruct (decide (j = i)) as [->|Hne].
      * split; [done|]. intros (? & ? & ?). simplify_eq. congruence.
      * rewrite <- Hfree. split; [by right|by intros [|]].
  - unfold next_tag. rewrite Hhd. destruct (Z.eqb_spec i NTT_TIMER_SLOT_NONE); [lia|].
    by rewrite Hv.
  - rewrite Hv. intros [= Heq]. rewrite <- Heq in Hod. congruence.
  - intros j. unfold task_at. rewrite Hso. case_decide; [|done]. subst j. by rewrite Hsl.
Qed.

(** Handing out a slot that was never used. *)
Lemma alloc_slot_fresh s :
  slots_inv s [] -> slot_cnt s < MAX_TIMERS ->
  returns (ntt_timer_heap_alloc_slot s) (fun '(i, s') =>
    i = slot_cnt s /\ slot_frame s s' /\ slots_inv s' [] /\
    slot_cnt s' = slot_cnt s + 1 /\ next_tag s = mk_tag i 1 /\
    (forall j, ver_at s' j = if decide (j = i) then Some 1 else ver_at s j) /\
    (forall j, j <> i -> task_at s' j = task_at s j)).
Proof.
  intros Hinv Hmax. pose proof Hinv as [Hcap Hsh Hcnt Hver Hch Hnd Hfree]. simpl in Hch.
  unfold ntt_timer_heap_alloc_slot. rewrite Hch, Z.eqb_refl. cbn [negb].
  apply returns_bind with (fun s1 => slot_frame s s1 /\ cap_ok (slot_cap s1) /\
    slot_cap s1 = Z.of_nat (length (slots s1)) /\ slot_cnt s1 = slot_cnt s /\
    free_head s1 = free_head s /\
    slot_cnt s < slot_cap s1 /\ exists rest, slots s1 = slots s ++ rest).
  { unfold ntt_timer_heap_reserve_slot, MAX_TIMERS in *.
    destruct (Z.ltb_spec (slot_cnt s) (slot_cap s)).
    { apply returns_ok. split_and!; auto; [by destruct s|]. exists []. by rewrite app_nil_r. }
    no_wrap. destruct (grow_capacity_ok (slot_cap s) (slot_cnt s + 1)) as (c & -> & Hc & Hle & Hge & _);
      [done|unfold MAX_TIMERS; lia|].
    rewrite bind_ok. unfold ntt_realloc_or_die.
    destruct (alloc_ok (16 * c)) eqn:Hal; [|simpl; eauto].
    rewrite bind_ok. apply returns_ok. simpl.
    rewrite length_realloc_cells by lia. split_and!; [done..|lia|].
    destruct (realloc_cells_prefix undef_slot c (slots s) []) as [rest Hr]; [lia|].
    rewrite app_nil_r in Hr. eauto. }
  intros s1 (Hfr & Hsh1 & Hcap1 & Hcnt1 & Hfh1 & Hlt & rest & Hrest).
  pose proof (length_app (slots s) rest) as Hlen. rewrite <- Hrest in Hlen.
  rewrite Hcnt1. unfold MAX_TIMERS in Hmax. no_wrap.
  set (n := slot_cnt s) in *.
  unfold ntt_timer_heap_slot_at. simpl. assert_ok.
  destruct (lookup_lt_is_Some_2 (slots s1) (Z.to_nat n)) as [sl Hsl]; [lia|].
  erewrite arr_get_lookup by (done || lia). rewrite bind_ok.
  rewrite slot_store_ok by (simpl; lia). rewrite bind_ok. apply returns_ok. simpl.
  set (s' := with_slots _ _).
  assert (Hso : forall j, slot_of s' j =
    if decide (j = n) then Some (set_version (Some 1) sl) else slot_of s j).
  { intros j. unfold slot_of. simpl. fold n. destruct (decide (j = n)) as [->|Hne].
    - rewrite bool_decide_true by lia. apply list_lookup_insert_eq. lia.
    - destruct (decide (0 <= j < n)) as [Hj|Hj].
      + rewrite !bool_decide_true by lia. rewrite list_lookup_insert_ne by lia.
        rewrite Hrest. apply lookup_app_l. lia.
      + rewrite !bool_decide_false by lia. done. }
  assert (Hve : forall j, ver_at s' j = if decide (j = n) then Some 1 else ver_at s j)
    by (intros j; unfold ver_at; rewrite Hso; by case_decide).
  split_and!; [done| | |done| |done|].
  - unfold s'. rewrite Hfr. done.
  - split; simpl; [by rewrite length_insert|done|lia| |congruence|constructor|].
    + intros j Hj. rewrite Hve. case_decide; [eexists; split; [done|lia]|]. apply Hver. lia.
    + intros j. setoid_rewrite Hve. specialize (Hfree j). split; [by intros ?%elem_of_nil|].
      intros (v & Hv & Hodd). case_decide; simplify_eq. apply Hfree. eauto.
  - unfold next_tag. rewrite Hch, Z.eqb_refl. done.
  - intros j Hne. unfold task_at. rewrite Hso. by rewrite decide_False.
Qed.
End slots.

(** ** Entries and slots *)

(** An entry is live while its slot has the version it was pushed with;
    otherwise it is a tombstone. *)
Definition is_live (s : ntt_timer_heap) (e : ntt_timer_heap_elem) : Prop :=
  ver_at s (index e) = Some (version e).

#[global] Instance is_live_dec s e : Decision (is_live s e) :=
  decide (ver_at s (index e) = Some (version e)).

Record link_inv (s : ntt_timer_heap) (l : list ntt_timer_heap_elem) : Prop := {
  li_elem : forall e, e ∈ l -> is_Some (ver_at s (index e)) /\ Z.odd (version e) = true;
  li_tags : NoDup (elem_tag <$> l);
  li_seqs : NoDup (seq <$> l);
  li_seq : forall e, e ∈ l -> 0 <= seq e < seq_next s;
  li_occ : forall i v, ver_at s i = Some v -> Z.odd v = true ->
    exists e, e ∈ l /\ elem_tag e = mk_tag i v;
  li_task : forall i v, ver_at s i = Some v -> Z.odd v = true ->
    exists t, task_at s i = Some t /\ t <> NULL;
  li_tomb : tombstones s = Z.of_nat (length (filter (fun e => ~ is_live s e) l));
  li_next : 0 <= seq_next s <= UINT64_MAX;
}.

Record timer_inv (s : ntt_timer_heap) (l : list ntt_timer_heap_elem) (fl : list Z) : Prop := {
  ti_array : array_inv s l;
  ti_order : heap_ordered ntt_timer_heap_less l;
  ti_slots : slots_inv s fl;
  ti_link : link_inv s l;
}.

(** The invariant of a timer heap. *)
Definition timer_wf (s : ntt_timer_heap) : Prop := exists l fl, timer_inv s l fl.

Section link.
Context `{Platform}.
Implicit Types (s : ntt_timer_heap) (l : list ntt_timer_heap_elem).

Lemma link_live_unique s l e e' :
  link_inv s l -> e ∈ l -> e' ∈ l -> is_live s e -> is_live s e' -> index e = index e' -> e = e'.
Proof.
  intros Hinv He He' Hl Hl' Hi. eapply (NoDup_fmap_eq elem_tag); eauto using li_tags.
  unfold is_live, elem_tag in *. rewrite Hi in *. congruence.
Qed.

Lemma link_inv_perm s l l' : l ≡ₚ l' -> link_inv s l -> link_inv s l'.
Proof.
  intros Hp [He Ht Hs Hq Ho Hk Hd Hn]. split; auto.
  - intros e. rewrite <- Hp. apply He.
  - by rewrite <- Hp.
  - by rewrite <- Hp.
  - intros e. rewrite <- Hp. apply Hq.
  - intros i v Hv Hodd. destruct (Ho i v Hv Hodd) as (e & Hin & Htag).
    exists e. by rewrite <- Hp.
  - by rewrite <- Hp.
Qed.

(** The agreement is about slots, the tombstone count and the sequence
    number, so it survives any change of the array. *)
Lemma link_inv_ext s s' l :
  (forall i, ver_at s' i = ver_at s i) -> (forall i, task_at s' i = task_at s i) ->
  tombstones s' = tombstones s -> seq_next s' = seq_next s ->
  link_inv s l -> link_inv s' l.
Proof.
  intros Hv Ht Hd Hn Hinv. destruct Hinv as [He Htg Hs Hq Ho Hk Hdd Hnn].
  split; try setoid_rewrite Hv; try setoid_rewrite Ht; rewrite ?Hd, ?Hn; auto.
  rewrite Hdd. f_equal. apply filter_iff_length. unfold is_live. intros e _. by rewrite Hv.
Qed.

(** Forgetting a tombstone. *)
Lemma link_inv_drop s l r :
  link_inv s (r :: l) -> ~ is_live s r ->
  0 < tombstones s < 2 ^ 32 -> link_inv (with_tombstones (u32 (tombstones s - 1)) s) l.
Proof.
  intros [He Ht Hs Hq Ho Hk Hd Hn] Hdead Htb. rewrite fmap_cons in Ht. rewrite fmap_cons in Hs.
  apply NoDup_cons in Ht as [_ Ht]. apply NoDup_cons in Hs as [_ Hs].
  split; simpl; auto.
  - intros e Hin. apply He. by right.
  - intros e Hin. apply Hq. by right.
  - intros i v Hv Hodd. destruct (Ho i v Hv Hodd) as (e & Hin & Htag).
    apply elem_of_cons in Hin as [->|Hin]; [|by exists e].
    destruct Hdead. unfold is_live, elem_tag in *. by simplify_eq.
  - rewrite filter_cons, decide_True in Hd by done. simpl in Hd. no_wrap.
    rewrite Hd. replace (Z.of_nat (S _) - 1) with
      (Z.of_nat (length (filter (fun e => ~ is_live s e) l))) by lia.
    done.
Qed.

(** A dead root can only be there when tombstones are counted. *)
Lemma link_tombstones_pos s l r :
  link_inv s l -> r ∈ l -> ~ is_live s r -> 0 < tombstones s.
Proof.
  intros Hinv Hin Hdead. rewrite (li_tomb _ _ Hinv).
  assert (r ∈ filter (fun e => ~ is_live s e) l) as Hf by (by apply list_elem_of_filter).
  destruct (filter _ l); [by apply elem_of_nil in Hf|simpl; lia].
Qed.

Lemma tombstones_le s l : link_inv s l -> 0 <= tombstones s <= Z.of_nat (length l).
Proof.
  intros Hinv. rewrite (li_tomb _ _ Hinv).
  pose proof (length_filter (fun e => ~ is_live s e) l). lia.
Qed.

(** Releasing the slot of a live entry that has left the heap. *)
Lemma link_inv_retire s s' l r v' :
  link_inv s (r :: l) -> is_live s r -> Z.odd v' = false ->
  (forall j, ver_at s' j = if decide (j = index r) then Some v' else ver_at s j) ->
  (forall j, j <> index r -> task_at s' j = task_at s j) ->
  tombstones s' = tombstones s -> seq_next s' = seq_next s ->
  link_inv s' l.
Proof.
  intros Hinv Hlive Hev Hver Htask Htb Hsn.
  pose proof Hinv as [He Ht Hs Hq Ho Hk Hd Hn].
  rewrite fmap_cons in Ht. rewrite fmap_cons in Hs.
  apply NoDup_cons in Ht as [Htr Ht]. apply NoDup_cons in Hs as [_ Hs].
  assert (Hiff : forall e, e ∈ l -> is_live s' e <-> is_live s e).
  { intros e Hin. unfold is_live. rewrite Hver. case_decide as Hi; [|done].
    split; [intros [= ->]; by rewrite (proj2 (He e (list_elem_of_further _ _ _ Hin))) in Hev|].
    intros Hl. destruct Htr. apply list_elem_of_fmap. exists e. split; [|done].
    unfold elem_tag. unfold is_live in Hlive. congruence. }
  split; rewrite ?Hsn; auto.
  - intros e Hin. destruct (He e) as [[v Hv] Hodd]; [by right|]. split; [|done].
    rewrite Hver. case_decide; eauto.
  - intros e Hin. apply Hq. by right.
  - intros i v Hv Hodd. rewrite Hver in Hv. case_decide; [congruence|].
    destruct (Ho i v Hv Hodd) as (e & Hin & Htag).
    apply elem_of_cons in Hin as [->|Hin]; [|by exists e].
    unfold elem_tag in Htag. congruence.
  - intros i v Hv Hodd. rewrite Hver in Hv. case_decide; [congruence|].
    rewrite Htask by done. eauto.
  - rewrite Htb, Hd. rewrite filter_cons, decide_False by tauto. f_equal.
    apply filter_iff_length. intros e Hin. by rewrite Hiff.
Qed.

(** An entry whose slot was released stays behind as a tombstone. *)
Lemma link_inv_bury s l r :
  link_inv s l -> is_Some (ver_at s (index r)) -> Z.odd (version r) = true ->
  elem_tag r ∉ elem_tag <$> l -> seq r ∉ seq <$> l -> 0 <= seq r < seq_next s ->
  ~ is_live s r -> Z.of_nat (length l) < MAX_TIMERS ->
  link_inv (with_tombstones (u32 (tombstones s + 1)) s) (r :: l).
Proof.
  intros Hinv Hsome Hodd Htr Hsr Hq Hdead Hmax. pose proof (tombstones_le _ _ Hinv) as Htl.
  unfold MAX_TIMERS in Hmax. pose proof Hinv as [He Ht Hs Hsq Ho Hk Hd Hn].
  split; simpl; auto.
  - intros e [->|Hin]%elem_of_cons; [done|by apply He].
  - by constructor.
  - by constructor.
  - intros e [->|Hin]%elem_of_cons; [done|by apply Hsq].
  - intros i v Hv Hv'. destruct (Ho i v Hv Hv') as (e & Hin & Htag).
    exists e. split; [by right|done].
  - no_wrap. rewrite filter_cons, decide_True by done. simpl. rewrite Hd at 1.
    by rewrite Nat2Z.inj_succ.
Qed.

(** Arming: a fresh tag and the next sequence number. *)
Lemma link_inv_push s s' l dl i v t :
  link_inv s l -> seq_next s < UINT64_MAX -> mk_tag i v ∉ elem_tag <$> l ->
  Z.odd v = true -> (forall v0, ver_at s i = Some v0 -> Z.odd v0 = false) -> t <> NULL ->
  (forall j, ver_at s' j = if decide (j = i) then Some v else ver_at s j) ->
  (forall j, task_at s' j = if decide (j = i) then Some t else task_at s j) ->
  tombstones s' = tombstones s -> seq_next s' = u64 (seq_next s + 1) ->
  link_inv s' (mk_elem dl (seq_next s) i v :: l).
Proof.
  intros [He Ht Hs Hq Ho Hk Hd Hn] Hlt Hfresh Hodd Hvac Ht0 Hver Htask Htb Hsn.
  rewrite u64_small in Hsn by (unfold UINT64_MAX in *; lia).
  assert (Hiff : forall e, e ∈ l -> is_live s' e <-> is_live s e).
  { intros e Hin. unfold is_live. rewrite Hver. case_decide as Hi; [|done]. split.
    - intros [= ->]. destruct Hfresh. apply list_elem_of_fmap. exists e.
      split; [|done]. unfold elem_tag. by rewrite Hi.
    - intros Hl. rewrite Hi in Hl. apply Hvac in Hl.
      rewrite (proj2 (He e Hin)) in Hl. discriminate. }
  split; rewrite ?Hsn, ?fmap_cons; simpl; auto.
  - intros e [->|Hin]%elem_of_cons; simpl; [rewrite Hver, decide_True by done; eauto|].
    destruct (He e Hin) as [[v0 Hv0] ?]. rewrite Hver. split; [case_decide; eauto|done].
  - by constructor.
  - constructor; [|done]. intros (e & Heq & Hin)%list_elem_of_fmap. apply Hq in Hin. lia.
  - intros e [->|Hin]%elem_of_cons; simpl; [lia|]. apply Hq in Hin. lia.
  - intros j w Hv Hw. rewrite Hver in Hv. case_decide; simplify_eq.
    + eexists. split; [by left|done].
    + destruct (Ho j w Hv Hw) as (e & Hin & Htag). exists e. split; [by right|done].
  - intros j w Hv Hw. rewrite Hver in Hv. rewrite Htask. case_decide; [by exists t|eauto].
  - rewrite Htb, Hd, filter_cons, decide_False.
    2:{ intros Hf. apply Hf. unfold is_live. simpl. by rewrite Hver, decide_True. }
    f_equal. apply filter_iff_length. intros e Hin. by rewrite Hiff.
  - unfold UINT64_MAX in *. lia.
Qed.

(** Keeping the live entries only. *)
Lemma link_inv_filter s l :
  link_inv s l -> link_inv (with_tombstones 0 s) (filter (is_live s) l).
Proof.
  intros [He Ht Hs Hq Ho Hk Hd Hn]. split; simpl; auto.
  - intros e [_ Hin]%list_elem_of_filter. by apply He.
  - eapply sublist_NoDup; [done|apply fmap_sublist, sublist_filter].
  - eapply sublist_NoDup; [done|apply fmap_sublist, sublist_filter].
  - intros e [_ Hin]%list_elem_of_filter. by apply Hq.
  - intros i v Hv Hodd. destruct (Ho i v Hv Hodd) as (e & Hin & Htag).
    exists e. split; [|done]. apply list_elem_of_filter. split; [|done].
    unfold elem_tag, is_live in *. by simplify_eq.
  - destruct (filter _ (filter _ l)) as [|e l'] eqn:E; [done|].
    assert (Hin : e ∈ e :: l') by (by left). rewrite <- E in Hin.
    apply list_elem_of_filter in Hin as [Hno [Hl _]%list_elem_of_filter]. by destruct Hno.
Qed.
End link.
