(* ===== verification/TimerHeapOps.v ===== *)
(** * The timer heap: operations keep the invariant

    Every operation of [TimerHeap] on the heap alone, on every branch: it
    trips no assertion, reads no cell that was not written, leaves no array,
    finishes within its fuel, and returns a heap that satisfies the invariant
    again, with the entries and the slots it is meant to have. *)

From stdpp Require Import base numbers list gmap.
From Stdlib Require Import ZArith Lia.
From S2P Require Import Prelude.
From S2P Require Import HeapOrder.
From S2P Require Import TimerHeap.
From S2P Require Import TimerHeapArray.
From S2P Require Import TimerHeapInv.

#[local] Open Scope Z_scope.

(** Only the array and the tombstone count may differ. *)
Definition heap_frame (s s' : ntt_timer_heap) : Prop :=
  s' = mk_heap (heap s') (heap_cap s') (slots s) (slot_cap s) (size s')
         (tombstones s') (slot_cnt s) (free_head s) (seq_next s).

(** [s'] is [s] with some tombstones reclaimed. *)
Definition reclaimed (s : ntt_timer_heap) (l : list ntt_timer_heap_elem)
    (s' : ntt_timer_heap) (l' : list ntt_timer_heap_elem) : Prop :=
  heap_frame s s' /\ exists dead, l ≡ₚ dead ++ l' /\ Forall (fun e => ~ is_live s e) dead.

Lemma heap_frame_refl s : heap_frame s s.
Proof. by destruct s. Qed.

Lemma heap_frame_trans s1 s2 s3 : heap_frame s1 s2 -> heap_frame s2 s3 -> heap_frame s1 s3.
Proof. unfold heap_frame. intros -> ->. done. Qed.

Lemma array_heap_frame s s' : array_frame s s' -> heap_frame s s'.
Proof. unfold array_frame, heap_frame. intros ->. done. Qed.

Lemma heap_frame_ver s s' i : heap_frame s s' -> ver_at s' i = ver_at s i.
Proof. by intros ->. Qed.

Lemma heap_frame_task s s' i : heap_frame s s' -> task_at s' i = task_at s i.
Proof. by intros ->. Qed.

Lemma heap_frame_slots s s' fl : heap_frame s s' -> slots_inv s fl -> slots_inv s' fl.
Proof.
  intros -> [Hcap Hsh Hcnt Hver Hch Hnd Hfree]. split; simpl; auto.
  eapply free_chain_ext; [|exact Hch]. by intros i sl _.
Qed.

Lemma array_frame_tombstones s s' : array_frame s s' -> tombstones s' = tombstones s.
Proof. by intros ->. Qed.

Lemma heap_frame_live s s' e : heap_frame s s' -> is_live s' e <-> is_live s e.
Proof. intros Hf. unfold is_live. by rewrite (heap_frame_ver s s'). Qed.

Lemma reclaimed_refl s l : reclaimed s l s l.
Proof. split; [apply heap_frame_refl|]. exists []. split; [done|constructor]. Qed.

Lemma reclaimed_trans s1 l1 s2 l2 s3 l3 :
  reclaimed s1 l1 s2 l2 -> reclaimed s2 l2 s3 l3 -> reclaimed s1 l1 s3 l3.
Proof.
  intros (Hf & d1 & Hp1 & Hd1) (Hf' & d2 & Hp2 & Hd2).
  split; [by eapply heap_frame_trans|]. exists (d1 ++ d2). split.
  - by rewrite Hp1, Hp2, app_assoc.
  - apply Forall_app. split; [done|]. eapply Forall_impl; [exact Hd2|].
    intros e He Hl. apply He. by apply (heap_frame_live s1 s2).
Qed.

Section ops.
Context `{Platform}.
Implicit Types (s : ntt_timer_heap) (l : list ntt_timer_heap_elem) (fl : list Z).

Lemma elem_live_ok s fl e :
  slots_inv s fl -> is_Some (ver_at s (index e)) ->
  ntt_timer_heap_elem_live s e = Ok (bool_decide (is_live s e)).
Proof.
  intros Hinv [v Hv]. pose proof (ver_at_bounds _ _ _ Hv) as Hi.
  destruct (slot_at_ok s fl _ Hinv Hi) as (sl & v' & Hat & _ & Hslv & Hv' & _).
  unfold ntt_timer_heap_elem_live. rewrite Hat, bind_ok, Hslv. simpl.
  f_equal. destruct (Z.eqb_spec v' (version e)) as [->|Hne]; symmetry.
  - by apply bool_decide_true.
  - apply bool_decide_false. unfold is_live. congruence.
Qed.

Lemma timer_size_max s l fl : timer_inv s l fl -> size s <= MAX_TIMERS.
Proof.
  intros Hinv. pose proof (array_inv_cap _ _ (ti_array _ _ _ Hinv)).
  rewrite (ai_size _ _ (ti_array _ _ _ Hinv)).
  destruct (cap_ok_bound _ (ai_shape _ _ (ti_array _ _ _ Hinv))); unfold MAX_TIMERS in *; lia.
Qed.

(** Dropping a tombstone from the top. *)
Lemma pop_dead_ok s l fl r :
  timer_inv s l fl -> l !! O = Some r -> ~ is_live s r ->
  returns (s' ← ntt_timer_heap_pop_root s;
           c_assert (tombstones s' >? 0) ;;
           Ok (with_tombstones (u32 (tombstones s' - 1)) s'))
    (fun s' => exists l', timer_inv s' l' fl /\ reclaimed s l s' l' /\ l ≡ₚ r :: l').
Proof.
  intros Hinv Hr Hdead. pose proof Hinv as [Ha Ho Hs Hl].
  eapply returns_bind; [by eapply pop_root_ok|].
  intros s1 (l' & Hf & Ha' & Hp & Ho'). apply array_heap_frame in Hf as Hhf.
  assert (Htb : tombstones s1 = tombstones s) by (by apply array_frame_tombstones).
  pose proof (link_tombstones_pos _ _ r Hl (list_elem_of_lookup_2 _ _ _ Hr) Hdead) as Hpos.
  pose proof (tombstones_le _ _ Hl). pose proof (timer_size_max _ _ _ Hinv) as Hmax.
  rewrite (ai_size _ _ Ha) in Hmax. unfold MAX_TIMERS in Hmax.
  rewrite c_assert_true, bind_ok by (rewrite Htb; destruct (Z.gtb_spec (tombstones s) 0); [done|lia]).
  assert (Hhf' : heap_frame s (with_tombstones (u32 (tombstones s1 - 1)) s1))
    by (rewrite Hhf; done).
  apply returns_ok. exists l'. split_and!; [|split; [done|]|done].
  - split; [| |by apply (heap_frame_slots s)|].
    + by destruct Ha' as [[rest ?] ? ? ?]; split; eauto.
    + done.
    + apply (link_inv_drop s1 l' r); [|by rewrite (heap_frame_live s s1)|lia].
      eapply link_inv_ext; [..|by eapply link_inv_perm]; auto.
      * intros. by apply heap_frame_ver.
      * intros. by apply heap_frame_task.
      * by rewrite Hf.
  - exists [r]. split; [done|]. by constructor.
Qed.

Lemma drop_dead_loop_ok fuel s l fl :
  timer_inv s l fl -> (length l < fuel)%nat ->
  returns (drop_dead_loop fuel s) (fun s' => exists l',
    timer_inv s' l' fl /\ reclaimed s l s' l' /\
    (l' = [] \/ exists r, l' !! O = Some r /\ is_live s' r)).
Proof.
  revert s l. induction fuel as [|fuel IH]; intros s l Hinv Hf; [lia|]. simpl.
  pose proof Hinv as [Ha Ho Hs Hl]. pose proof (ai_size _ _ Ha) as Hsz.
  destruct (Z.gtb_spec (size s) 0) as [Hpos|Hpos].
  2:{ apply returns_ok. exists l. split_and!; [done|apply reclaimed_refl|left].
      destruct l; [done|simpl in Hsz; lia]. }
  destruct (lookup_lt_is_Some_2 l 0) as [r Hr]; [lia|].
  rewrite (array_elem_at s l 0 r Ha Hr : ntt_timer_heap_elem_at s 0 = _), bind_ok.
  rewrite (elem_live_ok s fl), bind_ok
    by (try done; apply (li_elem _ _ Hl); by eapply list_elem_of_lookup_2).
  case_bool_decide as Hlive.
  { apply returns_ok. exists l. split_and!; [done|apply reclaimed_refl|right; eauto]. }
  pose proof (pop_dead_ok s l fl r Hinv Hr Hlive) as Hpop.
  destruct (ntt_timer_heap_pop_root s) as [s1|[]]; simpl in *; try done.
  destruct (c_assert (tombstones s1 >? 0)) as [[]|[]]; simpl in *; try done.
  destruct Hpop as (l1 & Hinv1 & Hrec & Hp).
  eapply returns_mono; [apply (IH _ l1 Hinv1)|].
  - apply Permutation_length in Hp. simpl in Hp. lia.
  - intros s' (l' & Hi' & Hrec' & Hend). exists l'.
    split_and!; [done|by eapply reclaimed_trans|done].
Qed.

Lemma drop_dead_root_ok s l fl :
  timer_inv s l fl ->
  returns (ntt_timer_heap_drop_dead_root s) (fun s' => exists l',
    timer_inv s' l' fl /\ reclaimed s l s' l' /\
    (l' = [] \/ exists r, l' !! O = Some r /\ is_live s' r)).
Proof.
  intros Hinv. apply drop_dead_loop_ok; [done|].
  rewrite (ai_size _ _ (ti_array _ _ _ Hinv)). lia.
Qed.

(** ** Bulk reclamation *)

(** The filter loop with [todo] still to be looked at: [kept] is what has
    been moved down so far, [mid] the cells between, whose contents are stale. *)
Lemma compact_filter_ok s fl todo : forall fuel kept mid rest,
  slots_inv s fl -> (forall e, e ∈ todo -> is_Some (ver_at s (index e))) ->
  size s = Z.of_nat (length kept + length mid + length todo) -> size s < 2 ^ 32 ->
  (length todo < fuel)%nat ->
  exists mid',
    compact_filter_loop fuel (with_heap ((Some <$> kept) ++ mid ++ (Some <$> todo) ++ rest) s)
      (Z.of_nat (length kept)) (Z.of_nat (length kept + length mid)) =
    Ok (Z.of_nat (length (kept ++ filter (is_live s) todo)),
        with_heap ((Some <$> kept ++ filter (is_live s) todo) ++ mid' ++ rest) s) /\
    length ((Some <$> kept ++ filter (is_live s) todo) ++ mid') =
      (length kept + length mid + length todo)%nat.
Proof.
  induction todo as [|e todo IH]; intros fuel kept mid rest Hsl Hver Hsz Hmax Hf;
    (destruct fuel as [|fuel]; [simpl in Hf; lia|]); cbn [compact_filter_loop].
  - rewrite (proj2 (Z.ltb_ge _ _)) by (simpl in *; lia). exists mid. simpl.
    rewrite app_nil_r, length_app, length_fmap. split; [done|lia].
  - simpl in Hsz, Hf. set (h := _ ++ mid ++ _).
    assert (Hat : h !! (length kept + length mid)%nat = Some (Some e)).
    { unfold h. rewrite lookup_app_r; rewrite length_fmap; [|lia].
      rewrite lookup_app_r by lia. by replace (_ - _ - _)%nat with O by lia. }
    rewrite (proj2 (Z.ltb_lt _ _)) by (simpl; lia).
    rewrite (elem_at_ok (with_heap h s) _ e) by (simpl; lia || done). rewrite bind_ok.
    rewrite (elem_live_ok (with_heap h s) fl), bind_ok.
    2:{ by apply (heap_frame_slots s). }
    2:{ apply Hver. by left. }
    assert (Hnext : u32 (Z.of_nat (length kept + length mid) + 1) =
      Z.of_nat (length kept + (length mid + 1))) by (no_wrap; lia).
    assert (Hver' : forall e', e' ∈ todo -> is_Some (ver_at s (index e')))
      by (intros e' He'; apply Hver; by right).
    rewrite filter_cons. change (is_live (with_heap h s) e) with (is_live s e).
    destruct (decide (is_live s e)) as [Hl|Hl].
    + rewrite bool_decide_true by done.
      assert (exists m mid2, mid ++ [Some e] = m :: mid2 /\ length mid2 = length mid)
        as (m & mid2 & Hm & Hm2).
      { destruct mid as [|m mid]; [by exists (Some e), []|].
        exists m, (mid ++ [Some e]). split; [done|]. rewrite length_app. simpl. lia. }
      rewrite place_ok, bind_ok; [|simpl; lia|unfold h; simpl; rewrite length_app, length_fmap, length_app; simpl; lia].
      rewrite Hnext. replace (u32 (Z.of_nat (length kept) + 1)) with
        (Z.of_nat (length (kept ++ [e]))) by (rewrite length_app; simpl; no_wrap; lia).
      destruct (IH fuel (kept ++ [e]) mid2 rest) as (mid' & Heq & Hlen);
        [done|done|rewrite length_app; simpl; lia|lia|lia|].
      exists mid'. rewrite <- app_assoc in Heq, Hlen. simpl in Heq, Hlen. split.
      * rewrite <- Heq. f_equal.
        -- simpl. unfold with_heap. simpl. f_equal. unfold h.
           rewrite <- (length_fmap Some kept), insert_app_r_alt, Nat.sub_diag by lia.
           rewrite fmap_app, fmap_cons.
           change (Some e :: (Some <$> todo)) with ([Some e] ++ (Some <$> todo)).
           by rewrite <- !app_assoc, (app_assoc mid), Hm.
        -- rewrite length_app. simpl. f_equal. lia.
      * rewrite Hlen, length_app. simpl. lia.
    + rewrite bool_decide_false by done. rewrite Hnext.
      destruct (IH fuel kept (mid ++ [Some e]) rest) as (mid' & Heq & Hlen);
        [done|done|rewrite length_app; simpl; lia|lia|lia|].
      exists mid'. rewrite (length_app mid) in Heq, Hlen. simpl in Heq, Hlen. split.
      * rewrite <- Heq. f_equal. unfold with_heap. simpl. f_equal. unfold h.
        by rewrite <- app_assoc.
      * rewrite Hlen. simpl; lia.
Qed.

Lemma compact_build_ok rest (i : nat) : forall fuel s l,
  heap s = (Some <$> l) ++ rest -> size s = Z.of_nat (length l) ->
  size s <= MAX_TIMERS -> (i <= length l)%nat -> (i < fuel)%nat ->
  compact_build_loop fuel s (Z.of_nat i) =
    Ok (with_heap ((Some <$> heapify ntt_timer_heap_less l i) ++ rest) s).
Proof.
  induction i as [|i IH]; intros fuel s l Hh Hsz Hmax Hi Hf;
    (destruct fuel as [|fuel]; [lia|]); cbn [compact_build_loop].
  - simpl. rewrite <- Hh. by destruct s.
  - destruct (Z.gtb_spec (Z.of_nat (S i)) 0); [|lia]. unfold MAX_TIMERS in Hmax.
    replace (u32 (Z.of_nat (S i) - 1)) with (Z.of_nat i) by (no_wrap; lia).
    destruct (lookup_lt_is_Some_2 l i) as [e He]; [lia|].
    assert (Hcell : heap s !! i = Some (Some e)).
    { rewrite Hh. apply lookup_app_l_Some. by rewrite list_lookup_fmap, He. }
    rewrite (elem_at_ok s i e) by (lia || done). rewrite bind_ok.
    rewrite (sift_down_refines s l rest i e), bind_ok.
    2:{ split_and!; [by rewrite list_insert_id|done|done|unfold MAX_TIMERS; lia]. }
    rewrite (IH fuel _ (sink ntt_timer_heap_less (length l) l i));
      rewrite ?length_sink; auto; lia.
Qed.

Lemma timer_inv_reclaim s l fl s' l' dead :
  timer_inv s l fl -> heap_frame s s' -> array_inv s' l' ->
  heap_ordered ntt_timer_heap_less l' -> link_inv s' l' ->
  l ≡ₚ dead ++ l' -> Forall (fun e => ~ is_live s e) dead ->
  timer_inv s' l' fl /\ reclaimed s l s' l'.
Proof.
  intros [] Hf Ha Ho Hl Hp Hd. split; [|by split; eauto].
  split; [done|done|by apply (heap_frame_slots s)|done].
Qed.

Lemma filter_split s l :
  l ≡ₚ filter (fun e => ~ is_live s e) l ++ filter (is_live s) l.
Proof.
  induction l as [|e l IH]; [done|]. rewrite !filter_cons.
  destruct (decide (is_live s e)) as [Hl|Hl].
  - rewrite decide_False by tauto. rewrite <- Permutation_middle. by constructor.
  - rewrite decide_True by done. by constructor.
Qed.

Lemma compact_exact s l fl :
  timer_inv s l fl ->
  returns (ntt_timer_heap_compact s) (fun s' => exists l',
    (timer_inv s' l' fl /\ reclaimed s l s' l') /\
    l' ≡ₚ if decide (tombstones s * 2 <= size s) then l else filter (is_live s) l).
Proof.
  intros Hinv. pose proof Hinv as [Ha Ho Hs Hl].
  pose proof (tombstones_le _ _ Hl) as Ht. pose proof (timer_size_max _ _ _ Hinv) as Hmax.
  pose proof (ai_size _ _ Ha) as Hsz. unfold MAX_TIMERS in Hmax.
  unfold ntt_timer_heap_compact. no_wrap.
  destruct (Z.leb_spec (tombstones s * 2) (size s)) as [Hfew|Hmany].
  { apply returns_ok. exists l. rewrite decide_True by done. split_and!; [done|apply reclaimed_refl|done]. }
  pose proof (ai_cells _ _ Ha) as [rest Hcells].
  destruct (compact_filter_ok s fl l (S (Z.to_nat (size s))) [] [] rest) as (mid & Heq & Hlen);
    [done|by intros e He; apply (li_elem _ _ Hl)|simpl; lia|lia|lia|].
  cbn -[compact_filter_loop] in Heq. change (Z.of_nat 0) with 0 in Heq. simpl in Hlen.
  replace (with_heap _ s) with s in Heq by (rewrite <- Hcells; by destruct s).
  rewrite Heq, bind_ok. clear Heq. set (live := filter (is_live s) l) in *.
  assert (Hlt : (length live < length l)%nat).
  { pose proof (Permutation_length (filter_split s l)) as Hfs.
    rewrite length_app in Hfs. fold live in Hfs. rewrite (li_tomb _ _ Hl) in Hmany. lia. }
  cbn [size with_heap with_tombstones with_size].
  set (s1 := with_tombstones 0 _).
  assert (Hbuild : (if Z.of_nat (length live) >? 1
     then compact_build_loop (S (Z.to_nat (Z.of_nat (length live)))) s1 (Z.of_nat (length live) / 2)
     else Ok s1) =
     Ok (with_heap ((Some <$> heapify ntt_timer_heap_less live (length live / 2)) ++ mid ++ rest) s1)).
  { rewrite Nat2Z.id. change 2 with (Z.of_nat 2). rewrite <- Nat2Z.inj_div.
    assert (length live / 2 <= length live)%nat by (apply Nat.Div0.div_le_upper_bound; lia).
    destruct (Z.gtb_spec (Z.of_nat (length live)) 1).
    - apply compact_build_ok; [done|done|unfold MAX_TIMERS; cbn [size s1 with_tombstones with_size]; lia|lia|lia].
    - destruct live as [|e [|]]; [done|done|simpl in *; lia]. }
  rewrite Hbuild, bind_ok. clear Hbuild. set (l' := heapify _ _ _).
  assert (Hperm : l' ≡ₚ live) by apply heapify_perm.
  eapply returns_mono; [apply (shrink_ok _ l')|].
  - split; simpl; [eauto|by rewrite Hperm| |apply Ha].
    rewrite (ai_cap _ _ Ha), Hcells, !length_app, !length_fmap, Hperm.
    rewrite length_app, length_fmap in Hlen. lia.
  - simpl. unfold MAX_TIMERS. lia.
  - intros s' (Hf & Ha'). exists l'. apply array_heap_frame in Hf as Hf'.
    split; [|rewrite decide_False by lia; exact Hperm].
    eapply timer_inv_reclaim; [done| |done|..].
    + eapply heap_frame_trans; [|exact Hf']. done.
    + apply heapify_ordered; [apply _|]. apply ordered_from_half.
    + apply (link_inv_ext (with_tombstones 0 s)); try by rewrite Hf.
      eapply link_inv_perm; [by symmetry|]. by apply link_inv_filter.
    + rewrite Hperm. apply filter_split.
    + apply Forall_forall. intros e He. apply list_elem_of_filter in He. tauto.
Qed.

Lemma compact_ok s l fl :
  timer_inv s l fl ->
  returns (ntt_timer_heap_compact s) (fun s' => exists l', timer_inv s' l' fl /\ reclaimed s l s' l').
Proof.
  intros Hinv. eapply returns_mono; [by apply compact_exact|]. intros s' (l' & Hl & _). by exists l'.
Qed.

(** ** Arming a timer *)

(** The entries of the heap, in array order. *)
Definition entries s : list ntt_timer_heap_elem :=
  omap id (take (Z.to_nat (size s)) (heap s)).

Lemma entries_eq s l : array_inv s l -> entries s = l.
Proof.
  intros [[rest Hc] Hsz _ _]. unfold entries. rewrite Hsz, Hc, Nat2Z.id.
  rewrite take_app_length' by (by rewrite length_fmap).
  clear. induction l as [|e l IH]; [done|]. simpl. f_equal. apply IH.
Qed.

(** What a caller of [ntt_timer_heap_push] has to grant: room below the
    bound, a sequence number left, and a version counter of the slot that has
    not come round to a tombstone still in the heap. *)
Definition push_ok s : Prop :=
  size s < MAX_TIMERS /\ seq_next s < UINT64_MAX /\ next_tag s ∉ elem_tag <$> entries s.

(** With no free slot every slot is taken by an entry of the heap. *)
Lemma slot_cnt_le s l :
  slots_inv s [] -> link_inv s l -> slot_cnt s <= Z.of_nat (length l).
Proof.
  intros Hs Hl.
  assert (Hsub : seqZ 0 (slot_cnt s) ⊆+ (index <$> l)).
  { apply NoDup_submseteq; [apply NoDup_seqZ|]. intros i Hi%elem_of_seqZ.
    destruct (si_ver _ _ Hs i) as (v & Hv & _); [lia|].
    destruct (Z.odd v) eqn:Hodd.
    - destruct (li_occ _ _ Hl i v Hv Hodd) as (e & Hin & Htag).
      apply list_elem_of_fmap. exists e. unfold elem_tag in Htag. by simplify_eq.
    - assert (i ∈ []) as ?%elem_of_nil; [|done]. apply (si_free _ _ Hs). eauto. }
  apply submseteq_length in Hsub. rewrite length_seqZ, length_fmap in Hsub. lia.
Qed.

Lemma alloc_slot_ok s l fl :
  timer_inv s l fl -> size s < MAX_TIMERS ->
  returns (ntt_timer_heap_alloc_slot s) (fun '(i, s') => exists v,
    next_tag s = mk_tag i v /\ slot_frame s s' /\ slots_inv s' (tail fl) /\
    Z.odd v = true /\ (forall v0, ver_at s i = Some v0 -> Z.odd v0 = false) /\
    (forall j, ver_at s' j = if decide (j = i) then Some v else ver_at s j) /\
    (forall j, j <> i -> task_at s' j = task_at s j)).
Proof.
  intros [Ha _ Hs Hl] Hmax. rewrite (ai_size _ _ Ha) in Hmax. destruct fl as [|i fl].
  - pose proof (slot_cnt_le _ _ Hs Hl).
    eapply returns_mono; [apply alloc_slot_fresh; [done|lia]|].
    intros [i s'] (Hi & Hf & Hs' & _ & Hnt & Hv & Ht). exists 1.
    split_and!; auto. intros v0 Hv0%ver_at_bounds. lia.
  - destruct (alloc_slot_reuse s i fl Hs) as (s' & v & -> & Hf & Hs' & _ & Hnt & Hodd & _ & Hv & Ht).
    apply returns_ok. exists v. split_and!; auto.
    intros v0 Hv0. destruct (proj1 (si_free _ _ Hs i)) as (v1 & ? & ?); [by left|congruence].
Qed.

Lemma set_task_ok s fl i v t :
  slots_inv s fl -> ver_at s i = Some v -> Z.odd v = true ->
  exists sl s', ntt_timer_heap_slot_at s i = Ok sl /\ slot_version sl = Some v /\
    slot_store s i (set_task (Some t) sl) = Ok s' /\ slot_frame s s' /\ slots_inv s' fl /\
    (forall j, ver_at s' j = ver_at s j) /\
    (forall j, task_at s' j = if decide (j = i) then Some t else task_at s j).
Proof.
  intros Hinv Hv Hodd. pose proof (ver_at_bounds _ _ _ Hv) as Hi.
  pose proof (slots_length _ _ _ Hinv Hi) as Hlen.
  destruct (slot_at_ok s fl i Hinv Hi) as (sl & v' & Hat & Hsl & Hslv & Hv' & _).
  assert (v' = v) as -> by congruence.
  exists sl. eexists. split_and!; [done|done|by apply slot_store_ok|done|..].
  all: set (s' := with_slots _ s).
  all: assert (Hso : forall j, slot_of s' j =
         if decide (j = i) then Some (set_task (Some t) sl) else slot_of s j)
         by (intros j; apply slot_of_insert; simpl; [done|done|lia|lia]).
  all: assert (Hve : forall j, ver_at s' j = ver_at s j) by
         (intros j; unfold ver_at; rewrite Hso; case_decide; [subst; by rewrite Hsl|done]).
  - pose proof Hinv as [Hcap Hsh Hcnt Hver Hch Hnd Hfree].
    split; simpl; [by rewrite length_insert|done|done| | |done|].
    + intros j Hj. rewrite Hve. by apply Hver.
    + apply free_chain_ext with s; [|done]. intros j sl0 Hj. rewrite Hso.
      rewrite decide_False; [done|]. intros ->. apply Hfree in Hj as (v0 & ? & ?). congruence.
    + intros j. rewrite Hfree. by setoid_rewrite Hve.
  - done.
  - intros j. unfold task_at. rewrite Hso. by case_decide.
Qed.

Lemma push_entry_ok s l fl dl t :
  timer_inv s l fl -> push_ok s -> t <> NULL ->
  returns (push_entry s dl t) (fun '(tag, s') => exists l' fl',
    timer_inv s' l' fl' /\ tag = next_tag s /\ Z.odd (tag_version tag) = true /\
    (forall v0, ver_at s (tag_index tag) = Some v0 -> Z.odd v0 = false) /\
    l' ≡ₚ mk_elem dl (seq_next s) (tag_index tag) (tag_version tag) :: l /\
    (forall j, ver_at s' j =
       if decide (j = tag_index tag) then Some (tag_version tag) else ver_at s j) /\
    (forall j, task_at s' j = if decide (j = tag_index tag) then Some t else task_at s j) /\
    seq_next s' = seq_next s + 1 /\ fl' = tail fl).
Proof.
  intros Hinv (Hmax & Hsq & Hfresh) Ht. pose proof Hinv as [Ha Ho Hs Hl].
  rewrite (entries_eq _ _ Ha) in Hfresh.
  unfold push_entry. eapply returns_bind; [by eapply alloc_slot_ok|].
  intros [i s1] (v & Hnt & Hf1 & Hs1 & Hodd & Hvac & Hv1 & Ht1).
  destruct (set_task_ok s1 (tail fl) i v t Hs1) as (sl & s2 & Hat & Hslv & Hst & Hf2 & Hs2 & Hv2 & Ht2);
    [by rewrite Hv1, decide_True|done|].
  rewrite Hat, bind_ok, Hst, bind_ok.
  assert (Ha2 : array_inv s2 l) by (rewrite Hf2, Hf1; destruct Ha; by split).
  assert (Hsz2 : size s2 = size s) by (by rewrite Hf2, Hf1).
  eapply returns_bind; [apply (reserve_elem_ok s2 l Ha2); lia|].
  intros s3 (Hf3 & Ha3 & Hroom). rewrite Hslv. cbn [defined]. rewrite bind_ok.
  pose proof (ai_size _ _ Ha) as Hsz. unfold MAX_TIMERS in Hmax.
  set (e := mk_elem dl (seq_next s) i v).
  assert (Hsn : seq_next s3 = seq_next s) by (by rewrite Hf3, Hf2, Hf1).
  simpl. rewrite Hsn. rewrite Hsz2, Hsz in *. rewrite u32_small by lia.
  pose proof (ai_cells _ _ Ha3) as [rest Hc3]. pose proof (ai_cap _ _ Ha3) as Hcap3.
  assert (exists c rest', rest = c :: rest') as (c & rest' & ->).
  { destruct rest; [|eauto]. rewrite Hcap3, Hc3, app_nil_r, length_fmap in Hroom. lia. }
  fold e. set (s4 := with_seq_next _ (with_size _ s3)).
  rewrite (sift_up_refines s4 (l ++ [e]) rest' (length l) e).
  2:{ unfold holds_at. rewrite list_lookup_middle by done. simpl.
      rewrite length_app. simpl. unfold MAX_TIMERS. split_and!; [|done|lia|lia].
      rewrite Hc3, fmap_app, <- (length_fmap Some l), insert_app_r_alt, Nat.sub_diag by lia.
      simpl. by rewrite <- app_assoc. }
  rewrite bind_ok. apply returns_ok. set (l' := swim _ _ _ _). set (s5 := with_heap _ s4).
  assert (Hperm : l' ≡ₚ e :: l).
  { unfold l'. rewrite swim_perm. by rewrite <- Permutation_cons_append. }
  assert (Hlen : length l' = S (length l)) by (by rewrite Hperm).
  assert (Hf5 : heap_frame s2 (with_seq_next (seq_next s) s5))
    by (unfold s5, s4; rewrite Hf3, Hf2, Hf1; done).
  assert (Hv5 : forall j, ver_at s5 j = ver_at s2 j) by (intros j; by apply (heap_frame_ver _ _ j Hf5)).
  assert (Ht5 : forall j, task_at s5 j = task_at s2 j) by (intros j; by apply (heap_frame_task _ _ j Hf5)).
  exists l', (tail fl). simpl. split_and!; auto.
  - split.
    + split; simpl; [eauto|rewrite Hlen; lia| |apply Ha3].
      rewrite Hcap3, Hc3, !length_app, !length_fmap, Hlen. simpl. lia.
    + apply swim_ordered; [apply _|lia|]. by apply up_inv_app.
    + assert (slots_inv (with_seq_next (seq_next s) s5) (tail fl)) as [] by (by apply (heap_frame_slots s2)).
      split; auto. eapply free_chain_ext; [|done]. by intros.
    + eapply link_inv_perm; [by symmetry|].
      apply (link_inv_push s s5 l dl i v t); auto.
      * by rewrite <- Hnt.
      * intros j. by rewrite Hv5, Hv2, Hv1.
      * intros j. rewrite Ht5, Ht2. case_decide; [done|by apply Ht1].
      * simpl. by rewrite Hf3, Hf2, Hf1.
  - intros j. by rewrite Hv5, Hv2, Hv1.
  - intros j. rewrite Ht5, Ht2. case_decide; [done|by apply Ht1].
  - apply u64_small. unfold UINT64_MAX in *. pose proof (li_next _ _ Hl). lia.
Qed.

(** ** Retiring a timer *)

(** Slot [i] is released: its version moves on to [v'] and its task is gone. *)
Definition released s s' (i v' : Z) : Prop :=
  (forall j, ver_at s' j = if decide (j = i) then Some v' else ver_at s j) /\
  (forall j, task_at s' j = if decide (j = i) then Some NULL else task_at s j) /\
  Z.odd v' = false.

(** The core of a cancellation: the slot is released and the entry of the
    timer stays behind as a tombstone. *)
Lemma retire_ok s l fl i v :
  timer_inv s l fl -> ver_at s i = Some v -> Z.odd v = true ->
  exists s1, ntt_timer_heap_free_slot s i = Ok s1 /\ slot_frame s s1 /\
    timer_inv (with_tombstones (u32 (tombstones s1 + 1)) s1) l (i :: fl) /\
    released s s1 i (u32 (v + 1)).
Proof.
  intros Hinv Hv Hodd. pose proof Hinv as [Ha Ho Hs Hl].
  destruct (free_slot_ok s fl i v Hs Hv Hodd) as (s1 & Hfree & Hf & Hs1 & _ & Hv1 & Ht1).
  exists s1. assert (Hev : Z.odd (u32 (v + 1)) = false) by (rewrite u32_odd; by apply odd_succ_true).
  split_and!; [done|done| |by split_and!].
  destruct (li_occ _ _ Hl i v Hv Hodd) as (r & Hr & Htag).
  unfold elem_tag in Htag. injection Htag as Hri Hrv.
  apply elem_of_Permutation in Hr as [l2 Hp].
  pose proof (link_inv_perm _ _ _ Hp Hl) as Hl'.
  pose proof (timer_size_max _ _ _ Hinv) as Hmax.
  rewrite (ai_size _ _ Ha), Hp in Hmax. simpl in Hmax.
  assert (Hl2 : link_inv s1 l2).
  { apply (link_inv_retire s s1 l2 r (u32 (v + 1))); auto.
    - unfold is_live. by rewrite Hri, Hrv.
    - by rewrite Hri.
    - intros j Hj. rewrite Ht1. rewrite decide_False; [done|]. by rewrite <- Hri.
    - by rewrite Hf.
    - by rewrite Hf. }
  pose proof Hl' as [He Htg Hsq Hq _ _ _ _]. rewrite fmap_cons in Htg. rewrite fmap_cons in Hsq.
  apply NoDup_cons in Htg as [Htg _]. apply NoDup_cons in Hsq as [Hsq _].
  split.
  - rewrite Hf. by destruct Ha; split.
  - done.
  - destruct Hs1. split; auto. eapply free_chain_ext; [|done]. by intros.
  - eapply link_inv_perm; [by symmetry|]. apply link_inv_bury; auto.
    + rewrite Hv1, decide_True by done. eauto.
    + by rewrite Hrv.
    + rewrite Hf. apply Hq. by left.
    + unfold is_live. rewrite Hv1, decide_True by done. intros [= Heq].
      rewrite <- Hrv in Hodd. rewrite <- Heq in Hodd. congruence.
    + lia.
Qed.

(** One turn of the loop of [ntt_timer_heap_svc] up to the task: the root is
    popped, and when it is live its slot is released as well. *)
Lemma pop_turn_ok s l fl r :
  timer_inv s l fl -> l !! O = Some r ->
  returns (ntt_timer_heap_pop_root s) (fun s1 => exists l',
    l ≡ₚ r :: l' /\ array_frame s s1 /\
    ntt_timer_heap_elem_live s1 r = Ok (bool_decide (is_live s r)) /\
    (~ is_live s r -> 0 < tombstones s1 /\
       timer_inv (with_tombstones (u32 (tombstones s1 - 1)) s1) l' fl) /\
    (is_live s r -> exists sl t s2,
       ntt_timer_heap_slot_at s1 (index r) = Ok sl /\ slot_task sl = Some t /\
       task_at s (index r) = Some t /\ t <> NULL /\
       ntt_timer_heap_free_slot s1 (index r) = Ok s2 /\
       timer_inv s2 l' (index r :: fl) /\ released s s2 (index r) (u32 (version r + 1)) /\
       seq_next s2 = seq_next s)).
Proof.
  intros Hinv Hr. pose proof Hinv as [Ha Ho Hs Hl].
  eapply returns_mono; [by eapply pop_root_ok|].
  intros s1 (l' & Hf & Ha1 & Hp & Ho1). exists l'. apply array_heap_frame in Hf as Hhf.
  pose proof (list_elem_of_lookup_2 _ _ _ Hr) as Hin.
  destruct (li_elem _ _ Hl r Hin) as [Hsome Hodd].
  assert (Hs1 : slots_inv s1 fl) by (by apply (heap_frame_slots s)).
  assert (Hve : forall j, ver_at s1 j = ver_at s j) by (intros j; by apply heap_frame_ver).
  assert (Hta : forall j, task_at s1 j = task_at s j) by (intros j; by apply heap_frame_task).
  assert (Hl1 : link_inv s1 (r :: l')).
  { apply (link_inv_ext s); auto; [by rewrite Hf|by rewrite Hf|]. by eapply link_inv_perm. }
  split_and!; [done|done| | |].
  - rewrite (elem_live_ok s1 fl) by (rewrite ?Hve; done). f_equal.
    apply bool_decide_ext. by apply heap_frame_live.
  - intros Hdead. assert (Hdead1 : ~ is_live s1 r) by (by rewrite (heap_frame_live s s1)).
    pose proof (link_tombstones_pos s1 _ r Hl1 (list_elem_of_here _ _) Hdead1).
    pose proof (tombstones_le _ _ Hl1) as Ht. pose proof (timer_size_max _ _ _ Hinv) as Hmax.
    rewrite (ai_size _ _ Ha), Hp in Hmax. unfold MAX_TIMERS in Hmax.
    split; [done|]. split; [by destruct Ha1; split|done| |].
    + destruct Hs1. split; auto. eapply free_chain_ext; [|done]. by intros.
    + apply (link_inv_drop s1 l' r); auto. lia.
  - intros Hlive. unfold is_live in Hlive.
    destruct (li_task _ _ Hl _ _ Hlive Hodd) as (t & Ht & Hnn).
    destruct (slot_at_ok s1 fl (index r) Hs1) as (sl & v & Hat & Hsl & _).
    { rewrite <- Hve in Hlive. by eapply ver_at_bounds. }
    destruct (free_slot_ok s1 fl (index r) (version r) Hs1) as (s2 & Hfree & Hf2 & Hs2 & _ & Hv2 & Ht2);
      [by rewrite Hve|done|].
    assert (Hev : Z.odd (u32 (version r + 1)) = false)
      by (rewrite u32_odd; by apply odd_succ_true).
    exists sl, t, s2. split_and!; auto.
    + rewrite <- Hta in Ht. unfold task_at in Ht. by rewrite Hsl in Ht.
    + split; [rewrite Hf2; by destruct Ha1; split|done|done|].
      apply (link_inv_retire s1 s2 l' r (u32 (version r + 1))); auto.
      * unfold is_live. by rewrite Hve.
      * intros j Hj. by rewrite Ht2, decide_False.
      * by rewrite Hf2.
      * by rewrite Hf2.
    + split_and!; [intros j; by rewrite Hv2, Hve|intros j; by rewrite Ht2, Hta|done].
    + by rewrite Hf2, Hf.
Qed.
End ops.
