(* ===== verification/TimerHeapSpec.v ===== *)
(** * The timer heap: abstract specification and refinement

    What a timer heap promises its queue, as operations on a finite map from
    tags to armed timers, and the theorems that the array, the slab and the
    tombstones of [timer_heap.c] implement it. *)

From stdpp Require Import base numbers list gmap relations.
From Stdlib Require Import ZArith Lia.
From S2P Require Import Prelude.
From S2P Require Import HeapOrder.
From S2P Require Import TimerHeap.
From S2P Require Import TimerHeapArray.
From S2P Require Import TimerHeapInv.
From S2P Require Import TimerHeapOps.

#[local] Open Scope Z_scope.

(** ** The abstract state *)
#[global] Instance tag_countable : Countable ntt_timer_tag.
Proof.
  by refine (inj_countable' (fun t => (tag_index t, tag_version t))
    (fun p => mk_tag p.1 p.2) _); intros [].
Defined.

Record timer : Type := mk_timer { tm_deadline : Z; tm_seq : Z; tm_task : ptr }.

(** [tm] fires before [tm']: by deadline, then by the order of arming. *)
Definition before (tm tm' : timer) : Prop :=
  tm_deadline tm < tm_deadline tm' \/
  (tm_deadline tm = tm_deadline tm' /\ tm_seq tm < tm_seq tm').

Definition timer_of (s : ntt_timer_heap) (e : ntt_timer_heap_elem) : timer :=
  mk_timer (deadline e) (seq e) (default NULL (task_at s (index e))).

(** The armed timers of a heap. *)
Definition armed (s : ntt_timer_heap) : gmap ntt_timer_tag timer :=
  list_to_map ((fun e => (elem_tag e, timer_of s e)) <$> filter (is_live s) (entries s)).

Lemma armed_lookup s l fl tag tm :
  timer_inv s l fl ->
  armed s !! tag = Some tm <->
    exists e, e ∈ l /\ is_live s e /\ elem_tag e = tag /\ timer_of s e = tm.
Proof.
  intros [Ha _ _ Hl]. unfold armed. rewrite (entries_eq _ _ Ha).
  rewrite <- elem_of_list_to_map.
  2:{ rewrite <- list_fmap_compose. eapply (sublist_NoDup _ (elem_tag <$> l)); [apply Hl|].
      apply fmap_sublist, sublist_filter. }
  rewrite list_elem_of_fmap. split.
  - intros (e & [= -> ->] & [Hlive Hin]%list_elem_of_filter). eauto.
  - intros (e & Hin & Hlive & <- & <-). exists e. split; [done|]. by apply list_elem_of_filter.
Qed.

Lemma armed_eq s l fl m :
  timer_inv s l fl ->
  (forall tag tm, m !! tag = Some tm <->
     exists e, e ∈ l /\ is_live s e /\ elem_tag e = tag /\ timer_of s e = tm) ->
  armed s = m.
Proof.
  intros Hinv Hm. apply map_eq. intros tag. apply option_eq. intros tm.
  by rewrite (armed_lookup s l fl), Hm.
Qed.

(** An armed timer is known by the version and the task of its slot. *)
Lemma armed_slot s l fl tag tm :
  timer_inv s l fl -> armed s !! tag = Some tm ->
  ver_at s (tag_index tag) = Some (tag_version tag) /\ Z.odd (tag_version tag) = true /\
  task_at s (tag_index tag) = Some (tm_task tm) /\ tm_task tm <> NULL.
Proof.
  intros Hinv Harm. apply (armed_lookup s l fl) in Harm as (e & Hin & Hlive & <- & <-); [|done].
  destruct (li_elem _ _ (ti_link _ _ _ Hinv) e Hin) as [_ Hodd].
  destruct (li_task _ _ (ti_link _ _ _ Hinv) _ _ Hlive Hodd) as (t & Ht & Hnn).
  unfold timer_of, elem_tag. simpl. by rewrite Ht.
Qed.

(** A tag is armed exactly when its slot carries its version. *)
Lemma armed_some s l fl tag :
  timer_inv s l fl -> Z.odd (tag_version tag) = true ->
  ver_at s (tag_index tag) = Some (tag_version tag) <-> is_Some (armed s !! tag).
Proof.
  intros Hinv Hodd. split.
  - intros Hv. destruct (li_occ _ _ (ti_link _ _ _ Hinv) _ _ Hv Hodd) as (e & Hin & Htag).
    exists (timer_of s e). apply (armed_lookup s l fl); [done|]. exists e.
    destruct tag; unfold is_live, elem_tag in *; simpl in *; simplify_eq. eauto.
  - intros [tm Htm]. by eapply armed_slot.
Qed.

Lemma live_dead_length s l :
  (length (filter (is_live s) l) + length (filter (fun e => ~ is_live s e) l) = length l)%nat.
Proof.
  induction l as [|e l IH]; [done|]. rewrite !filter_cons.
  destruct (decide (is_live s e)), (decide (~ is_live s e)); simpl; tauto || lia.
Qed.

Lemma armed_size s l fl :
  timer_inv s l fl -> stdpp.base.size (armed s) = length (filter (is_live s) l).
Proof.
  intros [Ha _ _ Hl]. unfold armed. rewrite (entries_eq _ _ Ha).
  rewrite <- length_map_to_list, map_to_list_to_map; [by rewrite length_fmap|].
  rewrite <- list_fmap_compose. eapply (sublist_NoDup _ (elem_tag <$> l)); [apply Hl|].
  apply fmap_sublist, sublist_filter.
Qed.

(** ** What the operations do to the armed timers *)
Section spec.
Context `{Platform}.
Implicit Types (s : ntt_timer_heap).

Lemma armed_reclaimed s l fl s' l' fl' :
  timer_inv s l fl -> timer_inv s' l' fl' -> reclaimed s l s' l' -> armed s' = armed s.
Proof.
  intros Hinv Hinv' (Hf & dead & Hp & Hd).
  apply (armed_eq s' l' fl'); [done|]. intros tag tm. rewrite (armed_lookup s l fl) by done.
  assert (Htm : forall e, timer_of s' e = timer_of s e).
  { intros e. unfold timer_of. by rewrite (heap_frame_task s s'). }
  split; intros (e & Hin & Hlive & <- & <-); exists e.
  - rewrite Hp, elem_of_app in Hin. rewrite (heap_frame_live s s') by done.
    split_and!; auto. destruct Hin as [Hin|]; [|done].
    rewrite Forall_forall in Hd. by destruct (Hd e Hin).
  - rewrite (heap_frame_live s s') in Hlive by done. rewrite Hp, elem_of_app. auto.
Qed.

Lemma armed_push s l fl s' l' fl' dl t tag :
  timer_inv s l fl -> timer_inv s' l' fl' -> Z.odd (tag_version tag) = true ->
  tag ∉ elem_tag <$> l ->
  (forall v0, ver_at s (tag_index tag) = Some v0 -> Z.odd v0 = false) ->
  l' ≡ₚ mk_elem dl (seq_next s) (tag_index tag) (tag_version tag) :: l ->
  (forall j, ver_at s' j =
     if decide (j = tag_index tag) then Some (tag_version tag) else ver_at s j) ->
  (forall j, task_at s' j = if decide (j = tag_index tag) then Some t else task_at s j) ->
  armed s' = <[tag := mk_timer dl (seq_next s) t]> (armed s).
Proof.
  intros Hinv Hinv' Hodd Hfresh Hvac Hp Hv Ht.
  assert (Hsame : forall e, e ∈ l -> index e <> tag_index tag ->
    (is_live s' e <-> is_live s e) /\ timer_of s' e = timer_of s e).
  { intros e Hin Hne. unfold is_live, timer_of. by rewrite Hv, Ht, !decide_False. }
  assert (Hold : forall e, e ∈ l -> index e = tag_index tag -> ~ is_live s e /\ ~ is_live s' e).
  { intros e Hin Hi. unfold is_live. rewrite Hv, Hi, decide_True by done. split.
    - intros Hl. apply Hvac in Hl. destruct (li_elem _ _ (ti_link _ _ _ Hinv) e Hin). congruence.
    - intros [= Heq]. apply Hfresh, list_elem_of_fmap. exists e. split; [|done].
      destruct tag; unfold elem_tag; simpl in *; congruence. }
  apply (armed_eq s' l' fl'); [done|]. intros tag' tm. split.
  - intros Hlk. destruct (decide (tag = tag')) as [<-|Hne].
    + rewrite lookup_insert_eq in Hlk. injection Hlk as <-.
      exists (mk_elem dl (seq_next s) (tag_index tag) (tag_version tag)).
      rewrite Hp. unfold is_live, timer_of, elem_tag. simpl. rewrite Hv, Ht, !decide_True by done.
      split_and!; [by left|done|by destruct tag|done].
    + rewrite lookup_insert_ne in Hlk by done.
      apply (armed_lookup s l fl) in Hlk as (e & Hin & Hlive & <- & <-); [|done].
      destruct (decide (index e = tag_index tag)) as [Hi|Hi].
      { by destruct (Hold e Hin Hi). }
      destruct (Hsame e Hin Hi) as [Hl' Ht']. exists e. rewrite Hp.
      split_and!; [by right|by apply Hl'|done|done].
  - intros (e & Hin & Hlive & <- & <-). rewrite Hp in Hin. apply elem_of_cons in Hin as [->|Hin].
    + unfold elem_tag, timer_of. simpl. destruct tag as [i v]; simpl in *.
      by rewrite lookup_insert_eq, Ht, decide_True.
    + destruct (decide (index e = tag_index tag)) as [Hi|Hi].
      { by destruct (Hold e Hin Hi). }
      destruct (Hsame e Hin Hi) as [Hl' Ht']. rewrite lookup_insert_ne.
      * rewrite (armed_lookup s l fl) by done. exists e. split_and!; auto. by apply Hl'.
      * intros ->. by apply Hi.
Qed.

(** Releasing a slot disarms its timer, whether or not the entry stays. *)
Lemma armed_released s l fl s' l' fl' tag tm v' :
  timer_inv s l fl -> timer_inv s' l' fl' -> armed s !! tag = Some tm ->
  released s s' (tag_index tag) v' ->
  (forall e, e ∈ l' -> e ∈ l) -> (forall e, e ∈ l -> elem_tag e <> tag -> e ∈ l') ->
  armed s' = delete tag (armed s).
Proof.
  intros Hinv Hinv' Harm (Hv & Ht & Hev) Hsub Hsup.
  destruct (armed_slot s l fl tag tm Hinv Harm) as (Hver & _).
  apply (armed_eq s' l' fl'); [done|]. intros tag' tm'. rewrite lookup_delete_Some.
  rewrite (armed_lookup s l fl) by done. split.
  - intros (Hne & e & Hin & Hlive & Htag & Htm). exists e.
    assert (Hi : index e <> tag_index tag).
    { intros Hi. apply Hne. unfold is_live in Hlive. rewrite <- Htag.
      destruct tag. unfold elem_tag. simpl in *. congruence. }
    split_and!; [|unfold is_live; by rewrite Hv, decide_False|done|].
    + apply Hsup; [done|]. by intros <-.
    + rewrite <- Htm. unfold timer_of. by rewrite Ht, decide_False.
  - intros (e & Hin & Hlive & Htag & Htm).
    destruct (decide (index e = tag_index tag)) as [Hi|Hi].
    { unfold is_live in Hlive. rewrite Hv, Hi, decide_True in Hlive by done.
      injection Hlive as Heq. destruct (li_elem _ _ (ti_link _ _ _ Hinv') e Hin). congruence. }
    split; [by intros ->; rewrite <- Htag in Hi|]. exists e.
    split_and!; [by apply Hsub| |done|].
    + unfold is_live in *. by rewrite Hv, decide_False in Hlive.
    + rewrite <- Htm. unfold timer_of. by rewrite Ht, decide_False.
Qed.

Lemma push_entry_armed s dl t :
  timer_wf s -> push_ok s -> t <> NULL ->
  returns (push_entry s dl t) (fun '(tag, s') =>
    timer_wf s' /\ ntt_timer_tag_is_null tag = false /\ armed s !! tag = None /\
    armed s' = <[tag := mk_timer dl (seq_next s) t]> (armed s) /\
    (forall tag' tm', armed s !! tag' = Some tm' -> tm_seq tm' < seq_next s)).
Proof.
  intros (l & fl & Hinv) Hok Ht.
  eapply returns_mono; [by eapply push_entry_ok|].
  intros [tag s'] (l' & fl' & Hinv' & Htag & Hodd & Hvac & Hp & Hv & Htk & Hsn).
  assert (Hfresh : tag ∉ elem_tag <$> l).
  { rewrite Htag, <- (entries_eq s l) by apply Hinv. apply Hok. }
  split_and!.
  - by exists l', fl'.
  - unfold ntt_timer_tag_is_null. apply Z.eqb_neq. intros Hz. by rewrite Hz in Hodd.
  - apply eq_None_not_Some. intros Hs. apply (armed_some s l fl) in Hs; [|done|done].
    apply Hvac in Hs. congruence.
  - by eapply armed_push.
  - intros tag' tm' (e & Hin & _ & _ & <-)%(armed_lookup s l fl); [|done].
    by apply (li_seq _ _ (ti_link _ _ _ Hinv)).
Qed.

Lemma less_false x y :
  ntt_timer_heap_less x y = false <->
  deadline y < deadline x \/ (deadline y = deadline x /\ seq y <= seq x).
Proof. unfold ntt_timer_heap_less. repeat case_cmp; simpl; split; intros; try done; lia. Qed.

(** A live root is the timer that fires next. *)
Lemma root_first s l fl r :
  timer_inv s l fl -> l !! O = Some r -> is_live s r ->
  armed s !! elem_tag r = Some (timer_of s r) /\
  forall tag tm, armed s !! tag = Some tm -> tag <> elem_tag r -> before (timer_of s r) tm.
Proof.
  intros Hinv Hr Hlive. pose proof (list_elem_of_lookup_2 _ _ _ Hr) as Hin. split.
  { apply (armed_lookup s l fl); [done|]. by exists r. }
  intros tag tm (e & He & Hel & <- & <-)%(armed_lookup s l fl) Hne; [|done].
  pose proof (heap_root_min ntt_timer_heap_less l r e (ti_order _ _ _ Hinv) Hr He) as Hle.
  apply less_false in Hle. unfold before, timer_of. simpl.
  destruct Hle as [|[Hd Hs]]; [by left|right]. split; [done|].
  assert (seq r <> seq e); [|lia]. intros Heq. apply Hne.
  by rewrite (NoDup_fmap_eq seq l r e (li_seqs _ _ (ti_link _ _ _ Hinv)) Hin He Heq).
Qed.

(** With an empty array nothing is armed; a root that is not due shows that
    nothing is due. *)
Lemma none_due s l fl now :
  timer_inv s l fl -> (forall r, l !! O = Some r -> now < deadline r) ->
  forall tag tm, armed s !! tag = Some tm -> now < tm_deadline tm.
Proof.
  intros Hinv Hroot tag tm (e & He & _ & _ & <-)%(armed_lookup s l fl); [|done].
  apply list_elem_of_lookup in He as [i Hi].
  destruct (lookup_lt_is_Some_2 l 0) as [r Hr]; [apply lookup_lt_Some in Hi; lia|].
  pose proof (heap_root_min ntt_timer_heap_less l r e (ti_order _ _ _ Hinv) Hr
    (list_elem_of_lookup_2 _ _ _ Hi)) as Hle%less_false.
  specialize (Hroot r Hr). simpl. lia.
Qed.

Lemma peek_armed s :
  timer_wf s ->
  returns (ntt_timer_heap_peek s) (fun '(d, s') =>
    timer_wf s' /\ armed s' = armed s /\
    match d with
    | None => armed s = ∅
    | Some d => exists tag tm, armed s !! tag = Some tm /\ tm_deadline tm = d /\
        forall tag' tm', armed s !! tag' = Some tm' -> tag' <> tag -> before tm tm'
    end).
Proof.
  intros (l & fl & Hinv). unfold ntt_timer_heap_peek.
  eapply returns_bind; [by eapply drop_dead_root_ok|].
  intros s1 (l1 & Hinv1 & Hrec & Hend).
  pose proof (armed_reclaimed _ _ _ _ _ _ Hinv Hinv1 Hrec) as Harm.
  pose proof (ai_size _ _ (ti_array _ _ _ Hinv1)) as Hsz.
  destruct Hend as [->|(r & Hr & Hlive)].
  - rewrite Hsz. simpl. split_and!; [by exists [], fl|done|]. rewrite <- Harm.
    apply (armed_eq s1 [] fl); [done|]. intros tag tm. rewrite lookup_empty.
    split; [done|]. by intros (e & ?%elem_of_nil & _).
  - apply lookup_lt_Some in Hr as Hlt. destruct (Z.eqb_spec (size s1) 0); [lia|].
    rewrite (array_elem_at s1 l1 0 r (ti_array _ _ _ Hinv1) Hr : ntt_timer_heap_elem_at s1 0 = _).
    rewrite bind_ok. apply returns_ok. split_and!; [by exists l1, fl|done|].
    destruct (root_first s1 l1 fl r Hinv1 Hr Hlive) as [Har Hmin].
    exists (elem_tag r), (timer_of s1 r). rewrite Harm in *. split_and!; auto.
Qed.

Lemma compact_armed s :
  timer_wf s ->
  returns (ntt_timer_heap_compact s) (fun s' => timer_wf s' /\ armed s' = armed s).
Proof.
  intros (l & fl & Hinv). eapply returns_mono; [by eapply compact_ok|].
  intros s' (l' & Hinv' & Hrec). split; [by exists l', fl|]. by eapply armed_reclaimed.
Qed.

Lemma init_ver i : ver_at ntt_timer_heap_init i = None.
Proof. unfold ver_at, slot_of. simpl. rewrite bool_decide_false by lia. done. Qed.

Lemma timer_init_inv : timer_inv ntt_timer_heap_init [] [].
Proof.
  split.
  - split; simpl; [by exists []|done|done|by left].
  - apply heap_ordered_nil.
  - split; simpl; [done|by left|lia|lia|done|constructor|].
    intros i. setoid_rewrite init_ver. split; [by intros ?%elem_of_nil|by intros (? & ? & _)].
  - split; simpl; try setoid_rewrite init_ver; try done; try apply NoDup_nil_2;
      try (intros e ?%elem_of_nil; done); unfold UINT64_MAX; lia.
Qed.

Lemma init_wf : timer_wf ntt_timer_heap_init.
Proof. exists [], []. apply timer_init_inv. Qed.

Lemma init_armed : armed ntt_timer_heap_init = ∅.
Proof. reflexivity. Qed.

(** The count of the armed timers, tombstones excluded. *)
Lemma size_armed s :
  timer_wf s ->
  ntt_timer_heap_size s = Z.of_nat (stdpp.base.size (armed s)) /\
  (ntt_timer_heap_empty s = true <-> armed s = ∅).
Proof.
  intros (l & fl & Hinv). rewrite <- map_size_empty_iff, (armed_size s l fl Hinv).
  pose proof (live_dead_length s l) as Hsum. pose proof (li_tomb _ _ (ti_link _ _ _ Hinv)) as Ht.
  pose proof (ai_size _ _ (ti_array _ _ _ Hinv)) as Hsz. pose proof (timer_size_max _ _ _ Hinv) as Hm.
  unfold MAX_TIMERS in Hm. unfold ntt_timer_heap_size, ntt_timer_heap_empty. no_wrap.
  split; [lia|]. rewrite Z.eqb_eq. lia.
Qed.
End spec.
