(* ===== verification/TimerHeapHost.v ===== *)
(** * The timer heap: operations that run task callbacks

    [ntt_timer_heap_push], [_cancel], [_svc] and [_deinit] against any host
    that keeps the promises of [TaskHostLaws]: a callback may come back to the
    heap, but only through its public operations and within their contract. *)

From stdpp Require Import base numbers list gmap relations.
From Stdlib Require Import ZArith Lia.
From S2P Require Import Prelude.
From S2P Require Import HeapOrder.
From S2P Require Import TimerHeap.
From S2P Require Import TimerHeapArray.
From S2P Require Import TimerHeapInv.
From S2P Require Import TimerHeapOps.
From S2P Require Import TimerHeapSpec.

#[local] Open Scope Z_scope.

(** ** What a callback may do to the heap

    One step of a client that arms timers with deadlines in [P] only. *)
Inductive client_step `{Platform} (P : Z -> Prop) : ntt_timer_heap -> ntt_timer_heap -> Prop :=
  | client_arm s dl t tag s' :
      push_ok s -> t <> NULL -> P dl -> push_entry s dl t = Ok (tag, s') -> client_step P s s'
  | client_retire s i v s1 :
      ver_at s i = Some v -> Z.odd v = true -> ntt_timer_heap_free_slot s i = Ok s1 ->
      client_step P s (with_tombstones (u32 (tombstones s1 + 1)) s1)
  | client_compact s s' : ntt_timer_heap_compact s = Ok s' -> client_step P s s'
  | client_peek s d s' : ntt_timer_heap_peek s = Ok (d, s') -> client_step P s s'.

(** What the host of a heap promises: it keeps the heap apart from the rest of
    its state, and the callbacks of tasks change it by client steps only. *)
Class TaskHostLaws `{Platform} (W : Type) `{!TaskHost W} (P : Z -> Prop) : Prop := {
  thl_heap_set : forall s (w : W), th_heap (th_set_heap s w) = s;
  thl_svc : forall t (w : W), timer_wf (th_heap w) ->
    returns (th_task_svc t w) (fun w' => rtc (client_step P) (th_heap w) (th_heap w'));
  thl_destroy : forall t (w : W), timer_wf (th_heap w) ->
    returns (th_task_destroy t w) (fun w' => rtc (client_step P) (th_heap w) (th_heap w'));
}.

(** Entries, live or not, whose deadline has passed. *)
Definition due (now : Z) (s : ntt_timer_heap) : nat :=
  length (filter (fun e => deadline e <= now) (entries s)).

Section client.
Context `{Platform} (P : Z -> Prop).

Lemma client_step_wf s s' : client_step P s s' -> timer_wf s -> timer_wf s'.
Proof.
  intros Hstep Hwf. destruct Hstep as [s dl t tag s' Hok Ht _ Heq|s i v s1 Hv Hodd Heq|s s' Heq|s d s' Heq].
  - by apply (returns_inv _ _ _ (push_entry_armed s dl t Hwf Hok Ht) Heq).
  - destruct Hwf as (l & fl & Hinv).
    destruct (retire_ok s l fl i v Hinv Hv Hodd) as (s2 & Heq' & _ & Hinv' & _).
    rewrite Heq in Heq'. injection Heq' as ->. by exists l, (i :: fl).
  - by apply (returns_inv _ _ _ (compact_armed s Hwf) Heq).
  - by apply (returns_inv _ _ _ (peek_armed s Hwf) Heq).
Qed.

Lemma client_steps_wf s s' : rtc (client_step P) s s' -> timer_wf s -> timer_wf s'.
Proof. induction 1; eauto using client_step_wf. Qed.

Lemma due_eq now s l fl :
  timer_inv s l fl -> due now s = length (filter (fun e => deadline e <= now) l).
Proof. intros [Ha _ _ _]. unfold due. by rewrite (entries_eq _ _ Ha). Qed.

Lemma due_reclaimed now s l fl s' l' fl' :
  timer_inv s l fl -> timer_inv s' l' fl' -> reclaimed s l s' l' -> (due now s' <= due now s)%nat.
Proof.
  intros Hinv Hinv' (_ & dead & Hp & _).
  rewrite (due_eq now s l fl), (due_eq now s' l' fl'), Hp, filter_app, length_app by done. lia.
Qed.

Lemma client_step_due now s s' :
  (forall d, P d -> now < d) -> client_step P s s' -> timer_wf s -> (due now s' <= due now s)%nat.
Proof.
  intros HP Hstep (l & fl & Hinv).
  destruct Hstep as [s dl t tag s' Hok Ht HPd Heq|s i v s1 Hv Hodd Heq|s s' Heq|s d s' Heq].
  - destruct (returns_inv _ _ _ (push_entry_ok s l fl dl t Hinv Hok Ht) Heq)
      as (l' & fl' & Hinv' & _ & _ & _ & Hp & _).
    rewrite (due_eq now s l fl), (due_eq now s' l' fl'), Hp, filter_cons by done.
    rewrite decide_False; [done|]. simpl. specialize (HP _ HPd). lia.
  - destruct (retire_ok s l fl i v Hinv Hv Hodd) as (s2 & Heq' & _ & Hinv' & _).
    rewrite Heq in Heq'. injection Heq' as ->.
    by rewrite (due_eq now s l fl), (due_eq now _ l (i :: fl)).
  - destruct (returns_inv _ _ _ (compact_ok s l fl Hinv) Heq) as (l' & Hinv' & Hrec).
    by eapply due_reclaimed.
  - unfold ntt_timer_heap_peek in Heq. apply bind_inv_ok in Heq as (s1 & Hdrop & Heq).
    destruct (returns_inv _ _ _ (drop_dead_root_ok s l fl Hinv) Hdrop) as (l' & Hinv' & Hrec & _).
    assert (s' = s1) as ->.
    { destruct (size s1 =? 0); [by simplify_eq|].
      apply bind_inv_ok in Heq as (e & _ & ?). by simplify_eq. }
    by eapply due_reclaimed.
Qed.

Lemma client_steps_due now s s' :
  (forall d, P d -> now < d) -> rtc (client_step P) s s' -> timer_wf s ->
  (due now s' <= due now s)%nat.
Proof.
  intros HP. induction 1 as [|s1 s2 s3 Hstep _ IH]; [done|]. intros Hwf.
  pose proof (client_step_due now s1 s2 HP Hstep Hwf).
  pose proof (IH (client_step_wf _ _ Hstep Hwf)). lia.
Qed.
End client.

Section host.
Context `{Platform} {W : Type} `{!TaskHost W} (P : Z -> Prop) `{!TaskHostLaws W P}.
Implicit Types (w : W).

(** ** Running expired timers

    [svc_spec now w n w']: from [w], [n] timers run, each time the one that
    fires next among those due, disarmed before its task runs, until none is
    due any more. *)
Inductive svc_spec (now : Z) : W -> Z -> W -> Prop :=
  | svc_done w :
      (forall tag tm, armed (th_heap w) !! tag = Some tm -> now < tm_deadline tm) ->
      svc_spec now w 0 w
  | svc_reclaim w s n w' :
      armed s = armed (th_heap w) -> svc_spec now (th_set_heap s w) n w' -> svc_spec now w n w'
  | svc_fire w tag tm s w1 w2 n w' :
      armed (th_heap w) !! tag = Some tm -> tm_deadline tm <= now ->
      (forall tag' tm', armed (th_heap w) !! tag' = Some tm' -> tag' <> tag -> before tm tm') ->
      armed s = delete tag (armed (th_heap w)) ->
      th_task_svc (tm_task tm) (th_set_heap s w) = Ok w1 ->
      th_task_destroy (tm_task tm) w1 = Ok w2 ->
      svc_spec now w2 n w' -> svc_spec now w (n + 1) w'.

(** What one turn of the loop does to the invariant and to the armed timers. *)
Lemma turn_dead s l l' fl r s1 now :
  timer_inv s l fl -> l ≡ₚ r :: l' -> array_frame s s1 -> ~ is_live s r -> deadline r <= now ->
  timer_inv (with_tombstones (u32 (tombstones s1 - 1)) s1) l' fl ->
  armed (with_tombstones (u32 (tombstones s1 - 1)) s1) = armed s /\
  due now s = S (due now (with_tombstones (u32 (tombstones s1 - 1)) s1)).
Proof.
  intros Hinv Hp Hf Hdead Hdue Hinv1. split.
  - eapply armed_reclaimed; [done|done|]. split; [rewrite Hf; done|].
    exists [r]. split; [done|]. by constructor.
  - rewrite (due_eq now s l fl), (due_eq now _ l' fl), Hp, filter_cons, decide_True by done. done.
Qed.

Lemma turn_live s l l' fl r s2 now :
  timer_inv s l fl -> l ≡ₚ r :: l' -> is_live s r -> deadline r <= now ->
  l !! O = Some r -> timer_inv s2 l' (index r :: fl) ->
  released s s2 (index r) (u32 (version r + 1)) ->
  armed s2 = delete (elem_tag r) (armed s) /\ due now s = S (due now s2).
Proof.
  intros Hinv Hp Hlive Hdue Hr Hinv2 Hrel. split.
  - destruct (root_first s l fl r Hinv Hr Hlive) as [Harm _].
    eapply (armed_released s l fl s2 l' (index r :: fl)); [done|done|done|exact Hrel| |].
    + intros e He. rewrite Hp. by right.
    + intros e He Hne. rewrite Hp in He. apply elem_of_cons in He as [->|]; done.
  - rewrite (due_eq now s l fl), (due_eq now _ l' (index r :: fl)), Hp, filter_cons, decide_True by done.
    done.
Qed.

Lemma svc_loop_refines fuel : forall w now cnt c w',
  timer_wf (th_heap w) -> 0 <= cnt < 2 ^ 64 ->
  ntt_timer_heap_svc fuel w now cnt = Ok (c, w') ->
  timer_wf (th_heap w') /\
  exists n, 0 <= n /\ c = u64 (cnt + n) /\ svc_spec now w n w'.
Proof.
  induction fuel as [|fuel IH]; intros w now cnt c w' Hwf Hcnt; [discriminate|].
  pose proof Hwf as (l & fl & Hinv). cbn [ntt_timer_heap_svc].
  pose proof (ai_size _ _ (ti_array _ _ _ Hinv)) as Hsz.
  assert (Hdone : (forall r, l !! O = Some r -> now < deadline r) ->
    Ok (cnt, w) = Ok (c, w') -> timer_wf (th_heap w') /\
    exists n, 0 <= n /\ c = u64 (cnt + n) /\ svc_spec now w n w').
  { intros Hnd [= <- <-]. split; [done|]. exists 0. rewrite Z.add_0_r, u64_small by done.
    split_and!; [done|done|]. constructor. by eapply none_due. }
  destruct (Z.eqb_spec (size (th_heap w)) 0) as [Hz|Hnz].
  { apply Hdone. intros r Hr%lookup_lt_Some. lia. }
  destruct (lookup_lt_is_Some_2 l 0) as [r Hr]; [lia|].
  rewrite (array_elem_at _ l 0 r (ti_array _ _ _ Hinv) Hr : ntt_timer_heap_elem_at _ 0 = _), bind_ok.
  destruct (Z.gtb_spec (deadline r) now) as [Hgt|Hle].
  { apply Hdone. intros r' Hr'. by simplify_eq. }
  intros Hrun. apply bind_inv_ok in Hrun as (s1 & Hpop & Hrun).
  destruct (returns_inv _ _ _ (pop_turn_ok _ l fl r Hinv Hr) Hpop)
    as (l' & Hp & Hf & Hlv & Hdead & Hlive).
  rewrite Hlv, bind_ok in Hrun. case_bool_decide as Hl; cbn [negb] in Hrun.
  - destruct (Hlive Hl) as (sl & t & s2 & Hat & Htk & Hta & Hnn & Hfree & Hinv2 & Hrel & _).
    rewrite Hat, bind_ok, Htk in Hrun. cbn [defined] in Hrun.
    rewrite bind_ok, Hfree, bind_ok in Hrun.
    apply bind_inv_ok in Hrun as (w1 & Hsvc & Hrun). apply bind_inv_ok in Hrun as (w2 & Hdes & Hrun).
    destruct (turn_live _ l l' fl r s2 now Hinv Hp Hl Hle Hr Hinv2 Hrel) as [Harm _].
    destruct (root_first _ l fl r Hinv Hr Hl) as [Hroot Hmin].
    assert (Htm : tm_task (timer_of (th_heap w) r) = t) by (unfold timer_of; by rewrite Hta).
    assert (Hwf1 : timer_wf (th_heap w1)).
    { assert (Hs2 : timer_wf s2) by (by exists l', (index r :: fl)).
      pose proof (thl_svc (P := P) t (th_set_heap s2 w)) as Hc. rewrite (thl_heap_set (P := P)) in Hc.
      eapply client_steps_wf; [|exact Hs2]. exact (returns_inv _ _ _ (Hc Hs2) Hsvc). }
    assert (Hwf2 : timer_wf (th_heap w2)).
    { eapply client_steps_wf; [|exact Hwf1].
      exact (returns_inv _ _ _ (thl_destroy (P := P) t w1 Hwf1) Hdes). }
    destruct (IH w2 now _ c w' Hwf2 (u64_range _) Hrun) as (Hwf' & n & Hn & -> & Hspec).
    split; [done|]. exists (n + 1). split_and!; [lia| |].
    + unfold u64. rewrite Zplus_mod_idemp_l. f_equal. lia.
    + eapply (svc_fire now w (elem_tag r) (timer_of (th_heap w) r) s2 w1 w2); eauto.
      * by rewrite Htm.
      * by rewrite Htm.
  - destruct (Hdead Hl) as [Htb Hinv1].
    rewrite c_assert_true, bind_ok in Hrun by (by destruct (Z.gtb_spec (tombstones s1) 0); [|lia]).
    destruct (turn_dead _ l l' fl r s1 now Hinv Hp Hf Hl Hle Hinv1) as [Harm _].
    apply IH in Hrun as (Hwf' & n & Hn & Hc & Hspec); [|rewrite thl_heap_set; by exists l', fl|done].
    split; [done|]. exists n. split_and!; auto. by eapply svc_reclaim.
Qed.

(** No turn faults; the loop ends as soon as callbacks arm no timer that is
    already due, after at most one turn per due entry. *)
Lemma svc_loop_runs (b : Prop) fuel : forall w now cnt,
  timer_wf (th_heap w) ->
  b \/ ((forall d, P d -> now < d) /\ (due now (th_heap w) < fuel)%nat) ->
  runs b (ntt_timer_heap_svc fuel w now cnt) (fun _ => True).
Proof.
  induction fuel as [|fuel IH]; intros w now cnt Hwf Hb; [simpl; destruct Hb as [|[_ ?]]; [done|lia]|].
  pose proof Hwf as (l & fl & Hinv). cbn [ntt_timer_heap_svc].
  pose proof (ai_size _ _ (ti_array _ _ _ Hinv)) as Hsz.
  destruct (Z.eqb_spec (size (th_heap w)) 0) as [Hz|Hnz]; [done|].
  destruct (lookup_lt_is_Some_2 l 0) as [r Hr]; [lia|].
  rewrite (array_elem_at _ l 0 r (ti_array _ _ _ Hinv) Hr : ntt_timer_heap_elem_at _ 0 = _), bind_ok.
  destruct (Z.gtb_spec (deadline r) now) as [Hgt|Hle]; [done|].
  eapply runs_bind; [by eapply pop_turn_ok|].
  intros s1 (l' & Hp & Hfr & Hlv & Hdead & Hlive).
  rewrite Hlv, bind_ok. case_bool_decide as Hl; cbn [negb].
  - destruct (Hlive Hl) as (sl & t & s2 & Hat & Htk & _ & _ & Hfree & Hinv2 & Hrel & _).
    rewrite Hat, bind_ok, Htk. cbn [defined]. rewrite bind_ok, Hfree, bind_ok.
    destruct (turn_live _ l l' fl r s2 now Hinv Hp Hl Hle Hr Hinv2 Hrel) as [_ Hdue].
    pose proof (thl_svc t (th_set_heap s2 w)) as Hsvc. rewrite thl_heap_set in Hsvc.
    assert (Hwf2 : timer_wf s2) by (by exists l', (index r :: fl)).
    eapply runs_bind; [by apply Hsvc|]. intros w1 Hst1.
    pose proof (client_steps_wf P _ _ Hst1 Hwf2) as Hwf1.
    eapply runs_bind; [by apply thl_destroy|]. intros w2 Hst2.
    pose proof (client_steps_wf P _ _ Hst2 Hwf1).
    apply IH; [done|]. destruct Hb as [|[HP Hf]]; [by left|right]. split; [done|].
    pose proof (client_steps_due P now _ _ HP Hst1 Hwf2).
    pose proof (client_steps_due P now _ _ HP Hst2 Hwf1). lia.
  - destruct (Hdead Hl) as [Htb Hinv1].
    rewrite c_assert_true, bind_ok by (by destruct (Z.gtb_spec (tombstones s1) 0); [|lia]).
    destruct (turn_dead _ l l' fl r s1 now Hinv Hp Hfr Hl Hle Hinv1) as [_ Hdue].
    apply IH; rewrite ?thl_heap_set; [by exists l', fl|].
    destruct Hb as [|[HP Hf]]; [by left|right]. split; [done|lia].
Qed.

Lemma svc_loop_returns fuel w now cnt :
  (forall d, P d -> now < d) -> timer_wf (th_heap w) -> (due now (th_heap w) < fuel)%nat ->
  returns (ntt_timer_heap_svc fuel w now cnt) (fun _ => True).
Proof. intros HP Hwf Hf. apply runs_returns, (svc_loop_runs False); auto. Qed.

Lemma svc_spec_none_due now w n w' :
  svc_spec now w n w' ->
  forall tag tm, armed (th_heap w') !! tag = Some tm -> now < tm_deadline tm.
Proof. by induction 1. Qed.

(** ** Cancelling *)
Lemma cancel_armed w tag tm :
  timer_wf (th_heap w) -> armed (th_heap w) !! tag = Some tm ->
  returns (ntt_timer_heap_cancel w tag) (fun w' => exists s1 w1 s',
    timer_wf s1 /\ armed s1 = delete tag (armed (th_heap w)) /\
    th_task_destroy (tm_task tm) (th_set_heap s1 w) = Ok w1 /\
    w' = th_set_heap s' w1 /\ timer_wf s' /\ armed s' = armed (th_heap w1)).
Proof.
  intros (l & fl & Hinv) Harm.
  destruct (armed_slot _ l fl tag tm Hinv Harm) as (Hv & Hodd & Htk & _).
  pose proof (ver_at_bounds _ _ _ Hv) as Hi.
  destruct (slot_at_ok _ fl _ (ti_slots _ _ _ Hinv) Hi) as (sl & v & Hat & Hsl & Hslv & Hv' & _).
  assert (v = tag_version tag) as -> by congruence.
  destruct (retire_ok _ l fl _ _ Hinv Hv Hodd) as (s1 & Hfree & Hf & Hinv1 & Hrel).
  set (s2 := with_tombstones (u32 (tombstones s1 + 1)) s1) in *.
  assert (Harm2 : armed s2 = delete tag (armed (th_heap w))).
  { eapply (armed_released _ l fl s2 l); eauto. }
  unfold ntt_timer_heap_cancel, ntt_timer_tag_is_null.
  rewrite (c_assert_true (negb _)), bind_ok.
  2:{ destruct (Z.eqb_spec (tag_version tag) 0) as [Hz|]; [by rewrite Hz in Hodd|done]. }
  assert_ok. destruct (Z.geb_spec (tag_index tag) (slot_cnt (th_heap w))); [lia|].
  rewrite Hat, bind_ok, Hslv. cbn [defined]. rewrite bind_ok, Z.eqb_refl.
  rewrite c_assert_true, bind_ok by done. cbn [negb].
  assert (slot_task sl = Some (tm_task tm)) as ->.
  { unfold task_at in Htk. by rewrite Hsl in Htk. }
  cbn [defined]. rewrite bind_ok, Hfree, bind_ok. fold s2.
  assert (Hwf2 : timer_wf s2) by (by exists l, (tag_index tag :: fl)).
  pose proof (thl_destroy (P := P) (tm_task tm) (th_set_heap s2 w)) as Hdes.
  rewrite (thl_heap_set (P := P)) in Hdes. specialize (Hdes Hwf2).
  destruct (th_task_destroy (tm_task tm) (th_set_heap s2 w)) as [w1|f] eqn:Hd; [|exact Hdes].
  pose proof (client_steps_wf P _ _ Hdes Hwf2) as Hwf1. rewrite bind_ok.
  eapply returns_bind; [by apply compact_armed|]. intros s' [Hwf' Harm'].
  apply returns_ok. exists s2, w1, s'. by split_and!.
Qed.

Lemma cancel_not_armed w tag :
  timer_wf (th_heap w) -> Z.odd (tag_version tag) = true -> 0 <= tag_index tag ->
  armed (th_heap w) !! tag = None ->
  ntt_timer_heap_cancel w tag = if ndebug then Ok w else Err AssertFailure.
Proof.
  intros (l & fl & Hinv) Hodd Hi Harm.
  unfold ntt_timer_heap_cancel, ntt_timer_tag_is_null.
  rewrite (c_assert_true (negb _)), bind_ok.
  2:{ destruct (Z.eqb_spec (tag_version tag) 0) as [Hz|]; [by rewrite Hz in Hodd|done]. }
  destruct (Z.geb_spec (tag_index tag) (slot_cnt (th_heap w))) as [Hge|Hlt].
  { unfold c_assert. rewrite (proj2 (Z.ltb_ge _ _)) by lia. by destruct ndebug. }
  assert_ok.
  destruct (slot_at_ok _ fl (tag_index tag) (ti_slots _ _ _ Hinv)) as (sl & v & -> & _ & Hslv & Hv & _);
    [lia|].
  rewrite bind_ok, Hslv. cbn [defined]. rewrite bind_ok.
  destruct (Z.eqb_spec v (tag_version tag)) as [->|Hne].
  { apply (armed_some _ l fl tag Hinv Hodd) in Hv as [? Hs]. congruence. }
  unfold c_assert. by destruct ndebug.
Qed.

(** ** Releasing the heap *)
Fixpoint destroy_all (ts : list ptr) w : res W :=
  match ts with
  | [] => Ok w
  | t :: ts => w ← th_task_destroy t w; destroy_all ts w
  end.

(** The tasks of the armed timers, in the order of their entries. *)
Definition armed_tasks (s : ntt_timer_heap) (l : list ntt_timer_heap_elem) : list ptr :=
  tm_task ∘ timer_of s <$> filter (is_live s) l.

Lemma armed_tasks_perm s l fl :
  timer_inv s l fl -> armed_tasks s l ≡ₚ tm_task ∘ snd <$> map_to_list (armed s).
Proof.
  intros [Ha _ _ Hl]. unfold armed, armed_tasks. rewrite (entries_eq _ _ Ha).
  rewrite map_to_list_to_map.
  - by rewrite <- list_fmap_compose.
  - rewrite <- list_fmap_compose. eapply (sublist_NoDup _ (elem_tag <$> l)); [apply Hl|].
    apply fmap_sublist, sublist_filter.
Qed.

Lemma deinit_loop_ok s l fl :
  timer_inv s l fl ->
  (forall t w, th_heap w = s -> returns (th_task_destroy t w) (fun w' => th_heap w' = s)) ->
  forall todo fuel w, th_heap w = s -> (length todo < fuel)%nat ->
  (exists pre, l = pre ++ todo) ->
  deinit_loop fuel w (Z.of_nat (length l - length todo)) = destroy_all (armed_tasks s todo) w /\
  returns (destroy_all (armed_tasks s todo) w) (fun w' => th_heap w' = s).
Proof.
  intros Hinv Hdes. pose proof Hinv as [Ha _ Hs Hl]. pose proof (ai_size _ _ Ha) as Hsz.
  pose proof (timer_size_max _ _ _ Hinv) as Hmax. unfold MAX_TIMERS in Hmax.
  induction todo as [|e todo IH]; intros fuel w Hw Hf [pre Hpre];
    (destruct fuel as [|fuel]; [simpl in Hf; lia|]); cbn [deinit_loop]; rewrite Hw.
  - rewrite (proj2 (Z.ltb_ge _ _)) by (simpl; lia). done.
  - assert (Hlen : length l = (length pre + S (length todo))%nat) by (rewrite Hpre, length_app; done).
    replace (length l - length (e :: todo))%nat with (length pre) by (simpl; lia).
    assert (He : l !! length pre = Some e) by (rewrite Hpre; by apply list_lookup_middle).
    rewrite (proj2 (Z.ltb_lt _ _)) by lia.
    rewrite (array_elem_at s l _ e Ha He), bind_ok.
    destruct (li_elem _ _ Hl e (list_elem_of_lookup_2 _ _ _ He)) as [Hsome Hodd].
    rewrite (elem_live_ok s fl) by done. rewrite bind_ok.
    replace (u32 (Z.of_nat (length pre) + 1)) with (Z.of_nat (length l - length todo))
      by (no_wrap; lia).
    assert (Hpre' : exists pre', l = pre' ++ todo) by (exists (pre ++ [e]); by rewrite <- app_assoc).
    simpl in Hf. unfold armed_tasks. rewrite filter_cons. case_bool_decide as Hlive.
    + rewrite decide_True by done. cbn [fmap list_fmap destroy_all].
      destruct (li_task _ _ Hl _ _ Hlive Hodd) as (t & Ht & _).
      destruct (slot_at_ok s fl (index e) Hs) as (sl & v & Hat & Hsl & _);
        [by eapply ver_at_bounds|].
      rewrite Hat, bind_ok. assert (slot_task sl = Some t) as ->.
      { unfold task_at in Ht. by rewrite Hsl in Ht. }
      cbn [defined]. rewrite bind_ok.
      assert ((tm_task ∘ timer_of s) e = t) as -> by (unfold timer_of; simpl; by rewrite Ht).
      specialize (Hdes t w Hw).
      destruct (th_task_destroy t w) as [w1|[]]; simpl in *; try done.
      apply IH; auto. lia.
    + rewrite decide_False by done. rewrite bind_ok. apply IH; auto. lia.
Qed.
End host.
