(* ===== verification/TimerHeapProps.v ===== *)
(** * The timer heap: properties

    The theorems about [timer_heap.c] that the rest of the library relies on,
    each with a witness on a concrete heap.  The witnesses use [sim], a small
    host whose tasks log their callbacks and, when odd, arm a follow-up timer
    from inside the callback. *)

From stdpp Require Import base numbers list gmap relations.
From Stdlib Require Import ZArith Lia.
From S2P Require Import Prelude.
From S2P Require Import HeapOrder.
From S2P Require Import TimerHeap.
From S2P Require Import TimerHeapArray.
From S2P Require Import TimerHeapInv.
From S2P Require Import TimerHeapOps.
From S2P Require Import TimerHeapSpec.
From S2P Require Import TimerHeapHost.

#[local] Open Scope Z_scope.

(** ** A host for examples *)
Module Sim.
(** A debug build on a machine with enough memory. *)
#[export] Instance debug_platform : Platform := {| ndebug := false; alloc_ok := fun _ => true |}.

Inductive action := Run | Drop.

Record sim : Type := mk_sim { sim_heap : ntt_timer_heap; sim_log : list (ptr * action) }.

#[export] Instance push_ok_dec s : Decision (push_ok s) := _.

(** Odd tasks arm a timer at 1000 for their successor while they run. *)
Definition sim_svc (t : ptr) (w : sim) : res sim :=
  let w := mk_sim (sim_heap w) (sim_log w ++ [(t, Run)]) in
  if decide (Z.odd t = true /\ push_ok (sim_heap w) /\ t + 1 <> NULL) then
    '(_, s) ← push_entry (sim_heap w) 1000 (t + 1);
    Ok (mk_sim s (sim_log w))
  else Ok w.

Definition sim_destroy (t : ptr) (w : sim) : res sim :=
  Ok (mk_sim (sim_heap w) (sim_log w ++ [(t, Drop)])).

#[export] Instance sim_host : TaskHost sim := {|
  th_heap := sim_heap;
  th_set_heap := fun s w => mk_sim s (sim_log w);
  th_task_unlinked := fun _ _ => Ok true;
  th_task_svc := sim_svc;
  th_task_destroy := sim_destroy;
|}.

#[export] Instance sim_laws : TaskHostLaws sim (fun d => 999 < d).
Proof.
  split; [done| |intros t w _; apply rtc_refl]. intros t w Hwf. unfold th_task_svc, sim_host, sim_svc. simpl.
  case_decide as Hc; [|apply rtc_refl]. destruct Hc as (_ & Hok & Hnn). simpl in *.
  pose proof (push_entry_armed (sim_heap w) 1000 (t + 1) Hwf Hok Hnn) as Hpush.
  destruct (push_entry (sim_heap w) 1000 (t + 1)) as [[tag s]|f] eqn:Heq; simpl in *.
  - apply rtc_once. by eapply (client_arm _ (sim_heap w) 1000 (t + 1) tag s Hok Hnn); [lia|].
  - exact Hpush.
Qed.

Definition sim0 : sim := mk_sim ntt_timer_heap_init [].

(** Arms timers at 30, 10 and 10 for the tasks 16, 33 and 48, then cancels
    the first one. *)
Definition sim_run : res (list ntt_timer_tag * sim) :=
  '(t1, w) ← ntt_timer_heap_push sim0 30 16;
  '(t2, w) ← ntt_timer_heap_push w 10 33;
  '(t3, w) ← ntt_timer_heap_push w 10 48;
  w ← ntt_timer_heap_cancel w t1;
  Ok ([t1; t2; t3], w).

Definition sim1 : sim := match sim_run with Ok (_, w) => w | Err _ => sim0 end.

(** The heaps on the way to [sim1] satisfy the invariant. *)
Lemma sim_push_wf w dl t tag w' :
  ntt_timer_heap_push w dl t = Ok (tag, w') -> bool_decide (push_ok (sim_heap w)) = true ->
  t <> NULL -> timer_wf (th_heap w) -> timer_wf (th_heap w').
Proof.
  unfold ntt_timer_heap_push. intros Heq Hok Ht Hwf.
  apply bool_decide_eq_true in Hok. rewrite c_assert_true in Heq
    by (destruct (Z.eqb_spec t NULL); [done|done]).
  rewrite bind_ok in Heq. simpl in Heq.
  apply bind_inv_ok in Heq as ([tag' s] & Hpush & Heq). injection Heq as -> <-.
  by apply (returns_inv _ _ _ (push_entry_armed _ _ _ Hwf Hok Ht) Hpush).
Qed.

Definition sim_a : sim := match ntt_timer_heap_push sim0 30 16 with Ok (_, w) => w | Err _ => sim0 end.
Definition sim_b : sim := match ntt_timer_heap_push sim_a 10 33 with Ok (_, w) => w | Err _ => sim0 end.
Definition sim_c : sim := match ntt_timer_heap_push sim_b 10 48 with Ok (_, w) => w | Err _ => sim0 end.

Lemma sim_c_wf : timer_wf (th_heap sim_c).
Proof.
  eapply (sim_push_wf sim_b 10 48); [by vm_compute|by vm_compute|done|].
  eapply (sim_push_wf sim_a 10 33); [by vm_compute|by vm_compute|done|].
  eapply (sim_push_wf sim0 30 16); [by vm_compute|by vm_compute|done|].
  apply init_wf.
Qed.

Lemma sim1_wf : timer_wf (th_heap sim1).
Proof.
  assert (Harm : armed (th_heap sim_c) !! mk_tag 0 1 = Some (mk_timer 30 0 16)) by (by vm_compute).
  pose proof (cancel_armed (W := sim) (fun d => 999 < d) sim_c (mk_tag 0 1) (mk_timer 30 0 16)
    sim_c_wf Harm) as Hc.
  assert (Heq : ntt_timer_heap_cancel sim_c (mk_tag 0 1) = Ok sim1) by (by vm_compute).
  rewrite Heq in Hc. destruct Hc as (s1 & w1 & s' & _ & _ & _ & -> & Hwf & _). exact Hwf.
Qed.
End Sim.

(** ** Arming, cancelling, peeking *)
Section props.
Context `{Platform} {W : Type} `{!TaskHost W} (P : Z -> Prop) `{!TaskHostLaws W P}.
Implicit Types (w : W).

(** [ntt_timer_heap_push], within its contract, returns a tag that is
    not null and was not armed; afterwards the armed timers are the old ones
    plus the new one under that tag, which comes after every timer already
    armed with the same deadline.  The heap keeps its invariant. *)
Theorem timer_push_arms w dl task :
  timer_wf (th_heap w) -> push_ok (th_heap w) -> task <> NULL ->
  th_task_unlinked task w = Ok true ->
  returns (ntt_timer_heap_push w dl task) (fun '(tag, w') =>
    timer_wf (th_heap w') /\ ntt_timer_tag_is_null tag = false /\
    armed (th_heap w) !! tag = None /\
    exists tm, armed (th_heap w') = <[tag := tm]> (armed (th_heap w)) /\
      tm_deadline tm = dl /\ tm_task tm = task /\
      forall tag' tm', armed (th_heap w) !! tag' = Some tm' -> tm_seq tm' < tm_seq tm).
Proof.
  intros Hwf Hok Ht Hun. unfold ntt_timer_heap_push.
  rewrite (c_assert_true (negb _)), bind_ok by (by destruct (Z.eqb_spec task NULL)).
  rewrite Hun, bind_ok, c_assert_true, bind_ok by done.
  eapply returns_bind; [by apply push_entry_armed|].
  intros [tag s'] (Hwf' & Hnn & Hnone & Harm & Hseq). apply returns_ok.
  rewrite (thl_heap_set (P := P)). split_and!; [done..|]. eauto.
Qed.

(** C32.  [ntt_timer_heap_cancel] of an armed timer disarms it, and only it,
    before the task is destroyed without having run; the bulk reclamation
    that follows the callback changes no armed timer. *)
Theorem timer_cancel_disarms w tag tm :
  timer_wf (th_heap w) -> armed (th_heap w) !! tag = Some tm ->
  returns (ntt_timer_heap_cancel w tag) (fun w' => exists s1 w1 s',
    timer_wf s1 /\ armed s1 = delete tag (armed (th_heap w)) /\
    th_task_destroy (tm_task tm) (th_set_heap s1 w) = Ok w1 /\
    w' = th_set_heap s' w1 /\ timer_wf s' /\ armed s' = armed (th_heap w1)).
Proof. by apply (cancel_armed P). Qed.

(** C39.  Cancelling a timer that fired or was cancelled before trips an
    assertion in a debug build and is ignored in a release build. *)
Theorem timer_cancel_stale w tag :
  timer_wf (th_heap w) -> Z.odd (tag_version tag) = true -> 0 <= tag_index tag ->
  armed (th_heap w) !! tag = None ->
  ntt_timer_heap_cancel w tag = if ndebug then Ok w else Err AssertFailure.
Proof. apply cancel_not_armed. Qed.

(** [ntt_timer_heap_peek] reports no deadline exactly when no timer is
    armed, and otherwise the deadline of the timer that comes before every
    other armed one; it reclaims tombstones but arms and disarms nothing. *)
Theorem timer_peek_earliest s :
  timer_wf s ->
  returns (ntt_timer_heap_peek s) (fun '(d, s') =>
    timer_wf s' /\ armed s' = armed s /\
    match d with
    | None => armed s = ∅
    | Some d => exists tag tm, armed s !! tag = Some tm /\ tm_deadline tm = d /\
        forall tag' tm', armed s !! tag' = Some tm' -> tag' <> tag -> before tm tm'
    end).
Proof. apply peek_armed. Qed.

(** C1.  [ntt_timer_heap_svc] never faults, whatever the callbacks arm or
    cancel, and when it returns it has run a schedule of [svc_spec]: each
    turn fires the first armed timer that is due, disarmed before its task
    runs once and is then destroyed; the count returned is the number of
    timers fired. *)
Theorem timer_svc_refines fuel w now :
  timer_wf (th_heap w) ->
  runs True (ntt_timer_heap_svc fuel w now 0) (fun '(c, w') =>
    timer_wf (th_heap w') /\ exists n, 0 <= n /\ c = u64 n /\ svc_spec now w n w').
Proof.
  intros Hwf. pose proof (svc_loop_runs P True fuel w now 0 Hwf (or_introl I)) as Hrun.
  destruct (ntt_timer_heap_svc fuel w now 0) as [[c w']|[]] eqn:Heq; try done.
  destruct (svc_loop_refines P fuel w now 0 c w' Hwf) as (Hwf' & n & Hn & Hc & Hs); [lia|done|].
  split; [done|]. by exists n.
Qed.

(** C2.  When the callbacks arm no timer that is already due, the loop of
    [ntt_timer_heap_svc] ends after at most one turn per due entry, and leaves
    no armed timer that is due. *)
Theorem timer_svc_terminates w now :
  (forall d, P d -> now < d) -> timer_wf (th_heap w) ->
  returns (ntt_timer_heap_svc (S (due now (th_heap w))) w now 0) (fun '(_, w') =>
    forall tag tm, armed (th_heap w') !! tag = Some tm -> now < tm_deadline tm).
Proof.
  intros HP Hwf. pose proof (svc_loop_returns P (S (due now (th_heap w))) w now 0 HP Hwf) as Hr.
  destruct (ntt_timer_heap_svc _ w now 0) as [[c w']|[]] eqn:Heq; try (by apply Hr; lia).
  destruct (svc_loop_refines P (S (due now (th_heap w))) w now 0 c w' Hwf) as (_ & n & _ & _ & Hs); [lia|done|].
  exact (svc_spec_none_due now w n w' Hs).
Qed.

(** [ntt_timer_heap_deinit] destroys the task of every armed timer
    exactly once, running none, and leaves the heap as [ntt_timer_heap_init]
    makes it, provided the destroyed tasks leave the heap alone. *)
Theorem timer_deinit_destroys w :
  timer_wf (th_heap w) ->
  (forall t w', th_heap w' = th_heap w ->
     returns (th_task_destroy t w') (fun w'' => th_heap w'' = th_heap w)) ->
  exists ts, ts ≡ₚ tm_task ∘ snd <$> map_to_list (armed (th_heap w)) /\
    returns (ntt_timer_heap_deinit w) (fun w' => exists w1,
      destroy_all ts w = Ok w1 /\ w' = th_set_heap ntt_timer_heap_init w1).
Proof.
  intros (l & fl & Hinv) Hdes. exists (armed_tasks (th_heap w) l).
  split; [by eapply armed_tasks_perm|]. unfold ntt_timer_heap_deinit.
  destruct (deinit_loop_ok _ l fl Hinv Hdes l (S (Z.to_nat (size (th_heap w)))) w) as [Heq Hret].
  - done.
  - rewrite (ai_size _ _ (ti_array _ _ _ Hinv)). lia.
  - by exists [].
  - rewrite Nat.sub_diag in Heq. change (Z.of_nat 0) with 0 in Heq. rewrite Heq.
    destruct (destroy_all _ w) as [w1|[]]; simpl in *; eauto.
Qed.

(** [ntt_timer_heap_size] and [ntt_timer_heap_empty] count the armed
    timers, tombstones excluded. *)
Theorem timer_size_counts s :
  timer_wf s ->
  ntt_timer_heap_size s = Z.of_nat (stdpp.base.size (armed s)) /\
  (ntt_timer_heap_empty s = true <-> armed s = ∅).
Proof. apply size_armed. Qed.

(** One call of a public operation, within its contract, by the code around the
    heap: tags are those that [ntt_timer_heap_push] returns, of timers armed or
    long gone, and the tasks that [ntt_timer_heap_deinit] destroys leave the heap
    alone. *)
Inductive host_step : W -> W -> Prop :=
  | host_push w dl task tag w' :
      push_ok (th_heap w) -> task <> NULL -> ntt_timer_heap_push w dl task = Ok (tag, w') -> host_step w w'
  | host_cancel w tag w' :
      Z.odd (tag_version tag) = true -> 0 <= tag_index tag -> ntt_timer_heap_cancel w tag = Ok w' -> host_step w w'
  | host_svc fuel w now cnt w' : ntt_timer_heap_svc fuel w now 0 = Ok (cnt, w') -> host_step w w'
  | host_peek w d s : ntt_timer_heap_peek (th_heap w) = Ok (d, s) -> host_step w (th_set_heap s w)
  | host_deinit w w' :
      (forall t w1, th_heap w1 = th_heap w -> returns (th_task_destroy t w1) (fun w2 => th_heap w2 = th_heap w)) ->
      ntt_timer_heap_deinit w = Ok w' -> host_step w w'
  | host_other w w' : th_heap w' = th_heap w -> host_step w w'.

Lemma push_wf w dl task tag w' :
  timer_wf (th_heap w) -> push_ok (th_heap w) -> task <> NULL ->
  ntt_timer_heap_push w dl task = Ok (tag, w') -> timer_wf (th_heap w').
Proof.
  intros Hwf Hok Ht Heq. unfold ntt_timer_heap_push in Heq. apply bind_inv_ok in Heq as (_ & _ & Heq).
  apply bind_inv_ok in Heq as (u & _ & (_ & _ & ([tag' s] & Hpush & [= -> <-])%bind_inv_ok)%bind_inv_ok).
  rewrite (thl_heap_set (P := P)). by apply (returns_inv _ _ _ (push_entry_armed _ _ _ Hwf Hok Ht) Hpush).
Qed.

Lemma deinit_wf w w' :
  timer_wf (th_heap w) ->
  (forall t w1, th_heap w1 = th_heap w -> returns (th_task_destroy t w1) (fun w2 => th_heap w2 = th_heap w)) ->
  ntt_timer_heap_deinit w = Ok w' -> th_heap w' = ntt_timer_heap_init.
Proof.
  intros Hwf Hdes Heq. destruct (timer_deinit_destroys w Hwf Hdes) as (ts & _ & Hr).
  rewrite Heq in Hr. destruct Hr as (w1 & _ & ->). apply (thl_heap_set (P := P)).
Qed.

Lemma host_step_wf w w' : host_step w w' -> timer_wf (th_heap w) -> timer_wf (th_heap w').
Proof.
  intros [w1 dl task tag w2 Hok Ht Heq|w1 tag w2 Hodd Hi Heq|fuel w1 now cnt w2 Heq|w1 d s Heq|w1 w2 Hdes Heq|w1 w2 Heq] Hwf.
  - by eapply push_wf.
  - destruct (armed (th_heap w1) !! tag) as [tm|] eqn:Ha.
    + destruct (returns_inv _ _ _ (cancel_armed P w1 tag tm Hwf Ha) Heq) as (s1 & w3 & s' & _ & _ & _ & -> & Hwf' & _).
      by rewrite (thl_heap_set (P := P)).
    + rewrite (cancel_not_armed w1 tag Hwf Hodd Hi Ha) in Heq. destruct ndebug; [|done]. by injection Heq as <-.
  - by apply (svc_loop_refines P fuel w1 now 0 cnt w2 Hwf).
  - rewrite (thl_heap_set (P := P)). by apply (returns_inv _ _ _ (peek_armed _ Hwf) Heq).
  - rewrite (deinit_wf _ _ Hwf Hdes Heq). apply init_wf.
  - by rewrite Heq.
Qed.

(** C33.  Every heap that the public operations reach from [ntt_timer_heap_init]
    (push, cancel with tags armed or stale, svc with callbacks that come back to
    the heap, peek, and deinit followed by further use), in any order, satisfies
    the invariant; from there [ntt_timer_heap_svc] and [ntt_timer_heap_peek] never
    fault and [ntt_timer_heap_empty] tells whether a timer is armed. *)
Theorem timer_reachable_wf w0 w :
  th_heap w0 = ntt_timer_heap_init -> rtc host_step w0 w ->
  timer_wf (th_heap w) /\
  (forall fuel now, runs True (ntt_timer_heap_svc fuel w now 0) (fun _ => True)) /\
  returns (ntt_timer_heap_peek (th_heap w)) (fun _ => True) /\
  (ntt_timer_heap_empty (th_heap w) = true <-> armed (th_heap w) = ∅).
Proof.
  intros H0 Hs. assert (Hwf : timer_wf (th_heap w)).
  { assert (Hi : timer_wf (th_heap w0)) by (rewrite H0; apply init_wf). clear H0. induction Hs; eauto using host_step_wf. }
  split_and!; [done| | |by apply size_armed].
  - intros fuel now. apply (svc_loop_runs P True); [done|by left].
  - eapply returns_mono; [by apply peek_armed|done].
Qed.
End props.

(** ** The array algorithms *)
Section array_props.
Context `{Platform}.
Implicit Types (s : ntt_timer_heap).

(** The sift-up of [timer_heap.c], which moves a hole, does what the
    textbook sift-up by swaps does, and restores the heap order. *)
Theorem timer_sift_up_textbook s v rest (pos : nat) e :
  holds_at s v rest pos e -> up_inv ntt_timer_heap_less v pos ->
  exists v', ntt_timer_heap_sift_up s (Z.of_nat pos) e = Ok (with_heap ((Some <$> v') ++ rest) s) /\
    v' = swim ntt_timer_heap_less pos v pos /\ v' ≡ₚ v /\ heap_ordered ntt_timer_heap_less v'.
Proof.
  intros Hh Hup. eexists. split_and!; [by apply sift_up_refines|done|apply swim_perm|].
  apply swim_ordered; [apply _|lia|done].
Qed.

(** The same for the sift-down, from any position of a heap under
    construction. *)
Theorem timer_sift_down_textbook s v rest (pos : nat) e :
  holds_at s v rest pos e -> down_inv ntt_timer_heap_less pos v pos ->
  exists v', ntt_timer_heap_sift_down s (Z.of_nat pos) e = Ok (with_heap ((Some <$> v') ++ rest) s) /\
    v' = sink ntt_timer_heap_less (length v) v pos /\ v' ≡ₚ v /\
    ordered_from ntt_timer_heap_less pos v'.
Proof.
  intros Hh Hd. eexists. split_and!; [by apply sift_down_refines|done|apply sink_perm|].
  apply sink_ordered; [apply _|lia|done].
Qed.

(** [ntt_timer_heap_grow_capacity] returns the least power of two, from
    the current capacity (or the minimum) on, that holds [cnt] entries, as
    long as [cnt] is at most 2^31. *)
Theorem timer_grow_capacity_least cap cnt :
  cap = 0 \/ (exists k, 3 <= k <= 31 /\ cap = 2 ^ k) -> cnt <= 2 ^ 31 ->
  exists j, 3 <= j <= 31 /\ ntt_timer_heap_grow_capacity cap cnt = Ok (2 ^ j) /\
    cnt <= 2 ^ j /\ cap <= 2 ^ j /\
    (2 ^ j = Z.max cap NTT_TIMER_MIN_CAPACITY \/ 2 ^ (j - 1) < cnt).
Proof.
  intros Hcap Hcnt. unfold ntt_timer_heap_grow_capacity, NTT_TIMER_MIN_CAPACITY.
  assert (exists k, 3 <= k <= 31 /\ Z.max cap 8 = 2 ^ k /\ (if cap =? 0 then 8 else cap) = 2 ^ k)
    as (k & Hk & Hmax & ->).
  { destruct Hcap as [->|(k & Hk & ->)]; [by exists 3|]. exists k. pose proof (pow2_ge_8 k).
    split_and!; [lia..|]. case_cmp; lia. }
  destruct (grow_loop_pow2 33 k 31 cnt) as (j & Hj & -> & Hle & Hleast); [lia..|].
  assert (2 ^ k <= 2 ^ j) by (apply Z.pow_le_mono_r; lia).
  exists j. split_and!; [lia|lia|done|done|lia|]. destruct Hleast as [->|]; [left; lia|by right].
Qed.

(** Beyond 2^31 entries the doubling of [ntt_timer_heap_grow_capacity]
    wraps to zero and the loop never ends. *)
Theorem timer_grow_capacity_diverges k cnt fuel :
  0 <= k <= 31 -> 2 ^ 31 < cnt -> grow_loop fuel (2 ^ k) cnt = Err OutOfFuel.
Proof.
  intros Hk Hcnt.
  assert (Hz : forall fuel, grow_loop fuel 0 cnt = Err OutOfFuel).
  { intros n. induction n as [|n IH]; [done|]. cbn [grow_loop].
    by destruct (Z.ltb_spec 0 cnt); [|lia]. }
  revert k Hk. induction fuel as [|fuel IH]; intros k Hk; [done|]. cbn [grow_loop].
  assert (2 ^ k <= 2 ^ 31) by (apply Z.pow_le_mono_r; lia).
  destruct (Z.ltb_spec (2 ^ k) cnt); [|lia].
  replace (2 ^ k * 2) with (2 ^ (k + 1)) by (rewrite Z.pow_add_r; lia).
  destruct (decide (k = 31)) as [->|Hne]; [apply Hz|].
  assert (2 ^ (k + 1) <= 2 ^ 31) by (apply Z.pow_le_mono_r; lia).
  rewrite u32_small by (pose proof (Z.pow_nonneg 2 (k + 1)); lia). apply IH. lia.
Qed.

(** The test of [ntt_timer_heap_shrink] multiplies the size by four in
    32 bits: with more than 2^30 entries it can halve an array that is more
    than half full, and the last entry is no longer inside of the array. *)
Theorem timer_shrink_overflow s :
  heap_cap s = 2 ^ 31 -> Z.of_nat (length (heap s)) = heap_cap s ->
  2 ^ 30 < size s <= 2 ^ 30 + 2 ^ 29 -> alloc_ok (24 * 2 ^ 30) = true ->
  exists s', ntt_timer_heap_shrink s = Ok s' /\ size s' = size s /\
    heap_cap s' < size s' /\ ntt_timer_heap_elem_at s' (size s' - 1) = Err OutOfBounds.
Proof.
  intros Hcap Hlen Hsz Hal. unfold ntt_timer_heap_shrink, NTT_TIMER_MIN_CAPACITY. rewrite Hcap.
  change (2 ^ 31 <=? 8) with false. cbv iota.
  assert (u32 (size s * 4) = size s * 4 - 2 ^ 32) as ->.
  { unfold u32. symmetry. apply (Z.mod_unique_pos _ _ 1); lia. }
  destruct (Z.gtb_spec (size s * 4 - 2 ^ 32) (2 ^ 31)); [lia|]. cbv iota zeta.
  change (2 ^ 31 / 2) with (2 ^ 30). unfold ntt_realloc_or_die. rewrite Hal, bind_ok.
  eexists. split; [done|]. cbn [size heap_cap with_heap_cap]. split_and!; [done|lia|].
  unfold ntt_timer_heap_elem_at. cbn [size heap with_heap_cap]. assert_ok.
  unfold arr_get. destruct (Z.ltb_spec (size s - 1) 0); [lia|].
  rewrite lookup_ge_None_2; [done|].
  pose proof (length_realloc_cells (@None ntt_timer_heap_elem) (2 ^ 30) (heap s)). lia.
Qed.
End array_props.

Module Witnesses.
Import Sim.

Lemma timer_push_arms_witness :
  exists tag w', ntt_timer_heap_push sim1 10 64 = Ok (tag, w') /\
    timer_wf (th_heap w') /\
    exists tm, armed (th_heap w') = <[tag := tm]> (armed (th_heap sim1)) /\ tm_task tm = 64.
Proof.
  assert (Hok : push_ok (th_heap sim1)) by (apply (bool_decide_eq_true_1 (Decision0 := push_ok_dec (th_heap sim1)) _); by vm_compute).
  assert (Hun : th_task_unlinked 64 sim1 = Ok true) by done.
  pose proof (timer_push_arms (fun d => 999 < d) sim1 10 64 sim1_wf Hok ltac:(done) Hun) as Hp.
  destruct (ntt_timer_heap_push sim1 10 64) as [[tag w']|f] eqn:Heq; [|by vm_compute in Heq].
  destruct Hp as (Hwf & _ & _ & tm & Harm & _ & Htm & _).
  exists tag, w'. split; [reflexivity|]. split; [exact Hwf|].
  exists tm. split; [exact Harm|exact Htm].
Defined.

Lemma timer_cancel_disarms_witness :
  armed (th_heap sim1) !! mk_tag 1 1 = Some (mk_timer 10 1 33) /\
  returns (ntt_timer_heap_cancel sim1 (mk_tag 1 1)) (fun w' => exists s1 w1 s',
    timer_wf s1 /\ armed s1 = delete (mk_tag 1 1) (armed (th_heap sim1)) /\
    th_task_destroy 33 (th_set_heap s1 sim1) = Ok w1 /\
    w' = th_set_heap s' w1 /\ timer_wf s' /\ armed s' = armed (th_heap w1)).
Proof.
  assert (Harm : armed (th_heap sim1) !! mk_tag 1 1 = Some (mk_timer 10 1 33)) by (by vm_compute).
  split; [exact Harm|].
  exact (timer_cancel_disarms (fun d => 999 < d) sim1 (mk_tag 1 1) (mk_timer 10 1 33) sim1_wf Harm).
Defined.

(** The timer cancelled on the way to [sim1] is stale. *)
Lemma timer_cancel_stale_witness :
  ntt_timer_heap_cancel sim1 (mk_tag 0 1) = Err AssertFailure.
Proof.
  rewrite (timer_cancel_stale sim1 (mk_tag 0 1) sim1_wf);
    [done|done|done|by vm_compute].
Defined.

Lemma timer_peek_earliest_witness :
  exists s', ntt_timer_heap_peek (th_heap sim1) = Ok (Some 10, s') /\
    timer_wf s' /\ armed s' = armed (th_heap sim1).
Proof.
  pose proof (timer_peek_earliest (th_heap sim1) sim1_wf) as Hp.
  destruct (ntt_timer_heap_peek (th_heap sim1)) as [[d s']|f] eqn:Heq; [|by vm_compute in Heq].
  assert (Hd : match ntt_timer_heap_peek (th_heap sim1) with
               | Ok (d, _) => d | Err _ => None end = Some 10) by (by vm_compute).
  rewrite Heq in Hd. subst d. destruct Hp as (Hwf & Harm & _). exists s'. split; [reflexivity|]. split; [exact Hwf|exact Harm].
Defined.

(** At time 20 the tasks 33 and 48 run, in that order; the timer that 33 arms
    for 34 stays. *)
Definition sim_fired : res (Z * sim) := ntt_timer_heap_svc 10 sim1 20 0.

Example sim_fired_log :
  match sim_fired with
  | Ok (c, w) => c = 2 /\ drop 1 (sim_log w) = [(33, Run); (33, Drop); (48, Run); (48, Drop)] /\
      tm_task ∘ snd <$> map_to_list (armed (sim_heap w)) = [34]
  | Err _ => False
  end.
Proof. by vm_compute. Qed.

Lemma timer_svc_refines_witness :
  exists c w', ntt_timer_heap_svc 10 sim1 20 0 = Ok (c, w') /\ timer_wf (th_heap w') /\
    exists n, 0 <= n /\ c = u64 n /\ svc_spec 20 sim1 n w'.
Proof.
  pose proof (timer_svc_refines (fun d => 999 < d) 10 sim1 20 sim1_wf) as Hs.
  destruct (ntt_timer_heap_svc 10 sim1 20 0) as [[c w']|f] eqn:Heq; [|by vm_compute in Heq].
  exists c, w'. split; [reflexivity|exact Hs].
Defined.

Lemma timer_svc_terminates_witness :
  (forall d, 999 < d -> 20 < d) /\
  returns (ntt_timer_heap_svc (S (due 20 (th_heap sim1))) sim1 20 0) (fun '(_, w') =>
    forall tag tm, armed (th_heap w') !! tag = Some tm -> 20 < tm_deadline tm).
Proof.
  assert (Hq : forall d, 999 < d -> 20 < d) by lia.
  exact (conj Hq (timer_svc_terminates (fun d => 999 < d) sim1 20 Hq sim1_wf)).
Defined.

Lemma timer_deinit_destroys_witness :
  exists ts, ts ≡ₚ tm_task ∘ snd <$> map_to_list (armed (th_heap sim1)) /\
    returns (ntt_timer_heap_deinit sim1) (fun w' => exists w1,
      destroy_all ts sim1 = Ok w1 /\ w' = th_set_heap ntt_timer_heap_init w1).
Proof. apply (timer_deinit_destroys sim1 sim1_wf). intros t w' Hw. exact Hw. Defined.

Lemma timer_size_counts_witness :
  ntt_timer_heap_size (th_heap sim1) = 2 /\ ntt_timer_heap_empty (th_heap sim1) = false /\
  ntt_timer_heap_size (th_heap sim1) = Z.of_nat (stdpp.base.size (armed (th_heap sim1))).
Proof.
  split; [by vm_compute|]. split; [by vm_compute|].
  exact (proj1 (timer_size_counts (th_heap sim1) sim1_wf)).
Defined.

(** Three timers are armed, one is cancelled, and the due ones run; an odd task
    arms another one meanwhile. *)
Definition sim2 : sim := match ntt_timer_heap_svc 9 sim1 10 0 with Ok (_, w) => w | Err _ => sim0 end.

Lemma sim2_steps : rtc host_step sim0 sim2.
Proof.
  apply (rtc_l _ _ sim_a); [eapply (host_push _ 30 16); [by apply (bool_decide_eq_true_1 _); vm_compute|done|by vm_compute]|].
  apply (rtc_l _ _ sim_b); [eapply (host_push _ 10 33); [by apply (bool_decide_eq_true_1 _); vm_compute|done|by vm_compute]|].
  apply (rtc_l _ _ sim_c); [eapply (host_push _ 10 48); [by apply (bool_decide_eq_true_1 _); vm_compute|done|by vm_compute]|].
  apply (rtc_l _ _ sim1); [apply (host_cancel _ (mk_tag 0 1)); [done|done|by vm_compute]|].
  apply rtc_once. eapply (host_svc 9 _ 10). by vm_compute.
Qed.

Lemma timer_reachable_wf_witness :
  sim_log sim2 = [(16, Drop); (33, Run); (33, Drop); (48, Run); (48, Drop)] /\
  ntt_timer_heap_empty (th_heap sim2) = false /\ timer_wf (th_heap sim2).
Proof.
  split; [by vm_compute|]. split; [by vm_compute|].
  exact (proj1 (timer_reachable_wf (fun d => 999 < d) sim0 sim2 eq_refl sim2_steps)).
Defined.

Definition three : list ntt_timer_heap_elem := [mk_elem 5 0 0 1; mk_elem 9 1 1 1; mk_elem 7 2 2 1].

Lemma timer_sift_up_textbook_witness :
  exists v', ntt_timer_heap_sift_up (mk_heap ((Some <$> three) ++ [None; None]) 5 [] 0 4 0 0 0 0) 3
      (mk_elem 1 3 3 1) =
    Ok (mk_heap ((Some <$> v') ++ [None]) 5 [] 0 4 0 0 0 0) /\
    heap_ordered ntt_timer_heap_less v' /\ v' ≡ₚ three ++ [mk_elem 1 3 3 1].
Proof.
  destruct (timer_sift_up_textbook (mk_heap ((Some <$> three) ++ [None; None]) 5 [] 0 4 0 0 0 0)
    (three ++ [mk_elem 1 3 3 1]) [None] 3 (mk_elem 1 3 3 1)) as (v' & Heq & _ & Hp & Ho).
  - split_and!; [reflexivity|reflexivity|reflexivity|by vm_compute].
  - apply (up_inv_app ntt_timer_heap_less three). intros [|[|[|i]]] x p Hi _ Hx Hpx;
      [lia|injection Hx as <-; injection Hpx as <-; reflexivity..|done].
  - exists v'. split; [exact Heq|]. split; [exact Ho|exact Hp].
Defined.

Lemma timer_sift_down_textbook_witness :
  exists v', ntt_timer_heap_sift_down (mk_heap (None :: (Some <$> drop 1 three)) 3 [] 0 3 0 0 0 0) 0
      (mk_elem 8 3 3 1) =
    Ok (mk_heap ((Some <$> v') ++ []) 3 [] 0 3 0 0 0 0) /\
    heap_ordered ntt_timer_heap_less v' /\ v' ≡ₚ mk_elem 8 3 3 1 :: drop 1 three.
Proof.
  destruct (timer_sift_down_textbook (mk_heap (None :: (Some <$> drop 1 three)) 3 [] 0 3 0 0 0 0)
    (<[O := mk_elem 8 3 3 1]> three) [] 0 (mk_elem 8 3 3 1)) as (v' & Heq & _ & Hp & Ho).
  - split_and!; [reflexivity|reflexivity|reflexivity|by vm_compute].
  - apply (down_inv_root ntt_timer_heap_less three). intros [|[|[|i]]] x p Hi _ Hx Hpx;
      [lia|injection Hx as <-; injection Hpx as <-; reflexivity..|done].
  - exists v'. split; [exact Heq|]. split; [exact Ho|exact Hp].
Defined.

Lemma timer_grow_capacity_least_witness :
  exists j, 3 <= j <= 31 /\ ntt_timer_heap_grow_capacity 16 (2 ^ 31 - 5) = Ok (2 ^ j).
Proof.
  destruct (timer_grow_capacity_least 16 (2 ^ 31 - 5)) as (j & Hj & Heq & _); [|lia|].
  - right. exists 4. split; [lia|reflexivity].
  - exists j. split; [exact Hj|exact Heq].
Defined.

Lemma timer_grow_capacity_diverges_witness : grow_loop 5000 8 (2 ^ 31 + 1) = Err OutOfFuel.
Proof. apply (timer_grow_capacity_diverges 3 (2 ^ 31 + 1) 5000); lia. Defined.

Lemma timer_shrink_overflow_witness :
  exists s', ntt_timer_heap_shrink
      (mk_heap (replicate (Z.to_nat (2 ^ 31)) None) (2 ^ 31) [] 0 (2 ^ 30 + 1) 0 0 0 0) = Ok s' /\
    heap_cap s' < 2 ^ 30 + 1.
Proof.
  destruct (timer_shrink_overflow
    (mk_heap (replicate (Z.to_nat (2 ^ 31)) None) (2 ^ 31) [] 0 (2 ^ 30 + 1) 0 0 0 0))
    as (s' & Heq & Hsz & Hlt & _).
  - reflexivity.
  - cbn [heap heap_cap]. rewrite length_replicate. lia.
  - cbn [size]. lia.
  - reflexivity.
  - exists s'. split; [exact Heq|]. rewrite Hsz in Hlt. exact Hlt.
Defined.
End Witnesses.
