(* ===== verification/TimerVariants.v ===== *)
(** * Variants of the timer heap: data and operations

    [src/timer_heap_benchmark.cpp] measures the timer heap against other
    structures that are meant to do the same: a [std::multimap] ordered by
    deadline, and a heap with the same lazy cancellation in growing vectors.  They
    are instances of one interface, the class that the benchmarks are templates
    over.  The tasks of the benchmarks do nothing; here the calls of their
    callbacks are recorded. *)

From stdpp Require Import base numbers list gmap.
From Stdlib Require Import ZArith Lia.
From S2P Require Import Prelude.
From S2P Require Import TimerHeap.
From S2P Require Import TimerHeapHost.

#[local] Open Scope Z_scope.

(** ** The interface *)

(** A call of the callback of a task. *)
Inductive task_call : Type :=
  | CallRun (task : ptr)
  | CallDrop (task : ptr).

(** A structure of timers, and the calls made so far. *)
Record bench (A : Type) : Type := mk_bench { b_timers : A; b_calls : list task_call }.
Arguments mk_bench {A} b_timers b_calls.
Arguments b_timers {A} b.
Arguments b_calls {A} b.

Definition with_timers {A} (x : A) (b : bench A) : bench A := mk_bench x (b_calls b).
Definition called {A} (c : task_call) (b : bench A) : bench A := mk_bench (b_timers b) (b_calls b ++ [c]).

(** The methods of a class of timers, which never call back. *)
Class Timers (A Tag : Type) : Type := {
  t_empty : A;
  t_arm : bench A -> Z -> ptr -> res (Tag * bench A);
  t_cancel : bench A -> Tag -> res (bench A);
  t_svc : bench A -> Z -> res (Z * bench A);
  t_peek : bench A -> res (option Z * bench A);
  t_destroy : bench A -> res (bench A);
}.

(** ** [NttTimers]: the timer heap of this project *)
Module Ntt.
#[global] Instance noop_host : TaskHost (bench ntt_timer_heap) := {|
  th_heap := b_timers;
  th_set_heap := with_timers;
  th_task_unlinked := fun _ _ => Ok true;
  th_task_svc := fun task b => Ok (called (CallRun task) b);
  th_task_destroy := fun task b => Ok (called (CallDrop task) b);
|}.

Section ops.
Context `{Platform}.
Implicit Types (b : bench ntt_timer_heap).

Definition arm b (deadline : Z) (task : ptr) : res (ntt_timer_tag * bench ntt_timer_heap) :=
  ntt_timer_heap_push b deadline task.

Definition cancel b (tag : ntt_timer_tag) : res (bench ntt_timer_heap) := ntt_timer_heap_cancel b tag.

(** One turn of the loop for each entry that is due, and the last one. *)
Definition svc b (now : Z) : res (Z * bench ntt_timer_heap) :=
  ntt_timer_heap_svc (S (due now (b_timers b))) b now 0.

Definition peek b : res (option Z * bench ntt_timer_heap) :=
  '(d, s) ← ntt_timer_heap_peek (b_timers b); Ok (d, with_timers s b).

(** The destructor. *)
Definition destroy b : res (bench ntt_timer_heap) := ntt_timer_heap_deinit b.

#[global] Instance timers : Timers ntt_timer_heap ntt_timer_tag :=
  {| t_empty := ntt_timer_heap_init; t_arm := arm; t_cancel := cancel; t_svc := svc; t_peek := peek; t_destroy := destroy |}.
End ops.
End Ntt.

(** ** [MultimapTimers]: a [std::multimap] keyed by deadline

    The map in the order of iteration; a node is known by the number of nodes
    made before it, so that an iterator to a node that was erased is not one of
    the map. *)
Module Multimap.
Record multimap : Type := mk_multimap {
  nodes : list (Z * (Z * ptr));
  next_node : Z;
}.

(** [insert] puts a value at the upper bound of the equal range. *)
Fixpoint insert_at (node deadline : Z) (task : ptr) (l : list (Z * (Z * ptr))) : list (Z * (Z * ptr)) :=
  match l with
  | [] => [(node, (deadline, task))]
  | x :: rest =>
      if deadline <? x.2.1 then (node, (deadline, task)) :: l else x :: insert_at node deadline task rest
  end.

Definition arm (b : bench multimap) (deadline : Z) (task : ptr) : res (Z * bench multimap) :=
  let m := b_timers b in
  let it := next_node m in
  Ok (it, with_timers (mk_multimap (insert_at it deadline task (nodes m)) (it + 1)) b).

Definition erase (it : Z) (l : list (Z * (Z * ptr))) : list (Z * (Z * ptr)) :=
  filter (fun x => x.1 <> it) l.

Definition cancel (b : bench multimap) (tag : Z) : res (bench multimap) :=
  let m := b_timers b in
  match list_find (fun x => x.1 = tag) (nodes m) with
  | None => Err InvalidPointer
  | Some (_, (_, (_, task))) =>
      let b := called (CallDrop task) b in
      Ok (with_timers (mk_multimap (erase tag (nodes m)) (next_node m)) b)
  end.

Fixpoint svc_loop (l : list (Z * (Z * ptr))) (next : Z) (b : bench multimap) (now cnt : Z) :
    Z * bench multimap :=
  match l with
  | [] => (cnt, with_timers (mk_multimap l next) b)
  | (_, (deadline, task)) :: rest =>
      if deadline <=? now then
        svc_loop rest next (called (CallDrop task) (called (CallRun task) b)) now (u64 (cnt + 1))
      else (cnt, with_timers (mk_multimap l next) b)
  end.

Definition svc (b : bench multimap) (now : Z) : res (Z * bench multimap) :=
  Ok (svc_loop (nodes (b_timers b)) (next_node (b_timers b)) b now 0).

Definition peek (b : bench multimap) : res (option Z * bench multimap) :=
  Ok (match nodes (b_timers b) with [] => None | x :: _ => Some x.2.1 end, b).

(** The destructor: the tasks in the order of the map. *)
Definition destroy (b : bench multimap) : res (bench multimap) :=
  Ok (foldl (fun b entry => called (CallDrop entry.2.2) b) b (nodes (b_timers b))).

#[global] Instance timers : Timers multimap Z :=
  {| t_empty := mk_multimap [] 0; t_arm := arm; t_cancel := cancel; t_svc := svc; t_peek := peek; t_destroy := destroy |}.
End Multimap.

(** ** [LazyHeapTimers]: a heap with lazy cancellation in growing vectors

    Entries and tags are those of the timer heap; an access outside of a vector
    is a fault. *)
Module Lazy.
Record slot : Type := mk_slot { task : ptr; version : Z; next_free : Z }.

Record lazy_heap : Type := mk_lazy {
  heap_ : list ntt_timer_heap_elem;
  slots_ : list slot;
  free_head_ : Z;
  seq_ : Z;
  tombstones_ : Z;
}.

Definition g_none : Z := UINT32_MAX.

Definition with_heap h z := mk_lazy h (slots_ z) (free_head_ z) (seq_ z) (tombstones_ z).
Definition with_slots sl f z := mk_lazy (heap_ z) sl f (seq_ z) (tombstones_ z).
Definition with_tombstones n z := mk_lazy (heap_ z) (slots_ z) (free_head_ z) (seq_ z) n.

Definition vec_size {A} (v : list A) : Z := Z.of_nat (length v).

Definition live (z : lazy_heap) (elem : ntt_timer_heap_elem) : res bool :=
  s ← arr_get (slots_ z) (index elem);
  Ok (version s =? TimerHeap.version elem).

Definition less (lhs rhs : ntt_timer_heap_elem) : bool :=
  if negb (deadline lhs =? deadline rhs) then deadline lhs <? deadline rhs else seq lhs <? seq rhs.

(** *** Slots *)
Definition alloc_slot (z : lazy_heap) : res (Z * lazy_heap) :=
  if negb (free_head_ z =? g_none) then
    let i := free_head_ z in
    s ← arr_get (slots_ z) i;
    sl ← arr_set (slots_ z) i (mk_slot (task s) (u32 (version s + 1)) (next_free s));
    Ok (i, with_slots sl (next_free s) z)
  else
    let sl := slots_ z ++ [mk_slot NULL 1 g_none] in
    Ok (u32 (vec_size sl - 1), with_slots sl (free_head_ z) z).

Definition free_slot (z : lazy_heap) (i : Z) : res lazy_heap :=
  s ← arr_get (slots_ z) i;
  sl ← arr_set (slots_ z) i (mk_slot NULL (u32 (version s + 1)) (free_head_ z));
  Ok (with_slots sl i z).

(** *** Sifting *)
Fixpoint sift_up_loop (fuel : nat) (h : list ntt_timer_heap_elem) (pos : Z) (elem : ntt_timer_heap_elem) :
    res (list ntt_timer_heap_elem) :=
  match fuel with
  | O => Err OutOfFuel
  | S fuel =>
      if pos >? 0 then
        let parent := u64 (pos - 1) / 2 in
        p ← arr_get h parent;
        if negb (less elem p) then arr_set h pos elem
        else
          h ← arr_set h pos p;
          sift_up_loop fuel h parent elem
      else arr_set h pos elem
  end.

Definition sift_up (h : list ntt_timer_heap_elem) (pos : Z) : res (list ntt_timer_heap_elem) :=
  elem ← arr_get h pos;
  sift_up_loop (S (Z.to_nat pos)) h pos elem.

(** The choice of the child: the right entry is read only when it exists. *)
Definition right_less (h : list ntt_timer_heap_elem) (left : Z) : res bool :=
  if u64 (left + 1) <? vec_size h then
    r ← arr_get h (u64 (left + 1));
    l ← arr_get h left;
    Ok (less r l)
  else Ok false.

Fixpoint sift_down_loop (fuel : nat) (h : list ntt_timer_heap_elem) (pos : Z) (elem : ntt_timer_heap_elem) :
    res (list ntt_timer_heap_elem) :=
  match fuel with
  | O => Err OutOfFuel
  | S fuel =>
      let left := u64 (u64 (pos * 2) + 1) in
      if left >=? vec_size h then arr_set h pos elem
      else
        b ← right_less h left;
        let child := if b : bool then u64 (left + 1) else left in
        c ← arr_get h child;
        if negb (less c elem) then arr_set h pos elem
        else
          h ← arr_set h pos c;
          sift_down_loop fuel h child elem
  end.

Definition sift_down (h : list ntt_timer_heap_elem) (pos : Z) : res (list ntt_timer_heap_elem) :=
  elem ← arr_get h pos;
  sift_down_loop (S (length h)) h pos elem.

Definition pop_root (h : list ntt_timer_heap_elem) : res (list ntt_timer_heap_elem) :=
  back ← arr_get h (vec_size h - 1);
  h ← arr_set h 0 back;
  let h := removelast h in
  if negb (vec_size h =? 0) then sift_down h 0 else Ok h.

(** *** Tombstones *)
Fixpoint drop_dead_loop (fuel : nat) (z : lazy_heap) : res lazy_heap :=
  match fuel with
  | O => Err OutOfFuel
  | S fuel =>
      match heap_ z with
      | [] => Ok z
      | front :: _ =>
          alive ← live z front;
          if negb alive then
            h ← pop_root (heap_ z);
            drop_dead_loop fuel (with_tombstones (u64 (tombstones_ z - 1)) (with_heap h z))
          else Ok z
      end
  end.

Definition drop_dead_root (z : lazy_heap) : res lazy_heap := drop_dead_loop (S (length (heap_ z))) z.

(** The loop that moves the live entries to the front, in place. *)
Fixpoint filter_loop (fuel : nat) (z : lazy_heap) (out i : Z) : res (Z * lazy_heap) :=
  match fuel with
  | O => Err OutOfFuel
  | S fuel =>
      if i <? vec_size (heap_ z) then
        e ← arr_get (heap_ z) i;
        alive ← live z e;
        if alive : bool then
          h ← arr_set (heap_ z) out e;
          filter_loop fuel (with_heap h z) (u64 (out + 1)) (u64 (i + 1))
        else filter_loop fuel z out (u64 (i + 1))
      else Ok (out, z)
  end.

(** [for (i = n; i-- > 0;) sift_down(i)] *)
Fixpoint build_loop (n : nat) (h : list ntt_timer_heap_elem) : res (list ntt_timer_heap_elem) :=
  match n with
  | O => Ok h
  | S n => h ← sift_down h (Z.of_nat n); build_loop n h
  end.

Definition compact_if_needed (z : lazy_heap) : res lazy_heap :=
  if u64 (tombstones_ z * 2) <=? vec_size (heap_ z) then Ok z
  else
    '(out, z) ← filter_loop (S (length (heap_ z))) z 0 0;
    let h := take (Z.to_nat out) (heap_ z) in
    h ← (if vec_size h >? 1 then build_loop (Z.to_nat (vec_size h / 2)) h else Ok h);
    Ok (with_tombstones 0 (with_heap h z)).

(** *** The class *)
Definition arm (b : bench lazy_heap) (deadline : Z) (t : ptr) : res (ntt_timer_tag * bench lazy_heap) :=
  '(i, z) ← alloc_slot (b_timers b);
  s ← arr_get (slots_ z) i;
  sl ← arr_set (slots_ z) i (mk_slot t (version s) (next_free s));
  let elem := mk_elem deadline (seq_ z) i (version s) in
  let h := heap_ z ++ [elem] in
  h ← sift_up h (vec_size h - 1);
  Ok (mk_tag i (version s), with_timers (mk_lazy h sl (free_head_ z) (u64 (seq_ z + 1)) (tombstones_ z)) b).

Definition cancel (b : bench lazy_heap) (tag : ntt_timer_tag) : res (bench lazy_heap) :=
  let z := b_timers b in
  s ← arr_get (slots_ z) (tag_index tag);
  if negb (version s =? tag_version tag) then Ok b
  else
    let b := called (CallDrop (task s)) b in
    z ← free_slot z (tag_index tag);
    z ← compact_if_needed (with_tombstones (u64 (tombstones_ z + 1)) z);
    Ok (with_timers z b).

Fixpoint svc_loop (fuel : nat) (b : bench lazy_heap) (now cnt : Z) : res (Z * bench lazy_heap) :=
  match fuel with
  | O => Err OutOfFuel
  | S fuel =>
      let z := b_timers b in
      match heap_ z with
      | [] => Ok (cnt, b)
      | elem :: _ =>
          if deadline elem <=? now then
            h ← pop_root (heap_ z);
            let z := with_heap h z in
            alive ← live z elem;
            if negb alive then svc_loop fuel (with_timers (with_tombstones (u64 (tombstones_ z - 1)) z) b) now cnt
            else
              s ← arr_get (slots_ z) (index elem);
              z ← free_slot z (index elem);
              svc_loop fuel (called (CallDrop (task s)) (called (CallRun (task s)) (with_timers z b))) now (u64 (cnt + 1))
          else Ok (cnt, b)
      end
  end.

Definition svc (b : bench lazy_heap) (now : Z) : res (Z * bench lazy_heap) :=
  svc_loop (S (length (heap_ (b_timers b)))) b now 0.

Definition peek (b : bench lazy_heap) : res (option Z * bench lazy_heap) :=
  z ← drop_dead_root (b_timers b);
  Ok (match heap_ z with [] => None | front :: _ => Some (deadline front) end, with_timers z b).

(** The destructor: the tasks of the live entries, in the order of the vector. *)
Fixpoint destroy_loop (todo : list ntt_timer_heap_elem) (b : bench lazy_heap) : res (bench lazy_heap) :=
  match todo with
  | [] => Ok b
  | elem :: todo =>
      alive ← live (b_timers b) elem;
      if alive : bool then
        s ← arr_get (slots_ (b_timers b)) (index elem);
        destroy_loop todo (called (CallDrop (task s)) b)
      else destroy_loop todo b
  end.

Definition destroy (b : bench lazy_heap) : res (bench lazy_heap) := destroy_loop (heap_ (b_timers b)) b.

#[global] Instance timers : Timers lazy_heap ntt_timer_tag :=
  {| t_empty := mk_lazy [] [] g_none 0 0; t_arm := arm; t_cancel := cancel; t_svc := svc; t_peek := peek; t_destroy := destroy |}.
End Lazy.

(** ** Using a class of timers *)

(** What the benchmarks do with one: the tags of all timers armed so far are kept,
    and a timer is cancelled by its number. *)
Inductive command : Type :=
  | Arm (deadline : Z) (task : ptr)
  | Cancel (k : nat)
  | Svc (now : Z)
  | Peek.

Inductive outcome : Type :=
  | Armed
  | Cancelled
  | Fired (cnt : Z)
  | Earliest (deadline : option Z).

Section use.
Context {A Tag : Type} `{Timers A Tag}.
Implicit Types (b : bench A) (tags : list Tag).

Definition act (c : command) tags b : res (outcome * list Tag * bench A) :=
  match c with
  | Arm deadline task => '(tag, b) ← t_arm b deadline task; Ok (Armed, tags ++ [tag], b)
  | Cancel k =>
      match tags !! k with
      | Some tag => b ← t_cancel b tag; Ok (Cancelled, tags, b)
      | None => Err OutOfBounds
      end
  | Svc now => '(cnt, b) ← t_svc b now; Ok (Fired cnt, tags, b)
  | Peek => '(d, b) ← t_peek b; Ok (Earliest d, tags, b)
  end.

Fixpoint acts (cs : list command) tags b : res (list outcome * list Tag * bench A) :=
  match cs with
  | [] => Ok ([], tags, b)
  | c :: cs =>
      '(o, tags, b) ← act c tags b;
      '(os, tags, b) ← acts cs tags b;
      Ok (o :: os, tags, b)
  end.

(** A run from a structure without timers to its destructor: what the caller sees,
    the calls of tasks, and those that the destructor makes. *)
Definition observed (cs : list command) : res (list outcome * list task_call * list task_call) :=
  '(os, _, b) ← acts cs [] (mk_bench t_empty []);
  b' ← t_destroy (mk_bench (b_timers b) []);
  Ok (os, b_calls b, b_calls b').
End use.
