(* ===== verification/TimerVariantsProps.v ===== *)
(** * Variants of the timer heap: the reference

    A [std::multimap] ordered by deadline is the plainest structure that does
    what the timer heap does; the two cannot be told apart. *)

From stdpp Require Import base numbers list gmap sorting.
From Stdlib Require Import ZArith Lia.
From S2P Require Import Prelude.
From S2P Require Import TimerHeap.
From S2P Require Import TimerHeapInv.
From S2P Require Import TimerHeapOps.
From S2P Require Import TimerHeapSpec.
From S2P Require Import TimerHeapHost.
From S2P Require Import TimerHeapProps.
From S2P Require Import TimerVariants.
Import Ntt.

#[local] Open Scope Z_scope.

(** Tasks that do nothing arm no timer. *)
#[global] Instance noop_laws `{Platform} : TaskHostLaws (bench ntt_timer_heap) (fun _ => False).
Proof. split; [done| |]; intros t w _; apply rtc_refl. Qed.

(** The contract of [ntt_timer_heap_push] along a run: there is room, and no
    version counter has come round. *)
Fixpoint roomy `{Platform} (cs : list command) (tags : list ntt_timer_tag) (b : bench ntt_timer_heap) : Prop :=
  match cs with
  | [] => True
  | c :: cs =>
      match c with
      | Arm _ task => push_ok (b_timers b) /\ task <> NULL /\ next_tag (b_timers b) ∉ tags
      | _ => True
      end /\
      match act c tags b with Ok (_, tags, b) => roomy cs tags b | Err _ => True end
  end.

(** ** The relation *)

(** An armed timer, with its tag in the heap and its node in the map. *)
Record pair : Type := mk_pair { p_tag : ntt_timer_tag; p_timer : timer; p_node : Z }.

Definition node_of (x : pair) : Z * (Z * ptr) := (p_node x, (tm_deadline (p_timer x), tm_task (p_timer x))).

Definition fires_before (x y : pair) : Prop := before (p_timer x) (p_timer y).

Record in_order (s : ntt_timer_heap) (l : list pair) (next : Z) : Prop := {
  io_armed : forall tag tm, armed s !! tag = Some tm <-> exists it, mk_pair tag tm it ∈ l;
  io_tags : NoDup (p_tag <$> l);
  io_nodes : NoDup (p_node <$> l);
  io_next : forall x, x ∈ l -> p_node x < next;
  io_sorted : StronglySorted fires_before l;
}.

(** The tags and the iterators that were handed out name the same timers. *)
Definition same_names (tags : list ntt_timer_tag) (its : list Z) (l : list pair) (next : Z) : Prop :=
  Forall2 (fun tag it => Z.odd (tag_version tag) = true /\ 0 <= tag_index tag /\ it < next /\
    forall x, x ∈ l -> p_tag x = tag <-> p_node x = it) tags its.

Lemma before_irrefl tm : ~ before tm tm.
Proof. unfold before. lia. Qed.

Lemma before_asym tm tm' : before tm tm' -> ~ before tm' tm.
Proof. unfold before. lia. Qed.

Lemma in_order_ext s s' l next : armed s' = armed s -> in_order s l next -> in_order s' l next.
Proof. intros Ha [? ? ? ? ?]. split; try done. by rewrite Ha. Qed.

Lemma in_order_mem s l next x : in_order s l next -> x ∈ l -> armed s !! p_tag x = Some (p_timer x).
Proof. intros Ho Hx. apply (io_armed _ _ _ Ho). exists (p_node x). by destruct x. Qed.

(** The timer that fires next is the first one. *)
Lemma in_order_first s l next tag tm :
  in_order s l next -> armed s !! tag = Some tm ->
  (forall tag' tm', armed s !! tag' = Some tm' -> tag' <> tag -> before tm tm') ->
  exists it rest, l = mk_pair tag tm it :: rest.
Proof.
  intros Ho Ha Hmin. destruct l as [|x l].
  { apply (io_armed _ _ _ Ho) in Ha as (it & Hin). by apply elem_of_nil in Hin. }
  pose proof (in_order_mem _ _ _ x Ho ltac:(by left)) as Hx.
  destruct (decide (p_tag x = tag)) as [<-|Hne].
  { rewrite Hx in Ha. injection Ha as <-. exists (p_node x), l. by destruct x. }
  pose proof (Hmin _ _ Hx Hne) as Hb. apply (io_armed _ _ _ Ho) in Ha as (it & Hin).
  apply elem_of_cons in Hin as [<-|Hin]; [done|]. exfalso.
  pose proof (io_sorted _ _ _ Ho) as [_ Hall]%StronglySorted_inv. rewrite List.Forall_forall in Hall.
  apply list_elem_of_In, Hall in Hin. by eapply before_asym.
Qed.

(** A timer leaves. *)
Lemma in_order_delete s s' l1 x l2 next :
  in_order s (l1 ++ x :: l2) next -> armed s' = delete (p_tag x) (armed s) -> in_order s' (l1 ++ l2) next.
Proof.
  intros [Ha Ht Hn Hx Hs] Hd.
  assert (Hsub : forall y, y ∈ l1 ++ l2 -> y ∈ l1 ++ x :: l2)
    by (intros y; rewrite !elem_of_app, elem_of_cons; tauto).
  assert (Hp : l1 ++ x :: l2 ≡ₚ x :: l1 ++ l2) by (by rewrite Permutation_middle).
  pose proof Ht as Ht'. rewrite Hp in Ht', Hn. rewrite fmap_cons in Ht'. rewrite fmap_cons in Hn.
  apply NoDup_cons in Ht' as [Hnt Ht']. apply NoDup_cons in Hn as [_ Hn].
  split; [|done|done|by intros y Hy%Hsub; apply Hx|].
  - intros tag tm. rewrite Hd, lookup_delete_Some, Ha. split.
    + intros (Hne & it & Hin). exists it. rewrite Hp in Hin. apply elem_of_cons in Hin as [<-|Hin]; done.
    + intros (it & Hin). split; [|exists it; by apply Hsub]. intros Heq. apply Hnt. rewrite Heq.
      apply list_elem_of_fmap. by exists (mk_pair tag tm it).
  - clear -Hs. induction l1 as [|y l1 IH]; simpl in *.
    + by apply StronglySorted_inv in Hs as [Hs _].
    + apply StronglySorted_inv in Hs as [Hs Hall]. constructor; [by apply IH|].
      rewrite List.Forall_forall in Hall |- *. intros z Hz. apply Hall. rewrite in_app_iff in *. simpl. tauto.
Qed.

Lemma same_names_sub tags its l l' next :
  (forall x, x ∈ l' -> x ∈ l) -> same_names tags its l next -> same_names tags its l' next.
Proof.
  intros Hsub Hs. eapply Forall2_impl; [exact Hs|]. intros tag it (H1 & H2 & H3 & H4). split_and!; try done.
  intros x Hx. by apply H4, Hsub.
Qed.

(** ** Arming *)
Lemma insert_at_split node d t l :
  exists l1 l2, l = l1 ++ l2 /\ Multimap.insert_at node d t (node_of <$> l) = (node_of <$> l1) ++ (node, (d, t)) :: (node_of <$> l2) /\
    Forall (fun x => tm_deadline (p_timer x) <= d) l1 /\
    (forall y, head l2 = Some y -> d < tm_deadline (p_timer y)).
Proof.
  induction l as [|x l (l1 & l2 & -> & Heq & Hle & Hgt)]; simpl.
  - exists [], []. split_and!; try done.
  - destruct (Z.ltb_spec d (tm_deadline (p_timer x))) as [Hlt|Hge].
    + exists [], (x :: l1 ++ l2). split_and!; try done. by intros y [= <-].
    + exists (x :: l1), l2. split_and!; [done|simpl; by f_equal|by constructor|done].
Qed.

Lemma in_order_insert s s' l1 l2 next tag tm :
  in_order s (l1 ++ l2) next -> armed s !! tag = None -> armed s' = <[tag := tm]> (armed s) ->
  Forall (fun x => tm_deadline (p_timer x) <= tm_deadline tm) l1 ->
  (forall y, head l2 = Some y -> tm_deadline tm < tm_deadline (p_timer y)) ->
  (forall tag' tm', armed s !! tag' = Some tm' -> tm_seq tm' < tm_seq tm) ->
  in_order s' (l1 ++ mk_pair tag tm next :: l2) (next + 1).
Proof.
  intros Ho Hnone Hins Hle Hgt Hseq. pose proof Ho as [Ha Ht Hn Hx Hs].
  assert (Hp : l1 ++ mk_pair tag tm next :: l2 ≡ₚ mk_pair tag tm next :: l1 ++ l2) by (by rewrite Permutation_middle).
  assert (Hold : forall y, y ∈ l1 ++ l2 -> p_tag y <> tag).
  { intros y Hy%(in_order_mem _ _ _ _ Ho) Heq. congruence. }
  split.
  - intros tag' tm'. rewrite Hins. setoid_rewrite Hp. split.
    + intros [[<- <-]|[Hne Hl]]%lookup_insert_Some; [exists next; by left|].
      apply Ha in Hl as (it & Hin). exists it. by right.
    + intros (it & [Heq|Hin]%elem_of_cons); [injection Heq as -> -> _; apply lookup_insert_eq|].
      rewrite lookup_insert_ne; [apply Ha; eauto|]. intros ->. by destruct (Hold _ Hin).
  - rewrite Hp, fmap_cons, NoDup_cons. split; [|done]. intros (y & Heq & Hy)%list_elem_of_fmap. by destruct (Hold y Hy).
  - rewrite Hp, fmap_cons, NoDup_cons. split; [|done]. simpl. intros (y & Heq & Hy%Hx)%list_elem_of_fmap. lia.
  - intros y. rewrite Hp. intros [->|Hy%Hx]%elem_of_cons; simpl; lia.
  - assert (Hb : forall y, y ∈ l1 ++ l2 -> tm_seq (p_timer y) < tm_seq tm)
      by (intros y Hy; eapply Hseq; by apply (in_order_mem _ _ _ _ Ho)).
    assert (Hall2 : Forall (fires_before (mk_pair tag tm next)) l2).
    { destruct l2 as [|y l2]; [constructor|]. specialize (Hgt y eq_refl).
      assert (Hs2 : StronglySorted fires_before (y :: l2)).
      { clear -Hs. induction l1; [done|]. apply StronglySorted_inv in Hs as [Hs _]. by apply IHl1. }
      apply StronglySorted_inv in Hs2 as [_ Hall]. constructor; [left; simpl; lia|].
      eapply Forall_impl; [by apply List.Forall_forall; rewrite List.Forall_forall in Hall; exact Hall|].
      intros z [Hz|[Hz _]]; left; simpl in *; lia. }
    assert (Hb1 : forall y, y ∈ l1 -> tm_seq (p_timer y) < tm_seq tm) by (intros y Hy; apply Hb, elem_of_app; by left).
    clear -Hs Hle Hall2 Hb1. induction l1 as [|y l1 IH]; simpl in *.
    + constructor; [done|]. apply List.Forall_forall. rewrite Forall_forall in Hall2. intros z Hz.
      by apply Hall2, list_elem_of_In.
    + apply StronglySorted_inv in Hs as [Hs Hall]. apply Forall_cons in Hle as [Hy Hle]. constructor.
      * apply IH; [done|done|]. intros z Hz. apply Hb1. by right.
      * rewrite List.Forall_forall in Hall |- *. intros z Hz. rewrite in_app_iff in *. simpl in Hz.
        destruct Hz as [Hz|[<-|Hz]]; [apply Hall, in_app_iff; by left| |apply Hall, in_app_iff; by right].
        unfold fires_before, before. simpl. specialize (Hb1 y ltac:(by left)). lia.
Qed.

(** ** Step by step *)
Section agree.
Context `{Platform}.
Implicit Types (w : bench ntt_timer_heap) (v : bench Multimap.multimap).

Record matched (tags : list ntt_timer_tag) w (its : list Z) v : Prop := {
  mt_wf : timer_wf (b_timers w);
  mt_calls : b_calls w = b_calls v;
  mt_order : exists l, Multimap.nodes (b_timers v) = node_of <$> l /\
    in_order (b_timers w) l (Multimap.next_node (b_timers v)) /\
    same_names tags its l (Multimap.next_node (b_timers v));
}.

Lemma arm_agrees tags w its v d t :
  matched tags w its v -> push_ok (b_timers w) -> t <> NULL -> next_tag (b_timers w) ∉ tags ->
  returns (Ntt.arm w d t) (fun '(tag, w') => exists v', Multimap.arm v d t = Ok (Multimap.next_node (b_timers v), v') /\
    matched (tags ++ [tag]) w' (its ++ [Multimap.next_node (b_timers v)]) v').
Proof.
  intros [Hwf Hc (l & Hn & Ho & Hs)] Hok Ht Hfresh. set (next := Multimap.next_node (b_timers v)) in *.
  unfold Ntt.arm, ntt_timer_heap_push. rewrite c_assert_true, bind_ok by (by destruct (Z.eqb_spec t NULL)).
  simpl. rewrite c_assert_true, bind_ok by done. pose proof Hwf as (l0 & fl & Hinv).
  eapply returns_bind.
  { pose proof (push_entry_ok _ _ _ d t Hinv Hok Ht) as H1. pose proof (push_entry_armed _ d t Hwf Hok Ht) as H2.
    instantiate (1 := fun '(tag, s') => (tag = next_tag (b_timers w) /\ Z.odd (tag_version tag) = true /\ 0 <= tag_index tag) /\
      timer_wf s' /\ armed (b_timers w) !! tag = None /\ armed s' = <[tag := mk_timer d (seq_next (b_timers w)) t]> (armed (b_timers w)) /\
      forall tag' tm', armed (b_timers w) !! tag' = Some tm' -> tm_seq tm' < seq_next (b_timers w)).
    destruct (push_entry (b_timers w) d t) as [[tag s']|[]]; try done.
    destruct H1 as (l' & fl' & _ & -> & Hodd & _ & _ & Hv & _), H2 as (Hwf' & _ & Hnone & Ha & Hseq).
    simpl. split_and!; try done. pose proof (Hv (tag_index (next_tag (b_timers w)))) as Hb.
    rewrite decide_True in Hb by done. apply ver_at_bounds in Hb. lia. }
  intros [tag s'] ((-> & Hodd & Hix) & Hwf' & Hnone & Ha & Hseq). apply returns_ok.
  destruct (insert_at_split next d t l) as (l1 & l2 & -> & Hins & Hle & Hgt).
  eexists. split; [done|]. split; simpl; [done|done|].
  exists (l1 ++ mk_pair (next_tag (b_timers w)) (mk_timer d (seq_next (b_timers w)) t) next :: l2). fold next.
  assert (Ho' := in_order_insert _ s' l1 l2 next (next_tag (b_timers w)) _ Ho Hnone Ha Hle Hgt Hseq).
  split_and!; [by rewrite Hn, Hins, fmap_app|done|].
  assert (Hmem : forall x, x ∈ l1 ++ mk_pair (next_tag (b_timers w)) (mk_timer d (seq_next (b_timers w)) t) next :: l2 ->
    x = mk_pair (next_tag (b_timers w)) (mk_timer d (seq_next (b_timers w)) t) next \/ x ∈ l1 ++ l2)
    by (intros x; rewrite !elem_of_app, elem_of_cons; tauto).
  apply Forall2_app.
  - clear Ho'. unfold same_names in Hs. induction Hs as [|tag it tags its (H1 & H2 & H3 & H4) Hs IH]; constructor.
    + rewrite not_elem_of_cons in Hfresh. split_and!; [done|done|lia|].
      intros x [->|Hx]%Hmem; [|by apply H4]. simpl. split; [tauto|lia].
    + apply IH. rewrite not_elem_of_cons in Hfresh. tauto.
  - constructor; [|constructor]. split_and!; [done|done|lia|]. intros x [->|Hx]%Hmem; [done|].
    pose proof (io_next _ _ _ Ho x Hx). pose proof (in_order_mem _ _ _ x Ho Hx) as Hax.
    split; [intros Heq; rewrite Heq in Hax; congruence|lia].
Qed.

Lemma list_find_node (l1 l2 : list pair) x :
  NoDup (p_node <$> l1 ++ x :: l2) ->
  list_find (fun y : Z * (Z * ptr) => y.1 = p_node x) (node_of <$> l1 ++ x :: l2) = Some (length l1, node_of x) /\
  Multimap.erase (p_node x) (node_of <$> l1 ++ x :: l2) = node_of <$> l1 ++ l2.
Proof.
  intros Hnd. rewrite fmap_app, fmap_cons in Hnd. apply NoDup_app in Hnd as (_ & Hd & Hnd).
  apply NoDup_cons in Hnd as [Hni _].
  assert (H1 : forall y, y ∈ l1 -> p_node y <> p_node x).
  { intros y Hy Heq. apply (Hd (p_node y)); [by apply list_elem_of_fmap_2|]. rewrite Heq. by left. }
  assert (H2 : forall y, y ∈ l2 -> p_node y <> p_node x).
  { intros y Hy Heq. apply Hni. rewrite <- Heq. by apply list_elem_of_fmap_2. }
  rewrite fmap_app, fmap_cons. split.
  - apply list_find_Some. rewrite lookup_app_r, length_fmap, Nat.sub_diag by (by rewrite length_fmap).
    split_and!; [done|done|]. intros j y Hj Hlt. rewrite lookup_app_l in Hj by (by rewrite length_fmap).
    apply list_elem_of_lookup_2, list_elem_of_fmap in Hj as (z & -> & Hz). by apply H1.
  - unfold Multimap.erase. rewrite filter_app, filter_cons, decide_False by (simpl; tauto). rewrite fmap_app.
    rewrite !filter_all; [done| |]; intros y (z & -> & Hz)%list_elem_of_fmap; simpl; auto.
Qed.

Lemma cancel_agrees tags w its v k tag it :
  ndebug = false -> matched tags w its v -> tags !! k = Some tag -> its !! k = Some it ->
  (exists tm, armed (b_timers w) !! tag = Some tm /\
    returns (Ntt.cancel w tag) (fun w' => exists v', Multimap.cancel v it = Ok v' /\ matched tags w' its v')) \/
  Ntt.cancel w tag = Err AssertFailure /\ Multimap.cancel v it = Err InvalidPointer.
Proof.
  intros Hdebug [Hwf Hc (l & Hn & Ho & Hs)] Htag Hit.
  destruct (Forall2_lookup_lr _ _ _ _ _ _ Hs Htag Hit) as (Hodd & Hix & _ & Hname).
  destruct (armed (b_timers w) !! tag) as [tm|] eqn:Ha.
  - left. exists tm. split; [done|]. unfold Ntt.cancel.
    eapply returns_mono; [by apply (cancel_armed (fun _ => False) w tag tm)|].
    intros w' (s1 & w1 & s' & _ & Hd & Hdes & -> & Hwf' & Ha').
    simpl in Hdes. injection Hdes as <-. simpl in Ha'.
    apply (io_armed _ _ _ Ho) in Ha as (it' & Hin). assert (it' = it) as -> by (by apply (Hname _ Hin)).
    apply list_elem_of_split in Hin as (l1 & l2 & ->).
    destruct (list_find_node l1 l2 (mk_pair tag tm it) (io_nodes _ _ _ Ho)) as [Hf He].
    cbn [p_node] in Hf, He. unfold Multimap.cancel. rewrite Hn, Hf. simpl. eexists. split; [done|].
    split; simpl; [done|by rewrite Hc|]. exists (l1 ++ l2). split_and!; [exact He| |].
    + eapply in_order_delete; [exact Ho|]. simpl. by rewrite Ha'.
    + eapply same_names_sub; [|exact Hs]. intros x. rewrite !elem_of_app, elem_of_cons. tauto.
  - right. split.
    + unfold Ntt.cancel. etransitivity; [by apply cancel_not_armed|by rewrite Hdebug].
    + unfold Multimap.cancel. rewrite Hn.
      assert (list_find (fun x : Z * (Z * ptr) => x.1 = it) (node_of <$> l) = None) as ->; [|done].
      apply list_find_None, Forall_forall. intros y (x & -> & Hx)%list_elem_of_fmap Heq.
      apply (Hname x Hx) in Heq. pose proof (in_order_mem _ _ _ x Ho Hx) as Hax. congruence.
Qed.

Lemma svc_spec_agrees now w n w' :
  svc_spec now w n w' -> forall l next (b : bench Multimap.multimap) cnt,
  in_order (b_timers w) l next -> b_calls b = b_calls w -> 0 <= cnt < 2 ^ 64 ->
  exists l1 l2 v', l = l1 ++ l2 /\ Multimap.svc_loop (node_of <$> l) next b now cnt = (u64 (cnt + n), v') /\
    b_calls v' = b_calls w' /\ b_timers v' = Multimap.mk_multimap (node_of <$> l2) next /\
    in_order (b_timers w') l2 next.
Proof.
  induction 1 as [w Hnone|w s n w' Ha _ IH|w tag tm s w1 w2 n w' Ha Hdue Hmin Hd Hsvc Hdes _ IH];
    intros l next b cnt Ho Hc Hcnt.
  - exists [], l. rewrite Z.add_0_r, u64_small by done. destruct l as [|x l]; simpl.
    + eexists. by split_and!.
    + pose proof (Hnone _ _ (in_order_mem _ _ _ x Ho ltac:(by left))) as Hx.
      destruct (Z.leb_spec (tm_deadline (p_timer x)) now); [lia|]. eexists. by split_and!.
  - apply (IH l next b cnt); try done. by eapply in_order_ext.
  - destruct (in_order_first _ _ _ tag tm Ho Ha Hmin) as (it & rest & ->).
    simpl in Hsvc, Hdes. injection Hsvc as <-. injection Hdes as <-. simpl.
    destruct (Z.leb_spec (tm_deadline tm) now); [|lia].
    destruct (IH rest next (called (CallDrop (tm_task tm)) (called (CallRun (tm_task tm)) b)) (u64 (cnt + 1)))
      as (l1 & l2 & v' & -> & Heq & Hv); [|simpl; by rewrite Hc|apply u64_range|].
    + simpl. eapply (in_order_delete _ _ []); [exact Ho|done].
    + exists (mk_pair tag tm it :: l1), l2, v'. split_and!; [done|etransitivity; [exact Heq|]|apply Hv..].
      f_equal. unfold u64. rewrite Zplus_mod_idemp_l. f_equal. lia.
Qed.

Lemma svc_agrees tags w its v now :
  matched tags w its v ->
  returns (Ntt.svc w now) (fun '(c, w') => exists v', Multimap.svc v now = Ok (c, v') /\ matched tags w' its v').
Proof.
  intros [Hwf Hc (l & Hn & Ho & Hs)]. unfold Ntt.svc.
  pose proof (svc_loop_returns (fun _ => False) (S (due now (b_timers w))) w now 0) as Hr.
  destruct (ntt_timer_heap_svc (S (due now (b_timers w))) w now 0) as [[c w']|[]] eqn:Heq;
    try (apply Hr; [done|exact Hwf|apply Nat.lt_succ_diag_r]). clear Hr.
  assert (Hwf0 : timer_wf (th_heap w)) by exact Hwf.
  destruct (svc_loop_refines (fun _ => False) _ w now 0 c w' Hwf0 ltac:(lia) Heq) as (Hwf' & n & Hnn & -> & Hsp).
  destruct (svc_spec_agrees _ _ _ _ Hsp l _ v 0 Ho (eq_sym Hc) ltac:(lia)) as (l1 & l2 & v' & -> & Hl & Hcv & Htv & Ho').
  unfold Multimap.svc. rewrite Hn, Hl. eexists. split; [done|]. split; [done|done|]. exists l2. rewrite Htv. simpl.
  split_and!; [done|done|]. eapply same_names_sub; [|exact Hs]. intros x Hx. apply elem_of_app. by right.
Qed.

Lemma peek_agrees tags w its v :
  matched tags w its v ->
  returns (Ntt.peek w) (fun '(d, w') => exists v', Multimap.peek v = Ok (d, v') /\ matched tags w' its v').
Proof.
  intros [Hwf Hc (l & Hn & Ho & Hs)]. unfold Ntt.peek. eapply returns_bind; [by apply peek_armed|].
  intros [d s] (Hwf' & Ha & Hd). apply returns_ok. exists v. split.
  - unfold Multimap.peek. rewrite Hn. destruct d as [d|].
    + destruct Hd as (tag & tm & Htm & <- & Hmin).
      destruct (in_order_first _ _ _ tag tm Ho Htm Hmin) as (it & rest & ->). done.
    + destruct l as [|x l]; [done|]. pose proof (in_order_mem _ _ _ x Ho ltac:(by left)) as Hx. by rewrite Hd in Hx.
  - split; [done|done|]. exists l. split_and!; [done|by eapply in_order_ext|done].
Qed.

(** How the two may end: alike, or without memory; a stale tag is caught by an
    assertion of the one, and is a dangling iterator of the other. *)
Definition alike {X Y} (R : X -> Y -> Prop) (x : res X) (y : res Y) : Prop :=
  match x, y with
  | Ok x, Ok y => R x y
  | Err Die, _ => exists bytes, alloc_ok bytes = false
  | Err AssertFailure, Err InvalidPointer => True
  | Err OutOfBounds, Err OutOfBounds => True
  | _, _ => False
  end.

Definition same_acts {O} (x : O * list ntt_timer_tag * bench ntt_timer_heap) (y : O * list Z * bench Multimap.multimap) : Prop :=
  x.1.1 = y.1.1 /\ matched x.1.2 x.2 y.1.2 y.2.

Lemma returns_alike {X Y} (R : X -> Y -> Prop) (x : res X) (y : res Y) :
  returns x (fun a => exists b, y = Ok b /\ R a b) -> alike R x y.
Proof. destruct x as [a|[]]; simpl; try done. by intros (b & -> & HR). Qed.

Lemma act_agrees c tags w its v :
  ndebug = false -> matched tags w its v -> roomy [c] tags w -> alike same_acts (act c tags w) (act c its v).
Proof.
  intros Hdebug Hm [Hroom _]. destruct c as [d t|k|now|]; cbn [act].
  - destruct Hroom as (Hok & Ht & Hf). apply returns_alike.
    eapply returns_bind; [by apply (arm_agrees tags w its v d t)|].
    intros [tag w'] (v' & Heq & Hm'). apply returns_ok. change (t_arm v d t) with (Multimap.arm v d t).
    rewrite Heq, bind_ok. by eexists.
  - assert (Hlen : length tags = length its) by (destruct Hm as [_ _ (l & _ & _ & Hs)]; by eapply Forall2_length).
    destruct (tags !! k) as [tag|] eqn:Htag.
    + destruct (lookup_lt_is_Some_2 its k) as [it Hit]; [rewrite <- Hlen; by eapply lookup_lt_Some|]. rewrite Hit.
      change (t_cancel w tag) with (Ntt.cancel w tag). change (t_cancel v it) with (Multimap.cancel v it).
      destruct (cancel_agrees _ _ _ _ _ _ _ Hdebug Hm Htag Hit) as [(tm & _ & Hc)|[-> ->]]; [|done].
      apply returns_alike. eapply returns_bind; [exact Hc|].
      intros w' (v' & Heq & Hm'). apply returns_ok. rewrite Heq, bind_ok. by eexists.
    + rewrite (proj2 (lookup_ge_None its k)); [done|]. rewrite <- Hlen. by apply lookup_ge_None.
  - apply returns_alike. eapply returns_bind; [by apply (svc_agrees tags w its v now)|].
    intros [n w'] (v' & Heq & Hm'). apply returns_ok. change (t_svc v now) with (Multimap.svc v now).
    rewrite Heq, bind_ok. by eexists.
  - apply returns_alike. eapply returns_bind; [by apply (peek_agrees tags w its v)|].
    intros [d w'] (v' & Heq & Hm'). apply returns_ok. change (t_peek v) with (Multimap.peek v).
    rewrite Heq, bind_ok. by eexists.
Qed.

Lemma acts_agree cs : forall tags w its v,
  ndebug = false -> matched tags w its v -> roomy cs tags w -> alike same_acts (acts cs tags w) (acts cs its v).
Proof.
  induction cs as [|c cs IH]; intros tags w its v Hdebug Hm Hroom; [by split|].
  assert (Hone : roomy [c] tags w).
  { destruct Hroom as [H1 _]. split; [done|]. by destruct (act c tags w) as [[[] ]|]. }
  destruct Hroom as [_ Hrest]. pose proof (act_agrees c tags w its v Hdebug Hm Hone) as Hact. simpl.
  destruct (act c tags w) as [[[o tags'] w']|[]], (act c its v) as [[[o' its'] v']|[]]; try done.
  destruct Hact as [Ho Hm']. simpl in Ho, Hm'. subst o'. specialize (IH tags' w' its' v' Hdebug Hm' Hrest). simpl.
  destruct (acts cs tags' w') as [[[os tags2] w2]|[]], (acts cs its' v') as [[[os' its2] v2]|[]]; try done.
  destruct IH as [Hos Hm2]. simpl in Hos. subst os'. by split.
Qed.

Lemma matched_empty : matched [] (mk_bench ntt_timer_heap_init []) [] (mk_bench (Multimap.mk_multimap [] 0) []).
Proof.
  split; [apply init_wf|done|]. exists []. split_and!; [done| |constructor].
  split; simpl; try constructor; try (intros x ?%elem_of_nil; done).
  - by rewrite init_armed.
  - intros (it & ?%elem_of_nil). done.
Qed.

(** What the destructor drops: once each, the tasks of the timers that are armed. *)
Lemma destroy_all_calls ts : forall w, destroy_all ts w = Ok (mk_bench (b_timers w) (b_calls w ++ (CallDrop <$> ts))).
Proof.
  induction ts as [|t ts IH]; intros w; simpl; [rewrite app_nil_r; by destruct w|].
  rewrite IH. simpl. by rewrite <- app_assoc.
Qed.

Lemma ntt_destroys s :
  timer_wf s -> exists ts, ts ≡ₚ tm_task ∘ snd <$> map_to_list (armed s) /\
    returns (Ntt.destroy (mk_bench s [])) (fun w => b_calls w = CallDrop <$> ts).
Proof.
  intros Hwf. assert (Hw : timer_wf (th_heap (mk_bench s []))) by exact Hwf.
  destruct (timer_deinit_destroys _ Hw) as (ts & Hp & Hr); [by intros t w ?|].
  exists ts. split; [done|]. eapply returns_mono; [exact Hr|]. intros w (w1 & Hd & ->).
  rewrite destroy_all_calls in Hd. by injection Hd as <-.
Qed.

Lemma multimap_destroys (b : bench Multimap.multimap) :
  exists b', Multimap.destroy b = Ok b' /\ b_calls b' = b_calls b ++ (CallDrop ∘ snd ∘ snd <$> Multimap.nodes (b_timers b)).
Proof.
  eexists. split; [done|]. generalize (Multimap.nodes (b_timers b)) as l. intros l. revert b.
  induction l as [|x l IH]; intros b; simpl; [by rewrite app_nil_r|]. rewrite IH. simpl. by rewrite <- app_assoc.
Qed.

Lemma in_order_tasks s l next :
  in_order s l next -> tm_task ∘ p_timer <$> l ≡ₚ tm_task ∘ snd <$> map_to_list (armed s).
Proof.
  intros Ho. rewrite (list_fmap_compose snd tm_task), (list_fmap_compose p_timer tm_task). apply fmap_Permutation.
  assert (Hl : (fun x => (p_tag x, p_timer x)) <$> l ≡ₚ map_to_list (armed s)).
  { apply NoDup_Permutation; [|apply NoDup_map_to_list|].
    - eapply (NoDup_fmap_1 fst). rewrite <- list_fmap_compose. apply Ho.
    - intros [tag tm]. rewrite elem_of_map_to_list, (io_armed _ _ _ Ho). rewrite list_elem_of_fmap. split.
      + intros ([t m it] & [= -> ->] & Hx). eauto.
      + intros (it & Hx). by exists (mk_pair tag tm it). }
  rewrite <- Hl, <- list_fmap_compose. done.
Qed.

(** What is seen of two runs is the same; destructors drop the same tasks, in an
    order of their own. *)
Definition same_seen {O} (x y : O * list task_call * list task_call) : Prop := x.1 = y.1 /\ x.2 ≡ₚ y.2.

Lemma destroy_agrees tags w its v :
  matched tags w its v ->
  returns (Ntt.destroy (mk_bench (b_timers w) [])) (fun w' => exists v',
    Multimap.destroy (mk_bench (b_timers v) []) = Ok v' /\ b_calls w' ≡ₚ b_calls v').
Proof.
  intros [Hwf _ (l & Hn & Ho & _)]. destruct (ntt_destroys _ Hwf) as (ts & Hp & Hr).
  destruct (multimap_destroys (mk_bench (b_timers v) [])) as (v' & Hv & Hcalls).
  eapply returns_mono; [exact Hr|]. intros w' Hw'. exists v'. split; [done|]. rewrite Hw', Hcalls. simpl. rewrite Hn. simpl.
  rewrite <- (in_order_tasks _ _ _ Ho) in Hp. rewrite Hp, <- !list_fmap_compose. done.
Qed.

(** C3.  In a debug build, and as long as the timers fit ([roomy]: none of the
    bounds of the timer heap is passed), the timer heap cannot be told from a
    [std::multimap] ordered by deadline: whatever timers are armed, cancelled, run
    and asked for, both return the same counts and deadlines and make the same calls
    of tasks in the same order, ties in the order of arming; where the one would
    follow a dangling iterator, the other fails an assertion.  In the end the destructors of both drop the
    tasks of the timers that are still armed, once each. *)
Theorem timer_heap_like_multimap cs :
  ndebug = false -> roomy cs [] (mk_bench ntt_timer_heap_init []) ->
  alike same_seen (observed (A := ntt_timer_heap) cs) (observed (A := Multimap.multimap) cs).
Proof.
  intros Hdebug Hroom. pose proof (acts_agree cs [] _ [] _ Hdebug matched_empty Hroom) as Ha. unfold observed.
  change t_empty with ntt_timer_heap_init at 1. change t_empty with (Multimap.mk_multimap [] 0).
  destruct (acts cs [] (mk_bench ntt_timer_heap_init [])) as [[[os tags] w]|[]],
    (acts cs [] (mk_bench (Multimap.mk_multimap [] 0) [])) as [[[os' its] v]|[]]; try done.
  destruct Ha as [Hos Hm]. simpl in Hos, Hm. subst os'. rewrite !bind_ok. apply returns_alike.
  change (t_destroy (mk_bench (b_timers w) [])) with (Ntt.destroy (mk_bench (b_timers w) [])).
  change (t_destroy (mk_bench (b_timers v) [])) with (Multimap.destroy (mk_bench (b_timers v) [])).
  eapply returns_bind; [by eapply destroy_agrees|]. intros w' (v' & -> & Hp). rewrite bind_ok.
  apply returns_ok. eexists. split; [done|]. split; [simpl; by rewrite (mt_calls _ _ _ _ Hm)|done].
Qed.
End agree.

#[global] Instance roomy_dec `{Platform} cs : forall tags b, Decision (roomy cs tags b).
Proof.
  induction cs as [|c cs IH]; intros tags b; [apply _|]. simpl.
  apply and_dec.
  - destruct c; apply _.
  - destruct (act c tags b) as [[[o tags'] b']|f]; apply _.
Defined.

(** ** Witnesses *)
Module VariantsExample.
#[local] Instance machine : Platform := {| ndebug := false; alloc_ok := fun _ => true |}.

(** Timers with equal deadlines, one cancelled, some run, three left at the end. *)
Definition session : list command :=
  [Arm 30 16; Arm 10 32; Arm 10 48; Arm 20 64; Cancel 0; Peek; Svc 10; Arm 15 80; Peek; Svc 15; Arm 40 96; Arm 30 112].

Definition seen : list outcome * list task_call :=
  ([Armed; Armed; Armed; Armed; Cancelled; Earliest (Some 10); Fired 2; Armed; Earliest (Some 15); Fired 1; Armed; Armed],
   [CallDrop 16; CallRun 32; CallDrop 32; CallRun 48; CallDrop 48; CallRun 80; CallDrop 80]).

Lemma session_roomy : roomy session [] (mk_bench ntt_timer_heap_init []).
Proof. apply (bool_decide_eq_true_1 (roomy session [] (mk_bench ntt_timer_heap_init []))). by vm_compute. Qed.

Lemma timer_heap_like_multimap_witness :
  observed (A := ntt_timer_heap) session = Ok (seen, [CallDrop 64; CallDrop 96; CallDrop 112]) /\
  observed (A := Multimap.multimap) session = Ok (seen, [CallDrop 64; CallDrop 112; CallDrop 96]) /\
  alike same_seen (observed (A := ntt_timer_heap) session) (observed (A := Multimap.multimap) session).
Proof.
  split; [by vm_compute|split; [by vm_compute|]]. exact (timer_heap_like_multimap session eq_refl session_roomy).
Defined.
End VariantsExample.
