(* ===== verification/TimerVariantsLazy.v ===== *)
(** * Variants of the timer heap: the heap in vectors

    The heap of [LazyHeapTimers] makes the same decisions as that of
    [timer_heap.c], although their arrays need not agree entry by entry. *)

From stdpp Require Import base numbers list gmap sorting.
From Stdlib Require Import ZArith Lia.
From S2P Require Import Prelude.
From S2P Require Import HeapOrder.
From S2P Require Import TimerHeap.
From S2P Require Import TimerHeapArray.
From S2P Require Import TimerHeapInv.
From S2P Require Import TimerHeapOps.
From S2P Require Import TimerHeapSpec.
From S2P Require Import TimerHeapHost.
From S2P Require Import TimerVariants.
From S2P Require Import TimerVariantsProps.

#[local] Open Scope Z_scope.

(** ** Sifting in a vector *)
Lemma less_same (x y : ntt_timer_heap_elem) : Lazy.less x y = ntt_timer_heap_less x y.
Proof. done. Qed.

Lemma swap_hole (h : list ntt_timer_heap_elem) pos i e x :
  (pos < length h)%nat -> i <> pos -> h !! i = Some x ->
  swap pos i (<[pos := e]> h) = <[i := e]> (<[pos := x]> h).
Proof.
  intros Hp Hne Hx. unfold swap. rewrite list_lookup_insert_eq, list_lookup_insert_ne, Hx by done.
  rewrite list_insert_insert_ne by done. by rewrite list_insert_insert_eq.
Qed.

Lemma vec_sift_up fuel (h : list ntt_timer_heap_elem) (pos : nat) e :
  (pos < length h)%nat -> (pos <= fuel)%nat -> Z.of_nat (length h) < 2 ^ 62 ->
  Lazy.sift_up_loop (S fuel) h (Z.of_nat pos) e = Ok (swim ntt_timer_heap_less fuel (<[pos := e]> h) pos).
Proof.
  revert h pos. induction fuel as [|fuel IH]; intros h pos Hp Hf Hmax.
  - assert (pos = O) as -> by lia. simpl. by rewrite (arr_set_nat h 0).
  - remember (S fuel) as f eqn:Ef. cbn [Lazy.sift_up_loop]. rewrite Ef. cbn [swim].
    rewrite list_lookup_insert_eq by done.
    destruct (Z.gtb_spec (Z.of_nat pos) 0) as [Hpos|Hz].
    + pose proof (parent_lt pos ltac:(lia)) as Hlt.
      destruct (lookup_lt_is_Some_2 h (parent pos)) as [x Hx]; [lia|].
      rewrite list_lookup_insert_ne, Hx by lia.
      replace (u64 (Z.of_nat pos - 1) / 2) with (Z.of_nat (parent pos)).
      2:{ rewrite u64_small by lia. unfold parent. rewrite Nat2Z.inj_div, Nat2Z.inj_sub by lia. done. }
      rewrite (arr_get_nat _ _ _ Hx), bind_ok, less_same.
      destruct (Nat.ltb_spec 0 pos); [|lia]. cbn [andb].
      destruct (ntt_timer_heap_less e x); cbn [negb]; [|by rewrite arr_set_nat].
      rewrite arr_set_nat, bind_ok by done. rewrite (swap_hole h pos (parent pos) e x) by (done || lia).
      rewrite <- IH by (rewrite ?length_insert; lia). by rewrite Ef.
    + assert (pos = O) as -> by lia. simpl. rewrite (arr_set_nat h 0) by done. by case_match.
Qed.

Lemma vec_right (h : list ntt_timer_heap_elem) (pos : nat) e x :
  (pos < length h)%nat -> h !! (2 * pos + 1)%nat = Some x -> Z.of_nat (length h) < 2 ^ 62 ->
  Lazy.right_less h (Z.of_nat (2 * pos + 1)) =
    Ok (bool_decide (min_child ntt_timer_heap_less (<[pos := e]> h) pos = (2 * pos + 2)%nat)).
Proof.
  intros Hp Hx Hmax. apply lookup_lt_Some in Hx as Hlt. unfold Lazy.right_less, Lazy.vec_size, min_child.
  rewrite !list_lookup_insert_ne, Hx by lia.
  replace (u64 (Z.of_nat (2 * pos + 1) + 1)) with (Z.of_nat (2 * pos + 2)) by (rewrite u64_small by lia; lia).
  destruct (Z.ltb_spec (Z.of_nat (2 * pos + 2)) (Z.of_nat (length h))).
  - destruct (lookup_lt_is_Some_2 h (2 * pos + 2)) as [y Hy]; [lia|].
    rewrite Hy, (arr_get_nat _ _ _ Hy), bind_ok, (arr_get_nat _ _ _ Hx), bind_ok, less_same.
    destruct (ntt_timer_heap_less y x); [by rewrite bool_decide_true|rewrite bool_decide_false; [done|lia]].
  - rewrite lookup_ge_None_2 by lia. rewrite bool_decide_false; [done|lia].
Qed.

Lemma vec_sift_down fuel (h : list ntt_timer_heap_elem) (pos : nat) e :
  (pos < length h)%nat -> (length h <= fuel + pos)%nat -> Z.of_nat (length h) < 2 ^ 62 ->
  Lazy.sift_down_loop (S fuel) h (Z.of_nat pos) e = Ok (sink ntt_timer_heap_less fuel (<[pos := e]> h) pos).
Proof.
  revert h pos. induction fuel as [|fuel IH]; intros h pos Hp Hf Hmax; [lia|].
  remember (S fuel) as f eqn:Ef. cbn [Lazy.sift_down_loop]. rewrite Ef. cbn [sink]. unfold Lazy.vec_size.
  replace (u64 (u64 (Z.of_nat pos * 2) + 1)) with (Z.of_nat (2 * pos + 1))
    by (rewrite (u64_small (Z.of_nat pos * 2)), u64_small by lia; lia).
  replace (u64 (Z.of_nat (2 * pos + 1) + 1)) with (Z.of_nat (2 * pos + 2)) by (rewrite u64_small by lia; lia).
  rewrite list_lookup_insert_eq by done. set (v := <[pos := e]> h).
  assert (Hlen : length v = length h) by apply length_insert.
  destruct (min_child_parent ntt_timer_heap_less v pos) as [Hm0 Hmp].
  pose proof (proj1 (parent_children _ _ Hm0) Hmp) as Hch.
  destruct (Z.geb_spec (Z.of_nat (2 * pos + 1)) (Z.of_nat (length h))) as [Hge|Hlt].
  { rewrite arr_set_nat by done. rewrite (lookup_ge_None_2 v) by lia. done. }
  destruct (lookup_lt_is_Some_2 h (2 * pos + 1)) as [x Hx]; [lia|].
  rewrite (vec_right h pos e x) by (done || lia). rewrite bind_ok. fold v.
  destruct (min_child_some ntt_timer_heap_less v pos x) as [c Hc]; [unfold v; by rewrite list_lookup_insert_ne by lia|].
  set (m := min_child ntt_timer_heap_less v pos) in *.
  replace (if bool_decide (m = (2 * pos + 2)%nat) then Z.of_nat (2 * pos + 2)
           else Z.of_nat (2 * pos + 1)) with (Z.of_nat m) by (case_bool_decide; lia).
  assert (Hc' : h !! m = Some c) by (unfold v in Hc; by rewrite list_lookup_insert_ne in Hc by lia).
  rewrite Hc, (arr_get_nat _ _ _ Hc'), bind_ok, less_same. apply lookup_lt_Some in Hc' as Hml.
  destruct (ntt_timer_heap_less c e); cbn [negb]; [|by rewrite arr_set_nat].
  rewrite arr_set_nat, bind_ok by done. unfold v. rewrite (swap_hole h pos m e c) by (done || lia).
  rewrite <- IH by (rewrite ?length_insert; lia). by rewrite Ef.
Qed.

(** ** Operations on the vector *)
Lemma vec_push (h : list ntt_timer_heap_elem) e :
  heap_ordered ntt_timer_heap_less h -> Z.of_nat (S (length h)) < 2 ^ 62 ->
  exists h', Lazy.sift_up (h ++ [e]) (Lazy.vec_size (h ++ [e]) - 1) = Ok h' /\ h' ≡ₚ e :: h /\ heap_ordered ntt_timer_heap_less h'.
Proof.
  intros Ho Hmax. unfold Lazy.vec_size, Lazy.sift_up.
  replace (Z.of_nat (length (h ++ [e])) - 1) with (Z.of_nat (length h)) by (rewrite length_app; simpl; lia).
  assert (Hlk : (h ++ [e]) !! length h = Some e) by (by rewrite lookup_app_r, Nat.sub_diag by lia).
  rewrite (arr_get_nat _ _ _ Hlk), bind_ok, Nat2Z.id.
  rewrite vec_sift_up by (rewrite ?length_app; simpl; lia). rewrite list_insert_id by done.
  eexists. split_and!; [done| |].
  - rewrite swim_perm. by rewrite <- Permutation_cons_append.
  - apply swim_ordered; [apply _|lia|by apply up_inv_app].
Qed.

Lemma vec_sift (h : list ntt_timer_heap_elem) (pos : nat) :
  (pos < length h)%nat -> Z.of_nat (length h) < 2 ^ 62 ->
  Lazy.sift_down h (Z.of_nat pos) = Ok (sink ntt_timer_heap_less (length h) h pos).
Proof.
  intros Hp Hmax. destruct (lookup_lt_is_Some_2 h pos Hp) as [e He]. unfold Lazy.sift_down.
  rewrite (arr_get_nat _ _ _ He), bind_ok, vec_sift_down by lia. by rewrite list_insert_id.
Qed.

Lemma vec_pop (h : list ntt_timer_heap_elem) r rest :
  heap_ordered ntt_timer_heap_less h -> h = r :: rest -> Z.of_nat (length h) < 2 ^ 62 ->
  exists h', Lazy.pop_root h = Ok h' /\ h ≡ₚ r :: h' /\ heap_ordered ntt_timer_heap_less h'.
Proof.
  intros Ho Heq Hmax. unfold Lazy.pop_root, Lazy.vec_size.
  destruct (exists_last (l := h)) as (init & back & Hb); [by rewrite Heq|].
  assert (Hlen : length h = S (length init)) by (rewrite Hb, length_app; simpl; lia).
  replace (Z.of_nat (length h) - 1) with (Z.of_nat (length init)) by lia.
  assert (Hlk : h !! length init = Some back) by (by rewrite Hb, lookup_app_r, Nat.sub_diag by lia).
  rewrite (arr_get_nat _ _ _ Hlk), bind_ok, (arr_set_nat h 0), bind_ok by lia.
  destruct init as [|x init].
  { simpl in Hb. subst h. injection Hb as -> ->. exists []. split_and!; [done|done|apply heap_ordered_nil]. }
  assert (Hx : x = r) by (rewrite Hb in Heq; by injection Heq). subst x.
  assert (Hrm : removelast (<[O := back]> h) = <[O := back]> (r :: init)).
  { rewrite Hb. change (<[O := back]> ((r :: init) ++ [back])) with ((back :: init) ++ [back]).
    by rewrite removelast_last. }
  rewrite Hrm. simpl length. destruct (Z.eqb_spec (Z.of_nat (S (length init))) 0); [lia|]. cbn [negb].
  change (<[O := back]> (r :: init)) with (back :: init).
  pose proof (vec_sift (back :: init) 0) as Hsd. change (Z.of_nat 0) with 0 in Hsd. rewrite Hsd by (simpl in *; lia).
  eexists. split_and!; [done| |].
  - rewrite sink_perm, Hb. simpl. constructor. by rewrite <- Permutation_cons_append.
  - apply sink_ordered; [apply _|lia|]. apply (down_inv_root ntt_timer_heap_less (r :: init)).
    apply (heap_ordered_prefix _ _ [back]). by rewrite <- Hb.
Qed.

Lemma vec_build n (h : list ntt_timer_heap_elem) :
  (n <= length h)%nat -> Z.of_nat (length h) < 2 ^ 62 -> Lazy.build_loop n h = Ok (heapify ntt_timer_heap_less h n).
Proof.
  revert h. induction n as [|n IH]; intros h Hn Hmax; [done|]. cbn [Lazy.build_loop heapify].
  rewrite vec_sift, bind_ok by lia. by rewrite IH by (rewrite length_sink; lia).
Qed.

(** The loop that filters in place. *)
Lemma vec_filter (a : ntt_timer_heap_elem -> bool) z todo : forall fuel kept mid,
  (forall h e, e ∈ todo -> Lazy.live (Lazy.with_heap h z) e = Ok (a e)) -> (length todo < fuel)%nat ->
  Z.of_nat (length (kept ++ mid ++ todo)) < 2 ^ 62 ->
  exists mid', Lazy.filter_loop fuel (Lazy.with_heap (kept ++ mid ++ todo) z) (Z.of_nat (length kept))
      (Z.of_nat (length kept + length mid)) =
    Ok (Z.of_nat (length (kept ++ filter (fun e => a e = true) todo)),
        Lazy.with_heap ((kept ++ filter (fun e => a e = true) todo) ++ mid') z).
Proof.
  induction todo as [|e todo IH]; intros fuel kept mid Hlive Hf Hmax; (destruct fuel as [|fuel]; [simpl in Hf; lia|]);
    cbn [Lazy.filter_loop]; unfold Lazy.vec_size; simpl Lazy.heap_.
  - rewrite app_nil_r, length_app. destruct (Z.ltb_spec (Z.of_nat (length kept + length mid)) (Z.of_nat (length kept + length mid))); [lia|].
    exists mid. simpl. by rewrite app_nil_r.
  - rewrite !length_app in *. simpl in Hmax, Hf.
    destruct (Z.ltb_spec (Z.of_nat (length kept + length mid)) (Z.of_nat (length kept + (length mid + length (e :: todo))))) as [_|Hge];
      [|simpl in Hge; lia].
    assert (Hlk : (kept ++ mid ++ e :: todo) !! (length kept + length mid)%nat = Some e).
    { rewrite app_assoc, lookup_app_r by (rewrite length_app; lia). by rewrite length_app, Nat.sub_diag. }
    rewrite (arr_get_nat _ _ _ Hlk), bind_ok, Hlive, bind_ok by (by left).
    replace (u64 (Z.of_nat (length kept + length mid) + 1)) with (Z.of_nat (length kept + length (mid ++ [e])))
      by (rewrite u64_small, length_app by lia; simpl; lia).
    rewrite filter_cons. destruct (a e) eqn:Hae.
    + rewrite decide_True by done. rewrite arr_set_nat, bind_ok by (rewrite !length_app; simpl; lia).
      replace (u64 (Z.of_nat (length kept) + 1)) with (Z.of_nat (length (kept ++ [e])))
        by (rewrite u64_small, length_app by lia; simpl; lia).
      assert (Hset : <[length kept := e]> (kept ++ mid ++ e :: todo) = (kept ++ [e]) ++ tail (mid ++ [e]) ++ todo).
      { rewrite insert_app_r_alt, Nat.sub_diag by lia. rewrite <- app_assoc. f_equal.
        destruct mid as [|x mid]; [done|]. simpl. by rewrite <- app_assoc. }
      rewrite Hset. replace (length kept + length (mid ++ [e]))%nat with (length (kept ++ [e]) + length (tail (mid ++ [e])))%nat
        by (rewrite !length_app; destruct mid; simpl; rewrite ?length_app; simpl; lia).
      destruct (IH fuel (kept ++ [e]) (tail (mid ++ [e]))) as (mid' & Heq).
      * intros h x Hx. apply Hlive. by right.
      * lia.
      * rewrite !length_app. destruct mid; simpl in *; rewrite ?length_app; simpl; lia.
      * exists mid'. etransitivity; [exact Heq|]. rewrite <- (app_assoc kept [e]). by rewrite length_app.
    + rewrite decide_False by done. destruct (IH fuel kept (mid ++ [e])) as (mid' & Heq).
      * intros h x Hx. apply Hlive. by right.
      * lia.
      * rewrite !length_app. simpl. lia.
      * exists mid'. rewrite <- (app_assoc mid) in Heq. rewrite !length_app in Heq. rewrite ?length_app. exact Heq.
Qed.

(** ** The relation *)

(** The free slots, linked from [h] on. *)
Fixpoint chain (sl : list Lazy.slot) (h : Z) (fl : list Z) : Prop :=
  match fl with
  | [] => h = Lazy.g_none
  | i :: fl => h = i /\ exists x, sl !! Z.to_nat i = Some x /\ chain sl (Lazy.next_free x) fl
  end.

Record slots_match (s : ntt_timer_heap) (z : Lazy.lazy_heap) (fl : list Z) : Prop := {
  sm_slot : forall i v, ver_at s i = Some v -> exists x, Lazy.slots_ z !! Z.to_nat i = Some x /\ Lazy.version x = v /\
    (Z.odd v = true -> task_at s i = Some (Lazy.task x));
  sm_cnt : Lazy.vec_size (Lazy.slots_ z) = slot_cnt s;
  sm_chain : chain (Lazy.slots_ z) (Lazy.free_head_ z) fl;
}.

Record lazy_ok (s : ntt_timer_heap) (z : Lazy.lazy_heap) (l : list ntt_timer_heap_elem) (fl : list Z) : Prop := {
  lz_inv : timer_inv s l fl;
  lz_perm : Lazy.heap_ z ≡ₚ l;
  lz_order : heap_ordered ntt_timer_heap_less (Lazy.heap_ z);
  lz_slots : slots_match s z fl;
  lz_seq : Lazy.seq_ z = seq_next s;
  lz_tomb : Lazy.tombstones_ z = tombstones s;
}.

Lemma slots_chain_frame (sl sl' : list Lazy.slot) h fl :
  (forall i, i ∈ fl -> sl' !! Z.to_nat i = sl !! Z.to_nat i) -> chain sl h fl -> chain sl' h fl.
Proof.
  revert h. induction fl as [|i fl IH]; intros h Hf; [done|]. simpl. intros (-> & x & Hx & Hc). split; [done|].
  exists x. rewrite Hf by (by left). split; [done|]. apply IH; [|done]. intros j Hj. apply Hf. by right.
Qed.

(** The number of slots is read off their versions. *)
Lemma slot_cnt_domain s s' fl fl' :
  slots_inv s fl -> slots_inv s' fl' -> (forall j, is_Some (ver_at s' j) <-> is_Some (ver_at s j)) ->
  slot_cnt s' = slot_cnt s.
Proof.
  intros Hs Hs' Hd.
  assert (Hdom : forall s fl, slots_inv s fl -> forall j, is_Some (ver_at s j) <-> 0 <= j < slot_cnt s).
  { intros t gl Ht j. split; [intros [v Hv]; by eapply ver_at_bounds|].
    intros Hj. destruct (si_ver _ _ Ht j Hj) as (v & -> & _). eauto. }
  pose proof (si_cnt _ _ Hs) as [H0 _]. pose proof (si_cnt _ _ Hs') as [H0' _].
  destruct (Z.lt_trichotomy (slot_cnt s) (slot_cnt s')) as [Hlt|[->|Hgt]]; [|done|]; exfalso.
  - assert (Hj : is_Some (ver_at s' (slot_cnt s))) by (apply (Hdom s' fl' Hs'); lia).
    apply Hd, (Hdom s fl Hs) in Hj. lia.
  - assert (Hj : is_Some (ver_at s (slot_cnt s'))) by (apply (Hdom s fl Hs); lia).
    apply Hd, (Hdom s' fl' Hs') in Hj. lia.
Qed.

Lemma slots_match_same s s' z z' fl :
  slots_match s z fl -> (forall i, ver_at s' i = ver_at s i) -> (forall i, task_at s' i = task_at s i) ->
  slot_cnt s' = slot_cnt s -> Lazy.slots_ z' = Lazy.slots_ z -> Lazy.free_head_ z' = Lazy.free_head_ z ->
  slots_match s' z' fl.
Proof.
  intros [H1 H2 H3] Hv Ht Hc Hsl Hf. split; rewrite ?Hsl, ?Hf, ?Hc; try done.
  intros i v. rewrite Hv, Ht. apply H1.
Qed.

Lemma live_match s z fl e :
  slots_match s z fl -> is_Some (ver_at s (index e)) -> Lazy.live z e = Ok (bool_decide (is_live s e)).
Proof.
  intros Hm [v Hv]. destruct (sm_slot _ _ _ Hm _ _ Hv) as (x & Hx & Hver & _). unfold Lazy.live.
  pose proof (ver_at_bounds _ _ _ Hv). rewrite (arr_get_lookup _ _ x), bind_ok by (done || lia).
  rewrite Hver. f_equal. destruct (Z.eqb_spec v (version e)) as [->|Hne].
  - by rewrite bool_decide_true.
  - rewrite bool_decide_false; [done|]. unfold is_live. congruence.
Qed.

Lemma slots_release s s' z fl i v :
  slots_inv s fl -> slots_inv s' (i :: fl) -> slots_match s z fl -> ver_at s i = Some v -> Z.odd v = true ->
  released s s' i (u32 (v + 1)) ->
  exists x z', arr_get (Lazy.slots_ z) i = Ok x /\ Lazy.version x = v /\ task_at s i = Some (Lazy.task x) /\
    Lazy.free_slot z i = Ok z' /\ slots_match s' z' (i :: fl) /\
    Lazy.heap_ z' = Lazy.heap_ z /\ Lazy.seq_ z' = Lazy.seq_ z /\ Lazy.tombstones_ z' = Lazy.tombstones_ z.
Proof.
  intros Hs Hs' Hm Hv Hodd (Hver & Htask & Hev). pose proof Hm as [H1 H2 H3].
  destruct (H1 i v Hv) as (x & Hx & Hxv & Ht). specialize (Ht Hodd).
  pose proof (ver_at_bounds _ _ _ Hv) as Hi. assert (Hget : arr_get (Lazy.slots_ z) i = Ok x) by (apply arr_get_lookup; [lia|done]).
  apply lookup_lt_Some in Hx as Hlt.
  set (y := Lazy.mk_slot NULL (u32 (v + 1)) (Lazy.free_head_ z)).
  exists x, (Lazy.with_slots (<[Z.to_nat i := y]> (Lazy.slots_ z)) i z). split_and!; try done.
  - unfold Lazy.free_slot. rewrite Hget, bind_ok, Hxv. fold y. by rewrite arr_set_lookup, bind_ok by lia.
  - split; simpl.
    + intros j u Hj. pose proof Hj as Hj'. rewrite Hver in Hj. destruct (decide (j = i)) as [->|Hne].
      * injection Hj as <-. exists y. rewrite list_lookup_insert_eq by done. split_and!; [done|done|]. by rewrite Hev.
      * pose proof (ver_at_bounds _ _ _ Hj). destruct (H1 j u Hj) as (x' & Hx' & Hv' & Ht'). exists x'.
        rewrite list_lookup_insert_ne by lia. split_and!; [done|done|]. rewrite Htask, decide_False by done. done.
    + unfold Lazy.vec_size in *. rewrite length_insert, H2. symmetry. apply (slot_cnt_domain s s' fl (i :: fl)); [done|done|].
      intros j. rewrite Hver. case_decide; [subst; rewrite Hv|]; done.
    + split; [done|]. exists y. rewrite list_lookup_insert_eq by done. split; [done|]. simpl.
      eapply slots_chain_frame; [|exact H3]. intros j Hj. apply list_lookup_insert_ne.
      apply (si_free _ _ Hs) in Hj as (u & Hu & Hue). pose proof (ver_at_bounds _ _ _ Hu). intros Heq.
      assert (j = i) as -> by lia. congruence.
Qed.

(** What holds of the slots that a timer is armed in. *)
Definition slot_taken (s s' : ntt_timer_heap) (i u : Z) (t : ptr) : Prop :=
  Z.odd u = true /\
  (forall j, ver_at s' j = if decide (j = i) then Some u else ver_at s j) /\
  (forall j, task_at s' j = if decide (j = i) then Some t else task_at s j).

(** Storing the task in the slot that was found. *)
Lemma slots_store s s' z (fl fl' : list Z) i u t y (sl1 : list Lazy.slot) f :
  slots_match s z fl -> slots_inv s' fl' -> slot_taken s s' i u t ->
  sl1 !! Z.to_nat i = Some y -> Lazy.version y = u ->
  (forall j, j <> i -> 0 <= j < slot_cnt s -> sl1 !! Z.to_nat j = Lazy.slots_ z !! Z.to_nat j) ->
  Lazy.vec_size sl1 = slot_cnt s' -> chain sl1 f fl' ->
  exists sl, arr_set sl1 i (Lazy.mk_slot t (Lazy.version y) (Lazy.next_free y)) = Ok sl /\
    forall h q n, slots_match s' (Lazy.mk_lazy h sl f q n) fl'.
Proof.
  intros [H1 _ _] Hs' (Hodd & Hver & Htask) Hy Hyv Hsl Hsz Hch. unfold Lazy.vec_size in Hsz.
  assert (Hi' : 0 <= i < slot_cnt s') by (apply (ver_at_bounds s' i u); by rewrite Hver, decide_True).
  eexists. split; [apply arr_set_lookup; lia|]. intros h q n. split; simpl.
  - intros j v Hj. rewrite Hver in Hj. destruct (decide (j = i)) as [->|Hne].
    + injection Hj as <-. eexists. rewrite list_lookup_insert_eq by lia. split_and!; [done|done|].
      intros _. by rewrite Htask, decide_True.
    + pose proof (ver_at_bounds _ _ _ Hj). rewrite list_lookup_insert_ne, Hsl by (done || lia).
      destruct (H1 j v Hj) as (x & Hx & Hxv & Ht). exists x. by rewrite Htask, decide_False by done.
  - unfold Lazy.vec_size. by rewrite length_insert.
  - eapply slots_chain_frame; [|exact Hch]. intros j Hj. apply list_lookup_insert_ne.
    apply (si_free _ _ Hs') in Hj as (v & Hv & Hev). pose proof (ver_at_bounds _ _ _ Hv). intros Heq.
    assert (j = i) as -> by lia. rewrite Hver, decide_True in Hv by done. injection Hv as <-. congruence.
Qed.

(** One slot more when the version of a new one appears. *)
Lemma slot_cnt_grows s s' fl fl' u :
  slots_inv s fl -> slots_inv s' fl' ->
  (forall j, ver_at s' j = if decide (j = slot_cnt s) then Some u else ver_at s j) -> slot_cnt s' = slot_cnt s + 1.
Proof.
  intros Hs Hs' Hver. pose proof (si_cnt _ _ Hs) as [H0 _]. pose proof (si_cnt _ _ Hs') as [H0' _].
  assert (Hdom : forall j, 0 <= j < slot_cnt s' <-> 0 <= j < slot_cnt s \/ j = slot_cnt s).
  { intros j. split.
    - intros (v & Hv & _)%(si_ver _ _ Hs'). rewrite Hver in Hv. case_decide; [by right|].
      left. by eapply ver_at_bounds.
    - intros Hj. assert (is_Some (ver_at s' j)) as [v Hv]; [|by eapply ver_at_bounds].
      rewrite Hver. case_decide; [eauto|]. destruct (si_ver _ _ Hs j) as (v & -> & _); [lia|eauto]. }
  pose proof (Hdom (slot_cnt s)). pose proof (Hdom (slot_cnt s + 1)). pose proof (Hdom (slot_cnt s')). lia.
Qed.

(** What arming does to the slots of the vectors. *)
Definition alloc_same (s s' : ntt_timer_heap) (z : Lazy.lazy_heap) (fl' : list Z) (t : ptr) : Prop :=
  let tag := next_tag s in
  exists x z1 sl, Lazy.alloc_slot z = Ok (tag_index tag, z1) /\
    arr_get (Lazy.slots_ z1) (tag_index tag) = Ok x /\ Lazy.version x = tag_version tag /\
    arr_set (Lazy.slots_ z1) (tag_index tag) (Lazy.mk_slot t (Lazy.version x) (Lazy.next_free x)) = Ok sl /\
    Lazy.heap_ z1 = Lazy.heap_ z /\ Lazy.seq_ z1 = Lazy.seq_ z /\ Lazy.tombstones_ z1 = Lazy.tombstones_ z /\
    forall h q n, slots_match s' (Lazy.mk_lazy h sl (Lazy.free_head_ z1) q n) fl'.

Lemma slots_alloc_new s s' z t :
  slots_inv s [] -> slots_inv s' [] -> slots_match s z [] ->
  slot_taken s s' (tag_index (next_tag s)) (tag_version (next_tag s)) t -> alloc_same s s' z [] t.
Proof.
  intros Hs Hs' Hm Ht. pose proof Hm as [_ H2 H3]. pose proof (si_chain _ _ Hs) as Hch. simpl in H3, Hch.
  assert (Hnt : next_tag s = mk_tag (slot_cnt s) 1) by (unfold next_tag; by rewrite Hch).
  unfold alloc_same. rewrite Hnt in Ht |- *. simpl in Ht |- *.
  pose proof (si_cnt _ _ Hs) as Hcnt. pose proof (cap_ok_bound _ (si_shape _ _ Hs)) as Hcap. unfold MAX_TIMERS in Hcap.
  pose proof (slot_cnt_grows s s' _ _ _ Hs Hs' (proj1 (proj2 Ht))) as Hc'.
  set (sl1 := Lazy.slots_ z ++ [Lazy.mk_slot NULL 1 Lazy.g_none]). unfold Lazy.vec_size in H2.
  assert (Hlen : Z.of_nat (length sl1) = slot_cnt s + 1) by (unfold sl1; rewrite length_app; simpl; lia).
  assert (Hlk : sl1 !! Z.to_nat (slot_cnt s) = Some (Lazy.mk_slot NULL 1 Lazy.g_none)).
  { unfold sl1. by rewrite <- H2, Nat2Z.id, lookup_app_r, Nat.sub_diag by lia. }
  destruct (slots_store s s' z [] [] (slot_cnt s) 1 t _ sl1 (Lazy.free_head_ z) Hm Hs' Ht Hlk eq_refl) as (sl & Hset & Hst).
  { intros j Hne Hj. unfold sl1. apply lookup_app_l. lia. }
  { unfold Lazy.vec_size. lia. }
  { done. }
  exists (Lazy.mk_slot NULL 1 Lazy.g_none), (Lazy.with_slots sl1 (Lazy.free_head_ z) z), sl.
  unfold Lazy.alloc_slot. rewrite H3. change (Lazy.g_none =? Lazy.g_none) with true. cbn [negb]. fold sl1.
  unfold Lazy.vec_size. replace (u32 (Z.of_nat (length sl1) - 1)) with (slot_cnt s) by (rewrite u32_small by lia; lia).
  split_and!; try done; [apply arr_get_lookup; [lia|done]|]. intros h q n. simpl. rewrite <- H3. apply Hst.
Qed.

Lemma slots_alloc_free s s' z i fl t :
  slots_inv s (i :: fl) -> slots_inv s' fl -> slots_match s z (i :: fl) ->
  slot_taken s s' (tag_index (next_tag s)) (tag_version (next_tag s)) t -> alloc_same s s' z fl t.
Proof.
  intros Hs Hs' Hm Ht. pose proof Hm as [H1 H2 (Hf & x & Hx & Hchain)]. pose proof (si_chain _ _ Hs) as [Hh _].
  destruct (proj1 (si_free _ _ Hs i) ltac:(by left)) as (v & Hv & Hev).
  pose proof (ver_at_bounds _ _ _ Hv) as Hb. pose proof (slots_inv_bound _ _ _ Hs Hb) as Hnone.
  assert (Hnt : next_tag s = mk_tag i (u32 (v + 1))).
  { unfold next_tag. rewrite Hh. destruct (Z.eqb_spec i NTT_TIMER_SLOT_NONE); [lia|]. by rewrite Hv. }
  unfold alloc_same. rewrite Hnt in Ht |- *. simpl in Ht |- *.
  destruct (H1 i v Hv) as (x' & Hx' & Hxv & _). rewrite Hx in Hx'. injection Hx' as <-.
  set (y := Lazy.mk_slot (Lazy.task x) (u32 (Lazy.version x + 1)) (Lazy.next_free x)).
  apply lookup_lt_Some in Hx as Hlt. unfold Lazy.vec_size in H2.
  assert (Hc' : slot_cnt s' = slot_cnt s).
  { apply (slot_cnt_domain s s' (i :: fl) fl); [done|done|]. intros j. rewrite (proj1 (proj2 Ht)). case_decide; [|done].
    subst j. rewrite Hv. split; eauto. }
  assert (Hlk : <[Z.to_nat i := y]> (Lazy.slots_ z) !! Z.to_nat i = Some y) by (by apply list_lookup_insert_eq).
  destruct (slots_store s s' z (i :: fl) fl i (u32 (v + 1)) t y _ (Lazy.next_free x) Hm Hs' Ht Hlk) as (sl & Hset & Hst).
  { simpl. by rewrite Hxv. }
  { intros j Hne Hj. apply list_lookup_insert_ne. lia. }
  { unfold Lazy.vec_size. rewrite length_insert. lia. }
  { eapply slots_chain_frame; [|exact Hchain]. intros j Hj. apply list_lookup_insert_ne.
    pose proof (si_nodup _ _ Hs) as [Hni _]%NoDup_cons.
    destruct (proj1 (si_free _ _ Hs j) ltac:(by right)) as (vj & Hvj & _). pose proof (ver_at_bounds _ _ _ Hvj).
    intros Heq. assert (j = i) as -> by lia. done. }
  exists y, (Lazy.with_slots (<[Z.to_nat i := y]> (Lazy.slots_ z)) (Lazy.next_free x) z), sl.
  unfold Lazy.alloc_slot. rewrite Hf. destruct (Z.eqb_spec i Lazy.g_none); [unfold Lazy.g_none, NTT_TIMER_SLOT_NONE in *; lia|].
  cbn [negb]. rewrite (arr_get_lookup _ _ x), bind_ok by (done || lia). fold y.
  rewrite arr_set_lookup, bind_ok by lia.
  split_and!; try done; [apply arr_get_lookup; [lia|done]|by simpl; rewrite Hxv].
Qed.

(** The slot that the next timer takes. *)
Lemma slots_alloc s s' z fl t :
  slots_inv s fl -> slots_inv s' (tail fl) -> slots_match s z fl ->
  slot_taken s s' (tag_index (next_tag s)) (tag_version (next_tag s)) t -> alloc_same s s' z (tail fl) t.
Proof. destruct fl as [|i fl]; eauto using slots_alloc_new, slots_alloc_free. Qed.
