(* ===== verification/TimerVariantsSame.v ===== *)
(** * Variants of the timer heap: the heap in vectors does the same *)

From stdpp Require Import base numbers list gmap sorting.
From Stdlib Require Import ZArith Lia.
From S2P Require Import Prelude.
From S2P Require Import HeapOrder.
From S2P Require Import TimerHeap.
From S2P Require Import TimerHeapArray.
From S2P Require Import TimerHeapInv.
From S2P Require Import TimerHeapOps.
From S2P Require Import TimerHeapSpec.
From S2P Require Import TimerHeapHost.
From S2P Require Import TimerVariants.
From S2P Require Import TimerVariantsProps.
From S2P Require Import TimerVariantsLazy.
Import Ntt.

#[local] Open Scope Z_scope.

Section same.
Context `{Platform}.
Implicit Types (s : ntt_timer_heap) (z : Lazy.lazy_heap) (l : list ntt_timer_heap_elem) (fl : list Z).

(** Slots are never given up. *)
Definition slots_stay s s' : Prop := forall i, is_Some (ver_at s i) -> is_Some (ver_at s' i).

Lemma slots_stay_frame s s' : heap_frame s s' -> slots_stay s s'.
Proof. intros Hf i. by rewrite (heap_frame_ver s s' i Hf). Qed.

(** ** The vector *)
Lemma lazy_length s z l fl :
  lazy_ok s z l fl -> size s = Z.of_nat (length (Lazy.heap_ z)) /\ Z.of_nat (length (Lazy.heap_ z)) <= 2 ^ 30.
Proof.
  intros Hz. pose proof (timer_size_max _ _ _ (lz_inv _ _ _ _ Hz)) as Hm.
  rewrite (ai_size _ _ (ti_array _ _ _ (lz_inv _ _ _ _ Hz))) in Hm |- *. rewrite (lz_perm _ _ _ _ Hz). unfold MAX_TIMERS in Hm. lia.
Qed.

(** Both have the same entry on top. *)
Lemma root_same s z l fl : lazy_ok s z l fl -> head (Lazy.heap_ z) = head l.
Proof.
  intros Hz. pose proof (lz_perm _ _ _ _ Hz) as Hp. pose proof (lz_inv _ _ _ _ Hz) as Hinv.
  destruct (Lazy.heap_ z) as [|x h] eqn:Hh.
  { apply Permutation_nil_l in Hp as ->. done. }
  destruct l as [|r l]; [by apply Permutation_nil_r in Hp|]. simpl. f_equal.
  assert (Hx : x ∈ r :: l) by (rewrite <- Hp; by left). assert (Hr : r ∈ x :: h) by (rewrite Hp; by left).
  pose proof (lz_order _ _ _ _ Hz) as Ho. rewrite Hh in Ho.
  pose proof (heap_root_min ntt_timer_heap_less (x :: h) x r Ho eq_refl Hr) as H1%less_false.
  pose proof (heap_root_min ntt_timer_heap_less (r :: l) r x (ti_order _ _ _ Hinv) eq_refl Hx) as H2%less_false.
  eapply (NoDup_fmap_eq seq (r :: l)); [apply (li_seqs _ _ (ti_link _ _ _ Hinv))|done|by left|lia].
Qed.

Lemma pop_same s z r l fl :
  lazy_ok s z (r :: l) fl ->
  exists rest h, Lazy.heap_ z = r :: rest /\ Lazy.pop_root (Lazy.heap_ z) = Ok h /\
    (forall l', r :: l ≡ₚ r :: l' -> h ≡ₚ l') /\ heap_ordered ntt_timer_heap_less h.
Proof.
  intros Hz. pose proof (root_same _ _ _ _ Hz) as Hr. destruct (lazy_length _ _ _ _ Hz) as [_ Hlen].
  destruct (Lazy.heap_ z) as [|x rest] eqn:Hh; [done|]. simpl in Hr. injection Hr as ->.
  pose proof (lz_order _ _ _ _ Hz) as Ho. pose proof (lz_perm _ _ _ _ Hz) as Hp. rewrite Hh in Ho, Hp.
  destruct (vec_pop (r :: rest) r rest Ho eq_refl) as (h & Heq & Hperm & Ho'); [lia|].
  exists rest, h. split_and!; [done|done| |done]. intros l' Hl'. apply (Permutation_cons_inv (a := r)). by rewrite <- Hperm, Hp.
Qed.

(** A tombstone leaves from the top. *)
Lemma dead_same s s1 z r l l' fl h :
  lazy_ok s z (r :: l) fl -> array_frame s s1 -> 0 < tombstones s1 ->
  timer_inv (with_tombstones (u32 (tombstones s1 - 1)) s1) l' fl -> h ≡ₚ l' -> heap_ordered ntt_timer_heap_less h ->
  lazy_ok (with_tombstones (u32 (tombstones s1 - 1)) s1)
    (Lazy.with_tombstones (u64 (Lazy.tombstones_ z - 1)) (Lazy.with_heap h z)) l' fl.
Proof.
  intros Hz Hf Hpos Hinv Hp Ho. assert (Ht : tombstones s1 = tombstones s) by (by apply array_frame_tombstones).
  pose proof (tombstones_le _ _ (ti_link _ _ _ (lz_inv _ _ _ _ Hz))) as Hle.
  destruct (lazy_length _ _ _ _ Hz) as [_ Hlen]. rewrite (lz_perm _ _ _ _ Hz) in Hlen.
  split; try done.
  - eapply slots_match_same; [apply (lz_slots _ _ _ _ Hz)|..]; try done; rewrite Hf; done.
  - simpl. rewrite (lz_seq _ _ _ _ Hz). by rewrite Hf.
  - simpl. rewrite (lz_tomb _ _ _ _ Hz), <- Ht, u64_small, u32_small by lia. done.
Qed.

(** ** Reclaiming *)
Lemma drop_same fuel : forall s z l fl,
  lazy_ok s z l fl -> (length l < fuel)%nat ->
  returns (drop_dead_loop fuel s) (fun s' => exists z' l', Lazy.drop_dead_loop fuel z = Ok z' /\
    lazy_ok s' z' l' fl /\ slots_stay s s').
Proof.
  induction fuel as [|fuel IH]; intros s z l fl Hz Hf; [lia|]. cbn [drop_dead_loop Lazy.drop_dead_loop].
  pose proof (lz_inv _ _ _ _ Hz) as Hinv. destruct (lazy_length _ _ _ _ Hz) as [Hsz Hmax].
  destruct l as [|r l].
  { pose proof (lz_perm _ _ _ _ Hz) as Hp. apply Permutation_nil_r in Hp. rewrite Hp in Hsz |- *. rewrite Hsz. simpl.
    exists z, []. split_and!; try done. by intros i. }
  destruct (pop_same _ _ _ _ _ Hz) as (rest & h & Hh & Hpop & Hperm & Ho). rewrite Hh in Hsz |- *.
  destruct (Z.gtb_spec (size s) 0); [|simpl in Hsz; lia].
  rewrite (array_elem_at s (r :: l) 0 r (ti_array _ _ _ Hinv) eq_refl : ntt_timer_heap_elem_at s 0 = _), bind_ok.
  assert (Hver : is_Some (ver_at s (index r))) by (apply (li_elem _ _ (ti_link _ _ _ Hinv)); by left).
  rewrite (elem_live_ok s fl r (ti_slots _ _ _ Hinv) Hver), bind_ok.
  rewrite (live_match _ _ _ _ (lz_slots _ _ _ _ Hz) Hver), bind_ok.
  case_bool_decide as Hl; cbn [negb]; [apply returns_ok; exists z, (r :: l); split_and!; try done; by intros i|].
  rewrite Hh in Hpop. rewrite Hpop, bind_ok.
  eapply returns_bind; [by apply (pop_turn_ok s (r :: l) fl r Hinv)|].
  intros s1 (l' & Hp & Hfr & _ & Hdead & _). destruct (Hdead Hl) as [Hpos Hinv1].
  rewrite c_assert_true, bind_ok by (by destruct (Z.gtb_spec (tombstones s1) 0); [|lia]).
  pose proof (dead_same _ _ _ _ _ _ _ _ Hz Hfr Hpos Hinv1 (Hperm _ Hp) Ho) as Hz1.
  eapply returns_mono; [apply (IH _ _ _ _ Hz1); apply Permutation_length in Hp; simpl in *; lia|].
  intros s' (z' & l2 & Heq & Hz' & Hst). exists z', l2. split_and!; [done|done|]. intros i Hi. apply Hst.
  revert Hi. by apply (slots_stay_frame s s1), array_heap_frame.
Qed.

Lemma compact_same s z l fl :
  lazy_ok s z l fl ->
  returns (ntt_timer_heap_compact s) (fun s' => exists z' l', Lazy.compact_if_needed z = Ok z' /\
    lazy_ok s' z' l' fl /\ slots_stay s s').
Proof.
  intros Hz. pose proof (lz_inv _ _ _ _ Hz) as Hinv. destruct (lazy_length _ _ _ _ Hz) as [Hsz Hmax].
  pose proof (tombstones_le _ _ (ti_link _ _ _ Hinv)) as Hle. rewrite <- (lz_perm _ _ _ _ Hz) in Hle.
  eapply returns_mono; [by apply compact_exact|]. intros s' (l' & (Hinv' & Hfr & _) & Hl').
  assert (Hslots : forall z', Lazy.slots_ z' = Lazy.slots_ z -> Lazy.free_head_ z' = Lazy.free_head_ z -> slots_match s' z' fl).
  { intros z' H1 H2. eapply slots_match_same; [apply (lz_slots _ _ _ _ Hz)|..]; try done; rewrite Hfr; done. }
  assert (Hseq : seq_next s' = seq_next s) by (by rewrite Hfr).
  assert (Htomb : tombstones s' = Z.of_nat (length (filter (fun e => ~ is_live s e) l'))).
  { rewrite (li_tomb _ _ (ti_link _ _ _ Hinv')). f_equal. apply filter_iff_length.
    intros e _. by rewrite (heap_frame_live s s'). }
  assert (Hst : slots_stay s s') by (by apply slots_stay_frame).
  unfold Lazy.compact_if_needed, Lazy.vec_size. rewrite (lz_tomb _ _ _ _ Hz), u64_small, <- Hsz by lia.
  destruct (decide (tombstones s * 2 <= size s)) as [Hfew|Hmany].
  - destruct (Z.leb_spec (tombstones s * 2) (size s)); [|lia]. exists z, l'. split_and!; [done| |done].
    split; try done; [by rewrite Hl', (lz_perm _ _ _ _ Hz)|apply Hz|by apply Hslots|by rewrite (lz_seq _ _ _ _ Hz)|].
    rewrite (lz_tomb _ _ _ _ Hz), Htomb, (li_tomb _ _ (ti_link _ _ _ Hinv)). by rewrite Hl'.
  - destruct (Z.leb_spec (tombstones s * 2) (size s)); [lia|].
    set (a := fun e => bool_decide (is_live s e)).
    destruct (vec_filter a z (Lazy.heap_ z) (S (length (Lazy.heap_ z))) [] []) as (mid & Heq).
    { intros h e He. apply live_match with fl.
      - eapply slots_match_same; [apply (lz_slots _ _ _ _ Hz)|..]; done.
      - apply (li_elem _ _ (ti_link _ _ _ Hinv)). by rewrite <- (lz_perm _ _ _ _ Hz). }
    { lia. }
    { simpl. lia. }
    set (live := filter (fun e => a e = true) (Lazy.heap_ z)) in *.
    assert (Hstart : Lazy.with_heap ([] ++ [] ++ Lazy.heap_ z) z = z) by (by destruct z). rewrite Hstart in Heq.
    rewrite (Heq : Lazy.filter_loop _ z 0 0 = _), bind_ok. simpl Lazy.heap_. rewrite Nat2Z.id, take_app_length.
    assert (Hlive : live ≡ₚ l').
    { rewrite Hl', <- (lz_perm _ _ _ _ Hz). unfold live. rewrite (list_filter_iff _ (is_live s)); [done|].
      intros e. unfold a. by rewrite bool_decide_eq_true. }
    assert (Hll : (length live <= length (Lazy.heap_ z))%nat) by apply length_filter.
    assert (Hbuild : (if Z.of_nat (length live) >? 1 then Lazy.build_loop (Z.to_nat (Z.of_nat (length live) / 2)) live
      else Ok live) = Ok (heapify ntt_timer_heap_less live (length live / 2))).
    { change 2 with (Z.of_nat 2). rewrite <- Nat2Z.inj_div, Nat2Z.id.
      assert (length live / 2 <= length live)%nat by (apply Nat.Div0.div_le_upper_bound; lia).
      destruct (Z.gtb_spec (Z.of_nat (length live)) 1); [apply vec_build; lia|].
      destruct live as [|e [|]]; [done|done|simpl in *; lia]. }
    rewrite Hbuild, bind_ok. exists (Lazy.with_tombstones 0 (Lazy.with_heap (heapify ntt_timer_heap_less live (length live / 2)) z)), l'.
    split_and!; [done| |done]. split; try done.
    + simpl. by rewrite heapify_perm.
    + simpl. apply heapify_ordered; [apply _|apply ordered_from_half].
    + by apply Hslots.
    + simpl. by rewrite (lz_seq _ _ _ _ Hz).
    + simpl. rewrite Htomb, Hl'. symmetry. change 0 with (Z.of_nat 0). f_equal.
      assert (filter (fun e => ~ is_live s e) (filter (is_live s) l) = []) as ->; [|done].
      apply elem_of_nil_inv. intros e [Hn [Hy _]%list_elem_of_filter]%list_elem_of_filter. done.
Qed.

(** ** The class *)
Implicit Types (w : bench ntt_timer_heap) (b : bench Lazy.lazy_heap) (tags : list ntt_timer_tag).

Definition same_timers w b : Prop :=
  b_calls w = b_calls b /\ exists l fl, lazy_ok (b_timers w) (b_timers b) l fl.

Lemma arm_same w b d t :
  same_timers w b -> push_ok (b_timers w) -> t <> NULL ->
  returns (Ntt.arm w d t) (fun '(tag, w') => Z.odd (tag_version tag) = true /\
    is_Some (ver_at (b_timers w') (tag_index tag)) /\ slots_stay (b_timers w) (b_timers w') /\
    exists b', Lazy.arm b d t = Ok (tag, b') /\ same_timers w' b').
Proof.
  intros [Hc (l & fl & Hz)] Hok Ht. pose proof (lz_inv _ _ _ _ Hz) as Hinv. destruct (lazy_length _ _ _ _ Hz) as [Hsz _].
  unfold Ntt.arm, ntt_timer_heap_push. rewrite c_assert_true, bind_ok by (by destruct (Z.eqb_spec t NULL)).
  simpl. rewrite c_assert_true, bind_ok by done.
  eapply returns_bind; [by apply (push_entry_ok _ l fl d t Hinv)|].
  intros [tag s'] (l' & fl' & Hinv' & -> & Hodd & Hvac & Hp & Hver & Htask & Hsq & ->). apply returns_ok.
  split_and!; [done|simpl; rewrite Hver, decide_True by done; eauto| |].
  { intros i Hi. simpl. rewrite Hver. case_decide; [eauto|done]. }
  destruct (slots_alloc (b_timers w) s' (b_timers b) fl t (ti_slots _ _ _ Hinv) (ti_slots _ _ _ Hinv')
    (lz_slots _ _ _ _ Hz) (conj Hodd (conj Hver Htask))) as (x & z1 & sl & Hal & Hget & Hxv & Hset & Hh & Hs & Htb & Hm).
  unfold Lazy.arm. rewrite Hal, bind_ok, Hget, bind_ok, Hset, bind_ok, Hh, Hs, Hxv.
  set (e := mk_elem d (Lazy.seq_ (b_timers b)) _ _). destruct Hok as (Hroom & Hlast & Hfresh). unfold MAX_TIMERS in Hroom.
  destruct (vec_push (Lazy.heap_ (b_timers b)) e (lz_order _ _ _ _ Hz)) as (h & Hsift & Hperm & Ho); [lia|].
  rewrite Hsift, bind_ok. eexists. split; [by destruct (next_tag (b_timers w))|]. split; [done|].
  exists l', (tail fl). split; simpl; try done.
  - rewrite Hperm, Hp, (lz_perm _ _ _ _ Hz). unfold e. by rewrite (lz_seq _ _ _ _ Hz).
  - pose proof (li_next _ _ (ti_link _ _ _ Hinv)) as Hn. unfold UINT64_MAX in *.
    rewrite (lz_seq _ _ _ _ Hz), Hsq, u64_small by lia. done.
  - rewrite Htb, (lz_tomb _ _ _ _ Hz), (li_tomb _ _ (ti_link _ _ _ Hinv)), (li_tomb _ _ (ti_link _ _ _ Hinv')).
    rewrite Hp, filter_cons, decide_False.
    2:{ unfold is_live. simpl. rewrite Hver, decide_True by done. tauto. }
    f_equal. apply filter_iff_length. intros e0 He0. unfold is_live. rewrite Hver. case_decide as Hi; [|done].
    rewrite (entries_eq _ _ (ti_array _ _ _ Hinv)) in Hfresh.
    destruct (li_elem _ _ (ti_link _ _ _ Hinv) e0 He0) as [_ Hodd0]. rewrite Hi. split; intros Hn Heq; apply Hn.
    + exfalso. apply Hfresh, list_elem_of_fmap. exists e0. split; [|done]. injection Heq as Heq.
      destruct (next_tag (b_timers w)). unfold elem_tag. simpl in *. congruence.
    + apply Hvac in Heq. congruence.
Qed.

Lemma cancel_same w b tag tm :
  same_timers w b -> armed (b_timers w) !! tag = Some tm ->
  returns (Ntt.cancel w tag) (fun w' => slots_stay (b_timers w) (b_timers w') /\
    exists b', Lazy.cancel b tag = Ok b' /\ same_timers w' b').
Proof.
  intros [Hc (l & fl & Hz)] Ha. pose proof (lz_inv _ _ _ _ Hz) as Hinv. destruct (lazy_length _ _ _ _ Hz) as [Hsz Hmax].
  destruct (armed_slot _ l fl tag tm Hinv Ha) as (Hv & Hodd & Htk & _). pose proof (ver_at_bounds _ _ _ Hv) as Hi.
  destruct (slot_at_ok _ fl _ (ti_slots _ _ _ Hinv) Hi) as (sl & v & Hat & Hsl & Hslv & Hv' & _).
  assert (v = tag_version tag) as -> by congruence.
  destruct (retire_ok _ l fl _ _ Hinv Hv Hodd) as (s1 & Hfree & Hf & Hinv1 & Hrel).
  set (s2 := with_tombstones (u32 (tombstones s1 + 1)) s1) in *.
  destruct (slots_release (b_timers w) s2 (b_timers b) fl (tag_index tag) (tag_version tag) (ti_slots _ _ _ Hinv)
    (ti_slots _ _ _ Hinv1) (lz_slots _ _ _ _ Hz) Hv Hodd Hrel) as (x & z' & Hget & Hxv & Hxt & Hfz & Hm & Hh & Hs & Htb).
  unfold Ntt.cancel, ntt_timer_heap_cancel, ntt_timer_tag_is_null, Lazy.cancel. simpl th_heap.
  rewrite (c_assert_true (negb _)), bind_ok.
  2:{ destruct (Z.eqb_spec (tag_version tag) 0) as [Hz0|]; [by rewrite Hz0 in Hodd|done]. }
  rewrite c_assert_true, bind_ok by lia. destruct (Z.geb_spec (tag_index tag) (slot_cnt (b_timers w))); [lia|].
  rewrite Hat, bind_ok, Hslv. cbn [defined]. rewrite bind_ok, Z.eqb_refl. rewrite c_assert_true, bind_ok by done. cbn [negb].
  assert (slot_task sl = Some (Lazy.task x)) as -> by (unfold task_at in Hxt; by rewrite Hsl in Hxt).
  cbn [defined]. rewrite bind_ok, Hfree, bind_ok. fold s2. simpl th_task_destroy. rewrite bind_ok.
  rewrite Hget, bind_ok, Hxv, Z.eqb_refl. cbn [negb]. rewrite Hfz, bind_ok.
  assert (Hz2 : lazy_ok s2 (Lazy.with_tombstones (u64 (Lazy.tombstones_ z' + 1)) z') l (tag_index tag :: fl)).
  { pose proof (tombstones_le _ _ (ti_link _ _ _ Hinv)) as Hle. rewrite <- (lz_perm _ _ _ _ Hz) in Hle.
    split; simpl; rewrite ?Hh; try done; [apply Hz|apply Hz|by eapply slots_match_same| |].
    - rewrite Hs, (lz_seq _ _ _ _ Hz). by rewrite Hf.
    - assert (tombstones s1 = tombstones (b_timers w)) as -> by (by rewrite Hf).
      rewrite Htb, (lz_tomb _ _ _ _ Hz), u64_small, u32_small by lia. done. }
  eapply returns_bind; [by apply (compact_same _ _ _ _ Hz2)|].
  intros s3 (z3 & l3 & Heq & Hz3 & Hst). apply returns_ok. split.
  { intros j Hj. apply Hst. destruct Hrel as (Hrv & _). change (is_Some (ver_at s1 j)). rewrite Hrv. case_decide; [eauto|done]. }
  rewrite Heq, bind_ok. eexists. split; [done|].
  split; [simpl; by rewrite Hc|]. by exists l3, (tag_index tag :: fl).
Qed.

(** The timer that runs leaves both. *)
Lemma run_same s s2 z r l l' fl h :
  lazy_ok s z (r :: l) fl -> r :: l ≡ₚ r :: l' -> is_live s r -> timer_inv s2 l' (index r :: fl) ->
  released s s2 (index r) (u32 (version r + 1)) -> seq_next s2 = seq_next s ->
  h ≡ₚ l' -> heap_ordered ntt_timer_heap_less h ->
  exists x z', arr_get (Lazy.slots_ (Lazy.with_heap h z)) (index r) = Ok x /\ task_at s (index r) = Some (Lazy.task x) /\
    Lazy.free_slot (Lazy.with_heap h z) (index r) = Ok z' /\ lazy_ok s2 z' l' (index r :: fl).
Proof.
  intros Hz Hp Hl Hinv2 Hrel Hsq Hperm Ho. pose proof (lz_inv _ _ _ _ Hz) as Hinv.
  assert (Hm : slots_match s (Lazy.with_heap h z) fl) by (eapply slots_match_same; [apply (lz_slots _ _ _ _ Hz)|..]; done).
  destruct (li_elem _ _ (ti_link _ _ _ Hinv) r ltac:(by left)) as [_ Hodd].
  destruct (slots_release s s2 _ fl (index r) (version r) (ti_slots _ _ _ Hinv) (ti_slots _ _ _ Hinv2) Hm Hl Hodd Hrel)
    as (x & z' & Hget & _ & Hxt & Hfz & Hm' & Hh' & Hs' & Htb).
  exists x, z'. split_and!; [done..|]. split; rewrite ?Hh'; try done.
  - rewrite Hs', Hsq. simpl. apply Hz.
  - rewrite Htb. simpl. rewrite (lz_tomb _ _ _ _ Hz), (li_tomb _ _ (ti_link _ _ _ Hinv)), (li_tomb _ _ (ti_link _ _ _ Hinv2)).
    rewrite Hp, filter_cons, decide_False by tauto. f_equal. apply filter_iff_length. intros e He.
    destruct Hrel as (Hrv & _ & Hev). unfold is_live. rewrite Hrv. case_decide as Hi; [|done].
    assert (He' : e ∈ r :: l) by (rewrite Hp; by right).
    destruct (li_elem _ _ (ti_link _ _ _ Hinv) e He') as [_ Hodd']. split; intros Hn Heq; apply Hn; exfalso; [congruence|].
    assert (e = r) as -> by (eapply (link_live_unique _ _ e r (ti_link _ _ _ Hinv)); [done|by left|exact Heq|exact Hl|done]).
    pose proof (li_tags _ _ (ti_link _ _ _ Hinv)) as Hnd. rewrite Hp, fmap_cons in Hnd.
    apply NoDup_cons in Hnd as [Hnd _]. apply Hnd. by apply list_elem_of_fmap_2.
Qed.

Lemma svc_same fuel : forall w b now cnt fuel',
  same_timers w b -> (due now (b_timers w) < fuel)%nat -> (fuel <= fuel')%nat ->
  returns (ntt_timer_heap_svc fuel w now cnt) (fun '(c, w') => slots_stay (b_timers w) (b_timers w') /\
    exists b', Lazy.svc_loop fuel' b now cnt = Ok (c, b') /\ same_timers w' b').
Proof.
  induction fuel as [|fuel IH]; intros w b now cnt fuel' [Hc (l & fl & Hz)] Hdue Hfuel; [lia|].
  destruct fuel' as [|fuel']; [lia|]. cbn [ntt_timer_heap_svc Lazy.svc_loop]. simpl th_heap.
  pose proof (lz_inv _ _ _ _ Hz) as Hinv. destruct (lazy_length _ _ _ _ Hz) as [Hsz Hmax].
  destruct l as [|r l].
  { pose proof (lz_perm _ _ _ _ Hz) as Hp. apply Permutation_nil_r in Hp. rewrite Hp in Hsz |- *. rewrite Hsz. simpl.
    split; [by intros i|]. eexists. split; [done|]. split; [done|]. by exists [], fl. }
  destruct (pop_same _ _ _ _ _ Hz) as (rest & h & Hh & Hpop & Hperm & Ho). rewrite Hh in Hsz, Hpop |- *.
  destruct (Z.eqb_spec (size (b_timers w)) 0); [simpl in Hsz; lia|].
  rewrite (array_elem_at _ (r :: l) 0 r (ti_array _ _ _ Hinv) eq_refl : ntt_timer_heap_elem_at _ 0 = _), bind_ok.
  destruct (Z.gtb_spec (deadline r) now) as [Hgt|Hle], (Z.leb_spec (deadline r) now) as [Hle'|Hgt']; try lia.
  { apply returns_ok. split; [by intros i|]. eexists. split; [done|]. split; [done|]. by exists (r :: l), fl. }
  rewrite Hpop, bind_ok. eapply returns_bind; [by apply (pop_turn_ok _ (r :: l) fl r Hinv)|].
  intros s1 (l' & Hp & Hfr & Hlv & Hdead & Hlive). rewrite Hlv, bind_ok.
  assert (Hver : is_Some (ver_at (b_timers w) (index r))) by (apply (li_elem _ _ (ti_link _ _ _ Hinv)); by left).
  assert (Hm : slots_match (b_timers w) (Lazy.with_heap h (b_timers b)) fl) by (eapply slots_match_same; [apply (lz_slots _ _ _ _ Hz)|..]; done).
  rewrite (live_match _ _ _ _ Hm Hver), bind_ok. case_bool_decide as Hl; cbn [negb].
  - destruct (Hlive Hl) as (sl & t & s2 & Hat & Htk & Hta & _ & Hfree & Hinv2 & Hrel & Hsq).
    rewrite Hat, bind_ok, Htk. cbn [defined]. rewrite bind_ok, Hfree, bind_ok. simpl th_task_svc. rewrite bind_ok.
    simpl th_task_destroy. rewrite bind_ok.
    destruct (turn_live _ (r :: l) l' fl r s2 now Hinv Hp Hl Hle eq_refl Hinv2 Hrel) as [_ Hd].
    destruct (run_same _ _ _ _ _ _ _ _ Hz Hp Hl Hinv2 Hrel Hsq (Hperm _ Hp) Ho) as (x & z' & Hget & Hxt & Hfz & Hz2).
    assert (Lazy.task x = t) as <- by congruence. rewrite Hget, bind_ok, Hfz, bind_ok.
    assert (Hs2 : same_timers (called (CallDrop (Lazy.task x)) (called (CallRun (Lazy.task x)) (with_timers s2 w)))
      (called (CallDrop (Lazy.task x)) (called (CallRun (Lazy.task x)) (with_timers z' b)))).
    { split; [simpl; by rewrite Hc|]. by exists l', (index r :: fl). }
    eapply returns_mono; [apply (IH _ _ now (u64 (cnt + 1)) fuel' Hs2); simpl; lia|].
    intros [c w'] [Hst Hb]. split; [|exact Hb]. intros i Hi. apply Hst. simpl.
    destruct Hrel as (Hrv & _). rewrite Hrv. case_decide; [eauto|done].
  - destruct (Hdead Hl) as [Hpos Hinv1].
    rewrite c_assert_true, bind_ok by (by destruct (Z.gtb_spec (tombstones s1) 0); [|lia]).
    destruct (turn_dead _ (r :: l) l' fl r s1 now Hinv Hp Hfr Hl Hle Hinv1) as [_ Hd].
    pose proof (dead_same _ _ _ _ _ _ _ _ Hz Hfr Hpos Hinv1 (Hperm _ Hp) Ho) as Hz1.
    assert (Hs1 : same_timers (with_timers (with_tombstones (u32 (tombstones s1 - 1)) s1) w) (with_timers _ b))
      by (split; [exact Hc|]; exists l', fl; exact Hz1).
    eapply returns_mono; [apply (IH _ _ now cnt fuel' Hs1); simpl; lia|].
    intros [c w'] [Hst Hb]. split; [|exact Hb]. intros i Hi. apply Hst.
    revert Hi. by apply (slots_stay_frame (b_timers w) s1), array_heap_frame.
Qed.

Lemma peek_same w b :
  same_timers w b ->
  returns (Ntt.peek w) (fun '(d, w') => slots_stay (b_timers w) (b_timers w') /\
    exists b', Lazy.peek b = Ok (d, b') /\ same_timers w' b').
Proof.
  intros [Hc (l & fl & Hz)]. destruct (lazy_length _ _ _ _ Hz) as [Hsz _].
  unfold Ntt.peek, ntt_timer_heap_peek, ntt_timer_heap_drop_dead_root, Lazy.peek, Lazy.drop_dead_root.
  rewrite Hsz, Nat2Z.id. eapply (returns_bind _ _ (fun '(d, s') => slots_stay (b_timers w) s' /\ exists z' l',
    Lazy.drop_dead_loop (S (length (Lazy.heap_ (b_timers b)))) (b_timers b) = Ok z' /\ lazy_ok s' z' l' fl /\
    d = deadline <$> head (Lazy.heap_ z'))).
  - eapply returns_bind; [apply (drop_same _ _ _ _ _ Hz); rewrite (lz_perm _ _ _ _ Hz); lia|].
    intros s' (z' & l' & Heq & Hz' & Hst). destruct (lazy_length _ _ _ _ Hz') as [Hsz' _].
    pose proof (root_same _ _ _ _ Hz') as Hroot. pose proof (lz_perm _ _ _ _ Hz') as Hp. rewrite Hsz', Hp.
    destruct l' as [|r l']; simpl.
    + split; [done|]. exists z', []. split_and!; [done|done|]. by rewrite Hroot.
    + rewrite (array_elem_at _ (r :: l') 0 r (ti_array _ _ _ (lz_inv _ _ _ _ Hz')) eq_refl : ntt_timer_heap_elem_at _ 0 = _), bind_ok.
      apply returns_ok. split; [done|]. exists z', (r :: l'). split_and!; [done|done|]. by rewrite Hroot.
  - intros [d s'] (Hst & z' & l' & Heq & Hz' & ->). apply returns_ok. split; [done|]. rewrite Heq, bind_ok.
    eexists. split; [by destruct (Lazy.heap_ z')|]. split; [done|]. by exists l', fl.
Qed.
(** ** Runs *)

(** The tags of the caller: of timers that were armed, so of slots that exist. *)
Definition known w tags : Prop :=
  Forall (fun tag => Z.odd (tag_version tag) = true /\ is_Some (ver_at (b_timers w) (tag_index tag))) tags.

Lemma known_stay w w' tags : known w tags -> slots_stay (b_timers w) (b_timers w') -> known w' tags.
Proof. intros Hk Hst. eapply Forall_impl; [exact Hk|]. intros tag [Ho Hs]. split; [done|by apply Hst]. Qed.

(** A tag whose timer is gone: the vectors ignore it, the heap asserts that there
    is none, and ignores it too when assertions are compiled out. *)
Lemma stale_same w b tag :
  same_timers w b -> Z.odd (tag_version tag) = true -> is_Some (ver_at (b_timers w) (tag_index tag)) ->
  armed (b_timers w) !! tag = None ->
  Ntt.cancel w tag = (if ndebug then Ok w else Err AssertFailure) /\ Lazy.cancel b tag = Ok b.
Proof.
  intros [Hc (l & fl & Hz)] Hodd [v Hv] Hn. pose proof (lz_inv _ _ _ _ Hz) as Hinv.
  pose proof (ver_at_bounds _ _ _ Hv) as Hi. split.
  - unfold Ntt.cancel. apply cancel_not_armed; [by exists l, fl|done|lia|done].
  - destruct (sm_slot _ _ _ (lz_slots _ _ _ _ Hz) _ _ Hv) as (x & Hx & Hxv & _).
    unfold Lazy.cancel. rewrite (arr_get_lookup _ _ x), bind_ok by (done || lia). rewrite Hxv.
    destruct (Z.eqb_spec v (tag_version tag)) as [->|]; [|done].
    apply (armed_some _ l fl tag Hinv Hodd) in Hv as [? Hs]. congruence.
Qed.

(** How the second may end when the first ends so: alike, unless the first is
    out of memory; when the first fails an assertion, [S] holds. *)
Definition follows {X Y} (S : Prop) (R : X -> Y -> Prop) (x : res X) (y : res Y) : Prop :=
  match x with
  | Ok a => exists v, y = Ok v /\ R a v
  | Err Die => exists bytes, alloc_ok bytes = false
  | Err AssertFailure => S
  | Err OutOfBounds => y = Err OutOfBounds
  | Err _ => False
  end.

Lemma returns_follows {X Y} S (R : X -> Y -> Prop) (x : res X) (y : res Y) :
  returns x (fun a => exists v, y = Ok v /\ R a v) -> follows S R x y.
Proof. by destruct x as [a|[]]. Qed.

Lemma follows_bind {X Y X' Y'} (S S' : Prop) (R : X -> Y -> Prop) (Q : X' -> Y' -> Prop) (x : res X) (y : res Y) f g :
  follows S' R x y -> (S' -> S) ->
  (forall a v, x = Ok a -> y = Ok v -> R a v -> follows S Q (f a) (g v)) -> follows S Q (x ≫= f) (y ≫= g).
Proof.
  intros Hf HS Hk. destruct x as [a|e]; simpl in *.
  - destruct Hf as (v & -> & HR). rewrite bind_ok. by apply Hk.
  - destruct e; try done; first [by apply HS|by rewrite Hf].
Qed.

Definition same_run {O} (x : O * list ntt_timer_tag * bench ntt_timer_heap) (y : O * list ntt_timer_tag * bench Lazy.lazy_heap) : Prop :=
  x.1 = y.1 /\ same_timers x.2 y.2 /\ known x.2 x.1.2.

Lemma due_length now w b : same_timers w b -> (due now (b_timers w) <= length (Lazy.heap_ (b_timers b)))%nat.
Proof.
  intros [_ (l & fl & Hz)]. rewrite (due_eq now _ l fl (lz_inv _ _ _ _ Hz)), <- (lz_perm _ _ _ _ Hz). apply length_filter.
Qed.

(** A debug build is asked to cancel a timer that is not armed any more, after
    the commands [cs1] that both have carried out alike. *)
Definition stale_cancel (cs : list command) tags w b : Prop :=
  ndebug = false /\ exists cs1 k cs2 os tags' tag w' b', cs = cs1 ++ Cancel k :: cs2 /\
    acts cs1 tags w = Ok (os, tags', w') /\ acts cs1 tags b = Ok (os, tags', b') /\ b_calls w' = b_calls b' /\
    tags' !! k = Some tag /\ armed (b_timers w') !! tag = None.

Lemma stale_later c o cs tags tags' w w' b b' :
  act c tags w = Ok (o, tags', w') -> act c tags b = Ok (o, tags', b') ->
  stale_cancel cs tags' w' b' -> stale_cancel (c :: cs) tags w b.
Proof.
  intros Hw Hb (Hd & cs1 & k & cs2 & os & tags2 & tag & w2 & b2 & -> & H1 & H2 & Hc & Hk & Ha).
  split; [done|]. exists (c :: cs1), k, cs2, (o :: os), tags2, tag, w2, b2. cbn [acts].
  rewrite Hw, Hb, !bind_ok, H1, H2, !bind_ok. by split_and!.
Qed.

Lemma act_same c tags w b :
  same_timers w b -> known w tags -> roomy [c] tags w ->
  follows (stale_cancel [c] tags w b) same_run (act c tags w) (act c tags b).
Proof.
  intros Hs Hk [Hroom _]. destruct c as [d t|k|now|]; cbn [act].
  - destruct Hroom as (Hok & Ht & _). apply returns_follows. change (t_arm b d t) with (Lazy.arm b d t).
    eapply returns_bind; [by apply (arm_same w b d t)|]. intros [tag w'] (Hodd & Hi & Hst & b' & -> & Hs').
    apply returns_ok. eexists. split; [done|]. split_and!; [done|done|].
    apply Forall_app. split; [by eapply known_stay|]. by constructor.
  - destruct (tags !! k) as [tag|] eqn:Htag; [|done].
    destruct (proj1 (Forall_lookup _ _) Hk _ _ Htag) as [Hodd Hi].
    change (t_cancel w tag) with (Ntt.cancel w tag). change (t_cancel b tag) with (Lazy.cancel b tag).
    destruct (armed (b_timers w) !! tag) as [tm|] eqn:Ha.
    + apply returns_follows. eapply returns_bind; [by apply (cancel_same w b tag tm)|].
      intros w' (Hst & b' & -> & Hs'). apply returns_ok. eexists. split; [done|]. split_and!; [done|done|].
      by eapply known_stay.
    + destruct (stale_same w b tag Hs Hodd Hi Ha) as [-> ->]. destruct ndebug eqn:Hd.
      2:{ split; [done|]. exists [], k, [], [], tags, tag, w, b. split_and!; try done. apply Hs. }
      rewrite !bind_ok. eexists. split; [done|]. by split_and!.
  - apply returns_follows. change (t_svc b now) with (Lazy.svc_loop (S (length (Lazy.heap_ (b_timers b)))) b now 0).
    eapply returns_bind; [apply (svc_same _ w b now 0 (S (length (Lazy.heap_ (b_timers b)))) Hs (Nat.lt_succ_diag_r _)); apply le_n_S, due_length, Hs|].
    intros [n w'] (Hst & b' & -> & Hs'). apply returns_ok. eexists. split; [done|]. split_and!; [done|done|].
    by eapply known_stay.
  - apply returns_follows. change (t_peek b) with (Lazy.peek b). eapply returns_bind; [by apply (peek_same w b)|].
    intros [d w'] (Hst & b' & -> & Hs'). apply returns_ok. eexists. split; [done|]. split_and!; [done|done|].
    by eapply known_stay.
Qed.

Lemma acts_same cs : forall tags w b,
  same_timers w b -> known w tags -> roomy cs tags w ->
  follows (stale_cancel cs tags w b) same_run (acts cs tags w) (acts cs tags b).
Proof.
  induction cs as [|c cs IH]; intros tags w b Hs Hk Hroom; [eexists; split; [done|]; by split_and!|].
  assert (Hone : roomy [c] tags w).
  { destruct Hroom as [H1 _]. split; [done|]. by destruct (act c tags w) as [[[] ]|]. }
  destruct Hroom as [_ Hrest]. cbn [acts]. eapply follows_bind; [by apply act_same| |].
  { intros (Hd & cs1 & k & cs2 & os & tags' & tag & w' & b' & Heq & Hst). split; [done|].
    exists cs1, k, (cs2 ++ cs), os, tags', tag, w', b'. split; [|exact Hst].
    change (c :: cs) with ([c] ++ cs). by rewrite Heq, <- app_assoc. }
  intros [[o tags'] w'] [[o' its] b'] Heq Heqb (H1 & H2 & H3). simpl in H1, H2, H3. injection H1 as <- <-. rewrite Heq in Hrest.
  eapply follows_bind; [by apply IH|by eapply stale_later|].
  intros [[os tags2] w2] [[os' its2] b2] _ _ (H4 & H5 & H6). simpl in H4, H5, H6.
  injection H4 as <- <-. eexists. split; [done|]. by split_and!.
Qed.

Lemma same_empty : same_timers (mk_bench ntt_timer_heap_init []) (mk_bench (Lazy.mk_lazy [] [] Lazy.g_none 0 0) []).
Proof.
  split; [done|]. exists [], []. split; [apply timer_init_inv|done|apply heap_ordered_nil| |done|done].
  split; [|done|done]. intros i v. by rewrite init_ver.
Qed.

(** The destructor of the vectors drops the task of every live entry. *)
Lemma lazy_destroys s (todo : list ntt_timer_heap_elem) fl : forall b,
  slots_match s (b_timers b) fl -> (forall e, e ∈ todo -> is_Some (ver_at s (index e)) /\ Z.odd (version e) = true) ->
  Lazy.destroy_loop todo b = Ok (mk_bench (b_timers b) (b_calls b ++ (CallDrop <$> armed_tasks s todo))).
Proof.
  unfold armed_tasks. induction todo as [|e todo IH]; intros b Hm He; cbn [Lazy.destroy_loop].
  { simpl. rewrite app_nil_r. by destruct b. }
  destruct (He e ltac:(by left)) as [Hv Hodd]. rewrite (live_match _ _ _ _ Hm Hv), bind_ok, filter_cons.
  assert (He' : forall e, e ∈ todo -> is_Some (ver_at s (index e)) /\ Z.odd (version e) = true) by (intros x Hx; apply He; by right).
  case_bool_decide as Hl; [rewrite decide_True by done|rewrite decide_False by done; by apply IH].
  destruct (sm_slot _ _ _ Hm _ _ Hl) as (x & Hx & _ & Ht). pose proof (ver_at_bounds _ _ _ Hl) as Hb.
  rewrite (arr_get_lookup _ _ x), bind_ok by (done || lia). rewrite IH by done. simpl. rewrite <- app_assoc.
  rewrite (Ht Hodd). done.
Qed.

Lemma destroy_same w b :
  same_timers w b ->
  returns (Ntt.destroy (mk_bench (b_timers w) [])) (fun w' => exists b',
    Lazy.destroy (mk_bench (b_timers b) []) = Ok b' /\ b_calls w' ≡ₚ b_calls b').
Proof.
  intros [_ (l & fl & Hz)]. pose proof (lz_inv _ _ _ _ Hz) as Hinv.
  destruct (ntt_destroys (b_timers w)) as (ts & Hp & Hr); [by exists l, fl|].
  eapply returns_mono; [exact Hr|]. intros w' ->. eexists. split.
  - apply (lazy_destroys (b_timers w) _ fl); [apply Hz|]. intros e He. apply (li_elem _ _ (ti_link _ _ _ Hinv)).
    by rewrite <- (lz_perm _ _ _ _ Hz).
  - simpl. rewrite Hp, <- (armed_tasks_perm _ l fl Hinv). unfold armed_tasks. by rewrite (lz_perm _ _ _ _ Hz).
Qed.

(** C31.  The timer heap and the heap of the benchmark that keeps its entries and
    slots in growing vectors do the same, in debug and in release builds: for any
    timers armed, cancelled, run and asked for, both return the same counts and
    deadlines and call the same tasks in the same order, and the destructors drop
    the same tasks.  Only one thing sets them apart: in a debug build the timer heap
    fails an assertion at a command that cancels a timer that is not armed any
    more, which the vectors ignore; up to that command both have returned and
    called the same. *)
Theorem lazy_heap_same cs :
  roomy cs [] (mk_bench ntt_timer_heap_init []) ->
  follows (stale_cancel cs [] (mk_bench ntt_timer_heap_init []) (mk_bench (Lazy.mk_lazy [] [] Lazy.g_none 0 0) []))
    same_seen (observed (A := ntt_timer_heap) cs) (observed (A := Lazy.lazy_heap) cs).
Proof.
  intros Hroom. unfold observed.
  eapply follows_bind; [exact (acts_same cs [] _ _ same_empty (Forall_nil_2 _) Hroom)|done|].
  intros [[os tags] w] [[os' its] b] _ _ (H1 & Hs & _). simpl in H1, Hs. injection H1 as -> ->. apply returns_follows.
  eapply returns_bind; [exact (destroy_same w b Hs)|]. intros w' (b' & Heq & Hp). apply returns_ok. eexists. split.
  - change (t_destroy (mk_bench (b_timers b) [])) with (Lazy.destroy (mk_bench (b_timers b) [])). by rewrite Heq, bind_ok.
  - split; [simpl; by rewrite (proj1 Hs)|done].
Qed.
End same.

(** ** Witness *)
Module SameExample.
(** A release build. *)
#[local] Instance machine : Platform := {| ndebug := true; alloc_ok := fun _ => true |}.

(** The tag of a timer that ran is used again. *)
Definition stale_session : list command := VariantsExample.session ++ [Cancel 1; Cancel 0; Svc 20].

Lemma stale_session_roomy : roomy stale_session [] (mk_bench ntt_timer_heap_init []).
Proof. apply (bool_decide_eq_true_1 (roomy stale_session [] (mk_bench ntt_timer_heap_init []))). by vm_compute. Qed.

Lemma lazy_heap_same_witness :
  exists seen, observed (A := Lazy.lazy_heap) stale_session = Ok seen /\
    same_seen (VariantsExample.seen.1 ++ [Cancelled; Cancelled; Fired 1],
      VariantsExample.seen.2 ++ [CallRun 64; CallDrop 64], [CallDrop 112; CallDrop 96]) seen.
Proof.
  assert (Hrun : observed (A := ntt_timer_heap) stale_session =
    Ok (VariantsExample.seen.1 ++ [Cancelled; Cancelled; Fired 1], VariantsExample.seen.2 ++ [CallRun 64; CallDrop 64],
        [CallDrop 112; CallDrop 96])) by (by vm_compute).
  pose proof (lazy_heap_same stale_session stale_session_roomy) as Hf. rewrite Hrun in Hf. exact Hf.
Defined.
End SameExample.
