(* ===== verification/QueueHeap.v ===== *)
(** * The heap of queue registrations: data and operations

    Translates [src/queue_heap.c] and [src/queue_heap.h].  The timer service
    keeps one entry per registration of a queue; an entry is a tombstone once
    the timer generation of its queue has moved on.  The generation of the queue
    in a slot of the slab ([ntt_queue_timer_generation] of [ntt_slab_at]) is the
    argument [timer_generation]. *)

From stdpp Require Import base numbers list.
From Stdlib Require Import ZArith Lia.
From S2P Require Import Prelude.

#[local] Open Scope Z_scope.

Definition NTT_QUEUE_HEAP_MIN_CAPACITY : Z := 8.

(** ** Data *)
Record ntt_queue_heap_elem : Type := mk_qelem {
  qe_deadline : Z;
  qe_index : Z;
  qe_generation : Z;
}.

Record ntt_queue_heap : Type := mk_qheap {
  qh_elems : list (option ntt_queue_heap_elem);
  qh_size : Z;
  qh_tombstones : Z;
  qh_capacity : Z;
}.

#[global] Instance qelem_eq_dec : EqDecision ntt_queue_heap_elem.
Proof. solve_decision. Defined.

Definition qh_with_elems a s := mk_qheap a (qh_size s) (qh_tombstones s) (qh_capacity s).
Definition qh_with_size n s := mk_qheap (qh_elems s) n (qh_tombstones s) (qh_capacity s).
Definition qh_with_tombstones n s := mk_qheap (qh_elems s) (qh_size s) n (qh_capacity s).

(** [self->elems[pos]] *)
Definition qh_get (self : ntt_queue_heap) (pos : Z) : res ntt_queue_heap_elem :=
  cell ← arr_get (qh_elems self) pos;
  defined cell.

(** [self->elems[pos] = elem] *)
Definition qh_put (self : ntt_queue_heap) (pos : Z) (elem : ntt_queue_heap_elem) : res ntt_queue_heap :=
  a ← arr_set (qh_elems self) pos (Some elem);
  Ok (qh_with_elems a self).

Definition ntt_queue_heap_less (lhs rhs : ntt_queue_heap_elem) : bool :=
  qe_deadline lhs <? qe_deadline rhs.

Section ops.
Context `{Platform} (timer_generation : Z -> res Z).
Implicit Types (self : ntt_queue_heap) (elem : ntt_queue_heap_elem).

Definition ntt_queue_heap_live elem : res bool :=
  g ← timer_generation (qe_index elem);
  Ok (g =? qe_generation elem).

(** ** Sifting *)
Fixpoint qsift_up_loop (fuel : nat) self (pos : Z) elem : res ntt_queue_heap :=
  match fuel with
  | O => Err OutOfFuel
  | S fuel =>
      if pos >? 0 then
        let parent := u32 (pos - 1) / 2 in
        p ← qh_get self parent;
        if negb (ntt_queue_heap_less elem p) then qh_put self pos elem
        else
          self ← qh_put self pos p;
          qsift_up_loop fuel self parent elem
      else qh_put self pos elem
  end.

Definition ntt_queue_heap_sift_up self (pos : Z) elem : res ntt_queue_heap :=
  qsift_up_loop (S (Z.to_nat pos)) self pos elem.

(** [right < self->size && less(right, left)] *)
Definition qright_first self (left right : Z) : res bool :=
  if right <? qh_size self then
    r ← qh_get self right;
    l ← qh_get self left;
    Ok (ntt_queue_heap_less r l)
  else Ok false.

Fixpoint qsift_down_loop (fuel : nat) self (pos : Z) elem : res ntt_queue_heap :=
  match fuel with
  | O => Err OutOfFuel
  | S fuel =>
      let left := u32 (u32 (pos * 2) + 1) in
      if left >=? qh_size self then qh_put self pos elem
      else
        let right := u32 (left + 1) in
        b ← qright_first self left right;
        let child := if b : bool then right else left in
        c ← qh_get self child;
        if negb (ntt_queue_heap_less c elem) then qh_put self pos elem
        else
          self ← qh_put self pos c;
          qsift_down_loop fuel self child elem
  end.

Definition ntt_queue_heap_sift_down self (pos : Z) elem : res ntt_queue_heap :=
  qsift_down_loop (S (Z.to_nat (qh_size self))) self pos elem.

(** ** Capacity *)
Fixpoint qgrow_loop (fuel : nat) (capacity cnt : Z) : res Z :=
  match fuel with
  | O => Err OutOfFuel
  | S fuel => if capacity <? cnt then qgrow_loop fuel (u32 (capacity * 2)) cnt else Ok capacity
  end.

Definition ntt_queue_heap_reserve self (cnt : Z) : res ntt_queue_heap :=
  if cnt <=? qh_capacity self then Ok self
  else
    let capacity := if qh_capacity self =? 0 then NTT_QUEUE_HEAP_MIN_CAPACITY
                    else qh_capacity self in
    capacity ← qgrow_loop 33 capacity cnt;
    a ← ntt_realloc_or_die None 16 capacity (qh_elems self);
    Ok (mk_qheap a (qh_size self) (qh_tombstones self) capacity).

(** ** Removing entries *)
Definition ntt_queue_heap_pop_root self : res ntt_queue_heap :=
  c_assert (qh_size self >? 0) ;;
  let last := u32 (qh_size self - 1) in
  if last =? 0 then Ok (qh_with_size 0 self)
  else
    elem ← qh_get self last;
    let self := qh_with_size last self in
    ntt_queue_heap_sift_down self 0 elem.

Fixpoint qdrop_dead_loop (fuel : nat) self : res ntt_queue_heap :=
  match fuel with
  | O => Err OutOfFuel
  | S fuel =>
      if qh_size self >? 0 then
        root ← qh_get self 0;
        live ← ntt_queue_heap_live root;
        if live : bool then Ok self
        else
          self ← ntt_queue_heap_pop_root self;
          let self := if qh_tombstones self >? 0
                      then qh_with_tombstones (u32 (qh_tombstones self - 1)) self
                      else self in
          qdrop_dead_loop fuel self
      else Ok self
  end.

Definition ntt_queue_heap_drop_dead_root self : res ntt_queue_heap :=
  qdrop_dead_loop (S (Z.to_nat (qh_size self))) self.

Fixpoint qcompact_filter_loop (fuel : nat) self (out pos : Z) : res (Z * ntt_queue_heap) :=
  match fuel with
  | O => Err OutOfFuel
  | S fuel =>
      if pos <? qh_size self then
        elem ← qh_get self pos;
        live ← ntt_queue_heap_live elem;
        if live : bool then
          self ← qh_put self out elem;
          qcompact_filter_loop fuel self (u32 (out + 1)) (u32 (pos + 1))
        else qcompact_filter_loop fuel self out (u32 (pos + 1))
      else Ok (out, self)
  end.

(** [while (i-- > 0)] *)
Fixpoint qcompact_build_loop (fuel : nat) self (i : Z) : res ntt_queue_heap :=
  match fuel with
  | O => Err OutOfFuel
  | S fuel =>
      if i >? 0 then
        let i := u32 (i - 1) in
        elem ← qh_get self i;
        self ← ntt_queue_heap_sift_down self i elem;
        qcompact_build_loop fuel self i
      else Ok self
  end.

Definition ntt_queue_heap_compact self : res ntt_queue_heap :=
  if u32 (qh_tombstones self * 2) <=? qh_size self then Ok self
  else
    '(out, self) ← qcompact_filter_loop (S (Z.to_nat (qh_size self))) self 0 0;
    let self := qh_with_tombstones 0 (qh_with_size out self) in
    if qh_size self >? 1
    then qcompact_build_loop (S (Z.to_nat (qh_size self))) self (qh_size self / 2)
    else Ok self.

(** ** Public operations *)
Definition ntt_queue_heap_init : ntt_queue_heap := mk_qheap [] 0 0 0.

Fixpoint has_live_loop (fuel : nat) self (pos : Z) : res bool :=
  match fuel with
  | O => Err OutOfFuel
  | S fuel =>
      if pos <? qh_size self then
        elem ← qh_get self pos;
        live ← ntt_queue_heap_live elem;
        if live : bool then Ok true else has_live_loop fuel self (u32 (pos + 1))
      else Ok false
  end.

Definition ntt_queue_heap_has_live self : res bool :=
  has_live_loop (S (Z.to_nat (qh_size self))) self 0.

Definition ntt_queue_heap_deinit self : ntt_queue_heap := ntt_queue_heap_init.

Definition ntt_queue_heap_top self : res (option Z) :=
  if qh_size self =? 0 then Ok None
  else root ← qh_get self 0; Ok (Some (qe_deadline root)).

Definition ntt_queue_heap_push self (i g dl : Z) : res ntt_queue_heap :=
  self ← ntt_queue_heap_reserve self (u32 (qh_size self + 1));
  let pos := qh_size self in
  let self := qh_with_size (u32 (pos + 1)) self in
  ntt_queue_heap_sift_up self pos (mk_qelem dl i g).

Definition ntt_queue_heap_take_expired self (now : Z) :
    res (option ntt_queue_heap_elem * ntt_queue_heap) :=
  self ← ntt_queue_heap_drop_dead_root self;
  if qh_size self =? 0 then Ok (None, self)
  else
    root ← qh_get self 0;
    if qe_deadline root >? now then Ok (None, self)
    else
      self ← ntt_queue_heap_pop_root self;
      Ok (Some root, self).

Definition ntt_queue_heap_retire self (cnt : Z) : res ntt_queue_heap :=
  let self := qh_with_tombstones (u32 (qh_tombstones self + cnt)) self in
  let self := if qh_tombstones self >? qh_size self
              then qh_with_tombstones (qh_size self) self else self in
  ntt_queue_heap_compact self.
End ops.
