(* ===== verification/QueueHeapArray.v ===== *)
(** * The heap of queue registrations: the array algorithms

    The sifts of [queue_heap.c] against the textbook heap of [HeapOrder], the
    growth of the array, and the removal of the root. *)

From stdpp Require Import base numbers list.
From Stdlib Require Import ZArith Lia.
From S2P Require Import Prelude.
From S2P Require Import HeapOrder.
From S2P Require Import QueueHeap.

#[local] Open Scope Z_scope.

#[global] Instance queue_less_order : WeakOrder ntt_queue_heap_less.
Proof.
  split; unfold ntt_queue_heap_less; intros *; repeat case_cmp; intros; try done; lia.
Qed.

(** The largest array the 32-bit capacity can describe. *)
Definition MAX_REGISTRATIONS : Z := 2 ^ 31.

Record queue_array (s : ntt_queue_heap) (l : list ntt_queue_heap_elem) : Prop := {
  qa_cells : exists rest, qh_elems s = (Some <$> l) ++ rest;
  qa_size : qh_size s = Z.of_nat (length l);
  qa_cap : qh_capacity s = Z.of_nat (length (qh_elems s));
  qa_shape : qh_capacity s = 0 \/ exists k, 3 <= k <= 31 /\ qh_capacity s = 2 ^ k;
}.

(** The array with a hole at [pos] that waits for [e]: filling it yields [v]. *)
Definition qholds (s : ntt_queue_heap) (v : list ntt_queue_heap_elem)
    (rest : list (option ntt_queue_heap_elem)) (pos : nat) (e : ntt_queue_heap_elem) : Prop :=
  <[pos := Some e]> (qh_elems s) = (Some <$> v) ++ rest /\
  v !! pos = Some e /\ qh_size s = Z.of_nat (length v) /\ Z.of_nat (length v) <= MAX_REGISTRATIONS.

Section array.
Context `{Platform}.
Implicit Types (s : ntt_queue_heap) (l v : list ntt_queue_heap_elem).

Lemma qh_get_ok s (i : nat) e : qh_elems s !! i = Some (Some e) -> qh_get s (Z.of_nat i) = Ok e.
Proof. intros He. unfold qh_get. by erewrite arr_get_nat by done. Qed.

Lemma qh_put_ok s (i : nat) e :
  (i < length (qh_elems s))%nat ->
  qh_put s (Z.of_nat i) e = Ok (qh_with_elems (<[i := Some e]> (qh_elems s)) s).
Proof. intros Hi. unfold qh_put. by rewrite arr_set_nat. Qed.

Lemma queue_array_get s l (i : nat) e :
  queue_array s l -> l !! i = Some e -> qh_get s (Z.of_nat i) = Ok e.
Proof.
  intros [[rest Hc] _ _ _] He. apply qh_get_ok. rewrite Hc. apply lookup_app_l_Some.
  by rewrite list_lookup_fmap, He.
Qed.

Lemma queue_array_max s l : queue_array s l -> Z.of_nat (length l) <= MAX_REGISTRATIONS.
Proof.
  intros [[rest Hc] _ Hcap Hsh]. rewrite Hc, length_app, length_fmap in Hcap.
  unfold MAX_REGISTRATIONS.
  destruct Hsh as [Hz|(k & Hk & Hp)]; [lia|].
  assert (2 ^ k <= 2 ^ 31) by (apply Z.pow_le_mono_r; lia). lia.
Qed.

Lemma qholds_lookup s v rest pos e i x :
  qholds s v rest pos e -> i <> pos -> v !! i = Some x -> qh_elems s !! i = Some (Some x).
Proof.
  intros (Hc & _) Hne Hx.
  rewrite <- (list_lookup_insert_ne (qh_elems s) pos i (Some e)) by done.
  rewrite Hc. apply lookup_app_l_Some. by rewrite list_lookup_fmap, Hx.
Qed.

Lemma qholds_length s v rest pos e :
  qholds s v rest pos e -> (pos < length v <= length (qh_elems s))%nat.
Proof.
  intros (Hc & Hp & _). apply lookup_lt_Some in Hp.
  apply (f_equal length) in Hc. rewrite length_insert, length_app, length_fmap in Hc. lia.
Qed.

Lemma qholds_move s v rest pos e i x :
  qholds s v rest pos e -> i <> pos -> v !! i = Some x ->
  qholds (qh_with_elems (<[pos := Some x]> (qh_elems s)) s) (swap pos i v) rest i e.
Proof.
  intros Hh Hne Hx. pose proof Hh as (Hc & Hp & Hs & Hm).
  pose proof (qholds_length _ _ _ _ _ Hh). apply lookup_lt_Some in Hx as Hi.
  unfold qholds. simpl. rewrite length_swap, (lookup_swap _ _ _ e x) by done.
  rewrite decide_False, decide_True by done. split_and!; try done.
  rewrite <- (list_insert_insert_eq (qh_elems s) pos (Some x) (Some e)), Hc.
  unfold swap. rewrite Hp, Hx, !list_fmap_insert, list_insert_insert_ne by done.
  rewrite !insert_app_l; rewrite ?length_insert, ?length_fmap; [done|lia..].
Qed.

Lemma qholds_put s v rest pos e :
  qholds s v rest pos e ->
  qh_put s (Z.of_nat pos) e = Ok (qh_with_elems ((Some <$> v) ++ rest) s).
Proof.
  intros Hh. pose proof (qholds_length _ _ _ _ _ Hh). destruct Hh as (Hc & _).
  rewrite qh_put_ok by lia. by rewrite Hc.
Qed.

(** ** Sifting *)
Lemma qsift_up_loop_refines fuel s v rest (pos : nat) e :
  qholds s v rest pos e -> (pos <= fuel)%nat ->
  qsift_up_loop (S fuel) s (Z.of_nat pos) e =
    Ok (qh_with_elems ((Some <$> swim ntt_queue_heap_less fuel v pos) ++ rest) s).
Proof.
  revert s v pos. induction fuel as [|fuel IH]; intros s v pos Hh Hf.
  - assert (pos = O) as -> by lia. simpl. by rewrite (qholds_put _ _ _ O _ Hh).
  - cbn [qsift_up_loop swim]. pose proof Hh as (_ & Hp & Hs & Hm). rewrite Hp.
    destruct (Nat.ltb_spec 0 pos) as [Hpos|Hpos].
    + pose proof (qholds_length _ _ _ _ _ Hh) as Hlen. pose proof (parent_lt pos Hpos).
      destruct (lookup_lt_is_Some_2 v (parent pos)) as [x Hx]; [lia|]. rewrite Hx.
      destruct (Z.gtb_spec (Z.of_nat pos) 0); [|lia].
      replace (u32 (Z.of_nat pos - 1) / 2) with (Z.of_nat (parent pos)).
      2:{ unfold MAX_REGISTRATIONS in *. no_wrap. unfold parent.
          by rewrite Nat2Z.inj_div, Nat2Z.inj_sub by lia. }
      rewrite (qh_get_ok s (parent pos) x) by (eapply qholds_lookup; eauto; lia).
      rewrite bind_ok. simpl. destruct (ntt_queue_heap_less e x); simpl.
      * rewrite qh_put_ok by lia. rewrite bind_ok.
        apply (IH (qh_with_elems _ s)); [|lia]. by eapply qholds_move; eauto; lia.
      * by apply qholds_put.
    + assert (pos = O) as -> by lia. simpl. rewrite (qholds_put _ _ _ O _ Hh).
      by destruct (v !! parent 0).
Qed.

Lemma qright_first_ok s v rest (pos : nat) e (i : nat) x :
  qholds s v rest pos e -> (pos <= i)%nat -> v !! (2 * i + 1)%nat = Some x ->
  qright_first s (Z.of_nat (2 * i + 1)) (Z.of_nat (2 * i + 2)) =
    Ok (bool_decide (min_child ntt_queue_heap_less v i = (2 * i + 2)%nat)).
Proof.
  intros Hh Hle Hx. pose proof Hh as (_ & _ & Hs & _). unfold qright_first, min_child.
  rewrite Hx. destruct (Z.ltb_spec (Z.of_nat (2 * i + 2)) (qh_size s)).
  - destruct (lookup_lt_is_Some_2 v (2 * i + 2)) as [y Hy]; [lia|]. rewrite Hy.
    rewrite (qh_get_ok s (2 * i + 2) y) by (eapply qholds_lookup; eauto; lia).
    rewrite (qh_get_ok s (2 * i + 1) x) by (eapply qholds_lookup; eauto; lia).
    rewrite !bind_ok. destruct (ntt_queue_heap_less y x);
      [by rewrite bool_decide_true | rewrite bool_decide_false; [done|lia]].
  - rewrite lookup_ge_None_2 by lia. rewrite bool_decide_false; [done|lia].
Qed.

Lemma qsift_down_loop_refines fuel s v rest (pos : nat) e :
  qholds s v rest pos e -> (length v <= fuel + pos)%nat ->
  qsift_down_loop (S fuel) s (Z.of_nat pos) e =
    Ok (qh_with_elems ((Some <$> sink ntt_queue_heap_less fuel v pos) ++ rest) s).
Proof.
  revert s v pos. induction fuel as [|fuel IH]; intros s v pos Hh Hf.
  - pose proof (qholds_length _ _ _ _ _ Hh). lia.
  - pose proof (qholds_length _ _ _ _ _ Hh) as Hlen.
    pose proof Hh as (_ & Hp & Hs & Hm). unfold MAX_REGISTRATIONS in Hm.
    remember (S fuel) as f eqn:Ef. cbn [qsift_down_loop]. rewrite Ef. cbn [sink].
    replace (u32 (u32 (Z.of_nat pos * 2) + 1)) with (Z.of_nat (2 * pos + 1))
      by (no_wrap; lia).
    rewrite Hp. destruct (Z.geb_spec (Z.of_nat (2 * pos + 1)) (qh_size s)) as [Hge|Hlt].
    { rewrite (qholds_put _ _ _ _ _ Hh).
      assert (v !! min_child ntt_queue_heap_less v pos = None) as ->; [|done].
      apply lookup_ge_None. destruct (min_child_parent ntt_queue_heap_less v pos) as [H0 H1].
      apply parent_children in H1; lia. }
    replace (u32 (Z.of_nat (2 * pos + 1) + 1)) with (Z.of_nat (2 * pos + 2))
      by (no_wrap; lia).
    destruct (lookup_lt_is_Some_2 v (2 * pos + 1)) as [x Hx]; [lia|].
    rewrite (qright_first_ok _ _ _ _ _ pos x Hh) by (lia || done). rewrite bind_ok.
    destruct (min_child_parent ntt_queue_heap_less v pos) as [Hm0 Hmp].
    pose proof (proj1 (parent_children _ _ Hm0) Hmp) as Hch.
    pose proof (parent_lt _ Hm0) as Hgt. rewrite Hmp in Hgt.
    destruct (min_child_some ntt_queue_heap_less v pos x Hx) as [c Hc].
    set (m := min_child ntt_queue_heap_less v pos) in *.
    replace (if bool_decide (m = (2 * pos + 2)%nat) then Z.of_nat (2 * pos + 2)
             else Z.of_nat (2 * pos + 1)) with (Z.of_nat m) by (case_bool_decide; lia).
    rewrite Hc, (qh_get_ok s m c) by (eapply qholds_lookup; eauto; lia).
    rewrite bind_ok. destruct (ntt_queue_heap_less c e); cbn [negb].
    + rewrite qh_put_ok by lia. rewrite bind_ok, <- Ef.
      apply (IH (qh_with_elems _ s)); [|rewrite length_swap; lia].
      by eapply qholds_move; eauto; lia.
    + by apply qholds_put.
Qed.

Lemma qsift_down_refines s v rest (pos : nat) e :
  qholds s v rest pos e ->
  ntt_queue_heap_sift_down s (Z.of_nat pos) e =
    Ok (qh_with_elems ((Some <$> sink ntt_queue_heap_less (length v) v pos) ++ rest) s).
Proof.
  intros Hh. unfold ntt_queue_heap_sift_down. rewrite (proj1 (proj2 (proj2 Hh))), Nat2Z.id.
  apply qsift_down_loop_refines; [done|lia].
Qed.

(** ** Capacity *)
Lemma qgrow_loop_pow2 fuel k m cnt :
  0 <= k <= m -> m <= 31 -> cnt <= 2 ^ m -> m - k < Z.of_nat fuel ->
  exists j, k <= j <= m /\ qgrow_loop fuel (2 ^ k) cnt = Ok (2 ^ j) /\ cnt <= 2 ^ j.
Proof.
  revert k. induction fuel as [|fuel IH]; intros k Hk Hm Hcnt Hf; [lia|]. simpl.
  destruct (Z.ltb_spec (2 ^ k) cnt) as [Hlt|Hge].
  - assert (k < m) by (apply (Z.pow_lt_mono_r_iff 2); lia).
    replace (2 ^ k * 2) with (2 ^ (k + 1)) by (rewrite Z.pow_add_r; lia).
    assert (2 ^ (k + 1) <= 2 ^ 31) by (apply Z.pow_le_mono_r; lia).
    rewrite u32_small by (pose proof (Z.pow_nonneg 2 (k + 1)); lia).
    destruct (IH (k + 1)) as (j & Hj & -> & Hle); [lia..|]. exists j. split_and!; [lia|lia|done|done].
  - exists k. split_and!; [lia|lia|done|done].
Qed.

Lemma qreserve_ok s l cnt :
  queue_array s l -> Z.of_nat (length l) <= cnt <= MAX_REGISTRATIONS ->
  returns (ntt_queue_heap_reserve s cnt) (fun s' =>
    queue_array s' l /\ cnt <= qh_capacity s' /\ qh_tombstones s' = qh_tombstones s).
Proof.
  intros Hinv Hcnt. unfold ntt_queue_heap_reserve, MAX_REGISTRATIONS in *.
  destruct (Z.leb_spec cnt (qh_capacity s)); [by apply returns_ok|].
  pose proof Hinv as [[rest Hc] Hs Hcap Hsh].
  assert (exists k, 3 <= k <= 31 /\
    (if qh_capacity s =? 0 then NTT_QUEUE_HEAP_MIN_CAPACITY else qh_capacity s) = 2 ^ k)
    as (k & Hk & ->).
  { destruct Hsh as [->|(k & Hk & ->)]; [by exists 3|]. exists k. split; [done|].
    pose proof (Z.pow_pos_nonneg 2 k). case_cmp; lia. }
  destruct (qgrow_loop_pow2 33 k 31 cnt) as (j & Hj & -> & Hle); [lia..|]. rewrite bind_ok.
  unfold ntt_realloc_or_die. destruct (alloc_ok (16 * 2 ^ j)) eqn:Hal; [|simpl; eauto].
  rewrite bind_ok. apply returns_ok. split_and!; [|done|done]. split; simpl; [|done| |].
  - rewrite Hc. apply realloc_cells_prefix. rewrite length_fmap. lia.
  - rewrite length_realloc_cells; [done|apply Z.pow_nonneg; lia].
  - right. exists j. split; [lia|done].
Qed.

(** ** Dropping the root *)
Lemma qpop_root_ok s l r :
  queue_array s l -> heap_ordered ntt_queue_heap_less l -> l !! O = Some r ->
  exists s' l', ntt_queue_heap_pop_root s = Ok s' /\ queue_array s' l' /\ l ≡ₚ r :: l' /\
    heap_ordered ntt_queue_heap_less l' /\ qh_tombstones s' = qh_tombstones s.
Proof.
  intros Hinv Ho Hr. destruct l as [|r' l1]; simplify_eq/=.
  pose proof (queue_array_max _ _ Hinv) as Hmax. unfold MAX_REGISTRATIONS in Hmax.
  pose proof Hinv as [[rest Hc] Hs Hcl Hsh].
  unfold ntt_queue_heap_pop_root. simpl in *. assert_ok. no_wrap.
  destruct (list_eq_nil_dec l1) as [->|Hne]; simpl in *.
  - destruct (Z.eqb_spec (qh_size s - 1) 0); [|lia].
    exists (qh_with_size 0 s), []. split_and!; [done| |done|apply heap_ordered_nil|done].
    split; simpl; [by exists (qh_elems s)|done..].
  - destruct (exists_last Hne) as (mid & x & ->). rewrite length_app in *. simpl in *.
    destruct (Z.eqb_spec (qh_size s - 1) 0); [lia|].
    replace (qh_size s - 1) with (Z.of_nat (S (length mid))) by lia.
    rewrite (queue_array_get s (r :: mid ++ [x]) _ x Hinv)
      by (simpl; by rewrite list_lookup_middle). rewrite bind_ok.
    rewrite (qsift_down_refines _ (x :: mid) (Some x :: rest) O x).
    2:{ split_and!; simpl; [|done|lia|unfold MAX_REGISTRATIONS; lia].
        rewrite Hc. simpl. by rewrite fmap_app, <- app_assoc. }
    set (l' := sink _ _ _ _).
    assert (Hlen : length l' = S (length mid)) by (unfold l'; by rewrite length_sink).
    eexists _, l'. split_and!; [done| | | |done].
    + split; simpl; [eauto|by rewrite Hlen| |done].
      rewrite Hcl, Hc. simpl. rewrite !length_app, !length_fmap, length_app, Hlen. simpl. lia.
    + rewrite <- Permutation_cons_append. unfold l'. by rewrite sink_perm.
    + apply sink_ordered; [apply _|simpl; lia|].
      apply (down_inv_root ntt_queue_heap_less (r :: mid) x).
      eapply heap_ordered_prefix. simpl. exact Ho.
Qed.
End array.
