(* ===== verification/QueueHeapSpec.v ===== *)
(** * The heap of queue registrations: specification

    The registrations that stand are the entries whose generation is still the
    one of their queue.  The operations are specified by what they do to this
    multiset, whatever tombstones the array holds. *)

From stdpp Require Import base numbers list.
From Stdlib Require Import ZArith Lia.
From S2P Require Import Prelude.
From S2P Require Import HeapOrder.
From S2P Require Import QueueHeap.
From S2P Require Import QueueHeapArray.

#[local] Open Scope Z_scope.

Definition qentries (s : ntt_queue_heap) : list ntt_queue_heap_elem :=
  omap id (take (Z.to_nat (qh_size s)) (qh_elems s)).

Lemma qentries_eq s l : queue_array s l -> qentries s = l.
Proof.
  intros [[rest Hc] Hsz _ _]. unfold qentries. rewrite Hsz, Hc, Nat2Z.id.
  rewrite take_app_length' by (by rewrite length_fmap).
  clear. induction l as [|e l IH]; [done|]. simpl. f_equal. apply IH.
Qed.

Section spec.
Context `{Platform} (timer_generation : Z -> res Z).
Implicit Types (s : ntt_queue_heap) (e : ntt_queue_heap_elem) (l : list ntt_queue_heap_elem).

(** The slot of an entry can be looked at. *)
Definition resolves (i : Z) : Prop := exists g, timer_generation i = Ok g.

Definition stands (e : ntt_queue_heap_elem) : Prop :=
  timer_generation (qe_index e) = Ok (qe_generation e).

#[global] Instance stands_dec e : Decision (stands e).
Proof.
  unfold stands. destruct (timer_generation (qe_index e)) as [g|f]; [|by right].
  destruct (decide (g = qe_generation e)) as [->|Hne]; [by left|right; congruence].
Defined.

Record queue_inv s l : Prop := {
  qi_array : queue_array s l;
  qi_order : heap_ordered ntt_queue_heap_less l;
  qi_known : forall e, e ∈ l -> resolves (qe_index e);
}.

Definition queue_wf s : Prop := exists l, queue_inv s l.

(** The registrations that stand. *)
Definition registrations s : list ntt_queue_heap_elem := filter stands (qentries s).

Lemma registrations_eq s l : queue_inv s l -> registrations s = filter stands l.
Proof. intros [Ha _ _]. unfold registrations. by rewrite (qentries_eq _ _ Ha). Qed.

Lemma queue_live_ok e :
  resolves (qe_index e) -> ntt_queue_heap_live timer_generation e = Ok (bool_decide (stands e)).
Proof.
  intros [g Hg]. unfold ntt_queue_heap_live.
  assert (Hs : stands e <-> g = qe_generation e) by (unfold stands; rewrite Hg; naive_solver).
  rewrite Hg, bind_ok. f_equal. destruct (Z.eqb_spec g (qe_generation e)); symmetry;
    [apply bool_decide_eq_true|apply bool_decide_eq_false]; tauto.
Qed.

Lemma queue_inv_known_perm l l' x :
  (forall e, e ∈ l -> resolves (qe_index e)) -> l ≡ₚ x :: l' ->
  forall e, e ∈ l' -> resolves (qe_index e).
Proof. intros Hk Hp e He. apply Hk. rewrite Hp. by right. Qed.

Lemma queue_less_false x y : ntt_queue_heap_less x y = false <-> qe_deadline y <= qe_deadline x.
Proof. unfold ntt_queue_heap_less. case_cmp; split; intros; try done; lia. Qed.

Lemma queue_root_least s l r e :
  queue_inv s l -> l !! O = Some r -> e ∈ l -> qe_deadline r <= qe_deadline e.
Proof.
  intros [_ Ho _] Hr He. apply queue_less_false.
  by apply (heap_root_min ntt_queue_heap_less l r e).
Qed.

Lemma queue_inv_tombstones s l n : queue_inv s l -> queue_inv (qh_with_tombstones n s) l.
Proof. intros [Ha Ho Hk]. split; [|done|done]. by destruct Ha; split. Qed.

(** ** Dropping tombstones from the top *)
Lemma qdrop_dead_loop_ok fuel s l :
  queue_inv s l -> (length l < fuel)%nat ->
  exists s' l', qdrop_dead_loop timer_generation fuel s = Ok s' /\ queue_inv s' l' /\
    filter stands l ≡ₚ filter stands l' /\ (forall e, e ∈ l' -> e ∈ l) /\
    (l' = [] \/ exists r, l' !! O = Some r /\ stands r).
Proof.
  revert s l. induction fuel as [|fuel IH]; intros s l Hinv Hf; [lia|]. cbn [qdrop_dead_loop].
  pose proof Hinv as [Ha Ho Hk]. pose proof (qa_size _ _ Ha) as Hsz.
  destruct (Z.gtb_spec (qh_size s) 0) as [Hpos|Hpos].
  2:{ exists s, l. split_and!; [done..|left]. destruct l; [done|simpl in Hsz; lia]. }
  destruct (lookup_lt_is_Some_2 l 0) as [r Hr]; [lia|].
  rewrite (queue_array_get s l 0 r Ha Hr : qh_get s 0 = _), bind_ok.
  rewrite queue_live_ok by (apply Hk; by eapply list_elem_of_lookup_2). rewrite bind_ok.
  case_bool_decide as Hlive.
  { exists s, l. split_and!; [done..|right; eauto]. }
  destruct (qpop_root_ok s l r Ha Ho Hr) as (s1 & l1 & -> & Ha1 & Hp & Ho1 & _). rewrite bind_ok.
  assert (Hinv1 : queue_inv s1 l1) by (split; [done|done|by eapply queue_inv_known_perm]).
  set (s2 := if qh_tombstones s1 >? 0 then _ else s1).
  assert (Hinv2 : queue_inv s2 l1) by (unfold s2; case_match; [by apply queue_inv_tombstones|done]).
  destruct (IH s2 l1 Hinv2) as (s' & l' & -> & Hinv' & Hreg & Hsub & Hend).
  { apply Permutation_length in Hp. simpl in Hp. lia. }
  exists s', l'. split_and!; [done|done| | |done].
  - rewrite Hp, filter_cons, decide_False; done.
  - intros e He. rewrite Hp. right. by apply Hsub.
Qed.

Lemma qdrop_dead_root_ok s l :
  queue_inv s l ->
  exists s' l', ntt_queue_heap_drop_dead_root timer_generation s = Ok s' /\ queue_inv s' l' /\
    filter stands l ≡ₚ filter stands l' /\ (forall e, e ∈ l' -> e ∈ l) /\
    (l' = [] \/ exists r, l' !! O = Some r /\ stands r).
Proof.
  intros Hinv. apply qdrop_dead_loop_ok; [done|]. rewrite (qa_size _ _ (qi_array _ _ Hinv)). lia.
Qed.

(** ** Bulk reclamation *)
Lemma qcompact_filter_ok s todo : forall fuel kept mid rest,
  (forall e, e ∈ todo -> resolves (qe_index e)) ->
  qh_size s = Z.of_nat (length kept + length mid + length todo) -> qh_size s < 2 ^ 32 ->
  (length todo < fuel)%nat ->
  exists mid',
    qcompact_filter_loop timer_generation fuel
      (qh_with_elems ((Some <$> kept) ++ mid ++ (Some <$> todo) ++ rest) s)
      (Z.of_nat (length kept)) (Z.of_nat (length kept + length mid)) =
    Ok (Z.of_nat (length (kept ++ filter stands todo)),
        qh_with_elems ((Some <$> kept ++ filter stands todo) ++ mid' ++ rest) s) /\
    length ((Some <$> kept ++ filter stands todo) ++ mid') =
      (length kept + length mid + length todo)%nat.
Proof.
  induction todo as [|e todo IH]; intros fuel kept mid rest Hk Hsz Hmax Hf;
    (destruct fuel as [|fuel]; [simpl in Hf; lia|]); cbn [qcompact_filter_loop].
  - rewrite (proj2 (Z.ltb_ge _ _)) by (simpl in *; lia). exists mid. simpl.
    rewrite app_nil_r, length_app, length_fmap. split; [done|lia].
  - simpl in Hsz, Hf. set (h := _ ++ mid ++ _).
    assert (Hat : h !! (length kept + length mid)%nat = Some (Some e)).
    { unfold h. rewrite lookup_app_r; rewrite length_fmap; [|lia].
      rewrite lookup_app_r by lia. by replace (_ - _ - _)%nat with O by lia. }
    rewrite (proj2 (Z.ltb_lt _ _)) by (simpl; lia).
    rewrite (qh_get_ok (qh_with_elems h s) _ e) by done. rewrite bind_ok.
    rewrite queue_live_ok by (apply Hk; by left). rewrite bind_ok.
    assert (Hnext : u32 (Z.of_nat (length kept + length mid) + 1) =
      Z.of_nat (length kept + (length mid + 1))) by (no_wrap; lia).
    assert (Hk' : forall e', e' ∈ todo -> resolves (qe_index e'))
      by (intros e' He'; apply Hk; by right).
    rewrite filter_cons. destruct (decide (stands e)) as [Hl|Hl].
    + rewrite bool_decide_true by done.
      assert (exists m mid2, mid ++ [Some e] = m :: mid2 /\ length mid2 = length mid)
        as (m & mid2 & Hm & Hm2).
      { destruct mid as [|m mid]; [by exists (Some e), []|].
        exists m, (mid ++ [Some e]). split; [done|]. rewrite length_app. simpl. lia. }
      rewrite qh_put_ok, bind_ok
        by (unfold h; simpl; rewrite length_app, length_fmap, length_app; simpl; lia).
      rewrite Hnext. replace (u32 (Z.of_nat (length kept) + 1)) with
        (Z.of_nat (length (kept ++ [e]))) by (rewrite length_app; simpl; no_wrap; lia).
      destruct (IH fuel (kept ++ [e]) mid2 rest) as (mid' & Heq & Hlen);
        [done|rewrite length_app; simpl; lia|lia|lia|].
      exists mid'. rewrite <- app_assoc in Heq, Hlen. simpl in Heq, Hlen. split.
      * rewrite <- Heq. f_equal.
        -- simpl. unfold qh_with_elems. simpl. f_equal. unfold h.
           rewrite <- (length_fmap Some kept), insert_app_r_alt, Nat.sub_diag by lia.
           rewrite fmap_app, fmap_cons.
           change (Some e :: (Some <$> todo)) with ([Some e] ++ (Some <$> todo)).
           by rewrite <- !app_assoc, (app_assoc mid), Hm.
        -- rewrite length_app. simpl. f_equal. lia.
      * rewrite Hlen, length_app. simpl. lia.
    + rewrite bool_decide_false by done. rewrite Hnext.
      destruct (IH fuel kept (mid ++ [Some e]) rest) as (mid' & Heq & Hlen);
        [done|rewrite length_app; simpl; lia|lia|lia|].
      exists mid'. rewrite (length_app mid) in Heq, Hlen. simpl in Heq, Hlen. split.
      * rewrite <- Heq. f_equal. unfold qh_with_elems. simpl. f_equal. unfold h.
        by rewrite <- app_assoc.
      * rewrite Hlen. simpl; lia.
Qed.

Lemma qcompact_build_ok rest (i : nat) : forall fuel s l,
  qh_elems s = (Some <$> l) ++ rest -> qh_size s = Z.of_nat (length l) ->
  qh_size s <= MAX_REGISTRATIONS -> (i <= length l)%nat -> (i < fuel)%nat ->
  qcompact_build_loop fuel s (Z.of_nat i) =
    Ok (qh_with_elems ((Some <$> heapify ntt_queue_heap_less l i) ++ rest) s).
Proof.
  induction i as [|i IH]; intros fuel s l Hh Hsz Hmax Hi Hf;
    (destruct fuel as [|fuel]; [lia|]); cbn [qcompact_build_loop].
  - simpl. rewrite <- Hh. by destruct s.
  - destruct (Z.gtb_spec (Z.of_nat (S i)) 0); [|lia]. unfold MAX_REGISTRATIONS in Hmax.
    replace (u32 (Z.of_nat (S i) - 1)) with (Z.of_nat i) by (no_wrap; lia).
    destruct (lookup_lt_is_Some_2 l i) as [e He]; [lia|].
    assert (Hcell : qh_elems s !! i = Some (Some e)).
    { rewrite Hh. apply lookup_app_l_Some. by rewrite list_lookup_fmap, He. }
    rewrite (qh_get_ok s i e) by done. rewrite bind_ok.
    rewrite (qsift_down_refines s l rest i e), bind_ok.
    2:{ split_and!; [by rewrite list_insert_id|done|done|unfold MAX_REGISTRATIONS; lia]. }
    rewrite (IH fuel _ (sink ntt_queue_heap_less (length l) l i));
      rewrite ?length_sink; auto; lia.
Qed.

(** The build loop is also right for the sizes 0 and 1, where it is skipped. *)
Lemma qcompact_rebuild_ok s l rest :
  qh_elems s = (Some <$> l) ++ rest -> qh_size s = Z.of_nat (length l) ->
  qh_size s <= MAX_REGISTRATIONS ->
  (if qh_size s >? 1 then qcompact_build_loop (S (Z.to_nat (qh_size s))) s (qh_size s / 2)
   else Ok s) =
    Ok (qh_with_elems ((Some <$> heapify ntt_queue_heap_less l (length l / 2)) ++ rest) s).
Proof.
  intros Hc Hsz Hmax. rewrite Hsz, Nat2Z.id. change 2 with (Z.of_nat 2). rewrite <- Nat2Z.inj_div.
  assert (length l / 2 <= length l)%nat by (apply Nat.Div0.div_le_upper_bound; lia).
  destruct (Z.gtb_spec (Z.of_nat (length l)) 1).
  - apply qcompact_build_ok; auto; lia.
  - destruct l as [|e [|]]; [| |simpl in *; lia]; simpl in *; rewrite <- Hc; by destruct s.
Qed.

Lemma qcompact_ok s l :
  queue_inv s l ->
  exists s' l', ntt_queue_heap_compact timer_generation s = Ok s' /\ queue_inv s' l' /\
    filter stands l ≡ₚ filter stands l' /\
    ((s' = s /\ u32 (qh_tombstones s * 2) <= qh_size s) \/ (qh_tombstones s' = 0 /\ l' ≡ₚ filter stands l)).
Proof.
  intros Hinv. pose proof Hinv as [Ha Ho Hk]. pose proof (qa_size _ _ Ha) as Hsz.
  pose proof (queue_array_max _ _ Ha) as Hmax. unfold MAX_REGISTRATIONS in Hmax.
  unfold ntt_queue_heap_compact.
  destruct (Z.leb_spec (u32 (qh_tombstones s * 2)) (qh_size s)) as [Hfew|Hmany].
  { exists s, l. split_and!; [done..|by left]. }
  pose proof (qa_cells _ _ Ha) as [rest Hcells].
  destruct (qcompact_filter_ok s l (S (Z.to_nat (qh_size s))) [] [] rest) as (mid & Heq & Hlen);
    [done|simpl; lia|lia|lia|].
  cbn -[qcompact_filter_loop] in Heq. change (Z.of_nat 0) with 0 in Heq. simpl in Hlen.
  replace (qh_with_elems _ s) with s in Heq by (rewrite <- Hcells; by destruct s).
  rewrite Heq, bind_ok. clear Heq. set (live := filter stands l) in *.
  assert (Hle : (length live <= length l)%nat) by apply length_filter.
  cbv zeta. set (s1 := qh_with_tombstones 0 _).
  rewrite (qcompact_rebuild_ok s1 live (mid ++ rest));
    [|done|done|cbn [qh_size s1 qh_with_tombstones qh_with_size]; unfold MAX_REGISTRATIONS; lia].
  set (l' := heapify _ _ _). assert (Hperm : l' ≡ₚ live) by apply heapify_perm.
  assert (Hff : filter stands live = live) by (by apply list_filter_filter_r).
  eexists _, l'. split_and!; [done| | |by right].
  - split; [split; simpl; [eauto|by rewrite Hperm| |apply Ha]| |].
    + rewrite (qa_cap _ _ Ha), Hcells, !length_app, !length_fmap, Hperm.
      rewrite length_app, length_fmap in Hlen. lia.
    + apply heapify_ordered; [apply _|]. apply ordered_from_half.
    + intros e He. apply Hk. rewrite Hperm in He. by apply list_elem_of_filter in He as [_ ?].
  - by rewrite Hperm, Hff.
Qed.

(** ** The search for a standing registration *)
Lemma has_live_loop_ok s l : queue_inv s l -> forall todo fuel,
  (exists pre, l = pre ++ todo) -> (length todo < fuel)%nat ->
  has_live_loop timer_generation fuel s (Z.of_nat (length l - length todo)) =
    Ok (negb (bool_decide (filter stands todo = []))).
Proof.
  intros Hinv. pose proof Hinv as [Ha _ Hk]. pose proof (qa_size _ _ Ha) as Hsz.
  pose proof (queue_array_max _ _ Ha) as Hmax. unfold MAX_REGISTRATIONS in Hmax.
  induction todo as [|e todo IH]; intros fuel [pre Hpre] Hf;
    (destruct fuel as [|fuel]; [simpl in Hf; lia|]); cbn [has_live_loop].
  - by rewrite (proj2 (Z.ltb_ge _ _)) by (simpl; lia).
  - assert (Hlen : length l = (length pre + S (length todo))%nat) by (by rewrite Hpre, length_app).
    replace (length l - length (e :: todo))%nat with (length pre) by (simpl; lia).
    assert (He : l !! length pre = Some e) by (rewrite Hpre; by apply list_lookup_middle).
    rewrite (proj2 (Z.ltb_lt _ _)) by lia. rewrite (queue_array_get s l _ e Ha He), bind_ok.
    rewrite queue_live_ok by (apply Hk; by eapply list_elem_of_lookup_2). rewrite bind_ok.
    rewrite filter_cons. destruct (decide (stands e)) as [Hst|Hst];
      [by rewrite (bool_decide_true (stands e))|rewrite (bool_decide_false (stands e)) by done].
    replace (u32 (Z.of_nat (length pre) + 1)) with (Z.of_nat (length l - length todo))
      by (no_wrap; lia).
    apply IH; [exists (pre ++ [e]); by rewrite <- app_assoc|simpl in Hf; lia].
Qed.

(** ** The public operations, in terms of the entries *)
Lemma qpush_ok s l i g dl :
  queue_inv s l -> qh_size s < MAX_REGISTRATIONS -> resolves i ->
  returns (ntt_queue_heap_push s i g dl) (fun s' =>
    exists l', queue_inv s' l' /\ l' ≡ₚ mk_qelem dl i g :: l).
Proof.
  intros [Ha Ho Hk] Hroom Hi. pose proof (qa_size _ _ Ha) as Hsz.
  unfold ntt_queue_heap_push, MAX_REGISTRATIONS in *. no_wrap.
  eapply returns_bind; [apply (qreserve_ok s l); [done|unfold MAX_REGISTRATIONS; lia]|].
  intros s1 (Ha1 & Hcap & _). pose proof Ha1 as [[rest Hc] Hs1 Hcl Hsh].
  rewrite Hs1, <- Hsz in *. no_wrap. rewrite Hsz. set (e := mk_qelem dl i g).
  destruct rest as [|c rest].
  { rewrite app_nil_r in Hc. rewrite Hcl, Hc, length_fmap in Hcap. lia. }
  unfold ntt_queue_heap_sift_up. rewrite Nat2Z.id.
  rewrite (qsift_up_loop_refines _ _ (l ++ [e]) rest (length l) e); [| |lia].
  2:{ unfold qholds. cbn [qh_elems qh_size qh_with_size].
      rewrite Hc, <- (length_fmap Some l) at 1. rewrite insert_app_r_alt, Nat.sub_diag by lia.
      rewrite fmap_app, <- app_assoc, length_app, list_lookup_middle by done.
      split_and!; [done|done|simpl; lia|simpl; unfold MAX_REGISTRATIONS; lia]. }
  set (l' := swim _ _ _ _). assert (Hp : l' ≡ₚ l ++ [e]) by apply swim_perm.
  apply returns_ok. exists l'. split; [|by rewrite Hp, Permutation_app_comm].
  split; [split; simpl; [eauto| | |done]| |].
  - rewrite Hp, length_app. simpl. lia.
  - rewrite Hcl, Hc, !length_app, !length_fmap, Hp, length_app. simpl. lia.
  - apply swim_ordered; [apply _|done|]. by apply up_inv_app.
  - intros x Hx. rewrite Hp, elem_of_app, list_elem_of_singleton in Hx.
    destruct Hx as [Hx| ->]; [by apply Hk|exact Hi].
Qed.

Lemma qtake_expired_ok s l now :
  queue_inv s l ->
  exists o s' l', ntt_queue_heap_take_expired timer_generation s now = Ok (o, s') /\
    queue_inv s' l' /\ (forall e, e ∈ l' -> e ∈ l) /\
    match o with
    | Some e => filter stands l ≡ₚ e :: filter stands l' /\ qe_deadline e <= now /\
        (forall e', e' ∈ filter stands l -> qe_deadline e <= qe_deadline e')
    | None => filter stands l ≡ₚ filter stands l' /\ forall e, e ∈ filter stands l -> now < qe_deadline e
    end.
Proof.
  intros Hinv. unfold ntt_queue_heap_take_expired.
  destruct (qdrop_dead_root_ok s l Hinv) as (s1 & l1 & -> & Hinv1 & Hreg & Hsub & Hend). rewrite bind_ok.
  pose proof Hinv1 as [Ha1 Ho1 Hk1]. pose proof (qa_size _ _ Ha1) as Hsz1.
  destruct Hend as [->|(r & Hr & Hst)].
  { rewrite Hsz1. exists None, s1, []. split_and!; [done|done|done|done|].
    intros e He. rewrite Hreg in He. by apply elem_of_nil in He. }
  assert (Hleast : forall e, e ∈ filter stands l -> qe_deadline r <= qe_deadline e).
  { intros e He. rewrite Hreg in He. apply list_elem_of_filter in He as [_ He].
    by eapply queue_root_least. }
  destruct (Z.eqb_spec (qh_size s1) 0) as [Hz|Hnz]; [apply lookup_lt_Some in Hr; lia|].
  rewrite (queue_array_get s1 l1 0 r Ha1 Hr : qh_get s1 0 = _), bind_ok.
  destruct (Z.gtb_spec (qe_deadline r) now) as [Hgt|Hdue].
  { exists None, s1, l1. split_and!; [done..|]. intros e He. specialize (Hleast e He). lia. }
  destruct (qpop_root_ok s1 l1 r Ha1 Ho1 Hr) as (s2 & l2 & -> & Ha2 & Hp & Ho2 & _).
  exists (Some r), s2, l2.
  split_and!; [done|split; [done|done|by eapply queue_inv_known_perm]| | |lia|exact Hleast].
  - intros e He. apply Hsub. rewrite Hp. by right.
  - by rewrite Hreg, Hp, filter_cons, decide_True.
Qed.

Lemma qretire_ok s l cnt :
  queue_inv s l ->
  exists s' l', ntt_queue_heap_retire timer_generation s cnt = Ok s' /\ queue_inv s' l' /\
    filter stands l ≡ₚ filter stands l' /\ (forall e, e ∈ l' -> e ∈ l) /\
    (qh_size s < MAX_REGISTRATIONS -> qh_tombstones s' * 2 <= qh_size s').
Proof.
  intros Hinv. unfold ntt_queue_heap_retire. cbv zeta. set (s0 := qh_with_tombstones _ s).
  set (s1 := if qh_tombstones s0 >? qh_size s0 then _ else s0).
  assert (Hinv1 : queue_inv s1 l).
  { unfold s1, s0. case_match; by repeat apply queue_inv_tombstones. }
  assert (Hle : 0 <= qh_tombstones s1 <= qh_size s1).
  { pose proof (qa_size _ _ (qi_array _ _ Hinv)). pose proof (u32_range (qh_tombstones s + cnt)).
    unfold s1. destruct (Z.gtb_spec (qh_tombstones s0) (qh_size s0)); simpl in *; lia. }
  assert (Hsz1 : qh_size s1 = qh_size s) by (unfold s1, s0; by case_match).
  destruct (qcompact_ok s1 l Hinv1) as (s' & l' & Heq & Hinv' & Hreg & Hcount).
  exists s', l'. split_and!; [done|done|done| |].
  - destruct Hcount as [[-> _]|[_ Hp]].
    + rewrite <- (qentries_eq _ _ (qi_array _ _ Hinv')), <- (qentries_eq _ _ (qi_array _ _ Hinv1)). done.
    + intros e He. rewrite Hp in He. by apply list_elem_of_filter in He as [_ ?].
  - intros Hmax. destruct Hcount as [[-> Hfew]|[-> _]].
    + unfold MAX_REGISTRATIONS in Hmax. by rewrite u32_small in Hfew by lia.
    + rewrite (qa_size _ _ (qi_array _ _ Hinv')). lia.
Qed.

Lemma qtop_ok s l :
  queue_inv s l ->
  exists o, ntt_queue_heap_top s = Ok o /\
    match o with
    | Some d => (exists e, e ∈ l /\ qe_deadline e = d) /\ forall e, e ∈ l -> d <= qe_deadline e
    | None => l = []
    end.
Proof.
  intros Hinv. pose proof Hinv as [Ha _ _]. pose proof (qa_size _ _ Ha) as Hsz.
  unfold ntt_queue_heap_top. destruct (Z.eqb_spec (qh_size s) 0) as [Hz|Hnz].
  { exists None. split; [done|]. destruct l; [done|simpl in Hsz; lia]. }
  destruct (lookup_lt_is_Some_2 l 0) as [r Hr]; [lia|].
  rewrite (queue_array_get s l 0 r Ha Hr : qh_get s 0 = _), bind_ok.
  exists (Some (qe_deadline r)). split_and!; [done| |].
  - exists r. split; [by eapply list_elem_of_lookup_2|done].
  - intros e He. by eapply queue_root_least.
Qed.

Lemma qhas_live_ok s l :
  queue_inv s l ->
  ntt_queue_heap_has_live timer_generation s = Ok (negb (bool_decide (filter stands l = []))).
Proof.
  intros Hinv. unfold ntt_queue_heap_has_live.
  pose proof (qa_size _ _ (qi_array _ _ Hinv)) as Hsz.
  rewrite <- (has_live_loop_ok s l Hinv l (S (Z.to_nat (qh_size s)))); [|by exists []|lia].
  by rewrite Nat.sub_diag.
Qed.
End spec.
