(* ===== verification/QueueHeapProps.v ===== *)
(** * The heap of queue registrations: properties

    What the timer service relies on, with witnesses on a small heap. *)

From stdpp Require Import base numbers list.
From Stdlib Require Import ZArith Lia.
From S2P Require Import Prelude.
From S2P Require Import HeapOrder.
From S2P Require Import QueueHeap.
From S2P Require Import QueueHeapArray.
From S2P Require Import QueueHeapSpec.

#[local] Open Scope Z_scope.

Section props.
Context `{Platform} (timer_generation : Z -> res Z).
Implicit Types (s : ntt_queue_heap).
Abbreviation wf := (queue_wf timer_generation).
Abbreviation regs := (registrations timer_generation).

(** [ntt_queue_heap_push] adds the new registration, when its
    generation is the current one of the queue, and keeps all the others. *)
Theorem queue_push_registers s i g dl :
  wf s -> qh_size s < MAX_REGISTRATIONS -> resolves timer_generation i ->
  returns (ntt_queue_heap_push s i g dl) (fun s' =>
    wf s' /\ regs s' ≡ₚ (if decide (stands timer_generation (mk_qelem dl i g))
                         then [mk_qelem dl i g] else []) ++ regs s).
Proof.
  intros (l & Hinv) Hroom Hi. eapply returns_mono; [by apply qpush_ok|].
  intros s' (l' & Hinv' & Hp). split; [by exists l'|].
  rewrite (registrations_eq _ s l Hinv), (registrations_eq _ s' l' Hinv'), Hp, filter_cons.
  by case_decide.
Qed.

(** [ntt_queue_heap_take_expired] takes out a standing registration
    with the least deadline, if that deadline has passed; when it takes
    nothing, no standing registration is due.  All other standing
    registrations stay. *)
Theorem queue_take_expired_earliest s now :
  wf s ->
  exists o s', ntt_queue_heap_take_expired timer_generation s now = Ok (o, s') /\ wf s' /\
    match o with
    | Some e => regs s ≡ₚ e :: regs s' /\ qe_deadline e <= now /\
        (forall e', e' ∈ regs s -> qe_deadline e <= qe_deadline e')
    | None => regs s ≡ₚ regs s' /\ forall e, e ∈ regs s -> now < qe_deadline e
    end.
Proof.
  intros (l & Hinv). destruct (qtake_expired_ok _ s l now Hinv) as (o & s' & l' & Heq & Hinv' & _ & Ho).
  exists o, s'. rewrite (registrations_eq _ s l Hinv), (registrations_eq _ s' l' Hinv').
  split_and!; [done|by exists l'|done].
Qed.

(** [ntt_queue_heap_retire] never loses a standing registration, and
    leaves at most half of the entries counted as tombstones. *)
Theorem queue_retire_keeps s cnt :
  wf s -> qh_size s < MAX_REGISTRATIONS ->
  exists s', ntt_queue_heap_retire timer_generation s cnt = Ok s' /\ wf s' /\
    regs s ≡ₚ regs s' /\ qh_tombstones s' * 2 <= qh_size s'.
Proof.
  intros (l & Hinv) Hmax. destruct (qretire_ok _ s l cnt Hinv) as (s' & l' & Heq & Hinv' & Hreg & _ & Hle).
  exists s'. rewrite (registrations_eq _ s l Hinv), (registrations_eq _ s' l' Hinv').
  split_and!; [done|by exists l'|done|by apply Hle].
Qed.

(** [ntt_queue_heap_top] is no later than the deadline of any entry, so
    a timer armed at it never misses a standing registration, and is the
    deadline of an entry; it reports nothing only for an empty heap. *)
Theorem queue_top_bound s :
  wf s ->
  exists o, ntt_queue_heap_top s = Ok o /\
    match o with
    | Some d => (exists e, e ∈ qentries s /\ qe_deadline e = d) /\
        forall e, e ∈ qentries s -> d <= qe_deadline e
    | None => qentries s = []
    end.
Proof.
  intros (l & Hinv). rewrite (qentries_eq s l (qi_array _ _ _ Hinv)). by eapply qtop_ok.
Qed.

(** [ntt_queue_heap_has_live] finds out whether any registration stands. *)
Theorem queue_has_live_exact s :
  wf s -> ntt_queue_heap_has_live timer_generation s = Ok (negb (bool_decide (regs s = []))).
Proof. intros (l & Hinv). rewrite (registrations_eq _ s l Hinv). by apply qhas_live_ok. Qed.

(** Beyond 2^31 registrations the doubling in [ntt_queue_heap_reserve]
    wraps to zero and never ends. *)
Theorem queue_reserve_diverges k cnt fuel :
  0 <= k <= 31 -> 2 ^ 31 < cnt -> qgrow_loop fuel (2 ^ k) cnt = Err OutOfFuel.
Proof.
  intros Hk Hcnt.
  assert (Hz : forall fuel, qgrow_loop fuel 0 cnt = Err OutOfFuel).
  { intros n. induction n as [|n IH]; [done|]. cbn [qgrow_loop].
    by destruct (Z.ltb_spec 0 cnt); [|lia]. }
  revert k Hk. induction fuel as [|fuel IH]; intros k Hk; [done|]. cbn [qgrow_loop].
  assert (2 ^ k <= 2 ^ 31) by (apply Z.pow_le_mono_r; lia).
  destruct (Z.ltb_spec (2 ^ k) cnt); [|lia].
  replace (2 ^ k * 2) with (2 ^ (k + 1)) by (rewrite Z.pow_add_r; lia).
  destruct (decide (k = 31)) as [->|Hne]; [apply Hz|].
  assert (2 ^ (k + 1) <= 2 ^ 31) by (apply Z.pow_le_mono_r; lia).
  rewrite u32_small by (pose proof (Z.pow_nonneg 2 (k + 1)); lia). apply IH. lia.
Qed.
End props.

(** ** Witnesses *)
Module QueueHeapExample.
#[local] Instance machine : Platform := {| ndebug := false; alloc_ok := fun _ => true |}.

(** Four queues; the one in slot 2 has moved on to generation 5. *)
Definition gens (i : Z) : res Z :=
  if (0 <=? i) && (i <? 4) then Ok (if i =? 2 then 5 else 1) else Err AssertFailure.

Lemma gens_resolves i : 0 <= i < 4 -> resolves gens i.
Proof. intros Hi. unfold resolves, gens. repeat case_cmp; simpl; try lia; eauto. Qed.

(** The top is a tombstone of slot 2. *)
Definition heap4 : ntt_queue_heap :=
  mk_qheap ((Some <$> [mk_qelem 3 2 1; mk_qelem 7 0 1; mk_qelem 5 1 1; mk_qelem 9 3 1])
    ++ replicate 4 None) 4 0 8.

Lemma heap4_wf : queue_wf gens heap4.
Proof.
  exists [mk_qelem 3 2 1; mk_qelem 7 0 1; mk_qelem 5 1 1; mk_qelem 9 3 1]. split.
  - split; [by eexists|done|done|]. right. exists 3. split; [lia|done].
  - intros [|[|[|[|i]]]] x p Hi _ Hx Hpx;
      [lia|injection Hx as <-; injection Hpx as <-; reflexivity..|done].
  - intros e He. apply gens_resolves. rewrite !elem_of_cons, elem_of_nil in He.
    destruct He as [->|[->|[->|[->|[]]]]]; simpl; lia.
Qed.

Lemma queue_push_registers_witness :
  returns (ntt_queue_heap_push heap4 2 5 1) (fun s' =>
    queue_wf gens s' /\ registrations gens s' ≡ₚ [mk_qelem 1 2 5] ++ registrations gens heap4).
Proof.
  apply (queue_push_registers gens heap4 2 5 1 heap4_wf); [by vm_compute|].
  apply gens_resolves. lia.
Defined.

Lemma queue_take_expired_earliest_witness :
  exists o s', ntt_queue_heap_take_expired gens heap4 6 = Ok (o, s') /\
    o = Some (mk_qelem 5 1 1) /\ queue_wf gens s'.
Proof.
  destruct (queue_take_expired_earliest gens heap4 6 heap4_wf) as (o & s' & Heq & Hwf & _).
  exists o, s'. split; [exact Heq|]. split; [|exact Hwf].
  vm_compute in Heq. congruence.
Defined.

Lemma queue_retire_keeps_witness :
  exists s', ntt_queue_heap_retire gens heap4 3 = Ok s' /\ qh_size s' = 3 /\
    registrations gens heap4 ≡ₚ registrations gens s'.
Proof.
  destruct (queue_retire_keeps gens heap4 3 heap4_wf) as (s' & Heq & _ & Hreg & _); [by vm_compute|].
  exists s'. split; [exact Heq|]. split; [|exact Hreg]. vm_compute in Heq. by injection Heq as <-.
Defined.

Lemma queue_top_bound_witness :
  exists o, ntt_queue_heap_top heap4 = Ok o /\ o = Some 3.
Proof.
  destruct (queue_top_bound gens heap4 heap4_wf) as (o & Heq & _). exists o.
  split; [exact Heq|]. vm_compute in Heq. congruence.
Defined.

Lemma queue_has_live_exact_witness : ntt_queue_heap_has_live gens heap4 = Ok true.
Proof. rewrite (queue_has_live_exact gens heap4 heap4_wf). by vm_compute. Defined.

Lemma queue_reserve_diverges_witness : qgrow_loop 5000 8 (2 ^ 31 + 1) = Err OutOfFuel.
Proof. apply (queue_reserve_diverges 3 (2 ^ 31 + 1) 5000); lia. Defined.
End QueueHeapExample.
