(* ===== verification/Slab.v ===== *)
(** * The slab: data and operations

    Translates [src/slab.c] and [src/slab.h], and the allocation wrappers of
    [src/malloc.c] that the slab uses.  Objects live at addresses: a slot is
    resolved by the arithmetic of the code, in 32 bits, so that two slots alias
    exactly when the code makes them alias.  Of an object only its head is
    modelled, the part the slab owns.  The calls run under the lock of the slab,
    one after the other. *)

From stdpp Require Import base numbers list gmap.
From Stdlib Require Import ZArith Lia.
From S2P Require Import Prelude.

#[local] Open Scope Z_scope.

Definition NTT_FIRST_SLAB_BLOCK_LEN_LOG2 : Z := 6.
Definition NTT_SLAB_INDEX_BITS : Z := 32.
Definition NTT_FIRST_SLAB_BLOCK_LEN : Z := u32 (Z.shiftl 1 NTT_FIRST_SLAB_BLOCK_LEN_LOG2).
Definition NTT_SLAB_CAPACITY : Z := u32 (u64 (Z.shiftl 1 NTT_SLAB_INDEX_BITS) - 1).
Definition NTT_SLAB_NONE : Z := NTT_SLAB_CAPACITY.
Definition NTT_SLAB_FULL_BLOCKS : Z := NTT_SLAB_INDEX_BITS - NTT_FIRST_SLAB_BLOCK_LEN_LOG2.
Definition NTT_SLAB_LAST_BLOCK_LEN : Z := u32 (NTT_FIRST_SLAB_BLOCK_LEN - 1).
Definition NTT_SLAB_BLOCKS : Z :=
  NTT_SLAB_FULL_BLOCKS + (if negb (NTT_SLAB_LAST_BLOCK_LEN =? 0) then 1 else 0).

(** ** Data *)

(** The head of an object, with fields that may not have been written yet. *)
Record ntt_slab_head : Type := mk_head {
  head_generation : option Z;
  head_index : option Z;
  head_next_free : option Z;
}.

Definition undef_head : ntt_slab_head := mk_head None None None.

(** [sizeof(ntt_slab_head_t)]: a 64-bit [uint_fast32_t] and two 32-bit words. *)
Definition HEAD_SIZE : Z := 16.

Definition set_generation g h := mk_head (Some g) (head_index h) (head_next_free h).
Definition set_index i h := mk_head (head_generation h) (Some i) (head_next_free h).
Definition set_next n h := mk_head (head_generation h) (head_index h) (Some n).

(** The memory: the live allocations (address and length) and the heads
    written so far. *)
Record memory : Type := mk_memory {
  mem_blocks : list (ptr * Z);
  mem_heads : gmap ptr ntt_slab_head;
}.

Record ntt_slab : Type := mk_slab {
  blocks : list ptr;
  slab_size : Z;
  stride : Z;
  block_cnt : Z;
  slab_free_head : Z;
}.

Definition slab_with_free_head f s := mk_slab (blocks s) (slab_size s) (stride s) (block_cnt s) f.
Definition slab_with_size n s := mk_slab (blocks s) n (stride s) (block_cnt s) (slab_free_head s).
Definition slab_with_block b n s := mk_slab b (slab_size s) (stride s) n (slab_free_head s).

(** ** Allocation

    Where [aligned_alloc] puts a new allocation is not for us to say. *)
Class Allocator : Type := {
  aligned_addr : list (ptr * Z) -> Z -> Z -> ptr;
}.

Definition ntt_aligned_or_die `{Platform, Allocator} (m : memory) (align s : Z) : res (ptr * memory) :=
  if alloc_ok s then
    let p := aligned_addr (mem_blocks m) align s in
    Ok (p, mk_memory ((p, s) :: mem_blocks m)
             (filter (fun '(a, _) => ~ (p <= a < p + s)) (mem_heads m)))
  else Err Die.

(** [ntt_free]: the pointer must be null or the address of a live allocation. *)
Definition ntt_free (m : memory) (p : ptr) : res memory :=
  if p =? NULL then Ok m
  else if decide (p ∈ (mem_blocks m).*1)
  then Ok (mk_memory (filter (fun b => b.1 <> p) (mem_blocks m)) (mem_heads m))
  else Err InvalidPointer.

(** A head can be accessed when it lies inside of a live allocation. *)
Definition accessible (m : memory) (p : ptr) : bool :=
  existsb (fun b => (b.1 <=? p) && (p + HEAD_SIZE <=? b.1 + b.2)) (mem_blocks m).

Definition head_load (m : memory) (p : ptr) : res ntt_slab_head :=
  if accessible m p then Ok (default undef_head (mem_heads m !! p)) else Err InvalidPointer.

Definition head_store (m : memory) (p : ptr) (h : ntt_slab_head) : res memory :=
  if accessible m p then Ok (mk_memory (mem_blocks m) (<[p := h]> (mem_heads m)))
  else Err InvalidPointer.

(** ** Resolving a slot *)

(** [__builtin_clz] of a 32-bit number that is not zero. *)
Definition clz32 (x : Z) : Z := 31 - Z.log2 x.

Definition ntt_slab_block_of (i : Z) : Z :=
  u32 (31 - clz32 (u32 (Z.shiftr i NTT_FIRST_SLAB_BLOCK_LEN_LOG2 + 1))).

Definition ntt_slab_block_first (block : Z) : Z :=
  u32 (NTT_FIRST_SLAB_BLOCK_LEN * u32 (u32 (Z.shiftl 1 block) - 1)).

Definition ntt_slab_block_len (block : Z) : Z := u32 (Z.shiftl NTT_FIRST_SLAB_BLOCK_LEN block).

Definition ntt_slab_fresh_at (self : ntt_slab) (i : Z) : res ptr :=
  let block := ntt_slab_block_of i in
  base ← arr_get (blocks self) block;
  Ok (base + u32 (u32 (i - ntt_slab_block_first block) * stride self)).

Section ops.
Context `{Platform} `{Allocator}.
Implicit Types (self : ntt_slab) (m : memory).

Definition ntt_slab_at self (i : Z) : res ptr :=
  c_assert (i <? slab_size self) ;;
  let block := ntt_slab_block_of i in
  base ← arr_get (blocks self) block;
  Ok (base + u32 (u32 (i - ntt_slab_block_first block) * stride self)).

Definition ntt_slab_index m (object : ptr) : res Z :=
  h ← head_load m object;
  defined (head_index h).

Definition ntt_slab_generation m (object : ptr) : res Z :=
  h ← head_load m object;
  g ← defined (head_generation h);
  Ok (u32 g).

Definition ntt_slab_retire m (object : ptr) : res (Z * memory) :=
  h ← head_load m object;
  g ← defined (head_generation h);
  m ← head_store m object (set_generation (u64 (g + 1)) h);
  Ok (u32 (u32 g + 1), m).

(** ** Operations *)
Definition ntt_slab_init (object_size : Z) : ntt_slab :=
  mk_slab (replicate (Z.to_nat NTT_SLAB_BLOCKS) NULL) 0
    (u32 (u64 (u64 (object_size + 63) / 64 * 64))) 0 NTT_SLAB_NONE.

Fixpoint slab_deinit_loop (fuel : nat) self m (i : Z) : res (ntt_slab * memory) :=
  match fuel with
  | O => Err OutOfFuel
  | S fuel =>
      if i <? block_cnt self then
        p ← arr_get (blocks self) i;
        m ← ntt_free m p;
        b ← arr_set (blocks self) i NULL;
        slab_deinit_loop fuel (slab_with_block b (block_cnt self) self) m (u32 (i + 1))
      else Ok (self, m)
  end.

Definition ntt_slab_deinit self m : res (ntt_slab * memory) :=
  '(self, m) ← slab_deinit_loop (S (Z.to_nat NTT_SLAB_BLOCKS)) self m 0;
  Ok (mk_slab (blocks self) 0 (stride self) 0 NTT_SLAB_NONE, m).

(** The allocation of a block when the slot is the first of one. *)
Definition take_block self m (slot : Z) : res (ntt_slab * memory) :=
  if slot =? ntt_slab_block_first (block_cnt self) then
    let count := if block_cnt self =? NTT_SLAB_FULL_BLOCKS then NTT_SLAB_LAST_BLOCK_LEN
                 else ntt_slab_block_len (block_cnt self) in
    '(p, m) ← ntt_aligned_or_die m 64 (u64 (stride self * count));
    b ← arr_set (blocks self) (block_cnt self) p;
    Ok (slab_with_block b (u32 (block_cnt self + 1)) self, m)
  else Ok (self, m).

Definition take_fresh self m : res (Z * (ntt_slab * memory)) :=
  let slot := u32 (slab_size self) in
  if slot =? NTT_SLAB_CAPACITY then Err Die
  else
    '(self, m) ← take_block self m slot;
    head ← ntt_slab_fresh_at self slot;
    h ← head_load m head;
    m ← head_store m head (set_generation 1 (set_index slot h));
    Ok (slot, (slab_with_size (u32 (slot + 1)) self, m)).

Definition take_reused self m : res (Z * (ntt_slab * memory)) :=
  let slot := slab_free_head self in
  head ← ntt_slab_fresh_at self slot;
  h ← head_load m head;
  next ← defined (head_next_free h);
  Ok (slot, (slab_with_free_head next self, m)).

Definition ntt_slab_take self m : res (ptr * (ntt_slab * memory)) :=
  '(slot, (self, m)) ← (if negb (slab_free_head self =? NTT_SLAB_NONE)
                        then take_reused self m else take_fresh self m);
  p ← ntt_slab_fresh_at self slot;
  Ok (p, (self, m)).

Definition ntt_slab_give self m (i : Z) : res (ntt_slab * memory) :=
  head ← ntt_slab_at self i;
  '(_, m) ← ntt_slab_retire m head;
  h ← head_load m head;
  m ← head_store m head (set_next (slab_free_head self) h);
  Ok (slab_with_free_head i self, m).
End ops.
