(* ===== verification/SlabInv.v ===== *)
(** * The slab: geometry and invariant

    The blocks partition the index space; the slots that were handed out lie in
    allocated blocks, one stride apart; the free list runs through the heads of
    the slots that are not in use. *)

From stdpp Require Import base numbers list gmap.
From Stdlib Require Import ZArith Lia.
From S2P Require Import Prelude.
From S2P Require Import Slab.

#[local] Open Scope Z_scope.

(** ** The blocks, without wrap-around *)
Definition first (k : Z) : Z := 64 * (2 ^ k - 1).
Definition count (k : Z) : Z := if k =? 26 then 63 else 64 * 2 ^ k.

(** The allocation that the next new block of a slab asks for. *)
Definition block_bytes (self : ntt_slab) : Z := stride self * count (block_cnt self).

(** The slots of the blocks below [n]. *)
Definition slab_end (n : Z) : Z := if n =? 27 then 2 ^ 32 - 1 else first n.

(** A new block is needed for the next new slot, and its memory is refused. *)
Definition block_refused `{Platform} (self : ntt_slab) : Prop :=
  slab_size self = slab_end (block_cnt self) /\ alloc_ok (block_bytes self) = false.

Lemma pow2_26 k : 0 <= k <= 26 -> 1 <= 2 ^ k <= 2 ^ 26.
Proof.
  intros Hk. split; [|apply Z.pow_le_mono_r; lia]. pose proof (Z.pow_pos_nonneg 2 k). lia.
Qed.

Lemma first_succ k : 0 <= k -> first (k + 1) = first k + 64 * 2 ^ k.
Proof. intros Hk. unfold first. rewrite Z.pow_add_r by lia. lia. Qed.

Lemma first_mono j k : 0 <= j <= k -> first j <= first k.
Proof. intros Hjk. unfold first. assert (2 ^ j <= 2 ^ k) by (apply Z.pow_le_mono_r; lia). lia. Qed.

Lemma slab_end_succ k : 0 <= k <= 26 -> slab_end (k + 1) = first k + count k.
Proof.
  intros Hk. unfold slab_end, count. destruct (Z.eqb_spec k 26) as [->|Hne]; [done|].
  destruct (Z.eqb_spec (k + 1) 27); [lia|]. apply first_succ. lia.
Qed.

Lemma slab_end_max n : 0 <= n <= 27 -> slab_end n <= 2 ^ 32 - 1.
Proof.
  intros Hn. unfold slab_end. destruct (Z.eqb_spec n 27); [lia|].
  unfold first. pose proof (pow2_26 n). lia.
Qed.

Lemma count_pos k : 0 <= k -> 0 < count k <= 64 * 2 ^ k.
Proof.
  intros Hk. unfold count. pose proof (Z.pow_pos_nonneg 2 k).
  destruct (Z.eqb_spec k 26) as [->|]; lia.
Qed.

Lemma block_first_ok k : 0 <= k <= 26 -> ntt_slab_block_first k = first k.
Proof.
  intros Hk. pose proof (pow2_26 k Hk). unfold ntt_slab_block_first, first.
  change NTT_FIRST_SLAB_BLOCK_LEN with 64. rewrite Z.shiftl_mul_pow2, Z.mul_1_l by lia.
  rewrite (u32_small (2 ^ k)) by lia. rewrite (u32_small (2 ^ k - 1)) by lia. apply u32_small. lia.
Qed.

Lemma block_len_ok k : 0 <= k <= 25 -> ntt_slab_block_len k = 64 * 2 ^ k.
Proof.
  intros Hk. unfold ntt_slab_block_len. change NTT_FIRST_SLAB_BLOCK_LEN with 64.
  rewrite Z.shiftl_mul_pow2 by lia. apply u32_small.
  assert (2 ^ k <= 2 ^ 25) by (apply Z.pow_le_mono_r; lia). pose proof (Z.pow_pos_nonneg 2 k). lia.
Qed.

(** The block of an index, by the position of a bit. *)
Lemma block_of_log2 i :
  0 <= i < 2 ^ 32 - 1 -> ntt_slab_block_of i = Z.log2 (i / 64 + 1) /\ 0 <= i / 64 < 2 ^ 26.
Proof.
  intros Hi. unfold ntt_slab_block_of, clz32, NTT_FIRST_SLAB_BLOCK_LEN_LOG2.
  rewrite Z.shiftr_div_pow2 by lia. change (2 ^ 6) with 64.
  assert (Hd : 0 <= i / 64 < 2 ^ 26) by (split; [apply Z.div_pos|apply Z.div_lt_upper_bound]; lia).
  split; [|done]. rewrite (u32_small (i / 64 + 1)) by lia.
  pose proof (Z.log2_nonneg (i / 64 + 1)).
  assert (Z.log2 (i / 64 + 1) < 32) by (apply Z.log2_lt_pow2; lia).
  replace (31 - _) with (Z.log2 (i / 64 + 1)) by lia. apply u32_small. lia.
Qed.

Lemma block_of_spec i :
  0 <= i < 2 ^ 32 - 1 ->
  0 <= ntt_slab_block_of i <= 26 /\
  first (ntt_slab_block_of i) <= i < first (ntt_slab_block_of i) + count (ntt_slab_block_of i).
Proof.
  intros Hi. destruct (block_of_log2 i Hi) as [-> Hd]. set (k := Z.log2 _).
  pose proof (Z.log2_nonneg (i / 64 + 1)). fold k in H.
  assert (Hs : 2 ^ k <= i / 64 + 1 < 2 ^ (k + 1)) by (apply Z.log2_spec; lia).
  assert (Hk : k < 27) by (apply (Z.log2_lt_pow2 (i / 64 + 1)); lia).
  pose proof (Z.div_mod i 64 ltac:(lia)) as Hdm. pose proof (Z.mod_pos_bound i 64 ltac:(lia)).
  rewrite Z.pow_add_r in Hs by lia. unfold first, count. split; [lia|].
  destruct (Z.eqb_spec k 26) as [->|]; lia.
Qed.

Lemma block_of_unique i k :
  0 <= k <= 26 -> first k <= i < first k + count k -> ntt_slab_block_of i = k.
Proof.
  intros Hk Hi. pose proof (count_pos k ltac:(lia)). pose proof (pow2_26 k Hk).
  pose proof (slab_end_succ k Hk). pose proof (slab_end_max (k + 1) ltac:(lia)).
  destruct (block_of_log2 i) as [-> Hd]; [unfold first in *; lia|].
  apply Z.log2_unique; [lia|]. rewrite Z.pow_succ_r by lia. unfold first in Hi.
  pose proof (Z.div_mod i 64 ltac:(lia)) as Hdm. pose proof (Z.mod_pos_bound i 64 ltac:(lia)). lia.
Qed.

(** ** The address of a slot *)
Definition slab_addr (self : ntt_slab) (i : Z) : ptr :=
  let k := ntt_slab_block_of i in
  default 0 (blocks self !! Z.to_nat k) + (i - first k) * stride self.

(** The free list, from the link [f] on. *)
Fixpoint chain (self : ntt_slab) (m : memory) (f : Z) (fl : list Z) : Prop :=
  match fl with
  | [] => f = NTT_SLAB_NONE
  | i :: fl => f = i /\ exists h n, mem_heads m !! slab_addr self i = Some h /\
      head_next_free h = Some n /\ chain self m n fl
  end.

(** What [aligned_alloc] promises: the new allocation is apart from the live
    ones, and aligned. *)
Class AllocatorLaws `{Allocator} : Prop := {
  aligned_apart : forall live align bytes b n, 0 < bytes -> (b, n) ∈ live ->
    b + n <= aligned_addr live align bytes \/ aligned_addr live align bytes + bytes <= b;
  aligned_pos : forall live align bytes, 0 < aligned_addr live align bytes;
  aligned_aligned : forall live align bytes, 0 < align -> (align | aligned_addr live align bytes);
}.

(** The first [n] slots lie in allocated blocks, and their offsets fit in 32 bits. *)
Record slab_geom (self : ntt_slab) (m : memory) (n : Z) : Prop := {
  sb_stride : 64 <= stride self < 2 ^ 32 /\ (64 | stride self);
  sb_len : length (blocks self) = 27%nat;
  sb_cnt : 0 <= block_cnt self <= 27;
  sb_size : 0 <= n <= slab_end (block_cnt self);
  sb_low : 0 < block_cnt self -> first (block_cnt self - 1) < n;
  sb_fits : n * stride self <= 2 ^ 32;
  sb_block : forall k, 0 <= k < block_cnt self -> exists b,
    blocks self !! Z.to_nat k = Some b /\ 0 < b /\ (64 | b) /\ (b, stride self * count k) ∈ mem_blocks m;
  sb_disj : forall j k bj bk, 0 <= j < k -> k < block_cnt self ->
    blocks self !! Z.to_nat j = Some bj -> blocks self !! Z.to_nat k = Some bk ->
    bj + stride self * count j <= bk \/ bk + stride self * count k <= bj;
}.

Record slab_inv (self : ntt_slab) (m : memory) (fl : list Z) : Prop := {
  sb_geom : slab_geom self m (slab_size self);
  sb_heads : forall i, 0 <= i < slab_size self -> exists h g,
    mem_heads m !! slab_addr self i = Some h /\ head_index h = Some i /\
    head_generation h = Some g /\ 0 <= g < 2 ^ 64;
  sb_nodup : NoDup fl;
  sb_free : forall i, i ∈ fl -> 0 <= i < slab_size self;
  sb_chain : chain self m (slab_free_head self) fl;
}.

Section inv.
Context `{Platform}.
Implicit Types (self : ntt_slab) (m : memory).

Lemma slab_size_max self m n : slab_geom self m n -> n <= 2 ^ 32 - 1.
Proof.
  intros Hinv. pose proof (sb_size _ _ _ Hinv). pose proof (slab_end_max _ (sb_cnt _ _ _ Hinv)). lia.
Qed.

(** Where the slot [i] lies: in a block that was allocated. *)
Lemma slot_block self m n i :
  slab_geom self m n -> 0 <= i < n ->
  let k := ntt_slab_block_of i in
  0 <= k <= 26 /\ k < block_cnt self /\ first k <= i < first k + count k /\
  exists b, blocks self !! Z.to_nat k = Some b /\ (0 < b /\ (64 | b)) /\
    (b, stride self * count k) ∈ mem_blocks m /\
    slab_addr self i = b + (i - first k) * stride self.
Proof.
  intros Hinv Hi k. pose proof (slab_size_max _ _ _ Hinv) as Hmax.
  destruct (block_of_spec i) as [Hk Hin]; [lia|]. fold k in Hk, Hin.
  pose proof (sb_cnt _ _ _ Hinv). pose proof (sb_size _ _ _ Hinv) as Hsz.
  assert (Hlt : k < block_cnt self).
  { destruct (decide (block_cnt self = 27)); [lia|].
    unfold slab_end in Hsz. destruct (Z.eqb_spec (block_cnt self) 27); [lia|].
    destruct (decide (k < block_cnt self)); [done|]. pose proof (first_mono (block_cnt self) k). lia. }
  destruct (sb_block _ _ _ Hinv k) as (b & Hb & Hpos & Hal & Hm); [lia|].
  split_and!; [lia..|]. exists b. split_and!; [done..|]. unfold slab_addr. fold k. by rewrite Hb.
Qed.

Lemma slot_offset self m n i :
  slab_geom self m n -> 0 <= i < n ->
  u32 (u32 (i - ntt_slab_block_first (ntt_slab_block_of i)) * stride self) =
    (i - first (ntt_slab_block_of i)) * stride self.
Proof.
  intros Hinv Hi. destruct (slot_block _ _ _ i Hinv Hi) as (Hk & _ & Hin & _).
  pose proof (slab_size_max _ _ _ Hinv). pose proof (sb_fits _ _ _ Hinv).
  destruct (sb_stride _ _ _ Hinv) as [Hst _].
  assert (0 <= first (ntt_slab_block_of i)) by (unfold first; pose proof (pow2_26 _ Hk); lia).
  rewrite block_first_ok by done. rewrite (u32_small (i - _)) by lia. apply u32_small. nia.
Qed.

Lemma fresh_at_ok self m n i :
  slab_geom self m n -> 0 <= i < n -> ntt_slab_fresh_at self i = Ok (slab_addr self i).
Proof.
  intros Hinv Hi. destruct (slot_block _ _ _ i Hinv Hi) as (Hk & _ & _ & b & Hb & _ & _ & ->).
  unfold ntt_slab_fresh_at. rewrite (arr_get_lookup _ _ b) by (lia || done).
  rewrite bind_ok. by rewrite (slot_offset _ _ _ _ Hinv Hi).
Qed.

Lemma slot_accessible self m n i :
  slab_geom self m n -> 0 <= i < n -> accessible m (slab_addr self i) = true.
Proof.
  intros Hinv Hi. destruct (slot_block _ _ _ i Hinv Hi) as (Hk & _ & Hin & b & _ & _ & Hm & ->).
  destruct (sb_stride _ _ _ Hinv) as [Hst _].
  unfold accessible. apply existsb_exists. eexists. split; [by apply list_elem_of_In|]. cbn [fst snd].
  apply andb_true_iff. unfold HEAD_SIZE. split; apply Z.leb_le; nia.
Qed.

(** Two slots do not overlap. *)
Lemma slots_apart self m n i j :
  slab_geom self m n -> 0 <= i < n -> 0 <= j < n -> i <> j ->
  slab_addr self i + stride self <= slab_addr self j \/
  slab_addr self j + stride self <= slab_addr self i.
Proof.
  intros Hinv Hi Hj Hne. destruct (sb_stride _ _ _ Hinv) as [Hst _].
  destruct (slot_block _ _ _ i Hinv Hi) as (Hki & Hci & Hii & bi & Hbi & _ & _ & ->).
  destruct (slot_block _ _ _ j Hinv Hj) as (Hkj & Hcj & Hij & bj & Hbj & _ & _ & ->).
  set (ki := ntt_slab_block_of i) in *. set (kj := ntt_slab_block_of j) in *.
  destruct (Z.lt_total ki kj) as [Hlt|[Heq|Hgt]].
  - destruct (sb_disj _ _ _ Hinv ki kj bi bj); try done; [nia..].
  - rewrite Heq in *. assert (bi = bj) as -> by congruence. nia.
  - destruct (sb_disj _ _ _ Hinv kj ki bj bi); try done; [nia..].
Qed.

Lemma slab_addr_inj self m n i j :
  slab_geom self m n -> 0 <= i < n -> 0 <= j < n ->
  slab_addr self i = slab_addr self j -> i = j.
Proof.
  intros Hinv Hi Hj Heq. destruct (decide (i = j)) as [|Hne]; [done|].
  destruct (slots_apart _ _ _ i j Hinv Hi Hj Hne); pose proof (sb_stride _ _ _ Hinv); lia.
Qed.

Lemma at_ok self m fl i :
  slab_inv self m fl -> 0 <= i < slab_size self -> ntt_slab_at self i = Ok (slab_addr self i).
Proof.
  intros Hinv Hi. unfold ntt_slab_at. assert_ok. apply (fresh_at_ok self m (slab_size self)); [|done].
  apply Hinv.
Qed.

Lemma chain_frame self self' m m' f fl :
  (forall i, i ∈ fl -> slab_addr self' i = slab_addr self i /\
     mem_heads m' !! slab_addr self i = mem_heads m !! slab_addr self i) ->
  chain self m f fl -> chain self' m' f fl.
Proof.
  revert f. induction fl as [|i fl IH]; intros f Hf; [done|]. simpl.
  intros (-> & h & n & Hh & Hn & Hc). split; [done|]. exists h, n.
  destruct (Hf i) as [-> ->]; [by left|]. split_and!; [done..|].
  apply IH; [|done]. intros j Hj. apply Hf. by right.
Qed.

Lemma head_load_ok self m fl i :
  slab_inv self m fl -> 0 <= i < slab_size self ->
  exists h g, head_load m (slab_addr self i) = Ok h /\ mem_heads m !! slab_addr self i = Some h /\
    head_index h = Some i /\ head_generation h = Some g /\ 0 <= g < 2 ^ 64.
Proof.
  intros Hinv Hi. destruct (sb_heads _ _ _ Hinv i Hi) as (h & g & Hh & Hix & Hg & Hr).
  exists h, g. unfold head_load. rewrite (slot_accessible _ _ _ _ (sb_geom _ _ _ Hinv)) by done. by rewrite Hh.
Qed.

Lemma head_store_ok self m fl i h :
  slab_inv self m fl -> 0 <= i < slab_size self ->
  head_store m (slab_addr self i) h =
    Ok (mk_memory (mem_blocks m) (<[slab_addr self i := h]> (mem_heads m))).
Proof. intros Hinv Hi. unfold head_store. by rewrite (slot_accessible _ _ _ _ (sb_geom _ _ _ Hinv)). Qed.
End inv.
