(* ===== verification/SlabOps.v ===== *)
(** * The slab: operations preserve the invariant

    What taking, giving back and retiring do to the free list, the generations
    and the addresses. *)

From stdpp Require Import base numbers list gmap.
From Stdlib Require Import ZArith Lia.
From S2P Require Import Prelude.
From S2P Require Import Slab.
From S2P Require Import SlabInv.

#[local] Open Scope Z_scope.

(** The full generation counter of a slot. *)
Definition gen_at (self : ntt_slab) (m : memory) (i : Z) : option Z :=
  h ← mem_heads m !! slab_addr self i; head_generation h.

(** Nothing about the slots below [n] has changed. *)
Definition slots_same (n : Z) (self : ntt_slab) (m : memory) (self' : ntt_slab) (m' : memory) : Prop :=
  forall i, 0 <= i < n -> slab_addr self' i = slab_addr self i /\
    mem_heads m' !! slab_addr self i = mem_heads m !! slab_addr self i.

(** Room for one more slot: a free one, or an offset that still fits. *)
Definition take_ok (self : ntt_slab) : Prop :=
  slab_free_head self <> NTT_SLAB_NONE \/ (slab_size self + 1) * stride self <= 2 ^ 32.

Section ops.
Context `{Platform} `{Allocator, !AllocatorLaws}.
Implicit Types (self : ntt_slab) (m : memory).

(** ** Writing a head *)
Lemma write_head_inv self m fl i h g :
  slab_inv self m fl -> 0 <= i < slab_size self -> i ∉ fl ->
  head_index h = Some i -> head_generation h = Some g -> 0 <= g < 2 ^ 64 ->
  slab_inv self (mk_memory (mem_blocks m) (<[slab_addr self i := h]> (mem_heads m))) fl.
Proof.
  intros [Hg Hh Hnd Hfr Hch] Hi Hnf Hix Hgen Hr. pose proof (slab_addr_inj self m (slab_size self) i) as Hinj.
  split; [by destruct Hg; split| |done|done|].
  - intros j Hj. simpl. destruct (decide (i = j)) as [<-|Hne].
    + exists h, g. by rewrite lookup_insert_eq.
    + rewrite lookup_insert_ne by (intros He; apply Hne; by apply (Hinj j Hg)). by apply Hh.
  - eapply chain_frame; [|exact Hch]. intros j Hj. split; [done|]. simpl.
    apply lookup_insert_ne. intros He. apply Hnf. rewrite (Hinj j Hg); auto.
Qed.

Lemma write_head_gen self m fl i j h :
  slab_inv self m fl -> 0 <= i < slab_size self -> 0 <= j < slab_size self -> i <> j ->
  mem_heads (mk_memory (mem_blocks m) (<[slab_addr self i := h]> (mem_heads m))) !! slab_addr self j =
  mem_heads m !! slab_addr self j.
Proof.
  intros Hinv Hi Hj Hne. simpl. apply lookup_insert_ne. intros He. apply Hne.
  by eapply slab_addr_inj; [apply Hinv|..].
Qed.

(** ** Retiring *)
Lemma retire_inv self m fl i :
  slab_inv self m fl -> 0 <= i < slab_size self -> i ∉ fl ->
  exists g m', ntt_slab_retire m (slab_addr self i) = Ok (u32 (u32 g + 1), m') /\
    gen_at self m i = Some g /\ gen_at self m' i = Some (u64 (g + 1)) /\
    slab_inv self m' fl /\
    forall j, 0 <= j < slab_size self -> j <> i ->
      mem_heads m' !! slab_addr self j = mem_heads m !! slab_addr self j.
Proof.
  intros Hinv Hi Hnf. destruct (head_load_ok _ _ _ i Hinv Hi) as (h & g & Hld & Hh & Hix & Hgen & Hr).
  unfold ntt_slab_retire. rewrite Hld, bind_ok, Hgen. cbn [defined]. rewrite bind_ok.
  rewrite (head_store_ok _ _ _ _ _ Hinv Hi), bind_ok. eexists g, _.
  split_and!; [done| | | |].
  - unfold gen_at. by rewrite Hh.
  - unfold gen_at. simpl. by rewrite lookup_insert_eq.
  - by apply (write_head_inv self m fl i (set_generation (u64 (g + 1)) h) (u64 (g + 1)));
      [..|apply u64_range].
  - intros j Hj Hne. by eapply write_head_gen.
Qed.

(** ** Giving back *)
Lemma slab_give_inv self m fl i :
  slab_inv self m fl -> 0 <= i < slab_size self -> i ∉ fl ->
  exists self' m' g, ntt_slab_give self m i = Ok (self', m') /\
    slab_inv self' m' (i :: fl) /\ slab_size self' = slab_size self /\ stride self' = stride self /\
    (forall j, slab_addr self' j = slab_addr self j) /\
    gen_at self m i = Some g /\ gen_at self' m' i = Some (u64 (g + 1)) /\
    forall j, 0 <= j < slab_size self -> j <> i -> gen_at self' m' j = gen_at self m j.
Proof.
  intros Hinv Hi Hnf. unfold ntt_slab_give. rewrite (at_ok _ _ _ i Hinv Hi), bind_ok.
  destruct (retire_inv self m fl i Hinv Hi Hnf) as (g & m1 & -> & Hg & Hg1 & Hinv1 & Hsame).
  rewrite bind_ok.
  destruct (head_load_ok _ _ _ i Hinv1 Hi) as (h & g1 & -> & Hh & Hix & Hgen & Hr). rewrite bind_ok.
  rewrite (head_store_ok _ _ _ _ _ Hinv1 Hi), bind_ok.
  set (m2 := mk_memory _ _). set (self' := slab_with_free_head i self).
  assert (Hinv2 : slab_inv self m2 fl)
    by (by apply (write_head_inv self m1 fl i (set_next (slab_free_head self) h) g1)).
  assert (Hm2 : mem_heads m2 !! slab_addr self i = Some (set_next (slab_free_head self) h))
    by apply lookup_insert_eq.
  exists self', m2, g. split_and!; try done.
  - destruct Hinv2 as [Hge Hhe Hnd Hfr Hch]. split; [by destruct Hge; split|done|by constructor| |].
    + intros j [->|Hj]%elem_of_cons; [done|by apply Hfr].
    + simpl. split; [done|]. exists (set_next (slab_free_head self) h), (slab_free_head self).
      split_and!; [done..|]. eapply chain_frame; [|exact Hch]. done.
  - unfold gen_at. change (slab_addr self' i) with (slab_addr self i). rewrite Hm2. simpl.
    unfold gen_at in Hg1. rewrite Hh in Hg1. exact Hg1.
  - intros j Hj Hne. unfold gen_at. change (slab_addr self' j) with (slab_addr self j).
    unfold m2. rewrite (write_head_gen self m1 fl i j) by auto. by rewrite Hsame.
Qed.

(** ** Taking a free slot *)
Lemma take_reused_inv self m i fl :
  slab_inv self m (i :: fl) ->
  exists n, take_reused self m = Ok (i, (slab_with_free_head n self, m)) /\
    slab_inv (slab_with_free_head n self) m fl.
Proof.
  intros [Hge Hhe Hnd Hfr Hch]. simpl in Hch. destruct Hch as (Hf & h & n & Hh & Hn & Hch).
  assert (Hi : 0 <= i < slab_size self) by (apply Hfr; by left).
  unfold take_reused. rewrite Hf, (fresh_at_ok _ _ _ i Hge Hi), bind_ok.
  unfold head_load. rewrite (slot_accessible _ _ _ _ Hge Hi), Hh, bind_ok. cbn [default].
  unfold default, id. rewrite Hn. cbn [defined]. rewrite bind_ok. exists n. split; [done|].
  apply NoDup_cons in Hnd as [_ Hnd]. split; [by destruct Hge; split|done|done| |].
  - intros j Hj. apply Hfr. by right.
  - eapply chain_frame; [|exact Hch]. done.
Qed.

(** ** Taking a new slot *)
(** The slot lies in a block that is there. *)
Lemma take_block_old self m n :
  slab_geom self m n -> (n + 1) * stride self <= 2 ^ 32 -> n < 2 ^ 32 - 1 -> n <> slab_end (block_cnt self) ->
  take_block self m n = Ok (self, m) /\ slab_geom self m (n + 1).
Proof.
  intros Hge Hfit Hcap Hend. pose proof Hge as [[Hst Hal] Hlen Hcnt Hsz Hlow _ Hblk Hdis].
  unfold take_block. set (c := block_cnt self) in *.
  destruct (Z.eqb_spec n (ntt_slab_block_first c)) as [Heq|Hne].
  - exfalso. destruct (decide (c = 27)) as [Hc|Hc].
    + rewrite Hc in Heq, Hlow. change (ntt_slab_block_first 27) with (first 26) in Heq.
      specialize (Hlow ltac:(lia)). change (27 - 1) with 26 in Hlow. lia.
    + rewrite block_first_ok in Heq by lia. apply Hend. unfold slab_end.
      by destruct (Z.eqb_spec c 27).
  - split; [done|]. split; try done; fold c; [lia|intros; specialize (Hlow ltac:(done)); lia].
Qed.

Lemma take_block_geom self m n :
  slab_geom self m n -> (n + 1) * stride self <= 2 ^ 32 ->
  returns_or (n = slab_end (block_cnt self) /\ alloc_ok (block_bytes self) = false) (take_block self m n) (fun '(self', m') =>
    slab_geom self' m' (n + 1) /\ slots_same n self m self' m' /\
    slab_free_head self' = slab_free_head self /\ slab_size self' = slab_size self /\
    stride self' = stride self).
Proof.
  intros Hge Hfit. pose proof Hge as [[Hst Hal] Hlen Hcnt Hsz Hlow _ Hblk Hdis].
  unfold take_block. set (c := block_cnt self) in *.
  assert (Hcap : n < 2 ^ 32 - 1) by nia.
  destruct (decide (n = slab_end c)) as [Hend|Hend].
  2:{ destruct (take_block_old self m n Hge Hfit Hcap Hend) as [Hok Hge']. unfold take_block in Hok. fold c in Hok.
      rewrite Hok. apply returns_or_ok. by split_and!. }
  assert (Hc27 : c <> 27) by (intros Hc; rewrite Hc in Hend; unfold slab_end in Hend; simpl in Hend; lia).
  assert (Hfirst : n = first c) by (unfold slab_end in Hend; by destruct (Z.eqb_spec c 27)).
  rewrite block_first_ok, Hfirst, Z.eqb_refl by lia.
  replace (if c =? NTT_SLAB_FULL_BLOCKS then NTT_SLAB_LAST_BLOCK_LEN else ntt_slab_block_len c)
    with (count c).
  2:{ unfold count. change NTT_SLAB_FULL_BLOCKS with 26. change NTT_SLAB_LAST_BLOCK_LEN with 63.
      destruct (Z.eqb_spec c 26); [done|]. by rewrite block_len_ok by lia. }
  pose proof (count_pos c ltac:(lia)) as Hcp. pose proof (pow2_26 c ltac:(lia)) as Hp2.
  assert (Hbytes : 0 < stride self * count c < 2 ^ 64) by nia.
  rewrite u64_small by lia. unfold ntt_aligned_or_die.
  destruct (alloc_ok (stride self * count c)) eqn:Halloc; [|split; [congruence|exact Halloc]]. rewrite bind_ok.
  set (p := aligned_addr _ _ _). set (m' := mk_memory _ _).
  rewrite arr_set_lookup, bind_ok by lia. rewrite u32_small by lia. apply returns_or_ok.
  set (self' := slab_with_block _ _ self).
  assert (Hold : forall k, 0 <= k < c -> blocks self' !! Z.to_nat k = blocks self !! Z.to_nat k)
    by (intros k Hk; simpl; apply list_lookup_insert_ne; lia).
  assert (Hnew : blocks self' !! Z.to_nat c = Some p)
    by (simpl; apply list_lookup_insert_eq; lia).
  assert (Hapart : forall k b, 0 <= k < c -> blocks self !! Z.to_nat k = Some b ->
    b + stride self * count k <= p \/ p + stride self * count c <= b).
  { intros k b Hk Hb. destruct (Hblk k Hk) as (b' & Hb' & _ & _ & Hm). simplify_eq.
    apply (aligned_apart (mem_blocks m) 64 (stride self * count c)); [lia|done]. }
  split_and!; [|intros i Hi|done..].
  - split; simpl; [done|by rewrite length_insert|lia| | |nia| |].
    + rewrite slab_end_succ by lia. lia.
    + intros _. replace (c + 1 - 1) with c by lia. lia.
    + intros k Hk. destruct (decide (k = c)) as [->|Hne].
      * exists p. split_and!; [done|apply aligned_pos|by apply aligned_aligned|by left].
      * destruct (Hblk k) as (b & Hb & Hpos & Hab & Hm); [lia|]. exists b.
        split_and!; [rewrite <- Hb; apply Hold; lia|done|done|by right].
    + intros j k bj bk Hjk Hk Hj Hkb. fold (blocks self') in *.
      change (blocks self' !! Z.to_nat j = Some bj) in Hj.
      change (blocks self' !! Z.to_nat k = Some bk) in Hkb.
      rewrite Hold in Hj by lia. destruct (decide (k = c)) as [->|Hne].
      * pose proof (eq_trans (eq_sym Hkb) Hnew) as [= ->]. by apply (Hapart j); [lia|].
      * rewrite Hold in Hkb by lia. eapply Hdis; eauto; lia.
  - rewrite <- Hfirst in Hi. destruct (slot_block _ _ _ i Hge Hi) as (Hk & Hkc & Hin & b & Hb & _ & _ & Haddr).
    assert (Haddr' : slab_addr self' i = slab_addr self i).
    { unfold slab_addr. by rewrite Hold by lia. }
    split; [done|]. simpl. rewrite Haddr.
    apply option_eq. intros h. rewrite map_lookup_filter_Some. split; [by intros [? _]|].
    intros Hh. split; [done|]. destruct (Hapart _ b ltac:(split; [apply Hk|exact Hkc]) Hb); nia.
Qed.

Lemma take_fresh_inv self m :
  slab_inv self m [] -> (slab_size self + 1) * stride self <= 2 ^ 32 ->
  returns_or (block_refused self) (take_fresh self m) (fun '(i, (self', m')) =>
    i = slab_size self /\ slab_inv self' m' [] /\ slab_size self' = slab_size self + 1 /\
    stride self' = stride self /\ gen_at self' m' i = Some 1 /\
    slots_same (slab_size self) self m self' m').
Proof.
  intros Hinv Hfit. pose proof (sb_geom _ _ _ Hinv) as Hge. set (n := slab_size self) in *.
  destruct (sb_stride _ _ _ Hge) as [Hst _]. pose proof (sb_size _ _ _ Hge) as Hsz.
  assert (Hcap : n < 2 ^ 32 - 1) by nia.
  unfold take_fresh. fold n. rewrite u32_small by lia. change NTT_SLAB_CAPACITY with (2 ^ 32 - 1).
  destruct (Z.eqb_spec n (2 ^ 32 - 1)); [lia|].
  eapply returns_or_bind; [by apply take_block_geom|].
  intros [self1 m1] (Hge1 & Hsame & Hf & Hs & Hstr).
  assert (Hn : 0 <= n < n + 1) by lia.
  rewrite (fresh_at_ok _ _ _ n Hge1 Hn), bind_ok.
  unfold head_load, head_store. rewrite (slot_accessible _ _ _ _ Hge1 Hn), !bind_ok.
  rewrite u32_small by lia. apply returns_or_ok. set (h := set_generation _ _). set (m2 := mk_memory _ _).
  set (self2 := slab_with_size (n + 1) self1).
  assert (Hh2 : mem_heads m2 !! slab_addr self2 n = Some h) by apply lookup_insert_eq.
  assert (Hsame2 : slots_same n self m self2 m2).
  { intros i Hi. destruct (Hsame i Hi) as [Ha Hm]. split; [exact Ha|]. simpl. rewrite <- Hm, <- Ha.
    apply lookup_insert_ne. intros He. eapply slab_addr_inj in He; [|exact Hge1|lia..]. lia. }
  split_and!; [done| |done|done| |exact Hsame2].
  - split; [by destruct Hge1; split| |apply NoDup_nil_2|intros i Hi; by apply elem_of_nil in Hi|].
    + intros i Hi. simpl in Hi. destruct (decide (i = n)) as [->|Hne].
      * rewrite Hh2. by exists h, 1.
      * destruct (Hsame2 i) as [-> ->]; [lia|]. apply (sb_heads _ _ _ Hinv). fold n. lia.
    + simpl. pose proof (sb_chain _ _ _ Hinv) as Hc. simpl in Hc. by rewrite Hf.
  - unfold gen_at. by rewrite Hh2.
Qed.
End ops.
