(* ===== verification/SlabProps.v ===== *)
(** * The slab: properties

    The contract of the slab over the set of live slots: storage never moves,
    live objects never overlap, a slot that was given back is recognised by its
    generation; and the 32-bit offset that breaks this for very large blocks. *)

From stdpp Require Import base numbers list gmap relations.
From Stdlib Require Import ZArith Lia.
From S2P Require Import Prelude.
From S2P Require Import Slab.
From S2P Require Import SlabInv.
From S2P Require Import SlabOps.

#[local] Open Scope Z_scope.

(** The slab is sound, and [L] are the slots in use. *)
Definition slab_wf (self : ntt_slab) (m : memory) (L : gset Z) : Prop :=
  exists fl, slab_inv self m fl /\ forall i, i ∈ L <-> 0 <= i < slab_size self /\ i ∉ fl.

(** One call of the slab, by a client that retires and gives back live slots only. *)
Inductive slab_step `{Platform, Allocator} :
    ntt_slab * memory * gset Z -> ntt_slab * memory * gset Z -> Prop :=
  | step_take self m L p self' m' i :
      take_ok self -> ntt_slab_take self m = Ok (p, (self', m')) -> ntt_slab_index m' p = Ok i ->
      slab_step (self, m, L) (self', m', {[i]} ∪ L)
  | step_give self m L self' m' i :
      i ∈ L -> ntt_slab_give self m i = Ok (self', m') ->
      slab_step (self, m, L) (self', m', L ∖ {[i]})
  | step_retire self m L p g m' i :
      i ∈ L -> ntt_slab_at self i = Ok p -> ntt_slab_retire m p = Ok (g, m') ->
      slab_step (self, m, L) (self, m', L).

Section lemmas.
Context `{Platform} `{Allocator, !AllocatorLaws}.
Implicit Types (self : ntt_slab) (m : memory) (L : gset Z).

Lemma generation_ok self m fl i :
  slab_inv self m fl -> 0 <= i < slab_size self ->
  exists g, gen_at self m i = Some g /\ ntt_slab_generation m (slab_addr self i) = Ok (u32 g).
Proof.
  intros Hinv Hi. destruct (head_load_ok _ _ _ i Hinv Hi) as (h & g & Hld & Hh & _ & Hg & _).
  exists g. unfold gen_at, ntt_slab_generation. rewrite Hh, Hld, bind_ok, Hg. done.
Qed.

Lemma index_ok self m fl i :
  slab_inv self m fl -> 0 <= i < slab_size self -> ntt_slab_index m (slab_addr self i) = Ok i.
Proof.
  intros Hinv Hi. destruct (head_load_ok _ _ _ i Hinv Hi) as (h & g & Hld & _ & Hix & _).
  unfold ntt_slab_index. by rewrite Hld, bind_ok, Hix.
Qed.

(** Taking a slot: which one, and that no other slot changes; it aborts only
    when the allocation of a new block fails. *)
Lemma take_wf self m L :
  slab_wf self m L -> take_ok self ->
  returns_or (block_refused self) (ntt_slab_take self m) (fun '(p, (self', m')) => (exists i,
    (i ∉ L) /\ 0 <= i < slab_size self' /\ p = slab_addr self' i /\ slab_wf self' m' ({[i]} ∪ L) /\
    stride self' = stride self /\ slab_size self <= slab_size self' /\
    slots_same (slab_size self) self m self' m' /\
    i <= slab_size self /\ slab_size self' = Z.max (slab_size self) (i + 1) /\
    (slab_size self <= i -> gen_at self' m' i = Some 1))).
Proof.
  intros (fl & Hinv & HL) Hok. unfold ntt_slab_take.
  destruct (Z.eqb_spec (slab_free_head self) NTT_SLAB_NONE) as [Hnone|Hsome]; cbn [negb].
  - assert (fl = []) as ->.
    { destruct fl as [|i fl]; [done|]. pose proof (sb_chain _ _ _ Hinv) as [Hi _].
      pose proof (sb_free _ _ _ Hinv i ltac:(by left)).
      pose proof (slab_size_max _ _ _ (sb_geom _ _ _ Hinv)).
      rewrite Hi in Hnone. change NTT_SLAB_NONE with (2 ^ 32 - 1) in Hnone. lia. }
    destruct Hok as [|Hfit]; [done|].
    eapply returns_or_bind; [by apply take_fresh_inv|].
    intros [i [self' m']] (-> & Hinv' & Hsz & Hst & Hgen & Hsame).
    pose proof (sb_size _ _ _ (sb_geom _ _ _ Hinv)) as Hn.
    rewrite (fresh_at_ok _ _ _ (slab_size self) (sb_geom _ _ _ Hinv')) by lia.
    rewrite bind_ok. apply returns_or_ok. exists (slab_size self). split_and!; [|lia|lia|done| |done|lia|done|lia|lia|done].
    + rewrite HL. lia.
    + exists []. split; [done|]. intros j. rewrite elem_of_union, elem_of_singleton, HL, Hsz.
      rewrite elem_of_nil. lia.
  - destruct fl as [|i fl]; [by pose proof (sb_chain _ _ _ Hinv)|].
    destruct (take_reused_inv self m i fl Hinv) as (n & -> & Hinv'). rewrite bind_ok.
    assert (Hi : 0 <= i < slab_size self) by (apply (sb_free _ _ _ Hinv); by left).
    pose proof (sb_nodup _ _ _ Hinv) as [Hni _]%NoDup_cons.
    rewrite (fresh_at_ok _ _ _ i (sb_geom _ _ _ Hinv') Hi), bind_ok. apply returns_or_ok. exists i.
    split_and!; [|apply Hi|apply Hi|done| |done|done|done|lia|simpl; lia|lia].
    + rewrite HL. intros [_ Hn]. apply Hn. by left.
    + exists fl. split; [done|]. intros j. rewrite elem_of_union, elem_of_singleton, HL.
      rewrite not_elem_of_cons. simpl.
      destruct (decide (j = i)) as [->|Hne]; [|tauto]. split; [done|by left].
Qed.

Lemma give_wf self m L i :
  slab_wf self m L -> i ∈ L ->
  exists self' m' g, ntt_slab_give self m i = Ok (self', m') /\
    slab_wf self' m' (L ∖ {[i]}) /\ 0 <= i < slab_size self /\
    slab_size self' = slab_size self /\ stride self' = stride self /\
    (forall j, slab_addr self' j = slab_addr self j) /\
    gen_at self m i = Some g /\ gen_at self' m' i = Some (u64 (g + 1)) /\
    forall j, 0 <= j < slab_size self -> j <> i -> gen_at self' m' j = gen_at self m j.
Proof.
  intros (fl & Hinv & HL) Hi%HL. destruct Hi as [Hi Hnf].
  destruct (slab_give_inv self m fl i Hinv Hi Hnf) as (self' & m' & g & Hg & Hinv' & Hsz & Hst & Ha & Hg0 & Hg1 & Hsame).
  exists self', m', g. split_and!; try done; [|lia..].
  exists (i :: fl). split; [done|]. intros j.
  rewrite elem_of_difference, elem_of_singleton, HL, not_elem_of_cons, Hsz. tauto.
Qed.

Lemma retire_wf self m L i :
  slab_wf self m L -> i ∈ L ->
  exists g m', ntt_slab_retire m (slab_addr self i) = Ok (u32 (u32 g + 1), m') /\
    slab_wf self m' L /\ 0 <= i < slab_size self /\
    gen_at self m i = Some g /\ gen_at self m' i = Some (u64 (g + 1)) /\
    forall j, 0 <= j < slab_size self -> j <> i -> gen_at self m' j = gen_at self m j.
Proof.
  intros (fl & Hinv & HL) Hi%HL. destruct Hi as [Hi Hnf].
  destruct (retire_inv self m fl i Hinv Hi Hnf) as (g & m' & Heq & Hg & Hg' & Hinv' & Hsame).
  exists g, m'. split_and!; try done; [by exists fl|lia..|].
  intros j Hj Hne. unfold gen_at. by rewrite Hsame.
Qed.

(** Along a step slots stay where they are, and a generation moves by at
    most one. *)
Lemma slab_step_ok self m L self' m' L' :
  slab_step (self, m, L) (self', m', L') -> slab_wf self m L ->
  slab_wf self' m' L' /\ slab_size self <= slab_size self' /\
  forall j, 0 <= j < slab_size self -> slab_addr self' j = slab_addr self j /\
    exists g d, gen_at self m j = Some g /\ 0 <= d <= 1 /\ gen_at self' m' j = Some (u64 (g + d)).
Proof.
  intros Hstep Hwf.
  assert (Hgen : forall j, 0 <= j < slab_size self -> exists g, gen_at self m j = Some g /\ u64 (g + 0) = g).
  { destruct Hwf as (fl & Hinv & _). intros j Hj.
    destruct (sb_heads _ _ _ Hinv j Hj) as (h & g & Hh & _ & Hg & Hr). exists g.
    unfold gen_at. rewrite Hh. split; [exact Hg|]. rewrite Z.add_0_r. by apply u64_small. }
  inversion Hstep as [? ? ? p ? ? i Hok Htake Hix|? ? ? ? ? i Hi Hgive|? ? ? p g ? i Hi Hat Hret]; subst.
  - destruct (returns_or_inv _ _ _ _ (take_wf self m L Hwf Hok) Htake)
      as (k & _ & Hk & -> & Hwf' & _ & Hsz & Hsame & _).
    assert (k = i) as ->.
    { destruct Hwf' as (fl & Hinv' & _). rewrite (index_ok _ _ fl k Hinv' Hk) in Hix. congruence. }
    split_and!; [done|done|]. intros j Hj. destruct (Hsame j Hj) as [Ha Hm]. split; [done|].
    destruct (Hgen j Hj) as (g & Hg & Hz). exists g, 0. split_and!; [done|lia|lia|].
    unfold gen_at in *. by rewrite Ha, Hm, Hz.
  - destruct (give_wf self m L i Hwf Hi) as (s1 & m1 & g & Heq & Hwf' & _ & Hsz & _ & Ha & Hg & Hg' & Hsame).
    rewrite Hgive in Heq. injection Heq as <- <-. split_and!; [done|lia|]. intros j Hj.
    split; [apply Ha|]. destruct (decide (j = i)) as [->|Hne].
    + exists g, 1. split_and!; [done|lia|lia|done].
    + destruct (Hgen j Hj) as (gj & Hgj & Hz). exists gj, 0. rewrite Hsame, Hz by done.
      split_and!; [done|lia|lia|done].
  - destruct (retire_wf self' m L' i Hwf Hi) as (g1 & m1 & Heq & Hwf' & Hir & Hg & Hg' & Hsame).
    assert (p = slab_addr self' i) as ->.
    { destruct Hwf as (fl & Hinv & _). rewrite (at_ok _ _ fl i Hinv Hir) in Hat. congruence. }
    rewrite Hret in Heq. injection Heq as _ <-. split_and!; [done|lia|]. intros j Hj.
    split; [done|]. destruct (decide (j = i)) as [->|Hne].
    + exists g1, 1. split_and!; [done|lia|lia|done].
    + destruct (Hgen j Hj) as (gj & Hgj & Hz). exists gj, 0. rewrite Hsame, Hz by done.
      split_and!; [done|lia|lia|done].
Qed.

Lemma slab_steps_ok n : forall self m L self' m' L',
  nsteps slab_step n (self, m, L) (self', m', L') -> slab_wf self m L ->
  slab_wf self' m' L' /\ slab_size self <= slab_size self' /\
  forall j g, 0 <= j < slab_size self -> gen_at self m j = Some g ->
    slab_addr self' j = slab_addr self j /\
    exists d, 0 <= d <= Z.of_nat n /\ gen_at self' m' j = Some (u64 (g + d)).
Proof.
  induction n as [|n IH]; intros self m L self' m' L' Hsteps Hwf.
  - inversion Hsteps; subst. split_and!; [done|lia|]. intros j g Hj Hg. split; [done|].
    exists 0. split; [lia|]. destruct Hwf as (fl & Hinv & _).
    destruct (sb_heads _ _ _ Hinv j Hj) as (h & g' & Hh & _ & Hg' & Hr).
    unfold gen_at in *. rewrite Hh in *. cbn in *. rewrite Z.add_0_r, u64_small; congruence.
  - inversion Hsteps as [|? ? [[s1 m1] L1] ? Hs Hss]; subst.
    destruct (slab_step_ok _ _ _ _ _ _ Hs Hwf) as (Hwf1 & Hsz & Hone).
    destruct (IH _ _ _ _ _ _ Hss Hwf1) as (Hwf' & Hsz' & Hmore).
    split_and!; [done|lia|]. intros j g Hj Hg.
    destruct (Hone j Hj) as (Ha & g0 & d & Hg0 & Hd & Hg1). simplify_eq.
    destruct (Hmore j (u64 (g + d))) as (Ha' & d' & Hd' & Hg'); [lia|done|].
    split; [congruence|]. exists (d + d'). split; [lia|]. rewrite Hg'. f_equal.
    unfold u64. rewrite Zplus_mod_idemp_l. f_equal. lia.
Qed.
End lemmas.

Lemma slab_init_inv object_size m :
  0 < object_size <= 2 ^ 32 - 64 -> slab_inv (ntt_slab_init object_size) m [].
Proof.
  intros Hsize. set (q := (object_size + 63) / 64).
  assert (Hq : 1 <= q <= 2 ^ 26 - 1).
  { unfold q. pose proof (Z.div_mod (object_size + 63) 64 ltac:(lia)).
    pose proof (Z.mod_pos_bound (object_size + 63) 64 ltac:(lia)). lia. }
  assert (Hst : stride (ntt_slab_init object_size) = q * 64).
  { cbn [stride ntt_slab_init]. rewrite (u64_small (object_size + 63)) by lia. fold q. by no_wrap. }
  split.
  - split; rewrite ?Hst; try done; cbn [block_cnt ntt_slab_init]; try lia.
    split; [lia|]. by exists q.
  - cbn [slab_size ntt_slab_init]. lia.
  - apply NoDup_nil_2.
  - intros i Hi. by apply elem_of_nil in Hi.
  - done.
Qed.

(** The loop of [ntt_slab_deinit] with [n] blocks left. *)
Lemma slab_deinit_loop_ok self m sz : slab_geom self m sz -> forall n fuel s1 m1 i,
  0 <= i -> i + Z.of_nat n = block_cnt self -> (n < fuel)%nat ->
  block_cnt s1 = block_cnt self -> length (blocks s1) = 27%nat ->
  (forall k, i <= k -> blocks s1 !! Z.to_nat k = blocks self !! Z.to_nat k) ->
  mem_blocks m1 = filter (fun b => b.1 ∉ take (Z.to_nat i) (blocks self)) (mem_blocks m) ->
  exists s' m', slab_deinit_loop fuel s1 m1 i = Ok (s', m') /\
    mem_blocks m' =
      filter (fun b => b.1 ∉ take (Z.to_nat (block_cnt self)) (blocks self)) (mem_blocks m).
Proof.
  intros Hge. pose proof (sb_cnt _ _ _ Hge) as Hcnt. destruct (sb_stride _ _ _ Hge) as [Hst _].
  induction n as [|n IH]; intros fuel s1 m1 i Hi Hn Hf Hc Hlen Hsame Hm;
    (destruct fuel as [|fuel]; [lia|]); cbn [slab_deinit_loop]; rewrite Hc.
  { rewrite (proj2 (Z.ltb_ge _ _)) by lia. exists s1, m1. split; [done|].
    by replace (block_cnt self) with i by lia. }
  rewrite (proj2 (Z.ltb_lt _ _)) by lia.
  destruct (sb_block _ _ _ Hge i) as (b & Hb & Hpos & _ & Hin); [lia|].
  rewrite (arr_get_lookup _ _ b) by (rewrite ?Hsame; lia || done). rewrite bind_ok.
  assert (Hnew : b ∉ take (Z.to_nat i) (blocks self)).
  { intros Hel. apply list_elem_of_lookup in Hel as [j Hj]. apply lookup_take_Some in Hj as [Hj Hji].
    pose proof (count_pos i ltac:(lia)). pose proof (count_pos (Z.of_nat j) ltac:(lia)).
    rewrite <- (Nat2Z.id j) in Hj.
    destruct (sb_disj _ _ _ Hge (Z.of_nat j) i b b); try done; try lia; nia. }
  unfold ntt_free. destruct (Z.eqb_spec b NULL); [unfold NULL in *; lia|].
  rewrite decide_True, bind_ok.
  2:{ rewrite Hm. apply list_elem_of_fmap. exists (b, stride self * count i). split; [done|].
      by apply list_elem_of_filter. }
  rewrite arr_set_lookup, bind_ok by lia. rewrite u32_small by lia.
  apply IH; cbn [blocks block_cnt slab_with_block mem_blocks];
    [lia|lia|lia|done|by rewrite length_insert| |].
  - intros k Hk. rewrite list_lookup_insert_ne by lia. apply Hsame. lia.
  - rewrite Hm, list_filter_filter. apply list_filter_iff. intros [a c]. cbn [fst].
    replace (Z.to_nat (i + 1)) with (S (Z.to_nat i)) by lia.
    rewrite (take_S_r (A := ptr) _ _ b Hb), elem_of_app, list_elem_of_singleton. tauto.
Qed.

(** Freeing needs the table of blocks only. *)
Lemma slab_deinit_geom self m n :
  slab_geom self m n ->
  exists self' m', ntt_slab_deinit self m = Ok (self', m') /\
    slab_size self' = 0 /\ block_cnt self' = 0 /\
    mem_blocks m' =
      filter (fun b => b.1 ∉ take (Z.to_nat (block_cnt self)) (blocks self)) (mem_blocks m).
Proof.
  intros Hge. pose proof (sb_cnt _ _ _ Hge) as Hc. unfold ntt_slab_deinit.
  destruct (slab_deinit_loop_ok self m n Hge (Z.to_nat (block_cnt self)) 28 self m 0)
    as (s' & m' & Heq & Hm); [lia|lia|lia|done|apply Hge|done| |].
  { symmetry. apply filter_all. intros b _ Hb. by apply elem_of_nil in Hb. }
  change (S (Z.to_nat NTT_SLAB_BLOCKS)) with 28%nat. rewrite Heq, bind_ok.
  eexists _, m'. by split_and!.
Qed.

(** ** Claims *)
Section props.
Context `{Platform} `{Allocator, !AllocatorLaws}.
Implicit Types (self : ntt_slab) (m : memory) (L : gset Z).

(** The block arithmetic of [slab.h] partitions the index space: the
    block of an index is in the table, contains the index, and is the only
    block that does. *)
Theorem slab_blocks_partition i :
  0 <= i < NTT_SLAB_CAPACITY ->
  let len k := if k =? NTT_SLAB_FULL_BLOCKS then NTT_SLAB_LAST_BLOCK_LEN else ntt_slab_block_len k in
  let inside k := ntt_slab_block_first k <= i < ntt_slab_block_first k + len k in
  0 <= ntt_slab_block_of i < NTT_SLAB_BLOCKS /\ inside (ntt_slab_block_of i) /\
  forall k, 0 <= k < NTT_SLAB_BLOCKS -> inside k -> k = ntt_slab_block_of i.
Proof.
  change NTT_SLAB_CAPACITY with (2 ^ 32 - 1). change NTT_SLAB_BLOCKS with 27. intros Hi.
  assert (Hlen : forall k, 0 <= k <= 26 ->
    (if k =? NTT_SLAB_FULL_BLOCKS then NTT_SLAB_LAST_BLOCK_LEN else ntt_slab_block_len k) = count k).
  { intros k Hk. unfold count. change NTT_SLAB_FULL_BLOCKS with 26.
    destruct (Z.eqb_spec k 26); [done|]. apply block_len_ok. lia. }
  destruct (block_of_spec i Hi) as [Hk Hin]. cbv zeta. split; [lia|]. split.
  - by rewrite Hlen, block_first_ok.
  - intros k Hk' Hink. rewrite Hlen, block_first_ok in Hink by lia. symmetry.
    apply block_of_unique; [lia|done].
Qed.

(** [ntt_slab_take] hands out a slot that was not in use, at an address
    that overlaps no live object and that [ntt_slab_at] resolves to; live
    objects keep their address and their generation. *)
Theorem slab_take_fresh self m L :
  slab_wf self m L -> take_ok self ->
  returns (ntt_slab_take self m) (fun '(p, (self', m')) => (exists i,
    (i ∉ L) /\ slab_wf self' m' ({[i]} ∪ L) /\
    ntt_slab_at self' i = Ok p /\ ntt_slab_index m' p = Ok i /\
    forall j, j ∈ L -> exists q g, ntt_slab_at self j = Ok q /\ ntt_slab_at self' j = Ok q /\
      ntt_slab_generation m q = Ok g /\ ntt_slab_generation m' q = Ok g /\
      (q + stride self <= p \/ p + stride self <= q))).
Proof.
  intros Hwf Hok. eapply returns_mono; [eapply returns_or_returns; [by apply take_wf|by intros [_ Ha]; eauto]|].
  intros [p [self' m']] (i & Hni & Hi & -> & Hwf' & Hst & Hsz & Hsame & _). exists i.
  pose proof Hwf' as (fl' & Hinv' & _). destruct Hwf as (fl & Hinv & HL).
  split_and!; [done|done|by apply (at_ok self' m' fl')|by apply (index_ok self' m' fl')|].
  intros j Hj. pose proof (proj1 (HL j) Hj) as [Hjr _].
  destruct (Hsame j Hjr) as [Ha Hm]. destruct (generation_ok self m fl j Hinv Hjr) as (g & _ & Hg).
  exists (slab_addr self j), (u32 g). split_and!.
  - by apply (at_ok self m fl).
  - rewrite <- Ha. apply (at_ok self' m' fl'); [done|lia].
  - done.
  - rewrite <- Hg. unfold ntt_slab_generation, head_load. rewrite Hm.
    rewrite (slot_accessible _ _ _ _ (sb_geom _ _ _ Hinv) Hjr).
    by rewrite <- Ha, (slot_accessible _ _ _ _ (sb_geom _ _ _ Hinv')) by lia.
  - rewrite <- Ha, <- Hst.
    eapply slots_apart; [apply Hinv'|lia|lia|]. intros ->. done.
Qed.

(** [ntt_slab_give] of a live slot frees it, bumps its generation by
    one, and touches no other live object. *)
Theorem slab_give_frees self m L i :
  slab_wf self m L -> i ∈ L ->
  exists self' m' p g, ntt_slab_give self m i = Ok (self', m') /\ slab_wf self' m' (L ∖ {[i]}) /\
    ntt_slab_at self i = Ok p /\ ntt_slab_generation m p = Ok g /\
    ntt_slab_generation m' p = Ok (u32 (g + 1)) /\
    forall j, j ∈ L -> j <> i -> exists q, ntt_slab_at self j = Ok q /\ ntt_slab_at self' j = Ok q /\
      ntt_slab_generation m' q = ntt_slab_generation m q.
Proof.
  intros Hwf Hi.
  destruct (give_wf self m L i Hwf Hi) as (self' & m' & g & Heq & Hwf' & Hir & Hsz & Hst & Ha & Hg & Hg' & Hsame).
  pose proof Hwf as (fl & Hinv & HL). pose proof Hwf' as (fl' & Hinv' & _).
  destruct (generation_ok self m fl i Hinv Hir) as (g0 & Hg0 & Hgen).
  destruct (generation_ok self' m' fl' i Hinv' ltac:(lia)) as (g1 & Hg1 & Hgen1).
  exists self', m', (slab_addr self i), (u32 g). simplify_eq. rewrite Ha in Hgen1.
  split_and!; [done|done|by apply (at_ok self m fl)|done| |].
  - rewrite Hgen1. f_equal. by rewrite u32_u64, u32_add_l.
  - intros j Hj Hne. pose proof (proj1 (HL j) Hj) as [Hjr _]. exists (slab_addr self j).
    destruct (generation_ok self m fl j Hinv Hjr) as (gj & Hgj & Hgenj).
    destruct (generation_ok self' m' fl' j Hinv' ltac:(lia)) as (gj' & Hgj' & Hgenj').
    rewrite Ha in Hgenj'. rewrite Hsame in Hgj' by done.
    split_and!; [by apply (at_ok self m fl)|rewrite <- Ha; apply (at_ok self' m' fl'); [done|lia]|].
    rewrite Hgenj, Hgenj'. congruence.
Qed.

(** C34.  A reference to an object, an index with the generation seen, is
    recognised as stale once the object is given back, whoever takes the slot
    afterwards, for the next 2^32 - 2 calls of the slab; and the index still
    resolves to the same address. *)
Theorem slab_stale_detected self m L i p g self1 m1 n self2 m2 L2 :
  slab_wf self m L -> i ∈ L -> ntt_slab_at self i = Ok p -> ntt_slab_generation m p = Ok g ->
  ntt_slab_give self m i = Ok (self1, m1) ->
  nsteps slab_step n (self1, m1, L ∖ {[i]}) (self2, m2, L2) -> Z.of_nat n < 2 ^ 32 - 1 ->
  ntt_slab_at self2 i = Ok p /\
  exists g', ntt_slab_generation m2 p = Ok g' /\ g' <> g.
Proof.
  intros Hwf Hi Hat Hgen Hgive Hsteps Hn.
  destruct (give_wf self m L i Hwf Hi) as (s1 & m1' & g0 & Heq & Hwf1 & Hir & Hsz & _ & Ha & Hg0 & Hg1 & _).
  rewrite Hgive in Heq. injection Heq as <- <-.
  destruct (slab_steps_ok n _ _ _ _ _ _ Hsteps Hwf1) as ((fl2 & Hinv2 & _) & Hsz2 & Hall).
  destruct (Hall i (u64 (g0 + 1))) as (Ha2 & d & Hd & Hg2); [lia|done|].
  destruct Hwf as (fl & Hinv & _). rewrite (at_ok _ _ fl i Hinv Hir) in Hat. injection Hat as <-.
  destruct (generation_ok self m fl i Hinv Hir) as (g0' & Hg0' & Hgen0). simplify_eq.
  destruct (generation_ok self2 m2 fl2 i Hinv2 ltac:(lia)) as (g2 & Hg2' & Hgen2). simplify_eq.
  rewrite Ha2, Ha in Hgen2. split.
  - rewrite (at_ok _ _ fl2 i Hinv2) by lia. by rewrite Ha2, Ha.
  - eexists. split; [exact Hgen2|]. assert (g = u32 g0) as -> by congruence.
    rewrite u32_u64, u32_add_u64. apply u32_moved. lia.
Qed.

(** Every slab that calls reach from [ntt_slab_init] is sound. *)
Theorem slab_reachable_wf object_size m0 n self m L :
  0 < object_size <= 2 ^ 32 - 64 ->
  nsteps slab_step n (ntt_slab_init object_size, m0, ∅) (self, m, L) -> slab_wf self m L.
Proof.
  intros Hsize Hsteps. apply (slab_steps_ok n _ _ _ _ _ _ Hsteps). exists []. split.
  - by apply slab_init_inv.
  - intros i. change (slab_size (ntt_slab_init object_size)) with 0.
    rewrite elem_of_empty. split; [done|]. intros [Hi _]. lia.
Qed.

(** [ntt_slab_deinit] frees exactly the blocks of the slab, each once,
    and leaves every other allocation alone. *)
Theorem slab_deinit_frees self m L :
  slab_wf self m L ->
  exists self' m', ntt_slab_deinit self m = Ok (self', m') /\
    slab_size self' = 0 /\ block_cnt self' = 0 /\
    mem_blocks m' =
      filter (fun b => b.1 ∉ take (Z.to_nat (block_cnt self)) (blocks self)) (mem_blocks m).
Proof. intros (fl & Hinv & _). eapply slab_deinit_geom. apply Hinv. Qed.

(** C40.  The offset of a slot inside of its block is multiplied in 32 bits.
    In a block of more than 4 GiB it wraps: with objects of one cache line
    the first slot of block 21 and the slot 2^26 after it, both below the
    size, resolve to the same address. *)
Theorem slab_at_aliases self :
  stride self = 64 -> first 21 + 2 ^ 26 < slab_size self -> (21 < length (blocks self))%nat ->
  exists p, ntt_slab_at self (first 21) = Ok p /\ ntt_slab_at self (first 21 + 2 ^ 26) = Ok p.
Proof.
  intros Hst Hsz Hlen. destruct (lookup_lt_is_Some_2 (blocks self) 21) as [b Hb]; [lia|].
  assert (Hat : forall i, first 21 <= i <= first 21 + 2 ^ 26 ->
    ntt_slab_at self i = Ok (b + u32 (u32 (i - first 21) * 64))).
  { intros i Hi. unfold ntt_slab_at. assert_ok. change (first 21) with (2 ^ 27 - 64) in *.
    rewrite (block_of_unique i 21); [|lia|change (first 21) with (2 ^ 27 - 64);
      change (count 21) with (2 ^ 27); lia].
    rewrite (arr_get_lookup _ _ b) by done. by rewrite bind_ok, block_first_ok, Hst. }
  exists b. rewrite !Hat by lia. split; f_equal; rewrite <- (Z.add_0_r b) at 2; f_equal; by vm_compute.
Qed.
End props.

(** ** Witnesses *)
Module SlabExample.
#[local] Instance machine : Platform := {| ndebug := false; alloc_ok := fun _ => true |}.

(** An allocator that goes up in memory and reuses nothing. *)
Definition top (live : list (ptr * Z)) : Z := foldr (fun b t => Z.max (b.1 + b.2) t) 0 live.

#[local] Instance bump : Allocator :=
  {| aligned_addr := fun live align _ => (top live / Z.max 1 align + 1) * Z.max 1 align |}.

Lemma top_nonneg live : 0 <= top live.
Proof. induction live as [|b live IH]; simpl; lia. Qed.

Lemma top_above live b n : (b, n) ∈ live -> b + n <= top live.
Proof.
  induction live as [|c live IH]; [by intros ?%elem_of_nil|].
  intros [<-|Hin]%elem_of_cons; simpl; [lia|]. specialize (IH Hin). lia.
Qed.

Lemma bump_above live align : top live < (top live / Z.max 1 align + 1) * Z.max 1 align.
Proof.
  pose proof (Z.div_mod (top live) (Z.max 1 align) ltac:(lia)).
  pose proof (Z.mod_pos_bound (top live) (Z.max 1 align) ltac:(lia)). lia.
Qed.

#[local] Instance bump_laws : AllocatorLaws.
Proof.
  split; intros live align.
  - intros bytes b n _ Hin. left. pose proof (top_above _ _ _ Hin). pose proof (bump_above live align).
    simpl. lia.
  - intros bytes. pose proof (bump_above live align). pose proof (top_nonneg live). simpl. lia.
  - intros bytes Hal. simpl. rewrite Z.max_r by lia. apply Z.divide_factor_r.
Qed.

Definition mem0 : memory := mk_memory [] ∅.

Definition run1 : res (ptr * (ntt_slab * memory)) := ntt_slab_take (ntt_slab_init 100) mem0.
Definition slab1 : ntt_slab := match run1 with Ok (_, (s, _)) => s | Err _ => ntt_slab_init 100 end.
Definition mem1 : memory := match run1 with Ok (_, (_, m)) => m | Err _ => mem0 end.

(** Two live objects of 100 bytes, 128 bytes apart. *)
Definition run2 : res (ptr * (ntt_slab * memory)) := ntt_slab_take slab1 mem1.
Definition slab2 : ntt_slab := match run2 with Ok (_, (s, _)) => s | Err _ => slab1 end.
Definition mem2 : memory := match run2 with Ok (_, (_, m)) => m | Err _ => mem1 end.

Lemma slab2_steps :
  nsteps slab_step 2 (ntt_slab_init 100, mem0, ∅) (slab2, mem2, {[1]} ∪ ({[0]} ∪ ∅)).
Proof.
  apply nsteps_l with (slab1, mem1, {[0]} ∪ ∅).
  { eapply (step_take _ _ _ 64 slab1 mem1 0); [right; by vm_compute|by vm_compute|by vm_compute]. }
  apply nsteps_once.
  eapply (step_take _ _ _ 192 slab2 mem2 1); [right; by vm_compute|by vm_compute|by vm_compute].
Qed.

Lemma slab2_wf : slab_wf slab2 mem2 ({[1]} ∪ ({[0]} ∪ ∅)).
Proof.
  apply (slab_steps_ok 2 _ _ _ _ _ _ slab2_steps). exists []. split; [apply slab_init_inv; lia|].
  intros i. rewrite elem_of_empty. split; [done|]. cbn [slab_size ntt_slab_init]. lia.
Qed.

Lemma slab_blocks_partition_witness :
  ntt_slab_block_of 191 = 1 /\ ntt_slab_block_of 192 = 2 /\
  ntt_slab_block_first (ntt_slab_block_of 191) <= 191.
Proof.
  split; [reflexivity|]. split; [reflexivity|].
  apply (slab_blocks_partition 191). split; [lia|reflexivity].
Defined.

Lemma slab_take_fresh_witness :
  returns (ntt_slab_take slab2 mem2) (fun '(p, (self', m')) => exists i,
    slab_wf self' m' ({[i]} ∪ ({[1]} ∪ ({[0]} ∪ ∅))) /\ ntt_slab_at self' i = Ok p).
Proof.
  eapply returns_mono; [apply (slab_take_fresh slab2 mem2 _ slab2_wf); right; by vm_compute|].
  intros [p [self' m']] (i & _ & Hwf & Hat & _). exists i. exact (conj Hwf Hat).
Defined.

Lemma slab_give_frees_witness :
  exists self' m', ntt_slab_give slab2 mem2 0 = Ok (self', m') /\
    slab_wf self' m' (({[1]} ∪ ({[0]} ∪ ∅)) ∖ {[0]}).
Proof.
  destruct (slab_give_frees slab2 mem2 ({[1]} ∪ ({[0]} ∪ ∅)) 0 slab2_wf)
    as (self' & m' & p & g & Heq & Hwf & _); [set_solver|].
  exists self', m'. exact (conj Heq Hwf).
Defined.

Definition slab3 : ntt_slab := match ntt_slab_give slab2 mem2 0 with Ok (s, _) => s | Err _ => slab2 end.
Definition mem3 : memory := match ntt_slab_give slab2 mem2 0 with Ok (_, m) => m | Err _ => mem2 end.
Definition slab4 : ntt_slab := match ntt_slab_take slab3 mem3 with Ok (_, (s, _)) => s | Err _ => slab2 end.

(** The slot 0 is given back and taken by somebody else. *)
Lemma slab_stale_detected_witness :
  ntt_slab_at slab4 0 = Ok 64 /\ exists g', ntt_slab_generation mem3 64 = Ok g' /\ g' <> 1.
Proof.
  apply (slab_stale_detected slab2 mem2 ({[1]} ∪ ({[0]} ∪ ∅)) 0 64 1 slab3 mem3 1 slab4 mem3
    ({[0]} ∪ (({[1]} ∪ ({[0]} ∪ ∅)) ∖ {[0]}))).
  - exact slab2_wf.
  - set_solver.
  - by vm_compute.
  - by vm_compute.
  - by vm_compute.
  - apply nsteps_once. eapply (step_take _ _ _ 64 slab4 mem3 0);
      [left; by vm_compute|by vm_compute|by vm_compute].
  - lia.
Defined.

Lemma slab_reachable_wf_witness : slab_wf slab2 mem2 ({[1]} ∪ ({[0]} ∪ ∅)).
Proof. apply (slab_reachable_wf 100 mem0 2); [lia|exact slab2_steps]. Defined.

Lemma slab_deinit_frees_witness :
  exists self' m', ntt_slab_deinit slab2 mem2 = Ok (self', m') /\ mem_blocks m' = [].
Proof.
  destruct (slab_deinit_frees slab2 mem2 _ slab2_wf) as (self' & m' & Heq & _ & _ & Hm).
  exists self', m'. split; [exact Heq|]. rewrite Hm. by vm_compute.
Defined.

Lemma slab_at_aliases_witness :
  exists p, ntt_slab_at (mk_slab (replicate 27 4096) (2 ^ 28) 64 22 NTT_SLAB_NONE) (first 21) = Ok p /\
    ntt_slab_at (mk_slab (replicate 27 4096) (2 ^ 28) 64 22 NTT_SLAB_NONE) (first 21 + 2 ^ 26) = Ok p.
Proof.
  apply (slab_at_aliases (mk_slab (replicate 27 4096) (2 ^ 28) 64 22 NTT_SLAB_NONE));
    [reflexivity|reflexivity|simpl; lia].
Defined.
End SlabExample.
