(* ===== verification/SlabFrame.v ===== *)
(** * Several slabs in one memory

    The queue slab and the event slab of a loop allocate from the same memory.
    What a call of one slab changes, and that the other slab does not see it. *)

From stdpp Require Import base numbers list gmap.
From Stdlib Require Import ZArith Lia.
From S2P Require Import Prelude.
From S2P Require Import Slab.
From S2P Require Import SlabInv.
From S2P Require Import SlabOps.
From S2P Require Import SlabProps.

#[local] Open Scope Z_scope.

(** The allocations of a slab. *)
Definition slab_blocks (self : ntt_slab) : list (ptr * Z) :=
  imap (fun k b => (b, stride self * count (Z.of_nat k))) (take (Z.to_nat (block_cnt self)) (blocks self)).

Definition within (a : ptr) (b : ptr * Z) : Prop := b.1 <= a < b.1 + b.2.
Definition apart (b c : ptr * Z) : Prop := b.1 + b.2 <= c.1 \/ c.1 + c.2 <= b.1.

(** Live allocations have an address and a size, and do not overlap. *)
Definition mem_sound (m : memory) : Prop :=
  List.ForallOrdPairs apart (mem_blocks m) /\ Forall (fun b => 0 < b.1 /\ 0 < b.2) (mem_blocks m).

(** What a call of a slab does to the memory: at most one new allocation, and
    writes inside of the allocations of the slab only. *)
Record slab_effect `{Allocator} (self self' : ntt_slab) (m m' : memory) : Prop := {
  se_blocks : mem_blocks m' = mem_blocks m /\ slab_blocks self' = slab_blocks self \/
    exists b align, mem_blocks m' = b :: mem_blocks m /\ slab_blocks self' = slab_blocks self ++ [b] /\
      0 < b.2 /\ b.1 = aligned_addr (mem_blocks m) align b.2;
  se_heads : forall a, (forall b, b ∈ slab_blocks self' -> ~ within a b) ->
    mem_heads m' !! a = mem_heads m !! a;
}.

Lemma slab_blocks_elem self b n :
  (b, n) ∈ slab_blocks self <-> exists k, (k < Z.to_nat (block_cnt self))%nat /\
    blocks self !! k = Some b /\ n = stride self * count (Z.of_nat k).
Proof.
  unfold slab_blocks. rewrite list_elem_of_lookup. split.
  - intros [k Hk]. rewrite list_lookup_imap in Hk. apply fmap_Some in Hk as (b' & Hb' & [= -> ->]).
    apply lookup_take_Some in Hb' as [Hb' Hlt]. eauto.
  - intros (k & Hlt & Hb & ->). exists k. rewrite list_lookup_imap, lookup_take_lt by done. by rewrite Hb.
Qed.

Lemma slab_blocks_addrs self : (slab_blocks self).*1 = take (Z.to_nat (block_cnt self)) (blocks self).
Proof.
  unfold slab_blocks. generalize (take (Z.to_nat (block_cnt self)) (blocks self)). intros l.
  apply list_eq. intros k. rewrite list_lookup_fmap, list_lookup_imap. by destruct (l !! k).
Qed.

Section frame.
Context `{Platform} `{Allocator, !AllocatorLaws}.
Implicit Types (self : ntt_slab) (m : memory).

Lemma slab_blocks_live self m n b : slab_geom self m n -> b ∈ slab_blocks self -> b ∈ mem_blocks m.
Proof.
  destruct b as [b len]. intros Hge (k & Hk & Hb & ->)%slab_blocks_elem.
  destruct (sb_block _ _ _ Hge (Z.of_nat k)) as (b' & Hb' & _ & _ & Hm); [lia|].
  rewrite Nat2Z.id in Hb'. by pose proof (eq_trans (eq_sym Hb) Hb') as [= ->].
Qed.

Lemma slot_within self m n i :
  slab_geom self m n -> 0 <= i < n -> exists b, b ∈ slab_blocks self /\ within (slab_addr self i) b.
Proof.
  intros Hge Hi. destruct (slot_block _ _ _ i Hge Hi) as (Hk & Hkc & Hin & b & Hb & _ & _ & ->).
  destruct (sb_stride _ _ _ Hge) as [Hst _].
  exists (b, stride self * count (ntt_slab_block_of i)). split.
  - apply slab_blocks_elem. exists (Z.to_nat (ntt_slab_block_of i)). split_and!; [lia|done|].
    by rewrite Z2Nat.id by lia.
  - unfold within. simpl. nia.
Qed.

(** A slab only looks at its allocations. *)
Lemma slab_geom_frame self m m' n :
  slab_geom self m n -> (forall b, b ∈ slab_blocks self -> b ∈ mem_blocks m') -> slab_geom self m' n.
Proof.
  intros [G1 G2 G3 G4 G5 G6 G7 G8] Hb. split; try done. intros k Hk.
  destruct (G7 k Hk) as (b & Hbk & Hpos & Hal & _). exists b. split_and!; try done.
  apply Hb, slab_blocks_elem. exists (Z.to_nat k). split_and!; [lia|done|]. by rewrite Z2Nat.id by lia.
Qed.

Lemma slab_inv_frame self m m' fl :
  slab_inv self m fl -> (forall b, b ∈ slab_blocks self -> b ∈ mem_blocks m') ->
  (forall i, 0 <= i < slab_size self -> mem_heads m' !! slab_addr self i = mem_heads m !! slab_addr self i) ->
  slab_inv self m' fl.
Proof.
  intros [Hge Hh Hnd Hfr Hch] Hb Hs. split; [|..|done|done|].
  - by eapply slab_geom_frame.
  - intros i Hi. rewrite Hs by done. by apply Hh.
  - eapply chain_frame; [|exact Hch]. intros i Hi. split; [done|]. by apply Hs, Hfr.
Qed.

(** ** The effect of the calls *)
Lemma take_block_effect self m n self' m' :
  slab_geom self m n -> (n + 1) * stride self <= 2 ^ 32 -> take_block self m n = Ok (self', m') ->
  slab_effect self self' m m'.
Proof.
  intros Hge Hfit Heq. destruct (sb_stride _ _ _ Hge) as [Hst _]. pose proof (sb_cnt _ _ _ Hge) as Hcnt.
  pose proof (sb_size _ _ _ Hge) as Hsz. assert (Hcap : n < 2 ^ 32 - 1) by nia.
  set (c := block_cnt self) in *. destruct (decide (n = slab_end c)) as [Hend|Hend].
  2:{ destruct (take_block_old self m n Hge Hfit Hcap Hend) as [Hok _].
      rewrite Hok in Heq. injection Heq as <- <-. split; [by left|done]. }
  assert (Hc27 : c <> 27) by (intros Hc; rewrite Hc in Hend; unfold slab_end in Hend; simpl in Hend; lia).
  assert (Hfirst : n = first c) by (unfold slab_end in Hend; by destruct (Z.eqb_spec c 27)).
  unfold take_block in Heq. fold c in Heq. rewrite block_first_ok, Hfirst, Z.eqb_refl in Heq by lia.
  replace (if c =? NTT_SLAB_FULL_BLOCKS then NTT_SLAB_LAST_BLOCK_LEN else ntt_slab_block_len c)
    with (count c) in Heq.
  2:{ unfold count. change NTT_SLAB_FULL_BLOCKS with 26. change NTT_SLAB_LAST_BLOCK_LEN with 63.
      destruct (Z.eqb_spec c 26); [done|]. by rewrite block_len_ok by lia. }
  pose proof (count_pos c ltac:(lia)) as Hcp. pose proof (pow2_26 c ltac:(lia)).
  pose proof (sb_len _ _ _ Hge) as Hlen.
  rewrite u64_small in Heq by nia. unfold ntt_aligned_or_die in Heq.
  destruct (alloc_ok _); [|done]. rewrite bind_ok, arr_set_lookup, bind_ok, u32_small in Heq by lia.
  injection Heq as <- <-. set (p := aligned_addr _ _ _).
  assert (Hblocks : slab_blocks (slab_with_block (<[Z.to_nat c := p]> (blocks self)) (c + 1) self) =
    slab_blocks self ++ [(p, stride self * count c)]).
  { unfold slab_blocks. simpl. fold c. replace (Z.to_nat (c + 1)) with (S (Z.to_nat c)) by lia.
    rewrite (take_S_r _ _ p), imap_app, take_insert_ge by (done || (apply list_lookup_insert_eq; lia)).
    f_equal. simpl. rewrite length_take, Nat.add_0_r, Nat.min_l, Z2Nat.id by lia. done. }
  split.
  - right. exists (p, stride self * count c), 64. split_and!; [done|done|simpl; nia|done].
  - intros a Ha. simpl. apply option_eq. intros h. rewrite map_lookup_filter_Some. split; [by intros [? _]|].
    intros Hh. split; [done|]. intros Hin. apply (Ha (p, stride self * count c)); [|done].
    rewrite Hblocks. apply elem_of_app. right. by left.
Qed.

Lemma take_effect self m L p self' m' :
  slab_wf self m L -> take_ok self -> ntt_slab_take self m = Ok (p, (self', m')) ->
  slab_effect self self' m m'.
Proof.
  intros Hwf Hok Htake. pose proof (returns_or_inv _ _ _ _ (take_wf self m L Hwf Hok) Htake)
    as (i & _ & Hi & Hp & (fl' & Hinv' & _) & _).
  destruct (slot_within _ _ _ i (sb_geom _ _ _ Hinv') Hi) as (b & Hb & Hw).
  destruct Hwf as (fl & Hinv & _). unfold ntt_slab_take in Htake.
  destruct (Z.eqb_spec (slab_free_head self) NTT_SLAB_NONE) as [Hnone|Hsome]; cbn [negb] in Htake.
  - destruct Hok as [|Hfit]; [done|].
    apply bind_inv_ok in Htake as ([slot [s1 m1]] & Hfresh & (q & Hq & [= <- <- <-])%bind_inv_ok).
    unfold take_fresh in Hfresh. destruct (Z.eqb_spec (u32 (slab_size self)) NTT_SLAB_CAPACITY); [done|].
    apply bind_inv_ok in Hfresh as ([s2 m2] & Hblk & Hfresh).
    apply bind_inv_ok in Hfresh as (head & Hhead & Hfresh).
    apply bind_inv_ok in Hfresh as (h & _ & Hfresh). apply bind_inv_ok in Hfresh as (m3 & Hst & Hfresh).
    injection Hfresh as <- <- <-. unfold head_store in Hst. destruct (accessible _ _); [|done].
    injection Hst as <-. pose proof (slab_size_max _ _ _ (sb_geom _ _ _ Hinv)).
    pose proof (sb_size _ _ _ (sb_geom _ _ _ Hinv)).
    rewrite (u32_small (slab_size self)) in Hblk, Hhead, Hq by lia.
    assert (q = head) as -> by (unfold ntt_slab_fresh_at in *; simpl in *; congruence).
    destruct (take_block_effect _ _ _ _ _ (sb_geom _ _ _ Hinv) Hfit Hblk) as [Hbs Hhs].
    split; [exact Hbs|]. intros a Ha. simpl. rewrite lookup_insert_ne; [by apply Hhs|].
    intros <-. apply (Ha b); [done|]. by rewrite Hp.
  - apply bind_inv_ok in Htake as ([slot [s1 m1]] & Hre & (q & _ & [= <- <- <-])%bind_inv_ok).
    unfold take_reused in Hre. apply bind_inv_ok in Hre as (hd & _ & Hre).
    apply bind_inv_ok in Hre as (h & _ & Hre). apply bind_inv_ok in Hre as (nx & _ & Hre).
    injection Hre as <- <- <-. split; [by left|done].
Qed.

(** A taken slot keeps its generation or gets the first one. *)
Lemma take_generations self m p self' m' :
  ntt_slab_take self m = Ok (p, (self', m')) ->
  map_Forall (fun _ h => default 0 (head_generation h) < 2 ^ 32) (mem_heads m) ->
  map_Forall (fun _ h => default 0 (head_generation h) < 2 ^ 32) (mem_heads m').
Proof.
  intros Htake Hm. unfold ntt_slab_take in Htake.
  apply bind_inv_ok in Htake as ([slot [s1 m1]] & Hre & (q & _ & [= <- <- <-])%bind_inv_ok).
  destruct (negb _).
  - unfold take_reused in Hre. by apply bind_inv_ok in Hre as (? & _ & (? & _ & (? & _ & [= <- <- <-])%bind_inv_ok)%bind_inv_ok).
  - unfold take_fresh in Hre. destruct (_ =? _); [done|].
    apply bind_inv_ok in Hre as ([s2 m2] & Hblk & (hd & _ & (h & _ & (m3 & Hst & [= <- <- <-])%bind_inv_ok)%bind_inv_ok)%bind_inv_ok).
    unfold head_store in Hst. destruct (accessible _ _); [|done]. injection Hst as <-. simpl.
    apply map_Forall_insert_2; [done|]. unfold take_block in Hblk. destruct (_ =? _); [|by injection Hblk as <- <-].
    apply bind_inv_ok in Hblk as ([q2 m4] & Hal & (b & _ & [= <- <-])%bind_inv_ok).
    unfold ntt_aligned_or_die in Hal. destruct (alloc_ok _); [|done]. injection Hal as <- <-. simpl.
    intros a h' [Ha _]%map_lookup_filter_Some. by eapply Hm.
Qed.

Lemma store_effect self m fl i h m' :
  slab_inv self m fl -> 0 <= i < slab_size self -> head_store m (slab_addr self i) h = Ok m' ->
  slab_effect self self m m'.
Proof.
  intros Hinv Hi Hst. rewrite (head_store_ok _ _ _ _ _ Hinv Hi) in Hst. injection Hst as <-.
  split; [by left|]. intros a Ha. simpl. apply lookup_insert_ne. intros <-.
  destruct (slot_within _ _ _ i (sb_geom _ _ _ Hinv) Hi) as (b & Hb & Hw). by eapply Ha.
Qed.

Lemma retire_effect self m L i p g m' :
  slab_wf self m L -> i ∈ L -> ntt_slab_at self i = Ok p -> ntt_slab_retire m p = Ok (g, m') ->
  slab_effect self self m m'.
Proof.
  intros (fl & Hinv & HL) [Hi _]%HL Hat Hret. rewrite (at_ok _ _ _ i Hinv Hi) in Hat. injection Hat as <-.
  unfold ntt_slab_retire in Hret. apply bind_inv_ok in Hret as (h & _ & Hret).
  apply bind_inv_ok in Hret as (g0 & _ & Hret). apply bind_inv_ok in Hret as (m1 & Hst & [= _ <-]).
  by eapply store_effect.
Qed.

Lemma give_effect self m L i self' m' :
  slab_wf self m L -> i ∈ L -> ntt_slab_give self m i = Ok (self', m') -> slab_effect self self' m m'.
Proof.
  intros Hwf HiL Hgive. pose proof Hwf as (fl & Hinv & HL). pose proof (proj1 (HL i) HiL) as [Hi _].
  unfold ntt_slab_give in Hgive. rewrite (at_ok _ _ _ i Hinv Hi), bind_ok in Hgive.
  apply bind_inv_ok in Hgive as ([g m1] & Hret & Hgive). apply bind_inv_ok in Hgive as (h & _ & Hgive).
  apply bind_inv_ok in Hgive as (m2 & Hst & [= <- <-]).
  destruct (retire_wf self m L i Hwf HiL) as (g1 & m1' & Hret' & (fl1 & Hinv1 & _) & _).
  rewrite Hret in Hret'. injection Hret' as _ <-.
  pose proof (retire_effect _ _ _ _ _ _ _ Hwf HiL (at_ok _ _ _ i Hinv Hi) Hret) as [[[Hb1 _]|Hx] Hh1].
  2:{ destruct Hx as (b & al & _ & Hx & _). exfalso. apply (f_equal length) in Hx.
      rewrite length_app in Hx. simpl in Hx. lia. }
  destruct (store_effect _ _ _ _ _ _ Hinv1 Hi Hst) as [[[Hb2 _]|Hx] Hh2].
  2:{ destruct Hx as (b & al & _ & Hx & _). exfalso. apply (f_equal length) in Hx.
      rewrite length_app in Hx. simpl in Hx. lia. }
  split; [left; split; [congruence|done]|]. intros a Ha. rewrite Hh2 by exact Ha. by apply Hh1.
Qed.

Lemma step_effect self m L self' m' L' :
  slab_step (self, m, L) (self', m', L') -> slab_wf self m L -> slab_effect self self' m m'.
Proof.
  intros Hstep Hwf.
  inversion Hstep as [? ? ? p ? ? i Hok Htake Hix|? ? ? ? ? i Hi Hgive|? ? ? p g ? i Hi Hat Hret]; subst.
  - by eapply take_effect.
  - by eapply give_effect.
  - by eapply retire_effect.
Qed.

(** ** Allocations *)
Lemma apart_sym b c : apart b c -> apart c b.
Proof. unfold apart. tauto. Qed.

Lemma apart_elem (l : list (ptr * Z)) b c :
  List.ForallOrdPairs apart l -> b ∈ l -> c ∈ l -> b <> c -> apart b c.
Proof.
  intros Hl. induction Hl as [|x l Hx Hl IH]; [by intros ?%elem_of_nil|].
  rewrite List.Forall_forall in Hx.
  intros [->|Hb]%elem_of_cons [->|Hc]%elem_of_cons Hne; [done| | |by apply IH].
  - by apply Hx, list_elem_of_In.
  - by apply apart_sym, Hx, list_elem_of_In.
Qed.

Lemma alloc_sound m m' b align :
  mem_sound m -> mem_blocks m' = b :: mem_blocks m -> 0 < b.2 ->
  b.1 = aligned_addr (mem_blocks m) align b.2 -> mem_sound m'.
Proof.
  intros [Hap Hpos] Heq Hb Ha. unfold mem_sound. rewrite Heq. split.
  2:{ constructor; [|done]. pose proof (aligned_pos (mem_blocks m) align b.2) as Hx.
      rewrite <- Ha in Hx. by split. }
  constructor; [|done]. apply List.Forall_forall. intros [c n] Hin%list_elem_of_In. unfold apart. simpl.
  rewrite Ha. destruct (aligned_apart (mem_blocks m) align b.2 c n Hb Hin); lia.
Qed.

Lemma effect_sound self self' m m' : slab_effect self self' m m' -> mem_sound m -> mem_sound m'.
Proof.
  intros [[[Hb _]|(b & al & Hb & _ & Hpos & Ha)] _] Hs; [unfold mem_sound; by rewrite Hb|].
  by eapply alloc_sound.
Qed.

Lemma mem_sound_nodup m : mem_sound m -> NoDup (mem_blocks m).*1.
Proof.
  intros [Hap Hpos]. induction Hap as [|b l Hb Hl IH]; [constructor|].
  apply Forall_cons in Hpos as [Hb0 Hpos]. simpl. constructor; [|by apply IH].
  intros (c & Heq & Hc)%list_elem_of_fmap. rewrite List.Forall_forall in Hb. rewrite Forall_forall in Hpos.
  destruct (Hpos c Hc) as [_ Hc2]. destruct Hb0 as [_ Hb0]. assert (Hbc : apart b c) by (by apply Hb, list_elem_of_In).
  destruct b as [b nb], c as [c nc]. unfold apart in Hbc. simpl in *. subst c. lia.
Qed.

(** Writes inside of the allocations [mine], seen from a slab that has none of
    them. *)
Lemma wf_frame self m m' L (mine : list (ptr * Z)) :
  slab_wf self m L ->
  (forall a, (forall b, b ∈ mine -> ~ within a b) -> mem_heads m' !! a = mem_heads m !! a) ->
  (forall b, b ∈ slab_blocks self -> b ∈ mem_blocks m') ->
  (forall b c, b ∈ mine -> c ∈ slab_blocks self -> apart b c) ->
  slab_wf self m' L /\ forall i, 0 <= i < slab_size self -> gen_at self m' i = gen_at self m i.
Proof.
  intros (fl & Hinv & HL) Hheads Hlive Hap.
  assert (Hs : forall i, 0 <= i < slab_size self ->
    mem_heads m' !! slab_addr self i = mem_heads m !! slab_addr self i).
  { intros i Hi. apply Hheads. intros b Hb Hw.
    destruct (slot_within _ _ _ i (sb_geom _ _ _ Hinv) Hi) as (c & Hc & Hwc).
    destruct (Hap b c Hb Hc); unfold within in *; lia. }
  split.
  - exists fl. split; [|done]. by eapply slab_inv_frame.
  - intros i Hi. unfold gen_at. by rewrite Hs.
Qed.
End frame.
