(* ===== verification/NodeList.v ===== *)
(** * Intrusive lists and lists of tasks

    Translates [src/node.h], [src/list.h], [src/task_list.h] and the parts of
    [src/task.h] and [src/task.c] that handle the storage of a task.  Nodes live
    at addresses, so that pushing a node twice or following a stale link shows. *)

From stdpp Require Import base numbers list gmap.
From Stdlib Require Import ZArith Lia.
From S2P Require Import Prelude.

#[local] Open Scope Z_scope.

(** ** Nodes *)
Record ntt_node : Type := mk_node { node_next : option ptr; node_prev : option ptr }.

(** The callbacks of a task, by their addresses, and the first word of its payload. *)
Record ntt_task_node : Type := mk_task {
  task_cb : ptr;
  free_cb : ptr;
  payload0 : option ptr;
}.

(** The nodes and the tasks that are allocated.  A field that was never written
    is [None]. *)
Record nodes : Type := mk_nodes {
  node_mem : gmap ptr ntt_node;
  task_mem : gmap ptr ntt_task_node;
}.

Definition node_load (m : nodes) (p : ptr) : res ntt_node :=
  match node_mem m !! p with Some n => Ok n | None => Err InvalidPointer end.

Definition node_store (m : nodes) (p : ptr) (n : ntt_node) : res nodes :=
  match node_mem m !! p with
  | Some _ => Ok (mk_nodes (<[p := n]> (node_mem m)) (task_mem m))
  | None => Err InvalidPointer
  end.

(** [ntt_node_next_relaxed] and [ntt_node_next_acquire] *)
Definition ntt_node_next (m : nodes) (self : ptr) : res ptr :=
  n ← node_load m self; defined (node_next n).

(** [ntt_node_set_next_relaxed] and [ntt_node_set_next_release] *)
Definition ntt_node_set_next (m : nodes) (self next : ptr) : res nodes :=
  n ← node_load m self; node_store m self (mk_node (Some next) (node_prev n)).

(** [self->prev] *)
Definition node_get_prev (m : nodes) (self : ptr) : res ptr :=
  n ← node_load m self; defined (node_prev n).

Definition node_set_prev (m : nodes) (self prev : ptr) : res nodes :=
  n ← node_load m self; node_store m self (mk_node (node_next n) (Some prev)).

Definition ntt_node_init (m : nodes) (self : ptr) : res nodes := ntt_node_set_next m self NULL.

Definition ntt_node_unlinked (m : nodes) (self : ptr) : res bool :=
  next ← ntt_node_next m self; Ok (next =? NULL).

(** ** Lists: [self] is the address of the sentinel *)
Definition ntt_list_init (m : nodes) (self : ptr) : res nodes :=
  m ← ntt_node_set_next m self self;
  node_set_prev m self self.

Definition ntt_list_empty (m : nodes) (self : ptr) : res bool :=
  next ← ntt_node_next m self; Ok (next =? self).

Definition ntt_list_push_back (m : nodes) (self node : ptr) : res (bool * nodes) :=
  rc ← ntt_list_empty m self;
  m ← ntt_node_set_next m node self;
  p ← node_get_prev m self;
  m ← node_set_prev m node p;
  p ← node_get_prev m self;
  m ← ntt_node_set_next m p node;
  m ← node_set_prev m self node;
  Ok (rc, m).

Definition ntt_list_front (m : nodes) (self : ptr) : res ptr := ntt_node_next m self.

Definition ntt_list_next (m : nodes) (self : ptr) : res (ptr * nodes) :=
  head ← ntt_node_next m self;
  next ← ntt_node_next m head;
  m ← ntt_node_set_next m self next;
  m ← node_set_prev m next self;
  m ← ntt_node_set_next m head NULL;
  Ok (if negb (next =? self) then next else NULL, m).

(** ** Tasks

    The payload is 32 bytes into the task node, and the node is its first field. *)
Definition PAYLOAD_OFFSET : Z := 32.
Definition NTT_TASK_PAYLOAD_ALIGN : Z := 8.

Section tasks.
Context `{Platform}.

Definition ntt_is_aligned (p align : Z) : bool := p mod align =? 0.

(** [ntt_container_of(task, ntt_task_node_t, payload)] *)
Definition task_node_of (task : ptr) : ptr := task - PAYLOAD_OFFSET.

Definition ntt_task_unlinked (m : nodes) (task : ptr) : res bool :=
  ntt_node_unlinked m (task_node_of task).

(** [ntt_task_create_inl], on the storage [self] that [ntt_malloc] returned;
    [ntt_free_addr] is the address of the function [ntt_free]. *)
Definition ntt_task_create_inl (ntt_free_addr : ptr) (m : nodes) (self cb fcb : ptr) : res nodes :=
  c_assert (negb (self =? NULL)) ;;
  c_assert (ntt_is_aligned (self + PAYLOAD_OFFSET) NTT_TASK_PAYLOAD_ALIGN) ;;
  let m := mk_nodes (<[self := mk_node None None]> (node_mem m)) (task_mem m) in
  m ← ntt_node_init m self;
  let fcb := if fcb =? NULL then ntt_free_addr else fcb in
  Ok (mk_nodes (node_mem m) (<[self := mk_task cb fcb None]> (task_mem m))).

Definition ntt_task_create_with_ctx (ntt_free_addr : ptr) (m : nodes) (self cb fcb ctx : ptr) :
    res (ptr * nodes) :=
  c_assert (negb (self =? NULL)) ;;
  c_assert (ntt_is_aligned (self + PAYLOAD_OFFSET) NTT_TASK_PAYLOAD_ALIGN) ;;
  let m := mk_nodes (<[self := mk_node None None]> (node_mem m)) (task_mem m) in
  m ← ntt_node_init m self;
  let fcb := if fcb =? NULL then ntt_free_addr else fcb in
  Ok (self + PAYLOAD_OFFSET, mk_nodes (node_mem m) (<[self := mk_task cb fcb (Some ctx)]> (task_mem m))).

(** [ntt_task_create] *)
Definition ntt_task_create (ntt_free_addr : ptr) (m : nodes) (self cb : ptr) : res (ptr * nodes) :=
  m ← ntt_task_create_inl ntt_free_addr m self cb NULL;
  Ok (self + PAYLOAD_OFFSET, m).

(** ** Lists of tasks *)
Definition ntt_task_list_init (m : nodes) (self : ptr) : res nodes := ntt_list_init m self.

Definition ntt_task_list_push (m : nodes) (self task : ptr) : res (bool * nodes) :=
  unlinked ← ntt_task_unlinked m task;
  c_assert unlinked ;;
  ntt_list_push_back m self (task_node_of task).

Definition ntt_task_list_empty (m : nodes) (self : ptr) : res bool := ntt_list_empty m self.

Definition ntt_task_list_front (m : nodes) (self : ptr) : res ptr :=
  empty ← ntt_task_list_empty m self;
  c_assert (negb empty) ;;
  node ← ntt_list_front m self;
  Ok (node + PAYLOAD_OFFSET).

Definition ntt_task_list_next (m : nodes) (self : ptr) : res (ptr * nodes) :=
  empty ← ntt_task_list_empty m self;
  c_assert (negb empty) ;;
  '(node, m) ← ntt_list_next m self;
  if node =? NULL then Ok (NULL, m) else Ok (node + PAYLOAD_OFFSET, m).
End tasks.
