(* ===== verification/NodeListProps.v ===== *)
(** * Intrusive lists: properties

    A list in memory represents a sequence of nodes; pushing and dropping are
    the operations of a first-in first-out queue on it. *)

From stdpp Require Import base numbers list gmap.
From Stdlib Require Import ZArith Lia.
From S2P Require Import Prelude.
From S2P Require Import NodeList.

#[local] Open Scope Z_scope.

(** The nodes [l] are linked one after the other from [p] to [q]. *)
Fixpoint seg (m : nodes) (p : ptr) (l : list ptr) (q : ptr) : Prop :=
  match l with
  | [] => ntt_node_next m p = Ok q /\ node_get_prev m q = Ok p
  | x :: l => ntt_node_next m p = Ok x /\ node_get_prev m x = Ok p /\ seg m x l q
  end.

(** The list with the sentinel [self] holds the nodes [l]. *)
Definition represents (m : nodes) (self : ptr) (l : list ptr) : Prop :=
  NoDup (self :: l) /\ (NULL ∉ self :: l) /\ seg m self l self.

(** A node that is linked as before. *)
Definition same_links (m m' : nodes) (p : ptr) : Prop :=
  ntt_node_next m' p = ntt_node_next m p /\ node_get_prev m' p = node_get_prev m p.

(** ** What an update of one node does to the fields of all nodes *)
Lemma set_next_ok m p v :
  is_Some (node_mem m !! p) ->
  exists m', ntt_node_set_next m p v = Ok m' /\ task_mem m' = task_mem m /\
    (forall q, is_Some (node_mem m' !! q) <-> is_Some (node_mem m !! q)) /\
    (forall q, ntt_node_next m' q = if decide (q = p) then Ok v else ntt_node_next m q) /\
    (forall q, node_get_prev m' q = node_get_prev m q).
Proof.
  intros [n Hn]. unfold ntt_node_set_next, node_load. rewrite Hn, bind_ok. unfold node_store. rewrite Hn.
  eexists. split; [done|]. unfold ntt_node_next, node_get_prev, node_load. simpl.
  split_and!; [done|..]; intros q; destruct (decide (q = p)) as [->|Hne];
    rewrite ?lookup_insert_eq, ?lookup_insert_ne by done; rewrite ?Hn; done || (split; eauto).
Qed.

Lemma set_prev_ok m p v :
  is_Some (node_mem m !! p) ->
  exists m', node_set_prev m p v = Ok m' /\ task_mem m' = task_mem m /\
    (forall q, is_Some (node_mem m' !! q) <-> is_Some (node_mem m !! q)) /\
    (forall q, ntt_node_next m' q = ntt_node_next m q) /\
    (forall q, node_get_prev m' q = if decide (q = p) then Ok v else node_get_prev m q).
Proof.
  intros [n Hn]. unfold node_set_prev, node_load. rewrite Hn, bind_ok. unfold node_store. rewrite Hn.
  eexists. split; [done|]. unfold ntt_node_next, node_get_prev, node_load. simpl.
  split_and!; [done|..]; intros q; destruct (decide (q = p)) as [->|Hne];
    rewrite ?lookup_insert_eq, ?lookup_insert_ne by done; rewrite ?Hn; done || (split; eauto).
Qed.

Lemma next_alloc m p v : ntt_node_next m p = Ok v -> is_Some (node_mem m !! p).
Proof. unfold ntt_node_next, node_load. destruct (node_mem m !! p); [eauto|done]. Qed.

Lemma prev_alloc m p v : node_get_prev m p = Ok v -> is_Some (node_mem m !! p).
Proof. unfold node_get_prev, node_load. destruct (node_mem m !! p); [eauto|done]. Qed.

(** A segment depends only on the links it goes through. *)
Lemma seg_frame m m' p l q :
  (forall x, x ∈ p :: l -> ntt_node_next m' x = ntt_node_next m x) ->
  (forall x, x ∈ l ++ [q] -> node_get_prev m' x = node_get_prev m x) ->
  seg m p l q -> seg m' p l q.
Proof.
  revert p. induction l as [|x l IH]; intros p Hn Hp; simpl.
  - intros [H1 H2]. rewrite Hn, Hp by (by left). done.
  - intros (H1 & H2 & H3). rewrite Hn, Hp by (by left). split_and!; [done|done|].
    apply IH; [| |done]; intros y Hy; [apply Hn|apply Hp]; by right.
Qed.

Lemma seg_app m p l1 x l2 q : seg m p (l1 ++ x :: l2) q <-> seg m p l1 x /\ seg m x l2 q.
Proof.
  revert p. induction l1 as [|y l1 IH]; intros p; simpl; [tauto|]. rewrite IH. tauto.
Qed.

(** The last node before [q]. *)
Lemma seg_last m p l q : seg m p l q -> node_get_prev m q = Ok (default p (last l)).
Proof.
  revert p. induction l as [|x l IH]; intros p; simpl; [by intros []|].
  intros (_ & _ & Hs). rewrite (IH x Hs), last_cons. by destruct (last l).
Qed.

Lemma empty_ok m self l : represents m self l -> ntt_list_empty m self = Ok (bool_decide (l = [])).
Proof.
  intros (Hnd & _ & Hs). unfold ntt_list_empty. destruct l as [|x l]; simpl in Hs.
  - destruct Hs as [-> _]. by rewrite bind_ok, Z.eqb_refl.
  - destruct Hs as (-> & _). rewrite bind_ok. destruct (Z.eqb_spec x self) as [->|]; [|done].
    apply NoDup_cons in Hnd as [Hni _]. exfalso. apply Hni. by left.
Qed.

Lemma push_back_ok m self l node :
  represents m self l -> (node ∉ self :: l) -> node <> NULL -> is_Some (node_mem m !! node) ->
  exists m', ntt_list_push_back m self node = Ok (bool_decide (l = []), m') /\
    represents m' self (l ++ [node]) /\ task_mem m' = task_mem m /\
    (forall p, p ∉ self :: node :: l -> same_links m m' p).
Proof.
  intros Hrep Hnew Hnn Hal. pose proof Hrep as (Hnd & Hnull & Hs). unfold ntt_list_push_back.
  rewrite (empty_ok m self l Hrep), bind_ok. set (p := default self (last l)).
  pose proof (seg_last _ _ _ _ Hs) as Hlast. fold p in Hlast.
  assert (Hp : p ∈ self :: l).
  { unfold p. destruct (last l) as [x|] eqn:Hl; [right; by eapply last_Some_elem_of|by left]. }
  assert (Hself : is_Some (node_mem m !! self)) by (by eapply prev_alloc).
  assert (Hpal : is_Some (node_mem m !! p)).
  { unfold p. destruct l as [|x l'] using rev_ind; [done|]. rewrite last_snoc. simpl.
    rewrite seg_app in Hs. destruct Hs as [_ [Hx _]]. by eapply next_alloc. }
  destruct (set_next_ok m node self Hal) as (m1 & -> & Ht1 & Ha1 & Hn1 & Hp1). rewrite bind_ok, Hp1, Hlast, bind_ok.
  destruct (set_prev_ok m1 node p) as (m2 & -> & Ht2 & Ha2 & Hn2 & Hp2); [by apply Ha1|]. rewrite bind_ok.
  assert (Hne : self <> node) by (intros ->; apply Hnew; by left).
  rewrite Hp2, decide_False, Hp1, Hlast, bind_ok by done.
  destruct (set_next_ok m2 p node) as (m3 & -> & Ht3 & Ha3 & Hn3 & Hp3); [by apply Ha2, Ha1|]. rewrite bind_ok.
  destruct (set_prev_ok m3 self node) as (m4 & -> & Ht4 & Ha4 & Hn4 & Hp4); [by apply Ha3, Ha2, Ha1|]. rewrite bind_ok.
  assert (Hpn : p <> node) by (intros Heq; rewrite Heq in Hp; done).
  assert (Hnext : forall q, ntt_node_next m4 q =
    if decide (q = p) then Ok node else if decide (q = node) then Ok self else ntt_node_next m q).
  { intros q. rewrite Hn4, Hn3. case_decide; [done|]. by rewrite Hn2, Hn1. }
  assert (Hprev : forall q, node_get_prev m4 q =
    if decide (q = self) then Ok node else if decide (q = node) then Ok p else node_get_prev m q).
  { intros q. rewrite Hp4. case_decide; [done|]. by rewrite Hp3, Hp2, Hp1. }
  exists m4. split; [done|]. split_and!; [|congruence|].
  - split_and!.
    + rewrite app_comm_cons. apply NoDup_app. split_and!; [done| |apply NoDup_singleton].
      intros x Hx ->%list_elem_of_singleton. done.
    + intros [Hx|[Hx|Hx%list_elem_of_singleton]%elem_of_app]%elem_of_cons;
        [apply Hnull; rewrite Hx; by left|apply Hnull; by right|congruence].
    + apply seg_app. split; [|simpl; rewrite Hnext, Hprev, decide_False, decide_True, decide_True by congruence; done].
      unfold p in *. destruct l as [|x l'] using rev_ind.
      * simpl in *. rewrite Hnext, decide_True, Hprev, decide_False, decide_True by congruence. done.
      * rewrite last_snoc in *. simpl in *. clear IHl'. rewrite seg_app in *. destruct Hs as [Hs1 Hs2].
        assert (Hx : forall y, y ∈ self :: l' -> y <> x /\ y <> node).
        { intros y Hy. rewrite app_comm_cons in Hnd. apply NoDup_app in Hnd as (_ & Hd & _). split.
          - intros ->. eapply Hd; [done|by left].
          - intros ->. apply Hnew. rewrite app_comm_cons, elem_of_app. by left. }
        split; [|simpl; rewrite Hnext, decide_True, Hprev, decide_False, decide_True by congruence; done].
        eapply seg_frame; [..|exact Hs1].
        -- intros y Hy. destruct (Hx y Hy). by rewrite Hnext, !decide_False.
        -- intros y Hy. rewrite Hprev, !decide_False; [done| |].
           ++ intros ->. apply Hnew. by right.
           ++ intros ->. apply NoDup_cons in Hnd as [Hns _]. done.
  - intros q Hq. assert (q <> self /\ q <> node /\ q <> p) as (H1 & H2 & H3).
    { rewrite !not_elem_of_cons in Hq. destruct Hq as (? & ? & Hl). split_and!; try done.
      intros ->. apply elem_of_cons in Hp as [?|?]; done. }
    split; [by rewrite Hnext, !decide_False|by rewrite Hprev, !decide_False].
Qed.

Lemma next_ok m self x l :
  represents m self (x :: l) ->
  exists m', ntt_list_next m self = Ok (default NULL (head l), m') /\
    represents m' self l /\ ntt_node_next m' x = Ok NULL /\ task_mem m' = task_mem m /\
    (forall p, p ∉ self :: x :: l -> same_links m m' p).
Proof.
  intros (Hnd & Hnull & Hs). pose proof Hs as (Hsx & Hxp & Hxl).
  assert (Hsx' : self <> x) by (intros ->; apply NoDup_cons in Hnd as [Hn _]; apply Hn; by left).
  apply NoDup_cons in Hnd as [Hns Hnd]. apply NoDup_cons in Hnd as [Hnx Hnd].
  set (y := default self (head l)).
  assert (Hy : ntt_node_next m x = Ok y) by (destruct l; by destruct Hxl as [-> _]).
  assert (Hyal : is_Some (node_mem m !! y)).
  { destruct l as [|z l]; simpl in Hxl; [by eapply next_alloc|]. destruct Hxl as (_ & Hz & _). by eapply prev_alloc. }
  unfold ntt_list_next. rewrite Hsx, bind_ok, Hy, bind_ok.
  destruct (set_next_ok m self y) as (m1 & -> & Ht1 & Ha1 & Hn1 & Hp1); [by eapply next_alloc|]. rewrite bind_ok.
  destruct (set_prev_ok m1 y self) as (m2 & -> & Ht2 & Ha2 & Hn2 & Hp2); [by apply Ha1|]. rewrite bind_ok.
  destruct (set_next_ok m2 x NULL) as (m3 & -> & Ht3 & Ha3 & Hn3 & Hp3).
  { apply Ha2, Ha1. by eapply next_alloc. }
  rewrite bind_ok.
  assert (Hnext : forall q, ntt_node_next m3 q =
    if decide (q = x) then Ok NULL else if decide (q = self) then Ok y else ntt_node_next m q).
  { intros q. rewrite Hn3. case_decide; [done|]. by rewrite Hn2, Hn1. }
  assert (Hprev : forall q, node_get_prev m3 q = if decide (q = y) then Ok self else node_get_prev m q).
  { intros q. by rewrite Hp3, Hp2, Hp1. }
  exists m3. split_and!.
  - destruct l as [|z l]; simpl in y; unfold y; simpl; [by rewrite Z.eqb_refl|].
    destruct (Z.eqb_spec z self) as [->|]; [|done]. exfalso. apply Hns. right. by left.
  - split_and!.
    + apply NoDup_cons. split; [|done]. intros Hin. apply Hns. by right.
    + intros Hin. apply Hnull. apply elem_of_cons in Hin as [->|]; [by left|right; by right].
    + destruct l as [|z l]; simpl in y; subst y; simpl.
      * by rewrite Hnext, Hprev, decide_False, !decide_True.
      * destruct Hxl as (_ & _ & Hz). split_and!; [by rewrite Hnext, decide_False, decide_True|by rewrite Hprev, decide_True|].
        eapply seg_frame; [..|exact Hz].
        -- intros w Hw. rewrite Hnext, !decide_False; [done| |]; intros ->; [apply Hns; by right|done].
        -- intros w Hw. rewrite Hprev, decide_False; [done|]. intros ->.
           apply elem_of_app in Hw as [Hw|Hw%list_elem_of_singleton].
           ++ by apply NoDup_cons in Hnd as [? _].
           ++ apply Hns. right. rewrite <- Hw. by left.
  - by rewrite Hnext, decide_True.
  - congruence.
  - intros q Hq. rewrite !not_elem_of_cons in Hq. destruct Hq as (Hqs & Hqx & Hql).
    split; [by rewrite Hnext, !decide_False|]. rewrite Hprev, decide_False; [done|]. intros ->.
    destruct l as [|z l]; [done|]. apply Hql. by left.
Qed.

(** A linked node does not look unlinked. *)
Lemma seg_next m p l q x : seg m p l q -> x ∈ p :: l -> exists y, ntt_node_next m x = Ok y /\ y ∈ l ++ [q].
Proof.
  revert p. induction l as [|z l IH]; intros p Hs Hx; simpl in Hs.
  - apply list_elem_of_singleton in Hx as ->. exists q. split; [apply Hs|by left].
  - destruct Hs as (H1 & _ & H3). apply elem_of_cons in Hx as [->|Hx]; [exists z; split; [done|by left]|].
    destruct (IH z H3 Hx) as (y & Hy & Hin). exists y. split; [done|by right].
Qed.

Lemma linked_next m self l x :
  represents m self l -> x ∈ self :: l -> exists y, ntt_node_next m x = Ok y /\ y <> NULL.
Proof.
  intros (_ & Hnull & Hs) Hx. destruct (seg_next _ _ _ _ _ Hs Hx) as (y & Hy & Hin). exists y.
  split; [done|]. intros ->. apply Hnull. apply elem_of_app in Hin as [Hin|Hin%list_elem_of_singleton];
    [by right|rewrite Hin; by left].
Qed.

(** ** Lists of tasks *)

(** The list holds the tasks [ts], in this order. *)
Definition holds_tasks (m : nodes) (self : ptr) (ts : list ptr) : Prop :=
  represents m self (task_node_of <$> ts).

Section props.
Context `{Platform}.

(** Pushing a task that is not linked appends it to the list, and tells
    whether the list was empty; links of other lists are not touched. *)
Theorem task_list_push_appends m self ts task :
  holds_tasks m self ts -> ntt_task_unlinked m task = Ok true -> task_node_of task <> NULL ->
  exists m', ntt_task_list_push m self task = Ok (bool_decide (ts = []), m') /\
    holds_tasks m' self (ts ++ [task]) /\
    forall p, p ∉ self :: (task_node_of <$> ts ++ [task]) -> same_links m m' p.
Proof.
  intros Hrep Hun Hnn. unfold ntt_task_list_push. rewrite Hun, bind_ok, c_assert_true, bind_ok by done.
  unfold ntt_task_unlinked, ntt_node_unlinked in Hun. apply bind_inv_ok in Hun as (nx & Hnx & [= Hz]).
  apply Z.eqb_eq in Hz as ->.
  destruct (push_back_ok m self (task_node_of <$> ts) (task_node_of task) Hrep)
    as (m' & -> & Hrep' & _ & Hframe); [|done|by eapply next_alloc|].
  - intros Hin. destruct (linked_next _ _ _ _ Hrep Hin) as (y & Hy & Hne). congruence.
  - exists m'. split_and!.
    + by destruct ts.
    + unfold holds_tasks. by rewrite fmap_app.
    + intros p Hp. apply Hframe. intros Hin. apply Hp.
      rewrite fmap_app. simpl. rewrite !elem_of_cons, elem_of_app in *. rewrite list_elem_of_singleton. tauto.
Qed.

(** A task that is still linked is rejected by a debug build. *)
Theorem task_list_push_linked m self ts task :
  holds_tasks m self ts -> task ∈ ts -> ndebug = false ->
  ntt_task_list_push m self task = Err AssertFailure.
Proof.
  intros Hrep Hin Hdebug. unfold ntt_task_list_push, ntt_task_unlinked, ntt_node_unlinked.
  destruct (linked_next m self (task_node_of <$> ts) (task_node_of task) Hrep) as (y & -> & Hne).
  - right. by apply list_elem_of_fmap_2.
  - rewrite !bind_ok. unfold c_assert. rewrite Hdebug. by destruct (Z.eqb_spec y NULL).
Qed.

(** The front of a list is the task pushed first; dropping it leaves the
    others in order, hands out the next one, and the dropped task is no longer
    linked. *)
Theorem task_list_next_drops m self t ts :
  holds_tasks m self (t :: ts) ->
  ntt_task_list_front m self = Ok t /\
  exists m', ntt_task_list_next m self = Ok (default NULL (head ts), m') /\
    holds_tasks m' self ts /\ ntt_task_unlinked m' t = Ok true /\
    forall p, p ∉ self :: (task_node_of <$> t :: ts) -> same_links m m' p.
Proof.
  intros Hrep. unfold holds_tasks in Hrep. rewrite fmap_cons in Hrep.
  unfold ntt_task_list_front, ntt_task_list_next, ntt_task_list_empty, ntt_list_front.
  rewrite (empty_ok _ _ _ Hrep), bind_ok, c_assert_true, bind_ok by done.
  pose proof Hrep as (_ & Hnull & Hs & _). rewrite Hs, bind_ok. split.
  { f_equal. unfold task_node_of. lia. }
  destruct (next_ok _ _ _ _ Hrep) as (m' & -> & Hrep' & Hx & _ & Hframe). rewrite bind_ok.
  exists m'. split_and!; [|done|unfold ntt_task_unlinked, ntt_node_unlinked; by rewrite Hx|exact Hframe].
  rewrite c_assert_true, !bind_ok by done.
  destruct ts as [|u ts]; [done|]. simpl.
  destruct (Z.eqb_spec (task_node_of u) NULL) as [Heq|_].
  - exfalso. apply Hnull. rewrite <- Heq. simpl. right. right. by left.
  - f_equal. f_equal. unfold task_node_of. lia.
Qed.
End props.

(** ** Witnesses: a sentinel at 8 and two tasks *)
Module TaskListExample.
#[local] Instance machine : Platform := {| ndebug := false; alloc_ok := fun _ => true |}.

Definition mem0 : nodes := mk_nodes {[ 8 := mk_node None None ]} ∅.

(** Creates the list and the tasks, and pushes the first one. *)
Definition run : res nodes :=
  m ← ntt_task_list_init mem0 8;
  '(t1, m) ← ntt_task_create 4096 m 64 5000;
  '(t2, m) ← ntt_task_create_with_ctx 4096 m 128 5000 NULL 77;
  '(_, m) ← ntt_task_list_push m 8 t1;
  Ok m.

Definition mem1 : nodes := match run with Ok m => m | Err _ => mem0 end.

Lemma mem1_holds : holds_tasks mem1 8 [96].
Proof.
  split_and!.
  - repeat constructor; set_solver.
  - unfold NULL, task_node_of, PAYLOAD_OFFSET. set_solver.
  - by vm_compute.
Qed.

Lemma task_list_push_appends_witness :
  exists m', ntt_task_list_push mem1 8 160 = Ok (false, m') /\ holds_tasks m' 8 [96; 160].
Proof.
  destruct (task_list_push_appends mem1 8 [96] 160 mem1_holds) as (m' & Heq & Hh & _);
    [by vm_compute|done|].
  exists m'. split; [exact Heq|exact Hh].
Defined.

Lemma task_list_push_linked_witness : ntt_task_list_push mem1 8 96 = Err AssertFailure.
Proof. apply (task_list_push_linked mem1 8 [96] 96 mem1_holds); [by left|reflexivity]. Defined.

Lemma task_list_next_drops_witness :
  ntt_task_list_front mem1 8 = Ok 96 /\
  exists m', ntt_task_list_next mem1 8 = Ok (NULL, m') /\ holds_tasks m' 8 [].
Proof.
  destruct (task_list_next_drops mem1 8 96 [] mem1_holds) as [Hf (m' & Hn & Hh & _)].
  split; [exact Hf|]. exists m'. split; [exact Hn|exact Hh].
Defined.
End TaskListExample.
