(* ===== verification/Task.v ===== *)
(** * Allocation and the life of a task

    Translates the wrappers of [malloc] in [src/malloc.c] and what [src/task.h]
    and [src/task.c] do with a task besides linking it: creating it in memory of
    its own, calling its callback to run it and to drop it, and freeing it.  The
    callbacks are code around the library; [CallbackLaws] is what
    [include/ntt/task.h] asks of them. *)

From stdpp Require Import base numbers list gmap.
From Stdlib Require Import ZArith Lia.
From S2P Require Import Prelude.
From S2P Require Import Slab.
From S2P Require Import SlabInv.
From S2P Require Import SlabProps.
From S2P Require Import NodeList.

#[local] Open Scope Z_scope.

(** ** Allocation *)
Section malloc.
Context `{Platform} `{Allocator}.

(** What [malloc] aligns to. *)
Definition MALLOC_ALIGN : Z := 16.

(** [malloc] of the system. *)
Definition malloc (m : memory) (s : Z) : ptr * memory :=
  if alloc_ok s then
    let p := aligned_addr (mem_blocks m) MALLOC_ALIGN s in
    (p, mk_memory ((p, s) :: mem_blocks m) (filter (fun '(a, _) => ~ (p <= a < p + s)) (mem_heads m)))
  else (NULL, m).

Definition ntt_malloc (m : memory) (s : Z) : res (ptr * memory) :=
  let '(p, m) := malloc m s in
  c_assert (negb (p =? NULL)) ;;
  Ok (p, m).

Definition ntt_malloc_or_die (m : memory) (s : Z) : res (ptr * memory) :=
  let '(p, m) := malloc m s in
  if p =? NULL then Err Die else Ok (p, m).

(** The two of them where the allocation succeeds, and where it fails. *)
Lemma malloc_or_die_aligned `{!AllocatorLaws} m s : ntt_malloc_or_die m s = ntt_aligned_or_die m MALLOC_ALIGN s.
Proof.
  unfold ntt_malloc_or_die, malloc, ntt_aligned_or_die. destruct (alloc_ok s); [|done].
  pose proof (aligned_pos (mem_blocks m) MALLOC_ALIGN s) as Hp.
  destruct (Z.eqb_spec (aligned_addr (mem_blocks m) MALLOC_ALIGN s) NULL) as [He|]; [|done].
  unfold NULL in He. lia.
Qed.

Lemma malloc_ok `{!AllocatorLaws} m s :
  alloc_ok s = true -> ntt_malloc m s = ntt_malloc_or_die m s.
Proof.
  intros Ha. unfold ntt_malloc, ntt_malloc_or_die, malloc. rewrite Ha.
  pose proof (aligned_pos (mem_blocks m) MALLOC_ALIGN s) as Hp.
  destruct (Z.eqb_spec (aligned_addr (mem_blocks m) MALLOC_ALIGN s) NULL) as [He|]; [unfold NULL in He; lia|].
  by rewrite c_assert_true, bind_ok.
Qed.

(** A release build returns the null pointer that [malloc.h] rules out. *)
Lemma malloc_returns_null m s : ndebug = true -> alloc_ok s = false -> ntt_malloc m s = Ok (NULL, m).
Proof. intros Hn Ha. unfold ntt_malloc, malloc, c_assert. by rewrite Ha, Hn. Qed.
End malloc.

(** ** Tasks *)
Inductive ntt_task_action : Type := NTT_TASK_RUN | NTT_TASK_DROP.

(** The memory, the tasks in it, and the calls of task callbacks so far: the
    callback, the payload and the action. *)
Record heap : Type := mk_heap {
  hp_mem : memory;
  hp_nodes : nodes;
  hp_calls : list (ptr * ptr * ntt_task_action);
}.

Definition hp_called c h := mk_heap (hp_mem h) (hp_nodes h) (hp_calls h ++ [c]).

(** The code behind callbacks, by their addresses, and the address of [ntt_free]. *)
Class Callbacks : Type := {
  ntt_free_addr : ptr;
  call_task : ptr -> ptr -> ntt_task_action -> heap -> heap;
  call_free : ptr -> ptr -> heap -> res heap;
}.

(** The storage of tasks is not the business of their callbacks: they leave
    every task allocated, with its callbacks, and forget no call. *)
Class CallbackLaws `{Callbacks} : Prop := {
  task_kept : forall cb payload action h q t, task_mem (hp_nodes h) !! q = Some t ->
    task_mem (hp_nodes (call_task cb payload action h)) !! q = Some t;
  storage_kept : forall cb payload action h q, is_Some (task_mem (hp_nodes h) !! q) ->
    q ∈ (mem_blocks (hp_mem h)).*1 -> q ∈ (mem_blocks (hp_mem (call_task cb payload action h))).*1;
  calls_kept : forall cb payload action h, hp_calls h `prefix_of` hp_calls (call_task cb payload action h);
}.

(** [sizeof(ntt_task_node_t)] *)
Definition NTT_TASK_NODE_SIZE : Z := 64.

Section ops.
Context `{Platform} `{Allocator} `{Callbacks}.

Definition load_task (h : heap) (node : ptr) : res ntt_task_node :=
  match task_mem (hp_nodes h) !! node with Some t => Ok t | None => Err InvalidPointer end.

(** [ntt_task_init], in storage of the caller. *)
Definition ntt_task_init (h : heap) (node cb fcb : ptr) : res (ptr * heap) :=
  n ← ntt_node_init (hp_nodes h) node;
  Ok (node + PAYLOAD_OFFSET,
      mk_heap (hp_mem h) (mk_nodes (node_mem n) (<[node := mk_task cb fcb None]> (task_mem n))) (hp_calls h)).

(** [ntt_task_create], storage included; writing through a null pointer is a
    fault. *)
Definition task_new (h : heap) (cb : ptr) : res (ptr * heap) :=
  '(self, m) ← ntt_malloc (hp_mem h) NTT_TASK_NODE_SIZE;
  if self =? NULL then Err InvalidPointer
  else '(task, n) ← ntt_task_create ntt_free_addr (hp_nodes h) self cb; Ok (task, mk_heap m n (hp_calls h)).

Definition ntt_task_is_null (h : heap) (task : ptr) : res bool :=
  t ← load_task h (task_node_of task); Ok (task_cb t =? NULL).

(** A call of the callback of a task. *)
Definition invoke (cb payload : ptr) (action : ntt_task_action) (h : heap) : heap :=
  call_task cb payload action (hp_called (cb, payload, action) h).

Definition ntt_task_svc_inl (h : heap) (task : ptr) : res heap :=
  t ← load_task h (task_node_of task);
  Ok (invoke (task_cb t) (task_node_of task + PAYLOAD_OFFSET) NTT_TASK_RUN h).

(** [ntt_free] of the storage of a task: the task is gone with it. *)
Definition free_task (h : heap) (node : ptr) : res heap :=
  m ← ntt_free (hp_mem h) node;
  Ok (mk_heap m (mk_nodes (delete node (node_mem (hp_nodes h))) (delete node (task_mem (hp_nodes h)))) (hp_calls h)).

Definition ntt_task_destroy_inl (h : heap) (task : ptr) : res heap :=
  let node := task_node_of task in
  t ← load_task h node;
  let h := invoke (task_cb t) (node + PAYLOAD_OFFSET) NTT_TASK_DROP h in
  t ← load_task h node;
  if free_cb t =? ntt_free_addr then free_task h node else call_free (free_cb t) node h.

Definition ntt_task_svc (h : heap) (self : ptr) : res heap := ntt_task_svc_inl h self.
Definition ntt_task_destroy (h : heap) (self : ptr) : res heap := ntt_task_destroy_inl h self.
End ops.

(** ** Properties *)
Section props.
Context `{Platform} `{Allocator, !AllocatorLaws} `{Callbacks, !CallbackLaws}.

(** A task with its callback [cb] that is freed by [ntt_free]. *)
Definition owns (h : heap) (task cb : ptr) : Prop :=
  (exists t, task_mem (hp_nodes h) !! task_node_of task = Some t /\ task_cb t = cb /\ free_cb t = ntt_free_addr) /\
  task_node_of task ∈ (mem_blocks (hp_mem h)).*1 /\ task_node_of task <> NULL.

Lemma task_new_owns h cb :
  alloc_ok NTT_TASK_NODE_SIZE = true ->
  exists task h', task_new h cb = Ok (task, h') /\ owns h' task cb /\ hp_calls h' = hp_calls h /\
    mem_blocks (hp_mem h') = (task_node_of task, NTT_TASK_NODE_SIZE) :: mem_blocks (hp_mem h).
Proof.
  intros Ha. unfold task_new. rewrite malloc_ok, malloc_or_die_aligned by done. unfold ntt_aligned_or_die. rewrite Ha, bind_ok.
  set (p := aligned_addr _ _ _). pose proof (aligned_pos (mem_blocks (hp_mem h)) MALLOC_ALIGN NTT_TASK_NODE_SIZE) as Hp.
  fold p in Hp. assert (Hne : p <> NULL) by (unfold NULL; lia).
  cbv beta iota. unfold ntt_task_create, ntt_task_create_inl. rewrite (proj2 (Z.eqb_neq p NULL) Hne).
  rewrite (c_assert_true (negb false) eq_refl), bind_ok. rewrite (c_assert_true (ntt_is_aligned _ _)), bind_ok.
  2:{ unfold ntt_is_aligned, PAYLOAD_OFFSET, NTT_TASK_PAYLOAD_ALIGN. apply Z.eqb_eq.
      destruct (aligned_aligned (mem_blocks (hp_mem h)) MALLOC_ALIGN NTT_TASK_NODE_SIZE ltac:(by vm_compute)) as [k Hk].
      fold p in Hk. unfold MALLOC_ALIGN in Hk. rewrite Hk.
      replace (k * 16 + 32) with ((k * 2 + 4) * 8) by lia. apply Z_mod_mult. }
  unfold ntt_node_init, ntt_node_set_next, node_load, node_store. simpl.
  rewrite lookup_insert_eq, !bind_ok.
  eexists _, _. split; [done|]. unfold owns, task_node_of. rewrite Z.add_simpl_r. simpl. split_and!; try done.
  - eexists. by rewrite lookup_insert_eq.
  - by left.
Qed.

Lemma invoke_owns h task cb cb' payload action : owns h task cb -> owns (invoke cb' payload action h) task cb.
Proof.
  intros [(t & Ht & Hcb) [Hb Hn]]. unfold invoke. split_and!; [|by apply storage_kept|done].
  exists t. split; [|done]. by apply task_kept.
Qed.

Lemma invoke_calls h cb payload action :
  exists k, hp_calls (invoke cb payload action h) = hp_calls h ++ (cb, payload, action) :: k.
Proof.
  unfold invoke. destruct (calls_kept cb payload action (hp_called (cb, payload, action) h)) as [k Hk].
  exists k. rewrite Hk. simpl. by rewrite <- app_assoc.
Qed.

Lemma svc_owns h task cb :
  owns h task cb -> ntt_task_svc h task = Ok (invoke cb task NTT_TASK_RUN h).
Proof.
  intros [(t & Ht & Hcb & _) _]. unfold ntt_task_svc, ntt_task_svc_inl, load_task. rewrite Ht, bind_ok, Hcb.
  unfold task_node_of. by rewrite Z.sub_add.
Qed.

Lemma destroy_owns h task cb :
  owns h task cb ->
  let h1 := invoke cb task NTT_TASK_DROP h in
  exists h', ntt_task_destroy h task = Ok h' /\ hp_calls h' = hp_calls h1 /\
    mem_blocks (hp_mem h') = filter (fun b => b.1 <> task_node_of task) (mem_blocks (hp_mem h1)) /\
    task_mem (hp_nodes h') !! task_node_of task = None.
Proof.
  intros Ho h1. pose proof (invoke_owns h task cb cb task NTT_TASK_DROP Ho) as [(t1 & Ht1 & _ & Hf1) [Hb1 Hn1]].
  destruct Ho as [(t & Ht & Hcb & _) _]. unfold ntt_task_destroy, ntt_task_destroy_inl, load_task.
  rewrite Ht, bind_ok, Hcb. replace (task_node_of task + PAYLOAD_OFFSET) with task by (unfold task_node_of; lia).
  fold h1 in Ht1, Hb1 |- *. rewrite Ht1, bind_ok, Hf1, Z.eqb_refl. unfold free_task, ntt_free.
  rewrite (proj2 (Z.eqb_neq _ _) Hn1), decide_True, bind_ok by done.
  eexists. split; [done|]. simpl. by rewrite lookup_delete_eq.
Qed.

(** C37.  A task that is created, run and destroyed gives its storage back, once:
    its callback is called to run and then to drop the payload, the storage is
    freed after that, and destroying it again is a use of freed memory. *)
Theorem task_lifetime h cb :
  alloc_ok NTT_TASK_NODE_SIZE = true ->
  exists task h1 h2 h3 k1 k2, task_new h cb = Ok (task, h1) /\ ntt_task_svc h1 task = Ok h2 /\
    ntt_task_destroy h2 task = Ok h3 /\
    hp_calls h3 = hp_calls h ++ (cb, task, NTT_TASK_RUN) :: k1 ++ (cb, task, NTT_TASK_DROP) :: k2 /\
    (task_node_of task ∈ (mem_blocks (hp_mem h2)).*1) /\ (task_node_of task ∉ (mem_blocks (hp_mem h3)).*1) /\
    ntt_task_destroy h3 task = Err InvalidPointer.
Proof.
  intros (task & h1 & Hnew & Ho & Hc1 & _)%(task_new_owns h cb).
  pose proof (invoke_owns h1 task cb cb task NTT_TASK_RUN Ho) as Ho2.
  destruct (destroy_owns _ _ _ Ho2) as (h3 & Hd & Hc3 & Hb3 & Ht3).
  destruct (invoke_calls h1 cb task NTT_TASK_RUN) as [k1 Hk1].
  destruct (invoke_calls (invoke cb task NTT_TASK_RUN h1) cb task NTT_TASK_DROP) as [k2 Hk2].
  exists task, h1, (invoke cb task NTT_TASK_RUN h1), h3, k1, k2. split_and!; try done.
  - by apply svc_owns.
  - rewrite Hc3, Hk2, Hk1, Hc1. by rewrite <- app_assoc.
  - apply Ho2.
  - rewrite Hb3. intros (b & Hb & [Hne _]%list_elem_of_filter)%list_elem_of_fmap. by apply Hne.
  - unfold ntt_task_destroy, ntt_task_destroy_inl, load_task. by rewrite Ht3.
Qed.

(** A release build writes through a null pointer when the allocation of a task
    fails. *)
Theorem task_new_null h cb :
  ndebug = true -> alloc_ok NTT_TASK_NODE_SIZE = false -> task_new h cb = Err InvalidPointer.
Proof. intros Hn Ha. unfold task_new. by rewrite malloc_returns_null, bind_ok. Qed.
End props.

(** ** Witnesses *)
Module TaskExample.
#[local] Existing Instances SlabExample.machine SlabExample.bump SlabExample.bump_laws.

(** Callbacks that do nothing but be called. *)
#[local] Instance callbacks : Callbacks :=
  {| ntt_free_addr := 4096; call_task := fun _ _ _ h => h; call_free := fun _ _ h => Ok h |}.

#[local] Instance callback_laws : CallbackLaws.
Proof. by split. Qed.

Lemma task_lifetime_witness :
  exists task h, task_new (mk_heap SlabExample.mem0 (mk_nodes ∅ ∅) []) 5000 = Ok (task, h) /\
    exists h2 h3, ntt_task_svc h task = Ok h2 /\ ntt_task_destroy h2 task = Ok h3 /\
      ntt_task_destroy h3 task = Err InvalidPointer.
Proof.
  assert (Ha : alloc_ok NTT_TASK_NODE_SIZE = true) by reflexivity.
  destruct (task_lifetime (mk_heap SlabExample.mem0 (mk_nodes ∅ ∅) []) 5000 Ha)
    as (task & h1 & h2 & h3 & k1 & k2 & Hn & Hs & Hd & _ & _ & _ & Hdd).
  exists task, h1. split; [exact Hn|]. exists h2, h3. split_and!; [exact Hs|exact Hd|exact Hdd].
Defined.
End TaskExample.
