(* ===== verification/Queue.v ===== *)
(** * Serial queues, the combine and the wake-up of the loop: data and operations

    Translates the execution part of [src/queue.c], [src/combine.c] and
    [src/loop.c]: pushing tasks, taking and serving queues, references, the work
    of the loop and the eventfd that wakes a worker.  A thread is where it stands
    in this code; a critical section of a lock and an atomic operation are one
    step each.  The task list of a queue and the list of the combine are the
    sequences that [NodeList] implements, so that a queue is linked exactly when
    it is in the combine.  Timers of a queue are not part of this file. *)

From stdpp Require Import base numbers list gmap.
From Stdlib Require Import ZArith Lia.
From S2P Require Import Prelude.

#[local] Open Scope Z_scope.

(** ** State *)

(** A queue of the slab.  [client_refs] is not in the code: it counts those of
    [external_refs] that belong to the code around the library. *)
Record ntt_queue : Type := mk_queue {
  task_list : list ptr;
  external_refs : Z;
  client_refs : nat;
}.

Inductive entry : Type :=
  | Pushed (q : Z) (task : ptr)
  | Run (q : Z) (task : ptr)        (* the callback is called with NTT_TASK_RUN *)
  | Drop (q : Z) (task : ptr)       (* the callback is called with NTT_TASK_DROP *)
  | Given (q : Z)                   (* the slot of the queue goes back to the slab *)
  | Stop.                           (* the workers are told to stop *)

(** The loop, with the queues in use by the index of their slot.  [other_work]
    is not in the code: it counts the work that does not belong to queues. *)
Record ntt_loop : Type := mk_loop {
  queues : gmap Z ntt_queue;
  combine : list Z;
  eventfd : Z;
  work_cnt : Z;
  other_work : nat;
  log : list entry;
}.

Definition with_queues qs w := mk_loop qs (combine w) (eventfd w) (work_cnt w) (other_work w) (log w).
Definition with_combine c w := mk_loop (queues w) c (eventfd w) (work_cnt w) (other_work w) (log w).
Definition with_eventfd n w := mk_loop (queues w) (combine w) n (work_cnt w) (other_work w) (log w).
Definition with_work n o w := mk_loop (queues w) (combine w) (eventfd w) n o (log w).
Definition emit x w := mk_loop (queues w) (combine w) (eventfd w) (work_cnt w) (other_work w) (log w ++ [x]).

Definition set_queue q x w := with_queues (<[q := x]> (queues w)) w.
Definition set_tasks l x := mk_queue l (external_refs x) (client_refs x).
Definition set_refs r c x := mk_queue (task_list x) r c.

(** ** Threads *)

(** The call a thread is inside of.  [own] says that the caller lends a
    reference of its own to the call; otherwise it runs in the queue. *)
Inductive call : Type :=
  | PushTask (q : Z) (task : ptr) (own : bool)  (* ntt_queue_push_task, before the lock *)
  | PushAcquire (q : Z) (own : bool)            (* the queue was empty, before ntt_queue_acquire *)
  | CombinePush (q : Z) (own : bool)            (* before ntt_combine_push *)
  | CombineWakeup (q : Z) (own : bool)          (* the combine was empty, before its callback *)
  | Acquire (q : Z) (own : bool)                (* ntt_queue_acquire *)
  | Release (q : Z)                             (* ntt_queue_release *)
  | Destroy (q : Z)                             (* the last reference is gone *)
  | WorkLeave.                                  (* before ntt_loop_work_leave *)

(** How the combine is served: [ntt_combine_svc], or
    [ntt_combine_svc_with_limits] after [cnt] queues. *)
Inductive mode : Type :=
  | Unlimited
  | Limited (cnt loop_limit queue_limit : Z).

(** Where a thread stands.  [cnt] is the counter of [ntt_queue_svc_with_limit]. *)
Inductive point : Type :=
  | Outside                                     (* code that is not part of a loop *)
  | Top (m : mode)                              (* before ntt_combine_try_take *)
  | SvcEnter (q : Z) (m : mode)                 (* at the start of ntt_queue_svc *)
  | SvcRun (q : Z) (task : ptr) (cnt : Z) (m : mode)
  | SvcInside (q : Z) (task : ptr) (cnt : Z) (m : mode)   (* inside of the task *)
  | SvcNext (q : Z) (task : ptr) (cnt : Z) (m : mode)     (* before ntt_queue_next *)
  | SvcDrop (q : Z) (task : ptr) (next : option ptr) (cnt : Z) (m : mode)
  | SvcDropping (q : Z) (next : option ptr) (cnt : Z) (m : mode)
  | SvcLeave (q : Z) (cnt : Z) (m : mode)       (* after the loop over the tasks *)
  | Wait                                        (* in epoll_pwait *)
  | ReadEventfd                                 (* ntt_combine_eventfd_ready *)
  | Handler.                                    (* in the handler of some other event *)

Record thread : Type := mk_thread {
  in_call : option call;
  at_point : point;
  t_queue : option Z;                           (* the thread-local of queue.c *)
}.

(** [ntt_ts_loop == self]: the thread is a worker of the loop. *)
Definition mode_in_loop (m : mode) : bool := match m with Unlimited => true | Limited _ _ _ => false end.

Definition in_loop (p : point) : bool :=
  match p with
  | Outside => false
  | Top m | SvcEnter _ m | SvcRun _ _ _ m | SvcInside _ _ _ m | SvcNext _ _ _ m | SvcDrop _ _ _ _ m
  | SvcDropping _ _ _ m | SvcLeave _ _ m => mode_in_loop m
  | Wait | ReadEventfd | Handler => true
  end.

(** Places where code around the library runs. *)
Definition client_code (p : point) : bool :=
  match p with Outside | SvcInside _ _ _ _ | SvcDropping _ _ _ _ | Handler => true | _ => false end.

Section ops.
Context `{Platform}.
Implicit Types (w : ntt_loop) (q : Z).

(** A pointer to a queue that is not in use must not be followed. *)
Definition get_queue w q : res ntt_queue :=
  match queues w !! q with Some x => Ok x | None => Err InvalidPointer end.

Definition ntt_queue_empty (x : ntt_queue) : bool := bool_decide (task_list x = []).

Definition ntt_queue_unlinked w q : bool := bool_decide (q ∉ combine w).

Definition task_unlinked w (task : ptr) : bool :=
  bool_decide (map_Forall (fun _ x => task ∉ task_list x) (queues w)).

(** ** The calls *)

(** The reference lent to a call goes back to the caller. *)
Definition finish w q (own : bool) : res (option call * ntt_loop) :=
  if own then
    x ← get_queue w q;
    Ok (None, set_queue q (set_refs (external_refs x) (S (client_refs x)) x) w)
  else Ok (None, w).

Definition ntt_queue_push_task w q (task : ptr) (own : bool) : res (option call * ntt_loop) :=
  x ← get_queue w q;
  c_assert (task_unlinked w task) ;;
  let was_empty := ntt_queue_empty x in
  let w := emit (Pushed q task) (set_queue q (set_tasks (task_list x ++ [task]) x) w) in
  if was_empty then Ok (Some (PushAcquire q own), w) else finish w q own.

(** The push that leaves the wake-up to its caller: whether the list was
    empty is its result. *)
Definition ntt_queue_push_task_without_wakeup w q (task : ptr) : res (bool * ntt_loop) :=
  x ← get_queue w q;
  c_assert (task_unlinked w task) ;;
  let was_empty := ntt_queue_empty x in
  Ok (was_empty, emit (Pushed q task) (set_queue q (set_tasks (task_list x ++ [task]) x) w)).

(** [ntt_queue_acquire], then the wake-up callback of the queue. *)
Definition push_acquire w q (own : bool) : res (option call * ntt_loop) :=
  x ← get_queue w q;
  c_assert (negb (external_refs x =? 0)) ;;
  Ok (Some (CombinePush q own), set_queue q (set_refs (external_refs x + 1) (client_refs x) x) w).

Definition ntt_combine_push w q (own : bool) : res (option call * ntt_loop) :=
  x ← get_queue w q;
  c_assert (negb (ntt_queue_empty x)) ;;
  c_assert (ntt_queue_unlinked w q) ;;
  let was_empty := bool_decide (combine w = []) in
  let w := with_combine (combine w ++ [q]) w in
  if was_empty then Ok (Some (CombineWakeup q own), w) else finish w q own.

Definition ntt_combine_init : list Z := [].

Definition ntt_combine_deinit w : res unit := c_assert (bool_decide (combine w = [])).

(** [eventfd_write] of one: refused when the counter is full. *)
Definition eventfd_write w : ntt_loop :=
  if eventfd w <? UINT64_MAX - 1 then with_eventfd (eventfd w + 1) w else w.

Definition ntt_loop_combine_wakeup w (ts_loop : bool) : ntt_loop :=
  if negb ts_loop then eventfd_write w else w.

Definition ntt_queue_acquire w q (own : bool) : res (option call * ntt_loop) :=
  x ← get_queue w q;
  c_assert (negb (external_refs x =? 0)) ;;
  Ok (None, set_queue q (set_refs (external_refs x + 1) (client_refs x + 1 + Nat.b2n own) x) w).

Definition ntt_queue_release w q : res (option call * ntt_loop) :=
  x ← get_queue w q;
  let prev := external_refs x in
  let w := set_queue q (set_refs (prev - 1) (client_refs x) x) w in
  Ok (if prev =? 1 then Some (Destroy q) else None, w).

(** The assertions of [ntt_queue_deinit] about references, tasks and links, and
    the slot given back; its timers are in [TimerService], and [LoopJoint] puts the
    two together. *)
Definition ntt_queue_deinit w q : res (option call * ntt_loop) :=
  x ← get_queue w q;
  c_assert (external_refs x =? 0) ;;
  c_assert (ntt_queue_empty x) ;;
  c_assert (ntt_queue_unlinked w q) ;;
  Ok (Some WorkLeave, emit (Given q) (with_queues (delete q (queues w)) w)).

Definition ntt_loop_work_enter w (other : nat) : res ntt_loop :=
  let prev := work_cnt w in
  c_assert (prev >? 0) ;;
  Ok (with_work (prev + 1) other w).

Definition ntt_loop_work_leave w : res (option call * ntt_loop) :=
  let prev := work_cnt w in
  c_assert (prev >? 0) ;;
  let w := with_work (prev - 1) (other_work w) w in
  Ok (None, if negb (prev =? 1) then w else emit Stop w).

(** [ntt_queue_init] of a queue of the loop, its timers apart: one reference,
    which belongs to the caller. *)
Definition ntt_queue_init w q : res ntt_loop :=
  let w := set_queue q (mk_queue [] 1 1) w in
  ntt_loop_work_enter w (other_work w).

(** [ntt_queue_create_in], with the slot that [ntt_slab_take] returned. *)
Definition ntt_queue_create_in w q : res ntt_loop := ntt_queue_init w q.

Definition exec_call (c : call) (ts_loop : bool) w : res (option call * ntt_loop) :=
  match c with
  | PushTask q task own => ntt_queue_push_task w q task own
  | PushAcquire q own => push_acquire w q own
  | CombinePush q own => ntt_combine_push w q own
  | CombineWakeup q own => finish (ntt_loop_combine_wakeup w ts_loop) q own
  | Acquire q own => ntt_queue_acquire w q own
  | Release q => ntt_queue_release w q
  | Destroy q => ntt_queue_deinit w q
  | WorkLeave => ntt_loop_work_leave w
  end.

(** ** The loops *)

(** [ntt_combine_try_take], and what its callers do with the result. *)
Definition ntt_combine_try_take w : option Z * ntt_loop :=
  match combine w with
  | [] => (None, w)
  | q :: rest => (Some q, with_combine rest w)
  end.

Definition combine_svc_turn w (m : mode) : point * ntt_loop :=
  match m with
  | Unlimited =>
      let '(queue, w) := ntt_combine_try_take w in
      (match queue with None => Wait | Some q => SvcEnter q m end, w)
  | Limited cnt loop_limit _ =>
      if cnt <? loop_limit then
        let '(queue, w) := ntt_combine_try_take w in
        (match queue with None => Outside | Some q => SvcEnter q m end, w)
      else (Outside, w)
  end.

(** The start of [ntt_queue_svc] and [ntt_queue_svc_with_limit], up to the
    first task. *)
Definition svc_enter w q (m : mode) (tq : option Z) : res thread :=
  x ← get_queue w q;
  c_assert (match m with Unlimited => true | Limited _ _ limit => limit >? 0 end) ;;
  c_assert (negb (ntt_queue_empty x)) ;;
  c_assert (ntt_queue_unlinked w q) ;;
  c_assert (bool_decide (tq = None)) ;;
  match task_list x with
  | [] => Err InvalidPointer
  | task :: _ => Ok (mk_thread None (SvcRun q task 0 m) (Some q))
  end.

(** [ntt_queue_next] *)
Definition ntt_queue_next w q : res (option ptr * ntt_loop) :=
  x ← get_queue w q;
  c_assert (ntt_queue_unlinked w q) ;;
  c_assert (negb (ntt_queue_empty x)) ;;
  let rest := tail (task_list x) in
  Ok (head rest, set_queue q (set_tasks rest x) w).

(** The end of one turn of the loop over the tasks. *)
Definition svc_turn q (next : option ptr) (cnt : Z) (m : mode) : point :=
  match m with
  | Unlimited => match next with Some task => SvcRun q task 0 m | None => SvcLeave q 1 m end
  | Limited _ _ limit =>
      let cnt := u64 (cnt + 1) in
      if cnt =? limit then SvcLeave q (match next with Some _ => 0 | None => cnt end) m
      else match next with Some task => SvcRun q task cnt m | None => SvcLeave q cnt m end
  end.

(** Back in the loop over the queues: the count of queues served. *)
Definition next_mode (m : mode) : mode :=
  match m with Unlimited => Unlimited | Limited cnt l1 l2 => Limited (u64 (cnt + 1)) l1 l2 end.

(** The end of [ntt_queue_svc]: the reference of the queue is dropped, or the
    queue goes back to the combine with its reference. *)
Definition svc_leave q (cnt : Z) (m : mode) (tq : option Z) : res thread :=
  c_assert (bool_decide (tq = Some q)) ;;
  let done := match m with Unlimited => true | Limited _ _ _ => negb (cnt =? 0) end in
  Ok (mk_thread (Some (if done then Release q else CombinePush q false)) (Top (next_mode m)) None).

(** [eventfd_read] of a semaphore: takes one, or fails when there is none. *)
Definition ntt_combine_eventfd_ready w : ntt_loop :=
  if eventfd w >? 0 then with_eventfd (eventfd w - 1) w else w.

Definition exec_point (p : point) (tq : option Z) w : res (thread * ntt_loop) :=
  match p with
  | Outside | Handler => Ok (mk_thread None (match p with Outside => Outside | _ => Top Unlimited end) tq, w)
  | Top m => let '(p, w) := combine_svc_turn w m in Ok (mk_thread None p tq, w)
  | SvcEnter q m => t ← svc_enter w q m tq; Ok (t, w)
  | SvcRun q task cnt m => Ok (mk_thread None (SvcInside q task cnt m) tq, emit (Run q task) w)
  | SvcInside q task cnt m => Ok (mk_thread None (SvcNext q task cnt m) tq, w)
  | SvcNext q task cnt m =>
      '(next, w) ← ntt_queue_next w q;
      Ok (mk_thread None (SvcDrop q task next cnt m) tq, w)
  | SvcDrop q task next cnt m =>
      Ok (mk_thread None (SvcDropping q next cnt m) tq, emit (Drop q task) w)
  | SvcDropping q next cnt m => Ok (mk_thread None (svc_turn q next cnt m) tq, w)
  | SvcLeave q cnt m => t ← svc_leave q cnt m tq; Ok (t, w)
  | Wait => Ok (mk_thread None (if eventfd w >? 0 then ReadEventfd else Top Unlimited) tq, w)
  | ReadEventfd => Ok (mk_thread None (Top Unlimited) tq, ntt_combine_eventfd_ready w)
  end.

(** One step of a thread. *)
Definition exec (t : thread) w : res (thread * ntt_loop) :=
  match in_call t with
  | Some c =>
      '(c, w) ← exec_call c (in_loop (at_point t)) w;
      Ok (mk_thread c (at_point t) (t_queue t), w)
  | None => exec_point (at_point t) (t_queue t) w
  end.
End ops.

(** ** What the code around the library may do

    A thread that runs code around the library may begin a call; the guards are
    the contracts of the calls. *)
Definition lend (q : Z) (x : ntt_queue) (w : ntt_loop) : ntt_loop :=
  set_queue q (set_refs (external_refs x) (pred (client_refs x)) x) w.

(** The task of a push belongs to the caller: it is in no queue and in no other
    push. *)
Definition pushing (task : ptr) (t : thread) : nat :=
  match in_call t with
  | Some (PushTask _ task' _) => if decide (task' = task) then 1 else 0
  | _ => 0
  end.

Definition unqueued (task : ptr) (w : ntt_loop) (ts : list thread) : Prop :=
  (forall q x, queues w !! q = Some x -> task ∉ task_list x) /\ total (pushing task) ts = 0%nat.

Inductive client (ts : list thread) : ntt_loop -> thread -> ntt_loop -> thread -> Prop :=
  | client_push w p tq q x task :
      queues w !! q = Some x -> (0 < client_refs x)%nat -> unqueued task w ts ->
      client ts w (mk_thread None p tq) (lend q x w) (mk_thread (Some (PushTask q task true)) p tq)
  | client_push_self w p q task :
      unqueued task w ts ->
      client ts w (mk_thread None p (Some q)) w (mk_thread (Some (PushTask q task false)) p (Some q))
  | client_acquire w p tq q x :
      queues w !! q = Some x -> (0 < client_refs x)%nat ->
      client ts w (mk_thread None p tq) (lend q x w) (mk_thread (Some (Acquire q true)) p tq)
  | client_acquire_self w p q :
      client ts w (mk_thread None p (Some q)) w (mk_thread (Some (Acquire q false)) p (Some q))
  | client_release w p tq q x :
      queues w !! q = Some x -> (0 < client_refs x)%nat ->
      client ts w (mk_thread None p tq) (lend q x w) (mk_thread (Some (Release q)) p tq)
  | client_work_leave w p tq :
      (0 < other_work w)%nat ->
      client ts w (mk_thread None p tq) (with_work (work_cnt w) (pred (other_work w)) w)
        (mk_thread (Some WorkLeave) p tq).

Section steps.
Context `{Platform}.

(** A step of the whole system.  The first rule is the library; the others
    are the code around it: calls, the creation of queues and other work while
    the loop has work, the use of the combine by a thread of its own, and the
    notifications of other events. *)
Inductive loop_step : ntt_loop * list thread -> ntt_loop * list thread -> Prop :=
  | step_exec w l1 t l2 w' t' :
      exec t w = Ok (t', w') -> loop_step (w, l1 ++ t :: l2) (w', l1 ++ t' :: l2)
  | step_client w l1 t l2 w' t' :
      client_code (at_point t) = true -> client (l1 ++ t :: l2) w t w' t' ->
      loop_step (w, l1 ++ t :: l2) (w', l1 ++ t' :: l2)
  | step_create w ts q w' :
      queues w !! q = None -> 0 < work_cnt w -> ntt_queue_create_in w q = Ok w' ->
      loop_step (w, ts) (w', ts)
  | step_work w ts w' :
      0 < work_cnt w -> ntt_loop_work_enter w (S (other_work w)) = Ok w' -> loop_step (w, ts) (w', ts)
  | step_limits w l1 tq l2 loop_limit queue_limit :
      0 < loop_limit < 2 ^ 64 -> 0 < queue_limit < 2 ^ 64 ->
      loop_step (w, l1 ++ mk_thread None Outside tq :: l2)
        (w, l1 ++ mk_thread None (Top (Limited 0 loop_limit queue_limit)) tq :: l2)
  | step_notify w l1 tq l2 :
      loop_step (w, l1 ++ mk_thread None Wait tq :: l2) (w, l1 ++ mk_thread None Handler tq :: l2).
End steps.
