(* ===== verification/QueueInv.v ===== *)
(** * Serial queues: the invariant of the loop

    What the threads hold of a queue: references, the right to serve it, the
    duty to destroy it.  Each is a number per thread, summed over all threads. *)

From stdpp Require Import base numbers list gmap.
From Stdlib Require Import ZArith Lia.
From S2P Require Import Prelude.
From S2P Require Import Queue.

#[local] Open Scope Z_scope.

(** ** What a thread holds *)

(** The queue a thread works on, in a call or by its place in the loop. *)
Definition one (q q' : Z) (n : nat) : nat := if decide (q' = q) then n else 0.

(** References. *)
Definition call_hold (q : Z) (c : call) : nat :=
  match c with
  | PushTask q' _ own | PushAcquire q' own | CombineWakeup q' own | Acquire q' own =>
      one q q' (Nat.b2n own)
  | CombinePush q' own => one q q' (S (Nat.b2n own))
  | Release q' => one q q' 1
  | Destroy _ | WorkLeave => 0
  end.

Definition point_hold (q : Z) (p : point) : nat :=
  match p with
  | SvcEnter q' _ | SvcRun q' _ _ _ | SvcInside q' _ _ _ | SvcNext q' _ _ _ | SvcDrop q' _ _ _ _
  | SvcDropping q' _ _ _ | SvcLeave q' _ _ => one q q' 1
  | _ => 0
  end.

Definition hold (q : Z) (t : thread) : nat :=
  match in_call t with Some c => call_hold q c | None => 0 end + point_hold q (at_point t).

(** The right, and the duty, to serve a queue that has tasks. *)
Definition call_token (q : Z) (c : call) : nat :=
  match c with PushAcquire q' _ | CombinePush q' _ => one q q' 1 | _ => 0 end.

Definition more (next : option ptr) : nat := match next with Some _ => 1 | None => 0 end.

Definition point_token (q : Z) (p : point) : nat :=
  match p with
  | SvcEnter q' _ | SvcRun q' _ _ _ | SvcInside q' _ _ _ | SvcNext q' _ _ _ => one q q' 1
  | SvcDrop q' _ next _ _ | SvcDropping q' next _ _ => one q q' (more next)
  | SvcLeave q' cnt (Limited _ _ _) => one q q' (if decide (cnt = 0) then 1%nat else 0%nat)
  | _ => 0
  end.

Definition token (q : Z) (t : thread) : nat :=
  match in_call t with Some c => call_token q c | None => 0 end + point_token q (at_point t).

(** The thread that destroys a queue. *)
Definition dying (q : Z) (t : thread) : nat :=
  match in_call t with Some (Destroy q') => one q q' 1 | _ => 0 end.

(** The first task has been started and is still in the list. *)
Definition started (q : Z) (t : thread) : nat :=
  match at_point t with SvcInside q' _ _ _ | SvcNext q' _ _ _ => one q q' 1 | _ => 0 end.

(** The work of the loop that a thread is about to leave. *)
Definition leaving (t : thread) : nat := match in_call t with Some WorkLeave => 1 | _ => 0 end.

(** A thread that is about to write the eventfd. *)
Definition waking (t : thread) : nat :=
  match in_call t with Some (CombineWakeup _ _) => if in_loop (at_point t) then 0 else 1 | _ => 0 end.

(** A worker that will look at the combine before it waits. *)
Definition up (t : thread) : nat :=
  match at_point t with Wait => 0 | p => Nat.b2n (in_loop p) end.

Arguments hold q !t /.
Arguments token q !t /.
Arguments dying q !t /.
Arguments started q !t /.
Arguments leaving !t /.
Arguments waking !t /.
Arguments up !t /.
Arguments pushing task !t /.

(** How often a queue is in the combine. *)
Definition count_in (q : Z) (l : list Z) : nat := total (fun q' => one q q' 1) l.

(** ** What is logged *)
Definition pushed (q : Z) (l : list entry) : list ptr :=
  omap (fun x => match x with Pushed q' t => if decide (q' = q) then Some t else None | _ => None end) l.

Definition runs_of (q : Z) (l : list entry) : list ptr :=
  omap (fun x => match x with Run q' t => if decide (q' = q) then Some t else None | _ => None end) l.

(** ** What a thread relies on *)

(** The thread-local queue follows from where the thread stands. *)
Definition queue_at (p : point) : option Z :=
  match p with
  | SvcRun q _ _ _ | SvcInside q _ _ _ | SvcNext q _ _ _ | SvcDrop q _ _ _ _ | SvcDropping q _ _ _
  | SvcLeave q _ _ => Some q
  | _ => None
  end.

(** The task a thread takes for the first one of its queue. *)
Definition first_task (p : point) : option (Z * ptr) :=
  match p with
  | SvcRun q task _ _ | SvcInside q task _ _ | SvcNext q task _ _ => Some (q, task)
  | SvcDrop q _ (Some task) _ _ | SvcDropping q (Some task) _ _ => Some (q, task)
  | _ => None
  end.

(** The limits and the count of tasks. *)
Definition limits_ok (p : point) : Prop :=
  let ok cnt m := match m with Unlimited => True | Limited _ _ l => 0 < l < 2 ^ 64 /\ 0 <= cnt < l end in
  match p with
  | SvcRun _ _ cnt m | SvcInside _ _ cnt m | SvcNext _ _ cnt m | SvcDrop _ _ _ cnt m
  | SvcDropping _ _ cnt m => ok cnt m
  | Top m | SvcEnter _ m | SvcLeave _ _ m => ok 0 m
  | _ => True
  end.

(** A call without a reference of its own is made from inside of the queue. *)
Definition context_ok (t : thread) : Prop :=
  match in_call t with
  | Some (PushTask q _ false) | Some (PushAcquire q false) | Some (Acquire q false) => t_queue t = Some q
  | _ => True
  end.

Definition has_first (qs : gmap Z ntt_queue) (p : point) : Prop :=
  forall q task, first_task p = Some (q, task) ->
  exists x, qs !! q = Some x /\ head (task_list x) = Some task.

Record thread_ok (qs : gmap Z ntt_queue) (t : thread) : Prop := {
  t_self : t_queue t = queue_at (at_point t);
  t_context : context_ok t;
  t_limits : limits_ok (at_point t);
  t_first : has_first qs (at_point t);
  t_awake : in_call t <> None -> at_point t <> Wait;
}.

(** ** The invariant *)

(** One queue: [c] is how often it is in the combine, [h], [k], [d] and [s] are
    the references, tokens, destroyers and started tasks of the threads, [ps] and
    [rs] the tasks pushed and run. *)
Definition queue_ok (ox : option ntt_queue) (c h k d s : nat) (ps rs : list ptr) : Prop :=
  match ox with
  | None => c = 0%nat /\ h = 0%nat /\ k = 0%nat /\ d = 0%nat /\ s = 0%nat /\ ps = rs
  | Some x =>
      external_refs x = Z.of_nat (client_refs x + h + c) /\
      (k + c = if decide (task_list x = []) then 0 else 1)%nat /\
      d = (if decide (external_refs x = 0) then 1%nat else 0%nat) /\
      ps = rs ++ drop s (task_list x)
  end.

Definition queue_inv (w : ntt_loop) (ts : list thread) (q : Z) : Prop :=
  queue_ok (queues w !! q) (count_in q (combine w)) (total (hold q) ts) (total (token q) ts)
    (total (dying q) ts) (total (started q) ts) (pushed q (log w)) (runs_of q (log w)).

Record loop_inv (w : ntt_loop) (ts : list thread) : Prop := {
  i_queues : forall q, queue_inv w ts q;
  i_threads : Forall (thread_ok (queues w)) ts;
  i_work : work_cnt w = Z.of_nat (size (queues w) + other_work w + total leaving ts);
  i_stop : Stop ∈ log w -> work_cnt w = 0;
  i_eventfd : 0 <= eventfd w;
  i_wake : combine w <> [] -> 0 < eventfd w \/ (0 < total up ts)%nat \/ (0 < total waking ts)%nat;
  i_fresh : forall task q x, (0 < total (pushing task) ts)%nat -> queues w !! q = Some x ->
    task ∉ task_list x;
  i_unique : forall task, (total (pushing task) ts <= 1)%nat;
}.

(** ** Measures against each other *)
Lemma one_same q n : one q q n = n.
Proof. unfold one. by rewrite decide_True. Qed.

Lemma one_ne q q' n : q' <> q -> one q q' n = 0%nat.
Proof. intros Hne. unfold one. by rewrite decide_False. Qed.

Lemma one_zero q q' : one q q' 0 = 0%nat.
Proof. unfold one. by case_decide. Qed.

Lemma queue_at_hold qs t q : thread_ok qs t -> t_queue t = Some q -> (0 < point_hold q (at_point t))%nat.
Proof.
  intros [-> _ _ _ _] Hq. destruct t as [c p tq]; destruct p; simpl in *; simplify_eq;
    rewrite one_same; lia.
Qed.

Lemma token_hold qs t q : thread_ok qs t -> (0 < token q t)%nat -> (0 < hold q t)%nat.
Proof.
  intros Hok Ht. unfold token, hold in *.
  assert (Hp : (point_token q (at_point t) <= point_hold q (at_point t))%nat).
  { destruct (at_point t) as [| | | | | |? ? [] ? ?|? [] ? ?|? ? []| | |]; simpl; unfold one, more;
      repeat case_decide; lia. }
  destruct (in_call t) as [[]|] eqn:Hc; simpl in *; unfold one in *; try lia; try (case_decide; lia).
  case_decide as Heq; [subst|lia]. destruct own; simpl; [lia|].
  pose proof (t_context _ _ Hok) as Hx. unfold context_ok in Hx. rewrite Hc in Hx.
  pose proof (queue_at_hold _ _ _ Hok Hx). lia.
Qed.

Lemma first_token t q task : first_task (at_point t) = Some (q, task) -> (0 < token q t)%nat.
Proof.
  unfold token. destruct t as [c p tq]; simpl.
  destruct p as [| | | | | |? ? [] ? ?|? [] ? ?|? ? []| | |]; simpl; intros; simplify_eq;
    rewrite one_same; simpl; lia.
Qed.

Lemma started_token q t : (started q t <= token q t)%nat.
Proof. destruct t as [c p tq]; destruct p; simpl; lia. Qed.

Lemma no_hold_no_token qs ts q :
  Forall (thread_ok qs) ts -> total (hold q) ts = 0%nat -> total (token q) ts = 0%nat.
Proof.
  induction 1 as [|t ts Ht _ IH]; [done|]. rewrite !total_cons. intros Hz.
  destruct (token q t) eqn:Hk; [rewrite IH; lia|].
  pose proof (token_hold _ _ q Ht). lia.
Qed.

Lemma count_in_app q l l' : count_in q (l ++ l') = (count_in q l + count_in q l')%nat.
Proof. apply total_app. Qed.

Lemma count_in_zero q l : count_in q l = 0%nat <-> q ∉ l.
Proof.
  unfold count_in. induction l as [|q' l IH]; [split; [intros _; apply not_elem_of_nil|done]|].
  rewrite total_cons, not_elem_of_cons, <- IH. unfold one. case_decide; split; intros; try lia; intuition.
Qed.

Lemma pushed_app q l l' : pushed q (l ++ l') = pushed q l ++ pushed q l'.
Proof. apply omap_app. Qed.

Lemma runs_of_app q l l' : runs_of q (l ++ l') = runs_of q l ++ runs_of q l'.
Proof. apply omap_app. Qed.

Lemma loop_inv_perm w ts ts' : ts ≡ₚ ts' -> loop_inv w ts -> loop_inv w ts'.
Proof.
  intros Hp [].
  assert (Ht : forall f : thread -> nat, total f ts' = total f ts) by (intros f; symmetry; by apply total_perm).
  split; intros; rewrite ?Ht in *; rewrite <- ?Hp; eauto.
  unfold queue_inv. rewrite !Ht. apply i_queues0.
Qed.
