(* ===== verification/QueueSteps.v ===== *)
(** * Serial queues: every step keeps the invariant *)

From stdpp Require Import base numbers list gmap.
From Stdlib Require Import ZArith Lia.
From S2P Require Import Prelude.
From S2P Require Import Queue.
From S2P Require Import QueueInv.

#[local] Open Scope Z_scope.

(** ** One thread moves, one queue changes *)

(** Nothing changes for a queue. *)
Definition same_queue (q : Z) (w w' : ntt_loop) (t t' : thread) : Prop :=
  queues w' !! q = queues w !! q /\ count_in q (combine w') = count_in q (combine w) /\
  hold q t' = hold q t /\ token q t' = token q t /\ dying q t' = dying q t /\
  started q t' = started q t /\
  pushed q (log w') = pushed q (log w) /\ runs_of q (log w') = runs_of q (log w).

Lemma same_queue_inv q w w' t t' rest :
  same_queue q w w' t t' -> queue_inv w (t :: rest) q -> queue_inv w' (t' :: rest) q.
Proof.
  unfold same_queue, queue_inv. rewrite !total_cons.
  by intros (-> & -> & -> & -> & -> & -> & -> & ->).
Qed.

(** The first task of the queue stays in place for every thread that relies on
    it. *)
Definition keeps_first (q : Z) (qs qs' : gmap Z ntt_queue) (rest : list thread) : Prop :=
  (0 < total (token q) rest)%nat -> forall x task, qs !! q = Some x -> head (task_list x) = Some task ->
  exists x', qs' !! q = Some x' /\ head (task_list x') = Some task.

Lemma rest_ok q qs qs' rest :
  (forall q', q' <> q -> qs' !! q' = qs !! q') -> keeps_first q qs qs' rest ->
  Forall (thread_ok qs) rest -> Forall (thread_ok qs') rest.
Proof.
  intros Hne Hk Hok. rewrite Forall_forall in *. intros t Ht. destruct (Hok t Ht) as [H1 H2 H3 H4 H5].
  split; try done. intros q' task Hf. destruct (H4 q' task Hf) as (x & Hx & Hh).
  destruct (decide (q' = q)) as [->|Hq]; [|rewrite Hne by done; eauto].
  apply (Hk ltac:(pose proof (first_token t q task Hf); pose proof (total_elem (token q) rest t Ht); lia) x task Hx Hh).
Qed.

Lemma inv_step q w w' t t' rest :
  loop_inv w (t :: rest) ->
  (forall q', q' <> q -> same_queue q' w w' t t') ->
  queue_inv w' (t' :: rest) q ->
  thread_ok (queues w') t' ->
  keeps_first q (queues w) (queues w') rest ->
  work_cnt w' = Z.of_nat (size (queues w') + other_work w' + leaving t' + total leaving rest) ->
  (Stop ∈ log w' -> work_cnt w' = 0) ->
  0 <= eventfd w' ->
  (combine w' <> [] ->
    0 < eventfd w' \/ (0 < up t' + total up rest)%nat \/ (0 < waking t' + total waking rest)%nat) ->
  (forall task, (pushing task t' <= pushing task t)%nat \/ (unqueued task w (t :: rest) /\ (pushing task t' <= 1)%nat)) ->
  (forall task x', queues w' !! q = Some x' -> task ∈ task_list x' ->
    (exists x, queues w !! q = Some x /\ task ∈ task_list x) \/
    (pushing task t' = 0 /\ 0 < pushing task t)%nat) ->
  loop_inv w' (t' :: rest).
Proof.
  intros [] Hother Hq Ht Hfirst Hwork Hstop Hefd Hwake Hpush Hlist.
  split; try done.
  - intros q'. destruct (decide (q' = q)) as [->|Hne]; [done|].
    eapply same_queue_inv; [by apply Hother|done].
  - constructor; [done|]. apply (rest_ok q (queues w)); [|done|by inversion i_threads].
    intros q' Hne. apply (Hother q' Hne).
  - rewrite total_cons. lia.
  - intros task q' x' Hp Hx Hin. rewrite total_cons in Hp.
    assert (Hold : exists x q0, queues w !! q0 = Some x /\ task ∈ task_list x \/
      (pushing task t' = 0 /\ 0 < pushing task t)%nat).
    { destruct (decide (q' = q)) as [->|Hne].
      - destruct (Hlist task x' Hx Hin) as [(x & ? & ?)|?]; [exists x, q; by left|exists x', q; by right].
      - destruct (Hother q' Hne) as [Heq _]. rewrite Heq in Hx. exists x', q'. by left. }
    destruct Hold as (x & q0 & [[Hx0 Hin0]|[Hz Hpos]]).
    + destruct (Hpush task) as [Hle|[[Hun _] _]]; [|by eapply Hun].
      apply (i_fresh task q0 x); [rewrite total_cons; lia|done|done].
    + specialize (i_unique task). rewrite total_cons in i_unique. lia.
  - intros task. rewrite total_cons. destruct (Hpush task) as [Hle|[[_ Hz] Hle]];
      specialize (i_unique task); rewrite total_cons in *; lia.
Qed.

(** ** Automation for the side conditions *)

(** Computes the measures of explicit threads. *)
Ltac measures :=
  cbn [hold token dying started leaving waking up pushing in_call at_point t_queue call_hold point_hold
       call_token point_token more in_loop mode_in_loop] in *.

(** A queue that the step does not name. *)
Ltac other_queue :=
  let q' := fresh "q'" in let Hne := fresh "Hne" in
  intros q' Hne; unfold same_queue; measures;
  cbn [queues combine log emit with_queues with_combine with_eventfd with_work set_queue];
  rewrite ?pushed_app, ?runs_of_app, ?count_in_app; simpl;
  rewrite ?lookup_insert_ne, ?lookup_delete_ne, ?decide_False, ?app_nil_r by done;
  unfold count_in, total; simpl; rewrite ?one_ne by done;
  split_and!; try done; try lia.

Lemma size_update (qs : gmap Z ntt_queue) q x y : qs !! q = Some x -> size (<[q := y]> qs) = size qs.
Proof. intros Hx. by rewrite map_size_insert, Hx. Qed.

Lemma unlogged (x : entry) l : x <> Stop -> Stop ∈ l ++ [x] -> Stop ∈ l.
Proof. intros Hx [?|Heq%list_elem_of_singleton]%elem_of_app; congruence. Qed.

(** ** What the invariant says of a queue *)
Lemma in_use w ts q :
  loop_inv w ts -> (0 < total (hold q) ts)%nat \/ (0 < total (dying q) ts)%nat \/ (0 < count_in q (combine w))%nat ->
  exists x, queues w !! q = Some x.
Proof.
  intros Hinv Hpos. pose proof (i_queues _ _ Hinv q) as Hq. unfold queue_inv, queue_ok in Hq.
  destruct (queues w !! q) as [x|]; [by exists x|]. lia.
Qed.

Lemma queue_facts w ts q x :
  loop_inv w ts -> queues w !! q = Some x ->
  external_refs x = Z.of_nat (client_refs x + total (hold q) ts + count_in q (combine w)) /\
  (total (token q) ts + count_in q (combine w) = if decide (task_list x = []) then 0 else 1)%nat /\
  total (dying q) ts = (if decide (external_refs x = 0) then 1%nat else 0%nat) /\
  pushed q (log w) = runs_of q (log w) ++ drop (total (started q) ts) (task_list x).
Proof.
  intros Hinv Hx. pose proof (i_queues _ _ Hinv q) as Hq. unfold queue_inv, queue_ok in Hq.
  by rewrite Hx in Hq.
Qed.

(** The queue of a call is referenced: by the caller, or by the queue context. *)
Lemma call_holds w t rest q :
  loop_inv w (t :: rest) ->
  (match in_call t with
   | Some (PushTask q' _ _) | Some (PushAcquire q' _) | Some (CombinePush q' _) | Some (Acquire q' _)
   | Some (Release q') => q' = q
   | _ => False
   end) ->
  exists x, queues w !! q = Some x /\ 0 < external_refs x.
Proof.
  intros Hinv Hc. pose proof (Forall_inv (i_threads _ _ Hinv)) as Hok.
  assert (Hpos : (0 < total (hold q) (t :: rest))%nat).
  { rewrite !total_cons. unfold hold at 1.
    pose proof (t_context _ _ Hok) as Hx. unfold context_ok in Hx.
    destruct (in_call t) as [[]|]; try done; subst; simpl; rewrite ?one_same;
      try (destruct own; simpl; [lia|]); try lia.
    all: pose proof (queue_at_hold _ _ _ Hok Hx); lia. }
  destruct (in_use w (t :: rest) q Hinv) as [x Hx]; [by left|].
  exists x. split; [done|]. destruct (queue_facts _ _ _ _ Hinv Hx) as (-> & _). lia.
Qed.

(** The caller gets back the reference it lent. *)
Definition return_ref (own : bool) (x : ntt_queue) : ntt_queue :=
  set_refs (external_refs x) (client_refs x + Nat.b2n own) x.

Lemma finish_ok `{Platform} w q own x :
  queues w !! q = Some x ->
  finish w q own = Ok (None, set_queue q (return_ref own x) w).
Proof.
  intros Hx. unfold finish, get_queue, return_ref. rewrite Hx. destruct own; simpl.
  - by rewrite Nat.add_1_r.
  - rewrite Nat.add_0_r. unfold set_queue. rewrite insert_id; [by destruct w|]. rewrite Hx. by destruct x.
Qed.

(** A thread that stays where it is, with another call. *)
Lemma call_thread_ok qs qs' q c c' p tq rest :
  Forall (thread_ok qs) (mk_thread (Some c) p tq :: rest) ->
  (forall q', q' <> q -> qs' !! q' = qs !! q') ->
  (forall x task, qs !! q = Some x -> head (task_list x) = Some task ->
    exists x', qs' !! q = Some x' /\ head (task_list x') = Some task) ->
  context_ok (mk_thread c' p tq) -> thread_ok qs' (mk_thread c' p tq).
Proof.
  intros [[H1 H2 H3 H4 H5] _]%Forall_cons Hne Hk Hc. split; try done; [|by intros _; apply H5].
  intros q' task Hf. destruct (H4 q' task Hf) as (x & Hx & Hh).
  destruct (decide (q' = q)) as [->|Hq]; [by eapply Hk|]. rewrite Hne by done. eauto.
Qed.

(** A call that changes the counts of a queue, but not its tasks. *)
Lemma refs_step q w w' c c' p tq rest x x' :
  loop_inv w (mk_thread (Some c) p tq :: rest) ->
  queues w !! q = Some x -> queues w' = <[q := x']> (queues w) -> task_list x' = task_list x ->
  (forall q', q' <> q -> same_queue q' w w' (mk_thread (Some c) p tq) (mk_thread c' p tq)) ->
  queue_inv w' (mk_thread c' p tq :: rest) q ->
  context_ok (mk_thread c' p tq) ->
  work_cnt w' = work_cnt w -> other_work w' = other_work w -> log w' = log w ->
  leaving (mk_thread c' p tq) = leaving (mk_thread (Some c) p tq) ->
  (forall task, (pushing task (mk_thread c' p tq) <= pushing task (mk_thread (Some c) p tq))%nat) ->
  0 <= eventfd w' ->
  (combine w' <> [] -> 0 < eventfd w' \/ (0 < up (mk_thread c' p tq) + total up rest)%nat \/
     (0 < waking (mk_thread c' p tq) + total waking rest)%nat) ->
  loop_inv w' (mk_thread c' p tq :: rest).
Proof.
  intros Hinv Hx Hqs Htl Hother Hq Hctx Hw Ho Hl Hlv Hp He Hwk.
  assert (Hkeep : forall x0 task, queues w !! q = Some x0 -> head (task_list x0) = Some task ->
    exists x1, queues w' !! q = Some x1 /\ head (task_list x1) = Some task).
  { intros x0 task Hx0 Hh. exists x'. rewrite Hqs, lookup_insert_eq, Htl. split; [done|]. congruence. }
  apply (inv_step q w w' (mk_thread (Some c) p tq)); try done.
  - eapply call_thread_ok; [apply (i_threads _ _ Hinv)| |exact Hkeep|done].
    intros q' Hne. apply (Hother q' Hne).
  - intros _. exact Hkeep.
  - rewrite Hw, Ho, Hlv, Hqs, (size_update _ _ _ _ Hx), (i_work _ _ Hinv), total_cons. lia.
  - rewrite Hl, Hw. apply (i_stop _ _ Hinv).
  - intros task. by left.
  - intros task y Hy Hin. left. exists x. split; [done|]. rewrite Hqs, lookup_insert_eq in Hy.
    injection Hy as <-. by rewrite <- Htl.
Qed.

(** The queue a step is about: the old facts against the new ones. *)
Ltac this_queue Hinv Hx :=
  let H := fresh "Hf" in
  pose proof (queue_facts _ _ _ _ Hinv Hx) as H; unfold queue_inv;
  cbn [queues combine log emit with_queues with_combine with_eventfd with_work set_queue];
  rewrite ?lookup_insert_eq, ?count_in_app, ?pushed_app, ?runs_of_app, ?total_cons in *;
  measures; unfold queue_ok;
  cbn [task_list external_refs client_refs set_tasks set_refs return_ref] in *;
  rewrite ?one_same in *.

(** Decides whether a count is zero where the context knows. *)
Ltac dec_refs :=
  repeat match goal with
  | H : context [decide (?a = 0%Z)] |- _ => destruct (decide (a = 0%Z)); try (exfalso; lia)
  | |- context [decide (?a = 0%Z)] => destruct (decide (a = 0%Z)); try (exfalso; lia)
  end.

(** The wake-up condition when neither the combine nor the eventfd changes. *)
Ltac same_wake Hinv :=
  let H := fresh in
  intros H; destruct (i_wake _ _ Hinv H) as [?|[?|?]]; rewrite ?total_cons in *; measures;
  [by left|right; left; lia|right; right; repeat case_match; lia].

Section exec_steps.
Context `{Platform}.
Implicit Types (w : ntt_loop) (p : point) (rest : list thread).

Lemma push_acquire_inv w q own p tq rest c' w' :
  loop_inv w (mk_thread (Some (PushAcquire q own)) p tq :: rest) ->
  push_acquire w q own = Ok (c', w') -> loop_inv w' (mk_thread c' p tq :: rest).
Proof.
  intros Hinv. destruct (call_holds _ _ _ q Hinv eq_refl) as (x & Hx & Hpos).
  unfold push_acquire, get_queue. rewrite Hx, bind_ok.
  intros (_ & _ & [= <- <-])%bind_inv_ok.
  eapply (refs_step q w); try done.
  - other_queue.
  - this_queue Hinv Hx. destruct Hf as (Hr & Hk & Hd & Hp).
    dec_refs; split_and!; try done; lia.
  - apply (i_eventfd _ _ Hinv).
  - same_wake Hinv.
Qed.

Lemma combine_push_inv w q own p tq rest c' w' :
  loop_inv w (mk_thread (Some (CombinePush q own)) p tq :: rest) ->
  ntt_combine_push w q own = Ok (c', w') -> loop_inv w' (mk_thread c' p tq :: rest).
Proof.
  intros Hinv. destruct (call_holds _ _ _ q Hinv eq_refl) as (x & Hx & Hpos).
  unfold ntt_combine_push, get_queue. rewrite Hx, bind_ok.
  intros (_ & _ & (_ & _ & Heq)%bind_inv_ok)%bind_inv_ok.
  case_bool_decide as Hc.
  - injection Heq as <- <-. eapply (refs_step q w _ _ _ p tq rest x x); try done.
    + simpl. by rewrite insert_id.
    + other_queue.
    + this_queue Hinv Hx. rewrite Hx. destruct Hf as (Hr & Hk & Hd & Hp).
      rewrite Hc in *. unfold count_in, total in *. simpl in *. rewrite one_same.
      dec_refs; split_and!; try done; lia.
    + apply (i_eventfd _ _ Hinv).
    + intros _. right. measures. destruct (in_loop p) eqn:Hp; [left|right; lia].
      pose proof (t_awake _ _ (Forall_inv (i_threads _ _ Hinv)) ltac:(done)) as Hw. simpl in Hw.
      destruct p; simpl in *; try done; rewrite ?Hp; simpl; lia.
  - rewrite (finish_ok _ q own x) in Heq by done. injection Heq as <- <-.
    eapply (refs_step q w); try done.
    + other_queue.
    + this_queue Hinv Hx. destruct Hf as (Hr & Hk & Hd & Hp).
      unfold count_in, total in *. simpl in *. rewrite one_same.
      dec_refs; split_and!; try done; lia.
    + apply (i_eventfd _ _ Hinv).
    + intros _. destruct (i_wake _ _ Hinv Hc) as [?|[?|?]]; rewrite ?total_cons in *; measures;
        [by left|right; left; lia|right; right; lia].
Qed.

Lemma wakeup_inv w q own p tq rest c' w' :
  loop_inv w (mk_thread (Some (CombineWakeup q own)) p tq :: rest) ->
  finish (ntt_loop_combine_wakeup w (in_loop p)) q own = Ok (c', w') ->
  loop_inv w' (mk_thread c' p tq :: rest).
Proof.
  intros Hinv Heq. pose proof (i_eventfd _ _ Hinv) as He.
  assert (exists n, ntt_loop_combine_wakeup w (in_loop p) = with_eventfd n w /\ eventfd w <= n /\
    (in_loop p = false -> 0 < n)) as (n & Hn & Hle & Hwk).
  { unfold ntt_loop_combine_wakeup, eventfd_write, UINT64_MAX.
    destruct (in_loop p); simpl; [exists (eventfd w); split_and!; [by destruct w|lia|done]|].
    destruct (Z.ltb_spec (eventfd w) (2 ^ 64 - 1 - 1)); [exists (eventfd w + 1)|exists (eventfd w)];
      (split_and!; [by destruct w|lia|lia]). }
  rewrite Hn in Heq.
  assert (Hw : combine w <> [] -> 0 < n \/ (0 < up (mk_thread None p tq) + total up rest)%nat \/
    (0 < waking (mk_thread None p tq) + total waking rest)%nat).
  { intros Hc. destruct (i_wake _ _ Hinv Hc) as [?|[?|?]]; rewrite ?total_cons in *; measures;
      [left; lia|right; left; lia|]. destruct (in_loop p) eqn:Hp; [right; right; lia|left; by apply Hwk]. }
  destruct own; simpl in Heq.
  - destruct (in_use w _ q Hinv) as [x Hx].
    { left. rewrite total_cons. measures. rewrite one_same. simpl. lia. }
    change (finish (with_eventfd n w) q true = Ok (c', w')) in Heq.
    rewrite (finish_ok _ q true x) in Heq by done. injection Heq as <- <-.
    eapply (refs_step q w); try done.
    + other_queue.
    + this_queue Hinv Hx. destruct Hf as (Hr & Hk & Hd & Hp).
      dec_refs; split_and!; try done; simpl in *; lia.
    + simpl. lia.
  - injection Heq as <- <-.
    apply (inv_step q w _ (mk_thread (Some (CombineWakeup q false)) p tq)); try done.
    + other_queue.
    + pose proof (i_queues _ _ Hinv q) as Hq. unfold queue_inv in *. rewrite !total_cons in *. measures.
      by rewrite one_zero in Hq.
    + by eapply (call_thread_ok (queues w) (queues w) q); [apply (i_threads _ _ Hinv)|..|done]; eauto.
    + intros _. eauto.
    + simpl. rewrite (i_work _ _ Hinv), total_cons. simpl. lia.
    + apply (i_stop _ _ Hinv).
    + simpl. lia.
    + intros task. by left.
    + intros task x Hx Hin. left. eauto.
Qed.

Lemma acquire_inv w q own p tq rest c' w' :
  loop_inv w (mk_thread (Some (Acquire q own)) p tq :: rest) ->
  ntt_queue_acquire w q own = Ok (c', w') -> loop_inv w' (mk_thread c' p tq :: rest).
Proof.
  intros Hinv. destruct (call_holds _ _ _ q Hinv eq_refl) as (x & Hx & Hpos).
  unfold ntt_queue_acquire, get_queue. rewrite Hx, bind_ok.
  intros (_ & _ & [= <- <-])%bind_inv_ok.
  eapply (refs_step q w); try done.
  - other_queue.
  - this_queue Hinv Hx. destruct Hf as (Hr & Hk & Hd & Hp).
    dec_refs; split_and!; try done; lia.
  - apply (i_eventfd _ _ Hinv).
  - same_wake Hinv.
Qed.

Lemma release_inv w q p tq rest c' w' :
  loop_inv w (mk_thread (Some (Release q)) p tq :: rest) ->
  ntt_queue_release w q = Ok (c', w') -> loop_inv w' (mk_thread c' p tq :: rest).
Proof.
  intros Hinv. destruct (call_holds _ _ _ q Hinv eq_refl) as (x & Hx & Hpos).
  unfold ntt_queue_release, get_queue. rewrite Hx, bind_ok.
  intros [= <- <-].
  eapply (refs_step q w); try done.
  - destruct (Z.eqb_spec (external_refs x) 1); other_queue.
  - this_queue Hinv Hx. destruct Hf as (Hr & Hk & Hd & Hp).
    destruct (Z.eqb_spec (external_refs x) 1); measures; rewrite ?one_same;
      dec_refs; split_and!; try done; lia.
  - by destruct (Z.eqb_spec (external_refs x) 1).
  - by destruct (Z.eqb_spec (external_refs x) 1).
  - intros task. destruct (Z.eqb_spec (external_refs x) 1); measures; lia.
  - apply (i_eventfd _ _ Hinv).
  - destruct (Z.eqb_spec (external_refs x) 1); same_wake Hinv.
Qed.

(** The list of tasks grows at its end: the task started stays the first. *)
Lemma drop_started w ts q x task :
  loop_inv w ts -> queues w !! q = Some x ->
  drop (total (started q) ts) (task_list x ++ [task]) = drop (total (started q) ts) (task_list x) ++ [task].
Proof.
  intros Hinv Hx. destruct (queue_facts _ _ _ _ Hinv Hx) as (_ & Hk & _).
  pose proof (total_le (started q) (token q) ts (started_token q)) as Hs.
  rewrite drop_app_le; [done|]. case_decide as Hl; [lia|]. destruct (task_list x); [done|simpl; lia].
Qed.

Lemma push_task_inv w q task own p tq rest c' w' :
  loop_inv w (mk_thread (Some (PushTask q task own)) p tq :: rest) ->
  ntt_queue_push_task w q task own = Ok (c', w') -> loop_inv w' (mk_thread c' p tq :: rest).
Proof.
  intros Hinv. destruct (call_holds _ _ _ q Hinv eq_refl) as (x & Hx & Hpos).
  unfold ntt_queue_push_task, get_queue. rewrite Hx, bind_ok. intros (_ & _ & Heq)%bind_inv_ok.
  set (x1 := set_tasks (task_list x ++ [task]) x) in *.
  assert (Hres : exists own', w' = emit (Pushed q task) (set_queue q (return_ref own' x1) w) /\
    if decide (task_list x = []) then c' = Some (PushAcquire q own) /\ own' = false
    else c' = None /\ own' = own).
  { unfold ntt_queue_empty in Heq. case_bool_decide as Hl.
    - injection Heq as <- <-. exists false. rewrite decide_True by done. split; [|done].
      unfold return_ref, x1, set_refs. simpl. by rewrite Nat.add_0_r.
    - rewrite (finish_ok _ q own x1) in Heq by (simpl; apply lookup_insert_eq). injection Heq as <- <-.
      exists own. rewrite decide_False by done. split; [|done]. unfold set_queue, with_queues, emit. simpl.
      by rewrite insert_insert_eq. }
  destruct Hres as (own' & -> & Hc). clear Heq.
  pose proof (drop_started _ _ _ _ task Hinv Hx) as Hdrop.
  assert (Hkeep : forall x0 t0, queues w !! q = Some x0 -> head (task_list x0) = Some t0 ->
    exists x', <[q := return_ref own' x1]> (queues w) !! q = Some x' /\ head (task_list x') = Some t0).
  { intros x0 t0 Hx0 Hh. rewrite Hx in Hx0. injection Hx0 as <-. eexists. rewrite lookup_insert_eq. split; [done|].
    simpl. by destruct (task_list x). }
  apply (inv_step q w _ (mk_thread (Some (PushTask q task own)) p tq)); try done.
  - destruct (decide (task_list x = [])); destruct Hc as [-> ->]; other_queue.
  - this_queue Hinv Hx. destruct Hf as (Hr & Hk & Hd & Hp). rewrite Hp.
    assert (pushed q [Pushed q task] = [task]) as -> by (simpl; by rewrite decide_True).
    change (runs_of q [Pushed q task]) with (@nil ptr). unfold x1.
    cbn [task_list external_refs client_refs set_tasks set_refs]. rewrite app_nil_r, <- app_assoc, Hdrop.
    rewrite (decide_False (P := task_list x ++ [task] = [])) by (by destruct (task_list x)).
    destruct (decide (task_list x = [])); destruct Hc as [-> ->]; measures; rewrite ?one_same; simpl;
      dec_refs; split_and!; try done; lia.
  - eapply (call_thread_ok (queues w)); [apply (i_threads _ _ Hinv)| |exact Hkeep|].
    + intros q' Hne. simpl. by rewrite lookup_insert_ne.
    + pose proof (t_context _ _ (Forall_inv (i_threads _ _ Hinv))) as Hx2. unfold context_ok in *. simpl in *.
      destruct (decide (task_list x = [])); by destruct Hc as [-> ->].
  - intros _. exact Hkeep.
  - simpl. rewrite (size_update _ _ x), (i_work _ _ Hinv), total_cons by done. simpl.
    destruct (decide (task_list x = [])); destruct Hc as [-> ->]; simpl; lia.
  - simpl. intros Hs%unlogged; [|done]. by apply (i_stop _ _ Hinv).
  - apply (i_eventfd _ _ Hinv).
  - destruct (decide (task_list x = [])); destruct Hc as [-> ->]; same_wake Hinv.
  - intros task'. left. destruct (decide (task_list x = [])); destruct Hc as [-> ->]; measures; lia.
  - intros task' x' Hx' Hin. simpl in Hx'. rewrite lookup_insert_eq in Hx'. injection Hx' as <-. simpl in Hin.
    apply elem_of_app in Hin as [Hin| ->%list_elem_of_singleton]; [left; eauto|right].
    destruct (decide (task_list x = [])); destruct Hc as [-> ->]; measures; rewrite decide_True by done; lia.
Qed.

Lemma deinit_facts w q p tq rest :
  loop_inv w (mk_thread (Some (Destroy q)) p tq :: rest) ->
  exists x, queues w !! q = Some x /\ external_refs x = 0 /\ task_list x = [] /\ (q ∉ combine w) /\
    total (hold q) (mk_thread (Some (Destroy q)) p tq :: rest) = 0%nat /\
    total (token q) (mk_thread (Some (Destroy q)) p tq :: rest) = 0%nat /\
    total (dying q) rest = 0%nat.
Proof.
  intros Hinv. destruct (in_use w _ q Hinv) as [x Hx].
  { right. left. rewrite total_cons. measures. rewrite one_same. lia. }
  exists x. destruct (queue_facts _ _ _ _ Hinv Hx) as (Hr & Hk & Hd & _).
  assert (external_refs x = 0 /\ total (dying q) rest = 0%nat) as [Hz Hdr].
  { rewrite total_cons in Hd. measures. rewrite one_same in Hd. destruct (decide (external_refs x = 0)); lia. }
  pose proof (no_hold_no_token _ _ q (i_threads _ _ Hinv) ltac:(lia)) as Hkz.
  split_and!; try done; try lia.
  - destruct (decide (task_list x = [])); [done|lia].
  - apply count_in_zero. lia.
Qed.

Lemma deinit_inv w q p tq rest c' w' :
  loop_inv w (mk_thread (Some (Destroy q)) p tq :: rest) ->
  ntt_queue_deinit w q = Ok (c', w') -> loop_inv w' (mk_thread c' p tq :: rest).
Proof.
  intros Hinv. destruct (deinit_facts _ _ _ _ _ Hinv) as (x & Hx & Hz & Hl & Hc & Hh & Hk & Hd).
  unfold ntt_queue_deinit, get_queue. rewrite Hx, bind_ok.
  intros (_ & _ & (_ & _ & (_ & _ & [= <- <-])%bind_inv_ok)%bind_inv_ok)%bind_inv_ok.
  pose proof ((total_le (started q) (token q) _ (started_token q)) : (total (started q)
    (mk_thread (Some (Destroy q)) p tq :: rest) <= _)%nat) as Hs.
  destruct (queue_facts _ _ _ _ Hinv Hx) as (_ & _ & _ & Hp). rewrite Hl, drop_nil, app_nil_r in Hp.
  apply count_in_zero in Hc. rewrite !total_cons in *. measures.
  apply (inv_step q w _ (mk_thread (Some (Destroy q)) p tq)); try done.
  - other_queue.
  - unfold queue_inv. cbn [queues combine log emit with_queues].
    rewrite lookup_delete_eq, pushed_app, runs_of_app, !total_cons. measures. simpl.
    rewrite !app_nil_r. split_and!; try done; lia.
  - eapply (call_thread_ok (queues w) _ q); [apply (i_threads _ _ Hinv)| | |done].
    + intros q' Hne. simpl. by rewrite lookup_delete_ne.
    + intros x0 t0 Hx0. rewrite Hx in Hx0. injection Hx0 as <-. by rewrite Hl.
  - intros _ x0 t0 Hx0. rewrite Hx in Hx0. injection Hx0 as <-. by rewrite Hl.
  - cbn [queues work_cnt other_work emit with_queues]. rewrite map_size_delete_Some by (by rewrite Hx).
    rewrite (i_work _ _ Hinv), total_cons. measures.
    assert (size (queues w) <> 0)%nat; [|lia]. intros He%map_size_empty_iff. by rewrite He in Hx.
  - simpl. intros Hst%unlogged; [|done]. by apply (i_stop _ _ Hinv).
  - apply (i_eventfd _ _ Hinv).
  - same_wake Hinv.
  - intros task. by left.
  - intros task x' Hx'. simpl in Hx'. by rewrite lookup_delete_eq in Hx'.
Qed.

Lemma work_leave_inv w p tq rest c' w' :
  loop_inv w (mk_thread (Some WorkLeave) p tq :: rest) ->
  ntt_loop_work_leave w = Ok (c', w') -> loop_inv w' (mk_thread c' p tq :: rest).
Proof.
  intros Hinv. pose proof (i_work _ _ Hinv) as Hw. rewrite total_cons in Hw. measures.
  unfold ntt_loop_work_leave. intros (_ & _ & [= <- <-])%bind_inv_ok.
  set (w1 := with_work (work_cnt w - 1) (other_work w) w).
  assert (Hsame : forall q, same_queue q w (if negb (work_cnt w =? 1) then w1 else emit Stop w1)
    (mk_thread (Some WorkLeave) p tq) (mk_thread None p tq)).
  { intros q. unfold same_queue. destruct (work_cnt w =? 1); simpl; rewrite ?pushed_app, ?runs_of_app, ?app_nil_r;
      split_and!; done. }
  apply (inv_step 0 w _ (mk_thread (Some WorkLeave) p tq)); try done.
  - eapply same_queue_inv; [apply Hsame|apply (i_queues _ _ Hinv)].
  - eapply (call_thread_ok (queues w) _ 0); [apply (i_threads _ _ Hinv)| | |done];
      destruct (work_cnt w =? 1); simpl; eauto.
  - intros _. destruct (work_cnt w =? 1); simpl; eauto.
  - destruct (work_cnt w =? 1); simpl; lia.
  - pose proof (i_stop _ _ Hinv) as Hs. destruct (Z.eqb_spec (work_cnt w) 1); simpl; [lia|].
    intros Hin. specialize (Hs Hin). lia.
  - pose proof (i_eventfd _ _ Hinv). by destruct (work_cnt w =? 1).
  - destruct (work_cnt w =? 1); same_wake Hinv.
  - intros task. by left.
  - intros task x Hx Hin. left. exists x. destruct (work_cnt w =? 1); done.
Qed.

Lemma exec_call_inv w c p tq rest c' w' :
  loop_inv w (mk_thread (Some c) p tq :: rest) ->
  exec_call c (in_loop p) w = Ok (c', w') -> loop_inv w' (mk_thread c' p tq :: rest).
Proof.
  destruct c; simpl; eauto using push_task_inv, push_acquire_inv, combine_push_inv, wakeup_inv,
    acquire_inv, release_inv, deinit_inv, work_leave_inv.
Qed.

(** ** The points *)

(** A thread moves without touching any queue. *)
Lemma move_inv w t t' rest :
  loop_inv w (t :: rest) ->
  (forall q, hold q t' = hold q t /\ token q t' = token q t /\ dying q t' = dying q t /\
             started q t' = started q t) ->
  thread_ok (queues w) t' ->
  leaving t' = leaving t -> (waking t <= waking t')%nat ->
  (combine w <> [] -> 0 < eventfd w \/ (up t <= up t')%nat) ->
  (forall task, (pushing task t' <= pushing task t)%nat) ->
  loop_inv w (t' :: rest).
Proof.
  intros Hinv Hm Ht Hl Hw Hu Hp.
  assert (Hsame : forall q, same_queue q w w t t').
  { intros q. destruct (Hm q) as (? & ? & ? & ?). by split_and!. }
  apply (inv_step 0 w w t); try done.
  - eapply same_queue_inv; [apply Hsame|apply (i_queues _ _ Hinv)].
  - intros _. eauto.
  - rewrite (i_work _ _ Hinv), total_cons. lia.
  - apply (i_stop _ _ Hinv).
  - apply (i_eventfd _ _ Hinv).
  - intros Hc. destruct (i_wake _ _ Hinv Hc) as [?|[?|?]]; rewrite ?total_cons in *; [by left| |right; right; lia].
    destruct (Hu Hc); [by left|right; left; lia].
  - intros task. by left.
  - intros task x Hx Hin. left. eauto.
Qed.

(** The conditions of [move_inv] for explicit threads that are in no call. *)
Ltac solve_move :=
  first [ by intros q'; measures
        | by measures
        | intros _; right; measures; lia
        | by intros _; right; measures
        | intros task'; measures; lia ].

(** The thread that serves a queue holds its only token. *)
Lemma served w t rest q x :
  loop_inv w (t :: rest) -> queues w !! q = Some x -> (0 < token q t)%nat ->
  task_list x <> [] /\ count_in q (combine w) = 0%nat /\ total (token q) rest = 0%nat /\
  total (started q) rest = 0%nat.
Proof.
  intros Hinv Hx Ht. destruct (queue_facts _ _ _ _ Hinv Hx) as (_ & Hk & _ & _).
  rewrite total_cons in Hk. case_decide as Hl; [lia|].
  pose proof (total_le (started q) (token q) rest (started_token q)). split_and!; try done; lia.
Qed.

Lemma served_first w rest q task cnt m p tq :
  loop_inv w (mk_thread None p tq :: rest) ->
  p = SvcRun q task cnt m \/ p = SvcInside q task cnt m \/ p = SvcNext q task cnt m ->
  exists x l, queues w !! q = Some x /\ task_list x = task :: l /\
    count_in q (combine w) = 0%nat /\ total (token q) rest = 0%nat /\ total (started q) rest = 0%nat.
Proof.
  intros Hinv Hp.
  destruct (t_first _ _ (Forall_inv (i_threads _ _ Hinv)) q task) as (x & Hx & Hh).
  { by destruct Hp as [-> |[-> | ->]]. }
  destruct (served w _ rest q x Hinv Hx) as (_ & Hc & Hk & Hs).
  { measures. destruct Hp as [-> |[-> | ->]]; measures; rewrite one_same; lia. }
  exists x. destruct (task_list x) as [|t0 l]; [done|]. injection Hh as ->. exists l. done.
Qed.

Lemma take_inv w q rest_q m tq rest :
  loop_inv w (mk_thread None (Top m) tq :: rest) -> combine w = q :: rest_q ->
  loop_inv (with_combine rest_q w) (mk_thread None (SvcEnter q m) tq :: rest).
Proof.
  intros Hinv Hc. pose proof (Forall_inv (i_threads _ _ Hinv)) as [H1 H2 H3 H4 H5].
  assert (Hcount : forall q', count_in q' (combine w) = (one q' q 1 + count_in q' rest_q)%nat)
    by (intros q'; by rewrite Hc).
  destruct (in_use w _ q Hinv) as [x Hx].
  { right. right. rewrite Hcount, one_same. lia. }
  apply (inv_step q w _ (mk_thread None (Top m) tq)); try done.
  - intros q' Hne. unfold same_queue. measures. simpl. rewrite Hcount, !one_ne by done. done.
  - this_queue Hinv Hx. rewrite Hx. rewrite Hcount, one_same in Hf. destruct Hf as (Hr & Hk & Hd & Hp).
    dec_refs; split_and!; try done; lia.
  - intros _. eauto.
  - simpl. rewrite (i_work _ _ Hinv), total_cons. simpl. lia.
  - apply (i_stop _ _ Hinv).
  - apply (i_eventfd _ _ Hinv).
  - intros _. destruct (i_wake _ _ Hinv) as [?|[?|?]]; [by rewrite Hc|by left| |];
      rewrite total_cons in *; measures; [right; left; lia|right; right; lia].
  - intros task. by left.
  - intros task x' Hx' Hin. left. eauto.
Qed.

Lemma run_inv w q task cnt m tq rest :
  loop_inv w (mk_thread None (SvcRun q task cnt m) tq :: rest) ->
  loop_inv (emit (Run q task) w) (mk_thread None (SvcInside q task cnt m) tq :: rest).
Proof.
  intros Hinv. pose proof (Forall_inv (i_threads _ _ Hinv)) as [H1 H2 H3 H4 H5].
  destruct (served_first _ _ q task cnt m _ _ Hinv) as (x & l & Hx & Hl & Hc & Hk & Hs); [by left|].
  apply (inv_step q w _ (mk_thread None (SvcRun q task cnt m) tq)); try done.
  - other_queue.
  - this_queue Hinv Hx. rewrite Hx. destruct Hf as (Hr & Hk' & Hd & Hp).
    assert (runs_of q [Run q task] = [task]) as -> by (simpl; by rewrite decide_True).
    change (pushed q [Run q task]) with (@nil ptr). rewrite app_nil_r, Hp, Hs, Hl, <- app_assoc. simpl.
    rewrite decide_False in * by (by rewrite Hl). split_and!; try done; lia.
  - intros _. eauto.
  - simpl. rewrite (i_work _ _ Hinv), total_cons. simpl. lia.
  - simpl. intros Hst%unlogged; [|done]. by apply (i_stop _ _ Hinv).
  - apply (i_eventfd _ _ Hinv).
  - same_wake Hinv.
  - intros task'. by left.
  - intros task' x' Hx' Hin. left. eauto.
Qed.

Lemma next_inv w q task cnt m tq rest next w' :
  loop_inv w (mk_thread None (SvcNext q task cnt m) tq :: rest) ->
  ntt_queue_next w q = Ok (next, w') ->
  loop_inv w' (mk_thread None (SvcDrop q task next cnt m) tq :: rest).
Proof.
  intros Hinv. pose proof (Forall_inv (i_threads _ _ Hinv)) as [H1 H2 H3 H4 H5].
  destruct (served_first _ _ q task cnt m _ _ Hinv) as (x & l & Hx & Hl & Hc & Hk & Hs); [by right; right|].
  unfold ntt_queue_next, get_queue. rewrite Hx, bind_ok, Hl.
  intros (_ & _ & (_ & _ & [= <- <-])%bind_inv_ok)%bind_inv_ok. cbn [tail].
  apply (inv_step q w _ (mk_thread None (SvcNext q task cnt m) tq)); try done.
  - other_queue.
  - this_queue Hinv Hx. destruct Hf as (Hr & Hk' & Hd & Hp).
    rewrite Hl, Hs in Hp. rewrite Hs, Hp. simpl.
    destruct l as [|t0 l]; simpl; split_and!; try done; lia.
  - split; try done. intros q' t' Hf. destruct l as [|t0 l]; simpl in Hf; [done|]. injection Hf as <- <-.
    eexists. simpl. by rewrite lookup_insert_eq.
  - intros Hpos. lia.
  - simpl. rewrite (size_update _ _ x), (i_work _ _ Hinv), total_cons by done. simpl. lia.
  - apply (i_stop _ _ Hinv).
  - apply (i_eventfd _ _ Hinv).
  - same_wake Hinv.
  - intros task'. by left.
  - intros task' x' Hx' Hin. left. exists x. split; [done|]. simpl in Hx'. rewrite lookup_insert_eq in Hx'.
    injection Hx' as <-. rewrite Hl. by right.
Qed.

Lemma drop_inv w q task next cnt m tq rest :
  loop_inv w (mk_thread None (SvcDrop q task next cnt m) tq :: rest) ->
  loop_inv (emit (Drop q task) w) (mk_thread None (SvcDropping q next cnt m) tq :: rest).
Proof.
  intros Hinv. pose proof (Forall_inv (i_threads _ _ Hinv)) as [H1 H2 H3 H4 H5].
  assert (Hsame : forall q', same_queue q' w (emit (Drop q task) w)
    (mk_thread None (SvcDrop q task next cnt m) tq) (mk_thread None (SvcDropping q next cnt m) tq)).
  { intros q'. unfold same_queue. simpl. rewrite pushed_app, runs_of_app, !app_nil_r. by split_and!. }
  apply (inv_step q w _ (mk_thread None (SvcDrop q task next cnt m) tq)); try done.
  - eapply same_queue_inv; [apply Hsame|apply (i_queues _ _ Hinv)].
  - intros _. eauto.
  - simpl. rewrite (i_work _ _ Hinv), total_cons. simpl. lia.
  - simpl. intros Hst%unlogged; [|done]. by apply (i_stop _ _ Hinv).
  - apply (i_eventfd _ _ Hinv).
  - same_wake Hinv.
  - intros task'. by left.
  - intros task' x' Hx' Hin. left. eauto.
Qed.

Lemma read_inv w tq rest :
  loop_inv w (mk_thread None ReadEventfd tq :: rest) ->
  loop_inv (ntt_combine_eventfd_ready w) (mk_thread None (Top Unlimited) tq :: rest).
Proof.
  intros Hinv. pose proof (Forall_inv (i_threads _ _ Hinv)) as [H1 H2 H3 H4 H5].
  pose proof (i_eventfd _ _ Hinv) as He.
  assert (exists n, ntt_combine_eventfd_ready w = with_eventfd n w /\ 0 <= n) as (n & -> & Hn).
  { unfold ntt_combine_eventfd_ready. destruct (eventfd w >? 0) eqn:Hgt; [exists (eventfd w - 1)|exists (eventfd w)];
      (split; [by destruct w|lia]). }
  assert (Hsame : forall q', same_queue q' w (with_eventfd n w)
    (mk_thread None ReadEventfd tq) (mk_thread None (Top Unlimited) tq)) by (intros q'; by split_and!).
  apply (inv_step 0 w _ (mk_thread None ReadEventfd tq)); try done.
  - eapply same_queue_inv; [apply Hsame|apply (i_queues _ _ Hinv)].
  - intros _. eauto.
  - simpl. rewrite (i_work _ _ Hinv), total_cons. simpl. lia.
  - apply (i_stop _ _ Hinv).
  - intros _. right. left. simpl. lia.
  - intros task'. by left.
  - intros task' x' Hx' Hin. left. eauto.
Qed.

(** The end of a turn: the token goes on to the next task, or back to the
    combine, or nobody needs it. *)
Lemma turn_inv w q next cnt m tq rest :
  loop_inv w (mk_thread None (SvcDropping q next cnt m) tq :: rest) ->
  loop_inv w (mk_thread None (svc_turn q next cnt m) tq :: rest).
Proof.
  intros Hinv. pose proof (Forall_inv (i_threads _ _ Hinv)) as [H1 H2 H3 H4 H5]. simpl in *.
  apply (move_inv w (mk_thread None (SvcDropping q next cnt m) tq)); try done.
  - intros q'. unfold svc_turn. destruct m as [|c l1 l2], next as [task|]; simpl; rewrite ?one_zero;
      try done; rewrite u64_small by lia; destruct (Z.eqb_spec (cnt + 1) l2); simpl;
      rewrite ?decide_True, ?decide_False, ?one_zero by lia; done.
  - unfold svc_turn. destruct m as [|c l1 l2]; [destruct next; split; done|].
    rewrite u64_small by lia. destruct (Z.eqb_spec (cnt + 1) l2), next; split; simpl; try done; try lia.
  - intros _. right. unfold svc_turn. destruct m as [|c l1 l2]; [by destruct next|]. simpl. lia.
Qed.

Lemma exec_point_inv w p tq rest t' w' :
  loop_inv w (mk_thread None p tq :: rest) -> exec_point p tq w = Ok (t', w') -> loop_inv w' (t' :: rest).
Proof.
  intros Hinv. pose proof (Forall_inv (i_threads _ _ Hinv)) as [H1 H2 H3 H4 H5]. simpl in *.
  destruct p as [|m|q m|q task cnt m|q task cnt m|q task cnt m|q task next cnt m|q next cnt m|q cnt m| | |];
    simpl; intros Heq.
  - by injection Heq as <- <-.
  - destruct m as [|cnt l1 l2]; unfold combine_svc_turn, ntt_combine_try_take in Heq.
    + destruct (combine w) as [|q l] eqn:Hc; injection Heq as <- <-; [|by apply take_inv].
      apply (move_inv w _ _ rest Hinv); try solve_move; by split.
    + destruct (cnt <? l1); [destruct (combine w) as [|q l] eqn:Hc|]; injection Heq as <- <-;
        [|by apply take_inv|]; (apply (move_inv w _ _ rest Hinv); try solve_move; by split).
  - apply bind_inv_ok in Heq as (t & Ht & [= <- <-]). unfold svc_enter, get_queue in Ht.
    destruct (queues w !! q) as [x|] eqn:Hx; [rewrite bind_ok in Ht|done].
    do 4 apply bind_inv_ok in Ht as (_ & _ & Ht). destruct (task_list x) as [|task l] eqn:Hl; [done|].
    injection Ht as <-. apply (move_inv w _ _ rest Hinv); try solve_move. split; try done.
    intros q' t' [= <- <-]. exists x. by rewrite Hl.
  - injection Heq as <- <-. by apply run_inv.
  - injection Heq as <- <-. apply (move_inv w _ _ rest Hinv); try solve_move; by split.
  - apply bind_inv_ok in Heq as ([next w1] & Hn & [= <- <-]). by eapply next_inv.
  - injection Heq as <- <-. by apply drop_inv.
  - injection Heq as <- <-. by apply turn_inv.
  - apply bind_inv_ok in Heq as (t & Ht & [= <- <-]). unfold svc_leave in Ht.
    apply bind_inv_ok in Ht as (_ & _ & [= <-]).
    destruct m as [|c l1 l2]; [|destruct (Z.eqb_spec cnt 0)];
      (apply (move_inv w _ _ rest Hinv); try solve_move; try by split);
      intros q'; simpl; rewrite ?decide_True, ?decide_False, ?one_zero by done; done.
  - injection Heq as <- <-. destruct (eventfd w >? 0); (apply (move_inv w _ _ rest Hinv); try solve_move; by split).
  - injection Heq as <- <-. by apply read_inv.
  - injection Heq as <- <-. apply (move_inv w _ _ rest Hinv); try solve_move; by split.
Qed.

Lemma loop_exec_inv w t rest t' w' :
  loop_inv w (t :: rest) -> exec t w = Ok (t', w') -> loop_inv w' (t' :: rest).
Proof.
  destruct t as [[c|] p tq]; unfold exec; simpl; intros Hinv Heq; [|by eapply exec_point_inv].
  apply bind_inv_ok in Heq as ([c' w1] & Hc & [= <- <-]). by eapply exec_call_inv.
Qed.

(** ** The code around the library *)
Lemma lend_inv w q x c p tq rest :
  loop_inv w (mk_thread None p tq :: rest) -> client_code p = true ->
  queues w !! q = Some x -> (0 < client_refs x)%nat ->
  (exists task, c = PushTask q task true /\ unqueued task w (mk_thread None p tq :: rest)) \/
    c = Acquire q true \/ c = Release q ->
  loop_inv (lend q x w) (mk_thread (Some c) p tq :: rest).
Proof.
  intros Hinv Hp Hx Hpos Hc. pose proof (Forall_inv (i_threads _ _ Hinv)) as [H1 H2 H3 H4 H5].
  assert (Hm : (forall q', call_hold q' c = one q' q 1) /\ (forall q', call_token q' c = 0%nat) /\
    (forall q', dying q' (mk_thread (Some c) p tq) = 0%nat) /\ leaving (mk_thread (Some c) p tq) = 0%nat).
  { destruct Hc as [(task & -> & _)|[-> | ->]]; done. }
  destruct Hm as (Hh & Hk & Hd & Hl).
  assert (Hkeep : forall x0 task, queues w !! q = Some x0 -> head (task_list x0) = Some task ->
    exists x1, queues (lend q x w) !! q = Some x1 /\ head (task_list x1) = Some task).
  { intros x0 task Hx0 Hhd. rewrite Hx in Hx0. injection Hx0 as <-. eexists. simpl. by rewrite lookup_insert_eq. }
  apply (inv_step q w _ (mk_thread None p tq)); try done.
  - intros q' Hne. unfold same_queue. rewrite Hd. cbn [hold token in_call at_point]. rewrite Hh, Hk. simpl.
    rewrite lookup_insert_ne, one_ne by done. done.
  - pose proof (queue_facts _ _ _ _ Hinv Hx) as (Hr & Hk' & Hd' & Hp').
    unfold queue_inv. rewrite !total_cons in *. rewrite Hd. cbn [hold token dying started in_call at_point] in *.
    rewrite Hh, Hk, one_same. simpl. rewrite lookup_insert_eq. simpl in *. split_and!; try done; lia.
  - split; simpl; try done.
    + unfold context_ok. simpl. by destruct Hc as [(task & -> & _)|[-> | ->]].
    + intros q' task Hf. destruct (H4 q' task Hf) as (x0 & Hx0 & Hhd).
      destruct (decide (q' = q)) as [->|Hne]; [by eapply Hkeep|]. rewrite lookup_insert_ne by done. eauto.
    + intros _ ->. done.
  - intros _. exact Hkeep.
  - rewrite Hl. simpl. rewrite (size_update _ _ x), (i_work _ _ Hinv), total_cons by done. simpl. lia.
  - apply (i_stop _ _ Hinv).
  - apply (i_eventfd _ _ Hinv).
  - same_wake Hinv.
  - intros task'. destruct Hc as [(task & -> & Hun)|[-> | ->]]; measures; [|by left|by left].
    case_decide as Heq; [subst|by left]. right. split; [done|lia].
  - intros task' x' Hx' Hin. left. simpl in Hx'. rewrite lookup_insert_eq in Hx'. injection Hx' as <-. eauto.
Qed.

(** A call that lends nothing. *)
Lemma begin_inv w c p tq rest :
  loop_inv w (mk_thread None p tq :: rest) -> client_code p = true ->
  (exists q task, tq = Some q /\ c = PushTask q task false /\ unqueued task w (mk_thread None p tq :: rest)) \/
  (exists q, tq = Some q /\ c = Acquire q false) ->
  loop_inv w (mk_thread (Some c) p tq :: rest).
Proof.
  intros Hinv Hp Hc. pose proof (Forall_inv (i_threads _ _ Hinv)) as [H1 H2 H3 H4 H5].
  assert (Hsame : forall q, same_queue q w w (mk_thread None p tq) (mk_thread (Some c) p tq)).
  { intros q'. destruct Hc as [(q & task & _ & -> & _)|(q & _ & ->)]; unfold same_queue; simpl;
      rewrite one_zero; done. }
  apply (inv_step 0 w _ (mk_thread None p tq)); try done.
  - eapply same_queue_inv; [apply Hsame|apply (i_queues _ _ Hinv)].
  - split; simpl; try done.
    + unfold context_ok. simpl. by destruct Hc as [(q & task & -> & -> & _)|(q & -> & ->)].
    + intros _ ->. done.
  - intros _. eauto.
  - rewrite (i_work _ _ Hinv), total_cons. destruct Hc as [(q & task & _ & -> & _)|(q & _ & ->)]; simpl; lia.
  - apply (i_stop _ _ Hinv).
  - apply (i_eventfd _ _ Hinv).
  - destruct Hc as [(q & task & _ & -> & _)|(q & _ & ->)]; same_wake Hinv.
  - intros task'. destruct Hc as [(q & task & _ & -> & Hun)|(q & _ & ->)]; measures; [|by left].
    case_decide as Heq; [subst|by left]. right. split; [done|lia].
  - intros task' x' Hx' Hin. left. eauto.
Qed.

Lemma client_inv w t rest w' t' :
  loop_inv w (t :: rest) -> client_code (at_point t) = true ->
  client (t :: rest) w t w' t' -> loop_inv w' (t' :: rest).
Proof.
  intros Hinv Hp Hc. inversion Hc; subst; simpl in *.
  - eapply lend_inv; try done. left. eauto.
  - eapply begin_inv; try done. left. eauto.
  - eapply lend_inv; try done. by right; left.
  - eapply begin_inv; try done. right. eauto.
  - eapply lend_inv; try done. by right; right.
  - pose proof (Forall_inv (i_threads _ _ Hinv)) as [H1 H2 H3 H4 H5].
    assert (Hsame : forall q, same_queue q w (with_work (work_cnt w) (pred (other_work w)) w)
      (mk_thread None p tq) (mk_thread (Some WorkLeave) p tq)) by (intros q; by split_and!).
    apply (inv_step 0 w _ (mk_thread None p tq)); try done.
    + eapply same_queue_inv; [apply Hsame|apply (i_queues _ _ Hinv)].
    + split; simpl; try done. by intros _ ->.
    + intros _. eauto.
    + simpl. rewrite (i_work _ _ Hinv), total_cons. simpl. lia.
    + apply (i_stop _ _ Hinv).
    + apply (i_eventfd _ _ Hinv).
    + same_wake Hinv.
    + intros task. by left.
    + intros task x' Hx' Hin. left. eauto.
Qed.

Lemma create_inv w ts q w' :
  loop_inv w ts -> queues w !! q = None -> 0 < work_cnt w -> ntt_queue_create_in w q = Ok w' ->
  loop_inv w' ts.
Proof.
  intros Hinv Hx Hpos. unfold ntt_queue_create_in, ntt_queue_init, ntt_loop_work_enter.
  intros (_ & _ & [= <-])%bind_inv_ok.
  pose proof (i_queues _ _ Hinv q) as Hq. unfold queue_inv in Hq. rewrite Hx in Hq.
  destruct Hq as (Hc & Hh & Hk & Hd & Hs & Hp). destruct Hinv. split; simpl; try done.
  - intros q'. specialize (i_queues q'). unfold queue_inv in *. simpl.
    destruct (decide (q' = q)) as [->|Hne]; [|by rewrite lookup_insert_ne].
    rewrite lookup_insert_eq, Hc, Hh, Hk, Hd, Hs, Hp. simpl. by rewrite app_nil_r.
  - rewrite Forall_forall in *. intros t Ht. destruct (i_threads t Ht) as [H1 H2 H3 H4 H5].
    split; try done. intros q' task Hf. destruct (H4 q' task Hf) as (x & Hx' & Hh').
    exists x. rewrite lookup_insert_ne by congruence. done.
  - rewrite map_size_insert, Hx, i_work. simpl. lia.
  - intros Hst. specialize (i_stop Hst). lia.
  - intros task q' x Ht. destruct (decide (q' = q)) as [->|Hne].
    + rewrite lookup_insert_eq. intros [= <-]. apply not_elem_of_nil.
    + rewrite lookup_insert_ne by done. by apply i_fresh.
Qed.

Lemma work_enter_inv w ts w' :
  loop_inv w ts -> 0 < work_cnt w -> ntt_loop_work_enter w (S (other_work w)) = Ok w' -> loop_inv w' ts.
Proof.
  intros [] Hpos. unfold ntt_loop_work_enter. intros (_ & _ & [= <-])%bind_inv_ok.
  split; simpl; try done; [lia|]. intros Hst. specialize (i_stop Hst). lia.
Qed.

Lemma loop_step_inv w ts w' ts' : loop_inv w ts -> loop_step (w, ts) (w', ts') -> loop_inv w' ts'.
Proof.
  intros Hinv Hs.
  assert (Hmid : forall (l1 l2 : list thread) t, l1 ++ t :: l2 ≡ₚ t :: l1 ++ l2)
    by (intros; by rewrite Permutation_middle).
  inversion Hs; subst; try by eauto using create_inv, work_enter_inv.
  - apply (loop_inv_perm _ (t' :: l1 ++ l2)); [by rewrite Hmid|].
    apply (loop_inv_perm _ _ (t :: l1 ++ l2)) in Hinv; [|apply Hmid]. by eapply loop_exec_inv.
  - apply (loop_inv_perm _ (t' :: l1 ++ l2)); [by rewrite Hmid|].
    apply (loop_inv_perm _ _ (t :: l1 ++ l2)) in Hinv; [|apply Hmid]. eapply client_inv; [done|done|].
    match goal with Hc : client _ _ _ _ _ |- _ => revert Hc end.
    assert (Hun : forall task, unqueued task w (l1 ++ t :: l2) -> unqueued task w (t :: l1 ++ l2)).
    { intros task [Hl Hz]. split; [done|]. by rewrite (total_perm _ _ (l1 ++ t :: l2)). }
    intros Hc. inversion Hc; subst; constructor; eauto.
  - eapply loop_inv_perm in Hinv; [|apply Hmid].
    eapply loop_inv_perm; [symmetry; apply Hmid|].
    pose proof (Forall_inv (i_threads _ _ Hinv)) as [H1' H2' H3' H4' H5'].
    apply (move_inv _ _ _ _ Hinv); try solve_move. split; simpl; try done. lia.
  - eapply loop_inv_perm in Hinv; [|apply Hmid].
    eapply loop_inv_perm; [symmetry; apply Hmid|].
    pose proof (Forall_inv (i_threads _ _ Hinv)) as [H1' H2' H3' H4' H5'].
    apply (move_inv _ _ _ _ Hinv); try solve_move; by split.
Qed.

(** ** No step faults *)
Lemma exec_call_total w c p tq rest :
  loop_inv w (mk_thread (Some c) p tq :: rest) -> exists r, exec_call c (in_loop p) w = Ok r.
Proof.
  intros Hinv.
  assert (Hfin : forall w1 q own x, queues w1 !! q = Some x -> exists r, finish w1 q own = Ok r)
    by (intros w1 q own x Hx; eexists; by apply (finish_ok w1 q own x)).
  destruct c as [q task own|q own|q own|q own|q own|q|q|]; simpl.
  1,2,3,5,6: destruct (call_holds _ _ _ q Hinv eq_refl) as (x & Hx & Hpos).
  - unfold ntt_queue_push_task, get_queue. rewrite Hx, bind_ok, c_assert_true, bind_ok.
    + case_match; [eauto|]. eapply (Hfin _ q own). simpl. apply lookup_insert_eq.
    + apply bool_decide_eq_true. intros q' x' Hx'. apply (i_fresh _ _ Hinv task q' x'); [|done].
      rewrite total_cons. measures. rewrite decide_True by done. lia.
  - unfold push_acquire, get_queue. rewrite Hx, bind_ok. assert_ok. eauto.
  - destruct (served w _ _ q x Hinv Hx) as (Hl & Hc & _ & _).
    { measures. rewrite one_same. lia. }
    unfold ntt_combine_push, get_queue, ntt_queue_empty, ntt_queue_unlinked. rewrite Hx, bind_ok.
    rewrite !c_assert_true, !bind_ok by (first [by apply bool_decide_eq_true, count_in_zero
      | by rewrite bool_decide_eq_false_2]). case_match; [eauto|]. by eapply (Hfin _ q own).
  - unfold ntt_queue_acquire, get_queue. rewrite Hx, bind_ok. assert_ok. eauto.
  - unfold ntt_queue_release, get_queue. rewrite Hx, bind_ok. eauto.
  - destruct own; [|eexists; reflexivity].
    destruct (in_use w _ q Hinv) as [x Hx].
    { left. rewrite total_cons. measures. rewrite one_same. simpl. lia. }
    eapply (Hfin _ q true x). unfold ntt_loop_combine_wakeup, eventfd_write. by repeat case_match.
  - destruct (deinit_facts _ _ _ _ _ Hinv) as (x & Hx & Hz & Hl & Hc & _).
    unfold ntt_queue_deinit, get_queue, ntt_queue_empty, ntt_queue_unlinked.
    rewrite Hx, bind_ok, Hz, !c_assert_true by (done || by apply bool_decide_eq_true). rewrite !bind_ok. eauto.
  - pose proof (i_work _ _ Hinv) as Hw. rewrite total_cons in Hw. measures.
    unfold ntt_loop_work_leave. rewrite c_assert_true by lia. rewrite bind_ok. eauto.
Qed.

Lemma exec_point_total w p tq rest :
  loop_inv w (mk_thread None p tq :: rest) -> exists r, exec_point p tq w = Ok r.
Proof.
  intros Hinv. pose proof (Forall_inv (i_threads _ _ Hinv)) as [H1 H2 H3 H4 H5]. simpl in *.
  destruct p as [|m|q m|q task cnt m|q task cnt m|q task cnt m|q task next cnt m|q next cnt m|q cnt m| | |];
    simpl; eauto.
  - case_match. eauto.
  - destruct (in_use w _ q Hinv) as [x Hx].
    { left. rewrite total_cons. measures. rewrite one_same. lia. }
    destruct (served w _ _ q x Hinv Hx) as (Hl & Hc & _ & _).
    { measures. rewrite one_same. lia. }
    unfold svc_enter, get_queue, ntt_queue_empty, ntt_queue_unlinked. rewrite Hx, bind_ok, H1.
    assert (Hlim : match m with Unlimited => true | Limited _ _ limit => limit >? 0 end = true)
      by (destruct m; [done|]; simpl in *; lia).
    rewrite !c_assert_true, !bind_ok by (first [exact Hlim | by apply bool_decide_eq_true, count_in_zero
      | by rewrite bool_decide_eq_false_2 | done]).
    destruct (task_list x); [done|]. eexists. reflexivity.
  - destruct (served_first _ _ q task cnt m _ _ Hinv) as (x & l & Hx & Hl & Hc & _); [by right; right|].
    unfold ntt_queue_next, get_queue, ntt_queue_empty, ntt_queue_unlinked. rewrite Hx, bind_ok, Hl.
    rewrite !c_assert_true, !bind_ok by (first [by apply bool_decide_eq_true, count_in_zero
      | by rewrite bool_decide_eq_false_2]). eauto.
  - unfold svc_leave. rewrite c_assert_true by (by apply bool_decide_eq_true). rewrite !bind_ok. eauto.
Qed.

Lemma exec_total w t rest : loop_inv w (t :: rest) -> exists r, exec t w = Ok r.
Proof.
  destruct t as [[c|] p tq]; unfold exec; simpl; intros Hinv; [|by eapply exec_point_total].
  destruct (exec_call_total _ _ _ _ _ Hinv) as [[c' w'] ->]. rewrite bind_ok. eauto.
Qed.
End exec_steps.
