(* ===== verification/QueueRest.v ===== *)
(** * Serial queues: coming to rest

    A measure that every step of the library decreases as long as the code
    around it makes no new calls. *)

From stdpp Require Import base numbers list gmap relations.
From Stdlib Require Import ZArith Lia.
From S2P Require Import Prelude.
From S2P Require Import Queue.
From S2P Require Import QueueInv.
From S2P Require Import QueueSteps.

#[local] Open Scope Z_scope.

(** ** Tasks left *)
Definition tasks_left (qs : gmap Z ntt_queue) : nat :=
  total (fun e => length (task_list e.2)) (map_to_list qs).

Lemma tasks_left_delete qs q x :
  qs !! q = Some x -> tasks_left qs = (length (task_list x) + tasks_left (delete q qs))%nat.
Proof.
  intros Hx. unfold tasks_left. by rewrite <- (total_perm _ _ _ (map_to_list_delete _ _ _ Hx)).
Qed.

Lemma tasks_left_insert qs q x y :
  qs !! q = Some x ->
  (tasks_left (<[q := y]> qs) + length (task_list x) = tasks_left qs + length (task_list y))%nat.
Proof.
  intros Hx. rewrite (tasks_left_delete qs q x Hx), (tasks_left_delete (<[q := y]> qs) q y).
  - rewrite delete_insert_eq. lia.
  - apply lookup_insert_eq.
Qed.

(** ** The measure

    [n] is the number of threads: a write of the eventfd may wake all of them.
    [b] says that the eventfd is readable. *)
Definition call_cost (n : nat) (c : call) : nat :=
  match c with
  | PushTask _ _ _ => 6 * n + 29
  | PushAcquire _ _ => 3 * n + 10
  | CombinePush _ _ => 3 * n + 9
  | CombineWakeup _ _ => 3 * n + 4
  | Release _ => 3
  | Destroy _ => 2
  | Acquire _ _ | WorkLeave => 1
  end.

Definition point_cost (n : nat) (b : bool) (p : point) : nat :=
  match p with
  | Outside => 0
  | Wait => 3 * Nat.b2n b
  | Top _ => 1 + 3 * Nat.b2n b
  | ReadEventfd => 2
  | SvcEnter _ _ => 4
  | SvcRun _ _ _ _ => 3
  | SvcInside _ _ _ _ => 2
  | SvcNext _ _ _ _ => 1
  | SvcDrop _ _ _ _ _ => 3 * n + 17
  | SvcDropping _ _ _ _ => 3 * n + 16
  | SvcLeave _ _ _ => 3 * n + 14
  | Handler => 5
  end.

Definition cost (n : nat) (b : bool) (t : thread) : nat :=
  match in_call t with Some c => call_cost n c | None => 0 end + point_cost n b (at_point t).

Arguments cost n b !t /.

Definition readable (w : ntt_loop) : bool := eventfd w >? 0.

Definition loop_cost (n : nat) (w : ntt_loop) : nat :=
  (3 * n + 17) * tasks_left (queues w) + 4 * length (combine w) + 3 * Z.to_nat (eventfd w).

Definition potential (w : ntt_loop) (ts : list thread) : nat :=
  loop_cost (length ts) w + total (cost (length ts) (readable w)) ts.

Lemma cost_true n t : (cost n true t <= cost n false t + 3)%nat.
Proof. destruct t as [c p tq]; destruct p; simpl; lia. Qed.

Lemma cost_false n b t : (cost n false t <= cost n b t)%nat.
Proof. destruct b; [|lia]. destruct t as [c p tq]; destruct p; simpl; lia. Qed.

Lemma costs_true n ts : (total (cost n true) ts <= total (cost n false) ts + 3 * length ts)%nat.
Proof.
  induction ts as [|t ts IH]; [done|]. rewrite !total_cons. pose proof (cost_true n t). simpl. lia.
Qed.

(** A thread that does nothing before something happens. *)
Definition resting (w : ntt_loop) (t : thread) : Prop :=
  in_call t = None /\ (at_point t = Outside \/ (at_point t = Wait /\ eventfd w <= 0)).

#[global] Instance resting_dec w t : Decision (resting w t).
Proof.
  unfold resting. apply and_dec; [destruct (in_call t); [right|left]; done|].
  apply or_dec; [destruct (at_point t); try (left; done); right; done|].
  apply and_dec; [destruct (at_point t); try (left; done); right; done|apply _].
Defined.

Section rest.
Context `{Platform}.
Implicit Types (w : ntt_loop) (ts : list thread).

Lemma get_queue_ok w q x : get_queue w q = Ok x -> queues w !! q = Some x.
Proof. unfold get_queue. destruct (queues w !! q); [|done]. by intros [= ->]. Qed.

Lemma set_queue_cost n w q x y :
  queues w !! q = Some x ->
  (loop_cost n (set_queue q y w) + (3 * n + 17) * length (task_list x) =
   loop_cost n w + (3 * n + 17) * length (task_list y))%nat.
Proof. intros Hx. pose proof (tasks_left_insert (queues w) q x y Hx). unfold loop_cost. simpl. nia. Qed.

Lemma refs_cost n w q x r c :
  queues w !! q = Some x -> loop_cost n (set_queue q (set_refs r c x) w) = loop_cost n w.
Proof. intros Hx. pose proof (set_queue_cost n w q x (set_refs r c x) Hx) as Hc. simpl in Hc. lia. Qed.

Lemma emit_cost n x w : loop_cost n (emit x w) = loop_cost n w.
Proof. done. Qed.

Lemma finish_cost n w q own c' w' :
  finish w q own = Ok (c', w') -> c' = None /\ loop_cost n w' = loop_cost n w /\ eventfd w' = eventfd w.
Proof.
  unfold finish. destruct own; [|intros Heq; by injection Heq as <- <-].
  intros (x & Hx%get_queue_ok & [= <- <-])%bind_inv_ok. by rewrite refs_cost.
Qed.

(** A call pays for what it adds; writing the eventfd may wake every thread. *)
Definition cheaper (n : nat) w c w' c' : Prop :=
  (loop_cost n w' + match c' with Some c => call_cost n c | None => 0 end +
   (if decide (readable w' = readable w) then 0 else 3 * n) < loop_cost n w + call_cost n c)%nat /\
  eventfd w <= eventfd w'.

Lemma cheaper_same n w c w' c' :
  eventfd w' = eventfd w ->
  (loop_cost n w' + match c' with Some c => call_cost n c | None => 0 end < loop_cost n w + call_cost n c)%nat ->
  cheaper n w c w' c'.
Proof. intros He Hlt. unfold cheaper, readable. rewrite He, decide_True by done. split; lia. Qed.

(** [ntt_queue_push_task] is the push without wake-up and, when that found
    the queue empty, the acquisition and the wake-up, as their callers would do. *)
Lemma push_task_wakeup w q task own :
  ntt_queue_push_task w q task own =
  (r ← ntt_queue_push_task_without_wakeup w q task;
   let '(was_empty, w) := r : bool * ntt_loop in
   if was_empty then Ok (Some (PushAcquire q own), w) else finish w q own).
Proof.
  unfold ntt_queue_push_task, ntt_queue_push_task_without_wakeup.
  destruct (get_queue w q); [rewrite !bind_ok | done].
  by destruct (c_assert _).
Qed.

Lemma push_task_cost n w q task own c' w' :
  ntt_queue_push_task w q task own = Ok (c', w') -> cheaper n w (PushTask q task own) w' c'.
Proof.
  unfold ntt_queue_push_task. intros (x & Hx%get_queue_ok & (_ & _ & Heq)%bind_inv_ok)%bind_inv_ok.
  pose proof (set_queue_cost n w q x (set_tasks (task_list x ++ [task]) x) Hx) as Hc.
  simpl in Hc. rewrite length_app in Hc. simpl in Hc.
  destruct (ntt_queue_empty x).
  - injection Heq as <- <-. apply cheaper_same; [done|]. rewrite emit_cost. simpl. nia.
  - apply (finish_cost n) in Heq as (-> & Hl & He). apply cheaper_same; [by rewrite He|].
    rewrite Hl, emit_cost. simpl. nia.
Qed.

Lemma combine_push_cost n w q own c' w' :
  ntt_combine_push w q own = Ok (c', w') -> cheaper n w (CombinePush q own) w' c'.
Proof.
  unfold ntt_combine_push.
  intros (x & Hx%get_queue_ok & (_ & _ & (_ & _ & Heq)%bind_inv_ok)%bind_inv_ok)%bind_inv_ok.
  assert (Hc : loop_cost n (with_combine (combine w ++ [q]) w) = (loop_cost n w + 4)%nat).
  { unfold loop_cost. simpl. rewrite length_app. simpl. lia. }
  case_bool_decide.
  - injection Heq as <- <-. apply cheaper_same; [done|]. simpl. lia.
  - apply (finish_cost n) in Heq as (-> & Hl & He). apply cheaper_same; [by rewrite He|]. simpl. lia.
Qed.

Lemma wakeup_cost n w q own b c' w' :
  0 <= eventfd w -> finish (ntt_loop_combine_wakeup w b) q own = Ok (c', w') ->
  cheaper n w (CombineWakeup q own) w' c'.
Proof.
  intros He Heq. apply (finish_cost n) in Heq as (-> & Hl & He'). unfold cheaper. rewrite Hl, He'.
  assert (Hw : (loop_cost n (ntt_loop_combine_wakeup w b) <= loop_cost n w + 3)%nat /\
    eventfd w <= eventfd (ntt_loop_combine_wakeup w b)).
  { unfold ntt_loop_combine_wakeup, eventfd_write. destruct b; simpl; [lia|].
    destruct (_ <? _); simpl; [|lia]. unfold loop_cost. simpl. lia. }
  split; [|lia]. simpl. case_decide; lia.
Qed.

Lemma exec_call_cost n c b w c' w' :
  0 <= eventfd w -> exec_call c b w = Ok (c', w') -> cheaper n w c w' c'.
Proof.
  intros He Heq. destruct c as [q task own|q own|q own|q own|q own|q|q|]; simpl in Heq.
  - by apply push_task_cost.
  - unfold push_acquire in Heq. apply bind_inv_ok in Heq as (x & Hx%get_queue_ok & Heq).
    apply bind_inv_ok in Heq as (_ & _ & [= <- <-]).
    apply cheaper_same; [done|]. rewrite refs_cost by done. simpl. lia.
  - by apply combine_push_cost.
  - by apply (wakeup_cost n w q own b).
  - unfold ntt_queue_acquire in Heq. apply bind_inv_ok in Heq as (x & Hx%get_queue_ok & Heq).
    apply bind_inv_ok in Heq as (_ & _ & [= <- <-]).
    apply cheaper_same; [done|]. rewrite refs_cost by done. simpl. lia.
  - unfold ntt_queue_release in Heq. apply bind_inv_ok in Heq as (x & Hx%get_queue_ok & [= <- <-]).
    apply cheaper_same; [done|]. rewrite refs_cost by done. destruct (external_refs x =? 1); simpl; lia.
  - unfold ntt_queue_deinit in Heq. apply bind_inv_ok in Heq as (x & Hx%get_queue_ok & Heq).
    do 3 apply bind_inv_ok in Heq as (_ & _ & Heq). injection Heq as <- <-.
    apply cheaper_same; [done|]. pose proof (tasks_left_delete _ _ _ Hx). unfold loop_cost. simpl. nia.
  - unfold ntt_loop_work_leave in Heq. apply bind_inv_ok in Heq as (_ & _ & [= <- <-]).
    apply cheaper_same; [by case_match|].
    case_match; (change (loop_cost n w + 0 < loop_cost n w + 1)%nat; lia).
Qed.

(** The points: nothing but [ReadEventfd] touches the eventfd. *)
Lemma exec_point_cost n w p tq t' w' rest :
  loop_inv w (mk_thread None p tq :: rest) -> exec_point p tq w = Ok (t', w') ->
  ~ resting w (mk_thread None p tq) ->
  (loop_cost n w' + cost n (readable w') t' < loop_cost n w + point_cost n (readable w) p)%nat /\
  eventfd w' <= eventfd w.
Proof.
  intros Hinv Heq Hrest. pose proof (i_eventfd _ _ Hinv) as He.
  assert (Hb : (Nat.b2n (readable w) <= 1)%nat) by (destruct (readable w); simpl; lia).
  destruct p as [|m|q m|q task cnt m|q task cnt m|q task cnt m|q task next cnt m|q next cnt m|q cnt m| | |];
    simpl in Heq.
  - destruct Hrest. split; [done|]. by left.
  - assert (Htake : forall q l, combine w = q :: l ->
      (loop_cost n (with_combine l w) + 4 = loop_cost n w)%nat).
    { intros q l Hc. unfold loop_cost. simpl. rewrite Hc. simpl. lia. }
    unfold combine_svc_turn, ntt_combine_try_take in Heq.
    destruct m as [|cnt l1 l2]; [|destruct (cnt <? l1)]; try destruct (combine w) as [|q l] eqn:Hc;
      injection Heq as <- <-; simpl; try (specialize (Htake _ _ eq_refl)); split; lia.
  - apply bind_inv_ok in Heq as (t & Ht & [= <- <-]). unfold svc_enter in Ht.
    do 5 apply bind_inv_ok in Ht as (? & _ & Ht). case_match; [done|]. injection Ht as <-. simpl. split; lia.
  - injection Heq as <- <-. rewrite emit_cost. simpl. split; lia.
  - injection Heq as <- <-. simpl. split; lia.
  - apply bind_inv_ok in Heq as ([next w1] & Hn & [= <- <-]).
    destruct (served_first _ _ q task cnt m _ _ Hinv) as (x & l & Hx & Hl & _); [by right; right|].
    unfold ntt_queue_next in Hn. apply bind_inv_ok in Hn as (x' & Hx'%get_queue_ok & Hn).
    rewrite Hx in Hx'. injection Hx' as <-. do 2 apply bind_inv_ok in Hn as (_ & _ & Hn). injection Hn as <- <-.
    pose proof (set_queue_cost n w q x (set_tasks (tail (task_list x)) x) Hx) as Hc.
    rewrite Hl in Hc. simpl in Hc. simpl. rewrite Hl. simpl. split; [|lia]. nia.
  - injection Heq as <- <-. rewrite emit_cost. simpl. split; lia.
  - injection Heq as <- <-. unfold svc_turn. split; [|lia].
    repeat case_match; simpl; lia.
  - apply bind_inv_ok in Heq as (t & Ht & [= <- <-]). unfold svc_leave in Ht.
    apply bind_inv_ok in Ht as (_ & _ & [= <-]). split; [|lia].
    repeat case_match; simpl; lia.
  - injection Heq as <- <-. split; [|lia]. unfold resting, readable in *. simpl in Hrest.
    destruct (eventfd w >? 0) eqn:Hgt; [simpl; lia|]. destruct Hrest. split; [done|]. right. split; [done|lia].
  - injection Heq as <- <-. unfold ntt_combine_eventfd_ready, readable.
    destruct (eventfd w >? 0) eqn:Hgt; [|rewrite Hgt; simpl; split; lia].
    unfold loop_cost. simpl. destruct (eventfd w - 1 >? 0); simpl; split; lia.
  - injection Heq as <- <-. simpl. split; lia.
Qed.

Lemma loop_exec_potential w t rest t' w' :
  loop_inv w (t :: rest) -> exec t w = Ok (t', w') -> ~ resting w t ->
  (potential w' (t' :: rest) < potential w (t :: rest))%nat.
Proof.
  intros Hinv Heq Hrest. pose proof (i_eventfd _ _ Hinv) as He.
  unfold potential. cbn [length]. set (n := S (length rest)). rewrite !total_cons.
  destruct t as [[c|] p tq]; unfold exec in Heq; simpl in Heq.
  - apply bind_inv_ok in Heq as ([c' w1] & Hc & [= <- <-]).
    destruct (exec_call_cost n _ _ _ _ _ He Hc) as [Hlt Hle].
    assert (Hall : (total (cost n (readable w1)) (mk_thread None p tq :: rest) <=
      total (cost n (readable w)) (mk_thread None p tq :: rest) +
      (if decide (readable w1 = readable w) then 0 else 3 * n))%nat).
    { case_decide as Hr; [rewrite Hr; lia|].
      assert (readable w1 = true /\ readable w = false) as [-> ->].
      { unfold readable in *. destruct (eventfd w1 >? 0) eqn:H1, (eventfd w >? 0) eqn:H2; try done. lia. }
      apply (costs_true n (mk_thread None p tq :: rest)). }
    rewrite !total_cons in Hall. simpl in *. lia.
  - destruct (exec_point_cost n _ _ _ _ _ _ Hinv Heq Hrest) as [Hlt Hle].
    assert (Hall : (total (cost n (readable w')) rest <= total (cost n (readable w)) rest)%nat).
    { apply total_le. intros t. unfold readable. destruct (eventfd w' >? 0) eqn:H1; [|apply cost_false].
      assert ((eventfd w >? 0) = true) as -> by lia. lia. }
    simpl. lia.
Qed.

(** ** Steps of the library alone *)
Inductive quiet_step : ntt_loop * list thread -> ntt_loop * list thread -> Prop :=
  | quiet_exec w l1 t l2 w' t' :
      ~ resting w t -> exec t w = Ok (t', w') -> quiet_step (w, l1 ++ t :: l2) (w', l1 ++ t' :: l2).

Lemma potential_perm w ts ts' : ts ≡ₚ ts' -> potential w ts = potential w ts'.
Proof.
  intros Hp. unfold potential. rewrite (Permutation_length Hp). f_equal. by apply total_perm.
Qed.

Lemma loop_quiet_potential w ts w' ts' :
  loop_inv w ts -> quiet_step (w, ts) (w', ts') ->
  loop_inv w' ts' /\ (potential w' ts' < potential w ts)%nat.
Proof.
  intros Hinv Hq. inversion Hq as [? l1 t l2 ? t' Hr Hex]; subst. split.
  - eapply loop_step_inv; [exact Hinv|]. by constructor.
  - assert (Hmid : forall t : thread, l1 ++ t :: l2 ≡ₚ t :: l1 ++ l2) by (intros; by rewrite Permutation_middle).
    rewrite (potential_perm _ _ _ (Hmid t)), (potential_perm _ _ _ (Hmid t')).
    apply loop_exec_potential; [|done|done]. by eapply loop_inv_perm; [apply Hmid|].
Qed.

Lemma loop_quiet_steps_bound n : forall w ts w' ts',
  loop_inv w ts -> nsteps quiet_step n (w, ts) (w', ts') -> loop_inv w' ts' /\ (n <= potential w ts)%nat.
Proof.
  induction n as [|n IH]; intros w ts w' ts' Hinv Hs; inversion Hs as [|? ? [w1 ts1] ? H1 H2]; subst.
  - split; [done|lia].
  - destruct (loop_quiet_potential _ _ _ _ Hinv H1) as [Hinv1 Hp].
    destruct (IH _ _ _ _ Hinv1 H2) as [Hinv' Hn]. split; [done|lia].
Qed.
End rest.
