(* ===== verification/QueueProps.v ===== *)
(** * Serial queues: properties

    What holds of the queues of a loop, however pushes, references, workers and
    wake-ups interleave. *)

From stdpp Require Import base numbers list gmap relations.
From Stdlib Require Import ZArith Lia.
From S2P Require Import Prelude.
From S2P Require Import Queue.
From S2P Require Import QueueInv.
From S2P Require Import QueueSteps.
From S2P Require Import QueueRest.

#[local] Open Scope Z_scope.

(** ** Reachable states *)

(** The loop as [ntt_loop_run] sets it up, with the work it holds itself. *)
Definition fresh_loop : ntt_loop := mk_loop ∅ ntt_combine_init 0 1 1 [].

Definition worker : thread := mk_thread None (Top Unlimited) None.
Definition outsider : thread := mk_thread None Outside None.

Definition reachable `{Platform} (w : ntt_loop) (ts : list thread) : Prop :=
  exists ts0, Forall (fun t => t = worker \/ t = outsider) ts0 /\ rtc loop_step (fresh_loop, ts0) (w, ts).

Lemma fresh_loop_inv ts : Forall (fun t => t = worker \/ t = outsider) ts -> loop_inv fresh_loop ts.
Proof.
  intros Hts.
  assert (Hz : forall f : thread -> nat, f worker = 0%nat -> f outsider = 0%nat -> total f ts = 0%nat).
  { intros f Hw Ho. induction Hts as [|t ts [-> | ->] _ IH]; rewrite ?total_cons; lia || done. }
  split; simpl; try done.
  - intros q. unfold queue_inv. simpl. rewrite !Hz by done. done.
  - eapply Forall_impl; [exact Hts|]. intros t [-> | ->]; by split.
  - by rewrite Hz.
  - intros Hs. by apply not_elem_of_nil in Hs.
  - intros task. rewrite Hz by done. lia.
Qed.

Lemma loop_reachable_inv `{Platform} w ts : reachable w ts -> loop_inv w ts.
Proof.
  intros (ts0 & Hts & Hs). pose proof (fresh_loop_inv ts0 Hts) as Hinv.
  remember (fresh_loop, ts0) as c eqn:Ec. remember (w, ts) as d eqn:Ed.
  assert (Hgen : loop_inv c.1 c.2) by (by subst). clear Ec Hinv.
  enough (loop_inv d.1 d.2) by (by subst).
  clear Ed. induction Hs as [|x y z Hstep _ IH]; [done|]. apply IH.
  destruct x, y. by eapply loop_step_inv.
Qed.

(** ** At rest *)
Lemma resting_total w ts (f : thread -> nat) :
  (forall t, t ∈ ts -> resting w t) -> (forall t, resting w t -> f t = 0%nat) -> total f ts = 0%nat.
Proof.
  intros Hrest Hf. induction ts as [|t ts IH]; [done|]. rewrite total_cons, Hf, IH; try done.
  - intros t' Ht'. apply Hrest. by right.
  - apply Hrest. by left.
Qed.

Lemma rest_done w ts :
  loop_inv w ts -> (forall t, t ∈ ts -> resting w t) -> (exists t, t ∈ ts /\ in_loop (at_point t) = true) ->
  forall q, runs_of q (log w) = pushed q (log w) /\ forall x, queues w !! q = Some x -> task_list x = [].
Proof.
  intros Hinv Hrest (t & Ht & Hl) q.
  pose proof (fun f => resting_total w ts f Hrest) as Hz.
  assert (He : eventfd w <= 0).
  { destruct (Hrest t Ht) as [_ [Hp|[_ ?]]]; [|done]. by rewrite Hp in Hl. }
  assert (Hc : combine w = []).
  { destruct (combine w) as [|q0 l] eqn:Hc; [done|].
    destruct (i_wake _ _ Hinv) as [?|[Hu|Hu]]; [by rewrite Hc|lia| |]; rewrite Hz in Hu; try lia;
      intros [c p tq] [Hcall Hp]; simpl in *; subst; [|done]. destruct Hp as [-> |[-> _]]; done. }
  pose proof (i_queues _ _ Hinv q) as Hq. unfold queue_inv in Hq. rewrite Hc in Hq.
  rewrite (Hz (token q)), (Hz (started q)) in Hq
    by (intros [c p tq] [Hcall Hp]; simpl in *; subst; destruct Hp as [-> |[-> _]]; done).
  unfold queue_ok in Hq. destruct (queues w !! q) as [x|].
  - destruct Hq as (_ & Hk & _ & ->). case_decide as Hn; [|simpl in Hk; lia]. rewrite Hn, app_nil_r.
    split; [done|]. by intros y [= <-].
  - destruct Hq as (_ & _ & _ & _ & _ & ->). done.
Qed.

(** What is left of a loop that was told to stop. *)
Lemma stopped_idle `{Platform} w ts :
  loop_inv w ts -> Stop ∈ log w ->
  queues w = ∅ /\ combine w = [] /\ ntt_combine_deinit w = Ok tt /\ other_work w = 0%nat.
Proof.
  intros Hinv Hs. pose proof (i_stop _ _ Hinv Hs) as Hz. rewrite (i_work _ _ Hinv) in Hz.
  assert (He : queues w = ∅) by (apply map_size_empty_iff; lia).
  assert (Hc : combine w = []);
    [|unfold ntt_combine_deinit; rewrite c_assert_true by (by apply bool_decide_eq_true); split_and!; done || lia].
  destruct (combine w) as [|q l] eqn:Hc; [done|].
  destruct (in_use w ts q Hinv) as [x Hx]; [|by rewrite He in Hx].
  right. right. rewrite Hc. unfold count_in. rewrite total_cons, one_same. lia.
Qed.

(** ** Claims *)

(** Threads inside of a task of a queue. *)
Definition inside (q : Z) (t : thread) : nat :=
  match at_point t with SvcInside q' _ _ _ => one q q' 1 | _ => 0 end.

Arguments inside q !t /.

Section props.
Context `{Platform}.
Implicit Types (w : ntt_loop) (ts : list thread).

(** No assertion of the queues, of the combine or of the work count ever
    fails, and no queue is touched after its slot was given back. *)
Theorem queue_no_fault w ts t :
  reachable w ts -> t ∈ ts -> exists t' w', exec t w = Ok (t', w').
Proof.
  intros Hinv%loop_reachable_inv (l1 & l2 & ->)%list_elem_of_split.
  eapply loop_inv_perm in Hinv; [|by rewrite <- Permutation_middle].
  destruct (exec_total _ _ _ Hinv) as [[t' w'] Heq]. eauto.
Qed.

(** C7.  The tasks of a queue run one at a time, and [ntt_queue_self] is the
    queue inside of its tasks. *)
Theorem queue_serial w ts q :
  reachable w ts ->
  (total (inside q) ts <= 1)%nat /\ (forall t, t ∈ ts -> (0 < inside q t)%nat -> t_queue t = Some q).
Proof.
  intros Hinv%loop_reachable_inv. split.
  - pose proof (total_le (inside q) (token q) ts) as Hle. pose proof (i_queues _ _ Hinv q) as Hq.
    unfold queue_inv, queue_ok in Hq.
    assert (total (inside q) ts <= total (token q) ts)%nat.
    { apply Hle. intros t. destruct t as [c p tq]; destruct p; simpl; lia. }
    destruct (queues w !! q); [|lia]. destruct Hq as (_ & Hk & _). case_decide; lia.
  - intros t Ht Hin. pose proof (i_threads _ _ Hinv) as Hok. rewrite Forall_forall in Hok.
    rewrite (t_self _ _ (Hok t Ht)). destruct t as [c p tq]; destruct p; simpl in *; try lia.
    unfold one in Hin. case_decide; [by subst|lia].
Qed.

(** The tasks of a queue run in the order they were pushed in, each once:
    what was pushed is what was run, followed by tasks still in the queue. *)
Theorem queue_fifo w ts q :
  reachable w ts ->
  exists waiting, pushed q (log w) = runs_of q (log w) ++ waiting /\
    match queues w !! q with None => waiting = [] | Some x => waiting `suffix_of` task_list x end.
Proof.
  intros Hinv%loop_reachable_inv. pose proof (i_queues _ _ Hinv q) as Hq. unfold queue_inv, queue_ok in Hq.
  destruct (queues w !! q) as [x|].
  - destruct Hq as (_ & _ & _ & ->). eexists. split; [done|]. apply suffix_drop.
  - destruct Hq as (_ & _ & _ & _ & _ & ->). exists []. by rewrite app_nil_r.
Qed.

(** C19.  A queue that has tasks is never left alone: it is in the combine, on
    its way there, or being served, and only one of these; a queue without tasks
    is none of them. *)
Theorem queue_never_stranded w ts q x :
  reachable w ts -> queues w !! q = Some x ->
  (total (token q) ts + count_in q (combine w) = if decide (task_list x = []) then 0 else 1)%nat.
Proof. intros Hinv%loop_reachable_inv Hx. apply (queue_facts _ _ _ _ Hinv Hx). Qed.

(** C14.  No wake-up is lost: as long as the combine is not empty, the eventfd
    is readable, or a worker is going to look at the combine before it waits, or
    a thread is about to write the eventfd. *)
Theorem loop_no_lost_wakeup w ts :
  reachable w ts -> combine w <> [] ->
  0 < eventfd w \/ exists t, t ∈ ts /\ ((0 < up t)%nat \/ (0 < waking t)%nat).
Proof.
  intros Hinv%loop_reachable_inv Hc. destruct (i_wake _ _ Hinv Hc) as [?|[Hu|Hu]]; [by left| |]; right.
  - destruct (total_pos _ _ Hu) as (t & ? & ?). eauto.
  - destruct (total_pos _ _ Hu) as (t & ? & ?). eauto.
Qed.

(** The reference count of a queue is exactly what its clients, the
    threads and the combine hold; whoever holds a reference finds the queue in
    use. *)
Theorem queue_refs_exact w ts q :
  reachable w ts ->
  match queues w !! q with
  | Some x => external_refs x = Z.of_nat (client_refs x + total (hold q) ts + count_in q (combine w))
  | None => total (hold q) ts = 0%nat /\ (q ∉ combine w)
  end.
Proof.
  intros Hinv%loop_reachable_inv. pose proof (i_queues _ _ Hinv q) as Hq. unfold queue_inv, queue_ok in Hq.
  destruct (queues w !! q) as [x|]; [apply Hq|]. destruct Hq as (Hc & Hh & _).
  split; [done|]. by apply count_in_zero.
Qed.

(** The workers are told to stop only when no queue is left, the combine
    is empty, as [ntt_combine_deinit] asserts, and nobody else holds work of the
    loop. *)
Theorem loop_stops_idle w ts :
  reachable w ts -> Stop ∈ log w ->
  queues w = ∅ /\ combine w = [] /\ ntt_combine_deinit w = Ok tt /\ other_work w = 0%nat.
Proof. intros Hinv%loop_reachable_inv. by eapply stopped_idle. Qed.

(** When the code around the library makes no new calls, the loop comes to
    rest within a bounded number of steps; if it has a worker, every queue is
    then empty and has run every task that was pushed to it. *)
Theorem loop_comes_to_rest w ts n w' ts' :
  reachable w ts -> nsteps quiet_step n (w, ts) (w', ts') ->
  (n <= potential w ts)%nat /\
  ((exists t, t ∈ ts' /\ ~ resting w' t) -> exists c, quiet_step (w', ts') c) /\
  ((forall t, t ∈ ts' -> resting w' t) -> (exists t, t ∈ ts' /\ in_loop (at_point t) = true) ->
   forall q, runs_of q (log w') = pushed q (log w') /\
     forall x, queues w' !! q = Some x -> task_list x = []).
Proof.
  intros Hinv%loop_reachable_inv Hs. destruct (loop_quiet_steps_bound n _ _ _ _ Hinv Hs) as [Hinv' Hn].
  split_and!; [done| |].
  - intros (t & (l1 & l2 & ->)%list_elem_of_split & Hr).
    destruct (exec_total w' t (l1 ++ l2)) as [[t' w1] Heq].
    { eapply loop_inv_perm; [|exact Hinv']. by rewrite <- Permutation_middle. }
    eexists. by apply quiet_exec.
  - intros Hrest Hwk q. apply (rest_done w' ts' Hinv' Hrest Hwk).
Qed.
End props.

(** ** Running a schedule *)
Inductive move : Type :=
  | Exec (i : nat)
  | Create (q : Z)
  | AskPush (i : nat) (q : Z) (task : ptr)
  | AskRelease (i : nat) (q : Z)
  | AskWorkLeave (i : nat).

(** The client call [c] of the thread [i], with a reference lent to it. *)
Definition ask (i : nat) (q : Z) (c : call) (w : ntt_loop) (ts : list thread) :
    option (ntt_loop * list thread) :=
  match ts !! i, queues w !! q with
  | Some (mk_thread None p tq), Some x =>
      if client_code p && bool_decide (0 < client_refs x)%nat
      then Some (lend q x w, take i ts ++ mk_thread (Some c) p tq :: drop (S i) ts) else None
  | _, _ => None
  end.

Definition play `{Platform} (m : move) (c : ntt_loop * list thread) : option (ntt_loop * list thread) :=
  let '(w, ts) := c in
  match m with
  | Exec i =>
      match ts !! i with
      | Some t => match exec t w with
                  | Ok (t', w') => Some (w', take i ts ++ t' :: drop (S i) ts)
                  | Err _ => None
                  end
      | None => None
      end
  | Create q =>
      if bool_decide (queues w !! q = None) && (0 <? work_cnt w)
      then match ntt_queue_create_in w q with Ok w' => Some (w', ts) | Err _ => None end else None
  | AskPush i q task =>
      if bool_decide (map_Forall (fun _ x => task ∉ task_list x) (queues w) /\
                      total (pushing task) ts = 0%nat)
      then ask i q (PushTask q task true) w ts else None
  | AskRelease i q => ask i q (Release q) w ts
  | AskWorkLeave i =>
      match ts !! i with
      | Some (mk_thread None p tq) =>
          if client_code p && bool_decide (0 < other_work w)%nat
          then Some (with_work (work_cnt w) (pred (other_work w)) w,
                     take i ts ++ mk_thread (Some WorkLeave) p tq :: drop (S i) ts)
          else None
      | _ => None
      end
  end.

Fixpoint plays `{Platform} (ms : list move) (c : ntt_loop * list thread) : option (ntt_loop * list thread) :=
  match ms with
  | [] => Some c
  | m :: ms => match play m c with Some c => plays ms c | None => None end
  end.

Lemma ask_step `{Platform} i q c w ts d :
  ask i q c w ts = Some d ->
  (exists task, c = PushTask q task true /\ unqueued task w ts) \/ c = Release q ->
  loop_step (w, ts) d.
Proof.
  unfold ask. intros Heq Hc. destruct (ts !! i) as [[[|] p tq]|] eqn:Hi; try done.
  destruct (queues w !! q) as [x|] eqn:Hx; [|done].
  destruct (client_code p && bool_decide (0 < client_refs x)%nat) eqn:Hb; [|done].
  apply andb_true_iff in Hb as [Hp Hr%bool_decide_eq_true]. injection Heq as <-.
  rewrite <- (take_drop_middle ts i _ Hi) at 1. apply step_client; [done|].
  rewrite take_drop_middle by done.
  destruct Hc as [(task & -> & Hun)| ->]; by econstructor.
Qed.

Lemma loop_play_step `{Platform} m c c' : play m c = Some c' -> loop_step c c'.
Proof.
  destruct c as [w ts]. destruct m as [i|q|i q task|i q|i]; simpl; intros Hp.
  - destruct (ts !! i) as [t|] eqn:Hi; [|done]. destruct (exec t w) as [[t' w']|] eqn:Hex; [|done].
    injection Hp as <-. rewrite <- (take_drop_middle ts i t Hi) at 1. by constructor.
  - destruct (bool_decide (queues w !! q = None) && (0 <? work_cnt w)) eqn:Hb; [|done].
    apply andb_true_iff in Hb as [Hq%bool_decide_eq_true Hw%Z.ltb_lt].
    destruct (ntt_queue_create_in w q) as [w'|] eqn:Hc; [|done]. injection Hp as <-. by eapply step_create.
  - case_bool_decide as Hb; [|done]. destruct Hb as [Hl Hz]. eapply ask_step; [exact Hp|]. left. by exists task.
  - eapply ask_step; [exact Hp|]. by right.
  - destruct (ts !! i) as [[[|] p tq]|] eqn:Hi; try done.
    destruct (client_code p && bool_decide (0 < other_work w)%nat) eqn:Hb; [|done].
    apply andb_true_iff in Hb as [Hc Hr%bool_decide_eq_true]. injection Hp as <-.
    rewrite <- (take_drop_middle ts i _ Hi) at 1. apply step_client; [done|].
    rewrite take_drop_middle by done. by constructor.
Qed.

Lemma loop_plays_steps `{Platform} ms : forall c c', plays ms c = Some c' -> rtc loop_step c c'.
Proof.
  induction ms as [|m ms IH]; intros c c' Heq; simpl in Heq; [by injection Heq as ->|].
  destruct (play m c) as [c1|] eqn:Hp; [|done]. eapply rtc_l; [by eapply loop_play_step|by apply IH].
Qed.

Module QueueExample.
#[local] Instance machine : Platform := {| ndebug := false; alloc_ok := fun _ => true |}.

Definition threads0 : list thread := [outsider; worker; worker].

(** A thread outside creates a queue and pushes two tasks to it. *)
Definition push_moves : list move :=
  [Create 7; AskPush 0 7 100; Exec 0; Exec 0; Exec 0; Exec 0; AskPush 0 7 200; Exec 0].

(** A worker takes the queue and runs the first task. *)
Definition run_moves : list move := [Exec 1; Exec 1; Exec 1].

(** The workers run everything and go to sleep. *)
Definition finish_moves : list move :=
  replicate 13 (Exec 1) ++ [Exec 2; Exec 2; Exec 2; Exec 2; Exec 1; Exec 1].

(** The last reference and the last work are given up. *)
Definition stop_moves : list move :=
  [AskRelease 0 7; Exec 0; Exec 0; Exec 0; AskWorkLeave 0; Exec 0].

Definition after (ms : list move) : ntt_loop * list thread :=
  default (fresh_loop, threads0) (plays ms (fresh_loop, threads0)).

Lemma loop_after_reachable ms c :
  plays ms (fresh_loop, threads0) = Some c -> reachable c.1 c.2.
Proof.
  intros Heq. exists threads0. split; [by repeat (apply List.Forall_cons; [auto|])|].
  rewrite <- surjective_pairing. exact (loop_plays_steps ms _ _ Heq).
Qed.

Definition pushed_two : ntt_loop * list thread := after push_moves.
Definition running : ntt_loop * list thread := after (push_moves ++ run_moves).
Definition finished : ntt_loop * list thread := after (push_moves ++ run_moves ++ finish_moves).
Definition stopped : ntt_loop * list thread :=
  after (push_moves ++ run_moves ++ finish_moves ++ stop_moves).

Lemma pushed_two_reachable : reachable pushed_two.1 pushed_two.2.
Proof. apply (loop_after_reachable push_moves). by vm_compute. Qed.

Lemma running_reachable : reachable running.1 running.2.
Proof. apply (loop_after_reachable (push_moves ++ run_moves)). by vm_compute. Qed.

Lemma finished_reachable : reachable finished.1 finished.2.
Proof. apply (loop_after_reachable (push_moves ++ run_moves ++ finish_moves)). by vm_compute. Qed.

Lemma stopped_reachable : reachable stopped.1 stopped.2.
Proof.
  apply (loop_after_reachable (push_moves ++ run_moves ++ finish_moves ++ stop_moves)). by vm_compute.
Qed.
End QueueExample.

Module QueueWitnesses.
Import QueueExample.
#[local] Existing Instance machine.

(** The worker inside of the first task of the queue. *)
Definition server : thread := mk_thread None (SvcInside 7 100 0 Unlimited) (Some 7).

Lemma queue_no_fault_witness : server ∈ running.2 /\ exists t' w', exec server running.1 = Ok (t', w').
Proof.
  assert (Hin : server ∈ running.2) by (apply (list_elem_of_lookup_2 _ 1); by vm_compute).
  split; [exact Hin|]. exact (queue_no_fault running.1 running.2 server running_reachable Hin).
Defined.

Lemma queue_serial_witness : total (inside 7) running.2 = 1%nat /\ (total (inside 7) running.2 <= 1)%nat.
Proof.
  split; [by vm_compute|]. exact (proj1 (queue_serial running.1 running.2 7 running_reachable)).
Defined.

Lemma queue_fifo_witness :
  pushed 7 (log running.1) = [100; 200] /\
  exists waiting, pushed 7 (log running.1) = runs_of 7 (log running.1) ++ waiting.
Proof.
  split; [by vm_compute|].
  destruct (queue_fifo running.1 running.2 7 running_reachable) as (l & Hl & _). by exists l.
Defined.

Lemma queue_never_stranded_witness :
  combine pushed_two.1 = [7] /\ (total (token 7) pushed_two.2 + count_in 7 (combine pushed_two.1) = 1)%nat.
Proof.
  split; [by vm_compute|].
  exact (queue_never_stranded pushed_two.1 pushed_two.2 7 (mk_queue [100; 200] 2 1) pushed_two_reachable
    ltac:(by vm_compute)).
Defined.

Lemma loop_no_lost_wakeup_witness :
  0 < eventfd pushed_two.1 \/ exists t, t ∈ pushed_two.2 /\ ((0 < up t)%nat \/ (0 < waking t)%nat).
Proof.
  apply (loop_no_lost_wakeup pushed_two.1 pushed_two.2 pushed_two_reachable). by vm_compute.
Defined.

Lemma queue_refs_exact_witness :
  exists x, queues running.1 !! 7 = Some x /\ external_refs x = 2 /\
    external_refs x = Z.of_nat (client_refs x + total (hold 7) running.2 + count_in 7 (combine running.1)).
Proof.
  exists (mk_queue [100; 200] 2 1). split; [by vm_compute|]. split; [done|].
  exact (queue_refs_exact running.1 running.2 7 running_reachable).
Defined.

Lemma loop_stops_idle_witness :
  Stop ∈ log stopped.1 /\ queues stopped.1 = ∅ /\ combine stopped.1 = [].
Proof.
  assert (Hs : Stop ∈ log stopped.1) by (apply (list_elem_of_lookup_2 _ 7); by vm_compute).
  split; [exact Hs|].
  destruct (loop_stops_idle stopped.1 stopped.2 stopped_reachable Hs) as (Hq & Hc & _ & _). by split.
Defined.

Lemma loop_comes_to_rest_witness :
  (forall t, t ∈ finished.2 -> resting finished.1 t) /\
  runs_of 7 (log finished.1) = pushed 7 (log finished.1).
Proof.
  assert (Hr : Forall (resting finished.1) finished.2).
  { apply (bool_decide_eq_true_1 (Forall (resting finished.1) finished.2)). by vm_compute. }
  rewrite Forall_forall in Hr. split; [exact Hr|].
  destruct (loop_comes_to_rest finished.1 finished.2 0 finished.1 finished.2 finished_reachable)
    as (_ & _ & Hend); [constructor|].
  apply (Hend Hr).
  exists (mk_thread None Wait None). split; [apply (list_elem_of_lookup_2 _ 1); by vm_compute|done].
Defined.
End QueueWitnesses.
