(* ===== verification/Executor.v ===== *)
(** * A serial executor: what the queues of a loop promise

    The specification of [include/ntt/queue.h] without threads, references,
    locks and wake-ups: a queue is the tasks that wait in it, the task that runs,
    and the tasks that have run and still have to be dropped.  What can be
    observed is what [Queue] logs. *)

From stdpp Require Import base numbers list gmap.
From Stdlib Require Import ZArith Lia.
From S2P Require Import Prelude.
From S2P Require Import Queue.
From S2P Require Import QueueInv.

#[local] Open Scope Z_scope.

Record serial : Type := mk_serial {
  waiting : list ptr;
  current : option ptr;
  undropped : list ptr;
}.

Record executor : Type := mk_executor {
  serials : gmap Z serial;
  stopped : bool;
}.

Definition put (q : Z) (s : serial) (a : executor) : executor :=
  mk_executor (<[q := s]> (serials a)) (stopped a).

(** Steps, with what is observed of them.  A task may be dropped while the
    next one runs already; a queue goes when nothing of it is left; the executor
    stops when no queue is left, and for good. *)
Inductive executes : executor -> option entry -> executor -> Prop :=
  | ex_create a q :
      serials a !! q = None -> stopped a = false -> executes a None (put q (mk_serial [] None []) a)
  | ex_push a q l c us task :
      serials a !! q = Some (mk_serial l c us) ->
      executes a (Some (Pushed q task)) (put q (mk_serial (l ++ [task]) c us) a)
  | ex_run a q task l us :
      serials a !! q = Some (mk_serial (task :: l) None us) ->
      executes a (Some (Run q task)) (put q (mk_serial l (Some task) us) a)
  | ex_return a q l task us :
      serials a !! q = Some (mk_serial l (Some task) us) ->
      executes a None (put q (mk_serial l None (task :: us)) a)
  | ex_drop a q l c us task us' :
      serials a !! q = Some (mk_serial l c us) -> us ≡ₚ task :: us' ->
      executes a (Some (Drop q task)) (put q (mk_serial l c us') a)
  | ex_give a q :
      serials a !! q = Some (mk_serial [] None []) ->
      executes a (Some (Given q)) (mk_executor (delete q (serials a)) (stopped a))
  | ex_stop a :
      serials a = ∅ -> stopped a = false -> executes a (Some Stop) (mk_executor ∅ true).

(** What is observed from the start, and where it leads. *)
Inductive behaves : list entry -> executor -> Prop :=
  | behaves_start : behaves [] (mk_executor ∅ false)
  | behaves_step l a e a' : behaves l a -> executes a e a' -> behaves (l ++ option_list e) a'.

(** ** What follows from the specification *)
Definition drops_of (q : Z) (l : list entry) : list ptr :=
  omap (fun x => match x with Drop q' t => if decide (q' = q) then Some t else None | _ => None end) l.

Lemma drops_of_app q l l' : drops_of q (l ++ l') = drops_of q l ++ drops_of q l'.
Proof. apply omap_app. Qed.

(** Where the tasks of a queue are. *)
Definition accounted (q : Z) (l : list entry) (os : option serial) : Prop :=
  match os with
  | Some s => pushed q l = runs_of q l ++ waiting s /\
      runs_of q l ≡ₚ drops_of q l ++ option_list (current s) ++ undropped s
  | None => pushed q l = runs_of q l /\ runs_of q l ≡ₚ drops_of q l
  end.

Lemma accounted_silent q l e os :
  pushed q (option_list e) = [] -> runs_of q (option_list e) = [] -> drops_of q (option_list e) = [] ->
  accounted q l os -> accounted q (l ++ option_list e) os.
Proof.
  intros Hp Hr Hd. unfold accounted. rewrite pushed_app, runs_of_app, drops_of_app, Hp, Hr, Hd, !app_nil_r.
  done.
Qed.

Lemma executes_accounted l a e a' q :
  executes a e a' -> (forall q, accounted q l (serials a !! q)) -> accounted q (l ++ option_list e) (serials a' !! q).
Proof.
  intros Hex Hall. specialize (Hall q).
  destruct Hex as [a q' Hn|a q' ls c us task Hs|a q' task ls us Hs|a q' ls task us Hs|a q' ls c us task us' Hs Hus
    |a q' Hs|a He]; cbn [serials put];
    try (destruct (decide (q' = q)) as [->|Hne];
         [rewrite ?lookup_insert_eq, ?lookup_delete_eq; try rewrite Hs in Hall; try rewrite Hn in Hall
         |rewrite ?lookup_insert_ne, ?lookup_delete_ne by done;
          apply accounted_silent; simpl; rewrite ?decide_False by done; done]).
  - unfold accounted in *. simpl. rewrite !app_nil_r. done.
  - unfold accounted in *. rewrite pushed_app, runs_of_app, drops_of_app. simpl in *.
    rewrite decide_True, !app_nil_r by done. destruct Hall as [Hp Hr]. by rewrite Hp, app_assoc.
  - unfold accounted in *. rewrite pushed_app, runs_of_app, drops_of_app. simpl in *.
    rewrite decide_True, !app_nil_r by done. destruct Hall as [Hp Hr]. rewrite Hp, <- app_assoc. split; [done|].
    rewrite Hr. rewrite <- app_assoc. apply Permutation_app_head. by rewrite Permutation_app_comm.
  - simpl. rewrite app_nil_r. exact Hall.
  - unfold accounted in *. rewrite pushed_app, runs_of_app, drops_of_app. simpl in *.
    rewrite decide_True, !app_nil_r by done. destruct Hall as [Hp Hr]. split; [done|]. rewrite Hr, Hus.
    rewrite <- app_assoc. apply Permutation_app_head. simpl. symmetry. apply Permutation_middle.
  - unfold accounted in *. rewrite pushed_app, runs_of_app, drops_of_app. simpl in *. rewrite !app_nil_r in *. done.
  - rewrite lookup_empty. rewrite He, lookup_empty in Hall. by apply (accounted_silent q l (Some Stop)).
Qed.

Lemma behaves_accounted l a q : behaves l a -> accounted q l (serials a !! q).
Proof.
  intros Hb. revert q. induction Hb as [|l a e a' _ IH Hex]; intros q; [done|].
  by apply executes_accounted with a.
Qed.

(** What was observed up to some point is a behaviour too. *)
Lemma behaves_prefix l a k : behaves l a -> k `prefix_of` l -> exists b, behaves k b.
Proof.
  intros Hb. revert k. induction Hb as [|l a e a' Hb IH Hex]; intros k Hk.
  - apply prefix_nil_inv in Hk as ->. eexists. constructor.
  - destruct Hk as [r Hr]. destruct r as [|y r _] using rev_ind.
    { rewrite app_nil_r in Hr. subst k. eexists. by econstructor. }
    apply IH. destruct e as [x|]; simpl in *; [|rewrite app_nil_r in Hr; by eexists].
    rewrite app_assoc in Hr. apply app_inj_tail in Hr as [-> _]. by exists r.
Qed.

(** Nothing is observed after the stop. *)
Lemma behaves_stop l a : behaves l a -> if stopped a then serials a = ∅ /\ exists k, l = k ++ [Stop] /\ Stop ∉ k else Stop ∉ l.
Proof.
  induction 1 as [|l a e a' Hb IH Hex]; [apply not_elem_of_nil|].
  destruct Hex as [a q Hn Hst|a q ls c us task Hs|a q task ls us Hs|a q ls task us Hs|a q ls c us task us' Hs Hus
    |a q Hs|a He Hst]; simpl in *; rewrite ?app_nil_r;
    try (destruct (stopped a); [destruct IH as [He _]; by rewrite He in Hs|]); try done;
    try (rewrite elem_of_app, list_elem_of_singleton; by intros [|]).
  - by rewrite Hst in *.
  - rewrite Hst in IH. eauto.
Qed.
