(* ===== verification/QueueRefine.v ===== *)
(** * Serial queues: the loop implements the executor

    Every step of [Queue] is a step of [Executor] or is not seen by it. *)

From stdpp Require Import base numbers list gmap relations.
From Stdlib Require Import ZArith Lia.
From S2P Require Import Prelude.
From S2P Require Import Queue.
From S2P Require Import QueueInv.
From S2P Require Import QueueSteps.
From S2P Require Import QueueProps.
From S2P Require Import Executor.

#[local] Open Scope Z_scope.

(** ** The relation *)

(** The task a thread is about to drop. *)
Definition to_drop (q : Z) (t : thread) : option ptr :=
  match at_point t with
  | SvcDrop q' task _ _ _ => if decide (q' = q) then Some task else None
  | _ => None
  end.

Definition dropping (q : Z) (ts : list thread) : list ptr := omap (to_drop q) ts.

Lemma dropping_cons q t ts : dropping q (t :: ts) = option_list (to_drop q t) ++ dropping q ts.
Proof. unfold dropping. simpl. by destruct (to_drop q t). Qed.

(** A queue with the tasks [l], of which [n] have started, against a serial. *)
Definition serial_ok (l : list ptr) (n : nat) (ds : list ptr) (s : serial) : Prop :=
  l = option_list (current s) ++ waiting s /\ length (option_list (current s)) = n /\ undropped s ≡ₚ ds.

Definition sim_queue (w : ntt_loop) (ts : list thread) (a : executor) (q : Z) : Prop :=
  match queues w !! q, serials a !! q with
  | Some x, Some s => serial_ok (task_list x) (total (started q) ts) (dropping q ts) s
  | None, None => True
  | _, _ => False
  end.

Record sim (w : ntt_loop) (ts : list thread) (a : executor) : Prop := {
  sim_queues : forall q, sim_queue w ts a q;
  sim_stop : stopped a = true <-> Stop ∈ log w;
}.

(** A step is one of the executor, or is not seen. *)
Definition simulated (w : ntt_loop) (a : executor) (w' : ntt_loop) (ts' : list thread) : Prop :=
  exists e a', (executes a e a' \/ e = None /\ a' = a) /\ log w' = log w ++ option_list e /\ sim w' ts' a'.

Lemma sim_perm w ts ts' a : ts ≡ₚ ts' -> sim w ts a -> sim w ts' a.
Proof.
  intros Hp [Hq Hs]. split; [|done]. intros q. specialize (Hq q). unfold sim_queue, serial_ok, dropping in *.
  destruct (queues w !! q), (serials a !! q); try done. rewrite <- (total_perm _ _ _ Hp). by rewrite <- Hp.
Qed.

Lemma simulated_perm w a w' ts ts' : ts ≡ₚ ts' -> simulated w a w' ts -> simulated w a w' ts'.
Proof. intros Hp (e & a' & Hex & Hl & Hs). exists e, a'. split_and!; try done. by eapply sim_perm. Qed.

(** ** Steps that are not seen *)

(** A thread and a queue that look the same to the executor. *)
Definition unseen (q : Z) (w w' : ntt_loop) (t t' : thread) : Prop :=
  task_list <$> queues w' !! q = task_list <$> queues w !! q /\
  started q t' = started q t /\ to_drop q t' = to_drop q t.

Lemma unseen_queue q w w' t t' rest a a' :
  unseen q w w' t t' -> serials a' !! q = serials a !! q ->
  sim_queue w (t :: rest) a q -> sim_queue w' (t' :: rest) a' q.
Proof.
  intros (Hl & Hst & Hd) Ha. unfold sim_queue. rewrite Ha, !total_cons, Hst. unfold dropping. simpl. rewrite Hd.
  destruct (queues w !! q), (queues w' !! q); simpl in Hl; try done. injection Hl as ->. done.
Qed.

Lemma quiet w w' t t' rest a :
  sim w (t :: rest) a -> log w' = log w -> (forall q, unseen q w w' t t') -> simulated w a w' (t' :: rest).
Proof.
  intros [Hq Hs] Hl Hu. exists None, a. simpl. rewrite app_nil_r. split_and!; [by right|done|].
  split; [|by rewrite Hl]. intros q. by eapply unseen_queue.
Qed.

(** ** Steps of one queue *)
Lemma seen q w w' t t' rest a e s s' :
  sim w (t :: rest) a -> serials a !! q = Some s -> executes a e (put q s' a) -> log w' = log w ++ option_list e ->
  (forall q', q' <> q -> unseen q' w w' t t') -> Stop ∉ option_list e ->
  (exists x, queues w' !! q = Some x /\
    serial_ok (task_list x) (total (started q) (t' :: rest)) (dropping q (t' :: rest)) s') ->
  simulated w a w' (t' :: rest).
Proof.
  intros [Hq Hs] Ha Hex Hl Hu Hst (x & Hx & Hok). exists e, (put q s' a). split_and!; [by left|done|]. split.
  - intros q'. destruct (decide (q' = q)) as [->|Hne].
    + unfold sim_queue. simpl. by rewrite Hx, lookup_insert_eq.
    + eapply unseen_queue; [by apply Hu|simpl; by rewrite lookup_insert_ne|done].
  - rewrite Hl, elem_of_app. simpl. tauto.
Qed.

Lemma sim_at w ts a q x :
  sim w ts a -> queues w !! q = Some x ->
  exists l c us, serials a !! q = Some (mk_serial l c us) /\
    task_list x = option_list c ++ l /\ length (option_list c) = total (started q) ts /\ us ≡ₚ dropping q ts.
Proof.
  intros [Hq _] Hx. specialize (Hq q). unfold sim_queue in Hq. rewrite Hx in Hq.
  destruct (serials a !! q) as [[l c us]|]; [|done]. destruct Hq as (? & ? & ?). eauto 10.
Qed.

(** A change of references only. *)
Lemma refs_unseen w q x x' :
  queues w !! q = Some x -> task_list x' = task_list x ->
  forall q', task_list <$> (<[q := x']> (queues w)) !! q' = task_list <$> queues w !! q'.
Proof.
  intros Hx Hl q'. destruct (decide (q' = q)) as [->|Hne].
  - rewrite lookup_insert_eq, Hx. simpl. by rewrite Hl.
  - by rewrite lookup_insert_ne.
Qed.

Section refine.
Context `{Platform}.

Lemma quiet_call w w' c c' p tq rest a :
  sim w (mk_thread (Some c) p tq :: rest) a -> log w' = log w ->
  (forall q, task_list <$> queues w' !! q = task_list <$> queues w !! q) ->
  simulated w a w' (mk_thread c' p tq :: rest).
Proof. intros Hs Hl Hq. eapply quiet; [done|done|]. intros q. by split. Qed.

Lemma finish_unseen w q own c w' :
  finish w q own = Ok (c, w') ->
  log w' = log w /\ forall q', task_list <$> queues w' !! q' = task_list <$> queues w !! q'.
Proof.
  unfold finish, get_queue. destruct own; [|by intros [= <- <-]].
  destruct (queues w !! q) as [x|] eqn:Hx; [|done]. rewrite bind_ok. intros [= <- <-].
  split; [done|]. simpl. by eapply refs_unseen.
Qed.

Lemma push_simulated w q task own p tq rest c' w' a :
  sim w (mk_thread (Some (PushTask q task own)) p tq :: rest) a ->
  ntt_queue_push_task w q task own = Ok (c', w') -> simulated w a w' (mk_thread c' p tq :: rest).
Proof.
  intros Hs. unfold ntt_queue_push_task, get_queue. destruct (queues w !! q) as [x|] eqn:Hx; [|done].
  rewrite bind_ok. intros (_ & _ & Heq)%bind_inv_ok.
  set (w1 := emit (Pushed q task) (set_queue q (set_tasks (task_list x ++ [task]) x) w)) in *.
  assert (Hw : log w' = log w1 /\ forall q', task_list <$> queues w' !! q' = task_list <$> queues w1 !! q').
  { destruct (ntt_queue_empty x); [by injection Heq as <- <-|by eapply finish_unseen]. }
  destruct Hw as [Hlog Hqs].
  destruct (sim_at _ _ _ _ _ Hs Hx) as (l & c & us & Ha & Hl & Hn & Hus).
  eapply (seen q _ _ _ _ _ _ (Some (Pushed q task)) _ (mk_serial (l ++ [task]) c us)); [done|exact Ha| |done| | |].
  - by constructor.
  - intros q' Hne. split; [|done]. rewrite Hqs. simpl. by rewrite lookup_insert_ne.
  - simpl. rewrite list_elem_of_singleton. done.
  - specialize (Hqs q). simpl in Hqs. rewrite lookup_insert_eq in Hqs. simpl in Hqs.
    apply fmap_Some in Hqs as (x' & Hx' & Hl'). exists x'. split; [done|]. rewrite <- Hl', Hl. simpl.
    split_and!; simpl; [by rewrite <- app_assoc|done|done].
Qed.

Lemma total_zero_dropping q ts : total (hold q) ts = 0%nat -> dropping q ts = [].
Proof.
  intros Hz%total_zero. induction Hz as [|t ts Ht _ IH]; [done|]. rewrite dropping_cons, IH, app_nil_r.
  destruct t as [c p tq]. unfold hold in Ht. unfold to_drop. simpl in *.
  destruct p; try done. case_decide; [subst|done]. simpl in Ht. rewrite one_same in Ht. lia.
Qed.

Lemma destroy_simulated w q p tq rest c' w' a :
  loop_inv w (mk_thread (Some (Destroy q)) p tq :: rest) ->
  sim w (mk_thread (Some (Destroy q)) p tq :: rest) a ->
  ntt_queue_deinit w q = Ok (c', w') -> simulated w a w' (mk_thread c' p tq :: rest).
Proof.
  intros Hinv Hs. destruct (deinit_facts _ _ _ _ _ Hinv) as (x & Hx & Hz & Hl & Hc & Hh & Hk & Hd).
  unfold ntt_queue_deinit, get_queue. rewrite Hx, bind_ok.
  intros (_ & _ & (_ & _ & (_ & _ & [= <- <-])%bind_inv_ok)%bind_inv_ok)%bind_inv_ok.
  destruct (sim_at _ _ _ _ _ Hs Hx) as (l & c & us & Ha & Htl & Hn & Hus).
  rewrite Hl in Htl. symmetry in Htl. apply app_nil in Htl as [Hc0 ->]. destruct c; [done|].
  rewrite total_zero_dropping in Hus by done. apply Permutation_nil_r in Hus as ->.
  exists (Some (Given q)), (mk_executor (delete q (serials a)) (stopped a)).
  split_and!; [left; by constructor|done|]. destruct Hs as [Hq Hst]. split.
  - intros q'. destruct (decide (q' = q)) as [->|Hne].
    + unfold sim_queue. simpl. by rewrite !lookup_delete_eq.
    + eapply unseen_queue; [|simpl; by rewrite lookup_delete_ne|apply Hq].
      split; [|done]. simpl. by rewrite lookup_delete_ne.
  - simpl. rewrite elem_of_app, list_elem_of_singleton, Hst. intuition congruence.
Qed.

Lemma work_leave_simulated w p tq rest c' w' a :
  loop_inv w (mk_thread (Some WorkLeave) p tq :: rest) -> sim w (mk_thread (Some WorkLeave) p tq :: rest) a ->
  ntt_loop_work_leave w = Ok (c', w') -> simulated w a w' (mk_thread c' p tq :: rest).
Proof.
  intros Hinv Hs Heq. pose proof (work_leave_inv _ _ _ _ _ _ Hinv Heq) as Hinv'.
  assert (Hpos : 0 < work_cnt w).
  { rewrite (i_work _ _ Hinv), total_cons. simpl. lia. }
  unfold ntt_loop_work_leave in Heq. apply bind_inv_ok in Heq as (_ & _ & [= <- <-]).
  destruct (negb _); [by eapply quiet_call|].
  assert (Hin : Stop ∈ log (emit Stop (with_work (work_cnt w - 1) (other_work w) w)))
    by (simpl; rewrite elem_of_app, list_elem_of_singleton; by right).
  pose proof (stopped_idle _ _ Hinv' Hin) as (He & _). simpl in He. destruct Hs as [Hq Hst].
  assert (Hserials : serials a = ∅).
  { apply map_empty. intros q. specialize (Hq q). unfold sim_queue in Hq. rewrite He, lookup_empty in Hq.
    by destruct (serials a !! q). }
  exists (Some Stop), (mk_executor ∅ true). split_and!; [left; constructor; [done|]|done|].
  - destruct (stopped a); [|done]. pose proof (i_stop _ _ Hinv (proj1 Hst eq_refl)). lia.
  - split; [|done]. intros q. unfold sim_queue. simpl. by rewrite He, !lookup_empty.
Qed.

Lemma run_simulated w q task cnt m tq rest a :
  loop_inv w (mk_thread None (SvcRun q task cnt m) tq :: rest) ->
  sim w (mk_thread None (SvcRun q task cnt m) tq :: rest) a ->
  simulated w a (emit (Run q task) w) (mk_thread None (SvcInside q task cnt m) tq :: rest).
Proof.
  intros Hinv Hs. destruct (served_first _ _ q task cnt m _ _ Hinv) as (x & l & Hx & Hl & _ & _ & Hst); [by left|].
  destruct (sim_at _ _ _ _ _ Hs Hx) as (l' & c & us & Ha & Htl & Hn & Hus).
  rewrite total_cons, Hst in Hn. simpl in Hn. destruct c; [done|]. simpl in Htl. rewrite Hl in Htl. subst l'.
  eapply (seen q _ _ _ _ _ _ (Some (Run q task)) _ (mk_serial l (Some task) us)); [done|exact Ha| |done| | |].
  - by constructor.
  - intros q' Hne. split; [done|]. simpl. by rewrite one_ne.
  - simpl. by rewrite list_elem_of_singleton.
  - exists x. split; [done|]. rewrite Hl, total_cons, Hst. simpl. rewrite one_same. by split_and!.
Qed.

Lemma next_simulated w q task cnt m tq rest next w' a :
  loop_inv w (mk_thread None (SvcNext q task cnt m) tq :: rest) ->
  sim w (mk_thread None (SvcNext q task cnt m) tq :: rest) a ->
  ntt_queue_next w q = Ok (next, w') ->
  simulated w a w' (mk_thread None (SvcDrop q task next cnt m) tq :: rest).
Proof.
  intros Hinv Hs. destruct (served_first _ _ q task cnt m _ _ Hinv) as (x & l & Hx & Hl & _ & _ & Hst); [tauto|].
  unfold ntt_queue_next, get_queue. rewrite Hx, bind_ok, Hl.
  intros (_ & _ & (_ & _ & [= <- <-])%bind_inv_ok)%bind_inv_ok.
  destruct (sim_at _ _ _ _ _ Hs Hx) as (l' & c & us & Ha & Htl & Hn & Hus).
  rewrite total_cons, Hst in Hn. simpl in Hn. rewrite one_same in Hn. destruct c as [task'|]; [|done].
  simpl in Htl. rewrite Hl in Htl. injection Htl as <- <-.
  eapply (seen q _ _ _ _ _ _ None _ (mk_serial l None (task :: us))); [done|exact Ha| | | | |].
  - by constructor.
  - simpl. by rewrite app_nil_r.
  - intros q' Hne. split; [simpl; by rewrite lookup_insert_ne|]. unfold to_drop. simpl.
    rewrite one_ne, decide_False by done. done.
  - apply not_elem_of_nil.
  - exists (set_tasks l x). split; [simpl; apply lookup_insert_eq|]. rewrite total_cons, Hst, dropping_cons.
    unfold to_drop at 1. simpl. rewrite decide_True by done. simpl. split_and!; try done.
    simpl. rewrite Hus, dropping_cons. done.
Qed.

Lemma drop_simulated w q task next cnt m tq rest a :
  loop_inv w (mk_thread None (SvcDrop q task next cnt m) tq :: rest) ->
  sim w (mk_thread None (SvcDrop q task next cnt m) tq :: rest) a ->
  simulated w a (emit (Drop q task) w) (mk_thread None (SvcDropping q next cnt m) tq :: rest).
Proof.
  intros Hinv Hs. destruct (in_use _ _ q Hinv) as [x Hx].
  { left. rewrite total_cons. simpl. rewrite one_same. lia. }
  destruct (sim_at _ _ _ _ _ Hs Hx) as (l & c & us & Ha & Htl & Hn & Hus).
  rewrite dropping_cons in Hus. unfold to_drop in Hus at 1. simpl in Hus. rewrite decide_True in Hus by done.
  eapply (seen q _ _ _ _ _ _ (Some (Drop q task)) _ (mk_serial l c (dropping q rest))); [done|exact Ha| |done| | |].
  - by eapply ex_drop.
  - intros q' Hne. split; [done|]. unfold to_drop. simpl. by rewrite decide_False.
  - simpl. by rewrite list_elem_of_singleton.
  - exists x. split; [done|]. rewrite Htl. split_and!; try done.
Qed.

(** ** All steps *)
Lemma call_simulated w c p tq rest c' w' a :
  loop_inv w (mk_thread (Some c) p tq :: rest) -> sim w (mk_thread (Some c) p tq :: rest) a ->
  exec_call c (in_loop p) w = Ok (c', w') -> simulated w a w' (mk_thread c' p tq :: rest).
Proof.
  intros Hinv Hs.
  destruct c as [q task own|q own|q own|q own|q own|q|q|]; simpl;
    eauto using push_simulated, destroy_simulated, work_leave_simulated.
  - unfold push_acquire, get_queue. destruct (queues w !! q) eqn:Hx; [|done]. rewrite bind_ok.
    intros (_ & _ & [= <- <-])%bind_inv_ok. eapply quiet_call; [done|done|]. by eapply refs_unseen.
  - unfold ntt_combine_push, get_queue. destruct (queues w !! q) eqn:Hx; [|done]. rewrite bind_ok.
    intros (_ & _ & (_ & _ & Heq)%bind_inv_ok)%bind_inv_ok.
    destruct (bool_decide _); [injection Heq as <- <-; by eapply quiet_call|].
    apply finish_unseen in Heq as [Hl Hq]. by eapply quiet_call.
  - intros [Hl Hq]%finish_unseen.
    assert (Hw : log (ntt_loop_combine_wakeup w (in_loop p)) = log w /\
      queues (ntt_loop_combine_wakeup w (in_loop p)) = queues w)
      by (unfold ntt_loop_combine_wakeup, eventfd_write; by destruct (in_loop p), (eventfd w <? _)).
    destruct Hw as [Hl' Hq']. eapply quiet_call; [done|congruence|]. intros q'. rewrite Hq. by rewrite Hq'.
  - unfold ntt_queue_acquire, get_queue. destruct (queues w !! q) eqn:Hx; [|done]. rewrite bind_ok.
    intros (_ & _ & [= <- <-])%bind_inv_ok. eapply quiet_call; [done|done|]. by eapply refs_unseen.
  - unfold ntt_queue_release, get_queue. destruct (queues w !! q) eqn:Hx; [|done]. rewrite bind_ok.
    intros [= <- <-]. eapply quiet_call; [done|done|]. by eapply refs_unseen.
Qed.

Lemma point_simulated w p tq rest t' w' a :
  loop_inv w (mk_thread None p tq :: rest) -> sim w (mk_thread None p tq :: rest) a ->
  exec_point p tq w = Ok (t', w') -> simulated w a w' (t' :: rest).
Proof.
  intros Hinv Hs.
  destruct p as [|m|q m|q task cnt m|q task cnt m|q task cnt m|q task next cnt m|q next cnt m|q cnt m| | |];
    simpl; intros Heq.
  - injection Heq as <- <-. by eapply quiet.
  - destruct m as [|cnt l1 l2]; unfold combine_svc_turn, ntt_combine_try_take in Heq;
      repeat case_match; simplify_eq; by eapply quiet.
  - apply bind_inv_ok in Heq as (t & Ht & [= <- <-]). unfold svc_enter, get_queue in Ht.
    destruct (queues w !! q) as [x|]; [rewrite bind_ok in Ht|done].
    do 4 apply bind_inv_ok in Ht as (_ & _ & Ht). destruct (task_list x); [done|]. injection Ht as <-. by eapply quiet.
  - injection Heq as <- <-. by apply run_simulated.
  - injection Heq as <- <-. by eapply quiet.
  - apply bind_inv_ok in Heq as ([next w1] & Hn & [= <- <-]). by eapply next_simulated.
  - injection Heq as <- <-. by apply drop_simulated.
  - injection Heq as <- <-. eapply quiet; [done|done|]. intros q'. unfold unseen, to_drop, svc_turn. simpl.
    destruct m; repeat case_match; by simplify_eq.
  - apply bind_inv_ok in Heq as (t & Ht & [= <- <-]). unfold svc_leave in Ht.
    apply bind_inv_ok in Ht as (_ & _ & [= <-]). by eapply quiet.
  - injection Heq as <- <-. destruct (eventfd w >? 0); by eapply quiet.
  - injection Heq as <- <-. unfold ntt_combine_eventfd_ready. destruct (_ >? _); by eapply quiet.
  - injection Heq as <- <-. by eapply quiet.
Qed.

Lemma exec_simulated w t rest t' w' a :
  loop_inv w (t :: rest) -> sim w (t :: rest) a -> exec t w = Ok (t', w') -> simulated w a w' (t' :: rest).
Proof.
  destruct t as [[c|] p tq]; unfold exec; simpl; intros Hinv Hs Heq; [|by eapply point_simulated].
  apply bind_inv_ok in Heq as ([c' w1] & Hc & [= <- <-]). by eapply call_simulated.
Qed.

Lemma client_simulated ts w t rest w' t' a :
  sim w (t :: rest) a -> client ts w t w' t' -> simulated w a w' (t' :: rest).
Proof.
  intros Hs Hc. inversion Hc; subst; (eapply quiet; [done|done|]); intros q'; (split; [|done]); try done;
    simpl; by eapply refs_unseen.
Qed.

Lemma create_simulated w ts q w' a :
  loop_inv w ts -> sim w ts a -> queues w !! q = None -> 0 < work_cnt w -> ntt_queue_create_in w q = Ok w' ->
  simulated w a w' ts.
Proof.
  intros Hinv [Hq Hst] Hx Hpos. unfold ntt_queue_create_in, ntt_queue_init, ntt_loop_work_enter.
  intros (_ & _ & [= <-])%bind_inv_ok. simpl.
  pose proof (i_queues _ _ Hinv q) as Hinvq. unfold queue_inv, queue_ok in Hinvq. rewrite Hx in Hinvq.
  destruct Hinvq as (_ & Hh & _ & _ & Hs0 & _).
  pose proof (Hq q) as Hqq. unfold sim_queue in Hqq. rewrite Hx in Hqq.
  destruct (serials a !! q) eqn:Ha; [done|].
  exists None, (put q (mk_serial [] None []) a). simpl. rewrite app_nil_r. split_and!; [left; constructor; [done|]|done|].
  - destruct (stopped a); [|done]. pose proof (i_stop _ _ Hinv (proj1 Hst eq_refl)). lia.
  - split; [|done]. intros q'. specialize (Hq q'). unfold sim_queue in *. simpl.
    destruct (decide (q' = q)) as [->|Hne].
    + rewrite !lookup_insert_eq, Hs0, total_zero_dropping by done. by split_and!.
    + by rewrite !lookup_insert_ne by done.
Qed.

Lemma step_simulated w ts w' ts' a :
  loop_inv w ts -> sim w ts a -> loop_step (w, ts) (w', ts') -> simulated w a w' ts'.
Proof.
  intros Hinv Hs Hst.
  assert (Hmid : forall (l1 l2 : list thread) t, t :: l1 ++ l2 ≡ₚ l1 ++ t :: l2)
    by (intros; by rewrite Permutation_middle).
  inversion Hst; subst; try (eapply simulated_perm; [apply Hmid|]; eapply sim_perm in Hs; [|symmetry; apply Hmid]).
  - eapply exec_simulated; [|done|done]. by eapply loop_inv_perm; [symmetry; apply Hmid|].
  - by eapply client_simulated.
  - by eapply create_simulated.
  - match goal with Hw : ntt_loop_work_enter _ _ = _ |- _ =>
      unfold ntt_loop_work_enter in Hw; apply bind_inv_ok in Hw as (_ & _ & [= <-]) end.
    exists None, a. simpl. rewrite app_nil_r. split_and!; [by right|done|]. by destruct Hs.
  - by eapply quiet.
  - by eapply quiet.
Qed.

Lemma fresh_sim ts : sim fresh_loop ts (mk_executor ∅ false).
Proof.
  split; [|simpl; split; [done|by intros ?%not_elem_of_nil]]. intros q. unfold sim_queue. simpl.
  by rewrite !lookup_empty.
Qed.

Lemma reachable_sim w ts : reachable w ts -> exists a, behaves (log w) a /\ sim w ts a.
Proof.
  intros (ts0 & Hts & Hs).
  assert (Hgen : forall c d : ntt_loop * list thread, rtc loop_step c d -> loop_inv c.1 c.2 ->
    forall a, behaves (log c.1) a -> sim c.1 c.2 a -> exists b, behaves (log d.1) b /\ sim d.1 d.2 b).
  { clear. induction 1 as [|[w ts] [w' ts'] d Hst _ IH]; simpl in *; [eauto|]. intros Hinv a Hb Hsim.
    destruct (step_simulated _ _ _ _ _ Hinv Hsim Hst) as (e & a' & Hex & Hl & Hsim').
    eapply (IH (loop_step_inv _ _ _ _ Hinv Hst) a'); [|done]. rewrite Hl.
    destruct Hex as [Hex|[-> ->]]; [by econstructor|]. simpl. by rewrite app_nil_r. }
  apply (Hgen _ _ Hs (fresh_loop_inv ts0 Hts) (mk_executor ∅ false)); [constructor|apply fresh_sim].
Qed.

Lemma task_life w ts q l :
  reachable w ts -> l `prefix_of` log w ->
  runs_of q l `prefix_of` pushed q l /\ drops_of q l ⊆+ runs_of q l /\
  (queues w !! q = None -> drops_of q (log w) ≡ₚ pushed q (log w)).
Proof.
  intros (a & Hb & Hs)%reachable_sim Hl. destruct (behaves_prefix _ _ _ Hb Hl) as [b Hb'].
  pose proof (behaves_accounted _ _ q Hb') as Hacc. pose proof (behaves_accounted _ _ q Hb) as Hall.
  assert (Hpre : runs_of q l `prefix_of` pushed q l /\ drops_of q l ⊆+ runs_of q l).
  { destruct (serials b !! q) as [s|]; destruct Hacc as [-> Hr].
    - split; [by eexists|]. rewrite Hr. apply submseteq_inserts_r. done.
    - split; [done|]. by rewrite Hr. }
  destruct Hpre as [Hp Hd]. split_and!; [done|done|]. intros Hx.
  pose proof (sim_queues _ _ _ Hs q) as Hq. unfold sim_queue in Hq. rewrite Hx in Hq.
  destruct (serials a !! q); [done|]. destruct Hall as [-> Hr]. by symmetry.
Qed.

(** ** Claims *)

(** C8.  The queues of a loop refine the serial executor: whatever the threads
    do, what can be observed of the loop is a behaviour of the executor, and its
    queues hold the tasks the executor holds. *)
Theorem loop_refines_executor w ts :
  reachable w ts -> exists a, behaves (log w) a /\ sim w ts a.
Proof. apply reachable_sim. Qed.

(** C20.  The life of tasks: at any time, the tasks that a queue has run are the
    first of those pushed to it, and a task is dropped only after it has run, and
    once.  When the queue is gone every task pushed to it has been run and
    dropped, so that none is leaked. *)
Theorem queue_task_life w ts q l :
  reachable w ts -> l `prefix_of` log w ->
  runs_of q l `prefix_of` pushed q l /\ drops_of q l ⊆+ runs_of q l /\
  (queues w !! q = None -> drops_of q (log w) ≡ₚ pushed q (log w)).
Proof. apply task_life. Qed.

(** The workers are told to stop once, and nothing happens to a queue
    afterwards. *)
Theorem loop_stop_last w ts :
  reachable w ts -> Stop ∈ log w -> exists l, log w = l ++ [Stop] /\ (Stop ∉ l).
Proof.
  intros (a & Hb & Hs)%reachable_sim Hin. pose proof (behaves_stop _ _ Hb) as Hst.
  rewrite (proj2 (sim_stop _ _ _ Hs) Hin) in Hst. apply Hst.
Qed.
End refine.

(** ** Witnesses *)
Module ExecutorExample.
#[local] Existing Instance QueueExample.machine.

Lemma loop_refines_executor_witness :
  exists a, behaves (log QueueExample.running.1) a /\ is_Some (serials a !! 7).
Proof.
  destruct (loop_refines_executor _ _ QueueExample.running_reachable) as (a & Hb & [Hq _]).
  exists a. split; [exact Hb|]. specialize (Hq 7). unfold sim_queue in Hq.
  destruct (queues QueueExample.running.1 !! 7) eqn:Hx; [|by vm_compute in Hx]. by destruct (serials a !! 7).
Defined.

Lemma queue_task_life_witness :
  drops_of 7 (log QueueExample.stopped.1) ≡ₚ pushed 7 (log QueueExample.stopped.1) /\
  pushed 7 (log QueueExample.stopped.1) = [100; 200].
Proof.
  split; [|by vm_compute].
  apply (queue_task_life _ _ 7 [] QueueExample.stopped_reachable (prefix_nil _)). by vm_compute.
Defined.

Lemma loop_stop_last_witness : exists l, log QueueExample.stopped.1 = l ++ [Stop] /\ (Stop ∉ l).
Proof.
  apply (loop_stop_last _ _ QueueExample.stopped_reachable). apply (list_elem_of_lookup_2 _ 7). by vm_compute.
Defined.
End ExecutorExample.
