(* ===== verification/QueueLinks.v ===== *)
(** * Serial queues in memory: data and operations

    [Queue] keeps the tasks of a queue and the queues of the combine as
    sequences.  Here they are what they are in [src/queue.c] and [src/combine.c]:
    intrusive lists of [NodeList], linked through the tasks and the queues
    themselves, and every decision is taken from the links.  What does not look at
    a list - references, work, the eventfd - is that of [Queue], on a loop whose
    sequences are empty. *)

From stdpp Require Import base numbers list gmap.
From Stdlib Require Import ZArith Lia.
From S2P Require Import Prelude.
From S2P Require Import NodeList.
From S2P Require Import Queue.

#[local] Open Scope Z_scope.

(** Where the slab and the loop have put the nodes: the node of a queue, the
    sentinel of its task list, and the sentinel of the combine.  [node_queue] is
    [ntt_container_of(node, ntt_queue_t, node)], as the index of the queue. *)
Class QueueLayout : Type := {
  queue_node : Z -> ptr;
  queue_tasks : Z -> ptr;
  combine_list : ptr;
  node_queue : ptr -> Z;
}.

Class QueueLayoutLaws `{QueueLayout} : Prop := {
  node_queue_node : forall q, node_queue (queue_node q) = q;
  queue_tasks_inj : forall q q', queue_tasks q = queue_tasks q' -> q = q';
  nodes_apart : forall q q', queue_node q <> queue_tasks q';
  combine_apart : forall q, queue_node q <> combine_list /\ queue_tasks q <> combine_list;
  nodes_not_null : combine_list <> NULL /\ forall q, queue_node q <> NULL /\ queue_tasks q <> NULL;
}.

Record linked : Type := mk_linked {
  lk_loop : ntt_loop;
  lk_nodes : nodes;
}.

(** Storage for a node, with nothing in it yet. *)
Definition node_storage (p : ptr) (m : nodes) : nodes :=
  mk_nodes (<[p := mk_node None None]> (node_mem m)) (task_mem m).

Section ops.
Context `{Platform} `{QueueLayout}.
Implicit Types (S : linked) (q : Z).

(** The part of an operation that [Queue] has. *)
Definition lift {A} (r : res (A * ntt_loop)) (m : nodes) : res (A * linked) :=
  '(a, w) ← r; Ok (a, mk_linked w m).

(** ** Queues *)
Definition ntt_queue_unlinked (m : nodes) q : res bool := ntt_node_unlinked m (queue_node q).

Definition ntt_queue_empty (m : nodes) q : res bool := ntt_task_list_empty m (queue_tasks q).

Definition ntt_queue_front (m : nodes) q : res ptr :=
  empty ← ntt_queue_empty m q;
  c_assert (negb empty) ;;
  ntt_task_list_front m (queue_tasks q).

Definition ntt_queue_next S q : res (option ptr * linked) :=
  _ ← get_queue (lk_loop S) q;
  unlinked ← ntt_queue_unlinked (lk_nodes S) q;
  c_assert unlinked ;;
  empty ← ntt_queue_empty (lk_nodes S) q;
  c_assert (negb empty) ;;
  '(task, m) ← ntt_task_list_next (lk_nodes S) (queue_tasks q);
  Ok (if task =? NULL then None else Some task, mk_linked (lk_loop S) m).

Definition ntt_queue_push_task S q (task : ptr) (own : bool) : res (option call * linked) :=
  _ ← get_queue (lk_loop S) q;
  unlinked ← ntt_task_unlinked (lk_nodes S) task;
  c_assert unlinked ;;
  '(was_empty, m) ← ntt_task_list_push (lk_nodes S) (queue_tasks q) task;
  let w := emit (Pushed q task) (lk_loop S) in
  if was_empty : bool then Ok (Some (PushAcquire q own), mk_linked w m) else lift (finish w q own) m.

(** The storage of the queue is a slot of the slab. *)
Definition ntt_queue_init S q : res linked :=
  let m := node_storage (queue_node q) (node_storage (queue_tasks q) (lk_nodes S)) in
  m ← ntt_task_list_init m (queue_tasks q);
  m ← ntt_node_init m (queue_node q);
  w ← Queue.ntt_queue_init (lk_loop S) q;
  Ok (mk_linked w m).

Definition ntt_queue_create_in S q : res linked := ntt_queue_init S q.

(** The same three assertions as in [Queue], the last two read from links. *)
Definition ntt_queue_deinit S q : res (option call * linked) :=
  x ← get_queue (lk_loop S) q;
  c_assert (external_refs x =? 0) ;;
  empty ← ntt_queue_empty (lk_nodes S) q;
  c_assert empty ;;
  unlinked ← ntt_queue_unlinked (lk_nodes S) q;
  c_assert unlinked ;;
  Ok (Some WorkLeave,
      mk_linked (emit (Given q) (with_queues (delete q (queues (lk_loop S))) (lk_loop S))) (lk_nodes S)).

(** ** The combine *)
Definition ntt_combine_init (m : nodes) : res nodes := ntt_list_init (node_storage combine_list m) combine_list.

Definition ntt_combine_empty (m : nodes) : res bool := ntt_list_empty m combine_list.

Definition ntt_combine_deinit S : res unit :=
  empty ← ntt_combine_empty (lk_nodes S); c_assert empty.

Definition ntt_combine_push S q (own : bool) : res (option call * linked) :=
  _ ← get_queue (lk_loop S) q;
  empty ← ntt_queue_empty (lk_nodes S) q;
  c_assert (negb empty) ;;
  unlinked ← ntt_queue_unlinked (lk_nodes S) q;
  c_assert unlinked ;;
  '(was_empty, m) ← ntt_list_push_back (lk_nodes S) combine_list (queue_node q);
  if was_empty : bool then Ok (Some (CombineWakeup q own), mk_linked (lk_loop S) m)
  else lift (finish (lk_loop S) q own) m.

Definition ntt_combine_try_take S : res (option Z * linked) :=
  empty ← ntt_list_empty (lk_nodes S) combine_list;
  if negb empty then
    node ← ntt_list_front (lk_nodes S) combine_list;
    '(_, m) ← ntt_list_next (lk_nodes S) combine_list;
    Ok (Some (node_queue node), mk_linked (lk_loop S) m)
  else Ok (None, S).

Definition combine_svc_turn S (m : mode) : res (point * linked) :=
  match m with
  | Unlimited =>
      '(queue, S) ← ntt_combine_try_take S;
      Ok (match queue with None => Wait | Some q => SvcEnter q m end, S)
  | Limited cnt loop_limit _ =>
      if cnt <? loop_limit then
        '(queue, S) ← ntt_combine_try_take S;
        Ok (match queue with None => Outside | Some q => SvcEnter q m end, S)
      else Ok (Outside, S)
  end.

(** ** The threads *)

(** The start of [ntt_queue_svc] and [ntt_queue_svc_with_limit]. *)
Definition svc_enter S q (m : mode) (tq : option Z) : res thread :=
  _ ← get_queue (lk_loop S) q;
  c_assert (match m with Unlimited => true | Limited _ _ limit => limit >? 0 end) ;;
  empty ← ntt_queue_empty (lk_nodes S) q;
  c_assert (negb empty) ;;
  unlinked ← ntt_queue_unlinked (lk_nodes S) q;
  c_assert unlinked ;;
  c_assert (bool_decide (tq = None)) ;;
  task ← ntt_queue_front (lk_nodes S) q;
  Ok (mk_thread None (SvcRun q task 0 m) (Some q)).

Definition exec_call (c : call) (ts_loop : bool) S : res (option call * linked) :=
  match c with
  | PushTask q task own => ntt_queue_push_task S q task own
  | CombinePush q own => ntt_combine_push S q own
  | Destroy q => ntt_queue_deinit S q
  | _ => lift (Queue.exec_call c ts_loop (lk_loop S)) (lk_nodes S)
  end.

Definition exec_point (p : point) (tq : option Z) S : res (thread * linked) :=
  match p with
  | Top m => '(p, S) ← combine_svc_turn S m; Ok (mk_thread None p tq, S)
  | SvcEnter q m => t ← svc_enter S q m tq; Ok (t, S)
  | SvcNext q task cnt m =>
      '(next, S) ← ntt_queue_next S q;
      Ok (mk_thread None (SvcDrop q task next cnt m) tq, S)
  | _ => lift (Queue.exec_point p tq (lk_loop S)) (lk_nodes S)
  end.

Definition exec (t : thread) S : res (thread * linked) :=
  match in_call t with
  | Some c =>
      '(c, S) ← exec_call c (in_loop (at_point t)) S;
      Ok (mk_thread c (at_point t) (t_queue t), S)
  | None => exec_point (at_point t) (t_queue t) S
  end.

(** ** The code around the library *)

(** An address that the library does not use itself. *)
Definition plain (p : ptr) : Prop :=
  0 < p /\ p <> combine_list /\ forall q, p <> queue_node q /\ p <> queue_tasks q.

(** A task made by [ntt_task_create], in storage that no list uses: never used
    before, or used for a task that is not linked any more. *)
Definition new_task (task : ptr) (m : nodes) (ts : list thread) (m' : nodes) : Prop :=
  plain (task_node_of task) /\ total (pushing task) ts = 0%nat /\
  (node_mem m !! task_node_of task = None \/ ntt_node_next m (task_node_of task) = Ok NULL) /\
  ntt_node_init (node_storage (task_node_of task) m) (task_node_of task) = Ok m'.

Definition starts_push (t : thread) : bool :=
  match in_call t with Some (PushTask _ _ _) => true | _ => false end.

(** As in [Queue], where a push brings a new task. *)
Inductive linked_client (ts : list thread) : linked -> thread -> linked -> thread -> Prop :=
  | lclient_push w m p tq q x task m' :
      queues w !! q = Some x -> (0 < client_refs x)%nat -> new_task task m ts m' ->
      linked_client ts (mk_linked w m) (mk_thread None p tq)
        (mk_linked (lend q x w) m') (mk_thread (Some (PushTask q task true)) p tq)
  | lclient_push_self w m p q task m' :
      new_task task m ts m' ->
      linked_client ts (mk_linked w m) (mk_thread None p (Some q))
        (mk_linked w m') (mk_thread (Some (PushTask q task false)) p (Some q))
  | lclient_other w m t w' t' :
      client ts w t w' t' -> starts_push t' = false ->
      linked_client ts (mk_linked w m) t (mk_linked w' m) t'.

Inductive linked_step : linked * list thread -> linked * list thread -> Prop :=
  | lstep_exec S l1 t l2 S' t' :
      exec t S = Ok (t', S') -> linked_step (S, l1 ++ t :: l2) (S', l1 ++ t' :: l2)
  | lstep_client S l1 t l2 S' t' :
      client_code (at_point t) = true -> linked_client (l1 ++ t :: l2) S t S' t' ->
      linked_step (S, l1 ++ t :: l2) (S', l1 ++ t' :: l2)
  | lstep_create S ts q S' :
      queues (lk_loop S) !! q = None -> 0 < work_cnt (lk_loop S) -> ntt_queue_create_in S q = Ok S' ->
      linked_step (S, ts) (S', ts)
  | lstep_work w m ts w' :
      0 < work_cnt w -> ntt_loop_work_enter w (Datatypes.S (other_work w)) = Ok w' ->
      linked_step (mk_linked w m, ts) (mk_linked w' m, ts)
  | lstep_limits S l1 tq l2 loop_limit queue_limit :
      0 < loop_limit < 2 ^ 64 -> 0 < queue_limit < 2 ^ 64 ->
      linked_step (S, l1 ++ mk_thread None Outside tq :: l2)
        (S, l1 ++ mk_thread None (Top (Limited 0 loop_limit queue_limit)) tq :: l2)
  | lstep_notify S l1 tq l2 :
      linked_step (S, l1 ++ mk_thread None Wait tq :: l2) (S, l1 ++ mk_thread None Handler tq :: l2).
End ops.
