(* ===== verification/QueueLinksInv.v ===== *)
(** * Serial queues in memory: the relation to [Queue]

    The links of the nodes are the sequences of [Queue]: what the code reads from
    the links is what [Queue] decides on. *)

From stdpp Require Import base numbers list gmap relations.
From Stdlib Require Import ZArith Lia.
From S2P Require Import Prelude.
From S2P Require Import NodeList.
From S2P Require Import NodeListProps.
From S2P Require Import Queue.
From S2P Require Import QueueInv.
From S2P Require Import QueueSteps.
From S2P Require Import QueueProps.
From S2P Require Import Executor.
From S2P Require Import QueueRefine.
From S2P Require Import QueueLinks.

#[local] Open Scope Z_scope.

(** ** The relation *)

(** A loop without its sequences. *)
Definition erase (w : ntt_loop) : ntt_loop :=
  mk_loop (set_tasks [] <$> queues w) [] (eventfd w) (work_cnt w) (other_work w) (log w).

Section relation.
Context `{QueueLayout}.

Record links (m : nodes) (w : ntt_loop) (ts : list thread) : Prop := {
  ln_tasks : forall q x, queues w !! q = Some x -> holds_tasks m (queue_tasks q) (task_list x);
  ln_combine : represents m combine_list (queue_node <$> combine w);
  ln_node : forall q, is_Some (queues w !! q) -> q ∉ combine w -> ntt_node_next m (queue_node q) = Ok NULL;
  ln_plain : forall q x task, queues w !! q = Some x -> task ∈ task_list x -> plain (task_node_of task);
  ln_once : forall q q' x x' task, queues w !! q = Some x -> queues w !! q' = Some x' ->
    task ∈ task_list x -> task ∈ task_list x' -> q = q';
  ln_pushing : forall task, (0 < total (pushing task) ts)%nat ->
    plain (task_node_of task) /\ ntt_node_next m (task_node_of task) = Ok NULL;
}.

(** Only the tasks of the queues, the combine and the pushes matter. *)
Lemma links_same m w w' ts ts' :
  links m w ts -> (forall q, task_list <$> queues w' !! q = task_list <$> queues w !! q) ->
  combine w' = combine w -> (forall task, (total (pushing task) ts' <= total (pushing task) ts)%nat) ->
  links m w' ts'.
Proof.
  intros [Ht Hc Hn Hp Ho Hs] Hq Hcomb Hpush.
  assert (Hx : forall q x, queues w' !! q = Some x ->
    exists y, queues w !! q = Some y /\ task_list y = task_list x).
  { intros q x Hx. specialize (Hq q). rewrite Hx in Hq. symmetry in Hq. apply fmap_Some in Hq as (y & Hy & He).
    by exists y. }
  split.
  - intros q x (y & Hy & <-)%Hx. by apply Ht.
  - by rewrite Hcomb.
  - intros q [x (y & Hy & _)%Hx]. rewrite Hcomb. apply Hn. by exists y.
  - intros q x task (y & Hy & <-)%Hx. by eapply Hp.
  - intros q q' x x' task (y & Hy & <-)%Hx (y' & Hy' & <-)%Hx. by eapply Ho.
  - intros task Hpos. apply Hs. specialize (Hpush task). lia.
Qed.

Lemma links_perm m w ts ts' : ts ≡ₚ ts' -> links m w ts -> links m w ts'.
Proof.
  intros Hp Hl. eapply links_same; [exact Hl|done|done|]. intros task. by rewrite (total_perm _ _ _ Hp).
Qed.
End relation.

(** ** Lists that are not touched *)
Lemma represents_frame m m' self l :
  represents m self l -> (forall p, p ∈ self :: l -> same_links m m' p) -> represents m' self l.
Proof.
  intros (Hnd & Hnull & Hs) Hf. split_and!; [done|done|]. eapply seg_frame; [| |exact Hs].
  - intros x Hx. by apply Hf.
  - intros x [Hx| ->%list_elem_of_singleton]%elem_of_app; apply Hf; [by right|by left].
Qed.

#[global] Instance task_node_inj : Inj (=) (=) task_node_of.
Proof. intros t t'. unfold task_node_of. lia. Qed.

Lemma elem_of_task_nodes task (ts : list ptr) : task_node_of task ∈ task_node_of <$> ts <-> task ∈ ts.
Proof. apply (list_elem_of_fmap_inj task_node_of). Qed.

(** ** What a loop without sequences keeps *)
Lemma erase_get `{Platform} w q x :
  queues w !! q = Some x -> get_queue (erase w) q = Ok (set_tasks [] x).
Proof. intros Hx. unfold get_queue. simpl. by rewrite lookup_fmap, Hx. Qed.

Lemma erase_set w q x x' :
  queues w !! q = Some x -> external_refs x' = external_refs x -> client_refs x' = client_refs x ->
  erase (set_queue q x' w) = erase w.
Proof.
  intros Hx Hr Hc. unfold erase, set_queue. simpl. f_equal. rewrite fmap_insert. apply insert_id.
  rewrite lookup_fmap, Hx. simpl. unfold set_tasks. by rewrite Hr, Hc.
Qed.

Lemma erase_refs w q x r c :
  erase (set_queue q (set_refs r c x) w) = set_queue q (set_refs r c (set_tasks [] x)) (erase w).
Proof. unfold erase, set_queue. simpl. by rewrite fmap_insert. Qed.

Lemma erase_finish `{Platform} w q own c w' :
  finish w q own = Ok (c, w') -> finish (erase w) q own = Ok (c, erase w').
Proof.
  unfold finish. destruct own; [|by intros [= <- <-]].
  intros (x & Hx & [= <- <-])%bind_inv_ok. unfold get_queue in Hx.
  destruct (queues w !! q) as [y|] eqn:Hy; [|done]. injection Hx as ->.
  rewrite (erase_get _ _ _ Hy), bind_ok. by rewrite erase_refs.
Qed.

Lemma finish_combine `{Platform} w q own c w' : finish w q own = Ok (c, w') -> combine w' = combine w.
Proof.
  unfold finish. destruct own; [|by intros [= <- <-]]. by intros (x & _ & [= <- <-])%bind_inv_ok.
Qed.

(** Calls that do not look at a list. *)
Definition listless (c : call) : bool :=
  match c with PushTask _ _ _ | CombinePush _ _ | Destroy _ => false | _ => true end.

Lemma erase_call `{Platform} c b w c' w' :
  listless c = true -> Queue.exec_call c b w = Ok (c', w') ->
  Queue.exec_call c b (erase w) = Ok (c', erase w') /\ combine w' = combine w /\
  forall q, task_list <$> queues w' !! q = task_list <$> queues w !! q.
Proof.
  destruct c as [q task own|q own|q own|q own|q own|q|q|]; simpl; try done; intros _.
  - unfold push_acquire, get_queue at 1. destruct (queues w !! q) as [x|] eqn:Hx; [|done]. rewrite bind_ok.
    intros (u & Ha & [= <- <-])%bind_inv_ok. rewrite (erase_get _ _ _ Hx), bind_ok. simpl. rewrite Ha, bind_ok.
    split_and!; [by rewrite erase_refs|done|by eapply refs_unseen].
  - set (w1 := ntt_loop_combine_wakeup w b).
    assert (Hw : combine w1 = combine w /\ queues w1 = queues w /\ ntt_loop_combine_wakeup (erase w) b = erase w1)
      by (unfold w1, ntt_loop_combine_wakeup, eventfd_write; simpl; by destruct b, (eventfd w <? _)).
    destruct Hw as (Hc & Hq & ->). intros Heq. split_and!.
    + by apply erase_finish.
    + by rewrite (finish_combine _ _ _ _ _ Heq).
    + intros q'. rewrite <- Hq. by eapply finish_unseen.
  - unfold ntt_queue_acquire, get_queue at 1. destruct (queues w !! q) as [x|] eqn:Hx; [|done]. rewrite bind_ok.
    intros (u & Ha & [= <- <-])%bind_inv_ok. rewrite (erase_get _ _ _ Hx), bind_ok. simpl. rewrite Ha, bind_ok.
    split_and!; [by rewrite erase_refs|done|by eapply refs_unseen].
  - unfold ntt_queue_release, get_queue at 1. destruct (queues w !! q) as [x|] eqn:Hx; [|done]. rewrite bind_ok.
    intros [= <- <-]. rewrite (erase_get _ _ _ Hx), bind_ok. simpl.
    split_and!; [by rewrite erase_refs|done|by eapply refs_unseen].
  - unfold ntt_loop_work_leave. intros (u & Ha & [= <- <-])%bind_inv_ok. simpl. rewrite Ha, bind_ok.
    by destruct (negb _).
Qed.

(** Places where no list is looked at. *)
Definition listless_at (p : point) : bool :=
  match p with Top _ | SvcEnter _ _ | SvcNext _ _ _ _ => false | _ => true end.


Lemma erase_point `{Platform} p tq w t' w' :
  listless_at p = true -> Queue.exec_point p tq w = Ok (t', w') ->
  Queue.exec_point p tq (erase w) = Ok (t', erase w') /\ combine w' = combine w /\ queues w' = queues w /\
  forall task, pushing task t' = 0%nat.
Proof.
  destruct p; simpl; try done; intros _ Heq; try (injection Heq as <- <-; by split_and!).
  - apply bind_inv_ok in Heq as (t & Ht & [= <- <-]). rewrite Ht, bind_ok. split_and!; try done.
    unfold svc_leave in Ht. apply bind_inv_ok in Ht as (_ & _ & [= <-]). intros task. simpl.
    destruct m; [done|]. by destruct (negb _).
  - injection Heq as <- <-. unfold ntt_combine_eventfd_ready. simpl. by destruct (eventfd w >? 0).
Qed.
