(* ===== verification/QueueLinksSteps.v ===== *)
(** * Serial queues in memory: the operations

    Each operation on the links does what the one of [Queue] does, and keeps the
    relation. *)

From stdpp Require Import base numbers list gmap relations.
From Stdlib Require Import ZArith Lia.
From S2P Require Import Prelude.
From S2P Require Import NodeList.
From S2P Require Import NodeListProps.
From S2P Require Import Queue.
From S2P Require Import QueueInv.
From S2P Require Import QueueSteps.
From S2P Require Import QueueRefine.
From S2P Require Import QueueLinks.
From S2P Require Import QueueLinksInv.

#[local] Open Scope Z_scope.

Section steps.
Context `{Platform} `{QueueLayout, !QueueLayoutLaws}.
Implicit Types (m : nodes) (w : ntt_loop) (ts rest : list thread).

#[global] Instance queue_node_inj : Inj (=) (=) queue_node.
Proof. intros q q' Heq. by rewrite <- (node_queue_node q), <- (node_queue_node q'), Heq. Qed.

(** ** Reading *)
Lemma empty_read m w ts q x :
  links m w ts -> queues w !! q = Some x -> ntt_queue_empty m q = Ok (Queue.ntt_queue_empty x).
Proof.
  intros Hl Hx. unfold ntt_queue_empty, ntt_task_list_empty, Queue.ntt_queue_empty.
  rewrite (empty_ok _ _ _ (ln_tasks _ _ _ Hl q x Hx)). f_equal. by destruct (task_list x).
Qed.

Lemma unlinked_read m w ts q x :
  links m w ts -> queues w !! q = Some x -> ntt_queue_unlinked m q = Ok (Queue.ntt_queue_unlinked w q).
Proof.
  intros Hl Hx. unfold ntt_queue_unlinked, ntt_node_unlinked, Queue.ntt_queue_unlinked.
  destruct (decide (q ∈ combine w)) as [Hin|Hni].
  - destruct (linked_next m combine_list (queue_node <$> combine w) (queue_node q)) as (y & -> & Hy);
      [apply Hl|right; by apply list_elem_of_fmap_2|].
    rewrite bind_ok, bool_decide_false by tauto. by rewrite (proj2 (Z.eqb_neq _ _) Hy).
  - rewrite (ln_node _ _ _ Hl q) by eauto. by rewrite bind_ok, bool_decide_true.
Qed.

Lemma task_unlinked_read m w ts task :
  links m w ts -> (0 < total (pushing task) ts)%nat -> ntt_task_unlinked m task = Ok true.
Proof.
  intros Hl Hp. unfold ntt_task_unlinked, ntt_node_unlinked.
  by rewrite (proj2 (ln_pushing _ _ _ Hl task Hp)).
Qed.

(** ** Addresses that are apart *)
Lemma plain_apart p : plain p -> p <> combine_list /\ p <> NULL /\ forall q, p <> queue_tasks q /\ p <> queue_node q.
Proof. intros (Hn & Hc & Hq). split_and!; [done|unfold NULL; lia|]. intros q. destruct (Hq q). done. Qed.

(** The list of a queue is apart from the combine and the lists of others. *)
Lemma tasks_away m w ts q x p :
  links m w ts -> queues w !! q = Some x ->
  p = combine_list \/ (exists q', p = queue_node q') \/ (exists q', q' <> q /\ p = queue_tasks q') \/
  (exists q' x' task, q' <> q /\ queues w !! q' = Some x' /\ task ∈ task_list x' /\ p = task_node_of task) ->
  p ∉ queue_tasks q :: (task_node_of <$> task_list x).
Proof.
  intros Hl Hx Hp [->|(task & -> & Hin)%list_elem_of_fmap]%elem_of_cons.
  - destruct Hp as [Heq|[(q' & Heq)|[(q' & Hne & Heq)|(q' & x' & task & Hne & Hx' & Hin & Heq)]]].
    + by apply (combine_apart q).
    + by apply (nodes_apart q' q).
    + by apply Hne, queue_tasks_inj.
    + destruct (plain_apart _ (ln_plain _ _ _ Hl q' x' task Hx' Hin)) as (_ & _ & Hz). by destruct (Hz q).
  - destruct (plain_apart _ (ln_plain _ _ _ Hl q x task Hx Hin)) as (Hc & _ & Hz).
    destruct Hp as [Heq|[(q' & Heq)|[(q' & Hne & Heq)|(q' & x' & task' & Hne & Hx' & Hin' & Heq)]]].
    + done.
    + by destruct (Hz q').
    + by destruct (Hz q').
    + apply task_node_inj in Heq as ->. apply Hne. by eapply (ln_once _ _ _ Hl).
Qed.

(** The combine is apart from the lists of queues and from tasks. *)
Lemma combine_away l p :
  (exists q, p = queue_tasks q) \/ plain p -> p ∉ combine_list :: (queue_node <$> l).
Proof.
  intros Hp [->|(q' & -> & _)%list_elem_of_fmap]%elem_of_cons; destruct Hp as [(q & Heq)|Hp].
  - by apply (combine_apart q).
  - by destruct (plain_apart _ Hp).
  - by apply (nodes_apart q' q).
  - destruct (plain_apart _ Hp) as (_ & _ & Hz). by destruct (Hz q').
Qed.

(** ** One queue changes its tasks *)
Lemma links_tasks m m' w ts ts' q x l :
  links m w ts -> queues w !! q = Some x -> holds_tasks m' (queue_tasks q) l ->
  (forall p, p ∉ queue_tasks q :: (task_node_of <$> task_list x ++ l) -> same_links m m' p) ->
  (forall task, task ∈ l -> task ∈ task_list x \/
    plain (task_node_of task) /\ forall q' x', queues w !! q' = Some x' -> task ∉ task_list x') ->
  (forall task, (0 < total (pushing task) ts')%nat ->
    (0 < total (pushing task) ts)%nat /\ task ∉ task_list x ++ l) ->
  links m' (set_queue q (set_tasks l x) w) ts'.
Proof.
  intros Hl Hx Hrep Hframe Hnew Hpush.
  assert (Haway : forall p, p ∉ queue_tasks q :: (task_node_of <$> task_list x) ->
    (forall task, task ∈ l -> task ∉ task_list x -> p <> task_node_of task) -> same_links m m' p).
  { intros p Hp Hn. apply Hframe. rewrite fmap_app, not_elem_of_cons, not_elem_of_app in *.
    destruct Hp as [Hp1 Hp2]. split_and!; [done|done|]. intros (task & Heq & Hin)%list_elem_of_fmap.
    destruct (decide (task ∈ task_list x)) as [Hx'|Hx']; [|by eapply Hn].
    apply Hp2. rewrite Heq. by apply list_elem_of_fmap_2. }
  assert (Hplain : forall task, task ∈ l -> plain (task_node_of task)).
  { intros task Hin. destruct (Hnew task Hin) as [Hin'|[Hp _]]; [|done]. by apply (ln_plain _ _ _ Hl q x). }
  assert (Hq : forall q' y, queues (set_queue q (set_tasks l x) w) !! q' = Some y ->
    q' = q /\ y = set_tasks l x \/ q' <> q /\ queues w !! q' = Some y).
  { intros q' y. simpl. rewrite lookup_insert_Some. naive_solver. }
  split.
  - intros q' y [[-> ->]|[Hne Hy]]%Hq; [done|]. eapply represents_frame; [by apply Hl|].
    intros p [->|(task & -> & Hin)%list_elem_of_fmap]%elem_of_cons; apply Haway.
    + eapply tasks_away; [done|done|]. right. right. left. eauto.
    + intros task Hin _. destruct (plain_apart _ (Hplain task Hin)) as (_ & _ & Hz). by destruct (Hz q').
    + eapply tasks_away; [done|done|]. right. right. right. eauto 10.
    + intros task' Hin' Hni Heq. apply task_node_inj in Heq as ->.
      destruct (Hnew _ Hin') as [|[_ Hno]]; [done|]. by apply (Hno q' y).
  - eapply represents_frame; [by apply Hl|].
    intros p [->|(q' & -> & Hin)%list_elem_of_fmap]%elem_of_cons; apply Haway.
    + eapply tasks_away; [done|done|]. by left.
    + intros task Hin _. by destruct (plain_apart _ (Hplain task Hin)).
    + eapply tasks_away; [done|done|]. right. left. eauto.
    + intros task Hin' _. destruct (plain_apart _ (Hplain task Hin')) as (_ & _ & Hz). by destruct (Hz q').
  - intros q' Hs Hni. assert (Hs' : is_Some (queues w !! q')).
    { destruct Hs as [y [[-> ->]|[_ Hy]]%Hq]; eauto. }
    rewrite (proj1 (Haway (queue_node q') ltac:(eapply tasks_away; [done|done|]; right; left; eauto)
      ltac:(intros task Hin _; destruct (plain_apart _ (Hplain task Hin)) as (_ & _ & Hz); by destruct (Hz q')))).
    by apply (ln_node _ _ _ Hl).
  - intros q' y task [[-> ->]|[Hne Hy]]%Hq Hin; [by apply Hplain|]. by eapply (ln_plain _ _ _ Hl).
  - intros q1 q2 x1 x2 task [[-> ->]|[Hn1 Hx1]]%Hq [[-> ->]|[Hn2 Hx2]]%Hq Hin1 Hin2; simpl in *; try done.
    + destruct (Hnew _ Hin1) as [Hi|[_ Hno]]; [by eapply (ln_once _ _ _ Hl)|by destruct (Hno _ _ Hx2)].
    + destruct (Hnew _ Hin2) as [Hi|[_ Hno]]; [by eapply (ln_once _ _ _ Hl)|by destruct (Hno _ _ Hx1)].
    + by eapply (ln_once _ _ _ Hl).
  - intros task [Hp Hni]%Hpush. destruct (ln_pushing _ _ _ Hl task Hp) as [Hpl Hnx]. split; [done|].
    destruct (Hframe (task_node_of task)) as [-> _]; [|done].
    intros [Heq|Hin]%elem_of_cons; [by destruct (plain_apart _ Hpl) as (_ & _ & Hz); destruct (Hz q)|].
    by apply Hni, elem_of_task_nodes.
Qed.

(** ** Other changes of the memory *)

(** Only storage that no list uses has changed. *)
Lemma links_frame m m' w ts ts' :
  links m w ts -> (forall p, ~ plain p -> same_links m m' p) ->
  (forall q x task, queues w !! q = Some x -> task ∈ task_list x -> same_links m m' (task_node_of task)) ->
  (forall task, (0 < total (pushing task) ts')%nat ->
    plain (task_node_of task) /\ ntt_node_next m' (task_node_of task) = Ok NULL) ->
  links m' w ts'.
Proof.
  intros [Ht Hc Hn Hp Ho Hs] Hlib Htask Hpush. split; try done.
  - intros q x Hx. eapply represents_frame; [by apply Ht|].
    intros p [->|(task & -> & Hin)%list_elem_of_fmap]%elem_of_cons; [|by eapply Htask].
    apply Hlib. intros (_ & _ & Hz). by destruct (Hz q).
  - eapply represents_frame; [done|]. intros p [->|(q & -> & _)%list_elem_of_fmap]%elem_of_cons; apply Hlib.
    + by intros (_ & Hz & _).
    + intros (_ & _ & Hz). by destruct (Hz q).
  - intros q Hq Hni. destruct (Hlib (queue_node q)) as [-> _]; [|by apply Hn].
    intros (_ & _ & Hz). by destruct (Hz q).
Qed.

(** The combine has changed. *)
Lemma links_combine m m' w ts ts' l :
  links m w ts -> represents m' combine_list (queue_node <$> l) ->
  (forall p, p ∉ combine_list :: (queue_node <$> combine w ++ l) -> same_links m m' p) ->
  (forall q, q ∈ combine w -> q ∉ l -> ntt_node_next m' (queue_node q) = Ok NULL) ->
  (forall task, (total (pushing task) ts' <= total (pushing task) ts)%nat) ->
  links m' (with_combine l w) ts'.
Proof.
  intros [Ht Hc Hn Hp Ho Hs] Hrep Hframe Hout Hpush. split; try done.
  - intros q x Hx. eapply represents_frame; [by apply Ht|].
    intros p [->|(task & -> & Hin)%list_elem_of_fmap]%elem_of_cons; apply Hframe, combine_away; [eauto|].
    right. by eapply Hp.
  - intros q Hq Hni. destruct (decide (q ∈ combine w)) as [Hin|Hni']; [by apply Hout|].
    destruct (Hframe (queue_node q)) as [-> _]; [|by apply Hn].
    intros [Heq|(q' & Heq & Hin)%list_elem_of_fmap]%elem_of_cons; [by destruct (combine_apart q)|].
    apply queue_node_inj in Heq as ->. apply elem_of_app in Hin as [Hin|Hin]; done.
  - intros task Hpos. destruct (Hs task) as [Hpl Hnx]; [specialize (Hpush task); lia|]. split; [done|].
    destruct (Hframe (task_node_of task)) as [-> _]; [|done]. apply combine_away. by right.
Qed.

(** The storage of a node. *)
Lemma storage_links p m :
  ntt_node_next (node_storage p m) p = Err UninitRead /\ is_Some (node_mem (node_storage p m) !! p) /\
  forall p', p' <> p -> same_links m (node_storage p m) p'.
Proof.
  unfold node_storage, same_links, ntt_node_next, node_get_prev, node_load. simpl. rewrite lookup_insert_eq.
  split_and!; [done|by eexists|]. intros p' Hne. by rewrite lookup_insert_ne.
Qed.

Lemma storage_alloc p m p' : is_Some (node_mem m !! p') -> is_Some (node_mem (node_storage p m) !! p').
Proof. simpl. rewrite lookup_insert_is_Some. destruct (decide (p = p')); tauto. Qed.

Lemma node_init_links p m :
  is_Some (node_mem m !! p) ->
  exists m', ntt_node_init m p = Ok m' /\ ntt_node_next m' p = Ok NULL /\
    forall p', p' <> p -> same_links m m' p'.
Proof.
  intros Ha. destruct (set_next_ok m p NULL Ha) as (m' & Heq & _ & _ & Hn & Hp). exists m'.
  split_and!; [done|by rewrite Hn, decide_True|]. intros p' Hne. split; [by rewrite Hn, decide_False|done].
Qed.

Lemma list_init_links p m :
  is_Some (node_mem m !! p) -> p <> NULL ->
  exists m', ntt_list_init m p = Ok m' /\ represents m' p [] /\
    (forall p', is_Some (node_mem m !! p') -> is_Some (node_mem m' !! p')) /\
    forall p', p' <> p -> same_links m m' p'.
Proof.
  intros Ha Hne. unfold ntt_list_init.
  destruct (set_next_ok m p p Ha) as (m1 & -> & _ & Ha1 & Hn1 & Hp1). rewrite bind_ok.
  destruct (set_prev_ok m1 p p) as (m2 & -> & _ & Ha2 & Hn2 & Hp2); [by apply Ha1|]. exists m2.
  split_and!; [done| |intros p' Hp'; by apply Ha2, Ha1|].
  - split_and!; [apply NoDup_singleton|by intros ?%list_elem_of_singleton|]. simpl.
    by rewrite Hn2, Hn1, Hp2, !decide_True.
  - intros p' Hp'. split; [by rewrite Hn2, Hn1, decide_False|by rewrite Hp2, decide_False].
Qed.
End steps.
