(* ===== verification/QueueLinksSim.v ===== *)
(** * Serial queues in memory: the simulation

    Every step of [Queue] is one of [QueueLinks] on the links that stand for its
    sequences, with the same outcome. *)

From stdpp Require Import base numbers list gmap relations.
From Stdlib Require Import ZArith Lia.
From S2P Require Import Prelude.
From S2P Require Import NodeList.
From S2P Require Import NodeListProps.
From S2P Require Import Queue.
From S2P Require Import QueueInv.
From S2P Require Import QueueSteps.
From S2P Require Import QueueRefine.
From S2P Require Import QueueLinks.
From S2P Require Import QueueLinksInv.
From S2P Require Import QueueLinksSteps.

#[local] Open Scope Z_scope.

Section sim.
Context `{Platform} `{QueueLayout, !QueueLayoutLaws}.
Implicit Types (m : nodes) (w : ntt_loop) (ts rest : list thread).

(** The thread at the front does the same with the links, and they still fit. *)
Definition same_call c p tq rest m w c' w' : Prop :=
  exists m', exec_call c (in_loop p) (mk_linked (erase w) m) = Ok (c', mk_linked (erase w') m') /\
    links m' w' (mk_thread c' p tq :: rest).

Definition same_exec t rest m w t' w' : Prop :=
  exists m', exec t (mk_linked (erase w) m) = Ok (t', mk_linked (erase w') m') /\ links m' w' (t' :: rest).

(** A call that is not a push any more. *)
Lemma pushing_done task c c' p tq rest :
  (forall q task own, c' <> Some (PushTask q task own)) ->
  (total (pushing task) (mk_thread c' p tq :: rest) <= total (pushing task) (mk_thread c p tq :: rest))%nat.
Proof.
  intros Hc. rewrite !total_cons. simpl. destruct c' as [[]|]; simpl; try lia. by destruct (Hc _ _ _ eq_refl).
Qed.

Lemma finish_links m w q own c p tq rest c' w' :
  links m w (mk_thread c p tq :: rest) -> finish w q own = Ok (c', w') ->
  links m w' (mk_thread c' p tq :: rest) /\ lift (finish (erase w) q own) m = Ok (c', mk_linked (erase w') m).
Proof.
  intros Hl Heq. split; [|unfold lift; by rewrite (erase_finish _ _ _ _ _ Heq), bind_ok].
  assert (c' = None) as -> by (unfold finish in Heq; destruct own; [apply bind_inv_ok in Heq as (? & _ & ?)|]; congruence).
  eapply links_same; [exact Hl|by eapply finish_unseen|by eapply finish_combine|].
  intros task. by apply pushing_done.
Qed.

(** ** Calls *)
Lemma push_task_sim m w q task own p tq rest c' w' :
  loop_inv w (mk_thread (Some (PushTask q task own)) p tq :: rest) ->
  links m w (mk_thread (Some (PushTask q task own)) p tq :: rest) ->
  Queue.ntt_queue_push_task w q task own = Ok (c', w') ->
  same_call (PushTask q task own) p tq rest m w c' w'.
Proof.
  intros Hinv Hl. destruct (call_holds _ _ _ q Hinv eq_refl) as (x & Hx & _).
  assert (Hpos : (0 < total (pushing task) (mk_thread (Some (PushTask q task own)) p tq :: rest))%nat)
    by (rewrite total_cons; simpl; rewrite decide_True by done; lia).
  unfold Queue.ntt_queue_push_task, get_queue. rewrite Hx, bind_ok. intros (_ & _ & Heq)%bind_inv_ok.
  destruct (ln_pushing _ _ _ Hl task Hpos) as [Hplain _].
  destruct (task_list_push_appends m (queue_tasks q) (task_list x) task) as (m' & Hpush & Hrep & Hframe);
    [by apply Hl|by eapply task_unlinked_read|by destruct (plain_apart _ Hplain) as (_ & ? & _)|].
  unfold same_call. simpl. unfold ntt_queue_push_task. simpl.
  rewrite (erase_get _ _ _ Hx), bind_ok, (task_unlinked_read _ _ _ _ Hl Hpos), bind_ok, c_assert_true, bind_ok by done.
  rewrite Hpush, bind_ok. exists m'.
  set (w1 := set_queue q (set_tasks (task_list x ++ [task]) x) w) in *.
  assert (Hl' : links m' (emit (Pushed q task) w1) (mk_thread None p tq :: rest)).
  { eapply (links_same _ w1); [|done|done|done].
    apply (links_tasks m m' w _ _ q x (task_list x ++ [task]) Hl Hx); [done| | |].
    - intros p' Hp'. apply Hframe. rewrite !fmap_app, !not_elem_of_cons, !not_elem_of_app in *. tauto.
    - intros task' [Hin| ->%list_elem_of_singleton]%elem_of_app; [by left|]. right. split; [done|].
      intros q' x' Hx'. by eapply (i_fresh _ _ Hinv).
    - intros task' Hp'. pose proof (i_unique _ _ Hinv task) as Hu. rewrite total_cons in Hp', Hu |- *.
      simpl in *. rewrite decide_True in Hu by done. split; [lia|].
      assert (Hne : task' <> task) by (intros ->; lia). rewrite !not_elem_of_app, not_elem_of_cons.
      assert (task' ∉ task_list x); [|split_and!; try done; apply not_elem_of_nil].
      eapply (i_fresh _ _ Hinv); [|done]. rewrite total_cons. simpl. lia. }
  assert (He : erase (emit (Pushed q task) w1) = emit (Pushed q task) (erase w))
    by (change (emit (Pushed q task) (erase w1) = emit (Pushed q task) (erase w)); f_equal; by apply (erase_set w q x)).
  unfold Queue.ntt_queue_empty in Heq. destruct (bool_decide (task_list x = [])) eqn:He'.
  - injection Heq as <- <-. split; [by rewrite He|].
    eapply links_same; [exact Hl'|done|done|]. intros task'. by apply pushing_done.
  - rewrite <- He. split; [|by eapply finish_links]. by eapply finish_links.
Qed.

Lemma combine_push_sim m w q own p tq rest c' w' :
  loop_inv w (mk_thread (Some (CombinePush q own)) p tq :: rest) ->
  links m w (mk_thread (Some (CombinePush q own)) p tq :: rest) ->
  Queue.ntt_combine_push w q own = Ok (c', w') -> same_call (CombinePush q own) p tq rest m w c' w'.
Proof.
  intros Hinv Hl. destruct (call_holds _ _ _ q Hinv eq_refl) as (x & Hx & _).
  destruct (served w _ rest q x Hinv Hx) as (Hne & Hc%count_in_zero & _); [simpl; rewrite one_same; lia|].
  unfold Queue.ntt_combine_push, get_queue. rewrite Hx, bind_ok.
  intros (_ & _ & (_ & _ & Heq)%bind_inv_ok)%bind_inv_ok.
  destruct (push_back_ok m combine_list (queue_node <$> combine w) (queue_node q)) as (m' & Hpush & Hrep & _ & Hframe).
  { apply Hl. }
  { intros [Heq'|Hin]%elem_of_cons; [by destruct (combine_apart q)|]. apply Hc. by apply (list_elem_of_fmap_inj_2 queue_node) in Hin. }
  { apply nodes_not_null. }
  { eapply next_alloc, (ln_node _ _ _ Hl); eauto. }
  unfold same_call. simpl. unfold ntt_combine_push. simpl.
  rewrite (erase_get _ _ _ Hx), bind_ok, (empty_read _ _ _ _ _ Hl Hx), bind_ok, c_assert_true, bind_ok
    by (unfold Queue.ntt_queue_empty; by rewrite bool_decide_false).
  rewrite (unlinked_read _ _ _ _ _ Hl Hx), bind_ok, c_assert_true, bind_ok
    by (unfold Queue.ntt_queue_unlinked; by rewrite bool_decide_true).
  rewrite Hpush, bind_ok. exists m'.
  assert (Hl' : links m' (with_combine (combine w ++ [q]) w) (mk_thread None p tq :: rest)).
  { eapply links_combine; [exact Hl|by rewrite fmap_app| | |].
    - intros p' Hp'. apply Hframe. rewrite !fmap_app, !not_elem_of_cons, !not_elem_of_app in *. simpl in *.
      rewrite not_elem_of_cons in Hp'. tauto.
    - intros q' Hin Hni. exfalso. apply Hni, elem_of_app. by left.
    - intros task. by apply pushing_done. }
  assert (Hb : bool_decide (queue_node <$> combine w = []) = bool_decide (combine w = []))
    by (apply bool_decide_ext; by destruct (combine w)).
  rewrite Hb. destruct (bool_decide (combine w = [])).
  - injection Heq as <- <-. split; [done|]. eapply links_same; [exact Hl'|done|done|].
    intros task. by apply pushing_done.
  - split; [|by eapply finish_links]. by eapply (finish_links m' (with_combine (combine w ++ [q]) w)).
Qed.

Lemma deinit_sim m w q p tq rest c' w' :
  loop_inv w (mk_thread (Some (Destroy q)) p tq :: rest) ->
  links m w (mk_thread (Some (Destroy q)) p tq :: rest) ->
  Queue.ntt_queue_deinit w q = Ok (c', w') -> same_call (Destroy q) p tq rest m w c' w'.
Proof.
  intros Hinv Hl. destruct (deinit_facts _ _ _ _ _ Hinv) as (x & Hx & Hz & Ht & Hc & _).
  unfold Queue.ntt_queue_deinit, get_queue. rewrite Hx, bind_ok.
  intros (_ & _ & (_ & _ & (_ & _ & [= <- <-])%bind_inv_ok)%bind_inv_ok)%bind_inv_ok.
  unfold same_call. simpl. unfold ntt_queue_deinit. simpl.
  rewrite (erase_get _ _ _ Hx), bind_ok. simpl. rewrite c_assert_true, bind_ok by lia.
  rewrite (empty_read _ _ _ _ _ Hl Hx), bind_ok, c_assert_true, bind_ok
    by (unfold Queue.ntt_queue_empty; by rewrite bool_decide_true).
  rewrite (unlinked_read _ _ _ _ _ Hl Hx), bind_ok, c_assert_true, bind_ok
    by (unfold Queue.ntt_queue_unlinked; by rewrite bool_decide_true).
  exists m. split; [unfold erase; simpl; by rewrite fmap_delete|]. destruct Hl as [L1 L2 L3 L4 L5 L6].
  assert (Hd : forall q' y, delete q (queues w) !! q' = Some y -> queues w !! q' = Some y)
    by (intros q' y; rewrite lookup_delete_Some; tauto).
  split; simpl; try done.
  - intros q' y Hy%Hd. by apply L1.
  - intros q' [y Hy%Hd]. apply L3. eauto.
  - intros q' y task Hy%Hd. by eapply L4.
  - intros q1 q2 x1 x2 task Hx1%Hd Hx2%Hd. by eapply L5.
Qed.

Lemma exec_call_sim m w c p tq rest c' w' :
  loop_inv w (mk_thread (Some c) p tq :: rest) -> links m w (mk_thread (Some c) p tq :: rest) ->
  Queue.exec_call c (in_loop p) w = Ok (c', w') -> same_call c p tq rest m w c' w'.
Proof.
  intros Hinv Hl Heq. destruct (listless c) eqn:Hc.
  - destruct (erase_call _ _ _ _ _ Hc Heq) as (He & Hcomb & Hq). exists m. split.
    + unfold exec_call. destruct c; try done; unfold lift; simpl lk_loop; by rewrite He, bind_ok.
    + eapply links_same; [exact Hl|done|done|]. intros task. apply pushing_done. intros q task' own ->.
      destruct c; try done; simpl in Heq; unfold push_acquire, ntt_queue_acquire, ntt_queue_release, ntt_loop_work_leave in Heq;
        repeat (apply bind_inv_ok in Heq as (? & _ & Heq)); try done.
      * unfold finish in Heq. destruct own0; [apply bind_inv_ok in Heq as (? & _ & Heq)|]; done.
      * injection Heq as Heq _. by case_match.
  - destruct c; try done; eauto using push_task_sim, combine_push_sim, deinit_sim.
Qed.

(** ** Places in the loops *)
Lemma next_sim m w q task cnt md tq rest next w' :
  loop_inv w (mk_thread None (SvcNext q task cnt md) tq :: rest) ->
  links m w (mk_thread None (SvcNext q task cnt md) tq :: rest) -> Queue.ntt_queue_next w q = Ok (next, w') ->
  exists m', ntt_queue_next (mk_linked (erase w) m) q = Ok (next, mk_linked (erase w') m') /\
    links m' w' (mk_thread None (SvcDrop q task next cnt md) tq :: rest).
Proof.
  intros Hinv Hl.
  destruct (served_first _ _ q task cnt md _ _ Hinv) as (x & l & Hx & Ht & Hc%count_in_zero & _); [tauto|].
  unfold Queue.ntt_queue_next, get_queue. rewrite Hx, bind_ok, Ht.
  intros (_ & _ & (_ & _ & [= <- <-])%bind_inv_ok)%bind_inv_ok.
  pose proof (ln_tasks _ _ _ Hl q x Hx) as Hrep. rewrite Ht in Hrep.
  destruct (task_list_next_drops m (queue_tasks q) task l Hrep) as (_ & m' & Hn & Hrep' & _ & Hframe).
  unfold ntt_queue_next. simpl.
  rewrite (erase_get _ _ _ Hx), bind_ok, (unlinked_read _ _ _ _ _ Hl Hx), bind_ok, c_assert_true, bind_ok
    by (unfold Queue.ntt_queue_unlinked; by rewrite bool_decide_true).
  rewrite (empty_read _ _ _ _ _ Hl Hx), bind_ok, c_assert_true, bind_ok
    by (unfold Queue.ntt_queue_empty; by rewrite Ht).
  rewrite Hn, bind_ok. exists m'. rewrite (erase_set w q x) by done. split.
  - destruct l as [|u l]; [done|]. simpl. destruct (Z.eqb_spec u NULL) as [Hu|]; [|done].
    destruct (ln_plain _ _ _ Hl q x u Hx) as [Hpos _]; [rewrite Ht; right; by left|].
    unfold task_node_of, PAYLOAD_OFFSET, NULL in *. lia.
  - apply (links_tasks m m' w _ _ q x l Hl Hx Hrep').
    + intros p Hp. apply Hframe. rewrite Ht, fmap_app, not_elem_of_cons, not_elem_of_app in Hp.
      rewrite not_elem_of_cons. tauto.
    + intros task' Hin. left. rewrite Ht. by right.
    + intros task' Hp. split; [done|]. pose proof (i_fresh _ _ Hinv task' q x Hp Hx) as Hni. rewrite Ht in Hni |- *.
      rewrite not_elem_of_app. split; [done|]. intros Hin. apply Hni. by right.
Qed.

Lemma take_sim m w t rest queue w' :
  links m w (t :: rest) -> Queue.ntt_combine_try_take w = (queue, w') ->
  exists m', ntt_combine_try_take (mk_linked (erase w) m) = Ok (queue, mk_linked (erase w') m') /\
    links m' w' (t :: rest).
Proof.
  intros Hl. unfold Queue.ntt_combine_try_take, ntt_combine_try_take. simpl.
  rewrite (empty_ok _ _ _ (ln_combine _ _ _ Hl)), bind_ok.
  destruct (combine w) as [|q l] eqn:Hc; intros [= <- <-]; simpl; [eauto|].
  pose proof (ln_combine _ _ _ Hl) as Hrep. rewrite Hc, fmap_cons in Hrep.
  unfold ntt_list_front. pose proof Hrep as (_ & _ & Hs & _). rewrite Hs, bind_ok.
  destruct (next_ok _ _ _ _ Hrep) as (m' & -> & Hrep' & Hq & _ & Hframe). rewrite bind_ok.
  exists m'. rewrite node_queue_node. split; [done|].
  eapply links_combine; [exact Hl|done| | |done]; rewrite Hc.
  - intros p Hp. apply Hframe. rewrite fmap_app, not_elem_of_cons, not_elem_of_app in Hp.
    rewrite not_elem_of_cons. tauto.
  - intros q' [->|Hin]%elem_of_cons Hni; done.
Qed.

Lemma turn_sim m w t rest md p w' :
  links m w (t :: rest) -> Queue.combine_svc_turn w md = (p, w') ->
  exists m', combine_svc_turn (mk_linked (erase w) m) md = Ok (p, mk_linked (erase w') m') /\
    links m' w' (t :: rest).
Proof.
  intros Hl. unfold Queue.combine_svc_turn, combine_svc_turn.
  destruct (Queue.ntt_combine_try_take w) as [queue w1] eqn:Ht.
  destruct (take_sim _ _ _ _ _ _ Hl Ht) as (m' & Heq & Hl').
  destruct md as [|cnt l1 l2]; [intros [= <- <-]; exists m'; by rewrite Heq, bind_ok|].
  destruct (cnt <? l1); intros [= <- <-]; [exists m'; by rewrite Heq, bind_ok|eauto].
Qed.

Lemma enter_sim m w q md tq rest t' :
  loop_inv w (mk_thread None (SvcEnter q md) tq :: rest) ->
  links m w (mk_thread None (SvcEnter q md) tq :: rest) -> Queue.svc_enter w q md tq = Ok t' ->
  svc_enter (mk_linked (erase w) m) q md tq = Ok t'.
Proof.
  intros Hinv Hl. destruct (in_use _ _ q Hinv) as [x Hx]; [left; rewrite total_cons; simpl; rewrite one_same; lia|].
  destruct (served w _ rest q x Hinv Hx) as (Hne & Hc%count_in_zero & _); [simpl; rewrite one_same; lia|].
  unfold Queue.svc_enter, svc_enter, get_queue at 1. rewrite Hx, bind_ok. simpl lk_loop. simpl lk_nodes.
  rewrite (erase_get _ _ _ Hx), bind_ok. intros (u & Ha & Heq)%bind_inv_ok. rewrite Ha, bind_ok.
  unfold ntt_queue_front. rewrite !(empty_read _ _ _ _ _ Hl Hx), !(unlinked_read _ _ _ _ _ Hl Hx), !bind_ok.
  apply bind_inv_ok in Heq as (u1 & Ha1 & Heq). rewrite Ha1, bind_ok.
  apply bind_inv_ok in Heq as (u2 & Ha2 & Heq). rewrite Ha2, bind_ok.
  apply bind_inv_ok in Heq as (u3 & Ha3 & Heq). rewrite Ha3, !bind_ok.
  destruct (task_list x) as [|task l] eqn:Ht; [done|].
  pose proof (ln_tasks _ _ _ Hl q x Hx) as Hrep. rewrite Ht in Hrep.
  destruct (task_list_next_drops _ _ _ _ Hrep) as [-> _]. by rewrite bind_ok.
Qed.

Lemma exec_point_sim m w p tq rest t' w' :
  loop_inv w (mk_thread None p tq :: rest) -> links m w (mk_thread None p tq :: rest) ->
  Queue.exec_point p tq w = Ok (t', w') -> same_exec (mk_thread None p tq) rest m w t' w'.
Proof.
  intros Hinv Hl Heq. unfold same_exec, exec. simpl. destruct (listless_at p) eqn:Hp.
  - destruct (erase_point _ _ _ _ _ Hp Heq) as (He & Hc & Hq & Hpush). exists m. split.
    + unfold exec_point. destruct p; try done; unfold lift; simpl lk_loop; by rewrite He, bind_ok.
    + eapply links_same; [exact Hl|by rewrite Hq|done|]. intros task. rewrite !total_cons, Hpush. lia.
  - destruct p as [|md|q md| | |q task cnt md| | | | | |]; try done; simpl in *.
    + destruct (Queue.combine_svc_turn w md) as [p w1] eqn:Ht. injection Heq as <- <-.
      destruct (turn_sim _ _ _ _ _ _ _ Hl Ht) as (m' & -> & Hl'). exists m'. rewrite bind_ok. split; [done|].
      by eapply links_same.
    + apply bind_inv_ok in Heq as (t & Ht & [= <- <-]). exists m.
      rewrite (enter_sim _ _ _ _ _ _ _ Hinv Hl Ht), bind_ok. split; [done|].
      eapply links_same; [exact Hl|done|done|]. intros task. unfold Queue.svc_enter in Ht.
      repeat (apply bind_inv_ok in Ht as (? & _ & Ht)). destruct (task_list _); [done|]. by injection Ht as <-.
    + apply bind_inv_ok in Heq as ([next w1] & Hn & [= <- <-]).
      destruct (next_sim _ _ _ _ _ _ _ _ _ _ Hinv Hl Hn) as (m' & -> & Hl'). exists m'. by rewrite bind_ok.
Qed.

Lemma linked_exec_sim m w t rest t' w' :
  loop_inv w (t :: rest) -> links m w (t :: rest) -> Queue.exec t w = Ok (t', w') ->
  same_exec t rest m w t' w'.
Proof.
  destruct t as [[c|] p tq]; unfold Queue.exec; simpl; intros Hinv Hl Heq; [|by apply exec_point_sim].
  apply bind_inv_ok in Heq as ([c' w1] & Hc & [= <- <-]).
  destruct (exec_call_sim _ _ _ _ _ _ _ _ Hinv Hl Hc) as (m' & He & Hl'). exists m'. split; [|done].
  unfold exec. simpl. by rewrite He, bind_ok.
Qed.
End sim.
