(* ===== verification/QueueLinksProps.v ===== *)
(** * Serial queues in memory: properties

    The queues and the combine, kept as intrusive lists, behave as [Queue] says:
    nothing that is proved of [Queue] depends on its sequences being sequences. *)

From stdpp Require Import base numbers list gmap relations.
From Stdlib Require Import ZArith Lia.
From S2P Require Import Prelude.
From S2P Require Import NodeList.
From S2P Require Import NodeListProps.
From S2P Require Import Queue.
From S2P Require Import QueueInv.
From S2P Require Import QueueSteps.
From S2P Require Import QueueProps.
From S2P Require Import QueueLinks.
From S2P Require Import QueueLinksInv.
From S2P Require Import QueueLinksSteps.
From S2P Require Import QueueLinksSim.

#[local] Open Scope Z_scope.

Section sim.
Context `{Platform} `{QueueLayout, !QueueLayoutLaws}.
Implicit Types (m : nodes) (w : ntt_loop) (ts rest : list thread).

(** ** New tasks and new queues *)

(** The storage of a new task is not that of a task in a queue. *)
Lemma new_task_unqueued m w ts task m' :
  links m w ts -> new_task task m ts m' -> unqueued task w ts.
Proof.
  intros Hl (_ & Hp & Hfree & _). split; [|done]. intros q x Hx Hin.
  destruct (linked_next m (queue_tasks q) (task_node_of <$> task_list x) (task_node_of task)) as (y & Hy & Hne);
    [by apply Hl|right; by apply list_elem_of_fmap_2|].
  destruct Hfree as [Hf|Hf]; [|congruence]. apply next_alloc in Hy as [? Hy]. congruence.
Qed.

Lemma new_task_links m w t rest task m' c p tq :
  links m w (t :: rest) -> new_task task m (t :: rest) m' ->
  (forall task', task' <> task -> pushing task' (mk_thread c p tq) = 0%nat) ->
  links m' w (mk_thread c p tq :: rest).
Proof.
  intros Hl Hnew Hc. destruct (new_task_unqueued _ _ _ _ _ Hl Hnew) as [Hun _].
  destruct Hnew as (Hplain & Hp & _ & Heq).
  destruct (storage_links (task_node_of task) m) as (_ & Ha & Hst).
  destruct (node_init_links (task_node_of task) _ Ha) as (m1 & Heq1 & Hnull & Hfr). rewrite Heq in Heq1. injection Heq1 as <-.
  assert (Hsame : forall p, p <> task_node_of task -> same_links m m' p).
  { intros p' Hne. destruct (Hst p' Hne) as [A1 A2], (Hfr p' Hne) as [B1 B2]. split; congruence. }
  eapply links_frame; [exact Hl| | |].
  - intros p' Hn. apply Hsame. by intros ->.
  - intros q x task' Hx Hin. apply Hsame. intros Heq'%task_node_inj. subst. by eapply Hun.
  - intros task' Hpos. destruct (decide (task' = task)) as [->|Hne]; [done|].
    rewrite total_cons, Hc in Hpos by done. destruct (ln_pushing _ _ _ Hl task') as [Hpl Hnx]; [rewrite total_cons; lia|].
    split; [done|]. destruct (Hsame (task_node_of task')) as [-> _]; [|done]. by intros ?%task_node_inj.
Qed.

(** The nodes of a queue that was not in use. *)
Lemma init_links m w ts q :
  links m w ts -> queues w !! q = None -> (q ∉ combine w) ->
  exists m', (forall w1, Queue.ntt_queue_init (erase w) q = Ok w1 ->
      ntt_queue_init (mk_linked (erase w) m) q = Ok (mk_linked w1 m')) /\
    holds_tasks m' (queue_tasks q) [] /\ ntt_node_next m' (queue_node q) = Ok NULL /\
    forall p, p <> queue_tasks q -> p <> queue_node q -> same_links m m' p.
Proof.
  intros Hl Hq Hc. unfold ntt_queue_init, ntt_task_list_init. simpl lk_nodes. simpl lk_loop.
  set (m0 := node_storage (queue_node q) _).
  destruct (storage_links (queue_tasks q) m) as (_ & Ha & Hst).
  destruct (storage_links (queue_node q) (node_storage (queue_tasks q) m)) as (_ & Ha' & Hst').
  destruct (list_init_links (queue_tasks q) m0) as (m1 & -> & Hrep & Hal & Hfr);
    [by apply storage_alloc|apply nodes_not_null|]. rewrite bind_ok.
  destruct (node_init_links (queue_node q) m1) as (m2 & -> & Hnull & Hfr'); [by apply Hal|]. rewrite bind_ok.
  exists m2. split_and!; [intros w1 ->; by rewrite bind_ok| |done|].
  - eapply represents_frame; [exact Hrep|]. intros p ->%list_elem_of_singleton. apply Hfr'.
    intros Heq. symmetry in Heq. by apply nodes_apart in Heq.
  - intros p Hp Hp'. destruct (Hst p Hp) as [A1 A2], (Hst' p Hp') as [B1 B2], (Hfr p Hp) as [C1 C2],
      (Hfr' p Hp') as [D1 D2]. subst m0. split; congruence.
Qed.

Lemma create_links m m' w w' ts q :
  links m w ts -> queues w !! q = None -> (q ∉ combine w) -> holds_tasks m' (queue_tasks q) [] ->
  ntt_node_next m' (queue_node q) = Ok NULL ->
  (forall p, p <> queue_tasks q -> p <> queue_node q -> same_links m m' p) ->
  queues w' = <[q := mk_queue [] 1 1]> (queues w) -> combine w' = combine w -> links m' w' ts.
Proof.
  intros [L1 L2 L3 L4 L5 L6] Hq Hc Hrep Hnull Hframe Hqs Hcomb.
  assert (Hx : forall q' y, queues w' !! q' = Some y ->
    q' = q /\ y = mk_queue [] 1 1 \/ q' <> q /\ queues w !! q' = Some y).
  { intros q' y. rewrite Hqs, lookup_insert_Some. naive_solver. }
  assert (Hpl : forall p, plain p -> same_links m m' p).
  { intros p (_ & _ & Hz). destruct (Hz q). by apply Hframe. }
  split.
  - intros q' y [[-> ->]|[Hne Hy]]%Hx; [done|]. eapply represents_frame; [by apply L1|].
    intros p [->|(task & -> & Hin)%list_elem_of_fmap]%elem_of_cons; [|by eapply Hpl, L4].
    apply Hframe; [by intros ?%queue_tasks_inj|]. intros Heq. symmetry in Heq. by apply nodes_apart in Heq.
  - rewrite Hcomb. eapply represents_frame; [done|].
    intros p [->|(q' & -> & Hin)%list_elem_of_fmap]%elem_of_cons.
    + apply Hframe; intros Heq; symmetry in Heq; by destruct (combine_apart q).
    + apply Hframe; [apply nodes_apart|]. intros ->%queue_node_inj. done.
  - intros q' [y Hy] Hni. rewrite Hcomb in Hni. apply Hx in Hy as [[-> ->]|[Hne Hy]]; [done|].
    destruct (Hframe (queue_node q')) as [-> _]; [apply nodes_apart|by intros ?%queue_node_inj|]. apply L3; eauto.
  - intros q' y task [[-> ->]|[Hne Hy]]%Hx Hin; [by apply not_elem_of_nil in Hin|]. by eapply L4.
  - intros q1 q2 x1 x2 task [[-> ->]|[Hn1 Hx1]]%Hx [[-> ->]|[Hn2 Hx2]]%Hx Hin1 Hin2; simpl in *; try done;
      try (by apply not_elem_of_nil in Hin1); try (by apply not_elem_of_nil in Hin2). by eapply L5.
  - intros task Hp. destruct (L6 task Hp) as [Hplain Hn]. split; [done|]. by destruct (Hpl _ Hplain) as [-> _].
Qed.

(** ** Steps *)

(** A step of [Queue] to a state that the links fit. *)
Definition same_step w ts (S : linked) ts' : Prop :=
  exists w', loop_step (w, ts) (w', ts') /\ lk_loop S = erase w' /\ links (lk_nodes S) w' ts'.

Lemma erase_lookup w q x :
  queues (erase w) !! q = Some x -> exists y, queues w !! q = Some y /\ x = set_tasks [] y.
Proof. simpl. rewrite lookup_fmap. intros (y & Hy & ->)%fmap_Some. eauto. Qed.

Lemma erase_lend w q y : lend q (set_tasks [] y) (erase w) = erase (lend q y w).
Proof. unfold lend. simpl. by rewrite erase_refs. Qed.

Lemma lend_links m w q y t rest c p tq :
  links m w (t :: rest) -> queues w !! q = Some y ->
  (forall task, pushing task (mk_thread c p tq) <= pushing task t)%nat ->
  links m (lend q y w) (mk_thread c p tq :: rest).
Proof.
  intros Hl Hy Hp. eapply links_same; [exact Hl| |done|].
  - simpl. by eapply QueueRefine.refs_unseen.
  - intros task. rewrite !total_cons. specialize (Hp task). lia.
Qed.

Lemma client_sim m w t rest S' t' :
  links m w (t :: rest) -> linked_client (t :: rest) (mk_linked (erase w) m) t S' t' ->
  exists w', client (t :: rest) w t w' t' /\ lk_loop S' = erase w' /\ links (lk_nodes S') w' (t' :: rest).
Proof.
  intros Hl Hc. inversion Hc as [? ? p tq q x task m' Hx Hr Hnew|? ? p q task m' Hnew|? ? ? w1 ? Hcl Hs]; subst; simpl in *.
  - apply erase_lookup in Hx as (y & Hy & ->). exists (lend q y w). split_and!.
    + constructor; [done|done|by eapply new_task_unqueued].
    + apply erase_lend.
    + eapply (lend_links m' w q y (mk_thread (Some (PushTask q task true)) p tq)); [|done|done].
      eapply new_task_links; [done|done|]. intros task' Hne. simpl. by rewrite decide_False.
  - exists w. split_and!; [constructor; by eapply new_task_unqueued|done|].
    eapply new_task_links; [done|done|]. intros task' Hne. simpl. by rewrite decide_False.
  - inversion Hcl as [|? ? ? ? Hun|? p tq q x Hx Hr|? p q|? p tq q x Hx Hr|? p tq Hw]; subst; simpl in *; try done.
    + apply erase_lookup in Hx as (y & Hy & ->). exists (lend q y w).
      split_and!; [by constructor|apply erase_lend|by eapply lend_links].
    + exists w. split_and!; [by constructor|done|by eapply links_same].
    + apply erase_lookup in Hx as (y & Hy & ->). exists (lend q y w).
      split_and!; [by constructor|apply erase_lend|by eapply lend_links].
    + exists (with_work (work_cnt w) (pred (other_work w)) w).
      split_and!; [by constructor|done|by eapply links_same].
Qed.

Lemma create_sim m w ts q S' :
  loop_inv w ts -> links m w ts -> queues (erase w) !! q = None -> 0 < work_cnt w ->
  ntt_queue_create_in (mk_linked (erase w) m) q = Ok S' -> same_step w ts S' ts.
Proof.
  intros Hinv Hl Hq Hw Heq. simpl in Hq. rewrite lookup_fmap, fmap_None in Hq.
  assert (Hc : q ∉ combine w).
  { apply count_in_zero. destruct (count_in q (combine w)) eqn:Hn; [done|].
    destruct (in_use w ts q Hinv) as [x Hx]; [lia|congruence]. }
  destruct (init_links m w ts q Hl Hq Hc) as (m' & Hinit & Hrep & Hnull & Hframe).
  unfold ntt_queue_create_in in Heq. unfold Queue.ntt_queue_init, ntt_loop_work_enter in Hinit.
  rewrite c_assert_true, bind_ok in Hinit by (simpl; lia). specialize (Hinit _ eq_refl).
  rewrite Hinit in Heq. injection Heq as <-. simpl.
  eexists. split_and!.
  - eapply step_create; [done|done|]. unfold Queue.ntt_queue_create_in, Queue.ntt_queue_init, ntt_loop_work_enter.
    by rewrite c_assert_true, bind_ok by (simpl; lia).
  - unfold erase. simpl. by rewrite fmap_insert.
  - by eapply create_links.
Qed.

Lemma linked_step_sim S ts S' ts' w :
  linked_step (S, ts) (S', ts') -> loop_inv w ts -> lk_loop S = erase w -> links (lk_nodes S) w ts ->
  same_step w ts S' ts'.
Proof.
  intros Hs Hinv He Hl. destruct S as [w0 m]. simpl in *. subst w0.
  assert (Hmid : forall (l1 l2 : list thread) t, l1 ++ t :: l2 ≡ₚ t :: l1 ++ l2)
    by (intros; by rewrite Permutation_middle).
  inversion Hs as [? l1 t l2 ? t' Hex|? l1 t l2 ? t' Hcc Hc|? ? q ? Hq Hw Hcr|? ? ? w1 Hw Hwk|? l1 tq l2 a b Ha Hb|? l1 tq l2]; subst.
  - eapply loop_inv_perm in Hinv; [|apply Hmid]. eapply links_perm in Hl; [|apply Hmid].
    destruct (exec_total _ _ _ Hinv) as [[t1 w1] Heq].
    destruct (linked_exec_sim _ _ _ _ _ _ Hinv Hl Heq) as (m' & He & Hl'). rewrite He in Hex. injection Hex as -> <-.
    exists w1. split_and!; [by constructor|done|]. eapply links_perm; [|exact Hl']. by rewrite Hmid.
  - eapply links_perm in Hl; [|apply Hmid].
    assert (Hc' : linked_client (t :: l1 ++ l2) (mk_linked (erase w) m) t S' t').
    { inversion Hc as [? ? ? ? ? ? ? ? ? ? Hn|? ? ? ? ? ? Hn|? ? ? ? ? Hcl]; subst; econstructor; try done.
      - unfold new_task in *. by rewrite <- (total_perm _ _ _ (Hmid _ _ _)).
      - unfold new_task in *. by rewrite <- (total_perm _ _ _ (Hmid _ _ _)).
      - inversion Hcl; subst; by constructor. }
    destruct (client_sim _ _ _ _ _ _ Hl Hc') as (w' & Hcl & He & Hl'). exists w'. split_and!; [|done|].
    + constructor; [done|]. inversion Hcl as [? ? ? ? ? ? ? ? Hu|? ? ? ? Hu| | | |]; subst; constructor; try done;
        unfold unqueued in *; by rewrite (total_perm _ _ _ (Hmid _ _ _)).
    + eapply links_perm; [|exact Hl']. by rewrite Hmid.
  - by eapply create_sim.
  - unfold ntt_loop_work_enter in Hwk. apply bind_inv_ok in Hwk as (u & Ha & [= <-]). simpl in *.
    eexists. split_and!; [apply step_work; [done|unfold ntt_loop_work_enter; by rewrite Ha, bind_ok]|done|].
    by eapply links_same.
  - exists w. split_and!; [by constructor|done|]. eapply links_same; [exact Hl|done|done|].
    intros task. by rewrite !total_app, !total_cons.
  - exists w. split_and!; [by constructor|done|]. eapply links_same; [exact Hl|done|done|].
    intros task. by rewrite !total_app, !total_cons.
Qed.
End sim.

(** ** Reachable states *)

(** The loop as [ntt_loop_run] sets it up, with the combine initialised in
    memory. *)
Definition linked_reachable `{Platform} `{QueueLayout} (S : linked) (ts : list thread) : Prop :=
  exists ts0 m m0, Forall (fun t => t = worker \/ t = outsider) ts0 /\ ntt_combine_init m = Ok m0 /\
    rtc linked_step (mk_linked fresh_loop m0, ts0) (S, ts).

Section props.
Context `{Platform} `{QueueLayout, !QueueLayoutLaws}.
Implicit Types (S : linked) (ts : list thread).

Lemma fresh_links ts m m0 :
  Forall (fun t => t = worker \/ t = outsider) ts -> ntt_combine_init m = Ok m0 -> links m0 fresh_loop ts.
Proof.
  intros Hts Heq.
  destruct (storage_links combine_list m) as (_ & Ha & _).
  destruct (list_init_links combine_list _ Ha) as (m1 & Heq1 & Hrep & _); [apply nodes_not_null|].
  unfold ntt_combine_init in Heq. rewrite Heq1 in Heq. injection Heq as <-.
  split; simpl; try done.
  - by intros q [].
  - intros task Hp. destruct (total_pos _ _ Hp) as (t & Hin & Hpos). rewrite Forall_forall in Hts.
    destruct (Hts t Hin) as [-> | ->]; simpl in Hpos; lia.
Qed.

Lemma linked_steps_sim c c' :
  rtc linked_step c c' -> forall w, reachable w c.2 -> lk_loop c.1 = erase w -> links (lk_nodes c.1) w c.2 ->
  exists w', reachable w' c'.2 /\ lk_loop c'.1 = erase w' /\ links (lk_nodes c'.1) w' c'.2.
Proof.
  induction 1 as [c|[S1 ts1] [S2 ts2] c3 Hs _ IH]; [eauto|]. intros w Hr He Hl.
  destruct (linked_step_sim _ _ _ _ w Hs) as (w' & Hstep & He' & Hl'); [by apply loop_reachable_inv|done|done|].
  apply (IH w'); [|done|done]. destruct Hr as (ts0 & Hts & Hrtc). exists ts0. split; [done|]. by eapply rtc_r.
Qed.

Lemma linked_matches S ts :
  linked_reachable S ts -> exists w, reachable w ts /\ lk_loop S = erase w /\ links (lk_nodes S) w ts.
Proof.
  intros (ts0 & m & m0 & Hts & Hm & Hs). apply (linked_steps_sim _ _ Hs fresh_loop).
  - exists ts0. split; [done|]. constructor.
  - done.
  - by eapply fresh_links.
Qed.

(** C9.  The intrusive lists implement the queues: whatever the threads do, there
    is a run of the queues as sequences with the same threads, references, work
    and log, in which the task list of each queue in memory, followed from its
    sentinel in both directions, is the sequence of its tasks, and that of the
    combine the sequence of its queues. *)
Theorem links_refine_queues S ts :
  linked_reachable S ts ->
  exists w, reachable w ts /\ lk_loop S = erase w /\
    (forall q x, queues w !! q = Some x -> holds_tasks (lk_nodes S) (queue_tasks q) (task_list x)) /\
    represents (lk_nodes S) combine_list (queue_node <$> combine w).
Proof.
  intros (w & Hr & He & Hl)%linked_matches. exists w. split_and!; [done|done|apply Hl|apply Hl].
Qed.

(** C10.  With intrusive lists no thread ever follows a link that was not set or
    the node of a queue that is gone, and none of the assertions that read links
    fails: not that a task or a queue that is pushed is unlinked, not that a list
    to serve is not empty, not that a queue to destroy is empty and unlinked. *)
Theorem links_no_fault S ts t :
  linked_reachable S ts -> t ∈ ts -> exists t' S', exec t S = Ok (t', S').
Proof.
  intros (w & Hr%loop_reachable_inv & He & Hl)%linked_matches (l1 & l2 & ->)%list_elem_of_split.
  assert (Hmid : l1 ++ t :: l2 ≡ₚ t :: l1 ++ l2) by (by rewrite Permutation_middle).
  eapply loop_inv_perm in Hr; [|exact Hmid]. eapply links_perm in Hl; [|exact Hmid].
  destruct (exec_total _ _ _ Hr) as [[t' w'] Heq].
  destruct (linked_exec_sim _ _ _ _ _ _ Hr Hl Heq) as (m' & Hex & _).
  destruct S as [w0 m]. simpl in *. subst w0. eauto.
Qed.
End props.

(** ** Witnesses: two tasks in a queue *)
Module LinksExample.
#[local] Instance machine : Platform := {| ndebug := false; alloc_ok := fun _ => true |}.

(** Queues of 32 bytes, the combine among them. *)
#[local] Instance layout : QueueLayout := {|
  queue_node q := 32 * q + 8;
  queue_tasks q := 32 * q + 16;
  combine_list := 24;
  node_queue p := (p - 8) / 32;
|}.

#[local] Instance layout_laws : QueueLayoutLaws.
Proof.
  split; simpl; unfold NULL; try (intros; lia).
  - intros q. replace (32 * q + 8 - 8) with (q * 32) by lia. by apply Z.div_mul.
  - split; [done|]. intros q. lia.
Qed.

Lemma address_plain n : 0 < n -> plain (32 * n).
Proof. intros Hn. split_and!; simpl; [lia|lia|]. intros q. lia. Qed.

Definition threads0 : list thread := [outsider; worker].

Definition state0 : linked :=
  mk_linked fresh_loop (match ntt_combine_init (mk_nodes ∅ ∅) with Ok m => m | Err _ => mk_nodes ∅ ∅ end).

(** The thread [i] makes [n] steps. *)
Fixpoint turns (n : nat) (i : nat) (c : linked * list thread) : linked * list thread :=
  match n with
  | O => c
  | Datatypes.S n =>
      match c.2 !! i with
      | Some t => match exec t c.1 with
                  | Ok (t', S') => turns n i (S', take i c.2 ++ t' :: drop (Datatypes.S i) c.2)
                  | Err _ => c
                  end
      | None => c
      end
  end.

Lemma turns_steps n i : forall c, rtc linked_step c (turns n i c).
Proof.
  induction n as [|n IH]; intros [S ts]; simpl; [done|]. destruct (ts !! i) as [t|] eqn:Hi; [|done].
  destruct (exec t S) as [[t' S']|] eqn:He; [|done]. eapply rtc_l; [|apply IH].
  rewrite <- (take_drop_middle ts i t Hi) at 1. by constructor.
Qed.

(** The queue 7 is created. *)
Definition created : linked := match ntt_queue_create_in state0 7 with Ok c => c | Err _ => state0 end.

(** The thread outside asks for a push of the task whose node is at [p]. *)
Definition asked (p : ptr) (c : linked * list thread) : linked * list thread :=
  match c with
  | (mk_linked w m, mk_thread None pt tq :: rest) =>
      match queues w !! 7, ntt_node_init (node_storage p m) p with
      | Some x, Ok m' =>
          (mk_linked (lend 7 x w) m', mk_thread (Some (PushTask 7 (p + PAYLOAD_OFFSET) true)) pt tq :: rest)
      | _, _ => c
      end
  | _ => c
  end.

Definition one_pushed : linked * list thread := turns 4 0 (asked 4096 (created, threads0)).
Definition two_pushed : linked * list thread := turns 1 0 (asked 8192 one_pushed).
(** The worker is about to drop the first task. *)
Definition served_one : linked * list thread := turns 4 1 two_pushed.

Lemma asked_step p n c :
  p = 32 * n -> 0 < n ->
  match c with
  | (mk_linked w m, mk_thread None pt tq :: rest) =>
      client_code pt = true /\ (exists x, queues w !! 7 = Some x /\ (0 < client_refs x)%nat) /\
      node_mem m !! p = None /\ total (pushing (p + PAYLOAD_OFFSET)) c.2 = 0%nat
  | _ => False
  end -> linked_step c (asked p c).
Proof.
  destruct c as [[w m] [|[[|] pt tq] rest]]; try done. simpl. intros -> Hn (Hc & (x & Hx & Hr) & Hm & Hp).
  rewrite Hx. destruct (storage_links (32 * n) m) as (_ & Ha & _).
  destruct (node_init_links _ _ Ha) as (m' & Heq & _). rewrite Heq.
  apply (lstep_client _ [] _ rest); [done|].
  assert (Hnode : task_node_of (32 * n + PAYLOAD_OFFSET) = 32 * n) by (unfold task_node_of; lia).
  apply lclient_push; [done|done|]. unfold new_task. rewrite Hnode.
  split_and!; [by apply address_plain|done|by left|done].
Qed.

Lemma served_one_reachable : linked_reachable served_one.1 served_one.2.
Proof.
  exists threads0, (mk_nodes ∅ ∅), (lk_nodes state0). split_and!; [|done|].
  { by repeat (apply List.Forall_cons; [auto|]). }
  rewrite <- surjective_pairing. apply (rtc_l _ _ (created, threads0)).
  { apply (lstep_create _ _ 7); [done|done|]. by vm_compute. }
  eapply rtc_l; [apply (asked_step 4096 128); [done|done|]|].
  { vm_compute. split_and!; [done|eexists; split; [reflexivity|simpl; auto]|done|done]. }
  etransitivity; [apply (turns_steps 4 0)|].
  eapply rtc_l; [apply (asked_step 8192 256); [done|done|]|].
  { vm_compute. split_and!; [done|eexists; split; [reflexivity|simpl; auto]|done|done]. }
  etransitivity; [apply (turns_steps 1 0)|]. apply (turns_steps 4 1).
Qed.
End LinksExample.

Module LinksWitnesses.
Import LinksExample.
#[local] Existing Instance machine.
#[local] Existing Instance layout.
#[local] Existing Instance layout_laws.

Lemma links_refine_queues_witness :
  node_mem (lk_nodes served_one.1) !! queue_tasks 7 = Some (mk_node (Some 4096) (Some 8192)) /\
  exists w, reachable w served_one.2 /\ lk_loop served_one.1 = erase w /\
    represents (lk_nodes served_one.1) combine_list (queue_node <$> combine w).
Proof.
  split; [by vm_compute|].
  destruct (links_refine_queues served_one.1 served_one.2 served_one_reachable) as (w & Hr & He & _ & Hc).
  exists w. split; [exact Hr|]. split; [exact He|exact Hc].
Defined.

Definition dropper : thread := mk_thread None (SvcNext 7 4128 0 Unlimited) (Some 7).

Lemma links_no_fault_witness :
  dropper ∈ served_one.2 /\ exists t' S', exec dropper served_one.1 = Ok (t', S').
Proof.
  assert (Hin : dropper ∈ served_one.2) by (apply (list_elem_of_lookup_2 _ 1); by vm_compute).
  split; [exact Hin|]. exact (links_no_fault served_one.1 served_one.2 dropper served_one_reachable Hin).
Defined.
End LinksWitnesses.
