(* ===== verification/LoopStart.v ===== *)
(** * The first queue of a loop

    Translates the middle of [ntt_loop_run] in [src/loop.c]: the queue that gets
    the task of the caller.  Nobody else runs yet, so that the calls are whole;
    they are steps of [Queue] nevertheless. *)

From stdpp Require Import base numbers list gmap relations.
From Stdlib Require Import ZArith Lia.
From S2P Require Import Prelude.
From S2P Require Import Queue.
From S2P Require Import QueueInv.
From S2P Require Import QueueProps.

#[local] Open Scope Z_scope.

Section start.
Context `{Platform}.

(** Calls of a thread that is no worker yet, when nobody else runs. *)
Fixpoint run_calls (fuel : nat) (c : option call) (w : ntt_loop) : res ntt_loop :=
  match c with
  | None => Ok w
  | Some c =>
      match fuel with
      | O => Err OutOfFuel
      | S fuel => '(c, w) ← exec_call c false w; run_calls fuel c w
      end
  end.

(** The queues before there is one: the loop holds work itself. *)
Definition loop_queues : ntt_loop := mk_loop ∅ ntt_combine_init 0 1 1 [].

(** The first queue: created, given the task, and left to the combine; then the
    work that the loop held itself is given up. *)
Definition start_queue (w : ntt_loop) (q : Z) (task : ptr) : res ntt_loop :=
  w ← ntt_queue_create_in w q;
  x ← get_queue w q;
  w ← run_calls 4 (Some (PushTask q task true)) (lend q x w);
  x ← get_queue w q;
  w ← run_calls 1 (Some (Release q)) (lend q x w);
  run_calls 1 (Some WorkLeave) (with_work (work_cnt w) (pred (other_work w)) w).

End start.

(** The queues afterwards: the first one has the task and is in the combine,
    which holds the only reference; the eventfd is readable; the only work is that
    of the queue. *)
Definition one_task (task : ptr) : ntt_loop :=
  mk_loop {[0 := mk_queue [task] 1 0]} [0] 1 1 0 [Pushed 0 task].

Lemma start_queue_ok `{Platform} task : start_queue loop_queues 0 task = Ok (one_task task).
Proof. destruct H as [nd al]. by destruct nd; vm_compute. Qed.

(** The same, call by call. *)
Definition between (x : ntt_queue) (c : list Z) (fd : Z) (n : nat) (l : list entry) : ntt_loop :=
  mk_loop {[0 := x]} c fd 2 n l.

Lemma start_calls_ok `{Platform} task :
  ntt_queue_create_in loop_queues 0 = Ok (between (mk_queue [] 1 1) [] 0 1 []) /\
  run_calls 4 (Some (PushTask 0 task true)) (between (mk_queue [] 1 0) [] 0 1 []) =
    Ok (between (mk_queue [task] 2 1) [0] 1 1 [Pushed 0 task]) /\
  run_calls 1 (Some (Release 0)) (between (mk_queue [task] 2 0) [0] 1 1 [Pushed 0 task]) =
    Ok (between (mk_queue [task] 1 0) [0] 1 1 [Pushed 0 task]) /\
  run_calls 1 (Some WorkLeave) (between (mk_queue [task] 1 0) [0] 1 0 [Pushed 0 task]) = Ok (one_task task).
Proof. destruct H as [nd al]. by destruct nd; vm_compute. Qed.

Section steps.
Context `{Platform}.

(** Whole calls are steps. *)
Lemma run_calls_steps fuel c w w' rest :
  run_calls fuel c w = Ok w' ->
  rtc loop_step (w, mk_thread c Outside None :: rest) (w', outsider :: rest).
Proof.
  revert c w. induction fuel as [|fuel IH]; intros [c|] w Heq; simpl in Heq; try done;
    try (injection Heq as <-; apply rtc_refl).
  apply bind_inv_ok in Heq as ([c' w1] & Hc & Hrun). eapply rtc_l; [|by apply IH].
  apply (step_exec _ [] _ rest). unfold exec. simpl. by rewrite Hc.
Qed.

(** The calling thread starts a call that the client may make. *)
Lemma client_calls w w1 w' fuel c rest :
  client (outsider :: rest) w outsider w1 (mk_thread (Some c) Outside None) ->
  run_calls fuel (Some c) w1 = Ok w' -> rtc loop_step (w, outsider :: rest) (w', outsider :: rest).
Proof.
  intros Hc Hrun. eapply rtc_l; [|eapply run_calls_steps; exact Hrun]. by apply (step_client _ [] outsider rest).
Qed.

Lemma start_queue_steps task rest :
  total (pushing task) rest = 0%nat ->
  rtc loop_step (fresh_loop, outsider :: rest) (one_task task, outsider :: rest).
Proof.
  intros Hz. destruct (start_calls_ok task) as (Hcr & Hpush & Hrel & Hleave).
  eapply rtc_l; [by apply (step_create fresh_loop _ 0); [done|..|exact Hcr]|].
  etransitivity; [eapply client_calls; [|exact Hpush]|].
  { apply (client_push _ (between (mk_queue [] 1 1) [] 0 1 []) _ _ 0 (mk_queue [] 1 1)); [done|simpl; lia|].
    split; [|by rewrite total_cons]. intros q x Hx. unfold between in Hx. simpl in Hx. apply lookup_singleton_Some in Hx as [<- <-]. apply not_elem_of_nil. }
  etransitivity; [eapply client_calls; [|exact Hrel]|].
  { apply (client_release _ (between (mk_queue [task] 2 1) [0] 1 1 [Pushed 0 task]) _ _ 0 (mk_queue [task] 2 1));
      [done|simpl; lia]. }
  eapply client_calls; [|exact Hleave].
  apply (client_work_leave _ (between (mk_queue [task] 1 0) [0] 1 1 [Pushed 0 task])). simpl. lia.
Qed.

(** The workers find the queues in a state that [QueueProps] speaks of. *)
Lemma one_task_reachable task n : reachable (one_task task) (outsider :: replicate n worker).
Proof.
  exists (outsider :: replicate n worker). split.
  - constructor; [by right|]. apply Forall_replicate. by left.
  - apply start_queue_steps. by induction n.
Qed.

Lemma reachable_steps w ts w' ts' : reachable w ts -> rtc loop_step (w, ts) (w', ts') -> reachable w' ts'.
Proof. intros (ts0 & Hts & Hs) Hs'. exists ts0. split; [done|]. by etransitivity. Qed.
End steps.
