(* ===== verification/Event.v ===== *)
(** * Events: data and operations

    Translates [src/event.c], [src/event.h] and the types of
    [include/ntt/event.h].  Events are reached by many threads at once, so the
    operations are programs of threads that share one slot of the event slab:
    every atomic operation of the code is one step of [exec], and a loop around a
    compare-exchange is the step at which the exchange succeeds.  A queued task
    is a thread that has not run yet. *)

From stdpp Require Import base numbers list.
From Stdlib Require Import ZArith Lia.
From S2P Require Import Prelude.

#[local] Open Scope Z_scope.

(** ** Constants *)
Definition NTT_INTEREST_READABLE : Z := 1.
Definition NTT_INTEREST_WRITABLE : Z := 2.

(** One side of a descriptor; [interest_of] is its value of [ntt_interest_t]. *)
Inductive side : Type := Readable | Writable.

#[global] Instance side_eq_dec : EqDecision side.
Proof. solve_decision. Defined.

Definition interest_of (s : side) : Z :=
  match s with Readable => NTT_INTEREST_READABLE | Writable => NTT_INTEREST_WRITABLE end.

Definition NTT_EVENT_SIDES : Z := 2.
Definition NTT_EVENT_WORK : Z := 1.
Definition NTT_EVENT_SERIAL : Z := 2.
Definition NTT_EVENT_SIDE_READY : Z := 1.
Definition NTT_EVENT_SIDE_BUSY : Z := 2.
Definition NTT_EVENT_SIDE_BITS : Z := 2.
Definition NTT_EVENT_CLOSED : Z := Z.shiftl 1 (NTT_EVENT_SIDES * NTT_EVENT_SIDE_BITS).

(** The bits of [sys/epoll.h]. *)
Definition EPOLLIN : Z := 1.
Definition EPOLLOUT : Z := 4.
Definition EPOLLERR : Z := 8.
Definition EPOLLHUP : Z := 16.
Definition EPOLLET : Z := 2 ^ 31.

(** ** Handles *)
Definition ntt_event_handle_index (handle : Z) : Z := u32 handle.

Definition ntt_event_handle_generation (handle : Z) : Z := u32 (Z.shiftr handle 32).

(** [ntt_event_handle_of], given the index and the generation of the slot. *)
Definition ntt_event_handle_of (index generation : Z) : Z :=
  Z.lor (u64 index) (u64 (Z.shiftl generation 32)).

(** ** The state word *)
Definition ntt_event_side_index (s : side) : Z :=
  if interest_of s =? NTT_INTEREST_READABLE then 0 else 1.

Definition ntt_event_side_shift (s : side) : Z := ntt_event_side_index s * NTT_EVENT_SIDE_BITS.

Definition ntt_event_side_state (sides bits : Z) : Z :=
  let state := 0 in
  let state := if negb (Z.land sides NTT_INTEREST_READABLE =? 0)
               then Z.lor state (u32 (Z.shiftl bits (ntt_event_side_shift Readable))) else state in
  if negb (Z.land sides NTT_INTEREST_WRITABLE =? 0)
  then Z.lor state (u32 (Z.shiftl bits (ntt_event_side_shift Writable))) else state.

Definition ntt_event_sides_of (events interest : Z) : Z :=
  let sides := 0 in
  let sides := if negb (Z.land events (Z.lor EPOLLIN (Z.lor EPOLLERR EPOLLHUP)) =? 0)
               then Z.lor sides NTT_INTEREST_READABLE else sides in
  let sides := if negb (Z.land events (Z.lor EPOLLOUT (Z.lor EPOLLERR EPOLLHUP)) =? 0)
               then Z.lor sides NTT_INTEREST_WRITABLE else sides in
  Z.land sides interest.

(** The complement of a 32-bit word. *)
Definition not32 (x : Z) : Z := Z.lxor x UINT32_MAX.

(** The exchange of [ntt_event_claim_side]: the new state, or nothing when the
    side may not be taken. *)
Definition ntt_event_claim_side (state : Z) (s : side) : option Z :=
  let shift := ntt_event_side_shift s in
  let ready := u32 (Z.shiftl NTT_EVENT_SIDE_READY shift) in
  let busy := u32 (Z.shiftl NTT_EVENT_SIDE_BUSY shift) in
  if (Z.land state ready =? 0) || negb (Z.land state (Z.lor busy NTT_EVENT_CLOSED) =? 0)
  then None
  else Some (Z.lor (Z.land state (not32 ready)) busy).

(** The exchange of [ntt_event_leave_side]: whether the side stays taken, and
    the new state. *)
Definition ntt_event_leave_side (state : Z) (s : side) : bool * Z :=
  let shift := ntt_event_side_shift s in
  let ready := u32 (Z.shiftl NTT_EVENT_SIDE_READY shift) in
  let busy := u32 (Z.shiftl NTT_EVENT_SIDE_BUSY shift) in
  let again := negb (Z.land state ready =? 0) && (Z.land state NTT_EVENT_CLOSED =? 0) in
  (again, if again then Z.land state (not32 ready) else Z.land state (not32 (Z.lor ready busy))).

(** ** Events *)

(** Which callbacks of [ntt_event_vtbl_t] are set. *)
Record ntt_event_vtbl : Type := mk_vtbl {
  readable : bool;
  writable : bool;
  writable_cancelled : bool;
  readable_cancelled : bool;
}.

Record ntt_event_params : Type := mk_params {
  params_vtbl : ntt_event_vtbl;
  params_interest : Z;
  read_queue : ptr;
  write_queue : ptr;
}.

Record ntt_event : Type := mk_event {
  vtbl : ntt_event_vtbl;
  queue0 : ptr;
  queue1 : ptr;
  refs : Z;
  state : Z;
  interest : Z;
  flags : Z;
}.

Definition with_refs r e := mk_event (vtbl e) (queue0 e) (queue1 e) r (state e) (interest e) (flags e).
Definition with_state s e := mk_event (vtbl e) (queue0 e) (queue1 e) (refs e) s (interest e) (flags e).

(** [self->queues[ntt_event_side_index(side)]] *)
Definition queue_of (e : ntt_event) (s : side) : ptr :=
  match s with Readable => queue0 e | Writable => queue1 e end.

(** The step of [ntt_event_acquire_if_live]. *)
Definition ntt_event_acquire_if_live (e : ntt_event) : option ntt_event :=
  if refs e =? 0 then None else Some (with_refs (refs e + 1) e).

(** ** The slot, and what can be observed of it *)
Inductive entry : Type :=
  | Call (s : side) (g : Z)            (* a handler starts *)
  | Returned (s : side) (g : Z)        (* a handler returns *)
  | QueueAcquire (s : side) (g : Z)
  | WorkEnter (g : Z)
  | EpollAdd (g events : Z)
  | EpollDel (g : Z)
  | CancelReturned (g : Z)             (* ntt_event_cancel returns to its caller *)
  | Report (s : side) (g : Z)          (* a cancelled callback *)
  | Given (g : Z)                      (* the slot goes back to the slab *)
  | QueueRelease (s : side) (g : Z)
  | WorkLeave (g : Z).

#[global] Instance entry_eq_dec : EqDecision entry.
Proof. solve_decision. Defined.

Record slot : Type := mk_slot {
  ev : ntt_event;
  generation : Z;
  in_use : bool;
  log : list entry;
}.

Definition set_ev e sl := mk_slot e (generation sl) (in_use sl) (log sl).
Definition emit l sl := mk_slot (ev sl) (generation sl) (in_use sl) (log sl ++ l).

(** ** Threads

    A thread is where it stands in the code, with its local variables.  [g] is
    the generation of the handle it was called with, [k] the sides it still has
    to deliver. *)
Inductive thread : Type :=
  | Dispatch (g events : Z)            (* ntt_event_dispatch, before ntt_event_live *)
  | DispatchCheck (g events : Z)       (* a reference taken, the generation not yet looked at *)
  | Plain (g : Z) (todo : list side)   (* the calls of an event that is not serial *)
  | PlainCall (s : side) (g : Z) (todo : list side)
  | Publish (g sides : Z)              (* before the fetch-or of the readiness *)
  | Deliver (g : Z) (k : list side)    (* before ntt_event_deliver_side of the head *)
  | Post (s : side) (g : Z) (k : list side)       (* ntt_event_post_side *)
  | PostPush (s : side) (g : Z) (k : list side)   (* its reference taken, the task not pushed *)
  | Serve (s : side) (g : Z) (k : list side)      (* before the call in ntt_event_serve_side *)
  | ServeCall (s : side) (g : Z) (k : list side)  (* inside of the handler *)
  | ServeLeave (s : side) (g : Z) (k : list side) (* before ntt_event_leave_side *)
  | Release                            (* before the last ntt_event_release *)
  | SideTask (s : side)                (* a queued ntt_event_side_task_svc *)
  | Cancel (g : Z)                     (* ntt_event_cancel, before ntt_event_live *)
  | CancelCheck (g : Z)
  | Close (g : Z)                      (* before the fetch-or of NTT_EVENT_CLOSED *)
  | CloseDel (g : Z)                   (* the bit set by this thread, before ntt_loop_epoll_del *)
  | CloseRelease (g : Z)               (* before the release of the reference left behind *)
  | CancelRelease (g : Z)              (* before the release of the thread's own reference *)
  | CancelledTask (s : side)           (* a queued ntt_event_cancelled_task_svc *)
  | Finish                             (* before ntt_event_finish *)
  | Teardown                           (* before ntt_event_teardown *)
  | OpenEnter (g fl events : Z)        (* ntt_event_open, the reference count just stored *)
  | OpenAdd (g events : Z).            (* before ntt_loop_epoll_add *)

(** ** The programs *)

(** [ntt_event_report_cancelled]: the callback of the side, if there is one. *)
Definition ntt_event_report_cancelled (e : ntt_event) (g : Z) (s : side) : list entry :=
  let cb := if interest_of s =? NTT_INTEREST_READABLE then readable_cancelled (vtbl e)
            else writable_cancelled (vtbl e) in
  if cb then [Report s g] else [].

(** [ntt_event_post_cancelled] *)
Definition ntt_event_post_cancelled (s : side) : list thread := [CancelledTask s].

(** What [ntt_event_finish] does after it has read the fields: the slot is
    given back, which bumps its generation, the queues are released, and the
    work of the loop is left last. *)
Definition ntt_event_finish (sl : slot) : slot :=
  let e := ev sl in
  let g := generation sl in
  mk_slot e (g + 1) false
    (log sl ++ [Given g]
      ++ (if negb (queue0 e =? NULL) then [QueueRelease Readable g] else [])
      ++ (if negb (queue1 e =? NULL) then [QueueRelease Writable g] else [])
      ++ (if negb (Z.land (flags e) NTT_EVENT_WORK =? 0) then [WorkLeave g] else [])).

(** [ntt_event_teardown], for an event the loop owns itself. *)
Definition ntt_event_teardown (sl : slot) : slot :=
  let e := ev sl in
  let g := generation sl in
  let s := if interest e =? NTT_INTEREST_READABLE then Readable else Writable in
  mk_slot e (g + 1) false
    (log sl ++ ntt_event_report_cancelled e g s ++ [Given g]
      ++ (if negb (Z.land (flags e) NTT_EVENT_WORK =? 0) then [WorkLeave g] else [])).

(** [ntt_event_release]: drops a reference; the last one starts the reports. *)
Definition ntt_event_release (sl : slot) : slot * list thread :=
  let e := ev sl in
  let sl' := set_ev (with_refs (refs e - 1) e) sl in
  if negb (refs e =? 1) then (sl', [])
  else if (queue0 e =? NULL) && (queue1 e =? NULL) then (sl', [Teardown])
  else (sl', ntt_event_post_cancelled (if negb (queue1 e =? NULL) then Writable else Readable)).

(** [ntt_event_cancelled_task_svc] *)
Definition ntt_event_cancelled_task_svc (s : side) (sl : slot) : slot * list thread :=
  let sl' := emit (ntt_event_report_cancelled (ev sl) (generation sl) s) sl in
  if (interest_of s =? NTT_INTEREST_WRITABLE) && negb (queue0 (ev sl) =? NULL)
  then (sl', ntt_event_post_cancelled Readable)
  else (sl', [Finish]).

(** [ntt_event_live], with what to do with a live event. *)
Definition live_acquire (sl : slot) (next : thread) : slot * list thread :=
  match ntt_event_acquire_if_live (ev sl) with
  | None => (sl, [])
  | Some e => (set_ev e sl, [next])
  end.

Definition live_check (sl : slot) (g : Z) (stale next : thread) : slot * list thread :=
  (sl, [if generation sl =? g then next else stale]).

(** The sides of the masks of [ntt_event_dispatch], in the order it takes them. *)
Definition has (sides : Z) (s : side) : bool := negb (Z.land sides (interest_of s) =? 0).

Definition serial_order (sides : Z) : list side :=
  (if has sides Writable then [Writable] else []) ++ (if has sides Readable then [Readable] else []).

Definition plain_order (sides : Z) : list side :=
  (if has sides Readable then [Readable] else []) ++ (if has sides Writable then [Writable] else []).

(** [ntt_event_dispatch] once the event is known to be live. *)
Definition dispatch_live (e : ntt_event) (g events : Z) : thread :=
  let sides := ntt_event_sides_of events (interest e) in
  if Z.land (flags e) NTT_EVENT_SERIAL =? 0 then Plain g (plain_order sides)
  else if negb (sides =? 0) then Publish g sides
  else Release.

(** [ntt_event_deliver_side] of the next side, or the end of the dispatch. *)
Definition ntt_event_deliver_side (sl : slot) (g : Z) (k : list side) : slot * list thread :=
  match k with
  | [] => (sl, [Release])
  | s :: k =>
      match ntt_event_claim_side (state (ev sl)) s with
      | None => (sl, [Deliver g k])
      | Some st =>
          (set_ev (with_state st (ev sl)) sl,
           [if negb (queue_of (ev sl) s =? NULL) then Post s g k else Serve s g k])
      end
  end.

(** What follows [ntt_event_leave_side] in [ntt_event_serve_side]. *)
Definition serve_leave (sl : slot) (s : side) (g : Z) (k : list side) : slot * list thread :=
  let '(again, st) := ntt_event_leave_side (state (ev sl)) s in
  (set_ev (with_state st (ev sl)) sl, [if again then Serve s g k else Deliver g k]).

(** The fetch-or of [ntt_event_cancel]. *)
Definition cancel_close (sl : slot) (g : Z) : slot * list thread :=
  let st := state (ev sl) in
  (set_ev (with_state (Z.lor st NTT_EVENT_CLOSED) (ev sl)) sl,
   [if Z.land st NTT_EVENT_CLOSED =? 0 then CloseDel g else CancelRelease g]).

(** One step of a thread: the slot afterwards, and the threads it becomes. *)
Definition exec (t : thread) (sl : slot) : slot * list thread :=
  match t with
  | Dispatch g events => live_acquire sl (DispatchCheck g events)
  | DispatchCheck g events => live_check sl g Release (dispatch_live (ev sl) g events)
  | Plain g [] => (sl, [Release])
  | Plain g (s :: todo) => (emit [Call s g] sl, [PlainCall s g todo])
  | PlainCall s g todo => (emit [Returned s g] sl, [Plain g todo])
  | Publish g sides =>
      (set_ev (with_state
         (Z.lor (state (ev sl)) (ntt_event_side_state sides NTT_EVENT_SIDE_READY)) (ev sl)) sl,
       [Deliver g (serial_order sides)])
  | Deliver g k => ntt_event_deliver_side sl g k
  | Post s g k => (set_ev (with_refs (refs (ev sl) + 1) (ev sl)) sl, [PostPush s g k])
  | PostPush s g k => (sl, [Deliver g k; SideTask s])
  | Serve s g k => (emit [Call s g] sl, [ServeCall s g k])
  | ServeCall s g k => (emit [Returned s g] sl, [ServeLeave s g k])
  | ServeLeave s g k => serve_leave sl s g k
  | Release => ntt_event_release sl
  | SideTask s => (sl, [Serve s (generation sl) []])
  | Cancel g => live_acquire sl (CancelCheck g)
  | CancelCheck g => live_check sl g Release (Close g)
  | Close g => cancel_close sl g
  | CloseDel g => (emit [EpollDel g] sl, [CloseRelease g])
  | CloseRelease g => let '(sl, ts) := ntt_event_release sl in (sl, CancelRelease g :: ts)
  | CancelRelease g => let '(sl, ts) := ntt_event_release sl in (emit [CancelReturned g] sl, ts)
  | CancelledTask s => ntt_event_cancelled_task_svc s sl
  | Finish => (ntt_event_finish sl, [])
  | Teardown => (ntt_event_teardown sl, [])
  | OpenEnter g fl events =>
      ((if negb (Z.land fl NTT_EVENT_WORK =? 0) then emit [WorkEnter g] sl else sl), [OpenAdd g events])
  | OpenAdd g events => (emit [EpollAdd g events] sl, [])
  end.

(** [ntt_event_open] into the slot that [ntt_slab_take] returned, up to the
    store of the reference count: until then nobody else can reach the event. *)
Definition ntt_event_open (sl : slot) (p : ntt_event_params) (events fl : Z) : slot * thread :=
  let g := generation sl in
  (mk_slot (mk_event (params_vtbl p) (read_queue p) (write_queue p) 1 0 (params_interest p) fl) g true
     (log sl ++ (if negb (read_queue p =? NULL) then [QueueAcquire Readable g] else [])
        ++ (if negb (write_queue p =? NULL) then [QueueAcquire Writable g] else [])),
   OpenEnter g fl events).

(** [ntt_event_start]: its assertions, the epoll mask, and the flags it opens
    the event with.  [queue_loop] is [ntt_queue_loop]. *)
Definition ntt_event_start `{Platform} (queue_loop : ptr -> ptr) (sl : slot) (p : ntt_event_params) :
    res (slot * thread) :=
  let i := params_interest p in
  c_assert (negb (i =? 0)) ;;
  c_assert ((Z.land i NTT_INTEREST_READABLE =? 0)
            || (readable (params_vtbl p) && negb (read_queue p =? NULL))) ;;
  c_assert ((Z.land i NTT_INTEREST_WRITABLE =? 0)
            || (writable (params_vtbl p) && negb (write_queue p =? NULL))) ;;
  c_assert (if negb (Z.land i NTT_INTEREST_READABLE =? 0) then readable_cancelled (params_vtbl p)
            else writable_cancelled (params_vtbl p)) ;;
  c_assert ((read_queue p =? NULL) || (write_queue p =? NULL)
            || (queue_loop (read_queue p) =? queue_loop (write_queue p))) ;;
  let events := 0 in
  let events := if negb (Z.land i NTT_INTEREST_READABLE =? 0)
                then Z.lor events (Z.lor EPOLLIN EPOLLET) else events in
  let events := if negb (Z.land i NTT_INTEREST_WRITABLE =? 0)
                then Z.lor events (Z.lor EPOLLOUT EPOLLET) else events in
  Ok (ntt_event_open sl p events (Z.lor NTT_EVENT_WORK NTT_EVENT_SERIAL)).

(** ** All threads together

    A notification or a cancellation may come at any time, with any handle; a
    free slot may be opened again; otherwise some thread takes a step. *)
Inductive event_step : slot * list thread -> slot * list thread -> Prop :=
  | step_exec sl l1 t l2 sl' ts :
      exec t sl = (sl', ts) -> event_step (sl, l1 ++ t :: l2) (sl', l1 ++ ts ++ l2)
  | step_notify sl ts g events : event_step (sl, ts) (sl, Dispatch g events :: ts)
  | step_cancel sl ts g : event_step (sl, ts) (sl, Cancel g :: ts)
  | step_open sl ts p events fl sl' t :
      in_use sl = false -> ntt_event_open sl p events fl = (sl', t) ->
      event_step (sl, ts) (sl', t :: ts).
