(* ===== verification/EventInv.v ===== *)
(** * Events: the invariant of a slot

    What the threads that share a slot hold: references, sides, the duty to
    report.  Each is a number per thread, summed over all threads. *)

From stdpp Require Import base numbers list relations.
From Stdlib Require Import ZArith Lia.
From S2P Require Import Prelude.
From S2P Require Import Event.

#[local] Open Scope Z_scope.

(** ** The bits of the state word *)
Definition ready (s : side) (st : Z) : bool := Z.testbit st (ntt_event_side_shift s).
Definition busy (s : side) (st : Z) : bool := Z.testbit st (ntt_event_side_shift s + 1).
Definition closed (st : Z) : bool := Z.testbit st 4.

(** A decidable fact about the 32 possible states holds for each of them. *)
Lemma states_all (f : Z -> bool) st : forallb f (seqZ 0 32) = true -> 0 <= st < 32 -> f st = true.
Proof.
  intros Hall Hst. rewrite forallb_forall in Hall. apply Hall, list_elem_of_In, elem_of_seqZ. lia.
Qed.

Definition other (s : side) : side := match s with Readable => Writable | Writable => Readable end.

Definition in_range (st : Z) : bool := (0 <=? st) && (st <? 32).

(** [st'] is [st] as far as the other side goes. *)
Definition same_other (s : side) (st st' : Z) : bool :=
  eqb (ready (other s) st') (ready (other s) st) && eqb (busy (other s) st') (busy (other s) st).

Lemma claim_bits s st :
  0 <= st < 32 ->
  match ntt_event_claim_side st s with
  | None => ready s st = true -> closed st = false -> busy s st = true
  | Some st' => 0 <= st' < 32 /\ ready s st = true /\ busy s st = false /\ closed st = false /\
      ready s st' = false /\ busy s st' = true /\ closed st' = false /\
      ready (other s) st' = ready (other s) st /\ busy (other s) st' = busy (other s) st
  end.
Proof.
  intros Hst.
  pose proof (states_all (fun st => match ntt_event_claim_side st s with
    | None => negb (ready s st && negb (closed st) && negb (busy s st))
    | Some st' => in_range st' && ready s st && negb (busy s st) && negb (closed st) &&
        negb (ready s st') && busy s st' && negb (closed st') && same_other s st st'
    end) st ltac:(by destruct s) Hst) as Hf. cbn beta in Hf.
  destruct (ntt_event_claim_side st s) as [st'|].
  - unfold in_range, same_other in Hf. repeat rewrite andb_true_iff in Hf.
    rewrite !negb_true_iff, !eqb_true_iff, Z.leb_le, Z.ltb_lt in Hf. tauto.
  - destruct (ready s st), (closed st), (busy s st); done.
Qed.

Lemma leave_bits s st again st' :
  0 <= st < 32 -> ntt_event_leave_side st s = (again, st') ->
  0 <= st' < 32 /\ again = ready s st && negb (closed st) /\
  ready s st' = false /\ (busy s st' = again && busy s st) /\ closed st' = closed st /\
  ready (other s) st' = ready (other s) st /\ busy (other s) st' = busy (other s) st.
Proof.
  intros Hst Heq.
  pose proof (states_all (fun st => let '(again, st') := ntt_event_leave_side st s in
    in_range st' && eqb again (ready s st && negb (closed st)) &&
    negb (ready s st') && eqb (busy s st') (again && busy s st) && eqb (closed st') (closed st) &&
    same_other s st st') st ltac:(by destruct s) Hst) as Hf. cbn beta in Hf. rewrite Heq in Hf.
  unfold in_range, same_other in Hf. repeat rewrite andb_true_iff in Hf.
  rewrite !negb_true_iff, !eqb_true_iff, Z.leb_le, Z.ltb_lt in Hf. tauto.
Qed.

Lemma close_bits st :
  0 <= st < 32 ->
  0 <= Z.lor st NTT_EVENT_CLOSED < 32 /\ closed (Z.lor st NTT_EVENT_CLOSED) = true /\
  (Z.land st NTT_EVENT_CLOSED =? 0) = negb (closed st) /\
  forall s, ready s (Z.lor st NTT_EVENT_CLOSED) = ready s st /\
            busy s (Z.lor st NTT_EVENT_CLOSED) = busy s st.
Proof.
  intros Hst.
  pose proof (states_all (fun st => let st' := Z.lor st NTT_EVENT_CLOSED in
    in_range st' && closed st' && eqb (Z.land st NTT_EVENT_CLOSED =? 0) (negb (closed st)) &&
    same_other Readable st st' && same_other Writable st st') st ltac:(done) Hst) as Hf.
  cbn beta zeta in Hf. unfold in_range, same_other, other in Hf. repeat rewrite andb_true_iff in Hf.
  rewrite !eqb_true_iff, Z.leb_le, Z.ltb_lt in Hf.
  split_and!; try tauto. intros []; tauto.
Qed.

Lemma serial_order_elem sides s : s ∈ serial_order sides <-> has sides s = true.
Proof.
  unfold serial_order. rewrite elem_of_app.
  destruct (has sides Writable) eqn:Hw, (has sides Readable) eqn:Hr, s;
    rewrite ?Hw, ?Hr, ?list_elem_of_singleton, ?elem_of_nil; (split; [intros []|]); auto; done.
Qed.

(** Publishing a notification sets the readiness of its sides only. *)
Lemma publish_bits sides st :
  0 <= st < 32 ->
  let st' := Z.lor st (ntt_event_side_state sides NTT_EVENT_SIDE_READY) in
  0 <= st' < 32 /\ closed st' = closed st /\
  forall s, ready s st' = ready s st || has sides s /\ busy s st' = busy s st.
Proof.
  intros Hst. cbv zeta. unfold ntt_event_side_state.
  change (negb (Z.land sides NTT_INTEREST_READABLE =? 0)) with (has sides Readable).
  change (negb (Z.land sides NTT_INTEREST_WRITABLE =? 0)) with (has sides Writable).
  destruct (has sides Readable) eqn:Hr, (has sides Writable) eqn:Hw; cbv zeta;
    match goal with |- context [Z.lor st ?m] =>
      pose proof (states_all (fun st => let st' := Z.lor st m in
        in_range st' && eqb (closed st') (closed st) &&
        eqb (ready Readable st') (ready Readable st || has sides Readable) &&
        eqb (ready Writable st') (ready Writable st || has sides Writable) &&
        eqb (busy Readable st') (busy Readable st) && eqb (busy Writable st') (busy Writable st)) st
        ltac:(rewrite Hr, Hw; done) Hst) as Hf
    end;
    cbn beta zeta in Hf; unfold in_range in Hf; rewrite !andb_true_iff, !eqb_true_iff, Z.leb_le, Z.ltb_lt in Hf;
    (split_and!; try tauto); intros []; tauto.
Qed.

(** ** What a thread holds *)

(** References of the event. *)
Definition hold (t : thread) : nat :=
  match t with
  | Dispatch _ _ | Cancel _ | CancelledTask _ | Finish | Teardown
  | OpenEnter _ _ _ | OpenAdd _ _ => 0
  | PostPush _ _ _ | CloseDel _ | CloseRelease _ => 2
  | _ => 1
  end.

(** The side a thread or a queued task owns. *)
Definition owns (s : side) (t : thread) : nat :=
  match t with
  | Post s' _ _ | PostPush s' _ _ | Serve s' _ _ | ServeCall s' _ _ | ServeLeave s' _ _ | SideTask s' =>
      if decide (s' = s) then 1 else 0
  | _ => 0
  end.

(** Sides a thread is still going to deliver. *)
Definition pending (s : side) (t : thread) : nat :=
  match t with
  | Deliver _ k | Post _ _ k | PostPush _ _ k | Serve _ _ k | ServeCall _ _ k | ServeLeave _ _ k =>
      if decide (s ∈ k) then 1 else 0
  | _ => 0
  end.

(** Threads inside of the handler of a side. *)
Definition inside (s : side) (t : thread) : nat :=
  match t with
  | ServeCall s' _ _ | PlainCall s' _ _ => if decide (s' = s) then 1 else 0
  | _ => 0
  end.

(** The thread that reports the cancellation, and how far it has got. *)
Definition reporter (t : thread) : nat :=
  match t with CancelledTask _ | Finish | Teardown => 1 | _ => 0 end.

Definition stage (t : thread) : nat :=
  match t with CancelledTask Readable => 1 | Finish => 2 | _ => 0 end.

(** The thread that owes the removal from the epoll set. *)
Definition closing (t : thread) : nat := match t with CloseDel _ => 1 | _ => 0 end.

(** A thread that trusts its handle stands in the generation of the slot. *)
Definition current (sl : slot) (t : thread) : Prop :=
  match t with
  | Plain g' _ | PlainCall _ g' _ | Publish g' _ | Deliver g' _ | Post _ g' _ | PostPush _ g' _
  | Serve _ g' _ | ServeCall _ g' _ | ServeLeave _ g' _ | Close g' | CloseDel g' | CloseRelease g'
  | CancelRelease g' => g' = generation sl
  | OpenEnter g' _ _ | OpenAdd g' _ => g' < generation sl \/ (g' = generation sl /\ in_use sl = true)
  | _ => True
  end.

(** Calls that bypass the ownership of sides are for events that are not serial. *)
Definition plain_only (fl : Z) (t : thread) : Prop :=
  match t with
  | Plain _ _ | PlainCall _ _ _ => Z.land fl NTT_EVENT_SERIAL = 0
  | _ => True
  end.

(** The sides already reported when a thread is about to report or to finish. *)
Definition reported (sl : slot) (s : side) : Prop :=
  queue_of (ev sl) s <> NULL ->
  (match s with Readable => readable_cancelled | Writable => writable_cancelled end) (vtbl (ev sl)) = true ->
  Report s (generation sl) ∈ log sl.

Definition reports_done (sl : slot) (t : thread) : Prop :=
  match t with
  | CancelledTask Readable => reported sl Writable
  | Finish => reported sl Writable /\ reported sl Readable
  | _ => True
  end.

(** ** The order of what is observed *)
Definition entry_gen (x : entry) : Z :=
  match x with
  | Call _ g | Returned _ g | QueueAcquire _ g | WorkEnter g | EpollAdd g _ | EpollDel g
  | CancelReturned g | Report _ g | Given g | QueueRelease _ g | WorkLeave g => g
  end.

(** Handlers first, then the writable side, the readable side, the slot. *)
Definition rank (x : entry) : option nat :=
  match x with
  | Call _ _ | Returned _ _ => Some 0%nat
  | Report Writable _ => Some 1%nat
  | Report Readable _ => Some 2%nat
  | Given _ => Some 3%nat
  | QueueRelease Readable _ => Some 4%nat
  | QueueRelease Writable _ => Some 5%nat
  | WorkLeave _ => Some 6%nat
  | _ => None
  end.

(** [x] may come before [y]. *)
Definition may_precede (x y : entry) : Prop :=
  entry_gen x = entry_gen y -> forall r r', rank x = Some r -> rank y = Some r' ->
  (r < r')%nat \/ (r = 0%nat /\ r' = 0%nat).

Definition ordered (l : list entry) : Prop := List.ForallOrdPairs may_precede l.

Lemma ordered_app l1 l2 :
  ordered (l1 ++ l2) <-> ordered l1 /\ ordered l2 /\ forall x y, x ∈ l1 -> y ∈ l2 -> may_precede x y.
Proof.
  unfold ordered. induction l1 as [|x l1 IH]; simpl.
  - split; [|tauto]. intros Ho. split_and!; [constructor|done|by intros ? ? ?%elem_of_nil].
  - split.
    + intros Ho. inversion Ho as [|? ? Hx Hl]; subst. apply IH in Hl as (H1 & H2 & H3).
      rewrite List.Forall_forall in Hx. split_and!; [constructor| |]; [|done|done|].
      * apply List.Forall_forall. intros y Hy. apply Hx, List.in_or_app. by left.
      * intros z y [->|Hz]%elem_of_cons Hy; [|by apply H3]. apply Hx, List.in_or_app. right.
        by apply list_elem_of_In.
    + intros (H1 & H2 & H3). inversion H1 as [|? ? Hx Hl]; subst. constructor.
      * apply List.Forall_forall. intros y [Hy|Hy]%List.in_app_or.
        -- rewrite List.Forall_forall in Hx. by apply Hx.
        -- apply H3; [by left|by apply list_elem_of_In].
      * apply IH. split_and!; [done|done|]. intros z y Hz Hy. apply H3; [by right|done].
Qed.

(** The same on two positions of a log. *)
Lemma ordered_split l1 x l2 y l3 : ordered (l1 ++ x :: l2 ++ y :: l3) -> may_precede x y.
Proof.
  intros (_ & Ho & _)%ordered_app. inversion Ho as [|? ? Hx _]; subst.
  rewrite List.Forall_forall in Hx. apply Hx, List.in_or_app. right. by left.
Qed.

(** ** The invariant *)
(** Removals of the descriptor from the epoll set, per generation. *)
Definition dels (g : Z) (l : list entry) : nat := length (filter (fun x => x = EpollDel g) l).

Record slot_inv (sl : slot) (ts : list thread) : Prop := {
  i_state : 0 <= state (ev sl) < 32;
  i_refs : refs (ev sl) = Z.of_nat (total hold ts + Nat.b2n (in_use sl && negb (closed (state (ev sl)))));
  i_free : in_use sl = false -> refs (ev sl) = 0;
  i_reporter : total reporter ts = Nat.b2n (in_use sl && (refs (ev sl) =? 0));
  i_owns : forall s, total (owns s) ts = Nat.b2n (busy s (state (ev sl)));
  i_ready : forall s, ready s (state (ev sl)) = true -> closed (state (ev sl)) = false ->
    busy s (state (ev sl)) = true \/ (0 < total (pending s) ts)%nat;
  i_current : Forall (current sl) ts;
  i_plain : Forall (plain_only (flags (ev sl))) ts;
  i_done : Forall (reports_done sl) ts;
  i_log : ordered (log sl);
  i_past : forall x, x ∈ log sl -> entry_gen x <= generation sl;
  i_level : forall x, x ∈ log sl -> entry_gen x = generation sl ->
    in_use sl = true /\ forall r, rank x = Some r -> (r <= total stage ts)%nat;
  i_dels : in_use sl = true ->
    (dels (generation sl) (log sl) + total closing ts <= Nat.b2n (closed (state (ev sl))))%nat;
  i_once : forall g, (dels g (log sl) <= 1)%nat;
}.

Lemma slot_inv_perm sl ts ts' : ts ≡ₚ ts' -> slot_inv sl ts -> slot_inv sl ts'.
Proof.
  intros Hp []. split; intros; rewrite <- ?Hp; try done;
    rewrite <- ?(total_perm _ _ _ Hp); auto.
Qed.

(** ** Measures against each other *)
Lemma owns_hold s t : (owns s t <= hold t)%nat.
Proof. destruct t; simpl; repeat case_decide; lia. Qed.

Lemma closing_hold t : (closing t <= hold t)%nat.
Proof. destruct t; simpl; lia. Qed.

Lemma stage_reporter t : (stage t <= reporter t + reporter t)%nat.
Proof. destruct t as [| | | | | | | | | | | | | | | | | | |[]| | | |]; simpl; lia. Qed.

Lemma stage_total ts : total reporter ts = 0%nat -> total stage ts = 0%nat.
Proof.
  unfold total. induction ts as [|t ts IH]; cbn [sum_list_with]; [done|].
  intros Hz. pose proof (stage_reporter t). rewrite IH by lia. lia.
Qed.

(** A thread that holds a reference keeps the slot in use and nobody reports. *)
Lemma held_in_use sl ts :
  slot_inv sl ts -> (0 < total hold ts)%nat ->
  in_use sl = true /\ 0 < refs (ev sl) /\ total reporter ts = 0%nat /\ total stage ts = 0%nat.
Proof.
  intros Hinv Hh. pose proof (i_refs _ _ Hinv) as Hr. pose proof (i_free _ _ Hinv) as Hf.
  assert (0 < refs (ev sl)) by lia.
  assert (in_use sl = true) by (destruct (in_use sl); [done|specialize (Hf eq_refl); lia]).
  pose proof (i_reporter _ _ Hinv) as Hrep.
  assert ((refs (ev sl) =? 0) = false) as Hz by (apply Z.eqb_neq; lia).
  rewrite Hz, andb_false_r in Hrep. split_and!; [done|done|done|by apply stage_total].
Qed.

