(* ===== verification/EventSteps.v ===== *)
(** * Events: every step keeps the invariant *)

From stdpp Require Import base numbers list relations.
From Stdlib Require Import ZArith Lia.
From S2P Require Import Prelude.
From S2P Require Import Event.
From S2P Require Import EventInv.

#[local] Open Scope Z_scope.

(** Evaluates the measures of the threads a step removes and adds. *)
Ltac measures :=
  unfold total in *; cbn [sum_list_with app hold owns pending reporter stage closing] in *.

(** ** Threads change, the slot does not *)
Lemma inv_replace sl t ts rest :
  slot_inv sl (t :: rest) ->
  total hold ts = hold t -> total reporter ts = reporter t -> total stage ts = stage t ->
  total closing ts = closing t ->
  (forall s, total (owns s) ts = owns s t) -> (forall s, (pending s t <= total (pending s) ts)%nat) ->
  Forall (current sl) ts -> Forall (plain_only (flags (ev sl))) ts -> Forall (reports_done sl) ts ->
  slot_inv sl (ts ++ rest).
Proof.
  intros [] Hh Hr Hs Hc Ho Hp Hcu Hpl Hd.
  assert (Ht : forall f, total f (ts ++ rest) = (total f ts + total f rest)%nat)
    by (intros f; apply total_app).
  assert (Ht' : forall f, total f (t :: rest) = (f t + total f rest)%nat) by done.
  split; rewrite ?Ht; rewrite ?Ht' in *; rewrite ?Hh, ?Hr, ?Hs, ?Hc; try done.
  - intros s. rewrite Ht, Ho. by rewrite <- Ht'.
  - intros s H1 H2. rewrite Ht. specialize (Hp s). destruct (i_ready s H1 H2) as [|H3]; [by left|right].
    rewrite Ht' in H3. lia.
  - apply Forall_app. split; [done|]. by inversion i_current.
  - apply Forall_app. split; [done|]. by inversion i_plain.
  - apply Forall_app. split; [done|]. by inversion i_done.
Qed.

(** ** An observation is added *)
Lemma reports_done_emit sl l t : reports_done sl t -> reports_done (emit l sl) t.
Proof.
  assert (Hr : forall s, reported sl s -> reported (emit l sl) s).
  { intros s Hr H1 H2. simpl. apply elem_of_app. left. by apply Hr. }
  destruct t as [| | | | | | | | | | | | | | | | | | |[]| | | |]; simpl; auto. intros []; auto.
Qed.

Lemma dels_app g l1 l2 : dels g (l1 ++ l2) = (dels g l1 + dels g l2)%nat.
Proof. unfold dels. by rewrite filter_app, length_app. Qed.

Lemma inv_emit sl ts l :
  slot_inv sl ts ->
  (forall x, x ∈ l -> entry_gen x <= generation sl /\
     (entry_gen x = generation sl -> in_use sl = true /\ forall r, rank x = Some r -> r = 0%nat) /\
     (entry_gen x < generation sl -> rank x = None) /\ forall g, x <> EpollDel g) ->
  (forall x r, x ∈ l -> rank x = Some r -> total stage ts = 0%nat) -> ordered l ->
  slot_inv (emit l sl) ts.
Proof.
  intros [] Hl Hst Ho.
  assert (Hd : forall g, dels g l = 0%nat).
  { intros g. unfold dels. destruct (filter _ l) as [|x k] eqn:Hf; [done|].
    assert (Hx : x ∈ filter (fun x => x = EpollDel g) l) by (rewrite Hf; by left).
    apply list_elem_of_filter in Hx as [-> Hx]. destruct (Hl _ Hx) as (_ & _ & _ & Hne). by destruct (Hne g). }
  split; simpl; try done.
  - eapply Forall_impl; [done|]. intros t. by apply reports_done_emit.
  - apply ordered_app. split_and!; [done|done|]. intros x y Hx Hy Heq r r' Hr Hr'.
    destruct (Hl y Hy) as (Hle & Hcur & Hold & _). destruct (Z.lt_total (entry_gen y) (generation sl)) as [|[He|]];
      [rewrite Hold in Hr' by done; done| |lia].
    destruct (Hcur He) as [_ Hz]. specialize (Hz r' Hr'). subst r'. right.
    destruct (i_level x Hx) as [_ Hlev]; [congruence|]. specialize (Hlev r Hr).
    rewrite (Hst y 0%nat Hy Hr') in Hlev. lia.
  - intros x [Hx|Hx]%elem_of_app; [by apply i_past|by apply Hl].
  - intros x [Hx|Hx]%elem_of_app Hg; [by apply i_level|].
    destruct (Hl x Hx) as (_ & Hcur & _). destruct (Hcur Hg) as [Hu Hz]. split; [done|].
    intros r Hr. rewrite (Hz r Hr). lia.
  - intros Hu. rewrite dels_app, Hd. specialize (i_dels Hu). lia.
  - intros g. rewrite dels_app, Hd. specialize (i_once g). lia.
Qed.

(** ** The reference count *)
Lemma closed_refs sl e' :
  state e' = state (ev sl) -> closed (state (ev (set_ev e' sl))) = closed (state (ev sl)).
Proof. simpl. by intros ->. Qed.

(** Taking one more reference, which a live event still allows. *)
Lemma inv_acquire sl t t' rest :
  slot_inv sl (t :: rest) -> refs (ev sl) <> 0 -> hold t' = S (hold t) ->
  reporter t = 0%nat -> reporter t' = 0%nat -> stage t = 0%nat -> stage t' = 0%nat ->
  closing t = 0%nat -> closing t' = 0%nat -> (forall s, owns s t' = owns s t) ->
  (forall s, pending s t' = pending s t) -> current sl t' -> plain_only (flags (ev sl)) t' ->
  reports_done sl t' ->
  slot_inv (set_ev (with_refs (refs (ev sl) + 1) (ev sl)) sl) (t' :: rest).
Proof.
  intros [] Hne Hh Hr Hr' Hs Hs' Hc Hc' Ho Hp Hcu Hpl Hd.
  assert (Ht : forall f t, total f (t :: rest) = (f t + total f rest)%nat) by done.
  assert (Hpos : refs (ev sl) > 0) by (rewrite i_refs in *; lia).
  split; simpl; rewrite ?Ht in *; rewrite ?Hr', ?Hs', ?Hc', ?Hr, ?Hs, ?Hc in *; try done.
  - rewrite i_refs, Hh. lia.
  - intros Hu. specialize (i_free Hu). lia.
  - rewrite i_reporter. f_equal. f_equal. rewrite (proj2 (Z.eqb_neq _ _)), (proj2 (Z.eqb_neq _ _)); [done|lia|lia].
  - intros s. rewrite <- i_owns, !Ht. by rewrite Ho.
  - intros s H1 H2. destruct (i_ready s H1 H2) as [|H3]; [by left|right]. rewrite Ht in *. by rewrite Hp.
  - inversion i_current; subst. by constructor.
  - inversion i_plain; subst. by constructor.
  - inversion i_done; subst. by constructor.
Qed.

(** Dropping one reference; the last one hands over to a reporter. *)
Lemma inv_release sl t keep rest sl' ts :
  slot_inv sl (t :: rest) -> hold t = S (total hold keep) ->
  reporter t = 0%nat -> total reporter keep = 0%nat -> stage t = 0%nat -> total stage keep = 0%nat ->
  closing t = 0%nat -> total closing keep = 0%nat ->
  (forall s, owns s t = 0%nat) -> (forall s, total (owns s) keep = 0%nat) ->
  (forall s, pending s t = 0%nat) -> Forall (current sl) keep ->
  Forall (plain_only (flags (ev sl))) keep -> Forall (reports_done sl) keep ->
  ntt_event_release sl = (sl', ts) -> slot_inv sl' (keep ++ ts ++ rest).
Proof.
  intros Hinv Hh Hr Hr' Hs Hs' Hc Hc' Ho Ho' Hp Hcu Hpl Hd Heq.
  destruct (held_in_use sl (t :: rest) Hinv) as (Hu & Hpos & Hrep & _); [unfold total; simpl; lia|].
  destruct Hinv. assert (Ht : forall f, total f (t :: rest) = (f t + total f rest)%nat) by done.
  assert (Ha : forall f, total f (keep ++ ts ++ rest) = (total f keep + (total f ts + total f rest))%nat)
    by (intros f; by rewrite !total_app).
  rewrite Ht in Hrep.
  assert (Hts : sl' = set_ev (with_refs (refs (ev sl) - 1) (ev sl)) sl /\
    total reporter ts = Nat.b2n (refs (ev sl) =? 1) /\ total hold ts = 0%nat /\ (total stage ts <= 1)%nat /\
    total closing ts = 0%nat /\ (forall s, total (owns s) ts = 0%nat) /\
    Forall (current sl') ts /\ Forall (plain_only (flags (ev sl'))) ts /\ Forall (reports_done sl') ts).
  { unfold ntt_event_release in Heq. destruct (Z.eqb_spec (refs (ev sl)) 1); simpl in Heq.
    - destruct (Z.eqb_spec (queue0 (ev sl)) NULL), (Z.eqb_spec (queue1 (ev sl)) NULL); simpl in Heq;
        injection Heq as <- <-; unfold total; simpl; split_and!; try done; try lia;
        try (repeat constructor); simpl; try done; intros Hq; simpl in Hq; congruence.
    - injection Heq as <- <-. unfold total; simpl. split_and!; try done; try lia; constructor. }
  destruct Hts as (-> & Htr & Hth & Hts & Htc & Hto & Htcu & Htpl & Htd).
  split; simpl; rewrite ?Ha; rewrite ?Ht in *; rewrite ?Hth, ?Htc, ?Hr', ?Hc', ?Hr, ?Hs, ?Hc in *; try done.
  - rewrite i_refs, Hh. lia.
  - intros Hf. congruence.
  - rewrite Htr, Hu. simpl. destruct (Z.eqb_spec (refs (ev sl)) 1), (Z.eqb_spec (refs (ev sl) - 1) 0); simpl; lia.
  - intros s. rewrite Ha, Ho', Hto, <- i_owns, Ht, Ho. done.
  - intros s H1 H2. destruct (i_ready s H1 H2) as [|H3]; [by left|right]. rewrite Ha.
    rewrite Ht, Hp in H3. lia.
  - inversion i_current; subst. apply Forall_app. split; [done|]. by apply Forall_app.
  - inversion i_plain; subst. apply Forall_app. split; [done|]. by apply Forall_app.
  - inversion i_done; subst. apply Forall_app. split; [done|]. by apply Forall_app.
  - intros x Hx Hg. destruct (i_level x Hx Hg) as [_ Hlev]. split; [done|]. intros r Hrk.
    specialize (Hlev r Hrk). lia.
Qed.

(** ** The state word *)
Lemma inv_state sl t ts rest st' :
  slot_inv sl (t :: rest) -> 0 <= st' < 32 ->
  (total hold ts + Nat.b2n (in_use sl && negb (closed st')) =
   hold t + Nat.b2n (in_use sl && negb (closed (state (ev sl)))))%nat ->
  total reporter ts = reporter t -> total stage ts = stage t ->
  (total closing ts + Nat.b2n (closed (state (ev sl))) <= closing t + Nat.b2n (closed st'))%nat ->
  (forall s, (total (owns s) ts + Nat.b2n (busy s (state (ev sl))) = owns s t + Nat.b2n (busy s st'))%nat) ->
  (forall s, ready s st' = true -> closed st' = false ->
     busy s st' = true \/ (0 < total (pending s) ts)%nat \/
     (ready s (state (ev sl)) = true /\ closed (state (ev sl)) = false /\
      (busy s (state (ev sl)) = true -> busy s st' = true) /\
      (pending s t <= total (pending s) ts)%nat)) ->
  Forall (current sl) ts -> Forall (plain_only (flags (ev sl))) ts -> Forall (reports_done sl) ts ->
  slot_inv (set_ev (with_state st' (ev sl)) sl) (ts ++ rest).
Proof.
  intros [] Hst Hh Hr Hs Hc Ho Hrd Hcu Hpl Hd.
  assert (Ht : forall f, total f (ts ++ rest) = (total f ts + total f rest)%nat)
    by (intros f; apply total_app).
  assert (Ht' : forall f, total f (t :: rest) = (f t + total f rest)%nat) by done.
  split; simpl; rewrite ?Ht; rewrite ?Ht' in *; rewrite ?Hr, ?Hs; try done.
  - rewrite i_refs. lia.
  - intros s. specialize (Ho s). specialize (i_owns s). rewrite Ht, Ht' in *. lia.
  - intros s H1 H2. rewrite Ht. destruct (Hrd s H1 H2) as [|[|(Hr1 & Hc1 & Hb1 & Hp1)]]; [by left|right; lia|].
    destruct (i_ready s Hr1 Hc1) as [Hb|Hp]; [by left; apply Hb1|right]. rewrite Ht' in Hp. lia.
  - inversion i_current; subst. by apply Forall_app.
  - inversion i_plain; subst. by apply Forall_app.
  - inversion i_done; subst. by apply Forall_app.
  - intros Hu. specialize (i_dels Hu). rewrite ?Ht' in *. lia.
Qed.

Lemma set_state_same sl : set_ev (with_state (state (ev sl)) (ev sl)) sl = sl.
Proof. by destruct sl as [[]]. Qed.

Lemma publish_inv sl g sides rest :
  slot_inv sl (Publish g sides :: rest) ->
  slot_inv (set_ev (with_state
    (Z.lor (state (ev sl)) (ntt_event_side_state sides NTT_EVENT_SIDE_READY)) (ev sl)) sl)
    (Deliver g (serial_order sides) :: rest).
Proof.
  intros Hinv. destruct (publish_bits sides _ (i_state _ _ Hinv)) as (Hst & Hcl & Hb).
  pose proof (Forall_inv (i_current _ _ Hinv)) as Hcur. simpl in Hcur.
  apply (inv_state sl _ [Deliver g (serial_order sides)] rest _ Hinv Hst); rewrite ?Hcl;
    try done; try (by repeat constructor).
  - intros s. destruct (Hb s) as [_ ->]. unfold total. simpl. lia.
  - intros s Hr Hc. destruct (Hb s) as [Hr' Hb']. rewrite Hr' in Hr.
    destruct (has sides s) eqn:Hs.
    + right. left. unfold total. simpl.
      rewrite decide_True by (by apply serial_order_elem). lia.
    + rewrite orb_false_r in Hr. right. right. rewrite Hb'. split_and!; [done|done|done|simpl; lia].
Qed.

Lemma deliver_inv sl g k rest sl' ts :
  slot_inv sl (Deliver g k :: rest) -> ntt_event_deliver_side sl g k = (sl', ts) ->
  slot_inv sl' (ts ++ rest).
Proof.
  intros Hinv Heq. pose proof (i_state _ _ Hinv) as Hst.
  pose proof (Forall_inv (i_current _ _ Hinv)) as Hcur. simpl in Hcur.
  destruct k as [|s k]; simpl in Heq.
  { injection Heq as <- <-. apply (inv_replace sl (Deliver g [])); try done; by repeat constructor. }
  pose proof (claim_bits s _ Hst) as Hb. destruct (ntt_event_claim_side _ s) as [st'|];
    injection Heq as <- <-.
  - destruct Hb as (Hst' & Hr & Hbz & Hc & Hr' & Hb' & Hc' & Hro & Hbo).
    apply (inv_state sl _ _ rest st' Hinv Hst'); rewrite ?Hc, ?Hc'; try (by case_match);
      try (by repeat constructor; case_match).
    + intros s'. destruct (decide (s' = s)) as [->|Hne].
      * rewrite Hbz, Hb'. unfold total. case_match; simpl; by rewrite decide_True.
      * assert (s' = other s) as -> by (by destruct s, s').
        rewrite Hbo. unfold total. case_match; simpl; by rewrite decide_False by (by destruct s).
    + intros s' Hrs Hcs. destruct (decide (s' = s)) as [->|Hne]; [congruence|].
      assert (s' = other s) as -> by (by destruct s, s'). rewrite Hro in Hrs. right. right.
      split_and!; [done|done|by rewrite Hbo|]. unfold total. case_match; simpl;
        (destruct (decide (other s ∈ s :: k)) as [[Heq|Hin]%elem_of_cons|];
          [by destruct s|rewrite decide_True by done; lia|lia]).
  - rewrite <- (set_state_same sl).
    apply (inv_state sl _ [Deliver g k] rest _ Hinv Hst); try done; try (by repeat constructor).
    intros s' Hrs Hcs. destruct (decide (s' = s)) as [->|Hne]; [left; by apply Hb|]. right. right.
    split_and!; [done|done|done|]. unfold total. simpl.
    destruct (decide (s' ∈ s :: k)) as [[->|Hin]%elem_of_cons|]; [done|rewrite decide_True by done; lia|lia].
Qed.

Lemma leave_inv sl s g k rest sl' ts :
  slot_inv sl (ServeLeave s g k :: rest) -> serve_leave sl s g k = (sl', ts) ->
  slot_inv sl' (ts ++ rest).
Proof.
  intros Hinv Heq. pose proof (i_state _ _ Hinv) as Hst. unfold serve_leave in Heq.
  pose proof (Forall_inv (i_current _ _ Hinv)) as Hcur. simpl in Hcur.
  destruct (ntt_event_leave_side _ s) as [again st'] eqn:Hlv. injection Heq as <- <-.
  destruct (leave_bits s _ _ _ Hst Hlv) as (Hst' & Hag & Hr & Hb & Hc & Hro & Hbo).
  assert (Hbusy : busy s (state (ev sl)) = true).
  { pose proof (i_owns _ _ Hinv s) as Ho. unfold total in Ho. simpl in Ho.
    rewrite decide_True in Ho by done. destruct (busy s (state (ev sl))); [done|simpl in Ho; lia]. }
  apply (inv_state sl _ _ rest st' Hinv Hst'); rewrite ?Hc; try (by case_match);
    try (by repeat constructor; case_match).
  - intros s'. destruct (decide (s' = s)) as [->|Hne].
    + rewrite Hb, Hbusy. unfold total. destruct again; simpl; by rewrite !decide_True.
    + assert (s' = other s) as -> by (by destruct s, s'). rewrite Hbo. unfold total.
      destruct again; simpl; by rewrite ?decide_False by (by destruct s).
  - intros s' Hrs Hcs. destruct (decide (s' = s)) as [->|Hne]; [congruence|].
    assert (s' = other s) as -> by (by destruct s, s'). rewrite Hro in Hrs. right. right.
    split_and!; [done|done|by rewrite Hbo|]. unfold total. destruct again; simpl; lia.
Qed.

Lemma close_inv sl g rest sl' ts :
  slot_inv sl (Close g :: rest) -> cancel_close sl g = (sl', ts) -> slot_inv sl' (ts ++ rest).
Proof.
  intros Hinv Heq. pose proof (i_state _ _ Hinv) as Hst. unfold cancel_close in Heq.
  destruct (held_in_use sl _ Hinv) as (Hu & _); [unfold total; simpl; lia|].
  pose proof (Forall_inv (i_current _ _ Hinv)) as Hcur. simpl in Hcur.
  destruct (close_bits _ Hst) as (Hst' & Hc & Hz & Hb). rewrite Hz in Heq. injection Heq as <- <-.
  apply (inv_state sl _ _ rest _ Hinv Hst'); rewrite ?Hc, ?Hu.
  1,4: unfold total; destruct (closed (state (ev sl))); simpl; lia.
  1,2: by destruct (closed (state (ev sl))).
  3-5: by repeat constructor; destruct (closed (state (ev sl))).
  - intros s. destruct (Hb s) as [_ ->]. unfold total. destruct (closed (state (ev sl))); simpl; lia.
  - done.
Qed.

(** ** Leaving the epoll set *)
Lemma del_inv sl g rest :
  slot_inv sl (CloseDel g :: rest) -> slot_inv (emit [EpollDel g] sl) (CloseRelease g :: rest).
Proof.
  intros Hinv. destruct (held_in_use sl _ Hinv) as (Hu & _); [unfold total; simpl; lia|].
  destruct Hinv. pose proof (Forall_inv i_current) as Hcur. simpl in Hcur. subst g.
  assert (Hd : forall g, dels g [EpollDel (generation sl)] = if decide (g = generation sl) then 1%nat else 0%nat).
  { intros g. unfold dels. rewrite filter_cons, filter_nil.
    destruct (decide (EpollDel (generation sl) = EpollDel g)), (decide (g = generation sl));
      simplify_eq; done. }
  specialize (i_dels Hu). unfold total in i_dels. cbn [sum_list_with closing] in i_dels.
  assert (Nat.b2n (closed (state (ev sl))) <= 1)%nat by (destruct (closed (state (ev sl))); simpl; lia).
  split; simpl; try done.
  - inversion i_current; subst. by constructor.
  - inversion i_plain; subst. by constructor.
  - inversion i_done; subst. constructor; [done|]. eapply Forall_impl; [done|]. intros t. apply reports_done_emit.
  - apply ordered_app. split_and!; [done|by repeat constructor|]. intros x y _ ->%list_elem_of_singleton.
    intros _ r r' _ Hr'. done.
  - intros x [Hx| ->%list_elem_of_singleton]%elem_of_app; [by apply i_past|simpl; lia].
  - intros x [Hx| ->%list_elem_of_singleton]%elem_of_app Hg; [by apply i_level|]. by split.
  - intros _. rewrite dels_app, Hd, decide_True by done. unfold total. simpl. lia.
  - intros g. rewrite dels_app, Hd. specialize (i_once g). case_decide; [subst; lia|lia].
Qed.

(** ** Reporting *)

(** A thread that holds nothing and reports nothing fits into any slot. *)
Lemma idle_fits sl sl' t :
  hold t = 0%nat -> reporter t = 0%nat -> current sl t -> generation sl <= generation sl' ->
  (in_use sl = true -> generation sl < generation sl') ->
  current sl' t /\ plain_only (flags (ev sl')) t /\ reports_done sl' t.
Proof.
  destruct t; simpl; intros; try lia; try done; split_and!; try done;
    destruct (in_use sl); intuition (try lia; try done).
Qed.

Lemma idle_all sl sl' ts :
  total hold ts = 0%nat -> total reporter ts = 0%nat -> Forall (current sl) ts ->
  generation sl <= generation sl' -> (in_use sl = true -> generation sl < generation sl') ->
  Forall (current sl') ts /\ Forall (plain_only (flags (ev sl'))) ts /\ Forall (reports_done sl') ts.
Proof.
  intros Hh%total_zero Hr%total_zero Hc Hg Hu.
  rewrite Forall_forall in Hh, Hr, Hc.
  split_and!; apply Forall_forall; intros t Ht; apply (idle_fits sl sl' t); auto.
Qed.

(** The reporter is alone: no references, no other reporter. *)
Lemma reporter_alone sl t rest :
  slot_inv sl (t :: rest) -> reporter t = 1%nat ->
  in_use sl = true /\ refs (ev sl) = 0 /\ total hold rest = 0%nat /\ total reporter rest = 0%nat /\
  total stage rest = 0%nat /\ closed (state (ev sl)) = true.
Proof.
  intros [] Hr. unfold total in i_reporter, i_refs. cbn [sum_list_with] in i_reporter, i_refs.
  destruct (in_use sl); [|simpl in i_reporter; lia]. simpl in i_reporter.
  destruct (Z.eqb_spec (refs (ev sl)) 0) as [Hz|]; [|simpl in i_reporter; lia]. simpl in i_reporter.
  destruct (closed (state (ev sl))); [|simpl in i_refs; lia].
  unfold total. split_and!; try done; try lia. apply stage_total. unfold total. lia.
Qed.

Lemma give_inv sl t rest l :
  slot_inv sl (t :: rest) -> reporter t = 1%nat -> ordered l ->
  (forall x, x ∈ l -> entry_gen x = generation sl /\ (exists r, rank x = Some r /\ (stage t < r)%nat)) ->
  slot_inv (mk_slot (ev sl) (generation sl + 1) false (log sl ++ l)) rest.
Proof.
  intros Hinv Hr Ho Hl.
  destruct (reporter_alone sl t rest Hinv Hr) as (Hu & Hz & Hh & Hrep & Hst & Hcl). destruct Hinv.
  assert (Hlev : total stage (t :: rest) = stage t) by (unfold total in *; cbn [sum_list_with]; lia).
  assert (Ht : hold t = 0%nat /\ (forall s, owns s t = 0%nat) /\ (forall s, pending s t = 0%nat))
    by (by destruct t).
  destruct Ht as (_ & Hot & Hpt).
  destruct (idle_all sl (mk_slot (ev sl) (generation sl + 1) false (log sl ++ l)) rest)
    as (Hc & Hp & Hd); simpl; [done|done|by inversion i_current|lia|lia|].
  assert (Hdel : forall g, dels g l = 0%nat).
  { intros g. unfold dels. destruct (filter _ l) as [|x k] eqn:Hf; [done|].
    assert (Hx : x ∈ filter (fun x => x = EpollDel g) l) by (rewrite Hf; by left).
    apply list_elem_of_filter in Hx as [-> Hx]. by destruct (Hl _ Hx) as (_ & r & ? & _). }
  split; simpl; try done.
  - lia.
  - intros s. rewrite <- i_owns. unfold total. cbn [sum_list_with]. by rewrite Hot.
  - intros s H1 H2. congruence.
  - apply ordered_app. split_and!; [done|done|]. intros x y Hx Hy He r r' Hrx Hry. left.
    destruct (Hl y Hy) as (Hg & r2 & Hr2 & Hlt). simplify_eq.
    destruct (i_level x Hx) as [_ Hle]; [congruence|]. specialize (Hle r Hrx). lia.
  - intros x [Hx|Hx]%elem_of_app; [specialize (i_past x Hx); lia|]. destruct (Hl x Hx) as [-> _]. lia.
  - intros x [Hx|Hx]%elem_of_app Hg; [specialize (i_past x Hx); lia|]. destruct (Hl x Hx) as [? _]. lia.
  - intros g. rewrite dels_app, Hdel. specialize (i_once g). lia.
Qed.

(** Solves the two conditions of [give_inv] for an explicit list. *)
Ltac solve_ordered :=
  unfold ordered; simpl;
  repeat first [apply List.FOP_nil | apply List.FOP_cons | apply List.Forall_nil | apply List.Forall_cons];
  intros _ r r' Hr Hr'; simplify_eq/=; left; lia.

Ltac solve_ranks Hx :=
  simpl in Hx; rewrite ?elem_of_cons, ?elem_of_nil in Hx;
  destruct_or? Hx; try done; subst; (split; [done|eexists; split; [done|simpl; lia]]).

Lemma finish_inv sl rest : slot_inv sl (Finish :: rest) -> slot_inv (ntt_event_finish sl) rest.
Proof.
  intros Hinv. unfold ntt_event_finish.
  apply (give_inv sl Finish rest); [done|done| |intros x Hx];
    destruct (negb (queue0 (ev sl) =? NULL)), (negb (queue1 (ev sl) =? NULL)),
      (negb (Z.land (flags (ev sl)) NTT_EVENT_WORK =? 0)); solve [solve_ordered | solve_ranks Hx].
Qed.

Lemma teardown_inv sl rest : slot_inv sl (Teardown :: rest) -> slot_inv (ntt_event_teardown sl) rest.
Proof.
  intros Hinv. unfold ntt_event_teardown, ntt_event_report_cancelled.
  apply (give_inv sl Teardown rest); [done|done| |intros x Hx];
    destruct (interest (ev sl) =? NTT_INTEREST_READABLE), (readable_cancelled (vtbl (ev sl))),
      (writable_cancelled (vtbl (ev sl))),
      (negb (Z.land (flags (ev sl)) NTT_EVENT_WORK =? 0)); solve [solve_ordered | solve_ranks Hx].
Qed.

Lemma cancelled_inv sl s rest sl' ts :
  slot_inv sl (CancelledTask s :: rest) -> ntt_event_cancelled_task_svc s sl = (sl', ts) ->
  slot_inv sl' (ts ++ rest).
Proof.
  intros Hinv Heq.
  destruct (reporter_alone sl _ rest Hinv eq_refl) as (Hu & Hz & Hh & Hrep & Hst & Hcl). destruct Hinv.
  set (l := ntt_event_report_cancelled (ev sl) (generation sl) s) in *.
  set (r := match s with Writable => 1%nat | Readable => 2%nat end).
  assert (Hl : l = [] \/ l = [Report s (generation sl)])
    by (unfold l, ntt_event_report_cancelled; repeat case_match; auto).
  assert (Hrl : forall x, x ∈ l -> entry_gen x = generation sl /\ rank x = Some r).
  { intros x Hx. destruct Hl as [->| ->]; [by apply elem_of_nil in Hx|].
    apply list_elem_of_singleton in Hx as ->. by destruct s. }
  assert (Hcb : (match s with Readable => readable_cancelled | Writable => writable_cancelled end)
    (vtbl (ev sl)) = true -> l = [Report s (generation sl)]).
  { intros Hc. unfold l, ntt_event_report_cancelled. by destruct s; simpl; rewrite Hc. }
  assert (exists t', sl' = emit l sl /\ ts = [t'] /\ reporter t' = 1%nat /\ (r <= stage t')%nat /\
    hold t' = 0%nat /\ closing t' = 0%nat /\ (forall s, owns s t' = 0%nat) /\ current sl' t' /\
    plain_only (flags (ev sl)) t' /\ reports_done sl' t')
    as (t' & -> & -> & Hr1 & Hr2 & Hr3 & Hr4 & Hr5 & Hr6 & Hr7 & Hr8).
  { pose proof (Forall_inv i_done) as Hdone. unfold ntt_event_cancelled_task_svc in Heq. fold l in Heq.
    assert (Hrep' : reported (emit l sl) s).
    { intros _ Hc. simpl in *. rewrite (Hcb Hc). apply elem_of_app. right. by left. }
    destruct s; simpl in Heq.
    - injection Heq as <- <-. exists Finish. split_and!; try done.
      split; [by apply (reports_done_emit sl l (CancelledTask Readable))|done].
    - destruct (Z.eqb_spec (queue0 (ev sl)) NULL) as [Hq|Hq]; simpl in Heq; injection Heq as <- <-.
      + exists Finish. split_and!; try done; [simpl; lia|]. split; [done|]. by intros Hq'.
      + exists (CancelledTask Readable). by split_and!. }
  assert (Hdel : forall g, dels g l = 0%nat) by (intros g; by destruct Hl as [->| ->]).
  unfold total in *. cbn [sum_list_with app hold owns pending reporter stage closing] in *.
  split; simpl; unfold total; cbn [sum_list_with]; rewrite ?Hr1, ?Hr3, ?Hr4; try done.
  - intros s'. by rewrite Hr5, <- i_owns.
  - intros s' H1 H2. congruence.
  - inversion i_current; subst. by constructor.
  - inversion i_plain; subst. by constructor.
  - inversion i_done; subst. constructor; [done|]. eapply Forall_impl; [done|]. intros t. apply reports_done_emit.
  - apply ordered_app. split_and!; [done|destruct Hl as [->| ->]; by repeat constructor|].
    intros x y Hx Hy He rx ry Hrx Hry. left. destruct (Hrl y Hy) as [Hg Hy']. assert (ry = r) as -> by congruence.
    destruct (i_level x Hx) as [_ Hle]; [congruence|]. specialize (Hle rx Hrx). unfold r. destruct s; lia.
  - intros x [Hx|Hx]%elem_of_app; [by apply i_past|]. destruct (Hrl x Hx) as [-> _]. lia.
  - intros x [Hx|Hx]%elem_of_app Hg; (split; [done|]); intros rx Hrx.
    + destruct (i_level x Hx Hg) as [_ Hle]. specialize (Hle rx Hrx). unfold r in Hr2. destruct s; lia.
    + destruct (Hrl x Hx) as [_ Hr]. assert (rx = r) as -> by congruence. lia.
  - intros _. rewrite dels_app, Hdel. specialize (i_dels Hu). lia.
  - intros g. rewrite dels_app, Hdel. specialize (i_once g). lia.
Qed.

(** ** Opening *)
Lemma open_inv sl ts p events fl sl' t :
  slot_inv sl ts -> in_use sl = false -> ntt_event_open sl p events fl = (sl', t) ->
  slot_inv sl' (t :: ts).
Proof.
  intros Hinv Hu Heq. unfold ntt_event_open in Heq. injection Heq as <- <-. destruct Hinv.
  rewrite Hu in *. simpl in *. specialize (i_free eq_refl).
  assert (Hh : total hold ts = 0%nat) by lia.
  set (l := _ ++ (if negb (write_queue p =? NULL) then _ else _)).
  assert (Hl : forall x, x ∈ l -> entry_gen x = generation sl /\ rank x = None /\ forall g, x <> EpollDel g).
  { intros x Hx. unfold l in Hx. apply elem_of_app in Hx as [Hx|Hx]; case_match;
      rewrite ?list_elem_of_singleton, ?elem_of_nil in Hx; by subst. }
  assert (Hdel : forall g, dels g l = 0%nat).
  { intros g. unfold dels. destruct (filter _ l) as [|x k] eqn:Hf; [done|].
    assert (Hx : x ∈ filter (fun x => x = EpollDel g) l) by (rewrite Hf; by left).
    apply list_elem_of_filter in Hx as [-> Hx]. destruct (Hl _ Hx) as (_ & _ & Hne). by destruct (Hne g). }
  set (sl' := mk_slot _ _ _ _).
  destruct (idle_all sl sl' ts) as (Hc & Hp & Hd); [done|done|done|done|congruence|].
  assert (Ho : forall s, total (owns s) ts = 0%nat).
  { intros s. pose proof (total_le (owns s) hold ts (owns_hold s)). lia. }
  assert (Hcl : total closing ts = 0%nat).
  { pose proof (total_le closing hold ts closing_hold). lia. }
  assert (Hfresh : dels (generation sl) (log sl) = 0%nat).
  { unfold dels. destruct (filter _ (log sl)) as [|x k] eqn:Hf; [done|].
    assert (Hx : x ∈ filter (fun x => x = EpollDel (generation sl)) (log sl)) by (rewrite Hf; by left).
    apply list_elem_of_filter in Hx as [-> Hx]. by destruct (i_level _ Hx eq_refl). }
  unfold total in *. split; simpl; unfold total; cbn [sum_list_with hold owns reporter stage closing]; try done.
  - lia.
  - intros []; simpl; apply Ho.
  - by intros [].
  - constructor; [right; done|done].
  - by constructor.
  - by constructor.
  - apply ordered_app. split_and!; [done| |].
    + unfold l. repeat case_match; simpl; by repeat constructor.
    + intros x y _ Hy _ r r' _ Hr'. destruct (Hl y Hy) as (_ & Hn & _). congruence.
  - intros x [Hx|Hx]%elem_of_app; [by apply i_past|]. destruct (Hl x Hx) as [-> _]. lia.
  - intros x [Hx|Hx]%elem_of_app Hg; [by destruct (i_level x Hx Hg)|]. split; [done|].
    intros r Hr. destruct (Hl x Hx) as (_ & Hn & _). congruence.
  - intros _. rewrite dels_app, Hdel, Hfresh. lia.
  - intros g. rewrite dels_app, Hdel. specialize (i_once g). lia.
Qed.

(** ** One step of a thread *)
Lemma call_inv sl t t' rest x s g :
  slot_inv sl (t :: rest) -> (x = Call s g \/ x = Returned s g) -> g = generation sl ->
  hold t = 1%nat -> hold t' = 1%nat -> reporter t' = 0%nat -> reporter t = 0%nat ->
  stage t = 0%nat -> stage t' = 0%nat -> closing t = 0%nat -> closing t' = 0%nat ->
  (forall s, owns s t' = owns s t) -> (forall s, pending s t' = pending s t) ->
  current sl t' -> plain_only (flags (ev sl)) t' -> reports_done sl t' ->
  slot_inv (emit [x] sl) (t' :: rest).
Proof.
  intros Hinv Hx -> Hh Hh' Hr' Hr Hs Hs' Hc Hc' Ho Hp Hcu Hpl Hd.
  destruct (held_in_use sl _ Hinv) as (Hu & _ & _ & Hst); [unfold total; simpl; lia|].
  assert (Hinv' : slot_inv sl ([t'] ++ rest)).
  { apply (inv_replace sl t [t'] rest Hinv); unfold total; cbn [sum_list_with];
      try lia; try (by repeat constructor); intros s'; rewrite ?Ho, ?Hp; lia. }
  apply inv_emit; [done| | |by repeat constructor].
  - intros y ->%list_elem_of_singleton. destruct Hx as [->| ->]; simpl;
      (split_and!; [lia|intros _; split; [done|congruence]|lia|done]).
  - intros y r _ _. unfold total in *. cbn [sum_list_with app] in *. lia.
Qed.

Lemma note_inv sl t ts rest x g :
  slot_inv sl (t :: rest) -> entry_gen x = g -> rank x = None -> (forall g, x <> EpollDel g) ->
  g < generation sl \/ (g = generation sl /\ in_use sl = true) ->
  slot_inv sl (ts ++ rest) -> slot_inv (emit [x] sl) (ts ++ rest).
Proof.
  intros _ Hg Hr Hne Hcur Hinv. apply inv_emit; [done| |intros y r ->%list_elem_of_singleton; congruence|by repeat constructor].
  intros y ->%list_elem_of_singleton. split_and!; [lia| |done|done].
  intros He. destruct Hcur as [|[_ ?]]; [lia|]. split; [done|congruence].
Qed.

(** Closes the side conditions of the lemmas above. *)
Ltac side_conditions :=
  unfold total; simpl; try done; try lia; try (by apply Forall_singleton);
  try (by repeat constructor); try (intros; repeat case_decide; simpl; lia).

(** Taking a reference that may be refused. *)
Lemma live_acquire_inv sl t t' rest sl' ts :
  slot_inv sl (t :: rest) -> live_acquire sl t' = (sl', ts) -> hold t = 0%nat -> hold t' = 1%nat ->
  reporter t = 0%nat -> reporter t' = 0%nat -> stage t = 0%nat -> stage t' = 0%nat ->
  closing t = 0%nat -> closing t' = 0%nat -> (forall s, owns s t = 0%nat /\ owns s t' = 0%nat) ->
  (forall s, pending s t = 0%nat /\ pending s t' = 0%nat) -> current sl t' ->
  plain_only (flags (ev sl)) t' -> reports_done sl t' -> slot_inv sl' (ts ++ rest).
Proof.
  intros Hinv Hl H0 H1 Hr Hr' Hs Hs' Hc Hc' Ho Hp Hcu Hpl' Hd.
  unfold live_acquire, ntt_event_acquire_if_live in Hl.
  destruct (Z.eqb_spec (refs (ev sl)) 0); injection Hl as <- <-.
  - apply (inv_replace sl t [] rest Hinv); side_conditions; intros s; destruct (Ho s), (Hp s); lia.
  - apply (inv_acquire sl t t' rest Hinv); auto; try lia; intros s; destruct (Ho s), (Hp s); lia.
Qed.

(** The last reference of [ntt_event_cancel], then its return. *)
Lemma cancel_release_inv sl g rest sl1 ts1 :
  slot_inv sl (CancelRelease g :: rest) -> ntt_event_release sl = (sl1, ts1) ->
  slot_inv (emit [CancelReturned g] sl1) (ts1 ++ rest).
Proof.
  intros Hinv Hrel. pose proof (Forall_inv (i_current _ _ Hinv)) as Hcur. simpl in Hcur.
  destruct (held_in_use sl _ Hinv) as (Hu & _); [unfold total; simpl; lia|].
  assert (Hinv1 : slot_inv sl1 (ts1 ++ rest))
    by (apply (inv_release sl (CancelRelease g) [] rest sl1 ts1 Hinv); side_conditions).
  assert (Hsame : generation sl1 = generation sl /\ in_use sl1 = in_use sl).
  { unfold ntt_event_release in Hrel. repeat case_match; by injection Hrel as <- <-. }
  destruct Hsame as [Hg1 Hu1]. apply inv_emit; [done| |intros y r ->%list_elem_of_singleton; done|by repeat constructor].
  intros y ->%list_elem_of_singleton. simpl. rewrite Hg1, Hu1. split_and!; [lia|by intros _|lia|done].
Qed.

Lemma exec_inv sl t rest sl' ts :
  slot_inv sl (t :: rest) -> exec t sl = (sl', ts) -> slot_inv sl' (ts ++ rest).
Proof.
  intros Hinv Heq. pose proof (Forall_inv (i_current _ _ Hinv)) as Hcur.
  pose proof (Forall_inv (i_plain _ _ Hinv)) as Hpl.
  destruct t as [g events|g events|g [|s todo]|s g todo|g sides|g k|s g k|s g k|s g k|s g k|s g k| |s|g|g|g|g|g|g|s| | |g fl events|g events];
    cbn [exec] in Heq; simpl in Hcur, Hpl.
  - apply (live_acquire_inv _ _ _ _ _ _ Hinv Heq); side_conditions.
  - unfold live_check in Heq. injection Heq as <- <-.
    apply (inv_replace sl _ [_] rest Hinv); unfold dispatch_live;
      destruct (Z.eqb_spec (generation sl) g), (Z.eqb_spec (Z.land (flags (ev sl)) NTT_EVENT_SERIAL) 0),
        (negb (ntt_event_sides_of events (interest (ev sl)) =? 0)); side_conditions.
  - injection Heq as <- <-. apply (inv_replace sl _ [Release] rest Hinv); side_conditions.
  - injection Heq as <- <-. eapply (call_inv sl _ (PlainCall s g todo)); eauto; done.
  - injection Heq as <- <-. eapply (call_inv sl _ (Plain g todo)); eauto; done.
  - injection Heq as <- <-. by apply publish_inv.
  - by eapply deliver_inv.
  - injection Heq as <- <-. destruct (held_in_use sl _ Hinv) as (_ & Hpos & _); [unfold total; simpl; lia|].
    apply (inv_acquire sl _ (PostPush s g k) rest Hinv); auto; done || lia.
  - injection Heq as <- <-. apply (inv_replace sl _ [Deliver g k; SideTask s] rest Hinv); side_conditions.
  - injection Heq as <- <-. eapply (call_inv sl _ (ServeCall s g k)); eauto; done.
  - injection Heq as <- <-. eapply (call_inv sl _ (ServeLeave s g k)); eauto; done.
  - by eapply leave_inv.
  - apply (inv_release sl Release [] rest sl' ts Hinv); side_conditions.
  - injection Heq as <- <-. apply (inv_replace sl _ [Serve s (generation sl) []] rest Hinv); side_conditions.
  - apply (live_acquire_inv _ _ _ _ _ _ Hinv Heq); side_conditions.
  - unfold live_check in Heq. injection Heq as <- <-.
    apply (inv_replace sl _ [_] rest Hinv); destruct (Z.eqb_spec (generation sl) g); side_conditions.
  - by eapply close_inv.
  - injection Heq as <- <-. by apply del_inv.
  - destruct (ntt_event_release sl) as [sl1 ts1] eqn:Hrel. injection Heq as <- <-.
    apply (inv_release sl (CloseRelease g) [CancelRelease g] rest sl1 ts1 Hinv); side_conditions.
  - destruct (ntt_event_release sl) as [sl1 ts1] eqn:Hrel. injection Heq as <- <-.
    by eapply cancel_release_inv.
  - by eapply cancelled_inv.
  - injection Heq as <- <-. by apply finish_inv.
  - injection Heq as <- <-. by apply teardown_inv.
  - assert (Hr : slot_inv sl ([OpenAdd g events] ++ rest))
      by (apply (inv_replace sl _ [OpenAdd g events] rest Hinv); side_conditions).
    destruct (negb _); injection Heq as <- <-; [|done].
    by eapply (note_inv sl _ _ rest (WorkEnter g) g Hinv).
  - injection Heq as <- <-. eapply (note_inv sl _ [] rest (EpollAdd g events) g Hinv); try done.
    apply (inv_replace sl _ [] rest Hinv); side_conditions.
Qed.

Lemma spawn_inv sl ts t :
  slot_inv sl ts -> hold t = 0%nat -> reporter t = 0%nat -> stage t = 0%nat -> closing t = 0%nat ->
  (forall s, owns s t = 0%nat) -> current sl t -> plain_only (flags (ev sl)) t -> reports_done sl t ->
  slot_inv sl (t :: ts).
Proof.
  intros [] Hh Hr Hs Hc Ho Hcu Hpl Hd. unfold total in *.
  split; unfold total; cbn [sum_list_with]; rewrite ?Hh, ?Hr, ?Hs, ?Hc; try done; try (by constructor).
  - intros s. by rewrite Ho, <- i_owns.
  - intros s H1 H2. destruct (i_ready s H1 H2); [by left|right; lia].
Qed.

Lemma event_step_inv sl ts sl' ts' :
  event_step (sl, ts) (sl', ts') -> slot_inv sl ts -> slot_inv sl' ts'.
Proof.
  intros Hstep Hinv. inversion Hstep as [? l1 t l2 ? tn Hex|? ? g events|? ? g|? ? p events fl ? t Hu Ho]; subst.
  - assert (Hinv' : slot_inv sl (t :: l1 ++ l2))
      by (eapply slot_inv_perm; [|exact Hinv]; by rewrite Permutation_middle).
    eapply slot_inv_perm; [|exact (exec_inv _ _ _ _ _ Hinv' Hex)]. solve_Permutation.
  - by apply spawn_inv.
  - by apply spawn_inv.
  - by eapply open_inv.
Qed.
