(* ===== verification/EventProps.v ===== *)
(** * Events: properties

    What holds of a slot of the event slab, however notifications,
    cancellations and handlers interleave, over all the events that live in the
    slot one after the other. *)

From stdpp Require Import base numbers list relations.
From Stdlib Require Import ZArith Lia.
From S2P Require Import Prelude.
From S2P Require Import Event.
From S2P Require Import EventInv.
From S2P Require Import EventSteps.

#[local] Open Scope Z_scope.

(** A slot as the slab hands it out for the first time. *)
Definition fresh_slot (e : ntt_event) (g : Z) : slot := mk_slot (with_refs 0 (with_state 0 e)) g false [].

Definition reachable (sl : slot) (ts : list thread) : Prop :=
  exists e g, rtc event_step (fresh_slot e g, []) (sl, ts).

Lemma fresh_inv e g : slot_inv (fresh_slot e g) [].
Proof.
  split; simpl; try done; try (by intros []); try (by constructor); try (by intros x ?%elem_of_nil).
Qed.

Lemma reachable_inv sl ts : reachable sl ts -> slot_inv sl ts.
Proof.
  intros (e & g & Hsteps). pose proof (fresh_inv e g) as Hinv.
  remember (fresh_slot e g, []) as c eqn:Ec. remember (sl, ts) as d eqn:Ed.
  assert (Hgen : slot_inv c.1 c.2) by (by subst). clear Ec Hinv.
  enough (slot_inv d.1 d.2) by (by subst).
  clear Ed. induction Hsteps as [|x y z Hstep _ IH]; [done|]. apply IH.
  destruct x, y. by eapply event_step_inv.
Qed.

(** ** Progress: a bound on the steps that are left *)
Definition readies (st : Z) : nat := Nat.b2n (ready Readable st) + Nat.b2n (ready Writable st).

Definition cost (t : thread) : nat :=
  match t with
  | Dispatch _ _ => 61
  | DispatchCheck _ _ => 60
  | Plain _ todo => 5 + 3 * length todo
  | PlainCall _ _ todo => 6 + 3 * length todo
  | Publish _ _ => 48
  | Deliver _ k => 5 + length k
  | Post _ _ k => 16 + length k
  | PostPush _ _ k => 15 + length k
  | Serve _ _ k => 8 + length k
  | ServeCall _ _ k => 7 + length k
  | ServeLeave _ _ k => 6 + length k
  | Release => 4
  | SideTask _ => 9
  | Cancel _ => 12
  | CancelCheck _ => 11
  | Close _ => 10
  | CloseDel _ => 9
  | CloseRelease _ => 8
  | CancelRelease _ => 4
  | CancelledTask Writable => 3
  | CancelledTask Readable => 2
  | Finish | Teardown | OpenAdd _ _ => 1
  | OpenEnter _ _ _ => 2
  end.

Definition potential (sl : slot) (ts : list thread) : nat := 20 * readies (state (ev sl)) + total cost ts.

Lemma release_cost sl sl' ts :
  ntt_event_release sl = (sl', ts) -> state (ev sl') = state (ev sl) /\ (total cost ts <= 3)%nat.
Proof.
  unfold ntt_event_release. intros Heq. repeat case_match; simplify_eq; unfold total; simpl; lia.
Qed.

(** Every step of a thread uses up some of the bound. *)
Lemma exec_potential sl t sl' ts :
  0 <= state (ev sl) < 32 -> exec t sl = (sl', ts) -> (potential sl' ts < potential sl [t])%nat.
Proof.
  intros Hst Heq. unfold potential. replace (total cost [t]) with (cost t) by (unfold total; simpl; lia).
  destruct t as [g events|g events|g [|s todo]|s g todo|g sides|g k|s g k|s g k|s g k|s g k|s g k| |s|g|g|g|g|g|g|s| | |g fl events|g events];
    cbn [exec] in Heq;
    try (unfold live_acquire, ntt_event_acquire_if_live in Heq; case_match; case_match; simplify_eq;
         unfold total; simpl; lia);
    try (injection Heq as <- <-; unfold total; simpl; lia).
  - unfold live_check, dispatch_live, plain_order in Heq. injection Heq as <- <-. unfold total.
    repeat case_match; simpl; lia.
  - destruct (publish_bits sides _ Hst) as (_ & _ & Hb). injection Heq as <- <-.
    cbn [ev set_ev with_state state]. unfold readies. destruct (Hb Readable) as [-> _], (Hb Writable) as [-> _].
    unfold total, serial_order. repeat case_match; simpl;
      destruct (ready Readable (state (ev sl))), (ready Writable (state (ev sl))),
        (has sides Readable), (has sides Writable); simpl; lia.
  - destruct k as [|s k]; simpl in Heq; [injection Heq as <- <-; unfold total; simpl; lia|].
    pose proof (claim_bits s _ Hst) as Hb. destruct (ntt_event_claim_side _ s) as [st'|];
      injection Heq as <- <-; [|unfold total; simpl; lia].
    destruct Hb as (_ & Hr & _ & _ & Hr' & _ & _ & Hro & _). cbn [ev set_ev with_state state].
    assert (S (readies st') = readies (state (ev sl))).
    { unfold readies. destruct s; simpl in Hro; rewrite Hr, Hr', Hro; simpl; lia. }
    unfold total. case_match; simpl; lia.
  - unfold serve_leave in Heq. destruct (ntt_event_leave_side _ s) as [again st'] eqn:Hlv.
    injection Heq as <- <-. destruct (leave_bits s _ _ _ Hst Hlv) as (_ & Hag & Hr & _ & _ & Hro & _).
    cbn [ev set_ev with_state state]. unfold total, readies.
    destruct s; simpl in Hro; rewrite Hr, Hro; destruct again; simpl in *;
      destruct (ready Readable (state (ev sl))), (ready Writable (state (ev sl))); simpl in *; try done; lia.
  - destruct (release_cost _ _ _ Heq) as [-> Hc]. simpl. lia.
  - unfold live_check in Heq. injection Heq as <- <-. unfold total. case_match; simpl; lia.
  - destruct (close_bits _ Hst) as (_ & _ & _ & Hb). unfold cancel_close in Heq. injection Heq as <- <-.
    cbn [ev set_ev with_state state]. unfold readies. destruct (Hb Readable) as [-> _], (Hb Writable) as [-> _].
    unfold total. case_match; simpl; lia.
  - destruct (ntt_event_release sl) as [sl1 ts1] eqn:Hrel. injection Heq as <- <-.
    destruct (release_cost _ _ _ Hrel) as [-> Hc]. unfold total in *. simpl. lia.
  - destruct (ntt_event_release sl) as [sl1 ts1] eqn:Hrel. injection Heq as <- <-. simpl.
    destruct (release_cost _ _ _ Hrel) as [-> Hc]. lia.
  - unfold ntt_event_cancelled_task_svc in Heq. destruct s; simpl in Heq; [|case_match];
      injection Heq as <- <-; unfold total; simpl; lia.
  - destruct (negb _); injection Heq as <- <-; unfold total; simpl; lia.
Qed.

(** Only threads that are there take steps: nothing new arrives. *)
Inductive quiet_step : slot * list thread -> slot * list thread -> Prop :=
  | quiet_exec sl l1 t l2 sl' ts :
      exec t sl = (sl', ts) -> quiet_step (sl, l1 ++ t :: l2) (sl', l1 ++ ts ++ l2).

Lemma quiet_potential sl ts sl' ts' :
  slot_inv sl ts -> quiet_step (sl, ts) (sl', ts') -> slot_inv sl' ts' /\ (potential sl' ts' < potential sl ts)%nat.
Proof.
  intros Hinv Hq. inversion Hq as [? l1 t l2 ? tn Hex]; subst. split.
  - eapply event_step_inv; [|exact Hinv]. by constructor.
  - pose proof (exec_potential sl t sl' tn (i_state _ _ Hinv) Hex) as Hp. unfold potential in *.
    rewrite !total_app. change (t :: l2) with ([t] ++ l2). rewrite total_app. lia.
Qed.

Lemma quiet_steps_bound n : forall sl ts sl' ts',
  slot_inv sl ts -> nsteps quiet_step n (sl, ts) (sl', ts') -> slot_inv sl' ts' /\ (n <= potential sl ts)%nat.
Proof.
  induction n as [|n IH]; intros sl ts sl' ts' Hinv Hs; inversion Hs as [|? ? [sl1 ts1] ? H1 H2]; subst.
  - split; [done|lia].
  - destruct (quiet_potential _ _ _ _ Hinv H1) as [Hinv1 Hp].
    destruct (IH _ _ _ _ Hinv1 H2) as [Hinv' Hn]. split; [done|lia].
Qed.

(** ** Running a schedule *)
Inductive move : Type :=
  | Exec (i : nat)
  | Notify (g events : Z)
  | AskCancel (g : Z)
  | Open (p : ntt_event_params) (events fl : Z).

Definition play (m : move) (c : slot * list thread) : option (slot * list thread) :=
  let '(sl, ts) := c in
  match m with
  | Exec i =>
      match ts !! i with
      | Some t => let '(sl', new) := exec t sl in Some (sl', take i ts ++ new ++ drop (S i) ts)
      | None => None
      end
  | Notify g events => Some (sl, Dispatch g events :: ts)
  | AskCancel g => Some (sl, Cancel g :: ts)
  | Open p events fl =>
      if in_use sl then None
      else let '(sl', t) := ntt_event_open sl p events fl in Some (sl', t :: ts)
  end.

Fixpoint plays (ms : list move) (c : slot * list thread) : option (slot * list thread) :=
  match ms with
  | [] => Some c
  | m :: ms => match play m c with Some c => plays ms c | None => None end
  end.

Lemma plays_steps ms : forall c c', plays ms c = Some c' -> rtc event_step c c'.
Proof.
  induction ms as [|m ms IH]; intros c c' Heq; simpl in Heq; [by injection Heq as ->|].
  destruct (play m c) as [c1|] eqn:Hp; [|done]. eapply rtc_l; [|by apply IH]. clear IH Heq.
  destruct c as [sl ts]. destruct m as [i|g events|g|p events fl]; simpl in Hp.
  - destruct (ts !! i) as [t|] eqn:Hi; [|done]. destruct (exec t sl) as [sl' new] eqn:Hex.
    injection Hp as <-. rewrite <- (take_drop_middle ts i t Hi) at 1. by constructor.
  - injection Hp as <-. constructor.
  - injection Hp as <-. constructor.
  - destruct (in_use sl) eqn:Hu; [done|]. destruct (ntt_event_open sl p events fl) as [sl' t] eqn:Ho.
    injection Hp as <-. by econstructor.
Qed.

(** ** Claims *)
Section props.
Implicit Types (sl : slot) (ts : list thread).

(** The reference count of an event is exactly the references held by
    threads and queued tasks, plus the one that [ntt_event_start] leaves
    behind until the event is cancelled; so no thread ever works on an event
    whose slot was given back. *)
Theorem event_refs_exact sl ts :
  reachable sl ts ->
  refs (ev sl) = Z.of_nat (total hold ts + Nat.b2n (in_use sl && negb (closed (state (ev sl))))) /\
  (forall t, t ∈ ts -> (0 < hold t)%nat -> in_use sl = true).
Proof.
  intros Hinv%reachable_inv. split; [apply Hinv|]. intros t Ht Hh.
  destruct (held_in_use sl ts Hinv) as [Hu _]; [|done].
  pose proof (total_elem hold ts t Ht). lia.
Qed.

(** C29.  The handler of one side of a serial event never runs twice at the
    same time. *)
Theorem event_side_exclusive sl ts s :
  reachable sl ts -> Z.land (flags (ev sl)) NTT_EVENT_SERIAL <> 0 -> (total (inside s) ts <= 1)%nat.
Proof.
  intros Hinv%reachable_inv Hfl. pose proof (i_owns _ _ Hinv s) as Ho.
  assert (total (inside s) ts <= total (owns s) ts)%nat.
  { pose proof (i_plain _ _ Hinv) as Hpl. clear -Hpl Hfl. unfold total.
    induction Hpl as [|t ts Ht _ IH]; cbn [sum_list_with]; [lia|].
    assert (inside s t <= owns s t)%nat; [|lia]. destruct t; simpl in *; lia. }
  destruct (busy s (state (ev sl))); simpl in Ho; lia.
Qed.


(** Per event: once a side is reported cancelled no handler starts any more, the
    writable side is not reported after the readable one, no side is reported
    twice, and nothing of this happens after the slot is given back, whatever
    stale handles are used. *)
Lemma slot_report_order sl ts l1 x l2 g :
  reachable sl ts -> log sl = l1 ++ x :: l2 ->
  (forall s, x = Report s g -> (forall s', Call s' g ∉ l2) /\ (Report s g ∉ l2) /\ (Report Writable g ∉ l2)) /\
  (x = Given g -> (forall s, Call s g ∉ l2) /\ (forall s, Report s g ∉ l2) /\ (Given g ∉ l2)).
Proof.
  intros Hinv%reachable_inv Hlog. pose proof (i_log _ _ Hinv) as Ho. rewrite Hlog in Ho.
  assert (Hafter : forall y, y ∈ l2 -> may_precede x y).
  { intros y (l3 & l4 & ->)%list_elem_of_split. by eapply ordered_split. }
  split.
  - intros s ->. split_and!; [intros s'|..]; intros Hy%Hafter;
      destruct s; specialize (Hy eq_refl _ _ eq_refl eq_refl); lia.
  - intros ->. split_and!; [intros s|intros s|]; intros Hy%Hafter; try destruct s;
      specialize (Hy eq_refl _ _ eq_refl eq_refl); lia.
Qed.

(** When an event is about to give its slot back, nobody holds a
    reference and every side that has a queue and a callback was reported. *)
Theorem event_reports_complete sl ts s :
  reachable sl ts -> Finish ∈ ts ->
  refs (ev sl) = 0 /\ total hold ts = 0%nat /\
  (queue_of (ev sl) s <> NULL ->
   match s with Readable => readable_cancelled | Writable => writable_cancelled end (vtbl (ev sl)) = true ->
   Report s (generation sl) ∈ log sl).
Proof.
  intros Hinv%reachable_inv (l1 & l2 & ->)%list_elem_of_split.
  eapply (slot_inv_perm _ _ (Finish :: l1 ++ l2)) in Hinv; [|by rewrite Permutation_middle].
  destruct (reporter_alone sl _ _ Hinv eq_refl) as (_ & Hz & Hh & _).
  pose proof (Forall_inv (i_done _ _ Hinv)) as [Hw Hr]. split_and!; [done| |by destruct s].
  rewrite (total_perm hold _ (Finish :: l1 ++ l2)) by (by rewrite Permutation_middle).
  unfold total in *. simpl. lia.
Qed.

(** Cancelling an event any number of times removes its descriptor from
    the epoll set at most once. *)
Theorem event_del_once sl ts g : reachable sl ts -> (dels g (log sl) <= 1)%nat.
Proof. intros Hinv%reachable_inv. apply Hinv. Qed.

(** C28.  When no new notification or cancellation arrives, the threads come
    to rest within a bounded number of steps; a cancelled event has then given
    its slot back, and an event that was not cancelled has no notification
    left unserved. *)
Theorem event_comes_to_rest sl ts n sl' ts' :
  reachable sl ts -> nsteps quiet_step n (sl, ts) (sl', ts') ->
  (n <= potential sl ts)%nat /\
  ((exists t, t ∈ ts') -> exists c, quiet_step (sl', ts') c) /\
  (ts' = [] -> (closed (state (ev sl')) = true -> in_use sl' = false) /\
               (closed (state (ev sl')) = false -> forall s, ready s (state (ev sl')) = false)).
Proof.
  intros Hinv%reachable_inv Hs. destruct (quiet_steps_bound n _ _ _ _ Hinv Hs) as [Hinv' Hn].
  split_and!; [done| |].
  - intros (t & (l1 & l2 & ->)%list_elem_of_split). destruct (exec t sl') as [sl2 ts2] eqn:Hex.
    exists (sl2, l1 ++ ts2 ++ l2). by constructor.
  - intros ->. split.
    + intros Hc. pose proof (i_reporter _ _ Hinv') as Hr. pose proof (i_refs _ _ Hinv') as Hrefs.
      rewrite Hc, andb_false_r in Hrefs. simpl in Hr, Hrefs. rewrite Hrefs, andb_true_r in Hr.
      by destruct (in_use sl').
    + intros Hc s. destruct (ready s (state (ev sl'))) eqn:Hr; [|done].
      destruct (i_ready _ _ Hinv' s Hr Hc) as [Hb|Hp]; [|simpl in Hp; lia].
      pose proof (i_owns _ _ Hinv' s) as Ho. by rewrite Hb in Ho.
Qed.

(** A handle carries the index and the generation it was made from. *)
Theorem event_handle_roundtrip i g :
  0 <= i < 2 ^ 32 -> 0 <= g < 2 ^ 32 ->
  ntt_event_handle_index (ntt_event_handle_of i g) = i /\
  ntt_event_handle_generation (ntt_event_handle_of i g) = g.
Proof.
  intros Hi Hg. unfold ntt_event_handle_of.
  rewrite Z.shiftl_mul_pow2 by lia. rewrite (u64_small i), (u64_small (g * 2 ^ 32)) by lia.
  assert (Hlor : Z.lor i (g * 2 ^ 32) = i + g * 2 ^ 32).
  { symmetry. apply Z.add_nocarry_lor. rewrite <- Z.shiftl_mul_pow2 by lia.
    apply Z.bits_inj'. intros n Hn. rewrite Z.land_spec, Z.bits_0, Z.shiftl_spec by lia.
    destruct (Z.lt_ge_cases n 32) as [Hlt|Hge].
    - rewrite (Z.testbit_neg_r g) by lia. apply andb_false_r.
    - rewrite (Z.bits_above_log2 i n); [done|lia|]. destruct (decide (i = 0)) as [->|]; [simpl; lia|].
      assert (Z.log2 i < 32) by (apply Z.log2_lt_pow2; lia). lia. }
  rewrite Hlor. unfold ntt_event_handle_index, ntt_event_handle_generation, u32.
  rewrite Z.shiftr_div_pow2 by lia. rewrite Z.div_add, (Z.div_small i) by lia. split.
  - rewrite Z.mod_add by lia. by apply Z.mod_small.
  - by apply Z.mod_small.
Qed.
End props.

(** ** Cancelling while a delivery is queued *)
Module EventExample.
Definition reader_vtbl : ntt_event_vtbl := mk_vtbl true false false true.
Definition reader : ntt_event_params := mk_params reader_vtbl NTT_INTEREST_READABLE 64 NULL.
Definition blank : slot := fresh_slot (mk_event reader_vtbl NULL NULL 0 0 0 0) 1.

(** Start, notify, let the dispatch queue its task. *)
Definition deliver_moves : list move :=
  [Open reader (Z.lor EPOLLIN EPOLLET) (Z.lor NTT_EVENT_WORK NTT_EVENT_SERIAL); Exec 0; Exec 0;
   Notify 1 EPOLLIN; Exec 0; Exec 0; Exec 0; Exec 0; Exec 0; Exec 0; Exec 0; Exec 0].

Definition cancel_moves : list move :=
  [AskCancel 1; Exec 0; Exec 0; Exec 0; Exec 0; Exec 0; Exec 0].

(** The handler runs, leaves and releases, and the cancellation is reported. *)
Definition drain_moves : list move :=
  [Exec 0; Exec 0; Exec 0; Exec 0; Exec 0; Exec 0; Exec 0; Exec 0].

Definition after (ms : list move) : slot * list thread := default (blank, []) (plays ms (blank, [])).

Lemma after_reachable ms c : plays ms (blank, []) = Some c -> reachable c.1 c.2.
Proof.
  intros Heq. exists (mk_event reader_vtbl NULL NULL 0 0 0 0), 1. rewrite <- surjective_pairing.
  exact (plays_steps ms _ _ Heq).
Qed.

(** A state in plain sight, with the schedule that leads to it. *)
Definition queued : slot * list thread := Eval vm_compute in after deliver_moves.
Definition calling : slot * list thread := Eval vm_compute in after (deliver_moves ++ [Exec 0; Exec 0]).
Definition drained : slot * list thread :=
  Eval vm_compute in after (deliver_moves ++ cancel_moves ++ drain_moves).
Definition reported_all : slot * list thread :=
  Eval vm_compute in after (deliver_moves ++ cancel_moves ++ take 7 drain_moves).

Lemma queued_reachable : reachable queued.1 queued.2.
Proof. apply (after_reachable deliver_moves). by vm_compute. Qed.

Lemma calling_reachable : reachable calling.1 calling.2.
Proof. apply (after_reachable (deliver_moves ++ [Exec 0; Exec 0])). by vm_compute. Qed.


Lemma drained_reachable : reachable drained.1 drained.2.
Proof. apply (after_reachable (deliver_moves ++ cancel_moves ++ drain_moves)). by vm_compute. Qed.

Lemma reported_all_reachable : reachable reported_all.1 reported_all.2.
Proof. apply (after_reachable (deliver_moves ++ cancel_moves ++ take 7 drain_moves)). by vm_compute. Qed.

End EventExample.

(** A handler can start after [ntt_event_cancel] has returned: the task of
    a delivery that was queued before still calls the handler once. *)
Theorem event_handler_after_cancel :
  exists sl ts l1 l2 s g, reachable sl ts /\ log sl = l1 ++ CancelReturned g :: l2 /\ Call s g ∈ l2.
Proof.
  destruct (plays (EventExample.deliver_moves ++ EventExample.cancel_moves ++ [Exec 0; Exec 0])
    (EventExample.blank, [])) as [[sl ts]|] eqn:Heq; [|by vm_compute in Heq].
  pose proof (plays_steps _ _ _ Heq) as Hs. vm_compute in Heq. injection Heq as <- <-.
  eexists _, _, [_; _; _; _], [Call Readable 1], Readable, 1.
  split_and!; [by eexists _, _|reflexivity|by left].
Qed.

Module EventWitnesses.
Import EventExample.

Lemma event_refs_exact_witness : refs (ev queued.1) = 2 /\ in_use queued.1 = true.
Proof.
  destruct (event_refs_exact queued.1 queued.2 queued_reachable) as [Hr Hu].
  split; [exact Hr|]. apply (Hu (SideTask Readable)); [by left|simpl; lia].
Defined.

Lemma event_side_exclusive_witness :
  total (inside Readable) calling.2 = 1%nat /\ (total (inside Readable) calling.2 <= 1)%nat.
Proof.
  split; [reflexivity|].
  apply (event_side_exclusive calling.1 calling.2 Readable calling_reachable). by vm_compute.
Defined.


Lemma event_reports_complete_witness :
  reported_all.2 = [Finish] /\ Report Readable 1 ∈ log reported_all.1.
Proof.
  split; [reflexivity|].
  destruct (event_reports_complete reported_all.1 reported_all.2 Readable reported_all_reachable)
    as (_ & _ & Hr); [by left|]. apply Hr; [by vm_compute|reflexivity].
Defined.

Lemma event_del_once_witness : dels 1 (log drained.1) = 1%nat /\ (dels 1 (log drained.1) <= 1)%nat.
Proof.
  split; [reflexivity|]. exact (event_del_once drained.1 drained.2 1 drained_reachable).
Defined.

Lemma event_comes_to_rest_witness :
  drained.2 = [] /\ closed (state (ev drained.1)) = true /\ in_use drained.1 = false.
Proof.
  split; [reflexivity|]. split; [reflexivity|].
  destruct (event_comes_to_rest drained.1 drained.2 0 drained.1 drained.2 drained_reachable)
    as (_ & _ & Hend); [constructor|]. apply (Hend eq_refl). reflexivity.
Defined.

Lemma event_handle_roundtrip_witness :
  ntt_event_handle_of 5 9 = 38654705669 /\ ntt_event_handle_index (ntt_event_handle_of 5 9) = 5.
Proof. split; [reflexivity|]. apply (event_handle_roundtrip 5 9); lia. Defined.
End EventWitnesses.
