(* ===== verification/EventTable.v ===== *)
(** * All events of a loop: data and operations

    [Event] follows one slot of the event slab.  Here are all of them, in the
    slab of [Slab] and under the epoll of the loop: the path from a handle to the
    object ([ntt_event_live] in [src/event.c]), taking and giving back of slots,
    and the calls of [ntt_loop_epoll_add] and [ntt_loop_epoll_del] of
    [src/loop.c].  An object is reached by its address; its fields are those
    that [Event] works on, its generation and index are in the head that the slab
    owns.  Memory that was never written is told from memory that was. *)

From stdpp Require Import base numbers list gmap.
From Stdlib Require Import ZArith Lia.
From S2P Require Import Prelude.
From S2P Require Import Slab.
From S2P Require Import SlabFrame.
From S2P Require Import Event.

#[local] Open Scope Z_scope.

(** ** State *)

(** An [ntt_event_t] without its head. *)
Record object : Type := mk_object {
  obj_event : ntt_event;
  obj_fd : Z;
}.

(** What the loop and the kernel keep about events.  [tb_issued] is not in the
    code: the handles that were registered, with their descriptors. *)
Record table : Type := mk_table {
  tb_slab : ntt_slab;
  tb_mem : memory;
  tb_objs : gmap ptr object;
  tb_epoll : gmap Z (Z * Z);           (* descriptor to mask and [data.u64] *)
  tb_issued : list (Z * Z);
  tb_log : list (ptr * entry);
}.

Definition tb_with_slab s m T := mk_table s m (tb_objs T) (tb_epoll T) (tb_issued T) (tb_log T).
Definition tb_with_epoll e T := mk_table (tb_slab T) (tb_mem T) (tb_objs T) e (tb_issued T) (tb_log T).
Definition tb_issue h fd T :=
  mk_table (tb_slab T) (tb_mem T) (tb_objs T) (tb_epoll T) ((h, fd) :: tb_issued T) (tb_log T).
Definition tb_write p o l T :=
  mk_table (tb_slab T) (tb_mem T) (<[p := o]> (tb_objs T)) (tb_epoll T) (tb_issued T)
    (tb_log T ++ map (pair p) l).

(** ** Threads *)
Inductive tthread : Type :=
  | Opening (prm : ntt_event_params) (fd events fl : Z)            (* ntt_event_open *)
  | Filling (p : ptr) (prm : ntt_event_params) (fd events fl : Z)  (* the slot is taken *)
  | StartEnter (p : ptr) (fd id fl events : Z)   (* the reference count is stored *)
  | StartAdd (p : ptr) (fd id events : Z)        (* before ntt_loop_epoll_add *)
  | AskDispatch (handle events : Z)              (* ntt_event_dispatch, before ntt_slab_at *)
  | AskCancel (handle : Z)                       (* ntt_event_cancel, before ntt_slab_at *)
  | On (p : ptr) (t : thread).                   (* a thread of [Event] with the object at [p] *)

(** The fields at [p], and the slot of [Event] they make up, with nothing
    observed yet. *)
Definition get_object (T : table) (p : ptr) : res object :=
  match tb_objs T !! p with Some o => Ok o | None => Err UninitRead end.

Definition view (e : ntt_event) (g : Z) : slot := mk_slot e g true [].

(** ** System calls *)

Inductive epoll_op : Type := EPOLL_CTL_ADD | EPOLL_CTL_DEL.

(** Whether the kernel, asked for [op] on a descriptor with the epoll as it is,
    has the memory and the quota for it and accepts the kind of descriptor:
    [epoll_ctl] may also fail with [ENOMEM], [ENOSPC] or [EPERM]. *)
Class Epoll : Type := {
  epoll_accepts : epoll_op -> Z -> gmap Z (Z * Z) -> bool;
}.

(** [epoll_ctl]: the epoll afterwards, or nothing when it returns -1.  A
    descriptor that is there is not added ([EEXIST]), one that is not there is
    not deleted ([ENOENT]). *)
Definition epoll_ctl `{Epoll} (op : epoll_op) (fd : Z) (event : Z * Z) (epoll : gmap Z (Z * Z)) :
    option (gmap Z (Z * Z)) :=
  if negb (epoll_accepts op fd epoll) then None
  else match op, epoll !! fd with
       | EPOLL_CTL_ADD, Some _ => None
       | EPOLL_CTL_ADD, None => Some (<[fd := event]> epoll)
       | EPOLL_CTL_DEL, None => None
       | EPOLL_CTL_DEL, Some _ => Some (delete fd epoll)
       end.

Definition ntt_epoll_ctl_or_die `{Epoll} (op : epoll_op) (fd : Z) (event : Z * Z) (T : table) : res table :=
  match epoll_ctl op fd event (tb_epoll T) with
  | Some e => Ok (tb_with_epoll e T)
  | None => Err Die
  end.

Definition ntt_loop_epoll_add `{Epoll} (fd events data : Z) (T : table) : res table :=
  ntt_epoll_ctl_or_die EPOLL_CTL_ADD fd (events, data) T.

(** The event is [NULL] here. *)
Definition ntt_loop_epoll_del `{Epoll} (fd : Z) (T : table) : res table :=
  ntt_epoll_ctl_or_die EPOLL_CTL_DEL fd (NULL, NULL) T.

(** What the two calls do when they return. *)
Lemma epoll_add_inv `{Epoll} fd events data T T' :
  ntt_loop_epoll_add fd events data T = Ok T' ->
  tb_epoll T !! fd = None /\ T' = tb_with_epoll (<[fd := (events, data)]> (tb_epoll T)) T.
Proof.
  unfold ntt_loop_epoll_add, ntt_epoll_ctl_or_die, epoll_ctl. destruct (negb _); [done|].
  destruct (tb_epoll T !! fd); [done|]. by intros [= <-].
Qed.

Lemma epoll_del_inv `{Epoll} fd T T' :
  ntt_loop_epoll_del fd T = Ok T' -> is_Some (tb_epoll T !! fd) /\ T' = tb_with_epoll (delete fd (tb_epoll T)) T.
Proof.
  unfold ntt_loop_epoll_del, ntt_epoll_ctl_or_die, epoll_ctl. destruct (negb _); [done|].
  destruct (tb_epoll T !! fd); [|done]. intros [= <-]. by split.
Qed.

Lemma epoll_add_ok `{Epoll} fd events data T :
  tb_epoll T !! fd = None ->
  returns_or (epoll_accepts EPOLL_CTL_ADD fd (tb_epoll T) = false) (ntt_loop_epoll_add fd events data T)
    (fun T' => T' = tb_with_epoll (<[fd := (events, data)]> (tb_epoll T)) T).
Proof.
  intros Hn. unfold ntt_loop_epoll_add, ntt_epoll_ctl_or_die, epoll_ctl. rewrite Hn.
  by destruct (epoll_accepts _ _ _).
Qed.

Lemma epoll_del_ok `{Epoll} fd T :
  is_Some (tb_epoll T !! fd) ->
  returns_or (epoll_accepts EPOLL_CTL_DEL fd (tb_epoll T) = false) (ntt_loop_epoll_del fd T)
    (fun T' => T' = tb_with_epoll (delete fd (tb_epoll T)) T).
Proof.
  intros [x Hx]. unfold ntt_loop_epoll_del, ntt_epoll_ctl_or_die, epoll_ctl. rewrite Hx.
  by destruct (epoll_accepts _ _ _).
Qed.

Section ops.
Context `{Platform} `{Allocator} `{Epoll}.
Implicit Types T : table.

(** [ntt_event_handle_of] *)
Definition handle_of_object T (p : ptr) : res Z :=
  i ← ntt_slab_index (tb_mem T) p;
  g ← ntt_slab_generation (tb_mem T) p;
  Ok (ntt_event_handle_of i g).

(** What a step of [Event] does beyond the fields of the object. *)
Definition outside (p : ptr) (o : object) (t : thread) T : res table :=
  match t with
  | CloseDel _ => ntt_loop_epoll_del (obj_fd o) T
  | Finish | Teardown =>
      i ← ntt_slab_index (tb_mem T) p;
      '(s, m) ← ntt_slab_give (tb_slab T) (tb_mem T) i;
      Ok (tb_with_slab s m T)
  | _ => Ok T
  end.

(** A step of a thread that has the object at [p]. *)
Definition exec_on (p : ptr) (t : thread) T : res (table * list tthread) :=
  o ← get_object T p;
  g ← ntt_slab_generation (tb_mem T) p;
  T ← outside p o t T;
  let '(sl, ts) := exec t (view (obj_event o) g) in
  Ok (tb_write p (mk_object (ev sl) (obj_fd o)) (log sl) T, map (On p) ts).

(** [ntt_event_open] *)
Definition open_take (prm : ntt_event_params) (fd events fl : Z) T : res (table * list tthread) :=
  '(p, (s, m)) ← ntt_slab_take (tb_slab T) (tb_mem T);
  Ok (tb_with_slab s m T, [Filling p prm fd events fl]).

(** The fields, up to the store of the reference count.  Whoever looks at the
    slot in between sees the count of the event before it, which is zero. *)
Definition open_fill (p : ptr) (prm : ntt_event_params) (fd events fl : Z) T :
    res (table * list tthread) :=
  g ← ntt_slab_generation (tb_mem T) p;
  id ← handle_of_object T p;
  let none := mk_event (params_vtbl prm) NULL NULL 0 0 0 0 in
  let '(sl, _) := ntt_event_open (view none g) prm events fl in
  Ok (tb_write p (mk_object (ev sl) fd) (log sl) T, [StartEnter p fd id fl events]).

Definition open_enter (p : ptr) (fd id fl events : Z) T : res (table * list tthread) :=
  o ← get_object T p;
  let g := ntt_event_handle_generation id in
  let '(sl, _) := exec (OpenEnter g fl events) (view (obj_event o) g) in
  Ok (tb_write p o (log sl) T, [StartAdd p fd id events]).

Definition open_add (p : ptr) (fd id events : Z) T : res (table * list tthread) :=
  o ← get_object T p;
  T ← ntt_loop_epoll_add fd events id T;
  Ok (tb_issue id fd (tb_write p o [EpollAdd (ntt_event_handle_generation id) events] T), []).

(** The start of [ntt_event_live]: the object of the slot that a handle names. *)
Definition live_at (handle : Z) T : res ptr :=
  ntt_slab_at (tb_slab T) (ntt_event_handle_index handle).

Definition texec (t : tthread) T : res (table * list tthread) :=
  match t with
  | Opening prm fd events fl => open_take prm fd events fl T
  | Filling p prm fd events fl => open_fill p prm fd events fl T
  | StartEnter p fd id fl events => open_enter p fd id fl events T
  | StartAdd p fd id events => open_add p fd id events T
  | AskDispatch h events =>
      p ← live_at h T; Ok (T, [On p (Dispatch (ntt_event_handle_generation h) events)])
  | AskCancel h =>
      p ← live_at h T; Ok (T, [On p (Cancel (ntt_event_handle_generation h))])
  | On p t => exec_on p t T
  end.
End ops.

(** ** All threads together *)

(** Threads on their way to register a descriptor. *)
Definition registering (fd : Z) (t : tthread) : nat :=
  match t with
  | Opening _ fd' _ _ | Filling _ _ fd' _ _ | StartEnter _ fd' _ _ _ | StartAdd _ fd' _ _ =>
      if decide (fd' = fd) then 1 else 0
  | _ => 0
  end.

Section steps.
Context `{Platform} `{Allocator} `{Epoll}.

(** A descriptor may be started when it is not registered and nobody else is
    starting it.  The kernel reports registered descriptors with what they
    carry.  A handle may be cancelled any number of times, by anybody, once
    [ntt_event_start] has registered it. *)
Inductive table_step : table * list tthread -> table * list tthread -> Prop :=
  | tb_step_exec T l1 t l2 T' ts :
      texec t T = Ok (T', ts) -> table_step (T, l1 ++ t :: l2) (T', l1 ++ ts ++ l2)
  | tb_step_open T ts prm fd events fl :
      tb_epoll T !! fd = None -> total (registering fd) ts = 0%nat ->
      table_step (T, ts) (T, Opening prm fd events fl :: ts)
  | tb_step_notify T ts fd mask h events :
      tb_epoll T !! fd = Some (mask, h) -> table_step (T, ts) (T, AskDispatch h events :: ts)
  | tb_step_cancel T ts h fd :
      (h, fd) ∈ tb_issued T -> table_step (T, ts) (T, AskCancel h :: ts).

(** The rest of the process uses the same memory, outside of the slab. *)
Inductive memory_step : table * list tthread -> table * list tthread -> Prop :=
  | tb_step_memory T ts m :
      (forall b, b ∈ slab_blocks (tb_slab T) -> b ∈ mem_blocks m) ->
      (forall a b, b ∈ slab_blocks (tb_slab T) -> within a b -> mem_heads m !! a = mem_heads (tb_mem T) !! a) ->
      memory_step (T, ts) (tb_with_slab (tb_slab T) m T, ts).
End steps.

(** The event slab as [ntt_loop_run] sets it up.  [sizeof(ntt_event_t)] is 64. *)
Definition NTT_EVENT_SIZE : Z := 64.

Definition fresh_table (m : memory) : table :=
  mk_table (ntt_slab_init NTT_EVENT_SIZE) m ∅ ∅ [] [].

(** Bounds of the verification: no generation has come round, and the offset
    of the next slot still fits. *)
Definition gens_bounded (T : table) : Prop :=
  map_Forall (fun _ h => default 0 (head_generation h) < 2 ^ 32)
    (mem_heads (tb_mem T)) /\
  (slab_size (tb_slab T) + 1) * stride (tb_slab T) <= 2 ^ 32.

Definition bounded_step `{Platform, Allocator, Epoll} (c c' : table * list tthread) : Prop :=
  (table_step c c' \/ memory_step c c') /\ gens_bounded c'.1.
