(* ===== verification/EventTableInv.v ===== *)
(** * All events of a loop: the invariant

    Every slot of the event slab is, by itself, in a state that [Event] reaches:
    the table is a family of slots that share the allocation of slots and the
    epoll of the loop.  The rest of the invariant says how handles, the epoll
    set and the slab belong together. *)

From stdpp Require Import base numbers list gmap relations.
From Stdlib Require Import ZArith Lia.
From S2P Require Import Prelude.
From S2P Require Import Slab.
From S2P Require Import SlabInv.
From S2P Require Import SlabOps.
From S2P Require Import SlabProps.
From S2P Require Import Event.
From S2P Require Import EventInv.
From S2P Require Import EventSteps.
From S2P Require Import EventProps.
From S2P Require Import EventTable.

#[local] Open Scope Z_scope.

(** ** One slot of the table *)

(** What a thread of the table is to the slot at [p]. *)
Definition at_slot (p : ptr) (t : tthread) : list thread :=
  match t with
  | On p' t => if decide (p' = p) then [t] else []
  | StartEnter p' _ id fl events =>
      if decide (p' = p) then [OpenEnter (ntt_event_handle_generation id) fl events] else []
  | StartAdd p' _ id events =>
      if decide (p' = p) then [OpenAdd (ntt_event_handle_generation id) events] else []
  | _ => []
  end.

Definition threads_at (p : ptr) (ts : list tthread) : list thread := ts ≫= at_slot p.

Definition log_at (p : ptr) (l : list (ptr * entry)) : list entry :=
  omap (fun '(p', x) => if decide (p' = p) then Some x else None) l.

Lemma threads_at_cons p t ts : threads_at p (t :: ts) = at_slot p t ++ threads_at p ts.
Proof. done. Qed.

Lemma threads_at_app p ts1 ts2 : threads_at p (ts1 ++ ts2) = threads_at p ts1 ++ threads_at p ts2.
Proof. apply bind_app. Qed.

Lemma threads_at_on p p' ts :
  threads_at p (map (On p') ts) = if decide (p' = p) then ts else [].
Proof.
  induction ts as [|t ts IH]; [by case_decide|]. cbn [map]. rewrite threads_at_cons, IH.
  simpl. by case_decide.
Qed.

Lemma log_at_app p l1 l2 : log_at p (l1 ++ l2) = log_at p l1 ++ log_at p l2.
Proof. apply omap_app. Qed.

Lemma log_at_pair p p' l : log_at p (map (pair p') l) = if decide (p' = p) then l else [].
Proof.
  induction l as [|x l IH]; [by case_decide|]. cbn [map].
  change ((p', x) :: map (pair p') l) with ([(p', x)] ++ map (pair p') l).
  rewrite log_at_app, IH. unfold log_at. simpl. by case_decide.
Qed.

Lemma elem_of_log_at p x l : x ∈ log_at p l <-> (p, x) ∈ l.
Proof.
  unfold log_at. rewrite list_elem_of_omap. split.
  - intros ([p' x'] & Hin & Heq). case_decide; naive_solver.
  - intros Hin. exists (p, x). by rewrite decide_True.
Qed.

(** Threads that fill the slot at [p], and those that still have to register it. *)
Definition filling (p : ptr) (t : tthread) : nat :=
  match t with Filling p' _ _ _ _ => if decide (p' = p) then 1 else 0 | _ => 0 end.

Definition starting (p : ptr) (t : tthread) : nat :=
  match t with
  | StartEnter p' _ _ _ _ | StartAdd p' _ _ _ => if decide (p' = p) then 1 else 0
  | _ => 0
  end.

(** The descriptor and the handle of such a thread. *)
Definition start_of (t : tthread) : option (ptr * Z * Z) :=
  match t with
  | StartEnter p fd id _ _ | StartAdd p fd id _ => Some (p, fd, id)
  | _ => None
  end.

(** Where a thread can be before its event is registered: it came with a handle
    of an earlier event. *)
Definition early (t : thread) : bool :=
  match t with
  | Dispatch _ _ | DispatchCheck _ _ | Cancel _ | CancelCheck _ | Release
  | OpenEnter _ _ _ | OpenAdd _ _ => true
  | _ => false
  end.

(** The generation that a thread has not compared yet. *)
Definition asks (t : thread) : option Z :=
  match t with
  | Dispatch g _ | DispatchCheck g _ | Cancel g | CancelCheck g => Some g
  | _ => None
  end.

(** The kernel knows the descriptor of the event. *)
Definition listed (sl : slot) (ts : list thread) : Prop :=
  closed (state (ev sl)) = false \/ (0 < total closing ts)%nat.

Abbreviation slot_addr T i := (slab_addr (tb_slab T) i).

Record slot_ok (T : table) (ts : list tthread) (i : Z) (live : bool) (sl : slot) : Prop := {
  so_reach : exists ts', ts' ≡ₚ threads_at (slot_addr T i) ts /\ reachable sl ts';
  so_gen : gen_at (tb_slab T) (tb_mem T) i = Some (generation sl);
  so_range : 1 <= generation sl < 2 ^ 32;
  so_obj : match tb_objs T !! slot_addr T i with
           | Some o => obj_event o = ev sl
           | None => threads_at (slot_addr T i) ts = [] /\ in_use sl = false
           end;
  so_log : log sl = log_at (slot_addr T i) (tb_log T);
  so_live : (Nat.b2n (in_use sl) + total (filling (slot_addr T i)) ts = Nat.b2n live)%nat;
  so_start : forall t fd id, t ∈ ts -> start_of t = Some (slot_addr T i, fd, id) ->
    id = ntt_event_handle_of i (generation sl) /\ in_use sl = true /\ closed (state (ev sl)) = false /\
    exists o, tb_objs T !! slot_addr T i = Some o /\ obj_fd o = fd;
  so_one : (total (starting (slot_addr T i)) ts <= 1)%nat;
  so_early : (0 < total (starting (slot_addr T i)) ts)%nat ->
    Forall (fun t => early t = true) (threads_at (slot_addr T i) ts);
  so_known : in_use sl = true -> total (starting (slot_addr T i)) ts = 0%nat ->
    exists o, tb_objs T !! slot_addr T i = Some o /\
      (ntt_event_handle_of i (generation sl), obj_fd o) ∈ tb_issued T /\
      (listed sl (threads_at (slot_addr T i) ts) ->
       exists mask, tb_epoll T !! obj_fd o = Some (mask, ntt_event_handle_of i (generation sl)));
}.

(** ** The table *)
Definition is_slot (T : table) (i : Z) (p : ptr) : Prop :=
  0 <= i < slab_size (tb_slab T) /\ p = slot_addr T i.

Definition thread_ok (T : table) (t : tthread) : Prop :=
  match t with
  | Opening _ _ _ _ => True
  | Filling p _ _ _ _ | StartEnter p _ _ _ _ | StartAdd p _ _ _ => exists i, is_slot T i p
  | AskDispatch h _ | AskCancel h => exists fd, (h, fd) ∈ tb_issued T
  | On p t => exists i, is_slot T i p /\ is_Some (tb_objs T !! p) /\
      forall g, asks t = Some g -> exists fd, (ntt_event_handle_of i g, fd) ∈ tb_issued T
  end.

Record table_inv (T : table) (ts : list tthread) (L : gset Z) (sl : Z -> slot) : Prop := {
  ti_wf : slab_wf (tb_slab T) (tb_mem T) L;
  ti_slots : forall i, 0 <= i < slab_size (tb_slab T) -> slot_ok T ts i (bool_decide (i ∈ L)) (sl i);
  ti_threads : Forall (thread_ok T) ts;
  ti_fds : forall fd, (total (registering fd) ts + Nat.b2n (bool_decide (is_Some (tb_epoll T !! fd))) <= 1)%nat;
  ti_epoll : forall fd mask h, tb_epoll T !! fd = Some (mask, h) ->
    (h, fd) ∈ tb_issued T /\ exists i, 0 <= i < slab_size (tb_slab T) /\
      h = ntt_event_handle_of i (generation (sl i)) /\ in_use (sl i) = true /\
      total (starting (slot_addr T i)) ts = 0%nat /\ listed (sl i) (threads_at (slot_addr T i) ts);
  ti_issued : forall h fd, (h, fd) ∈ tb_issued T -> exists i g, 0 <= i < slab_size (tb_slab T) /\
      h = ntt_event_handle_of i g /\ 1 <= g <= generation (sl i) /\ is_Some (tb_objs T !! slot_addr T i) /\
      (g = generation (sl i) -> in_use (sl i) = true /\ total (starting (slot_addr T i)) ts = 0%nat);
  ti_unique : NoDup (tb_issued T).*1;
  ti_objs : forall p, is_Some (tb_objs T !! p) -> exists i, is_slot T i p;
  ti_log : forall p x, (p, x) ∈ tb_log T -> exists i, is_slot T i p;
}.

(** ** Permutations *)
#[global] Instance threads_at_perm p : Proper (Permutation ==> Permutation) (threads_at p).
Proof. apply bind_Permutation. Qed.

Lemma listed_perm sl ts ts' : ts ≡ₚ ts' -> listed sl ts -> listed sl ts'.
Proof. intros Hp. unfold listed. by rewrite (total_perm closing _ _ Hp). Qed.

Lemma event_step_perm sl ts sl' ts' us :
  event_step (sl, ts) (sl', ts') -> ts ≡ₚ us ->
  exists us', event_step (sl, us) (sl', us') /\ us' ≡ₚ ts'.
Proof.
  intros Hs Hp. inversion Hs as [? l1 t l2 ? new Hex|? ? g events|? ? g|? ? p events fl ? t Hu Ho]; subst.
  - assert (t ∈ us) as (k1 & k2 & ->)%list_elem_of_split.
    { rewrite <- Hp. apply elem_of_app. right. by left. }
    exists (k1 ++ new ++ k2). split; [by constructor|].
    assert (Hk : l1 ++ l2 ≡ₚ k1 ++ k2).
    { apply (Permutation_cons_inv (a := t)). by rewrite !Permutation_middle. }
    rewrite !(Permutation_app_swap_app _ new). by rewrite Hk.
  - exists (Dispatch g events :: us). split; [constructor|by rewrite Hp].
  - exists (Cancel g :: us). split; [constructor|by rewrite Hp].
  - exists (t :: us). split; [by econstructor|by rewrite Hp].
Qed.

(** A slot that follows a step of [Event] on the threads at [p]. *)
Lemma reach_step sl ts sl' ts' :
  (exists us, us ≡ₚ ts /\ reachable sl us) -> event_step (sl, ts) (sl', ts') ->
  exists us, us ≡ₚ ts' /\ reachable sl' us.
Proof.
  intros (us & Hp & e & g & Hr) Hs.
  destruct (event_step_perm _ _ _ _ us Hs) as (us' & Hs' & Hp'); [done|].
  exists us'. split; [done|]. exists e, g. by eapply rtc_r.
Qed.

Lemma reach_perm sl ts ts' :
  ts ≡ₚ ts' -> (exists us, us ≡ₚ ts /\ reachable sl us) -> exists us, us ≡ₚ ts' /\ reachable sl us.
Proof. intros Hp (us & Hu & Hr). exists us. split; [by rewrite Hu|done]. Qed.

(** What [Event] knows of the slot. *)
Lemma slot_ok_inv T ts i live sl :
  slot_ok T ts i live sl -> slot_inv sl (threads_at (slot_addr T i) ts).
Proof. intros [(us & Hp & Hr%reachable_inv) _ _ _ _ _ _ _ _ _]. by eapply slot_inv_perm. Qed.

Lemma slot_ok_perm T ts ts' i live sl : ts ≡ₚ ts' -> slot_ok T ts i live sl -> slot_ok T ts' i live sl.
Proof.
  intros Hp []. split; try done; rewrite <- ?(total_perm _ _ _ Hp); try done.
  - eapply reach_perm; [|done]. by rewrite Hp.
  - destruct (tb_objs T !! _); [done|]. destruct so_obj0 as [Hn Hu]. split; [|done].
    apply Permutation_nil_r. by rewrite <- Hp, Hn.
  - intros t fd id Ht. apply so_start0. by rewrite Hp.
  - intros Hpos. eapply Forall_Permutation; [| |by apply so_early0]; [done|]. by rewrite Hp.
  - intros Hu Hz. destruct (so_known0 Hu Hz) as (o & Ho & Hi & Hl). exists o. split_and!; [done..|].
    intros Hls. apply Hl. eapply listed_perm; [|exact Hls]. by rewrite Hp.
Qed.

Lemma table_inv_perm T ts ts' L sl : ts ≡ₚ ts' -> table_inv T ts L sl -> table_inv T ts' L sl.
Proof.
  intros Hp []. split; try done.
  - intros i Hi. eapply slot_ok_perm; [exact Hp|]. by apply ti_slots0.
  - by rewrite <- Hp.
  - intros fd. by rewrite <- (total_perm _ _ _ Hp).
  - intros fd mask h Hf. destruct (ti_epoll0 fd mask h Hf) as (Hi & i & Hr & Hh & Hu & Hst & Hl).
    split; [done|]. exists i. rewrite <- (total_perm _ _ _ Hp). split_and!; try done; [lia..|].
    eapply listed_perm; [|exact Hl]. by rewrite Hp.
  - intros h fd Hi. destruct (ti_issued0 h fd Hi) as (i & g & Hr & Hh & Hg & Ho & Hc).
    exists i, g. rewrite <- (total_perm _ _ _ Hp). by split_and!; try lia.
Qed.

(** ** Handles *)
Lemma handle_inj i g j k :
  0 <= i < 2 ^ 32 -> 0 <= g < 2 ^ 32 -> 0 <= j < 2 ^ 32 -> 0 <= k < 2 ^ 32 ->
  ntt_event_handle_of i g = ntt_event_handle_of j k -> i = j /\ g = k.
Proof.
  intros Hi Hg Hj Hk Heq.
  destruct (event_handle_roundtrip i g Hi Hg) as [H1 H2], (event_handle_roundtrip j k Hj Hk) as [H3 H4].
  split; congruence.
Qed.

(** ** One slot moves, the others stay *)

(** The object a thread of the table works on. *)
Definition about (t : tthread) : option ptr :=
  match t with
  | On p _ | Filling p _ _ _ _ | StartEnter p _ _ _ _ | StartAdd p _ _ _ => Some p
  | _ => None
  end.

Lemma away_nothing p t :
  about t <> Some p -> at_slot p t = [] /\ filling p t = 0%nat /\ starting p t = 0%nat /\
  forall fd id, start_of t <> Some (p, fd, id).
Proof. destruct t; simpl; intros Hne; repeat case_decide; subst; split_and!; congruence. Qed.

Lemma away_all p ts :
  Forall (fun t => about t <> Some p) ts ->
  threads_at p ts = [] /\ total (filling p) ts = 0%nat /\ total (starting p) ts = 0%nat /\
  forall t fd id, t ∈ ts -> start_of t <> Some (p, fd, id).
Proof.
  induction 1 as [|t ts Ht _ (IH1 & IH2 & IH3 & IH4)]; [split_and!; try done; by intros ? ? ? ?%elem_of_nil|].
  destruct (away_nothing p t Ht) as (H1 & H2 & H3 & H4).
  rewrite threads_at_cons, !total_cons, H1, H2, H3, IH1, IH2, IH3. split_and!; try done.
  intros t' fd id [->|Hin]%elem_of_cons; [apply H4|by apply IH4].
Qed.

(** Nothing of the table changes for the slot [j]. *)
Record same_slot (T T' : table) (j : Z) : Prop := {
  ss_addr : slot_addr T' j = slot_addr T j;
  ss_gen : gen_at (tb_slab T') (tb_mem T') j = gen_at (tb_slab T) (tb_mem T) j;
  ss_obj : tb_objs T' !! slot_addr T j = tb_objs T !! slot_addr T j;
  ss_log : log_at (slot_addr T j) (tb_log T') = log_at (slot_addr T j) (tb_log T);
}.

Lemma slot_ok_frame T T' old new rest j live sl :
  slot_ok T (old ++ rest) j live sl -> same_slot T T' j ->
  Forall (fun t => about t <> Some (slot_addr T j)) old ->
  Forall (fun t => about t <> Some (slot_addr T j)) new ->
  tb_issued T ⊆ tb_issued T' ->
  (forall fd mask, tb_epoll T !! fd = Some (mask, ntt_event_handle_of j (generation sl)) ->
    tb_epoll T' !! fd = Some (mask, ntt_event_handle_of j (generation sl))) ->
  slot_ok T' (new ++ rest) j live sl.
Proof.
  intros Hok [Ha Hg Ho Hl] Hold Hnew Hiss Hep.
  destruct (away_all _ _ Hold) as (O1 & O2 & O3 & O4), (away_all _ _ Hnew) as (N1 & N2 & N3 & N4).
  destruct Hok as [H1 H2 H3 H4 H5 H6 H7 H8 H9 H10].
 
  assert (Et : threads_at (slot_addr T j) (new ++ rest) = threads_at (slot_addr T j) (old ++ rest))
    by (by rewrite !threads_at_app, O1, N1).
  assert (Ef : total (filling (slot_addr T j)) (new ++ rest) = total (filling (slot_addr T j)) (old ++ rest))
    by (rewrite !total_app; lia).
  assert (Es : total (starting (slot_addr T j)) (new ++ rest) = total (starting (slot_addr T j)) (old ++ rest))
    by (rewrite !total_app; lia).
  split; rewrite ?Ha, ?Hg, ?Ho, ?Hl, ?Et, ?Ef, ?Es; try done.
  - intros t fd id [Hin|Hin]%elem_of_app Hs; [by edestruct N4|]. eapply H7; [|exact Hs].
    apply elem_of_app. by right.
  - intros Hu Hz. destruct (H10 Hu Hz) as (o & Hobj & Hi & Hm). exists o. split_and!; [done|by apply Hiss|].
    intros Hls. destruct (Hm Hls) as [mask Hmask]. exists mask. by apply Hep.
Qed.

Lemma thread_ok_mono T T' t :
  slab_size (tb_slab T) <= slab_size (tb_slab T') ->
  (forall i, 0 <= i < slab_size (tb_slab T) -> slot_addr T' i = slot_addr T i) ->
  (forall p, is_Some (tb_objs T !! p) -> is_Some (tb_objs T' !! p)) ->
  tb_issued T ⊆ tb_issued T' -> thread_ok T t -> thread_ok T' t.
Proof.
  intros Hsz Ha Ho Hi.
  assert (Hs : forall i p, is_slot T i p -> is_slot T' i p).
  { intros i p [Hr ->]. split; [lia|]. by rewrite Ha. }
  destruct t; simpl; try done.
  - intros [i Hp]. eauto.
  - intros [i Hp]. eauto.
  - intros [i Hp]. eauto.
  - intros [fd Hp]. eauto.
  - intros [fd Hp]. eauto.
  - intros (i & Hp & Hob & Hask). exists i. split_and!; [eauto..|]. intros g Hg.
    destruct (Hask g Hg) as [fd Hfd]. eauto.
Qed.

Definition upd (i : Z) (s : slot) (sl : Z -> slot) : Z -> slot := fun j => if decide (j = i) then s else sl j.

Lemma upd_eq i s sl : upd i s sl i = s.
Proof. unfold upd. by rewrite decide_True. Qed.

Lemma upd_ne i j s sl : j <> i -> upd i s sl j = sl j.
Proof. intros Hne. unfold upd. by rewrite decide_False. Qed.
