(* ===== verification/EventTableSteps.v ===== *)
(** * All events of a loop: every step keeps the invariant

    A step of a thread moves one slot, by a step of [Event] or by taking and
    giving back the slot; the lemmas on [Slab] say that no other slot sees it. *)

From stdpp Require Import base numbers list gmap relations.
From Stdlib Require Import ZArith Lia.
From S2P Require Import Prelude.
From S2P Require Import Slab.
From S2P Require Import SlabInv.
From S2P Require Import SlabOps.
From S2P Require Import SlabProps.
From S2P Require Import Event.
From S2P Require Import EventInv.
From S2P Require Import EventSteps.
From S2P Require Import EventProps.
From S2P Require Import EventTable.
From S2P Require Import EventTableInv.

#[local] Open Scope Z_scope.

(** ** The slab does not move slots *)

(** The slab is the same but for the slot [i]. *)
Record slab_moved (T T' : table) (i : Z) : Prop := {
  sm_size : slab_size (tb_slab T') = slab_size (tb_slab T);
  sm_addr : forall j, slot_addr T' j = slot_addr T j;
  sm_gens : forall j, 0 <= j < slab_size (tb_slab T) -> j <> i ->
    gen_at (tb_slab T') (tb_mem T') j = gen_at (tb_slab T) (tb_mem T) j;
}.

Lemma slab_moved_same T T' i :
  tb_slab T' = tb_slab T -> tb_mem T' = tb_mem T -> slab_moved T T' i.
Proof. intros Hs Hm. split; intros; by rewrite ?Hs, ?Hm. Qed.

Section inv.
Context (T : table) (L : gset Z) (sl : Z -> slot).

Lemma addr_ne ts i j :
  table_inv T ts L sl -> 0 <= i < slab_size (tb_slab T) -> 0 <= j < slab_size (tb_slab T) ->
  j <> i -> slot_addr T i <> slot_addr T j.
Proof.
  intros Hinv Hi Hj Hne Heq. apply Hne. symmetry. destruct (ti_wf _ _ _ _ Hinv) as (fl & Hsl & _).
  by eapply slab_addr_inj; [apply Hsl|..].
Qed.

Lemma index_range ts i :
  table_inv T ts L sl -> 0 <= i < slab_size (tb_slab T) ->
  0 <= i < 2 ^ 32 /\ 0 <= generation (sl i) < 2 ^ 32.
Proof.
  intros Hinv Hi. destruct (ti_wf _ _ _ _ Hinv) as (fl & Hsl & _).
  pose proof (slab_size_max _ _ _ (sb_geom _ _ _ Hsl)).
  pose proof (so_range _ _ _ _ _ (ti_slots _ _ _ _ Hinv i Hi)). lia.
Qed.

(** The handles of two slots differ. *)
Lemma handle_slot ts i j g :
  table_inv T ts L sl -> 0 <= i < slab_size (tb_slab T) -> 0 <= j < slab_size (tb_slab T) ->
  0 <= g < 2 ^ 32 -> ntt_event_handle_of i (generation (sl i)) = ntt_event_handle_of j g ->
  i = j /\ generation (sl i) = g.
Proof.
  intros Hinv Hi Hj Hg Heq. destruct (index_range ts i Hinv Hi), (index_range ts j Hinv Hj).
  by apply handle_inj.
Qed.

(** An issued handle of a slot that carries its generation is of a started event. *)
Lemma issued_current ts i fd :
  table_inv T ts L sl -> 0 <= i < slab_size (tb_slab T) ->
  (ntt_event_handle_of i (generation (sl i)), fd) ∈ tb_issued T ->
  in_use (sl i) = true /\ total (starting (slot_addr T i)) ts = 0%nat.
Proof.
  intros Hinv Hi Hiss. destruct (ti_issued _ _ _ _ Hinv _ _ Hiss) as (j & g & Hj & Hh & Hg & _ & Hc).
  destruct (index_range ts j Hinv Hj).
  destruct (handle_slot ts i j g Hinv Hi Hj) as [<- <-]; [lia|done|]. by apply Hc.
Qed.

(** The same for a handle that the kernel carries. *)
Lemma epoll_current ts i fd mask :
  table_inv T ts L sl -> 0 <= i < slab_size (tb_slab T) ->
  tb_epoll T !! fd = Some (mask, ntt_event_handle_of i (generation (sl i))) ->
  (ntt_event_handle_of i (generation (sl i)), fd) ∈ tb_issued T /\ in_use (sl i) = true /\
  total (starting (slot_addr T i)) ts = 0%nat /\ listed (sl i) (threads_at (slot_addr T i) ts).
Proof.
  intros Hinv Hi Hf. destruct (ti_epoll _ _ _ _ Hinv _ _ _ Hf) as (Hin & j & Hj & Hh & Hu & Hst & Hl).
  destruct (index_range ts j Hinv Hj) as [_ Hg].
  by destruct (handle_slot ts i j (generation (sl j)) Hinv Hi Hj Hg Hh) as [<- _].
Qed.

(** ** The slot [i] moves *)
Lemma table_inv_update T' i s' old new rest L' :
  table_inv T (old ++ rest) L sl -> 0 <= i < slab_size (tb_slab T) ->
  slab_moved T T' i -> slab_wf (tb_slab T') (tb_mem T') L' ->
  (forall j, j <> i -> j ∈ L' <-> j ∈ L) ->
  (forall p, p <> slot_addr T i -> tb_objs T' !! p = tb_objs T !! p /\
    log_at p (tb_log T') = log_at p (tb_log T)) ->
  is_Some (tb_objs T' !! slot_addr T i) ->
  Forall (fun t => match about t with Some p => p = slot_addr T i | None => True end) (old ++ new) ->
  slot_ok T' (new ++ rest) i (bool_decide (i ∈ L')) s' ->
  Forall (thread_ok T') new ->
  tb_issued T ⊆ tb_issued T' ->
  (forall fd, (total (registering fd) (new ++ rest) +
               Nat.b2n (bool_decide (is_Some (tb_epoll T' !! fd))) <= 1)%nat) ->
  (forall j fd mask, j <> i -> 0 <= j < slab_size (tb_slab T) ->
    tb_epoll T !! fd = Some (mask, ntt_event_handle_of j (generation (sl j))) ->
    tb_epoll T' !! fd = Some (mask, ntt_event_handle_of j (generation (sl j)))) ->
  (forall fd mask h, tb_epoll T' !! fd = Some (mask, h) ->
    tb_epoll T !! fd = Some (mask, h) /\ h <> ntt_event_handle_of i (generation (sl i)) \/
    (h, fd) ∈ tb_issued T' /\ h = ntt_event_handle_of i (generation s') /\ in_use s' = true /\
    total (starting (slot_addr T i)) (new ++ rest) = 0%nat /\
    listed s' (threads_at (slot_addr T i) (new ++ rest))) ->
  (forall h fd, (h, fd) ∈ tb_issued T' -> (h, fd) ∈ tb_issued T \/
    h = ntt_event_handle_of i (generation s')) ->
  generation (sl i) <= generation s' ->
  (forall fd, (ntt_event_handle_of i (generation s'), fd) ∈ tb_issued T' ->
    in_use s' = true /\ total (starting (slot_addr T i)) (new ++ rest) = 0%nat) ->
  NoDup (tb_issued T').*1 ->
  table_inv T' (new ++ rest) L' (upd i s' sl).
Proof.
  intros Hinv Hi [Hsz Ha Hgs] Hwf HL Hoff Hobj Habout Hslot Hnew Hmono Hfds Hep Hepi Hiss Hgen Hcur Hnd.
  assert (Hothers : forall j, 0 <= j < slab_size (tb_slab T) -> j <> i ->
    slot_ok T' (new ++ rest) j (bool_decide (j ∈ L')) (sl j) /\
    threads_at (slot_addr T j) (new ++ rest) = threads_at (slot_addr T j) (old ++ rest) /\
    total (starting (slot_addr T j)) (new ++ rest) = total (starting (slot_addr T j)) (old ++ rest)).
  { intros j Hj Hne. pose proof (addr_ne _ i j Hinv Hi Hj Hne) as Hp.
    assert (Hall : Forall (fun t => about t <> Some (slot_addr T j)) (old ++ new)).
    { eapply Forall_impl; [exact Habout|]. intros t Ht Heq. cbn beta in Ht. by rewrite Heq in Ht. }
    apply Forall_app in Hall as [Hold' Hnew'].
    destruct (away_all _ _ Hold') as (O1 & _ & O3 & _), (away_all _ _ Hnew') as (N1 & _ & N3 & _).
    split_and!; [|by rewrite !threads_at_app, O1, N1|rewrite !total_app; lia].
    rewrite (bool_decide_ext _ _ (HL j Hne)).
    eapply slot_ok_frame; [by apply (ti_slots _ _ _ _ Hinv)|split; [..|]| | |done|]; try done.
    - by apply Hgs.
    - by apply Hoff.
    - by apply Hoff.
    - intros fd mask. by apply Hep. }
  assert (Hisl : forall j p, is_slot T j p -> is_slot T' j p).
  { intros j p [Hj ->]. split; [by rewrite Hsz|by rewrite Ha]. }
  split; [done| | |done| | |done| |].
  - intros j Hj. rewrite Hsz in Hj. destruct (decide (j = i)) as [->|Hne]; [by rewrite upd_eq|].
    rewrite upd_ne by done. by apply Hothers.
  - apply Forall_app. split; [done|]. pose proof (ti_threads _ _ _ _ Hinv) as Hts.
    apply Forall_app in Hts as [_ Hts]. eapply Forall_impl; [exact Hts|]. intros t.
    apply thread_ok_mono; [lia|auto| |done]. intros p Hp.
    destruct (decide (p = slot_addr T i)) as [->|Hne]; [done|]. by rewrite (proj1 (Hoff p Hne)).
  - intros fd mask h Hf. rewrite Hsz. destruct (Hepi _ _ _ Hf) as [[Hold Hne]|(His & -> & Hu & Hst & Hls)].
    + destruct (ti_epoll _ _ _ _ Hinv _ _ _ Hold) as (His & j & Hj & -> & Hu & Hst & Hls).
      split; [by apply Hmono|]. exists j. assert (j <> i) by congruence.
      rewrite Ha, upd_ne by done. destruct (Hothers j) as (_ & -> & ->); [done..|]. by split_and!; try lia.
    + split; [done|]. exists i. rewrite Ha, upd_eq. by split_and!; try lia.
  - intros h fd His. destruct (Hiss _ _ His) as [Hold| ->].
    + destruct (ti_issued _ _ _ _ Hinv _ _ Hold) as (j & g & Hj & -> & Hg & Hob & Hc). exists j, g.
      rewrite Hsz, Ha. destruct (decide (j = i)) as [->|Hne].
      * rewrite upd_eq. split_and!; [lia..|done|lia|lia|done|]. intros ->. by eapply Hcur.
      * rewrite upd_ne by done. destruct (Hothers j) as (_ & _ & ->); [done..|].
        rewrite (proj1 (Hoff _ ltac:(intros Heq; symmetry in Heq; revert Heq; by eapply addr_ne))).
        by split_and!; try lia.
    + exists i, (generation s'). rewrite Hsz, Ha, upd_eq.
      pose proof (so_range _ _ _ _ _ Hslot). split_and!; [lia..|done|lia|lia|done|]. intros _. by eapply Hcur.
  - intros p Hp. destruct (decide (p = slot_addr T i)) as [->|Hne]; [exists i; by apply Hisl|].
    rewrite (proj1 (Hoff p Hne)) in Hp. destruct (ti_objs _ _ _ _ Hinv p Hp) as [j Hj]. exists j. by apply Hisl.
  - intros p x Hp. destruct (decide (p = slot_addr T i)) as [->|Hne]; [exists i; by apply Hisl|].
    rewrite <- elem_of_log_at, (proj2 (Hoff p Hne)), elem_of_log_at in Hp.
    destruct (ti_log _ _ _ _ Hinv p x Hp) as [j Hj]. exists j. by apply Hisl.
Qed.
End inv.

(** ** A step of [Event] on the fields of an object *)

(** The step that gives the slot back. *)
Definition gives (t : thread) : bool := match t with Finish | Teardown => true | _ => false end.

Lemma exec_view t e g u l v new :
  exec t (view e g) = (v, new) ->
  exec t (mk_slot e g u l) =
    (mk_slot (ev v) (generation v) (if gives t then false else u) (l ++ log v), new) /\
  generation v = (if gives t then g + 1 else g) /\ (gives t = true -> ev v = e).
Proof.
  unfold view. destruct t as [g' events|g' events|g' [|s todo]|s g' todo|g' sides|g' k|s g' k|s g' k|s g' k|s g' k|s g' k
    | |s|g'|g'|g'|g'|g'|g'|s| | |g' fl events|g' events]; simpl;
    unfold live_acquire, live_check, ntt_event_deliver_side, serve_leave, cancel_close, ntt_event_release,
      ntt_event_cancelled_task_svc, ntt_event_finish, ntt_event_teardown, set_ev, emit; simpl;
    intros Heq; repeat (case_match; simplify_eq; simpl in * ); simplify_eq; simpl;
    rewrite ?app_nil_r; by rewrite <- ?app_assoc.
Qed.

(** A step that neither gives the slot back nor removes the descriptor closes
    the event only when it owes the removal. *)
Lemma exec_closed sl t sl' new :
  0 <= state (ev sl) < 32 -> exec t sl = (sl', new) -> gives t = false -> closing t = 0%nat ->
  (closed (state (ev sl')) = closed (state (ev sl)) /\ total closing new = 0%nat) \/
  (early t = false /\ closed (state (ev sl)) = false /\ total closing new = 1%nat).
Proof.
  intros Hst Heq Hg Hc.
  destruct t as [g events|g events|g [|s todo]|s g todo|g sides|g [|s k]|s g k|s g k|s g k|s g k|s g k
    | |s|g|g|g|g|g|g|s| | |g fl events|g events]; simpl in Heq, Hg, Hc; try done;
    try (unfold live_acquire, live_check, ntt_event_release, ntt_event_acquire_if_live, dispatch_live,
      ntt_event_cancelled_task_svc, set_ev, emit in Heq; simpl in Heq;
      repeat (case_match; simplify_eq; simpl in * ); simplify_eq; simpl; by left).
  - injection Heq as <- <-. left. split; [|done]. simpl. by apply publish_bits.
  - pose proof (claim_bits s _ Hst) as Hb. left.
    destruct (ntt_event_claim_side (state (ev sl)) s) as [st|]; injection Heq as <- <-; [|done].
    simpl. split; [|by case_match]. destruct Hb as (_ & _ & _ & -> & _ & _ & -> & _). done.
  - unfold serve_leave in Heq. destruct (ntt_event_leave_side (state (ev sl)) s) as [again st] eqn:Hl.
    destruct (leave_bits s _ _ _ Hst Hl) as (_ & _ & _ & _ & Hcl & _). injection Heq as <- <-.
    left. split; [done|]. by destruct again.
  - unfold cancel_close in Heq. destruct (close_bits _ Hst) as (_ & Hcl & Hz & _). rewrite Hz in Heq.
    injection Heq as <- <-. destruct (closed (state (ev sl))) eqn:Hcs; simpl; [left|by right]. by rewrite Hcl.
Qed.

(** Whether the kernel knows the descriptor changes by its removal only. *)
Lemma exec_listed sl t sl' new rest :
  0 <= state (ev sl) < 32 -> exec t sl = (sl', new) ->
  gives t = false -> closing t = 0%nat -> listed sl' (new ++ rest) <-> listed sl (t :: rest).
Proof.
  intros Hst Heq Hg Hc. unfold listed. rewrite total_app, total_cons, Hc.
  destruct (exec_closed _ _ _ _ Hst Heq Hg Hc) as [[-> ->]|(_ & -> & ->)]; [done|].
  split; [by left|right; lia].
Qed.

(** What a thread becomes before the event is registered. *)
Lemma exec_early sl t sl' new :
  exec t sl = (sl', new) -> early t = true -> asks t <> Some (generation sl) ->
  (t = Release -> refs (ev sl) <> 1) -> Forall (fun t => early t = true) new.
Proof.
  intros Heq He Ha Hr. destruct t; simpl in Heq, He, Ha; try done.
  - unfold live_acquire in Heq. case_match; simplify_eq; by repeat constructor.
  - unfold live_check in Heq. destruct (Z.eqb_spec (generation sl) g); [congruence|].
    simplify_eq. by repeat constructor.
  - unfold ntt_event_release in Heq. destruct (Z.eqb_spec (refs (ev sl)) 1); [by specialize (Hr eq_refl)|].
    simpl in Heq. simplify_eq. constructor.
  - unfold live_acquire in Heq. case_match; simplify_eq; by repeat constructor.
  - unfold live_check in Heq. destruct (Z.eqb_spec (generation sl) g); [congruence|].
    simplify_eq. by repeat constructor.
  - simplify_eq. by repeat constructor.
  - simplify_eq. constructor.
Qed.

(** A thread only goes on asking for the generation it came with. *)
Lemma exec_asks sl t sl' new t' g :
  exec t sl = (sl', new) -> t' ∈ new -> asks t' = Some g -> asks t = Some g.
Proof.
  intros Heq Hin Hg.
  destruct t as [g' events|g' events|g' [|s todo]|s g' todo|g' sides|g' [|s k]|s g' k|s g' k|s g' k|s g' k|s g' k
    | |s|g'|g'|g'|g'|g'|g'|s| | |g' fl events|g' events]; simpl in Heq;
    unfold live_acquire, live_check, ntt_event_release, ntt_event_acquire_if_live, dispatch_live,
      ntt_event_deliver_side, serve_leave, cancel_close, ntt_event_post_cancelled,
      ntt_event_cancelled_task_svc, set_ev, emit in Heq; simpl in Heq;
    repeat (case_match; simplify_eq; simpl in * ); simplify_eq; simpl in *; set_unfold in Hin;
    destruct_or?; subst; simpl in Hg; try done.
Qed.

Lemma start_starting p fd id t : start_of t = Some (p, fd, id) -> starting p t = 1%nat.
Proof. destruct t; simpl; intros; simplify_eq; by rewrite decide_True. Qed.

Lemma start_total p fd id t ts : t ∈ ts -> start_of t = Some (p, fd, id) -> (0 < total (starting p) ts)%nat.
Proof. intros Hin Hs%start_starting. pose proof (total_elem (starting p) ts t Hin). lia. Qed.

Lemma on_counts p p' ts :
  total (filling p) (map (On p') ts) = 0%nat /\ total (starting p) (map (On p') ts) = 0%nat /\
  forall t fd id, t ∈ map (On p') ts -> start_of t <> Some (p, fd, id).
Proof.
  induction ts as [|t ts (IH1 & IH2 & IH3)]; [split_and!; try done; by intros ? ? ? ?%elem_of_nil|].
  cbn [map]. rewrite !total_cons, IH1, IH2. split_and!; [done..|].
  intros t' fd id [->|Hin]%elem_of_cons; [done|by apply IH3].
Qed.

(** The slot after a step of a thread that has its object. *)
Definition on_slot (sl : slot) (t : thread) (v : slot) : slot :=
  mk_slot (ev v) (generation v) (if gives t then false else in_use sl) (log sl ++ log v).

Lemma on_event_step sl t v new ts :
  exec t (view (ev sl) (generation sl)) = (v, new) ->
  exec t sl = (on_slot sl t v, new) /\ event_step (sl, t :: ts) (on_slot sl t v, new ++ ts).
Proof.
  intros [Hx _]%(exec_view _ _ _ (in_use sl) (log sl)).
  replace (mk_slot (ev sl) (generation sl) (in_use sl) (log sl)) with sl in Hx by (by destruct sl).
  split; [done|]. by apply (step_exec sl [] t ts).
Qed.

Lemma on_slot_ok T T' i t rest live live' sl o v new :
  slot_ok T (On (slot_addr T i) t :: rest) i live sl ->
  tb_objs T !! slot_addr T i = Some o ->
  exec t (view (obj_event o) (generation sl)) = (v, new) ->
  (asks t = Some (generation sl) -> total (starting (slot_addr T i)) rest = 0%nat) ->
  slot_addr T' i = slot_addr T i ->
  gen_at (tb_slab T') (tb_mem T') i = Some (generation v) -> 1 <= generation v < 2 ^ 32 ->
  tb_objs T' !! slot_addr T i = Some (mk_object (ev v) (obj_fd o)) ->
  log_at (slot_addr T i) (tb_log T') = log_at (slot_addr T i) (tb_log T) ++ log v ->
  tb_issued T' = tb_issued T ->
  (Nat.b2n (in_use (on_slot sl t v)) + total (filling (slot_addr T i)) rest = Nat.b2n live')%nat ->
  (gives t = false -> in_use sl = true -> total (starting (slot_addr T i)) rest = 0%nat ->
   listed (on_slot sl t v) (new ++ threads_at (slot_addr T i) rest) ->
   exists mask, tb_epoll T' !! obj_fd o = Some (mask, ntt_event_handle_of i (generation sl))) ->
  slot_ok T' (map (On (slot_addr T i)) new ++ rest) i live' (on_slot sl t v).
Proof.
  intros Hok Hobj Hex Hasks Ha Hg Hgr Ho Hl Hiss Hlive Hep. pose proof (slot_ok_inv _ _ _ _ _ Hok) as Hsi.
  set (p := slot_addr T i) in *. rewrite threads_at_cons in Hsi. simpl in Hsi. rewrite decide_True in Hsi by done.
  assert (Hob : obj_event o = ev sl) by (pose proof (so_obj _ _ _ _ _ Hok) as Hx; fold p in Hx; by rewrite Hobj in Hx).
  rewrite Hob in Hex. destruct (on_event_step sl t v new (threads_at p rest) Hex) as [Hex' Hstep].
  destruct (exec_view t (ev sl) (generation sl) (in_use sl) (log sl) v new Hex) as (_ & Hgv & _).
  destruct (on_counts p p new) as (Hf & Hs & Hn).
  assert (Htt : threads_at p (map (On p) new ++ rest) = new ++ threads_at p rest)
    by (by rewrite threads_at_app, threads_at_on, decide_True).
  assert (Hold : threads_at p (On p t :: rest) = t :: threads_at p rest)
    by (rewrite threads_at_cons; simpl; by rewrite decide_True).
  destruct Hok as [H1 H2 H3 _ H5 H6 H7 H8 H9 H10]. fold p in H1, H5, H6, H7, H8, H9, H10.
  rewrite Hold in H1, H9, H10. rewrite total_cons in H8, H9, H10. simpl in H8, H9, H10.
  assert (Hearly : (0 < total (starting p) rest)%nat ->
    early t = true /\ gives t = false /\ closing t = 0%nat /\ Forall (fun t => early t = true) (threads_at p rest)).
  { intros Hpos. specialize (H9 Hpos). apply Forall_cons in H9 as [He Hr]. split_and!; try done; by destruct t. }
  split; rewrite ?Ha; fold p; rewrite ?Htt, ?total_app, ?Hf, ?Hs, ?Ho; simpl; try done.
  - eapply reach_step; [exact H1|exact Hstep].
  - by rewrite Hl, H5.
  - intros t' fd id [Hin|Hin]%elem_of_app Hst; [by edestruct Hn|].
    destruct (Hearly (start_total _ _ _ _ _ Hin Hst)) as (He & Hgi & Hcl & _).
    destruct (H7 t' fd id) as (-> & Hu & Hc & o' & Ho' & Hfd); [by right|done|].
    rewrite Hgv, Hgi. split_and!; [done|done| |].
    + destruct (exec_closed sl t _ new (i_state _ _ Hsi) Hex' Hgi Hcl) as [[Hcl' _]|[Hx _]];
        [by rewrite <- Hc|congruence].
    + exists (mk_object (ev v) (obj_fd o)). split; [done|]. simpl. congruence.
  - intros Hpos. destruct (Hearly Hpos) as (He & Hgi & _ & Hr). apply Forall_app. split; [|done].
    eapply exec_early; [exact Hex'|done| |].
    + intros Hx. specialize (Hasks Hx). lia.
    + intros ->. destruct (total_pos (starting p) rest Hpos) as (t' & Hin & Ht').
      assert (exists fd id, start_of t' = Some (p, fd, id)) as (fd & id & Hst).
      { destruct t'; simpl in *; try lia; case_decide; subst; eauto; lia. }
      destruct (H7 t' fd id) as (_ & Hu & Hc & _); [by right|done|].
      rewrite (i_refs _ _ Hsi), Hu, Hc, total_app. simpl. lia.
  - intros Hu Hz. rewrite Hiss. destruct (gives t) eqn:Hgi; [done|]. rewrite Hgv.
    destruct (H10 Hu Hz) as (o' & Ho' & Hin & _). assert (o' = o) as -> by congruence.
    exists (mk_object (ev v) (obj_fd o)). split_and!; [done|done|]. intros Hls. by apply Hep.
Qed.

(** ** Steps of threads that have their object *)
Section steps.
Context `{Platform} `{Allocator, !AllocatorLaws} `{Epoll}.
Implicit Types (T : table) (rest : list tthread) (sl : Z -> slot).

(** Everything the step of [On p t] sees. *)
Lemma on_sees T p t rest L sl :
  table_inv T (On p t :: rest) L sl ->
  exists i o, 0 <= i < slab_size (tb_slab T) /\ p = slot_addr T i /\ tb_objs T !! p = Some o /\
    obj_event o = ev (sl i) /\ ntt_slab_generation (tb_mem T) p = Ok (generation (sl i)) /\
    ntt_slab_index (tb_mem T) p = Ok i /\
    slot_inv (sl i) (t :: threads_at p rest) /\
    (asks t = Some (generation (sl i)) -> total (starting p) rest = 0%nat).
Proof.
  intros Hinv. pose proof (Forall_inv (ti_threads _ _ _ _ Hinv)) as (i & [Hi ->] & [o Ho] & Hask).
  pose proof (ti_slots _ _ _ _ Hinv i Hi) as Hok. destruct (ti_wf _ _ _ _ Hinv) as (fl & Hsl & _).
  exists i, o. split_and!; try done; [lia..| | | | |].
  - pose proof (so_obj _ _ _ _ _ Hok) as Hx. by rewrite Ho in Hx.
  - destruct (generation_ok _ _ _ i Hsl Hi) as (g & Hg & ->). rewrite (so_gen _ _ _ _ _ Hok) in Hg.
    injection Hg as <-. pose proof (so_range _ _ _ _ _ Hok). by rewrite u32_small by lia.
  - by apply (index_ok _ _ fl).
  - pose proof (slot_ok_inv _ _ _ _ _ Hok) as Hs. rewrite threads_at_cons in Hs. simpl in Hs.
    by rewrite decide_True in Hs.
  - intros Hg. destruct (Hask _ Hg) as [fd Hfd].
    destruct (issued_current T L sl _ i fd Hinv Hi Hfd) as [_ Hst]. by rewrite total_cons in Hst.
Qed.

(** New threads with the same object. *)
Lemma on_threads_ok T T' i t new v s0 :
  thread_ok T (On (slot_addr T i) t) -> 0 <= i < slab_size (tb_slab T) ->
  (forall j, 0 <= j < slab_size (tb_slab T) -> slot_addr T' j = slot_addr T j) ->
  slab_size (tb_slab T') = slab_size (tb_slab T) ->
  is_Some (tb_objs T' !! slot_addr T i) -> tb_issued T' = tb_issued T ->
  exec t s0 = (v, new) -> Forall (thread_ok T') (map (On (slot_addr T i)) new).
Proof.
  intros (j & [Hj Haj] & _ & Hask) Hi Ha Hsz Ho Hiss Hex. apply Forall_forall. intros t' Ht'.
  apply list_elem_of_In, List.in_map_iff in Ht' as (t0 & <- & Ht0%list_elem_of_In).
  exists j. split_and!; [split; [lia|by rewrite Ha]|done|]. intros g Hg. rewrite Hiss.
  apply Hask. by eapply exec_asks.
Qed.

Lemma registering_on fd p new : total (registering fd) (map (On p) new) = 0%nat.
Proof. induction new; [done|]. cbn [map]. by rewrite total_cons. Qed.

Lemma about_on p new :
  Forall (fun t => match about t with Some p' => p' = p | None => True end) (map (On p) new).
Proof. apply Forall_forall. by intros t (t0 & <- & _)%list_elem_of_In%List.in_map_iff. Qed.

(** The parts of the table that a write to the object at [p] leaves alone. *)
Lemma write_off T T1 p o l p' :
  tb_objs T1 = tb_objs T -> tb_log T1 = tb_log T -> p' <> p ->
  tb_objs (tb_write p o l T1) !! p' = tb_objs T !! p' /\
  log_at p' (tb_log (tb_write p o l T1)) = log_at p' (tb_log T).
Proof.
  intros Ho Hl Hne. simpl. rewrite Ho, Hl, lookup_insert_ne by done. split; [done|].
  rewrite log_at_app, log_at_pair, decide_False, app_nil_r by done. done.
Qed.

Lemma write_log T T1 p o l :
  tb_log T1 = tb_log T -> log_at p (tb_log (tb_write p o l T1)) = log_at p (tb_log T) ++ l.
Proof. intros Hl. simpl. by rewrite Hl, log_at_app, log_at_pair, decide_True. Qed.

Lemma threads_at_head p t rest : threads_at p (On p t :: rest) = t :: threads_at p rest.
Proof. rewrite threads_at_cons. simpl. by rewrite decide_True. Qed.

Lemma threads_at_new p new rest : threads_at p (map (On p) new ++ rest) = new ++ threads_at p rest.
Proof. by rewrite threads_at_app, threads_at_on, decide_True. Qed.

(** A step with the object of slot [i], where [T1] is the table after what
    happens outside of the object. *)
Lemma on_update T T1 i t rest L L' sl o v new :
  table_inv T (On (slot_addr T i) t :: rest) L sl -> 0 <= i < slab_size (tb_slab T) ->
  tb_objs T !! slot_addr T i = Some o ->
  exec t (view (obj_event o) (generation (sl i))) = (v, new) ->
  slab_moved T T1 i -> slab_wf (tb_slab T1) (tb_mem T1) L' -> (forall j, j <> i -> j ∈ L' <-> j ∈ L) ->
  gen_at (tb_slab T1) (tb_mem T1) i = Some (generation v) -> generation v < 2 ^ 32 ->
  tb_objs T1 = tb_objs T -> tb_log T1 = tb_log T -> tb_issued T1 = tb_issued T ->
  (Nat.b2n (in_use (on_slot (sl i) t v)) + total (filling (slot_addr T i)) rest =
   Nat.b2n (bool_decide (i ∈ L')))%nat ->
  tb_epoll T1 ⊆ tb_epoll T ->
  (forall j fd mask, j <> i -> 0 <= j < slab_size (tb_slab T) ->
    tb_epoll T !! fd = Some (mask, ntt_event_handle_of j (generation (sl j))) ->
    tb_epoll T1 !! fd = Some (mask, ntt_event_handle_of j (generation (sl j)))) ->
  (forall fd mask, tb_epoll T1 !! fd = Some (mask, ntt_event_handle_of i (generation (sl i))) ->
    gives t = false /\ listed (on_slot (sl i) t v) (new ++ threads_at (slot_addr T i) rest)) ->
  (gives t = false -> listed (on_slot (sl i) t v) (new ++ threads_at (slot_addr T i) rest) ->
    listed (sl i) (t :: threads_at (slot_addr T i) rest) /\ tb_epoll T1 = tb_epoll T) ->
  table_inv (tb_write (slot_addr T i) (mk_object (ev v) (obj_fd o)) (log v) T1)
    (map (On (slot_addr T i)) new ++ rest) L' (upd i (on_slot (sl i) t v) sl).
Proof.
  intros Hinv Hi Ho Hex Hmv Hwf HL Hg1 Hgb Ho1 Hl1 Hi1 Hlive Hsub Hoth Hown Hls.
  pose proof (ti_slots _ _ _ _ Hinv i Hi) as Hok.
  destruct (on_sees _ _ _ _ _ _ Hinv) as (i' & o' & Hi' & Hp & Ho' & Hoe & _ & _ & Hsi & Hask).
  assert (i' = i) as ->.
  { destruct (decide (i' = i)) as [|Hne]; [done|]. by edestruct (addr_ne T L sl _ i i' Hinv). }
  assert (o' = o) as -> by congruence. pose proof Hex as Hex1. rewrite Hoe in Hex1.
  destruct (exec_view _ _ _ (in_use (sl i)) (log (sl i)) _ _ Hex1) as (_ & Hgv & _).
  assert (Hge : generation (sl i) <= generation v) by (destruct (gives t); lia).
  pose proof (so_range _ _ _ _ _ Hok) as Hgr.
  destruct (on_counts (slot_addr T i) (slot_addr T i) new) as (_ & Hs & _).
  set (T' := tb_write _ _ _ _).
  assert (Hsome : tb_objs T' !! slot_addr T i = Some (mk_object (ev v) (obj_fd o)))
    by (simpl; by rewrite lookup_insert_eq).
  eapply (table_inv_update T L sl _ i _ [On (slot_addr T i) t]); try done.
  - destruct Hmv. by split.
  - intros p' Hne. by apply write_off.
  - constructor; [done|]. apply about_on.
  - eapply on_slot_ok; try done; [apply (sm_addr _ _ _ Hmv)|lia|by apply write_log|].
    intros Hgi Hu Hz Hl. destruct (Hls Hgi Hl) as [Hl' Hepe]. rewrite <- threads_at_head in Hl'.
    destruct (so_known _ _ _ _ _ Hok Hu) as (o' & Ho2 & _ & Hm); [by rewrite total_cons|].
    assert (o' = o) as -> by congruence. simpl. rewrite Hepe. by apply Hm.
  - eapply on_threads_ok; try done; [by apply (Forall_inv (ti_threads _ _ _ _ Hinv))| |].
    + intros j _. apply (sm_addr _ _ _ Hmv).
    + apply (sm_size _ _ _ Hmv).
  - simpl. by rewrite Hi1.
  - intros fd. rewrite total_app, registering_on. pose proof (ti_fds _ _ _ _ Hinv fd) as Hf.
    rewrite total_cons in Hf. simpl in *. destruct (decide (is_Some (tb_epoll T1 !! fd))) as [Hx|Hx].
    + rewrite bool_decide_true by done. rewrite bool_decide_true in Hf; [lia|].
      destruct Hx as [x Hx]. exists x. by eapply lookup_weaken.
    + rewrite (bool_decide_false _ Hx). simpl. lia.
  - intros fd mask h Hf. pose proof (lookup_weaken _ _ _ _ Hf Hsub) as Hf0.
    destruct (decide (h = ntt_event_handle_of i (generation (sl i)))) as [->|]; [|by left].
    right. destruct (Hown _ _ Hf) as [Hgi Hl].
    destruct (epoll_current T L sl _ i fd mask Hinv Hi Hf0) as (Hin & Hu & Hst & _).
    rewrite threads_at_new, total_app, Hs. simpl. rewrite Hgi, Hi1 in *. rewrite Hgv.
    rewrite total_cons in Hst. by split_and!.
  - simpl. rewrite Hi1. by left.
  - simpl. rewrite Hi1, total_app, Hs. intros fd Hin.
    destruct (ti_issued _ _ _ _ Hinv _ _ Hin) as (j & g & Hj & Hh & Hgj & _ & Hc).
    destruct (index_range T L sl _ j Hinv Hj) as [Hjr Hjg].
    destruct (index_range T L sl _ i Hinv Hi) as [Hir _].
    destruct (handle_inj i (generation v) j g) as [<- <-]; [lia..|done|].
    destruct (gives t) eqn:Hgi; [lia|]. destruct (Hc Hgv) as [Hu Hst]. by rewrite total_cons in Hst.
  - simpl. rewrite Hi1. apply (ti_unique _ _ _ _ Hinv).
Qed.

(** A step inside of the object. *)
Lemma on_plain T p t rest L sl :
  table_inv T (On p t :: rest) L sl -> gives t = false -> closing t = 0%nat ->
  exists T' ts sl', exec_on p t T = Ok (T', ts) /\ table_inv T' (ts ++ rest) L sl'.
Proof.
  intros Hinv Hgi Hcl.
  destruct (on_sees _ _ _ _ _ _ Hinv) as (i & o & Hi & -> & Ho & Hoe & Hg & _ & Hsi & Hask).
  unfold exec_on, get_object. rewrite Ho, bind_ok, Hg, bind_ok.
  replace (outside (slot_addr T i) o t T) with (Ok T) by (by destruct t). rewrite bind_ok.
  destruct (exec t (view (obj_event o) (generation (sl i)))) as [v new] eqn:Hex.
  eexists _, _, _. split; [done|].
  pose proof (ti_slots _ _ _ _ Hinv i Hi) as Hok.
  pose proof Hex as Hex1. rewrite Hoe in Hex1.
  destruct (on_event_step _ _ _ _ (threads_at (slot_addr T i) rest) Hex1) as [Hex2 _].
  destruct (exec_view _ _ _ (in_use (sl i)) (log (sl i)) _ _ Hex1) as (_ & Hgv & _). rewrite Hgi in Hgv.
  assert (Hls := exec_listed _ _ _ _ (threads_at (slot_addr T i) rest) (i_state _ _ Hsi) Hex2 Hgi Hcl).
  eapply (on_update T T); try done.
  - apply (ti_wf _ _ _ _ Hinv).
  - rewrite Hgv. apply (so_gen _ _ _ _ _ Hok).
  - rewrite Hgv. apply (so_range _ _ _ _ _ Hok).
  - simpl. rewrite Hgi. pose proof (so_live _ _ _ _ _ Hok) as Hlv. by rewrite total_cons in Hlv.
  - intros fd mask Hf. destruct (epoll_current T L sl _ i fd mask Hinv Hi Hf) as (_ & _ & _ & Hl).
    split; [done|]. apply Hls. by rewrite <- threads_at_head.
  - intros _ Hl. split; [by apply Hls|done].
Qed.

(** Nobody works on an event that is not registered yet. *)
Lemma started T i t rest live s :
  slot_ok T (On (slot_addr T i) t :: rest) i live s -> early t = false ->
  total (starting (slot_addr T i)) rest = 0%nat.
Proof.
  intros Hok He. pose proof (so_early _ _ _ _ _ Hok) as Hea. rewrite total_cons, threads_at_head in Hea.
  destruct (total (starting (slot_addr T i)) rest); [done|].
  specialize (Hea ltac:(simpl; lia)). apply Forall_cons in Hea as [Hx _]. congruence.
Qed.

(** What the kernel may refuse to a thread: memory for a new block of the slab,
    the registration, or its removal. *)
Definition step_refused (t : tthread) (T : table) : Prop :=
  match t with
  | Opening _ _ _ _ => block_refused (tb_slab T)
  | StartAdd _ fd _ _ => epoll_accepts EPOLL_CTL_ADD fd (tb_epoll T) = false
  | On p (CloseDel _) =>
      exists o, tb_objs T !! p = Some o /\ epoll_accepts EPOLL_CTL_DEL (obj_fd o) (tb_epoll T) = false
  | _ => False
  end.

(** Who is about to remove a descriptor finds it registered. *)
Lemma close_facts T p g rest L sl :
  table_inv T (On p (CloseDel g) :: rest) L sl ->
  exists i o mask, 0 <= i < slab_size (tb_slab T) /\ p = slot_addr T i /\ tb_objs T !! p = Some o /\
    obj_event o = ev (sl i) /\ ntt_slab_generation (tb_mem T) p = Ok (generation (sl i)) /\
    closed (state (ev (sl i))) = true /\
    total closing (threads_at p rest) = 0%nat /\
    (ntt_event_handle_of i (generation (sl i)), obj_fd o) ∈ tb_issued T /\
    tb_epoll T !! obj_fd o = Some (mask, ntt_event_handle_of i (generation (sl i))).
Proof.
  intros Hinv.
  destruct (on_sees _ _ _ _ _ _ Hinv) as (i & o & Hi & -> & Ho & Hoe & Hg & _ & Hsi & _).
  pose proof (ti_slots _ _ _ _ Hinv i Hi) as Hok.
  pose proof (started _ _ _ _ _ _ Hok eq_refl) as Hst.
  destruct (held_in_use _ _ Hsi) as (Hu & _); [rewrite total_cons; simpl; lia|].
  pose proof (i_dels _ _ Hsi Hu) as Hd. rewrite total_cons in Hd. simpl in Hd.
  destruct (closed (state (ev (sl i)))) eqn:Hc; simpl in Hd; [|lia].
  destruct (so_known _ _ _ _ _ Hok Hu) as (o' & Ho' & Hin & Hm); [by rewrite total_cons|].
  assert (o' = o) as -> by congruence.
  destruct Hm as [mask Hm]. { right. rewrite threads_at_head, total_cons. simpl. lia. }
  exists i, o, mask. split_and!; try done; lia.
Qed.

Lemma close_registered T p g rest L sl o :
  table_inv T (On p (CloseDel g) :: rest) L sl -> tb_objs T !! p = Some o -> is_Some (tb_epoll T !! obj_fd o).
Proof.
  intros Hinv Ho. destruct (close_facts _ _ _ _ _ _ Hinv) as (i & o' & mask & _ & _ & Ho' & _ & _ & _ & _ & _ & Hm).
  assert (o' = o) as -> by congruence. eauto.
Qed.

(** The removal of the descriptor: it is there, and only this event had it. *)
Lemma on_del T p g rest L sl :
  table_inv T (On p (CloseDel g) :: rest) L sl ->
  returns_or (step_refused (On p (CloseDel g)) T) (exec_on p (CloseDel g) T) (fun '(T', ts) =>
    exists sl', table_inv T' (ts ++ rest) L sl').
Proof.
  intros Hinv.
  destruct (close_facts _ _ _ _ _ _ Hinv) as (i & o & mask & Hi & -> & Ho & Hoe & Hg & Hc & Hd & Hin & Hm).
  pose proof (ti_slots _ _ _ _ Hinv i Hi) as Hok.
  unfold exec_on, get_object. rewrite Ho, bind_ok, Hg, bind_ok. simpl.
  eapply returns_or_bind; [eapply returns_or_mono; [by apply epoll_del_ok|eauto|exact (fun _ x => x)]|].
  intros T1 ->. apply returns_or_ok. eexists.
  eapply (on_update T (tb_with_epoll (delete (obj_fd o) (tb_epoll T)) T) i (CloseDel g) rest L L sl o
    (emit [EpollDel g] (view (obj_event o) (generation (sl i)))) [CloseRelease g]); try done.
  - apply (ti_wf _ _ _ _ Hinv).
  - apply (so_gen _ _ _ _ _ Hok).
  - apply (so_range _ _ _ _ _ Hok).
  - simpl. pose proof (so_live _ _ _ _ _ Hok) as Hlv. by rewrite total_cons in Hlv.
  - simpl. apply delete_subseteq.
  - intros j fd mask' Hne Hj Hf. simpl. rewrite lookup_delete_ne; [done|]. intros <-.
    rewrite Hm in Hf. injection Hf as -> Hh. destruct (index_range T L sl _ j Hinv Hj) as [_ Hgj].
    by destruct (handle_slot T L sl _ i j _ Hinv Hi Hj Hgj Hh).
  - intros fd mask' Hf. simpl in Hf. rewrite lookup_delete_Some in Hf. destruct Hf as [Hne Hf].
    destruct (epoll_current T L sl _ i fd mask' Hinv Hi Hf) as (Hin' & _).
    assert ((ntt_event_handle_of i (generation (sl i)), fd) =
            (ntt_event_handle_of i (generation (sl i)), obj_fd o)) as [=]; [|congruence].
    eapply (NoDup_fmap_eq fst); [apply (ti_unique _ _ _ _ Hinv)|done..].
  - intros _ [Hl|Hl]; [simpl in Hl; congruence|]. rewrite total_app in Hl. unfold total in Hl at 1. simpl in Hl. lia.
Qed.

(** The slot goes back to the slab. *)
Lemma on_give T p t rest L sl :
  table_inv T (On p t :: rest) L sl -> gives t = true ->
  exists T' ts, exec_on p t T = Ok (T', ts) /\
    (gens_bounded T' -> exists L' sl', table_inv T' (ts ++ rest) L' sl').
Proof.
  intros Hinv Hgi.
  destruct (on_sees _ _ _ _ _ _ Hinv) as (i & o & Hi & -> & Ho & Hoe & Hg & Hix & Hsi & _).
  pose proof (ti_slots _ _ _ _ Hinv i Hi) as Hok.
  assert (Hrep : reporter t = 1%nat) by (by destruct t).
  destruct (reporter_alone _ _ _ Hsi Hrep) as (Hu & Hr0 & _).
  pose proof (i_refs _ _ Hsi) as Hrefs. rewrite Hr0, Hu, total_cons in Hrefs.
  destruct (closed (state (ev (sl i)))) eqn:Hc; simpl in Hrefs; [|lia].
  pose proof (so_live _ _ _ _ _ Hok) as Hlv. rewrite Hu, total_cons in Hlv.
  case_bool_decide as HiL; simpl in Hlv; [|lia].
  destruct (give_wf _ _ L i (ti_wf _ _ _ _ Hinv) HiL)
    as (s' & m' & g & Hgive & Hwf & _ & Hsz & _ & Ha & Hg0 & Hg1 & Hgs).
  rewrite (so_gen _ _ _ _ _ Hok) in Hg0. injection Hg0 as <-.
  pose proof (so_range _ _ _ _ _ Hok) as Hgr.
  unfold exec_on, get_object. rewrite Ho, bind_ok, Hg, bind_ok.
  assert (outside (slot_addr T i) o t T = Ok (tb_with_slab s' m' T)) as ->.
  { destruct t; try done; simpl; by rewrite Hix, bind_ok, Hgive, bind_ok. }
  rewrite bind_ok. destruct (exec t (view (obj_event o) (generation (sl i)))) as [v new] eqn:Hex.
  eexists _, _. split; [done|]. intros Hb. exists (L ∖ {[i]}). eexists.
  destruct (exec_view _ _ _ true [] _ _ Hex) as (_ & Hgv & _). rewrite Hgi in Hgv.
  rewrite u64_small in Hg1 by lia. rewrite <- Hgv in Hg1.
  assert (Hnew : total (filling (slot_addr T i)) rest = 0%nat) by lia.
  eapply (on_update T (tb_with_slab s' m' T)); try done.
  - intros j Hne. rewrite elem_of_difference, elem_of_singleton. tauto.
  - destruct Hb as [Hb _]. unfold gen_at in Hg1. simpl in Hb, Hg1.
    destruct (mem_heads m' !! slab_addr s' i) as [h|] eqn:Hh; [|done]. simpl in Hg1.
    specialize (Hb _ _ Hh). simpl in Hb. by rewrite Hg1 in Hb.
  - simpl. rewrite Hgi, Hnew, bool_decide_false; [done|].
    rewrite elem_of_difference, elem_of_singleton. tauto.
  - intros fd mask Hf. destruct (epoll_current T L sl _ i fd mask Hinv Hi Hf) as (_ & _ & _ & [Hl|Hl]);
      [congruence|]. rewrite threads_at_head in Hl.
    pose proof (total_le closing hold (t :: threads_at (slot_addr T i) rest) closing_hold) as Hle.
    rewrite total_cons in Hle, Hl. rewrite total_cons in Hle. lia.
  - by rewrite Hgi.
Qed.

Lemma on_step T p t rest L sl :
  table_inv T (On p t :: rest) L sl ->
  returns_or (step_refused (On p t) T) (exec_on p t T) (fun '(T', ts) =>
    gens_bounded T' -> exists L' sl', table_inv T' (ts ++ rest) L' sl').
Proof.
  intros Hinv. destruct (gives t) eqn:Hg.
  { destruct (on_give _ _ _ _ _ _ Hinv Hg) as (T' & ts & -> & Hinv'). exact Hinv'. }
  destruct (decide (closing t = 0%nat)) as [Hc|Hc].
  - destruct (on_plain _ _ _ _ _ _ Hinv Hg Hc) as (T' & ts & sl' & -> & Hinv'). intros _. eauto.
  - destruct t; try done. eapply returns_or_mono; [by apply (on_del _ _ _ _ _ _ Hinv)|done|].
    intros [T' ts] Hinv' _. eauto.
Qed.
End steps.
