(* ===== verification/EventTableOpen.v ===== *)
(** * All events of a loop: starting events, and all steps together *)

From stdpp Require Import base numbers list gmap relations.
From Stdlib Require Import ZArith Lia.
From S2P Require Import Prelude.
From S2P Require Import Slab.
From S2P Require Import SlabInv.
From S2P Require Import SlabOps.
From S2P Require Import SlabProps.
From S2P Require Import SlabFrame.
From S2P Require Import Event.
From S2P Require Import EventInv.
From S2P Require Import EventSteps.
From S2P Require Import EventProps.
From S2P Require Import EventTable.
From S2P Require Import EventTableInv.
From S2P Require Import EventTableSteps.

#[local] Open Scope Z_scope.

Section steps.
Context `{Platform} `{Allocator, !AllocatorLaws} `{Epoll}.
Implicit Types (T : table) (rest : list tthread) (sl : Z -> slot).

Lemma about_slot T t p : thread_ok T t -> about t = Some p -> exists i, is_slot T i p.
Proof. destruct t; simpl; intros Hok Heq; simplify_eq; try done. destruct Hok as (i & Hs & _). eauto. Qed.

Lemma starting_start p t : (0 < starting p t)%nat -> exists fd id, start_of t = Some (p, fd, id).
Proof. destruct t; simpl; try lia; case_decide; subst; try lia; eauto. Qed.

Lemma unused_starting T ts i live s :
  slot_ok T ts i live s -> in_use s = false -> total (starting (slot_addr T i)) ts = 0%nat.
Proof.
  intros Hok Hu. destruct (total (starting (slot_addr T i)) ts) eqn:Ht; [done|].
  destruct (total_pos (starting (slot_addr T i)) ts) as (t & Hin & (fd & id & Hs)%starting_start); [lia|].
  destruct (so_start _ _ _ _ _ Hok t fd id Hin Hs) as (_ & Hx & _). congruence.
Qed.

(** ** Taking a slot *)

(** A slot that was in use before. *)
Lemma take_used T T' i t rest s prm fd events fl :
  slot_ok T (t :: rest) i false s -> about t = None -> same_slot T T' i ->
  tb_issued T' = tb_issued T -> tb_epoll T' = tb_epoll T ->
  slot_ok T' (Filling (slot_addr T' i) prm fd events fl :: rest) i true s /\ in_use s = false.
Proof.
  intros Hok Hab [Ha Hg Ho Hl] Hi He. rewrite Ha. set (p := slot_addr T i) in *.
  pose proof (so_live _ _ _ _ _ Hok) as Hlv. fold p in Hlv. rewrite total_cons in Hlv. simpl in Hlv.
  destruct (in_use s) eqn:Hu; simpl in Hlv; [lia|]. split; [|done].
  pose proof (unused_starting _ _ _ _ _ Hok Hu) as Hst.
  destruct (away_nothing p t) as (A1 & A2 & A3 & A4); [congruence|].
  destruct Hok as [H1' H2' H3' H4' H5' _ H7' H8' H9' H10']. fold p in H1', H4', H5', H7', H8', H9', H10', Hst.
  rewrite threads_at_cons, A1 in H1', H4', H9', H10'. rewrite total_cons, A3 in Hst, H8', H9', H10'.
  split; rewrite ?Ha; fold p; rewrite ?Hg, ?Ho, ?Hl, ?Hi, ?He, ?threads_at_cons, ?total_cons, ?Hu; simpl;
    try done; rewrite ?decide_True by done; try lia.
  - destruct (tb_objs T !! p); [done|]. by split; [apply H4'|].
  - intros t' fd' id [->|Hin]%elem_of_cons Hs; [done|]. exfalso.
    pose proof (start_total p _ _ _ _ Hin Hs). simpl in Hst. lia.
Qed.

(** A slot that never was in use: nothing is known of its address. *)
Lemma take_never T i rest prm fd events fl :
  Forall (fun t => about t <> Some (slot_addr T i)) rest ->
  gen_at (tb_slab T) (tb_mem T) i = Some 1 -> tb_objs T !! slot_addr T i = None ->
  log_at (slot_addr T i) (tb_log T) = [] ->
  slot_ok T (Filling (slot_addr T i) prm fd events fl :: rest) i true
    (fresh_slot (mk_event (params_vtbl prm) NULL NULL 0 0 0 0) 1).
Proof.
  intros (A1 & A2 & A3 & A4)%away_all Hg Ho Hl. set (p := slot_addr T i) in *.
  split; fold p; rewrite ?Ho, ?Hl, ?threads_at_cons, ?total_cons, ?A1, ?A2, ?A3; simpl;
    try done; rewrite ?decide_True by done; try done.
  - exists []. split; [done|]. by eexists _, _.
  - intros t' fd' id [->|Hin]%elem_of_cons Hs; [done|]. by edestruct A4.
  - lia.
Qed.

(** The slot of [Event] that a taken slot of the slab is. *)
Definition taken_slot (T : table) (i : Z) (prm : ntt_event_params) (s : slot) : slot :=
  if decide (i < slab_size (tb_slab T)) then s else fresh_slot (mk_event (params_vtbl prm) NULL NULL 0 0 0 0) 1.

Lemma take_slot T s m i prm fd events fl rest L sl :
  let T' := tb_with_slab s m T in
  table_inv T (Opening prm fd events fl :: rest) L sl -> i ∉ L -> 0 <= i ->
  (forall j, 0 <= j < slab_size (tb_slab T) -> same_slot T T' j) ->
  (forall j, 0 <= j < slab_size (tb_slab T) -> j <> i -> slot_addr T' i <> slot_addr T j) ->
  (slab_size (tb_slab T) <= i -> gen_at s m i = Some 1) ->
  slot_ok T' (Filling (slot_addr T' i) prm fd events fl :: rest) i true (taken_slot T i prm (sl i)) /\
  in_use (taken_slot T i prm (sl i)) = false.
Proof.
  intros T' Hinv HiL Hi Hss Haddr Hfresh. unfold taken_slot. case_decide as Hlt.
  - eapply (take_used T T' i (Opening prm fd events fl)); [|done|apply Hss; lia|done|done].
    pose proof (ti_slots _ _ _ _ Hinv i ltac:(lia)) as Hok. by rewrite bool_decide_false in Hok.
  - split; [|done].
    assert (Hno : forall p, (exists j, is_slot T j p) -> p <> slot_addr T' i).
    { intros p (j & Hj & ->) Heq. symmetry in Heq. revert Heq. apply Haddr; lia. }
    pose proof (ti_threads _ _ _ _ Hinv) as Hts. apply Forall_cons in Hts as [_ Hts]. apply take_never.
    + eapply Forall_impl; [exact Hts|]. intros t Ht Hab. by destruct (Hno _ (about_slot _ _ _ Ht Hab)).
    + apply Hfresh. lia.
    + simpl. apply eq_None_not_Some. intros Hx. by destruct (Hno _ (ti_objs _ _ _ _ Hinv _ Hx)).
    + apply elem_of_nil_inv. intros x Hx%elem_of_log_at. by destruct (Hno _ (ti_log _ _ _ _ Hinv _ _ Hx)).
Qed.

Lemma open_take_ok T prm fd events fl rest L sl :
  table_inv T (Opening prm fd events fl :: rest) L sl -> gens_bounded T ->
  returns_or (block_refused (tb_slab T)) (open_take prm fd events fl T) (fun '(T', ts) =>
    exists L' sl', table_inv T' (ts ++ rest) L' sl').
Proof.
  intros Hinv [_ Hfit]. unfold open_take.
  eapply returns_or_bind; [apply (take_wf _ _ L (ti_wf _ _ _ _ Hinv)); by right|].
  intros [p [s m]] (i & HiL & Hi & -> & Hwf & _ & Hsz & Hsame & Hle & Hmax & Hfresh). apply returns_or_ok.
  set (T' := tb_with_slab s m T). change (slab_addr s i) with (slot_addr T' i).
  set (s' := taken_slot T i prm (sl i)).
  exists ({[i]} ∪ L), (upd i s' sl). set (t' := Filling _ _ _ _ _).
  assert (Haddr : forall j, 0 <= j < slab_size (tb_slab T) -> j <> i -> slot_addr T' i <> slot_addr T j).
  { intros j Hj Hne Heq. rewrite <- (proj1 (Hsame j Hj)) in Heq. apply Hne. symmetry.
    destruct Hwf as (fl' & Hsl & _). eapply slab_addr_inj; [apply Hsl|lia|lia|exact Heq]. }
  assert (Hss : forall j, 0 <= j < slab_size (tb_slab T) -> same_slot T T' j).
  { intros j Hj. destruct (Hsame j Hj) as [Ha Hm]. split; try done. unfold gen_at. simpl. by rewrite Ha, Hm. }
  pose proof (ti_threads _ _ _ _ Hinv) as Hts. apply Forall_cons in Hts as [_ Hts].
  assert (Hisl : forall j p, is_slot T j p -> is_slot T' j p).
  { intros j p [Hj ->]. split; [simpl; lia|]. by rewrite (ss_addr _ _ _ (Hss j Hj)). }
  pose proof (take_slot T s m i prm fd events fl rest L sl Hinv HiL (proj1 Hi) Hss Haddr Hfresh) as [Hslot Hunused].
  fold T' s' t' in Hslot, Hunused.
  assert (Hold : forall j, 0 <= j < slab_size (tb_slab T) ->
    threads_at (slot_addr T j) ([t'] ++ rest) = threads_at (slot_addr T j) (Opening prm fd events fl :: rest) /\
    total (starting (slot_addr T j)) ([t'] ++ rest) =
    total (starting (slot_addr T j)) (Opening prm fd events fl :: rest)) by done.
  assert (Hinuse : forall j, 0 <= j < slab_size (tb_slab T) -> in_use (sl j) = true -> j <> i).
  { intros j Hj Hu ->. unfold s', taken_slot in Hunused. rewrite decide_True in Hunused by lia. congruence. }
  split; [done| | | | | |apply (ti_unique _ _ _ _ Hinv)| |].
  - intros j Hj. destruct (decide (j = i)) as [->|Hne].
    + rewrite upd_eq, bool_decide_true; [done|]. apply elem_of_union_l. by apply elem_of_singleton.
    + assert (Hj' : 0 <= j < slab_size (tb_slab T)) by (change (slab_size (tb_slab T')) with (slab_size s) in Hj; lia).
      rewrite upd_ne by done.
      replace (bool_decide (j ∈ {[i]} ∪ L)) with (bool_decide (j ∈ L)) 
        by (apply bool_decide_ext; rewrite elem_of_union, elem_of_singleton; tauto).
      eapply (slot_ok_frame T T' [Opening prm fd events fl] [t']); try done; [by apply (ti_slots _ _ _ _ Hinv)|auto| |].
      * by repeat constructor.
      * repeat constructor. simpl. intros [= Heq]. by eapply Haddr.
  - constructor; [exists i; by split|]. eapply Forall_impl; [exact Hts|]. intros t.
    apply thread_ok_mono; try done. intros j Hj. apply (ss_addr _ _ _ (Hss j Hj)).
  - intros fd'. apply (ti_fds _ _ _ _ Hinv fd').
  - intros fd' mask h Hf. destruct (ti_epoll _ _ _ _ Hinv _ _ _ Hf) as (Hin & j & Hj & Hh & Hu & Hst & Hl).
    split; [done|]. exists j. rewrite (ss_addr _ _ _ (Hss j Hj)), upd_ne by auto.
    destruct (Hold j Hj) as [-> ->]. simpl. by split_and!; try lia.
  - intros h fd' Hin. destruct (ti_issued _ _ _ _ Hinv _ _ Hin) as (j & g & Hj & Hh & Hg & Hob & Hc).
    exists j, g. rewrite (ss_addr _ _ _ (Hss j Hj)). destruct (Hold j Hj) as [_ ->].
    destruct (decide (j = i)) as [->|Hne].
    + rewrite upd_eq. unfold s', taken_slot. rewrite decide_True by lia. simpl. by split_and!; try lia.
    + rewrite upd_ne by done. simpl. by split_and!; try lia.
  - intros p Hp. destruct (ti_objs _ _ _ _ Hinv p Hp) as [j Hj]. eauto.
  - intros p x Hp. destruct (ti_log _ _ _ _ Hinv p x Hp) as [j Hj]. eauto.
Qed.

(** ** Filling it *)

(** Only threads with old handles look at a slot that is not in use. *)
Lemma unused_early s ts : slot_inv s ts -> in_use s = false -> Forall (fun t => early t = true) ts.
Proof.
  intros Hinv Hu. pose proof (i_refs _ _ Hinv) as Hr. rewrite (i_free _ _ Hinv Hu), Hu in Hr.
  pose proof (i_reporter _ _ Hinv) as Hp. rewrite Hu in Hp. simpl in Hr, Hp.
  assert (total hold ts = 0%nat) as Hh%total_zero by lia. apply total_zero in Hp.
  apply Forall_forall. intros t Ht. rewrite Forall_forall in Hh, Hp.
  specialize (Hh t Ht). specialize (Hp t Ht). destruct t; simpl in *; done || lia.
Qed.

(** What every step of a starting thread sees. *)
Lemma slot_sees T ts L sl i :
  table_inv T ts L sl -> 0 <= i < slab_size (tb_slab T) ->
  ntt_slab_generation (tb_mem T) (slot_addr T i) = Ok (generation (sl i)) /\
  handle_of_object T (slot_addr T i) = Ok (ntt_event_handle_of i (generation (sl i))) /\
  ntt_event_handle_generation (ntt_event_handle_of i (generation (sl i))) = generation (sl i).
Proof.
  intros Hinv Hi. pose proof (ti_slots _ _ _ _ Hinv i Hi) as Hok.
  destruct (ti_wf _ _ _ _ Hinv) as (fl & Hsl & _). destruct (index_range T L sl ts i Hinv Hi) as [Hir Hgr].
  assert (Hg : ntt_slab_generation (tb_mem T) (slot_addr T i) = Ok (generation (sl i))).
  { destruct (generation_ok _ _ _ i Hsl Hi) as (g & Hg & ->). rewrite (so_gen _ _ _ _ _ Hok) in Hg.
    injection Hg as <-. by rewrite u32_small by lia. }
  split_and!; [done| |by apply event_handle_roundtrip].
  unfold handle_of_object. by rewrite (index_ok _ _ fl i Hsl Hi), bind_ok, Hg, bind_ok.
Qed.

Lemma fill_slot T T' i rest s prm fd events fl s' t' :
  let p := slot_addr T i in
  let id := ntt_event_handle_of i (generation s) in
  slot_ok T (Filling p prm fd events fl :: rest) i true s ->
  ntt_event_handle_generation id = generation s ->
  ntt_event_open s prm events fl = (s', t') ->
  slot_addr T' i = p -> gen_at (tb_slab T') (tb_mem T') i = gen_at (tb_slab T) (tb_mem T) i ->
  tb_objs T' !! p = Some (mk_object (ev s') fd) ->
  log_at p (tb_log T') = log s' ->
  slot_ok T' (StartEnter p fd id fl events :: rest) i true s' /\ in_use s = false.
Proof.
  intros p id Hok Hid Hop Ha Hg Ho Hl.
  pose proof (so_live _ _ _ _ _ Hok) as Hlv. fold p in Hlv. rewrite total_cons in Hlv. simpl in Hlv.
  rewrite decide_True in Hlv by done. destruct (in_use s) eqn:Hu; simpl in Hlv; [lia|]. split; [|done].
  pose proof (unused_starting _ _ _ _ _ Hok Hu) as Hst. fold p in Hst. rewrite total_cons in Hst. simpl in Hst.
  pose proof (unused_early _ _ (slot_ok_inv _ _ _ _ _ Hok) Hu) as Hea. fold p in Hea.
  destruct Hok as [H1' H2' H3' _ H5' _ H7' _ _ _]. fold p in H1', H5', H7'.
  unfold ntt_event_open in Hop. injection Hop as <- <-.
  assert (Hstep : event_step (s, threads_at p rest) (fst (ntt_event_open s prm events fl),
    snd (ntt_event_open s prm events fl) :: threads_at p rest)) by (econstructor; [exact Hu|done]).
  split; rewrite ?Ha, ?Hg; fold p; rewrite ?Ho, ?Hl, ?threads_at_cons, ?total_cons; simpl;
    rewrite ?decide_True by done; try done; try lia.
  - rewrite Hid. eapply reach_step; [exact H1'|exact Hstep].
  - intros t' fd' id' [->|Hin]%elem_of_cons Hs.
    + simpl in Hs. injection Hs as <- <-. split_and!; [done..|]. by eexists.
    + exfalso. pose proof (start_total p _ _ _ _ Hin Hs). lia.
  - intros _. constructor; [done|]. exact Hea.
Qed.

Lemma open_fill_ok T p prm fd events fl rest L sl :
  table_inv T (Filling p prm fd events fl :: rest) L sl ->
  exists T' ts sl', open_fill p prm fd events fl T = Ok (T', ts) /\ table_inv T' (ts ++ rest) L sl'.
Proof.
  intros Hinv. pose proof (Forall_inv (ti_threads _ _ _ _ Hinv)) as (i & Hi & ->).
  destruct (slot_sees _ _ _ _ i Hinv Hi) as (Hg & Hh & Hid). unfold open_fill. rewrite Hg, bind_ok, Hh, bind_ok.
  pose proof (ti_slots _ _ _ _ Hinv i Hi) as Hok.
  assert (HiL : bool_decide (i ∈ L) = true).
  { pose proof (so_live _ _ _ _ _ Hok) as Hlv. rewrite total_cons in Hlv. simpl in Hlv.
    rewrite decide_True in Hlv by done. destruct (bool_decide (i ∈ L)); [done|]. simpl in Hlv. lia. }
  rewrite HiL in Hok. set (id := ntt_event_handle_of i (generation (sl i))) in *.
  destruct (ntt_event_open (sl i) prm events fl) as [s' t'] eqn:Hop.
  eexists _, _, (upd i s' sl). split; [done|]. set (T' := tb_write _ _ _ _).
  destruct (fill_slot T T' i rest (sl i) prm fd events fl s' t' Hok Hid Hop) as [Hok' Hu]; try done.
  { unfold T'. simpl. rewrite lookup_insert_eq. by injection Hop as <- _. }
  { unfold T'. rewrite (write_log T) by done. rewrite <- (so_log _ _ _ _ _ Hok). by injection Hop as <- _. }
  assert (Hgs : generation s' = generation (sl i)) by (by injection Hop as <- _).
  eapply (table_inv_update T L sl T' i s' [Filling (slot_addr T i) prm fd events fl]); try done.
  - apply (ti_wf _ _ _ _ Hinv).
  - intros p Hne. by apply write_off.
  - unfold T'. simpl. by rewrite lookup_insert_eq.
  - by repeat constructor.
  - by rewrite HiL.
  - repeat constructor. exists i. by split.
  - intros fd'. apply (ti_fds _ _ _ _ Hinv fd').
  - intros fd' mask h Hf. left. split; [done|]. intros ->.
    destruct (epoll_current T L sl _ i fd' mask Hinv Hi Hf) as (_ & Hx & _). congruence.
  - by left.
  - lia.
  - rewrite Hgs. intros fd' Hin. destruct (issued_current T L sl _ i fd' Hinv Hi Hin). congruence.
  - apply (ti_unique _ _ _ _ Hinv).
Qed.

(** ** Registering it *)

(** The slot of a thread that starts its event. *)
Lemma start_sees T t rest L sl p fd id :
  table_inv T (t :: rest) L sl -> start_of t = Some (p, fd, id) ->
  exists i o, 0 <= i < slab_size (tb_slab T) /\ p = slot_addr T i /\ tb_objs T !! p = Some o /\
    obj_event o = ev (sl i) /\ obj_fd o = fd /\ id = ntt_event_handle_of i (generation (sl i)) /\
    ntt_event_handle_generation id = generation (sl i) /\ in_use (sl i) = true /\
    closed (state (ev (sl i))) = false /\ total (starting p) rest = 0%nat.
Proof.
  intros Hinv Hs. pose proof (Forall_inv (ti_threads _ _ _ _ Hinv)) as Hok.
  assert (about t = Some p) as Hab by (destruct t; simpl in *; congruence).
  destruct (about_slot _ _ _ Hok Hab) as (i & Hi & ->). pose proof (ti_slots _ _ _ _ Hinv i Hi) as Hslot.
  destruct (so_start _ _ _ _ _ Hslot t fd id) as (-> & Hu & Hc & o & Ho & Hfd); [by left|done|].
  destruct (slot_sees _ _ _ _ i Hinv Hi) as (_ & _ & Hid).
  exists i, o. split_and!; try done; [lia..| |].
  - pose proof (so_obj _ _ _ _ _ Hslot) as Hx. by rewrite Ho in Hx.
  - pose proof (so_one _ _ _ _ _ Hslot) as H1'. rewrite total_cons, (start_starting _ _ _ _ Hs) in H1'. lia.
Qed.

Lemma enter_slot T T' i rest live s o fd fl events v :
  let p := slot_addr T i in
  let id := ntt_event_handle_of i (generation s) in
  slot_ok T (StartEnter p fd id fl events :: rest) i live s ->
  ntt_event_handle_generation id = generation s -> tb_objs T !! p = Some o ->
  exec (OpenEnter (generation s) fl events) (view (ev s) (generation s)) = (v, [OpenAdd (generation s) events]) ->
  slot_addr T' i = p -> gen_at (tb_slab T') (tb_mem T') i = gen_at (tb_slab T) (tb_mem T) i ->
  tb_objs T' !! p = Some o -> log_at p (tb_log T') = log s ++ log v ->
  slot_ok T' (StartAdd p fd id events :: rest) i live
    (on_slot s (OpenEnter (generation s) fl events) v) /\ ev v = ev s /\ generation v = generation s.
Proof.
  intros p id Hok Hid Ho Hex Ha Hg Ho' Hl.
  assert (ev v = ev s /\ generation v = generation s) as [Hev Hgv]
    by (simpl in Hex; injection Hex as <-; by case_match).
  split; [|done]. destruct (on_event_step s _ v _ (threads_at p rest) Hex) as [_ Hstep].
  destruct Hok as [H1' H2' H3' H4' H5' H6' H7' H8' H9' _]. fold p in H1', H4', H6', H7', H8', H9'.
  rewrite threads_at_cons in H1', H9'. rewrite total_cons in H6', H8', H9'. simpl in H1', H6', H8', H9'.
  rewrite decide_True, Hid in H1' by done. rewrite decide_True in H8' by done.
  rewrite !decide_True in H9' by done. rewrite Ho in H4'.
  destruct (H7' (StartEnter p fd id fl events) fd id) as (_ & Hu & Hc & _); [by left|done|].
  split; rewrite ?Ha, ?Hg; fold p; rewrite ?Ho', ?Hl, ?threads_at_cons, ?total_cons; simpl;
    rewrite ?Hev, ?Hgv, ?decide_True by done; try done.
  - rewrite Hid. eapply reach_step; [exact H1'|exact Hstep].
  - intros t fd' id' [->|Hin]%elem_of_cons Hs.
    + rewrite <- Ho. apply (H7' (StartEnter p fd id fl events)); [by left|exact Hs].
    + rewrite <- Ho. apply (H7' t); [by right|done].
  - intros _. specialize (H9' ltac:(lia)). apply Forall_cons in H9' as [_ Hr]. by constructor.
Qed.

Lemma open_enter_ok T p fd id fl events rest L sl :
  table_inv T (StartEnter p fd id fl events :: rest) L sl ->
  exists T' ts sl', open_enter p fd id fl events T = Ok (T', ts) /\ table_inv T' (ts ++ rest) L sl'.
Proof.
  intros Hinv.
  destruct (start_sees T _ rest L sl p fd id Hinv eq_refl)
    as (i & o & Hi & -> & Ho & Hoe & Hfd & -> & Hid & Hu & Hc & Hst).
  unfold open_enter, get_object. rewrite Ho, bind_ok, Hid, Hoe.
  destruct (exec (OpenEnter (generation (sl i)) fl events) (view (ev (sl i)) (generation (sl i))))
    as [v new] eqn:Hex.
  eexists _, _, (upd i (on_slot (sl i) (OpenEnter (generation (sl i)) fl events) v) sl). split; [done|].
  pose proof (ti_slots _ _ _ _ Hinv i Hi) as Hok. set (T' := tb_write _ _ _ _).
  assert (Ho' : tb_objs T' !! slot_addr T i = Some o) by (unfold T'; simpl; by rewrite lookup_insert_eq).
  destruct (enter_slot T T' i rest _ (sl i) o fd fl events v Hok Hid Ho) as (Hok' & Hev & Hgv); try done.
  { simpl in Hex. by injection Hex as <- <-. }
  { unfold T'. rewrite (write_log T) by done. by rewrite <- (so_log _ _ _ _ _ Hok). }
  eapply (table_inv_update T L sl T' i _ [StartEnter _ fd _ fl events]); try done.
  - apply (ti_wf _ _ _ _ Hinv).
  - intros p Hne. by apply write_off.
  - by repeat constructor.
  - repeat constructor. exists i. by split.
  - intros fd'. apply (ti_fds _ _ _ _ Hinv fd').
  - intros fd' mask h Hf. left. split; [done|]. intros ->.
    destruct (epoll_current T L sl _ i fd' mask Hinv Hi Hf) as (_ & _ & Hx & _).
    rewrite total_cons in Hx. simpl in Hx. by rewrite decide_True in Hx.
  - by left.
  - simpl. lia.
  - simpl. rewrite Hgv. intros fd' Hin. destruct (issued_current T L sl _ i fd' Hinv Hi Hin) as [_ Hx].
    rewrite total_cons in Hx. simpl in Hx. by rewrite decide_True in Hx.
  - apply (ti_unique _ _ _ _ Hinv).
Qed.

Lemma add_slot T T' i rest live s o fd events :
  let p := slot_addr T i in
  let id := ntt_event_handle_of i (generation s) in
  slot_ok T (StartAdd p fd id events :: rest) i live s ->
  ntt_event_handle_generation id = generation s -> tb_objs T !! p = Some o -> obj_fd o = fd ->
  slot_addr T' i = p -> gen_at (tb_slab T') (tb_mem T') i = gen_at (tb_slab T) (tb_mem T) i ->
  tb_objs T' !! p = Some o -> log_at p (tb_log T') = log s ++ [EpollAdd (generation s) events] ->
  (id, fd) ∈ tb_issued T' -> tb_epoll T' !! fd = Some (events, id) ->
  slot_ok T' rest i live (emit [EpollAdd (generation s) events] s) /\ total (starting p) rest = 0%nat.
Proof.
  intros p id Hok Hid Ho Hfd Ha Hg Ho' Hl Hin Hep.
  assert (Hstep : event_step (s, OpenAdd (generation s) events :: threads_at p rest)
    (emit [EpollAdd (generation s) events] s, threads_at p rest)) 
    by (by apply (step_exec s [] (OpenAdd (generation s) events) (threads_at p rest) _ [])).
  destruct Hok as [H1' H2' H3' H4' H5' H6' H7' H8' H9' _]. fold p in H1', H4', H6', H7', H8'.
  rewrite threads_at_cons in H1'. rewrite total_cons in H6', H8'. simpl in H1', H6', H8'.
  rewrite decide_True, Hid in H1' by done. rewrite decide_True in H8' by done. rewrite Ho in H4'.
  assert (Hst : total (starting p) rest = 0%nat) by lia. split; [|done].
  split; rewrite ?Ha, ?Hg; fold p; rewrite ?Ho', ?Hl, ?Hst; simpl; try done; try lia.
  - eapply reach_step; [exact H1'|exact Hstep].
  - intros t fd' id' Ht Hs. pose proof (start_total p _ _ _ _ Ht Hs). lia.
  - intros _ _. exists o. rewrite Hfd. eauto.
Qed.

(** What is about to be registered is not. *)
Lemma start_unregistered T p fd id events rest L sl :
  table_inv T (StartAdd p fd id events :: rest) L sl -> tb_epoll T !! fd = None.
Proof.
  intros Hinv. pose proof (ti_fds _ _ _ _ Hinv fd) as Hfds. rewrite total_cons in Hfds. simpl in Hfds.
  rewrite decide_True in Hfds by done. apply eq_None_not_Some. intros Hx.
  rewrite bool_decide_true in Hfds by done. simpl in Hfds. lia.
Qed.

Lemma open_add_ok T p fd id events rest L sl :
  table_inv T (StartAdd p fd id events :: rest) L sl ->
  returns_or (step_refused (StartAdd p fd id events) T) (open_add p fd id events T) (fun '(T', ts) =>
    exists sl', table_inv T' (ts ++ rest) L sl').
Proof.
  intros Hinv.
  destruct (start_sees T _ rest L sl p fd id Hinv eq_refl)
    as (i & o & Hi & -> & Ho & Hoe & Hfd & -> & Hid & Hu & Hc & Hst).
  pose proof (ti_fds _ _ _ _ Hinv) as Hfds.
  pose proof (start_unregistered _ _ _ _ _ _ _ _ Hinv) as Hnone.
  unfold open_add, get_object. rewrite Ho, bind_ok, Hid.
  eapply returns_or_bind; [by apply epoll_add_ok|]. intros T1 ->. apply returns_or_ok.
  set (g := generation (sl i)) in *. set (T' := tb_issue _ _ _).
  exists (upd i (emit [EpollAdd g events] (sl i)) sl).
  pose proof (ti_slots _ _ _ _ Hinv i Hi) as Hok.
  assert (Ho' : tb_objs T' !! slot_addr T i = Some o) by (unfold T'; simpl; by rewrite lookup_insert_eq).
  assert (Hstart : total (starting (slot_addr T i)) (StartAdd (slot_addr T i) fd (ntt_event_handle_of i g) events :: rest)
    = 1%nat) by (rewrite total_cons, Hst; simpl; by rewrite decide_True).
  assert (Hnew : forall fd', (ntt_event_handle_of i g, fd') ∉ tb_issued T).
  { intros fd' Hin. destruct (issued_current T L sl _ i fd' Hinv Hi Hin) as [_ Hx]. rewrite Hstart in Hx. lia. }
  destruct (add_slot T T' i rest _ (sl i) o fd events Hok Hid Ho Hfd) as [Hok' _]; try done.
  { unfold T'. cbn [tb_log tb_issue]. rewrite (write_log T) by done. by rewrite <- (so_log _ _ _ _ _ Hok). }
  { by left. }
  { unfold T'. simpl. by rewrite lookup_insert_eq. }
  eapply (table_inv_update T L sl T' i _ [StartAdd _ fd _ events] []); try done.
  - apply (ti_wf _ _ _ _ Hinv).
  - intros p Hne. by apply (write_off T (tb_with_epoll (<[fd:=(events, ntt_event_handle_of i g)]> (tb_epoll T)) T)).
  - by repeat constructor.
  - intros x Hx. by right.
  - intros fd'. specialize (Hfds fd'). rewrite total_cons in Hfds. simpl in Hfds. unfold T'. simpl.
    destruct (decide (fd = fd')) as [<-|Hne].
    + rewrite lookup_insert_eq, bool_decide_true by done. simpl. lia.
    + by rewrite lookup_insert_ne.
  - intros j fd' mask Hne Hj Hf. unfold T'. simpl. rewrite lookup_insert_ne; [done|]. congruence.
  - intros fd' mask h. unfold T'. simpl. rewrite lookup_insert_Some. intros [[<- [= <- <-]]|[Hne Hf]].
    + right. split_and!; try done; [by left|by left].
    + left. split; [done|]. intros ->.
      destruct (epoll_current T L sl _ i fd' mask Hinv Hi Hf) as (Hx & _). by eapply Hnew.
  - intros h fd' [[= -> ->]|Hin]%elem_of_cons; [by right|by left].
  - unfold T'. simpl. constructor; [|apply (ti_unique _ _ _ _ Hinv)].
    intros ([h fd'] & Heq & Hin)%list_elem_of_fmap. simpl in Heq. subst h. by eapply Hnew.
Qed.

(** ** Handles *)

(** A handle that was issued names a slot whose fields were written. *)
Lemma live_at_ok T ts L sl h fd :
  table_inv T ts L sl -> (h, fd) ∈ tb_issued T ->
  exists i, is_slot T i (slot_addr T i) /\ live_at h T = Ok (slot_addr T i) /\
    is_Some (tb_objs T !! slot_addr T i) /\
    (ntt_event_handle_of i (ntt_event_handle_generation h), fd) ∈ tb_issued T.
Proof.
  intros Hinv Hin. destruct (ti_issued _ _ _ _ Hinv _ _ Hin) as (i & g & Hi & -> & Hg & Ho & _).
  destruct (index_range T L sl ts i Hinv Hi) as [Hir Hgr]. destruct (ti_wf _ _ _ _ Hinv) as (fl & Hsl & _).
  destruct (event_handle_roundtrip i g) as [Hx Hy]; [lia..|].
  exists i. unfold live_at. rewrite Hx, Hy. split_and!; try done; [lia..|]. by apply (at_ok _ (tb_mem T) fl).
Qed.

(** A new thread with an old handle. *)
Lemma ask_ok T i t0 t rest L sl :
  table_inv T (t0 :: rest) L sl -> about t0 = None -> (forall fd, registering fd t0 = 0%nat) ->
  0 <= i < slab_size (tb_slab T) -> thread_ok T (On (slot_addr T i) t) ->
  (forall s us, event_step (s, us) (s, t :: us)) -> early t = true -> closing t = 0%nat ->
  table_inv T (On (slot_addr T i) t :: rest) L sl.
Proof.
  intros Hinv Hab Hreg Hi Hok Hstep He Hcl. pose proof (ti_slots _ _ _ _ Hinv i Hi) as Hslot.
  assert (Hsome : is_Some (tb_objs T !! slot_addr T i)) by (by destruct Hok as (j & _ & Ho & _)).
  destruct (away_nothing (slot_addr T i) t0) as (A1 & A2 & A3 & A4); [congruence|].
  assert (Hl : forall s us, listed s (t :: us) <-> listed s us) by (intros; unfold listed; by rewrite total_cons, Hcl).
  assert (Hupd : forall j, upd i (sl i) sl j = sl j)
    by (intros j; unfold upd; by destruct (decide (j = i)) as [->|]).
  assert (Hgoal : table_inv T ([On (slot_addr T i) t] ++ rest) L (upd i (sl i) sl)).
  { eapply (table_inv_update T L sl T i _ [t0]); try done.
    - apply (ti_wf _ _ _ _ Hinv).
    - repeat constructor. by rewrite Hab.
    - destruct Hslot as [H1' H2' H3' H4' H5' H6' H7' H8' H9' H10'].
      rewrite threads_at_cons, A1 in H1', H4', H9', H10'.
      rewrite total_cons, A2 in H6'. rewrite total_cons, A3 in H8', H9', H10'.
      assert (Hh : threads_at (slot_addr T i) ([On (slot_addr T i) t] ++ rest) =
        t :: threads_at (slot_addr T i) rest) by apply threads_at_head.
      split; rewrite ?Hh; rewrite ?total_app; try done.
      + eapply reach_step; [exact H1'|apply Hstep].
      + destruct Hsome as [o Ho]. by rewrite Ho in *.
      + intros t' fd id [->|Hin]%elem_of_cons Hs; [done|]. apply (H7' t'); [by right|done].
      + intros Hpos. constructor; [done|]. by apply H9'.
      + intros Hu Hz. destruct (H10' Hu Hz) as (o & Ho & Hin & Hm). exists o. split_and!; [done..|].
        intros Hls. apply Hm. exact (proj1 (Hl _ _) Hls).
    - by repeat constructor.
    - intros fd. pose proof (ti_fds _ _ _ _ Hinv fd) as Hf. by rewrite total_cons, Hreg in Hf.
    - intros fd mask h Hf. destruct (decide (h = ntt_event_handle_of i (generation (sl i)))) as [->|]; [|by left].
      right. destruct (epoll_current T L sl _ i fd mask Hinv Hi Hf) as (Hin & Hu & Hst & Hls).
      rewrite total_cons, A3 in Hst. rewrite threads_at_cons, A1 in Hls. split_and!; try done.
      cbn [app]. rewrite threads_at_head. exact (proj2 (Hl _ _) Hls).
    - by left.
    - intros fd Hin. destruct (issued_current T L sl _ i fd Hinv Hi Hin) as [Hu Hst].
      by rewrite total_cons, A3 in Hst.
    - apply (ti_unique _ _ _ _ Hinv). }
  destruct Hgoal as [G1 G2 G3 G4 G5 G6 G7 G8 G9]. split; try done.
  - intros j Hj. rewrite <- Hupd. by apply G2.
  - intros fd mask h Hf. destruct (G5 fd mask h Hf) as (? & j & Hx). rewrite Hupd in Hx. eauto.
  - intros h fd Hf. destruct (G6 h fd Hf) as (j & g & Hx). rewrite Hupd in Hx. eauto.
Qed.

(** A thread that does not have its object yet. *)
Lemma table_spawn T t ts L sl :
  table_inv T ts L sl -> about t = None -> thread_ok T t ->
  (forall fd, (0 < registering fd t)%nat -> tb_epoll T !! fd = None /\ total (registering fd) ts = 0%nat /\
    registering fd t = 1%nat) ->
  table_inv T (t :: ts) L sl.
Proof.
  intros Hinv Hab Hok Hreg.
  assert (Hid : forall p, threads_at p (t :: ts) = threads_at p ts /\
    total (starting p) (t :: ts) = total (starting p) ts).
  { intros p. destruct (away_nothing p t) as (A1 & _ & A3 & _); [congruence|].
    by rewrite threads_at_cons, total_cons, A1, A3. }
  split; try apply Hinv.
  - intros i Hi. eapply (slot_ok_frame T T [] [t]); try done; [by apply (ti_slots _ _ _ _ Hinv)|].
    repeat constructor. congruence.
  - constructor; [done|apply (ti_threads _ _ _ _ Hinv)].
  - intros fd. rewrite total_cons. pose proof (ti_fds _ _ _ _ Hinv fd).
    destruct (registering fd t) eqn:Hr; [lia|]. destruct (Hreg fd) as (He & Hz & H1'); [lia|].
    rewrite bool_decide_false; [simpl; lia|]. rewrite He. by intros [].
  - intros fd mask h Hf. destruct (ti_epoll _ _ _ _ Hinv _ _ _ Hf) as (Hin & i & Hx).
    destruct (Hid (slot_addr T i)) as [E1 E2]. split; [done|]. exists i. by rewrite E1, E2.
  - intros h fd Hf. destruct (ti_issued _ _ _ _ Hinv _ _ Hf) as (i & g & Hx).
    destruct (Hid (slot_addr T i)) as [_ E2]. exists i, g. by rewrite E2.
Qed.

(** ** Every step *)
Lemma texec_ok T t rest L sl :
  table_inv T (t :: rest) L sl -> gens_bounded T ->
  returns_or (step_refused t T) (texec t T) (fun '(T', ts) => gens_bounded T' -> exists L' sl', table_inv T' (ts ++ rest) L' sl').
Proof.
  intros Hinv Hb. destruct t as [prm fd events fl|p prm fd events fl|p fd id fl events|p fd id events|h events|h|p t]; simpl.
  - eapply returns_or_mono; [by eapply open_take_ok|done|]. by intros [T' ts] ? _.
  - destruct (open_fill_ok _ _ _ _ _ _ _ _ _ Hinv) as (T' & ts & sl' & -> & Hinv'). intros _. eauto.
  - destruct (open_enter_ok _ _ _ _ _ _ _ _ _ Hinv) as (T' & ts & sl' & -> & Hinv'). intros _. eauto.
  - eapply returns_or_mono; [by eapply open_add_ok|done|]. intros [T' ts] Hinv' _. eauto.
  - pose proof (Forall_inv (ti_threads _ _ _ _ Hinv)) as [fd Hin].
    destruct (live_at_ok _ _ _ _ _ _ Hinv Hin) as (i & Hs & -> & Ho & Hi). intros _. exists L, sl.
    eapply ask_ok; try done; [apply Hs| |by constructor].
    exists i. split_and!; try done. intros g [= <-]. eauto.
  - pose proof (Forall_inv (ti_threads _ _ _ _ Hinv)) as [fd Hin].
    destruct (live_at_ok _ _ _ _ _ _ Hinv Hin) as (i & Hs & -> & Ho & Hi). intros _. exists L, sl.
    eapply ask_ok; try done; [apply Hs| |by constructor].
    exists i. split_and!; try done. intros g [= <-]. eauto.
  - by eapply on_step.
Qed.

(** What the rest of the process does to the memory. *)
Lemma table_inv_memory T ts L sl m :
  table_inv T ts L sl ->
  (forall b, b ∈ slab_blocks (tb_slab T) -> b ∈ mem_blocks m) ->
  (forall a b, b ∈ slab_blocks (tb_slab T) -> within a b -> mem_heads m !! a = mem_heads (tb_mem T) !! a) ->
  table_inv (tb_with_slab (tb_slab T) m T) ts L sl.
Proof.
  intros Hinv Hb Hh. destruct (ti_wf _ _ _ _ Hinv) as (fl & Hsl & HL).
  assert (Hs : forall i, 0 <= i < slab_size (tb_slab T) ->
    mem_heads m !! slot_addr T i = mem_heads (tb_mem T) !! slot_addr T i).
  { intros i Hi. destruct (slot_within _ _ _ i (sb_geom _ _ _ Hsl) Hi) as (b & Hin & Hw). by eapply Hh. }
  destruct Hinv as [_ I2 I3 I4 I5 I6 I7 I8 I9]. split; try done.
  - exists fl. split; [|done]. by eapply slab_inv_frame.
  - intros i Hi. destruct (I2 i Hi) as [S1 S2 S3 S4 S5 S6 S7 S8 S9 S10]. split; try done.
    unfold gen_at in *. simpl. by rewrite Hs.
Qed.

Definition table_ok (c : table * list tthread) : Prop :=
  gens_bounded c.1 /\ exists L sl, table_inv c.1 c.2 L sl.

Lemma bounded_step_ok c c' : bounded_step c c' -> table_ok c -> table_ok c'.
Proof.
  intros [[Hs|Hs] Hb'] [Hb (L & sl & Hinv)]; (split; [done|]).
  2:{ destruct Hs as [T ts m Hblk Hh]. exists L, sl. by apply table_inv_memory. }
  destruct Hs as [T l1 t l2 T' ts Hex|T ts prm fd events fl Hn Hz|T ts fd mask h events Hf|T ts h fd Hin]; simpl in *.
  - apply (table_inv_perm _ _ (t :: l1 ++ l2)) in Hinv; [|by rewrite Permutation_middle].
    destruct (returns_or_inv _ _ _ _ (texec_ok _ _ _ _ _ Hinv Hb) Hex Hb') as (L' & sl' & Hinv').
    exists L', sl'. eapply table_inv_perm; [|exact Hinv']. by rewrite Permutation_app_swap_app.
  - exists L, sl. apply table_spawn; try done. simpl. intros fd' Hpos. case_decide; [by subst|lia].
  - exists L, sl. apply table_spawn; try done; [|simpl; lia]. simpl. exists fd. exact (proj1 (ti_epoll _ _ _ _ Hinv fd mask h Hf)).
  - exists L, sl. apply table_spawn; try done; [|simpl; lia]. simpl. by exists fd.
Qed.

Lemma fresh_table_ok m : gens_bounded (fresh_table m) -> table_ok (fresh_table m, []).
Proof.
  intros Hb. split; [done|]. exists ∅, (fun _ => fresh_slot (mk_event (mk_vtbl false false false false) NULL NULL 0 0 0 0) 1).
  split; simpl; try done; try lia.
  - exists []. split; [by apply slab_init_inv|]. intros i. rewrite elem_of_empty. simpl. lia.
  - intros fd. case_bool_decide; simpl; lia.
  - intros h fd Hin%elem_of_nil. done.
  - constructor.
  - intros p [x Hx]. by rewrite lookup_empty in Hx.
  - intros p x Hin%elem_of_nil. done.
Qed.

Definition table_reachable (T : table) (ts : list tthread) : Prop :=
  exists m, gens_bounded (fresh_table m) /\ rtc bounded_step (fresh_table m, []) (T, ts).

Lemma table_reachable_inv T ts :
  table_reachable T ts -> gens_bounded T /\ exists L sl, table_inv T ts L sl.
Proof.
  intros (m & Hb & Hs). pose proof (fresh_table_ok m Hb) as Hok.
  change (table_ok (T, ts)). revert Hs Hok. generalize (fresh_table m, [] : list tthread) (T, ts).
  induction 1 as [|x y z Hstep _ IH]; [done|]. intros Hok. apply IH. by eapply bounded_step_ok.
Qed.
End steps.
