(* ===== verification/EventTableOrder.v ===== *)
(** * All events of a loop: nothing after the end

    What may be observed of an event once its slot was given back.  One slot by
    itself ([EventProps]) does not tell when the handle of an event is known:
    there, an event may be cancelled by a forged handle before [ntt_event_open]
    has registered it.  In the table a handle is only used after that. *)

From stdpp Require Import base numbers list gmap relations.
From Stdlib Require Import ZArith Lia.
From S2P Require Import Prelude.
From S2P Require Import Slab.
From S2P Require Import SlabInv.
From S2P Require Import SlabProps.
From S2P Require Import Event.
From S2P Require Import EventInv.
From S2P Require Import EventSteps.
From S2P Require Import EventProps.
From S2P Require Import EventTable.
From S2P Require Import EventTableInv.
From S2P Require Import EventTableSteps.
From S2P Require Import EventTableOpen.

#[local] Open Scope Z_scope.

(** What [ntt_event_finish] and [ntt_event_teardown] do after the slot, and the
    return of a call of [ntt_event_cancel] to its caller. *)
Definition after_given (y : entry) : bool :=
  match y with QueueRelease _ _ | WorkLeave _ | CancelReturned _ => true | _ => false end.

Definition given_last (l : list entry) : Prop :=
  forall l1 g l2 y, l = l1 ++ Given g :: l2 -> y ∈ l2 -> entry_gen y = g -> after_given y = true.

Lemma given_last_app l l' :
  given_last l -> given_last l' ->
  (forall y, y ∈ l' -> after_given y = true \/ Given (entry_gen y) ∉ l) -> given_last (l ++ l').
Proof.
  intros Hl Hl' Hx l1 g l2 y Heq Hy Hg. apply app_eq_inv in Heq as [(k & -> & Hk)|(k & -> & Hk)].
  - destruct k as [|x k]; simpl in Hk.
    + apply (Hl' [] g l2); [done|done|done].
    + injection Hk as <- ->. apply elem_of_app in Hy as [Hy|Hy].
      * by apply (Hl l1 g k).
      * destruct (Hx y Hy) as [|Hn]; [done|]. exfalso. apply Hn. subst g. apply elem_of_app. right. by left.
  - by apply (Hl' k g l2).
Qed.

Lemma given_last_none l : (forall g, Given g ∉ l) -> given_last l.
Proof. intros Hn l1 g l2 y -> _ _. exfalso. apply (Hn g). apply elem_of_app. right. by left. Qed.

(** A slot was not given back yet under its generation. *)
Lemma current_not_given s us : slot_inv s us -> Given (generation s) ∉ log s.
Proof.
  intros Hinv Hin. destruct (i_level _ _ Hinv _ Hin eq_refl) as [_ Hr]. specialize (Hr 3%nat eq_refl).
  pose proof (i_reporter _ _ Hinv) as Hrep.
  assert (total stage us <= total reporter us + total reporter us)%nat.
  { clear. induction us as [|t us IH]; [done|]. rewrite !total_cons. pose proof (stage_reporter t). lia. }
  destruct (in_use s && (refs (ev s) =? 0)); simpl in Hrep; lia.
Qed.

(** Threads with an object do not register it. *)
Definition not_opening (t : thread) : bool :=
  match t with OpenEnter _ _ _ | OpenAdd _ _ => false | _ => true end.
Definition on_not_opening (t : tthread) : Prop :=
  match t with On _ t => not_opening t = true | _ => True end.

Lemma exec_not_opening sl t sl' new :
  exec t sl = (sl', new) -> not_opening t = true -> Forall (fun t => not_opening t = true) new.
Proof.
  intros Heq Ht.
  destruct t as [g' ev'|g' ev'|g' [|s todo]|s g' todo|g' sides|g' k|s g' k|s g' k|s g' k|s g' k|s g' k
    | |s|g'|g'|g'|g'|g'|g'|s| | |g' fl events|g' events]; simpl in Heq, Ht; try done;
    unfold live_acquire, live_check, ntt_event_release, ntt_event_acquire_if_live, dispatch_live,
      ntt_event_deliver_side, serve_leave, cancel_close, ntt_event_post_cancelled,
      ntt_event_cancelled_task_svc, set_ev, emit in Heq; simpl in Heq;
    repeat (case_match; simpl in Heq); simplify_eq; repeat constructor.
Qed.

(** What a thread makes observable belongs to the event it works on, and the
    slot is given back last. *)
Lemma exec_log t e g v new :
  exec t (view e g) = (v, new) -> current (view e g) t -> not_opening t = true ->
  given_last (log v) /\ forall y, y ∈ log v -> after_given y = true \/ entry_gen y = g.
Proof.
  intros Heq Hc Ht.
  assert (Hone : forall x, (forall g', x <> Given g') -> (after_given x = true \/ entry_gen x = g) ->
    given_last [x] /\ forall y, y ∈ [x] -> after_given y = true \/ entry_gen y = g).
  { intros x Hx Hy. split; [|by intros y ->%list_elem_of_singleton].
    apply given_last_none. intros g' Hin%list_elem_of_singleton. by eapply Hx. }
  assert (Hnil : given_last [] /\ forall y, y ∈ [] -> after_given y = true \/ entry_gen y = g).
  { split; [by apply given_last_none; intros ? ?%elem_of_nil|by intros ? ?%elem_of_nil]. }
  assert (Hend : forall l, (forall y, y ∈ l -> after_given y = true) ->
    given_last (Given g :: l) /\ forall y, y ∈ Given g :: l -> after_given y = true \/ entry_gen y = g).
  { intros l Hl. split; [|intros y [->|Hy]%elem_of_cons; eauto]. intros l1 g' l2 y Hs Hy _.
    destruct l1 as [|x l1]; injection Hs as Hx Hs; [subst; eauto|].
    assert (Hg : Given g' ∈ l) by (rewrite Hs; apply elem_of_app; right; by left). by apply Hl in Hg. }
  destruct t as [g' ev'|g' ev'|g' [|s todo]|s g' todo|g' sides|g' k|s g' k|s g' k|s g' k|s g' k|s g' k
    | |s|g'|g'|g'|g'|g'|g'|s| | |g' fl events|g' events]; simpl in Heq, Hc, Ht; try done;
    unfold live_acquire, live_check, ntt_event_deliver_side, serve_leave, cancel_close, ntt_event_release,
      ntt_event_cancelled_task_svc, ntt_event_acquire_if_live, set_ev, emit, view in Heq; simpl in Heq;
    try (repeat (case_match; simpl in Heq); simplify_eq; simpl; solve [exact Hnil|apply Hone; auto; done]).
  - unfold ntt_event_report_cancelled in Heq.
    repeat (case_match; simpl in Heq); simplify_eq; simpl; first [exact Hnil|apply Hone; auto; done].
  - unfold ntt_event_finish in Heq. simplify_eq. simpl. apply Hend. intros y.
    repeat destruct (negb _); simpl; rewrite ?elem_of_cons, ?elem_of_nil; naive_solver.
  - unfold ntt_event_teardown in Heq. simplify_eq. simpl.
    set (l := if negb (Z.land (flags e) NTT_EVENT_WORK =? 0) then [WorkLeave g] else []).
    destruct (Hend l) as [H1 H2]; [intros y; unfold l; destruct (negb _); rewrite ?elem_of_cons, ?elem_of_nil; naive_solver|].
    unfold ntt_event_report_cancelled. set (s := if interest e =? _ then _ else _).
    destruct (if interest_of s =? NTT_INTEREST_READABLE then _ else _); [|by split].
    split.
    + apply (given_last_app [Report s g]); [apply Hone; [done|by right]|done|].
      intros y _. right. by intros Hin%list_elem_of_singleton.
    + intros y [->|Hy]%elem_of_cons; [by right|by apply H2].
Qed.

Section order.
Context `{Platform} `{Allocator, !AllocatorLaws} `{Epoll}.

Definition order_inv (c : table * list tthread) : Prop :=
  (forall p, given_last (log_at p (tb_log c.1))) /\ Forall on_not_opening c.2.

(** More of one object is observed, of the event that lives there. *)
Lemma order_write T T' p l s us :
  slot_inv s us -> log s = log_at p (tb_log T) ->
  (forall q, given_last (log_at q (tb_log T))) -> tb_log T' = tb_log T ++ map (pair p) l ->
  given_last l -> (forall y, y ∈ l -> after_given y = true \/ entry_gen y = generation s) ->
  forall q, given_last (log_at q (tb_log T')).
Proof.
  intros Hinv Hlog Hall -> Hl Hy q. rewrite log_at_app, log_at_pair. case_decide as Hq; [subst q|by rewrite app_nil_r].
  apply given_last_app; [done|done|]. intros y Hin. destruct (Hy y Hin) as [|Hg]; [by left|right].
  rewrite Hg, <- Hlog. by eapply current_not_given.
Qed.

(** The same of entries that do not give the slot back. *)
Lemma order_plain T T' p l s us :
  slot_inv s us -> log s = log_at p (tb_log T) ->
  (forall q, given_last (log_at q (tb_log T))) -> tb_log T' = tb_log T ++ map (pair p) l ->
  (forall y, y ∈ l -> (forall g, y <> Given g) /\ entry_gen y = generation s) ->
  forall q, given_last (log_at q (tb_log T')).
Proof.
  intros Hinv Hlog Hall HT Hy. eapply order_write; [done..| |].
  - apply given_last_none. intros g Hin. by destruct (Hy _ Hin) as [Hn _]; eapply Hn.
  - intros y Hin. right. by apply Hy.
Qed.

Lemma fill_order T p prm fd events fl rest L sl T' ts :
  table_inv T (Filling p prm fd events fl :: rest) L sl -> (forall q, given_last (log_at q (tb_log T))) ->
  open_fill p prm fd events fl T = Ok (T', ts) -> forall q, given_last (log_at q (tb_log T')).
Proof.
  intros Hinv Hall Hex. pose proof (Forall_inv (ti_threads _ _ _ _ Hinv)) as [i [Hi ->]].
  pose proof (ti_slots _ _ _ _ Hinv i Hi) as Hok. destruct (slot_sees _ _ _ _ i Hinv Hi) as (Hg & Hh & _).
  unfold open_fill in Hex. rewrite Hg, bind_ok, Hh, bind_ok in Hex. injection Hex as <- <-.
  eapply order_plain; [by eapply slot_ok_inv|by apply (so_log _ _ _ _ _ Hok)|done|done|].
  intros y. simpl. repeat destruct (negb _); simpl; rewrite ?elem_of_cons, ?elem_of_nil; naive_solver.
Qed.

Lemma enter_order T p fd id fl events rest L sl T' ts :
  table_inv T (StartEnter p fd id fl events :: rest) L sl -> (forall q, given_last (log_at q (tb_log T))) ->
  open_enter p fd id fl events T = Ok (T', ts) -> forall q, given_last (log_at q (tb_log T')).
Proof.
  intros Hinv Hall Hex. destruct (start_sees T _ rest L sl p fd id Hinv eq_refl)
    as (i & o & Hi & -> & Ho & _ & _ & -> & Hid & _).
  pose proof (ti_slots _ _ _ _ Hinv i Hi) as Hok.
  unfold open_enter, get_object in Hex. rewrite Ho, bind_ok, Hid in Hex. simpl in Hex. injection Hex as <- <-.
  eapply order_plain; [by eapply slot_ok_inv|by apply (so_log _ _ _ _ _ Hok)|done|done|].
  intros y. destruct (negb _); simpl; rewrite ?elem_of_cons, ?elem_of_nil; naive_solver.
Qed.

Lemma add_order T p fd id events rest L sl T' ts :
  table_inv T (StartAdd p fd id events :: rest) L sl -> (forall q, given_last (log_at q (tb_log T))) ->
  open_add p fd id events T = Ok (T', ts) -> forall q, given_last (log_at q (tb_log T')).
Proof.
  intros Hinv Hall Hex. destruct (start_sees T _ rest L sl p fd id Hinv eq_refl)
    as (i & o & Hi & -> & Ho & _ & _ & -> & Hid & _).
  pose proof (ti_slots _ _ _ _ Hinv i Hi) as Hok.
  unfold open_add, get_object in Hex. rewrite Ho, bind_ok, Hid in Hex.
  apply bind_inv_ok in Hex as (T1 & [_ ->]%epoll_add_inv & [= <- <-]).
  eapply order_plain; [by eapply slot_ok_inv|by apply (so_log _ _ _ _ _ Hok)|done|done|].
  intros y ->%list_elem_of_singleton. done.
Qed.

Lemma outside_log p o t T T' : outside p o t T = Ok T' -> tb_log T' = tb_log T.
Proof.
  destruct t; simpl; try (by intros [= <-]); intros Heq.
  - by apply epoll_del_inv in Heq as [_ ->].
  - by apply bind_inv_ok in Heq as (i & _ & ([s m] & _ & [= <-])%bind_inv_ok).
  - by apply bind_inv_ok in Heq as (i & _ & ([s m] & _ & [= <-])%bind_inv_ok).
Qed.

Lemma on_order T p t rest L sl T' ts :
  table_inv T (On p t :: rest) L sl -> not_opening t = true -> (forall q, given_last (log_at q (tb_log T))) ->
  exec_on p t T = Ok (T', ts) ->
  (forall q, given_last (log_at q (tb_log T'))) /\ Forall on_not_opening ts.
Proof.
  intros Hinv Ht Hall Hex. destruct (on_sees _ _ _ _ _ _ Hinv) as (i & o & Hi & -> & Ho & Hoe & Hg & _ & Hsi & _).
  unfold exec_on, get_object in Hex. rewrite Ho, bind_ok, Hg, bind_ok in Hex.
  apply bind_inv_ok in Hex as (T1 & Hout%outside_log & Hex).
  destruct (exec t _) as [v new] eqn:Hv. injection Hex as <- <-. split.
  - pose proof (Forall_inv (i_current _ _ Hsi)) as Hcur.
    destruct (exec_log _ _ _ _ _ Hv) as [Hl Hy]; [by destruct t|done|].
    eapply order_write; [exact Hsi|by apply (so_log _ _ _ _ _ (ti_slots _ _ _ _ Hinv i Hi))|done| |done|done].
    simpl. by rewrite Hout.
  - pose proof (exec_not_opening _ _ _ _ Hv Ht) as Hn. apply Forall_map. by eapply Forall_impl.
Qed.

Lemma order_step c c' : bounded_step c c' -> table_ok c -> order_inv c -> order_inv c'.
Proof.
  intros [[Hs|Hs] _] [_ (L & sl & Hinv)] [Hall Hno]; [|by destruct Hs].
  destruct Hs as [T l1 t l2 T' ts Hex|T ts prm fd events fl _ _|T ts fd mask h events _|T ts h fd _]; simpl in *;
    [|by split; [|constructor]..].
  apply (table_inv_perm _ _ (t :: l1 ++ l2)) in Hinv; [|by rewrite Permutation_middle].
  rewrite Forall_app, Forall_cons in Hno. destruct Hno as (Hn1 & Hnt & Hn2).
  assert (Hgoal : (forall q, given_last (log_at q (tb_log T'))) /\ Forall on_not_opening ts).
  2:{ split; [apply Hgoal|]. simpl. rewrite !Forall_app. split_and!; [done|apply Hgoal|done]. }
  destruct t as [prm fd events fl|p prm fd events fl|p fd id fl events|p fd id events|h events|h|p t]; simpl in Hex.
  - apply bind_inv_ok in Hex as ([q [s m]] & _ & [= <- <-]). by split; [|repeat constructor].
  - split; [by eapply fill_order|]. by apply bind_inv_ok in Hex as (g & _ & (id & _ & [= _ <-])%bind_inv_ok); repeat constructor.
  - split; [by eapply enter_order|]. unfold open_enter in Hex. apply bind_inv_ok in Hex as (o & _ & [= _ <-]). by repeat constructor.
  - split; [by eapply add_order|]. by apply bind_inv_ok in Hex as (o & _ & (T1 & _ & [= _ <-])%bind_inv_ok); repeat constructor.
  - apply bind_inv_ok in Hex as (p & _ & [= <- <-]). by split; [|repeat constructor].
  - apply bind_inv_ok in Hex as (p & _ & [= <- <-]). by split; [|repeat constructor].
  - by eapply on_order.
Qed.

Lemma table_reachable_order T ts : table_reachable T ts -> order_inv (T, ts).
Proof.
  intros (m & Hb & Hs). pose proof (fresh_table_ok m Hb) as Hok.
  assert (Hi : order_inv (fresh_table m, [])).
  { split; [|done]. intros p. apply given_last_none. by intros g ?%elem_of_nil. }
  revert Hs Hok Hi. generalize (fresh_table m, [] : list tthread) (T, ts).
  induction 1 as [|x y z Hstep _ IH]; [done|]. intros Hok Hi. apply IH; [by eapply bounded_step_ok|by eapply order_step].
Qed.
End order.
