(* ===== verification/EventTableProps.v ===== *)
(** * All events of a loop: properties

    The events of a loop are independent instances of [Event]: what [EventProps]
    shows of one slot holds of every event, handles keep them apart, and an event
    whose slot was given back is left alone. *)

From stdpp Require Import base numbers list gmap relations.
From Stdlib Require Import ZArith Lia.
From S2P Require Import Prelude.
From S2P Require Import Slab.
From S2P Require Import SlabInv.
From S2P Require Import SlabOps.
From S2P Require Import SlabProps.
From S2P Require Import Event.
From S2P Require Import EventInv.
From S2P Require Import EventSteps.
From S2P Require Import EventProps.
From S2P Require Import EventTable.
From S2P Require Import EventTableInv.
From S2P Require Import EventTableSteps.
From S2P Require Import EventTableOpen.
From S2P Require Import EventTableOrder.

#[local] Open Scope Z_scope.

(** The side and the handle generation of the handler a thread is inside of. *)
Definition calling (t : thread) : option (side * Z) :=
  match t with ServeCall s g _ | PlainCall s g _ => Some (s, g) | _ => None end.

Section lemmas.
Context `{Platform} `{Allocator, !AllocatorLaws} `{Epoll}.
Implicit Types (T : table) (ts : list tthread).

(** A slot as the functions of the slab see it. *)
Lemma slot_at T ts L sl i :
  table_inv T ts L sl -> 0 <= i < slab_size (tb_slab T) ->
  ntt_slab_at (tb_slab T) i = Ok (slot_addr T i).
Proof. intros Hinv Hi. destruct (ti_wf _ _ _ _ Hinv) as (fl & Hsl & _). by apply (at_ok _ (tb_mem T) fl). Qed.

(** The events that keep a slot when nothing moves. *)
Lemma rest_live T L sl i :
  table_inv T [] L sl -> 0 <= i < slab_size (tb_slab T) ->
  i ∈ L <-> in_use (sl i) = true /\ listed (sl i) [].
Proof.
  intros Hinv Hi. pose proof (ti_slots _ _ _ _ Hinv i Hi) as Hok.
  pose proof (so_live _ _ _ _ _ Hok) as Hlv. simpl in Hlv. rewrite Nat.add_0_r in Hlv.
  pose proof (slot_ok_inv _ _ _ _ _ Hok) as Hsi. simpl in Hsi.
  pose proof (i_reporter _ _ Hsi) as Hr. pose proof (i_refs _ _ Hsi) as Hrefs. simpl in Hr, Hrefs.
  case_bool_decide as HiL; destruct (in_use (sl i)); simpl in *; try done; split; try done; [|by intros []].
  intros _. split; [done|]. left. destruct (closed (state (ev (sl i)))); [|done].
  simpl in Hrefs. by rewrite Hrefs in Hr.
Qed.

(** What the epoll holds is in use. *)
Lemma registered_live T L sl fd mask h :
  table_inv T [] L sl -> tb_epoll T !! fd = Some (mask, h) -> ntt_event_handle_index h ∈ L.
Proof.
  intros Hinv Hf. destruct (ti_epoll _ _ _ _ Hinv _ _ _ Hf) as (Hin & i & Hi & -> & Hu & _ & Hl).
  destruct (index_range T L sl _ i Hinv Hi).
  rewrite (proj1 (event_handle_roundtrip i (generation (sl i)) ltac:(lia) ltac:(lia))).
  by apply (rest_live _ _ _ _ Hinv Hi).
Qed.
End lemmas.

(** ** Running a schedule *)
Section play.
Context `{Platform} `{Allocator} `{Epoll}.

Inductive tmove : Type :=
  | TExec (i : nat)
  | TOpen (prm : ntt_event_params) (fd events fl : Z)
  | TNotify (fd events : Z)
  | TCancel (h fd : Z).

Definition gens_boundedb (T : table) : bool :=
  bool_decide (map_Forall (fun _ h => default 0 (head_generation h) < 2 ^ 32)
    (mem_heads (tb_mem T))) && ((slab_size (tb_slab T) + 1) * stride (tb_slab T) <=? 2 ^ 32).

Definition tplay (m : tmove) (c : table * list tthread) : option (table * list tthread) :=
  let '(T, ts) := c in
  match m with
  | TExec i =>
      match ts !! i with
      | Some t => match texec t T with Ok (T', new) => Some (T', take i ts ++ new ++ drop (S i) ts) | Err _ => None end
      | None => None
      end
  | TOpen prm fd events fl =>
      match tb_epoll T !! fd, total (registering fd) ts with
      | None, O => Some (T, Opening prm fd events fl :: ts)
      | _, _ => None
      end
  | TNotify fd events =>
      match tb_epoll T !! fd with Some (_, h) => Some (T, AskDispatch h events :: ts) | None => None end
  | TCancel h fd => if bool_decide ((h, fd) ∈ tb_issued T) then Some (T, AskCancel h :: ts) else None
  end.

Fixpoint tplays (ms : list tmove) (c : table * list tthread) : option (table * list tthread) :=
  match ms with
  | [] => Some c
  | m :: ms => match tplay m c with
               | Some c => if gens_boundedb c.1 then tplays ms c else None
               | None => None
               end
  end.

Lemma gens_boundedb_true T : gens_boundedb T = true -> gens_bounded T.
Proof. unfold gens_boundedb. rewrite andb_true_iff, bool_decide_eq_true, Z.leb_le. done. Qed.

Lemma tplays_steps ms : forall c c', tplays ms c = Some c' -> rtc bounded_step c c'.
Proof.
  induction ms as [|m ms IH]; intros c c' Heq; simpl in Heq; [by injection Heq as ->|].
  destruct (tplay m c) as [c1|] eqn:Hp; [|done].
  destruct (gens_boundedb c1.1) eqn:Hb; [|done]. apply gens_boundedb_true in Hb.
  eapply rtc_l; [|by apply IH]. split; [left|done]. clear IH Heq Hb.
  destruct c as [T ts]. destruct m as [i|prm fd events fl|fd events|h fd]; simpl in Hp.
  - destruct (ts !! i) as [t|] eqn:Hi; [|done]. destruct (texec t T) as [[T' new]|] eqn:Hex; [|done].
    injection Hp as <-. rewrite <- (take_drop_middle ts i t Hi) at 1. by constructor.
  - destruct (tb_epoll T !! fd) eqn:He; [done|]. destruct (total (registering fd) ts) eqn:Hz; [|done].
    injection Hp as <-. by constructor.
  - destruct (tb_epoll T !! fd) as [[mask h]|] eqn:He; [|done]. injection Hp as <-. by econstructor.
  - case_bool_decide as Hin; [|done]. injection Hp as <-. by econstructor.
Qed.
End play.

(** ** Claims *)
Section props.
Context `{Platform} `{Allocator, !AllocatorLaws} `{Epoll}.
Implicit Types (T : table) (ts : list tthread).

(** C11.  The events of a loop refine [Event]: whatever notifications,
    cancellations and starts of all events do, each slot of the slab, with the
    threads that work on it, its generation and what was observed of it, is in a
    state that the model of a single slot reaches. *)
Theorem event_table_refines T ts i p :
  table_reachable T ts -> ntt_slab_at (tb_slab T) i = Ok p -> 0 <= i < slab_size (tb_slab T) ->
  exists sl us, reachable sl us /\ us ≡ₚ threads_at p ts /\ log sl = log_at p (tb_log T) /\
    ntt_slab_generation (tb_mem T) p = Ok (generation sl) /\
    (forall o, tb_objs T !! p = Some o -> obj_event o = ev sl).
Proof.
  intros (_ & L & sl & Hinv)%table_reachable_inv Hp Hi.
  rewrite (slot_at _ _ _ _ i Hinv Hi) in Hp. injection Hp as <-.
  pose proof (ti_slots _ _ _ _ Hinv i Hi) as Hok. destruct (so_reach _ _ _ _ _ Hok) as (us & Hus & Hr).
  exists (sl i), us. split_and!; try done.
  - apply (so_log _ _ _ _ _ Hok).
  - apply (slot_sees _ _ _ _ i Hinv Hi).
  - intros o Ho. pose proof (so_obj _ _ _ _ _ Hok) as Hx. by rewrite Ho in Hx.
Qed.

(** C21.  No handle leads outside of the slab or to memory that was never
    written, no slot is given back twice, no assertion fails, and [epoll_ctl] is
    never asked to add a descriptor that is there or to remove one that is not.
    A step aborts the process only when the system refuses what the step asks
    for: [ntt_event_open] the memory for the next block of the slab, its
    registration or the removal in [ntt_event_cancel] for a reason of the kernel's
    own; no other step can fail. *)
Theorem event_table_no_fault T ts t :
  table_reachable T ts -> t ∈ ts ->
  returns_or
    match t with
    | Opening _ _ _ _ => block_refused (tb_slab T)
    | StartAdd _ fd _ _ => tb_epoll T !! fd = None /\ epoll_accepts EPOLL_CTL_ADD fd (tb_epoll T) = false
    | On p (CloseDel _) => exists o, tb_objs T !! p = Some o /\ is_Some (tb_epoll T !! obj_fd o) /\
        epoll_accepts EPOLL_CTL_DEL (obj_fd o) (tb_epoll T) = false
    | _ => False
    end (texec t T) (fun _ => True).
Proof.
  intros (Hb & L & sl & Hinv)%table_reachable_inv (l1 & l2 & ->)%list_elem_of_split.
  eapply (table_inv_perm _ _ (t :: l1 ++ l2)) in Hinv; [|by rewrite Permutation_middle].
  eapply returns_or_mono; [by eapply texec_ok| |done].
  destruct t as [| | |p fd id events| | |p t]; try done.
  - split; [by eapply start_unregistered|done].
  - destruct t; try done. intros (o & Ho & Hr). exists o. split_and!; [done| |done]. by eapply close_registered.
Qed.

(** C22.  A handler runs with the descriptor that was registered under its
    handle, and under no other: a stale notification never reaches the event
    that lives in the slot now. *)
Theorem event_handler_own T ts p t s g :
  table_reachable T ts -> On p t ∈ ts -> calling t = Some (s, g) ->
  exists i o, ntt_slab_at (tb_slab T) i = Ok p /\ tb_objs T !! p = Some o /\
    (ntt_event_handle_of i g, obj_fd o) ∈ tb_issued T /\
    forall fd, (ntt_event_handle_of i g, fd) ∈ tb_issued T -> fd = obj_fd o.
Proof.
  intros (_ & L & sl & Hinv)%table_reachable_inv (l1 & l2 & ->)%list_elem_of_split Hc.
  eapply (table_inv_perm _ _ (On p t :: l1 ++ l2)) in Hinv; [|by rewrite Permutation_middle].
  destruct (on_sees _ _ _ _ _ _ Hinv) as (i & o & Hi & -> & Ho & _ & _ & _ & Hsi & _).
  pose proof (ti_slots _ _ _ _ Hinv i Hi) as Hok.
  pose proof (started _ _ _ _ _ _ Hok ltac:(by destruct t)) as Hst.
  destruct (held_in_use _ _ Hsi) as (Hu & _); [rewrite total_cons; destruct t; simpl in *; try done; lia|].
  pose proof (Forall_inv (i_current _ _ Hsi)) as Hcur.
  assert (g = generation (sl i)) as -> by (destruct t; simpl in *; congruence).
  destruct (so_known _ _ _ _ _ Hok Hu) as (o' & Ho' & Hin & _); [by rewrite total_cons|].
  assert (o' = o) as -> by congruence. exists i, o.
  split_and!; try done; [by eapply slot_at|]. intros fd Hin'.
  assert ((ntt_event_handle_of i (generation (sl i)), fd) =
          (ntt_event_handle_of i (generation (sl i)), obj_fd o)) as [=]; [|done].
  eapply (NoDup_fmap_eq fst); [apply (ti_unique _ _ _ _ Hinv)|done..].
Qed.

(** C23.  When no thread is under way, the slots in use are exactly those of
    the descriptors in the epoll of the loop: a cancelled event leaves neither
    a slot nor a registration behind, and no registration is dangling. *)
Theorem event_table_no_leak T :
  table_reachable T [] ->
  exists L, slab_wf (tb_slab T) (tb_mem T) L /\
    (forall i, i ∈ L -> exists p o h mask, ntt_slab_at (tb_slab T) i = Ok p /\ tb_objs T !! p = Some o /\
      handle_of_object T p = Ok h /\ tb_epoll T !! obj_fd o = Some (mask, h)) /\
    (forall fd mask h, tb_epoll T !! fd = Some (mask, h) ->
      ntt_event_handle_index h ∈ L /\ (h, fd) ∈ tb_issued T).
Proof.
  intros (_ & L & sl & Hinv)%table_reachable_inv. exists L. pose proof (ti_wf _ _ _ _ Hinv) as Hwf.
  split_and!; [done| |].
  - intros i HiL. assert (Hi : 0 <= i < slab_size (tb_slab T)) by (destruct Hwf as (fl & _ & HL); by apply HL).
    destruct (proj1 (rest_live _ _ _ _ Hinv Hi) HiL) as [Hu Hl].
    destruct (so_known _ _ _ _ _ (ti_slots _ _ _ _ Hinv i Hi) Hu eq_refl) as (o & Ho & _ & Hm).
    destruct (Hm Hl) as [mask Hmask]. destruct (slot_sees _ _ _ _ i Hinv Hi) as (_ & Hh & _).
    exists (slot_addr T i), o, (ntt_event_handle_of i (generation (sl i))), mask.
    split_and!; try done. by eapply slot_at.
  - intros fd mask h Hf. split; [by eapply registered_live|apply (ti_epoll _ _ _ _ Hinv _ _ _ Hf)].
Qed.

(** C30.  The order of what happens to an event.  Once a side is reported
    cancelled no handler starts any more, the writable side is not reported after
    the readable one, and no side is reported twice.  Once the slot of the event
    is given back, only the references of its queues and the work of the loop are
    let go of, and a call of [ntt_event_cancel] may return to its caller: no
    handler runs or returns, nothing is reported, nothing is registered with or
    removed from the epoll, and the slot is not given back again, whatever stale
    handles are used. *)
Theorem event_report_order T ts p l1 x l2 g :
  table_reachable T ts -> log_at p (tb_log T) = l1 ++ x :: l2 ->
  (forall s, x = Report s g -> (forall s', Call s' g ∉ l2) /\ (Report s g ∉ l2) /\ (Report Writable g ∉ l2)) /\
  (x = Given g -> forall y, y ∈ l2 -> entry_gen y = g ->
    (exists s, y = QueueRelease s g) \/ y = WorkLeave g \/ y = CancelReturned g).
Proof.
  intros Hr Hlog. split.
  - destruct (table_reachable_inv _ _ Hr) as (_ & L & sl & Hinv).
    destruct (ti_log _ _ _ _ Hinv p x) as (i & Hi & ->).
    { apply elem_of_log_at. rewrite Hlog. apply elem_of_app. right. by left. }
    pose proof (ti_slots _ _ _ _ Hinv i Hi) as Hok. destruct (so_reach _ _ _ _ _ Hok) as (us & _ & Hus).
    rewrite <- (so_log _ _ _ _ _ Hok) in Hlog. by apply (slot_report_order _ _ _ _ _ g Hus Hlog).
  - intros -> y Hy Hg. destruct (table_reachable_order _ _ Hr) as [Hlast _].
    pose proof (Hlast p l1 g l2 y Hlog Hy Hg) as Ha. destruct y; simpl in Ha, Hg; try done; subst; eauto.
Qed.
End props.

(** ** Witnesses *)
Module EventTableExample.
#[local] Existing Instances SlabExample.machine SlabExample.bump SlabExample.bump_laws.
#[local] Instance kernel : Epoll := {| epoll_accepts := fun _ _ _ => true |}.

Definition start (fd : Z) : list tmove :=
  TOpen EventExample.reader fd (Z.lor EPOLLIN EPOLLET) (Z.lor NTT_EVENT_WORK NTT_EVENT_SERIAL)
  :: replicate 4 (TExec 0).

(** A notification, up to the handler, and the rest of it. *)
Definition notified (fd : Z) : list tmove := TNotify fd EPOLLIN :: replicate 11 (TExec 0).
Definition served : list tmove := replicate 4 (TExec 0).

(** A cancellation, with its report and the end of the event. *)
Definition cancelled (h fd : Z) : list tmove := TCancel h fd :: replicate 9 (TExec 0).

Definition begin : table * list tthread := (fresh_table SlabExample.mem0, []).

Lemma table_after_reachable ms c : tplays ms begin = Some c -> table_reachable c.1 c.2.
Proof.
  intros Hs%tplays_steps. exists SlabExample.mem0.
  split; [apply gens_boundedb_true; by vm_compute|]. by rewrite <- surjective_pairing.
Qed.

Definition after (ms : list tmove) : table * list tthread := default begin (tplays ms begin).

Lemma after_table ms : is_Some (tplays ms begin) -> table_reachable (after ms).1 (after ms).2.
Proof. intros [c Hc]. unfold after. rewrite Hc. by apply table_after_reachable in Hc. Qed.

(** Two events, the second one in its handler while the first one was
    cancelled, and a third one in the slot of the first. *)
Definition h1 : Z := ntt_event_handle_of 0 1.
Definition busy_table : table * list tthread :=
  after (start 7 ++ start 8 ++ cancelled h1 7 ++ start 9 ++ notified 9).
Definition quiet_table : table * list tthread := after (start 7 ++ start 8 ++ cancelled h1 7).

Lemma busy_reachable : table_reachable busy_table.1 busy_table.2.
Proof. apply after_table. eexists. by vm_compute. Qed.

Lemma quiet_reachable : table_reachable quiet_table.1 quiet_table.2.
Proof. apply after_table. eexists. by vm_compute. Qed.

Lemma event_table_refines_witness :
  busy_table.2 = [On 64 (ServeCall Readable 2 [])] /\
  exists sl us, reachable sl us /\ us ≡ₚ [ServeCall Readable 2 []] /\ generation sl = 2.
Proof.
  split; [by vm_compute|].
  destruct (event_table_refines busy_table.1 busy_table.2 0 64 busy_reachable) as (sl & us & Hr & Hus & _ & Hg & _);
    [by vm_compute|by vm_compute|].
  exists sl, us. split; [exact Hr|]. split; [rewrite Hus; by vm_compute|].
  assert (He : ntt_slab_generation (tb_mem busy_table.1) 64 = Ok 2) by (by vm_compute).
  rewrite He in Hg. by injection Hg as <-.
Defined.

Lemma event_table_no_fault_witness :
  returns_or False (texec (On 64 (ServeCall Readable 2 [])) busy_table.1) (fun _ => True).
Proof.
  apply (event_table_no_fault busy_table.1 busy_table.2 (On 64 (ServeCall Readable 2 [])) busy_reachable).
  replace busy_table.2 with [On 64 (ServeCall Readable 2 [])] by (by vm_compute). by left.
Defined.

(** The first event was given back; its queue and its work follow. *)
Lemma event_report_order_witness :
  exists l1 l2, log_at 64 (tb_log quiet_table.1) = l1 ++ Given 1 :: l2 /\ EpollDel 1 ∈ l1 /\ WorkLeave 1 ∈ l2 /\
    forall y, y ∈ l2 -> entry_gen y = 1 ->
      (exists s, y = QueueRelease s 1) \/ y = WorkLeave 1 \/ y = CancelReturned 1.
Proof.
  assert (Hlog : log_at 64 (tb_log quiet_table.1) =
    [QueueAcquire Readable 1; WorkEnter 1; EpollAdd 1 2147483649; EpollDel 1; CancelReturned 1; Report Readable 1] ++
    Given 1 :: [QueueRelease Readable 1; WorkLeave 1]) by (by vm_compute).
  do 2 eexists. split; [exact Hlog|]. split; [apply (list_elem_of_lookup_2 _ 3); reflexivity|].
  split; [apply (list_elem_of_lookup_2 _ 1); reflexivity|].
  exact (proj2 (event_report_order quiet_table.1 quiet_table.2 64 _ _ _ 1 quiet_reachable Hlog) eq_refl).
Defined.

Lemma event_handler_own_witness :
  exists i o, tb_objs busy_table.1 !! 64 = Some o /\ obj_fd o = 9 /\
    (ntt_event_handle_of i 2, 9) ∈ tb_issued busy_table.1.
Proof.
  destruct (event_handler_own busy_table.1 busy_table.2 64 (ServeCall Readable 2 []) Readable 2 busy_reachable)
    as (i & o & _ & Ho & Hin & _).
  - replace busy_table.2 with [On 64 (ServeCall Readable 2 [])] by (by vm_compute). by left.
  - reflexivity.
  - exists i, o. assert (obj_fd o = 9) as Hfd; [|rewrite <- Hfd; eauto].
    vm_compute in Ho. by injection Ho as <-.
Defined.

Lemma event_table_no_leak_witness :
  exists L : gset Z, ntt_event_handle_index (ntt_event_handle_of 1 1) ∈ L /\
    tb_epoll quiet_table.1 !! 7 = None.
Proof.
  assert (Hr : table_reachable quiet_table.1 []).
  { pose proof quiet_reachable as Hq. by replace quiet_table.2 with (@nil tthread) in Hq by (by vm_compute). }
  destruct (event_table_no_leak quiet_table.1 Hr) as (L & _ & _ & Hin). exists L. split; [|by vm_compute].
  apply (Hin 8 2147483649 (ntt_event_handle_of 1 1)). by vm_compute.
Defined.
End EventTableExample.
