(* ===== verification/TimerService.v ===== *)
(** * The timer service and the timers of queues: data and operations

    Translates [src/timer_service.c], [src/timer.c] and the part of [src/queue.c]
    and [src/queue.h] that registers the earliest timer of a queue with the
    service.  The queues live in the slots of the slab of the loop; a slot keeps
    its generation when its queue goes.  A step is an atomic operation or a
    critical section of a spinlock; what a queue does to its own fields between
    two of them is part of the step before.  The two heaps are the ones of
    [TimerHeap] and [QueueHeap].  The task list of a queue is kept by kind, since
    [Queue] shows how tasks are run; here a queue runs one task at a time. *)

From stdpp Require Import base numbers list gmap.
From Stdlib Require Import ZArith Lia.
From S2P Require Import Prelude.
From S2P Require Import TimerHeap.
From S2P Require Import TimerHeapOps.
From S2P Require Import TimerHeapSpec.
From S2P Require Import QueueHeap.
From S2P Require Import QueueHeapArray.

#[local] Open Scope Z_scope.

Definition NTT_TIMER_SERVICE_BATCH : Z := 16.
Definition NSEC_PER_SEC : Z := 1000000000.

(** ** Time *)
Record timespec : Type := mk_timespec { tv_sec : Z; tv_nsec : Z }.

(** What [clock_gettime] stores at a time in nanoseconds. *)
Definition clock_gettime (clock : Z) : timespec :=
  mk_timespec (clock / NSEC_PER_SEC) (clock mod NSEC_PER_SEC).

Definition ntt_now_ns (clock : Z) : Z :=
  let ts := clock_gettime clock in
  u64 (u64 (u64 (tv_sec ts) * NSEC_PER_SEC) + u64 (tv_nsec ts)).

(** The [it_value] that [ntt_timer_service_arm_locked] asks for. *)
Definition arm_value (deadline : Z) : timespec :=
  let spec := mk_timespec (deadline / NSEC_PER_SEC) (deadline mod NSEC_PER_SEC) in
  if (tv_sec spec =? 0) && (tv_nsec spec =? 0) then mk_timespec (tv_sec spec) 1 else spec.

Definition timespec_ns (ts : timespec) : Z := tv_sec ts * NSEC_PER_SEC + tv_nsec ts.

(** ** Queues *)

(** Where [ntt_queue_sync_timers] stands. *)
Inductive sync_point : Type :=
  | SyncLoad                                    (* at its start *)
  | SyncDrop                                    (* no timer is left, before the retirement *)
  | SyncUnref                                   (* no timer is left, after it *)
  | SyncKeep (registered : bool) (deadline : Z) (* a timer is left *)
  | SyncRetire (deadline : Z)                   (* before the new generation *)
  | SyncRegister (generation deadline tombstones : Z). (* before ntt_timer_service_register *)

(** What runs in the context of a queue, calls of the library and the callbacks
    they make. *)
Inductive frame : Type :=
  | InTask                      (* the callback of a task *)
  | TimersBegin                 (* ntt_queue_timers_task_svc, before the clock is read *)
  | Drain (now : Z)             (* ntt_timer_heap_svc, before a turn of its loop *)
  | InTimer (task : ptr)        (* the callbacks of a timer that fires *)
  | InCancel (task : ptr).      (* the drop callback of a timer that is cancelled *)

Inductive task_kind : Type :=
  | UserTask
  | TimersTask.                 (* made by ntt_queue_wakeup_timers *)

#[global] Instance task_kind_eq_dec : EqDecision task_kind.
Proof. solve_decision. Defined.

#[global] Instance frame_eq_dec : EqDecision frame.
Proof. solve_decision. Defined.

(** A queue of the slab.  Not in the code: [q_clients] counts the references of
    the code around the library, [q_leaving] the servers that took the last task
    and have not dropped their reference yet; [q_running] says that the first
    task has been started, and [q_frames] and [q_sync] are what it is inside of. *)
Record tqueue : Type := mk_tqueue {
  q_refs : Z;
  q_clients : nat;
  q_leaving : nat;
  q_tasks : list task_kind;
  q_running : bool;
  q_frames : list frame;
  q_sync : option sync_point;
  q_timers : ntt_timer_heap;
  q_service : bool;             (* timer_service is not null *)
  q_reg_gen : Z;
  q_reg_deadline : Z;
  q_self_ref : bool;
  q_tombstones : Z;
}.

(** A slot of the slab.  [s_dying] is set from the moment the last reference
    goes until the slot is given back. *)
Record slot : Type := mk_qslot {
  s_generation : Z;
  s_dying : bool;
  s_queue : tqueue;
}.

Definition with_refs r q := mk_tqueue r (q_clients q) (q_leaving q) (q_tasks q) (q_running q) (q_frames q)
  (q_sync q) (q_timers q) (q_service q) (q_reg_gen q) (q_reg_deadline q) (q_self_ref q) (q_tombstones q).
Definition with_clients c q := mk_tqueue (q_refs q) c (q_leaving q) (q_tasks q) (q_running q) (q_frames q)
  (q_sync q) (q_timers q) (q_service q) (q_reg_gen q) (q_reg_deadline q) (q_self_ref q) (q_tombstones q).
Definition with_leaving n q := mk_tqueue (q_refs q) (q_clients q) n (q_tasks q) (q_running q) (q_frames q)
  (q_sync q) (q_timers q) (q_service q) (q_reg_gen q) (q_reg_deadline q) (q_self_ref q) (q_tombstones q).
Definition with_tasks l q := mk_tqueue (q_refs q) (q_clients q) (q_leaving q) l (q_running q) (q_frames q)
  (q_sync q) (q_timers q) (q_service q) (q_reg_gen q) (q_reg_deadline q) (q_self_ref q) (q_tombstones q).
Definition with_run b fs q := mk_tqueue (q_refs q) (q_clients q) (q_leaving q) (q_tasks q) b fs
  (q_sync q) (q_timers q) (q_service q) (q_reg_gen q) (q_reg_deadline q) (q_self_ref q) (q_tombstones q).
Definition with_sync y q := mk_tqueue (q_refs q) (q_clients q) (q_leaving q) (q_tasks q) (q_running q) (q_frames q)
  y (q_timers q) (q_service q) (q_reg_gen q) (q_reg_deadline q) (q_self_ref q) (q_tombstones q).
Definition with_timers h q := mk_tqueue (q_refs q) (q_clients q) (q_leaving q) (q_tasks q) (q_running q) (q_frames q)
  (q_sync q) h (q_service q) (q_reg_gen q) (q_reg_deadline q) (q_self_ref q) (q_tombstones q).
Definition with_service b q := mk_tqueue (q_refs q) (q_clients q) (q_leaving q) (q_tasks q) (q_running q) (q_frames q)
  (q_sync q) (q_timers q) b (q_reg_gen q) (q_reg_deadline q) (q_self_ref q) (q_tombstones q).
Definition with_reg g d q := mk_tqueue (q_refs q) (q_clients q) (q_leaving q) (q_tasks q) (q_running q) (q_frames q)
  (q_sync q) (q_timers q) (q_service q) g d (q_self_ref q) (q_tombstones q).
Definition with_self_ref b q := mk_tqueue (q_refs q) (q_clients q) (q_leaving q) (q_tasks q) (q_running q) (q_frames q)
  (q_sync q) (q_timers q) (q_service q) (q_reg_gen q) (q_reg_deadline q) b (q_tombstones q).
Definition with_tombs n q := mk_tqueue (q_refs q) (q_clients q) (q_leaving q) (q_tasks q) (q_running q) (q_frames q)
  (q_sync q) (q_timers q) (q_service q) (q_reg_gen q) (q_reg_deadline q) (q_self_ref q) n.

(** ** The service *)

(** A timerfd: the time it expires at, whether an expiration has not been read,
    and whether the event of an expiration has not been delivered. *)
Record timerfd : Type := mk_timerfd {
  tfd_at : option Z;
  tfd_ticks : bool;
  tfd_edge : bool;
}.

Record ntt_timer_service : Type := mk_service {
  sv_lock : bool;
  sv_queues : ntt_queue_heap;
  sv_armed : Z;
  sv_fd : timerfd;
}.

Definition sv_with_lock b s := mk_service b (sv_queues s) (sv_armed s) (sv_fd s).
Definition sv_with_queues h s := mk_service (sv_lock s) h (sv_armed s) (sv_fd s).
Definition sv_with_armed a s := mk_service (sv_lock s) (sv_queues s) a (sv_fd s).
Definition sv_with_fd f s := mk_service (sv_lock s) (sv_queues s) (sv_armed s) f.

(** Where a call of [ntt_timer_service_ready] stands; [batch] are the queues
    taken out so far, by slot. *)
Inductive handler : Type :=
  | HRead                                            (* before the read *)
  | HNow                                             (* at the start of a round *)
  | HLock (now : Z)
  | HTake (now : Z) (batch : list Z)                 (* at the head of the inner loop *)
  | HAcquire (now : Z) (batch : list Z) (e : ntt_queue_heap_elem)
  | HCheck (now : Z) (batch : list Z) (e : ntt_queue_heap_elem)
  | HDrop (now : Z) (batch : list Z) (q : Z)         (* the entry was stale *)
  | HRetire (now : Z) (batch : list Z) (e : ntt_queue_heap_elem)
  | HArm (batch : list Z)                            (* after the inner loop *)
  | HWake (cnt : Z) (todo : list Z)                  (* at the head of the loop over the batch *)
  | HRelease (cnt : Z) (q : Z) (todo : list Z).

Record world : Type := mk_world {
  qslots : gmap Z slot;
  service : ntt_timer_service;
  clock : Z;
}.

Definition set_slot i s w := mk_world (<[i := s]> (qslots w)) (service w) (clock w).
Definition set_service sv w := mk_world (qslots w) sv (clock w).

(** The queue of a slot changes, its generation does not. *)
Definition upd (f : tqueue -> tqueue) (s : slot) : slot :=
  mk_qslot (s_generation s) (s_dying s) (f (s_queue s)).

Section ops.
Context `{Platform}.
Implicit Types (w : world) (i : Z) (q : tqueue) (s : slot).

(** [ntt_slab_at]: the storage of a queue outlives it. *)
Definition get_slot w i : res slot :=
  match qslots w !! i with Some s => Ok s | None => Err InvalidPointer end.

(** The fields of a queue must not be used without a reference. *)
Definition get_queue w i : res slot :=
  s ← get_slot w i;
  if q_refs (s_queue s) =? 0 then Err InvalidPointer else Ok s.

(** ** References and generations *)
Definition ntt_queue_timer_generation w i : res Z :=
  s ← get_slot w i;
  Ok (u32 (s_generation s)).

Definition ntt_queue_retire_timer_generation w i : res (Z * world) :=
  s ← get_slot w i;
  let g := s_generation s in
  Ok (u32 (u32 g + 1), set_slot i (mk_qslot (u64 (g + 1)) (s_dying s) (s_queue s)) w).

Definition ntt_queue_acquire_if_live w i : res (bool * world) :=
  s ← get_slot w i;
  let refs := q_refs (s_queue s) in
  if refs =? 0 then Ok (false, w) else Ok (true, set_slot i (upd (with_refs (refs + 1)) s) w).

Definition ntt_queue_use_count q : Z := q_refs q.

Definition ntt_queue_acquire w i : res world :=
  s ← get_queue w i;
  c_assert (negb (ntt_queue_use_count (s_queue s) =? 0)) ;;
  Ok (set_slot i (upd (with_refs (q_refs (s_queue s) + 1)) s) w).

Definition ntt_queue_release w i : res world :=
  s ← get_queue w i;
  let prev := q_refs (s_queue s) in
  Ok (set_slot i (mk_qslot (s_generation s) (prev =? 1) (with_refs (prev - 1) (s_queue s))) w).

Definition ntt_queue_empty q : bool := bool_decide (q_tasks q = []).

(** [ntt_timer_heap_deinit] of a heap whose tasks leave it alone. *)
#[local] Instance plain_host : TaskHost ntt_timer_heap := {|
  th_heap := id;
  th_set_heap h _ := h;
  th_task_unlinked _ _ := Ok true;
  th_task_svc _ h := Ok h;
  th_task_destroy _ h := Ok h;
|}.

(** The link of the queue, which [ntt_queue_deinit] looks at too, is in [Queue]. *)
Definition ntt_queue_deinit q : res tqueue :=
  c_assert (ntt_queue_use_count q =? 0) ;;
  c_assert (ntt_queue_empty q) ;;
  c_assert (ntt_timer_heap_empty (q_timers q)) ;;
  h ← ntt_timer_heap_deinit (q_timers q);
  Ok (with_timers h q).

(** The end of [ntt_queue_release] for the last reference: the queue is torn
    down and its slot goes back to the slab, which moves the generation on. *)
Definition queue_destroy w i : res world :=
  s ← get_slot w i;
  q ← ntt_queue_deinit (s_queue s);
  Ok (set_slot i (mk_qslot (u64 (s_generation s + 1)) false q) w).

(** ** Creating queues and pushing tasks *)
Definition ntt_queue_init : tqueue :=
  mk_tqueue 1 1 0 [] false [] None ntt_timer_heap_init false 0 UINT64_MAX false 0.

Definition ntt_queue_set_timer_service (service : bool) q : tqueue := with_service service q.

(** With the slot that [ntt_slab_take] returned; a slot used for the first time
    has generation one. *)
Definition ntt_queue_create_in w i : world :=
  let g := match qslots w !! i with Some s => s_generation s | None => 1 end in
  set_slot i (mk_qslot g false (ntt_queue_set_timer_service true ntt_queue_init)) w.

Definition ntt_queue_push_task w i (task : task_kind) : res world :=
  s ← get_queue w i;
  let was_empty := ntt_queue_empty (s_queue s) in
  let w := set_slot i (upd (with_tasks (q_tasks (s_queue s) ++ [task])) s) w in
  if was_empty then ntt_queue_acquire w i else Ok w.

Definition ntt_queue_wakeup_timers w i : res world := ntt_queue_push_task w i TimersTask.

(** ** The service *)

(** [timerfd_settime] of a timerfd: refused only when the nanoseconds are out of
    range ([EINVAL]). *)
Definition timerfd_settime (value : timespec) (fd : timerfd) : option timerfd :=
  if (0 <=? tv_nsec value) && (tv_nsec value <? NSEC_PER_SEC)
  then Some (mk_timerfd (Some (timespec_ns value)) false (tfd_edge fd)) else None.

(** [read] of a timerfd that does not block: it takes the expirations, or fails
    with [EAGAIN], which the caller ignores, when there are none. *)
Definition timerfd_read (fd : timerfd) : timerfd := mk_timerfd (tfd_at fd) false (tfd_edge fd).

Definition ntt_timer_service_arm_locked (self : ntt_timer_service) : res ntt_timer_service :=
  top ← ntt_queue_heap_top (sv_queues self);
  match top with
  | None => Ok self
  | Some deadline =>
      if deadline >=? sv_armed self then Ok self
      else
        match timerfd_settime (arm_value deadline) (sv_fd self) with
        | Some fd => Ok (sv_with_armed deadline (sv_with_fd fd self))
        | None => Err Die
        end
  end.

Definition ntt_timer_service_register w (i generation deadline tombstones : Z) : res world :=
  let self := service w in
  h ← ntt_queue_heap_push (sv_queues self) i generation deadline;
  h ← (if negb (tombstones =? 0)
       then ntt_queue_heap_retire (ntt_queue_timer_generation w) h tombstones
       else Ok h);
  self ← ntt_timer_service_arm_locked (sv_with_queues h self);
  Ok (set_service self w).

(** ** Registering the earliest timer *)
Definition set_sync i y s w : world := set_slot i (upd (with_sync y) s) w.

(** The start of [ntt_queue_sync_timers]: whether the registration stands, and
    the earliest deadline. *)
Definition sync_load w i s : res world :=
  generation ← ntt_queue_timer_generation w i;
  let registered := generation =? q_reg_gen (s_queue s) in
  '(deadline, h) ← ntt_timer_heap_peek (q_timers (s_queue s));
  let s := upd (with_timers h) s in
  Ok (set_sync i (Some (match deadline with
    | None => if registered then SyncDrop else SyncUnref
    | Some deadline => SyncKeep registered deadline
    end)) s w).

Definition sync_drop w i : res world :=
  '(_, w) ← ntt_queue_retire_timer_generation w i;
  s ← get_queue w i;
  let s := upd (with_tombs (u32 (q_tombstones (s_queue s) + 1))) s in
  Ok (set_sync i (Some SyncUnref) s w).

Definition sync_unref w i s : res world :=
  let self_ref := q_self_ref (s_queue s) in
  let w := set_sync i None (upd (with_self_ref false) s) w in
  if self_ref then ntt_queue_release w i else Ok w.

Definition sync_keep w i s (registered : bool) (deadline : Z) : res world :=
  w ← (if negb (q_self_ref (s_queue s)) then ntt_queue_acquire w i else Ok w);
  s ← get_queue w i;
  let s := upd (with_self_ref true) s in
  if registered && (q_reg_deadline (s_queue s) <=? deadline) then Ok (set_sync i None s w)
  else
    let s := if registered then upd (with_tombs (u32 (q_tombstones (s_queue s) + 1))) s else s in
    Ok (set_sync i (Some (SyncRetire deadline)) s w).

Definition sync_retire w i (deadline : Z) : res world :=
  '(generation, w) ← ntt_queue_retire_timer_generation w i;
  s ← get_queue w i;
  let tombstones := q_tombstones (s_queue s) in
  let s := upd (with_tombs 0) (upd (with_reg generation deadline) s) in
  Ok (set_sync i (Some (SyncRegister generation deadline tombstones)) s w).

Definition ntt_queue_sync_timers w i s (p : sync_point) : res world :=
  match p with
  | SyncLoad => sync_load w i s
  | SyncDrop => sync_drop w i
  | SyncUnref => sync_unref w i s
  | SyncKeep registered deadline => sync_keep w i s registered deadline
  | SyncRetire deadline => sync_retire w i deadline
  | SyncRegister generation deadline tombstones =>
      w ← ntt_timer_service_register w i generation deadline tombstones;
      Ok (set_sync i None s w)
  end.

(** ** Running the tasks of a queue *)

(** One turn of the loop of [ntt_timer_heap_svc]: [None] ends it, otherwise the
    task of the timer that fires, if the entry was live. *)
Definition svc_turn (self : ntt_timer_heap) (now : Z) : res (option (option ptr) * ntt_timer_heap) :=
  if size self =? 0 then Ok (None, self)
  else
    elem ← ntt_timer_heap_elem_at self 0;
    if deadline elem >? now then Ok (None, self)
    else
      self ← ntt_timer_heap_pop_root self;
      live ← ntt_timer_heap_elem_live self elem;
      if negb live then
        c_assert (tombstones self >? 0) ;;
        Ok (Some None, with_tombstones (u32 (tombstones self - 1)) self)
      else
        slot ← ntt_timer_heap_slot_at self (index elem);
        task ← defined (slot_task slot);
        self ← ntt_timer_heap_free_slot self (index elem);
        Ok (Some (Some task), self).

(** [ntt_queue_timers_task_svc] runs the heap, then registers what is left. *)
Definition drain_turn w i s (now : Z) (fs : list frame) : res world :=
  '(o, h) ← svc_turn (q_timers (s_queue s)) now;
  let s := upd (with_timers h) s in
  Ok (match o with
      | None => set_sync i (Some SyncLoad) (upd (with_run true fs) s) w
      | Some None => set_slot i s w
      | Some (Some task) => set_slot i (upd (with_run true (InTimer task :: Drain now :: fs)) s) w
      end).

(** The end of [ntt_timer_heap_cancel], after the drop callback. *)
Definition cancel_end w i s (fs : list frame) : res world :=
  h ← ntt_timer_heap_compact (q_timers (s_queue s));
  Ok (set_sync i (Some SyncLoad) (upd (with_run true fs) (upd (with_timers h) s)) w).

(** [ntt_queue_next] after a task: the server leaves when none is left. *)
Definition task_end w i s : res world :=
  match tail (q_tasks (s_queue s)) with
  | [] => Ok (set_slot i (upd (with_leaving (S (q_leaving (s_queue s))))
            (upd (with_run false []) (upd (with_tasks []) s))) w)
  | rest => Ok (set_slot i (upd (with_run false []) (upd (with_tasks rest) s)) w)
  end.

(** The first task of the queue starts. *)
Definition task_begin w i s : res world :=
  match q_tasks (s_queue s) with
  | [] => Err AssertFailure
  | UserTask :: _ => Ok (set_slot i (upd (with_run true [InTask]) s) w)
  | TimersTask :: _ => Ok (set_slot i (upd (with_run true [TimersBegin]) s) w)
  end.

(** One step of the code that runs in the context of a queue; a callback just
    returns. *)
Definition exec_queue w i : res world :=
  s ← get_queue w i;
  let q := s_queue s in
  match q_sync q with
  | Some p => ntt_queue_sync_timers w i s p
  | None =>
      if q_running q then
        match q_frames q with
        | [] => task_end w i s
        | InTask :: fs | InTimer _ :: fs => Ok (set_slot i (upd (with_run true fs) s) w)
        | TimersBegin :: fs =>
            Ok (set_slot i (upd (with_run true (Drain (ntt_now_ns (clock w)) :: fs)) s) w)
        | Drain now :: fs => drain_turn w i s now fs
        | InCancel _ :: fs => cancel_end w i s fs
        end
      else task_begin w i s
  end.

(** A server that took the last task drops its reference. *)
Definition server_leave w i : res world :=
  s ← get_queue w i;
  ntt_queue_release (set_slot i (upd (with_leaving (pred (q_leaving (s_queue s)))) s) w) i.

(** ** The handler of the timerfd *)
Definition exec_handler (h : handler) w : res (option handler * world) :=
  let self := service w in
  match h with
  | HRead => Ok (Some HNow, set_service (sv_with_fd (timerfd_read (sv_fd self)) self) w)
  | HNow => Ok (Some (HLock (ntt_now_ns (clock w))), w)
  | HLock now => Ok (Some (HTake now []), set_service (sv_with_lock true self) w)
  | HTake now batch =>
      if Z.of_nat (length batch) <? NTT_TIMER_SERVICE_BATCH then
        '(elem, qs) ← ntt_queue_heap_take_expired (ntt_queue_timer_generation w) (sv_queues self) now;
        Ok (Some (match elem with None => HArm batch | Some e => HAcquire now batch e end),
            set_service (sv_with_queues qs self) w)
      else Ok (Some (HArm batch), w)
  | HAcquire now batch e =>
      '(live, w) ← ntt_queue_acquire_if_live w (qe_index e);
      Ok (Some (if live : bool then HCheck now batch e else HTake now batch), w)
  | HCheck now batch e =>
      g ← ntt_queue_timer_generation w (qe_index e);
      Ok (Some (if negb (g =? qe_generation e) then HDrop now batch (qe_index e)
                else HRetire now batch e), w)
  | HDrop now batch q => w ← ntt_queue_release w q; Ok (Some (HTake now batch), w)
  | HRetire now batch e =>
      '(_, w) ← ntt_queue_retire_timer_generation w (qe_index e);
      Ok (Some (HTake now (batch ++ [qe_index e])), w)
  | HArm batch =>
      self ← ntt_timer_service_arm_locked (sv_with_armed UINT64_MAX self);
      Ok (Some (HWake (Z.of_nat (length batch)) batch), set_service (sv_with_lock false self) w)
  | HWake cnt [] => Ok (if cnt <? NTT_TIMER_SERVICE_BATCH then None else Some HNow, w)
  | HWake cnt (q :: todo) => w ← ntt_queue_wakeup_timers w q; Ok (Some (HRelease cnt q todo), w)
  | HRelease cnt q todo => w ← ntt_queue_release w q; Ok (Some (HWake cnt todo), w)
  end.

(** ** Calls made by tasks *)

(** [ntt_timer_heap_cancel] up to the drop callback of the task. *)
Definition cancel_begin (self : ntt_timer_heap) (tag : ntt_timer_tag) : res (option ptr * ntt_timer_heap) :=
  c_assert (negb (ntt_timer_tag_is_null tag)) ;;
  c_assert (tag_index tag <? slot_cnt self) ;;
  if tag_index tag >=? slot_cnt self then Ok (None, self)
  else
    slot ← ntt_timer_heap_slot_at self (tag_index tag);
    v ← defined (slot_version slot);
    c_assert (v =? tag_version tag) ;;
    if negb (v =? tag_version tag) then Ok (None, self)
    else
      task ← defined (slot_task slot);
      self ← ntt_timer_heap_free_slot self (tag_index tag);
      Ok (Some task, with_tombstones (u32 (tombstones self + 1)) self).

Definition ntt_self_wakeup_at w i (deadline : Z) (task : ptr) : res (ntt_timer_tag * world) :=
  s ← get_queue w i;
  c_assert (q_service (s_queue s)) ;;
  c_assert (negb (task =? NULL)) ;;
  '(tag, h) ← push_entry (q_timers (s_queue s)) deadline task;
  Ok (tag, set_sync i (Some SyncLoad) (upd (with_timers h) s) w).

Definition ntt_self_wakeup_after w i (delay : Z) (task : ptr) : res (ntt_timer_tag * world) :=
  ntt_self_wakeup_at w i (u64 (ntt_now_ns (clock w) + delay)) task.

Definition ntt_self_cancel_timer w i (tag : ntt_timer_tag) : res world :=
  s ← get_queue w i;
  '(o, h) ← cancel_begin (q_timers (s_queue s)) tag;
  let s := upd (with_timers h) s in
  Ok (match o with
      | None => set_sync i (Some SyncLoad) s w
      | Some task => set_slot i (upd (with_run true (InCancel task :: q_frames (s_queue s))) s) w
      end).

(** ** Life of the service *)
Definition ntt_timer_service_init : ntt_timer_service :=
  mk_service false ntt_queue_heap_init UINT64_MAX (mk_timerfd None false false).

(** Without the descriptor, which [LoopRun] closes.  The spinlock must not be
    held when it is destroyed. *)
Definition ntt_timer_service_deinit w : res ntt_timer_service :=
  let self := service w in
  live ← ntt_queue_heap_has_live (ntt_queue_timer_generation w) (sv_queues self);
  c_assert (negb live) ;;
  let self := sv_with_queues (ntt_queue_heap_deinit (sv_queues self)) self in
  if sv_lock self then Err InvalidPointer else Ok self.
End ops.

(** ** The whole system *)
Definition config : Type := world * list handler.

(** The spinlock of the service is free, or not needed next. *)
Definition handler_ready (w : world) (h : handler) : bool :=
  match h with HLock _ => negb (sv_lock (service w)) | _ => true end.

Definition queue_ready (w : world) (q : tqueue) : bool :=
  match q_sync q with
  | Some (SyncRegister _ _ _) => negb (sv_lock (service w))
  | Some _ => true
  | None => q_running q || negb (ntt_queue_empty q)
  end.

(** Code around the library runs: a callback, and no call of it. *)
Definition user_code (q : tqueue) : bool :=
  match q_sync q, q_frames q with
  | None, (InTask | InTimer _ | InCancel _) :: _ => q_running q
  | _, _ => false
  end.

(** A reference that the code around the library may use: one of its own, or
    the one of the server it runs in. *)
Definition client_holds (q : tqueue) : Prop := (0 < q_clients q)%nat \/ user_code q = true.

Definition timerfd_fire (fd : timerfd) : timerfd := mk_timerfd None true true.
Definition timerfd_deliver (fd : timerfd) : timerfd := mk_timerfd (tfd_at fd) (tfd_ticks fd) false.

Section steps.
Context `{Platform}.

(** Steps of the library and of the kernel. *)
Inductive service_step : config -> config -> Prop :=
  | step_queue w hs i s w' :
      qslots w !! i = Some s -> q_refs (s_queue s) <> 0 -> queue_ready w (s_queue s) = true ->
      exec_queue w i = Ok w' -> service_step (w, hs) (w', hs)
  | step_leave w hs i s w' :
      qslots w !! i = Some s -> (0 < q_leaving (s_queue s))%nat ->
      server_leave w i = Ok w' -> service_step (w, hs) (w', hs)
  | step_destroy w hs i s w' :
      qslots w !! i = Some s -> s_dying s = true ->
      queue_destroy w i = Ok w' -> service_step (w, hs) (w', hs)
  | step_handler w l1 h l2 h' w' :
      handler_ready w h = true -> exec_handler h w = Ok (h', w') ->
      service_step (w, l1 ++ h :: l2) (w', l1 ++ option_list h' ++ l2)
  | step_fire w hs t :
      tfd_at (sv_fd (service w)) = Some t -> t <= clock w ->
      service_step (w, hs) (set_service (sv_with_fd (timerfd_fire (sv_fd (service w))) (service w)) w, hs)
  | step_deliver w hs :
      tfd_edge (sv_fd (service w)) = true ->
      service_step (w, hs)
        (set_service (sv_with_fd (timerfd_deliver (sv_fd (service w))) (service w)) w, HRead :: hs).

(** Steps of the code around the library, within the contracts of the calls, and
    the passing of time. *)
Inductive user_step : config -> config -> Prop :=
  | client_create w hs i :
      (forall s, qslots w !! i = Some s -> q_refs (s_queue s) = 0 /\ s_dying s = false) ->
      user_step (w, hs) (ntt_queue_create_in w i, hs)
  | client_acquire w hs i s w' :
      qslots w !! i = Some s -> client_holds (s_queue s) ->
      ntt_queue_acquire (set_slot i (upd (with_clients (S (q_clients (s_queue s)))) s) w) i = Ok w' ->
      user_step (w, hs) (w', hs)
  | client_release w hs i s w' :
      qslots w !! i = Some s -> (0 < q_clients (s_queue s))%nat ->
      ntt_queue_release (set_slot i (upd (with_clients (pred (q_clients (s_queue s)))) s) w) i = Ok w' ->
      user_step (w, hs) (w', hs)
  | client_push w hs i s w' :
      qslots w !! i = Some s -> client_holds (s_queue s) -> ntt_queue_push_task w i UserTask = Ok w' ->
      user_step (w, hs) (w', hs)
  | client_wakeup_at w hs i s deadline task tag w' :
      qslots w !! i = Some s -> user_code (s_queue s) = true -> push_ok (q_timers (s_queue s)) ->
      task <> NULL -> 0 <= deadline < 2 ^ 64 -> ntt_self_wakeup_at w i deadline task = Ok (tag, w') ->
      user_step (w, hs) (w', hs)
  | client_wakeup_after w hs i s delay task tag w' :
      qslots w !! i = Some s -> user_code (s_queue s) = true -> push_ok (q_timers (s_queue s)) ->
      task <> NULL -> ntt_self_wakeup_after w i delay task = Ok (tag, w') ->
      user_step (w, hs) (w', hs)
  | client_cancel w hs i s tag w' :
      qslots w !! i = Some s -> user_code (s_queue s) = true -> is_Some (armed (q_timers (s_queue s)) !! tag) ->
      ntt_self_cancel_timer w i tag = Ok w' -> user_step (w, hs) (w', hs)
  | client_tick w hs t :
      clock w <= t < UINT64_MAX -> user_step (w, hs) (mk_world (qslots w) (service w) t, hs).

(** The bounds of the model: generations that have not come round and a heap of
    registrations that can still grow. *)
Definition bounded (w : world) : Prop :=
  map_Forall (fun _ s => s_generation s < 2 ^ 32) (qslots w) /\
  qh_size (sv_queues (service w)) < MAX_REGISTRATIONS.

Definition any_step (c c' : config) : Prop :=
  (service_step c c' \/ user_step c c') /\ bounded c'.1.

(** A loop at its start, at some time after boot. *)
Definition fresh_service (t : Z) : config := (mk_world ∅ ntt_timer_service_init t, []).

Definition reachable (w : world) (hs : list handler) : Prop :=
  exists t, 1 <= t < UINT64_MAX /\ rtc any_step (fresh_service t) (w, hs).
End steps.
