(* ===== verification/TimerServiceInv.v ===== *)
(** * The timer service: invariant

    An armed timer is covered: its queue has a registration that stands and is
    not later, or it is going to look at its timers anyway.  The entry of a
    standing registration is in the heap of the service or in the hands of the
    handler, the timerfd is armed no later than the first entry, and references
    are counted exactly. *)

From stdpp Require Import base numbers list gmap.
From Stdlib Require Import ZArith Lia.
From S2P Require Import Prelude.
From S2P Require Import TimerHeap.
From S2P Require Import TimerHeapInv.
From S2P Require Import TimerHeapOps.
From S2P Require Import TimerHeapSpec.
From S2P Require Import QueueHeap.
From S2P Require Import QueueHeapArray.
From S2P Require Import QueueHeapSpec.
From S2P Require Import TimerService.

#[local] Open Scope Z_scope.

Implicit Types (w : world) (hs : list handler) (i j : Z) (q : tqueue) (s : slot)
  (e : ntt_queue_heap_elem) (E : list ntt_queue_heap_elem).

(** ** What a handler has in its hands *)
Definition occurs i (l : list Z) : nat := total (fun j => if decide (j = i) then 1%nat else 0%nat) l.

#[global] Arguments occurs : simpl never.

(** The queues it is going to wake. *)
Definition batch_of (h : handler) : list Z :=
  match h with
  | HRead | HNow | HLock _ => []
  | HTake _ batch | HAcquire _ batch _ | HCheck _ batch _ | HDrop _ batch _ | HRetire _ batch _
  | HArm batch => batch
  | HWake _ todo | HRelease _ _ todo => todo
  end.

Definition wakes i (h : handler) : nat := occurs i (batch_of h).

(** The references it holds. *)
Definition holds i (h : handler) : nat :=
  (wakes i h + match h with
               | HCheck _ _ e | HRetire _ _ e => occurs i [qe_index e]
               | HDrop _ _ q | HRelease _ q _ => occurs i [q]
               | _ => 0
               end)%nat.

(** The entry it has taken out of the heap and not dealt with. *)
Definition held (h : handler) : list ntt_queue_heap_elem :=
  match h with HAcquire _ _ e | HCheck _ _ e | HRetire _ _ e => [e] | _ => [] end.

Definition has_lock (h : handler) : nat :=
  match h with
  | HTake _ _ | HAcquire _ _ _ | HCheck _ _ _ | HDrop _ _ _ | HRetire _ _ _ | HArm _ => 1
  | _ => 0
  end.

(** It is going to arm the timerfd. *)
Definition will_arm (h : handler) : nat :=
  match h with HWake _ _ | HRelease _ _ _ => 0 | _ => 1 end.

(** An entry that is not lost. *)
Definition known E hs e : Prop := e ∈ E \/ exists h, h ∈ hs /\ e ∈ held h.

(** ** A slot *)
Definition waiting q : list task_kind := if q_running q then tail (q_tasks q) else q_tasks q.

(** The queue is going to run its timers. *)
Definition wake_pending hs i q : Prop :=
  TimersTask ∈ waiting q \/ (0 < total (wakes i) hs)%nat.

Definition is_drain (f : frame) : bool := match f with TimersBegin | Drain _ => true | _ => false end.
Definition draining q : bool := existsb is_drain (q_frames q).

Definition no_later (d : Z) (h : ntt_timer_heap) : Prop :=
  forall tag tm, armed h !! tag = Some tm -> d <= tm_deadline tm.

Definition registered s : Prop := q_reg_gen (s_queue s) = s_generation s.

Definition registering q : Prop := exists g d t, q_sync q = Some (SyncRegister g d t).

(** [ntt_queue_sync_timers] has not yet taken the reference for the timers. *)
Definition sync_early q : bool :=
  match q_sync q with Some (SyncLoad | SyncKeep _ _) => true | _ => false end.

(** It has not yet decided that the registration is good. *)
Definition sync_going q : bool :=
  match q_sync q with Some (SyncLoad | SyncKeep _ _ | SyncRetire _) => true | _ => false end.

(** It is going to look whether the reference for the timers is still needed. *)
Definition unref_frame (f : frame) : bool :=
  match f with TimersBegin | Drain _ | InCancel _ => true | _ => false end.

Definition unref_due q : bool :=
  existsb unref_frame (q_frames q) ||
  match q_sync q with Some (SyncLoad | SyncDrop | SyncUnref) => true | _ => false end.

Definition sync_ok hs i s : Prop :=
  let q := s_queue s in
  match q_sync q with
  | None | Some SyncLoad => True
  | Some SyncDrop | Some SyncUnref => armed (q_timers q) = ∅
  | Some (SyncKeep r d) =>
      no_later d (q_timers q) /\ armed (q_timers q) <> ∅ /\
      (r = true -> registered s \/ wake_pending hs i q)
  | Some (SyncRetire d) => no_later d (q_timers q)
  | Some (SyncRegister g d _) => g = q_reg_gen q /\ d = q_reg_deadline q
  end.

Definition covered hs i s : Prop :=
  let q := s_queue s in
  (registered s /\ no_later (q_reg_deadline q) (q_timers q)) \/
  wake_pending hs i q \/ draining q = true \/ sync_going q = true.

Definition busy q : nat := if decide (q_tasks q = []) then 0%nat else 1%nat.

(** [n] is the number of references that are on the way. *)
Record slot_ok (n : nat) E hs i s : Prop := {
  so_gen : 1 <= s_generation s;
  so_reg : 0 <= q_reg_gen (s_queue s) <= s_generation s;
  so_known : q_refs (s_queue s) <> 0 -> registered s ->
    registering (s_queue s) \/ known E hs (mk_qelem (q_reg_deadline (s_queue s)) i (s_generation s));
  so_refs : q_refs (s_queue s) = Z.of_nat (q_clients (s_queue s) + busy (s_queue s) +
    q_leaving (s_queue s) + Nat.b2n (q_self_ref (s_queue s)) + total (holds i) hs + n);
  so_run : if q_running (s_queue s) then q_tasks (s_queue s) <> []
           else q_frames (s_queue s) = [] /\ q_sync (s_queue s) = None;
  so_dying : s_dying s = true -> q_refs (s_queue s) = 0;
  so_timers : timer_wf (q_timers (s_queue s));
  so_self : armed (q_timers (s_queue s)) <> ∅ ->
    q_self_ref (s_queue s) = true \/ sync_early (s_queue s) = true;
  so_unref : q_self_ref (s_queue s) = true ->
    armed (q_timers (s_queue s)) <> ∅ \/ unref_due (s_queue s) = true;
  so_cover : armed (q_timers (s_queue s)) <> ∅ -> covered hs i s;
  so_sync : sync_ok hs i s;
  so_service : q_refs (s_queue s) <> 0 -> q_service (s_queue s) = true;
}.

(** ** The whole state *)
Definition is_free s : Prop := q_refs (s_queue s) = 0 /\ s_dying s = false.

Definition entry_ok w e : Prop :=
  exists s, qslots w !! qe_index e = Some s /\ qe_generation e <= s_generation s /\
    (is_free s -> qe_generation e < s_generation s).

(** The timerfd will wake a worker no later than [sv_armed]. *)
Definition fd_ok (sv : ntt_timer_service) hs : Prop :=
  sv_armed sv < UINT64_MAX ->
  tfd_at (sv_fd sv) = Some (timespec_ns (arm_value (sv_armed sv))) \/
  (tfd_ticks (sv_fd sv) = true /\ tfd_edge (sv_fd sv) = true) \/ (0 < total will_arm hs)%nat.

Section inv.
Context `{Platform}.

Definition entries_of w : list ntt_queue_heap_elem := qentries (sv_queues (service w)).

Record service_inv w hs : Prop := {
  si_slots : forall i s, qslots w !! i = Some s -> slot_ok 0 (entries_of w) hs i s;
  si_none : forall i, qslots w !! i = None -> total (holds i) hs = 0%nat;
  si_heap : queue_wf (ntt_queue_timer_generation w) (sv_queues (service w));
  si_entries : forall e, e ∈ entries_of w -> entry_ok w e;
  si_held : forall h e, h ∈ hs -> e ∈ held h -> is_Some (qslots w !! qe_index e);
  si_armed : forall e, e ∈ entries_of w -> sv_armed (service w) <= qe_deadline e;
  si_fd : fd_ok (service w) hs;
  si_lock : total has_lock hs = Nat.b2n (sv_lock (service w));
  si_clock : 1 <= clock w < UINT64_MAX;
  si_bounded : bounded w;
}.

(** ** Generic facts *)
Lemma known_perm E hs hs' e : hs ≡ₚ hs' -> known E hs e -> known E hs' e.
Proof. intros Hp [He|(h & Hh & He)]; [by left|]. right. exists h. by rewrite <- Hp. Qed.

Lemma slot_ok_change n n' E E' hs hs' i s :
  slot_ok n E hs i s ->
  (total (holds i) hs' + n' = total (holds i) hs + n)%nat ->
  ((0 < total (wakes i) hs)%nat -> wake_pending hs' i (s_queue s)) ->
  (forall e, qe_index e = i -> qe_generation e = s_generation s -> q_refs (s_queue s) <> 0 ->
     known E hs e -> known E' hs' e) ->
  slot_ok n' E' hs' i s.
Proof.
  intros [Hg Hr Hk Href Hrun Hd Ht Hs Hu Hc Hy Hv] Hn Hw He.
  assert (Hwp : wake_pending hs i (s_queue s) -> wake_pending hs' i (s_queue s)).
  { intros [?|?]; [by left|by apply Hw]. }
  split; try done.
  - intros Hne Hreg. destruct (Hk Hne Hreg) as [?|?]; [by left|right]. by apply He.
  - rewrite Href. lia.
  - intros Ha. destruct (Hc Ha) as [?|[?|[?|?]]]; unfold covered; auto.
  - unfold sync_ok in *. destruct (q_sync _) as [[]|]; try done.
    destruct Hy as (? & ? & Hy). split_and!; [done|done|]. intros Hrt. destruct (Hy Hrt); auto.
Qed.

Lemma service_inv_perm w hs hs' : hs ≡ₚ hs' -> service_inv w hs -> service_inv w hs'.
Proof.
  intros Hp [Hs Hn Hh He Hd Ha Hf Hl Hc Hb].
  assert (Hh' : forall h, h ∈ hs' -> h ∈ hs) by (intros h; by rewrite Hp).
  split; try done.
  - intros i s Hi. eapply slot_ok_change; [by apply Hs| | |].
    + by rewrite (total_perm (holds i) _ _ Hp).
    + rewrite (total_perm (wakes i) _ _ Hp). by right.
    + intros e _ _ _. by apply known_perm.
  - intros i Hi. rewrite <- (total_perm _ _ _ Hp). auto.
  - intros h e Hin. apply Hd. auto.
  - unfold fd_ok. by rewrite <- (total_perm will_arm _ _ Hp).
  - by rewrite <- (total_perm _ _ _ Hp).
Qed.

Lemma timer_generation_ok w i s :
  qslots w !! i = Some s -> bounded w -> 0 <= s_generation s ->
  ntt_queue_timer_generation w i = Ok (s_generation s).
Proof.
  intros Hi [Hb _] Hg. unfold ntt_queue_timer_generation, get_slot. rewrite Hi, bind_ok.
  specialize (Hb _ _ Hi). simpl in Hb. by rewrite u32_small by lia.
Qed.

Lemma resolves_iff w i : resolves (ntt_queue_timer_generation w) i <-> is_Some (qslots w !! i).
Proof.
  unfold resolves, ntt_queue_timer_generation, get_slot. split.
  - intros [g Hg]. destruct (qslots w !! i); [eauto|done].
  - intros [s ->]. rewrite bind_ok. eauto.
Qed.

(** An entry stands exactly when its generation is the one of its slot. *)
Lemma stands_iff w hs e :
  service_inv w hs ->
  stands (ntt_queue_timer_generation w) e <->
  exists s, qslots w !! qe_index e = Some s /\ qe_generation e = s_generation s.
Proof.
  intros Hinv. unfold stands. split.
  - intros Hst. destruct (qslots w !! qe_index e) as [s|] eqn:Hi.
    + exists s. split; [done|]. pose proof (so_gen _ _ _ _ _ (si_slots _ _ Hinv _ _ Hi)).
      rewrite (timer_generation_ok w _ s Hi (si_bounded _ _ Hinv)) in Hst by lia. congruence.
    + unfold ntt_queue_timer_generation, get_slot in Hst. by rewrite Hi in Hst.
  - intros (s & Hi & ->). apply timer_generation_ok; [done|apply Hinv|].
    pose proof (so_gen _ _ _ _ _ (si_slots _ _ Hinv _ _ Hi)). lia.
Qed.

Lemma queue_inv_resolves (tg tg' : Z -> res Z) h l :
  (forall i, resolves tg i -> resolves tg' i) -> queue_inv tg h l -> queue_inv tg' h l.
Proof. intros Hr [Ha Ho Hk]. split; [done|done|]. intros e He. apply Hr, Hk, He. Qed.

Lemma queue_wf_resolves (tg tg' : Z -> res Z) h :
  (forall i, resolves tg i -> resolves tg' i) -> queue_wf tg h -> queue_wf tg' h.
Proof. intros Hr (l & Hinv). exists l. by eapply queue_inv_resolves. Qed.

Lemma set_slot_lookup w i s j s' :
  qslots (set_slot i s w) !! j = Some s' -> (i = j /\ s = s') \/ (i <> j /\ qslots w !! j = Some s').
Proof. simpl. rewrite lookup_insert_Some. tauto. Qed.

Lemma resolves_set_slot w i s j :
  resolves (ntt_queue_timer_generation w) j -> resolves (ntt_queue_timer_generation (set_slot i s w)) j.
Proof.
  rewrite !resolves_iff. simpl. intros Hj. destruct (decide (i = j)) as [->|Hne].
  - by rewrite lookup_insert_eq.
  - by rewrite lookup_insert_ne.
Qed.

(** ** Changing one slot, and the handler that works on it *)
Definition succeeds s s' : Prop :=
  s_generation s <= s_generation s' /\ (is_free s' -> is_free s \/ s_generation s < s_generation s').

Lemma entry_ok_set_slot w i s s' e :
  qslots w !! i = Some s -> succeeds s s' -> entry_ok w e -> entry_ok (set_slot i s' w) e.
Proof.
  intros Hi [Hg Hf] (t & Ht & Hle & Hlt). unfold entry_ok. simpl.
  destruct (decide (i = qe_index e)) as [->|Hne].
  - rewrite lookup_insert_eq. assert (t = s) as -> by congruence. exists s'. split_and!; [done|lia|].
    intros Hfree. destruct (Hf Hfree) as [?|?]; [specialize (Hlt ltac:(done))|]; lia.
  - rewrite lookup_insert_ne by done. eauto.
Qed.

Lemma slot_held_some w i s s' j :
  qslots w !! i = Some s -> is_Some (qslots w !! j) -> is_Some (qslots (set_slot i s' w) !! j).
Proof.
  intros Hi Hj. simpl. destruct (decide (i = j)) as [->|]; [rewrite lookup_insert_eq|rewrite lookup_insert_ne by done]; eauto.
Qed.

(** [h] becomes [h'] and the slot [i] becomes [s']; of the other slots the
    handler holds what it held. *)
Lemma inv_handler_slot w h h' hs i s s' :
  service_inv w (h :: hs) -> qslots w !! i = Some s -> succeeds s s' ->
  slot_ok 0 (entries_of w) (h' :: hs) i s' ->
  has_lock h' = has_lock h -> will_arm h' = will_arm h ->
  (forall j, j <> i -> wakes j h' = wakes j h /\ holds j h' = holds j h) ->
  (forall e, e ∈ held h' -> e ∈ held h) -> (forall e, e ∈ held h -> qe_index e = i \/ e ∈ held h') ->
  bounded (set_slot i s' w) -> service_inv (set_slot i s' w) (h' :: hs).
Proof.
  intros [Hs Hn Hh He Hd Ha Hf Hl Hc Hb] Hi Hsucc Hok Hlk Har Hj Hsub Hsup Hb'. split; try done.
  - intros j t Ht. apply set_slot_lookup in Ht as [[<- <-]|[Hne Ht]]; [done|].
    destruct (Hj j) as [Hw Hho]; [done|]. eapply slot_ok_change; [by apply Hs| | |].
    + rewrite !total_cons. lia.
    + rewrite !total_cons. intros ?. right. rewrite total_cons. lia.
    + intros e Hej _ _ [?|(x & [->|Hx]%elem_of_cons & Hxe)]; [by left| |].
      * destruct (Hsup e Hxe) as [?|?]; [congruence|]. right. exists h'. split; [by left|done].
      * right. exists x. split; [by right|done].
  - intros j Ht. simpl in Ht. apply lookup_insert_None in Ht as [Ht Hne].
    specialize (Hn j Ht). destruct (Hj j) as [_ Hho]; [done|]. rewrite total_cons in *. lia.
  - eapply queue_wf_resolves; [|exact Hh]. intros j. apply resolves_set_slot.
  - intros e Hin. eapply entry_ok_set_slot; eauto.
  - intros x e [->|Hx]%elem_of_cons Hxe; (eapply slot_held_some; [done|]).
    + eapply Hd; [by left|auto].
    + eapply Hd; [by right|done].
  - intros Hlt. destruct (Hf Hlt) as [?|[?|Hw]]; [by left|by right; left|]. right; right.
    rewrite total_cons in *. lia.
  - rewrite total_cons in *. simpl. lia.
Qed.

(** Only the slot changes. *)
Lemma inv_slot w hs i s s' :
  service_inv w hs -> qslots w !! i = Some s -> succeeds s s' -> slot_ok 0 (entries_of w) hs i s' ->
  bounded (set_slot i s' w) -> service_inv (set_slot i s' w) hs.
Proof.
  intros [Hs Hn Hh He Hd Ha Hf Hl Hc Hb] Hi Hsucc Hok Hb'. split; try done.
  - intros j t [[<- <-]|[Hne Ht]]%set_slot_lookup; [done|by apply Hs].
  - intros j Ht. simpl in Ht. apply Hn. by apply lookup_insert_None in Ht as [Ht _].
  - eapply queue_wf_resolves; [|exact Hh]. intros j. apply resolves_set_slot.
  - intros e Hin. eapply entry_ok_set_slot; eauto.
  - intros x e Hx Hxe. eapply slot_held_some; [done|]. by eapply Hd.
Qed.
End inv.
