(* ===== verification/TimerServiceSteps.v ===== *)
(** * The timer service: steps keep the invariant

    Every step of the library returns, within the bounds of the model, and keeps
    the invariant; so do the calls that the code around it may make. *)

From stdpp Require Import base numbers list gmap.
From Stdlib Require Import ZArith Lia.
From S2P Require Import Prelude.
From S2P Require Import TimerHeap.
From S2P Require Import TimerHeapArray.
From S2P Require Import TimerHeapInv.
From S2P Require Import TimerHeapOps.
From S2P Require Import TimerHeapSpec.
From S2P Require Import TimerHeapHost.
From S2P Require Import QueueHeap.
From S2P Require Import QueueHeapArray.
From S2P Require Import QueueHeapSpec.
From S2P Require Import TimerService.
From S2P Require Import TimerServiceInv.

#[local] Open Scope Z_scope.

Implicit Types (w : world) (hs : list handler) (i j : Z) (q : tqueue) (s : slot)
  (e : ntt_queue_heap_elem) (E : list ntt_queue_heap_elem).

Section prims.
Context `{Platform}.

Lemma set_slot_twice i s s' w : set_slot i s' (set_slot i s w) = set_slot i s' w.
Proof. unfold set_slot. simpl. by rewrite insert_insert_eq. Qed.

Lemma set_slot_id i s w : qslots w !! i = Some s -> set_slot i s w = w.
Proof. intros Hi. unfold set_slot. rewrite insert_id by done. by destruct w. Qed.

Lemma lookup_set_slot i s w : qslots (set_slot i s w) !! i = Some s.
Proof. simpl. by rewrite lookup_insert_eq. Qed.

Lemma get_slot_ok w i s : qslots w !! i = Some s -> get_slot w i = Ok s.
Proof. intros Hi. unfold get_slot. by rewrite Hi. Qed.

Lemma get_tqueue_ok w i s : qslots w !! i = Some s -> q_refs (s_queue s) <> 0 -> get_queue w i = Ok s.
Proof.
  intros Hi Hr. unfold get_queue. rewrite (get_slot_ok w i s Hi), bind_ok.
  by destruct (Z.eqb_spec (q_refs (s_queue s)) 0).
Qed.

Lemma succeeds_live s s' : s_generation s' = s_generation s -> ~ is_free s' -> succeeds s s'.
Proof. intros Hg Hf. split; [lia|]. intros ?. done. Qed.

Lemma not_free s : q_refs (s_queue s) <> 0 -> ~ is_free s.
Proof. intros Hr [? _]. done. Qed.

Lemma snoc_nonnil {A} (l : list A) x : l ++ [x] <> [].
Proof. by destruct l. Qed.

(** ** References *)
Lemma acquire_ok n E hs w i s :
  qslots w !! i = Some s -> slot_ok n E hs i s -> q_refs (s_queue s) <> 0 ->
  let s' := upd (with_refs (q_refs (s_queue s) + 1)) s in
  ntt_queue_acquire w i = Ok (set_slot i s' w) /\ slot_ok (S n) E hs i s'.
Proof.
  intros Hi Hok Hne. split.
  - unfold ntt_queue_acquire, ntt_queue_use_count. rewrite (get_tqueue_ok w i s) by done.
    rewrite bind_ok, c_assert_true; [done|]. by destruct (Z.eqb_spec (q_refs (s_queue s)) 0).
  - destruct Hok as [Hg Hr Hk Href Hrun Hd Ht Hs Hu Hc Hy Hv]. split; simpl; try done.
    + intros _. by apply Hk.
    + rewrite Href. unfold busy. simpl. lia.
    + intros Hdy. specialize (Hd Hdy). done.
    + intros _. by apply Hv.
Qed.

Lemma release_ok n E hs w i s :
  qslots w !! i = Some s -> slot_ok (S n) E hs i s ->
  exists s', ntt_queue_release w i = Ok (set_slot i s' w) /\ slot_ok n E hs i s' /\
    s_generation s' = s_generation s /\ ~ is_free s' /\
    s_queue s' = with_refs (q_refs (s_queue s) - 1) (s_queue s).
Proof.
  intros Hi Hok. pose proof Hok as [Hg Hr Hk Href Hrun Hd Ht Hs Hu Hc Hy Hv].
  assert (Hpos : 0 < q_refs (s_queue s)) by lia.
  unfold ntt_queue_release. rewrite (get_tqueue_ok w i s Hi), bind_ok by lia.
  eexists. split; [reflexivity|]. split_and!; [|done| |done].
  - split; simpl; try done.
    + intros Hne. apply Hk. lia.
    + rewrite Href. unfold busy. simpl. lia.
    + intros Hdy%Z.eqb_eq. lia.
    + intros Hne. apply Hv. lia.
  - intros [Hz Hdy]. simpl in *. apply Z.eqb_neq in Hdy. lia.
Qed.

Lemma push_task_ok n E hs w i s k :
  qslots w !! i = Some s -> slot_ok n E hs i s -> q_refs (s_queue s) <> 0 ->
  exists s', ntt_queue_push_task w i k = Ok (set_slot i s' w) /\ slot_ok n E hs i s' /\
    s_generation s' = s_generation s /\ ~ is_free s' /\
    (k = TimersTask -> TimersTask ∈ waiting (s_queue s')) /\ q_refs (s_queue s') <> 0.
Proof.
  intros Hi Hok Hne. pose proof Hok as [Hg Hr Hk Href Hrun Hd Ht Hs Hu Hc Hy Hv].
  unfold ntt_queue_push_task, ntt_queue_empty. rewrite (get_tqueue_ok w i s Hi Hne), bind_ok.
  set (s1 := upd _ s).
  assert (Hwait : waiting (s_queue s1) = waiting (s_queue s) ++ [k]).
  { unfold waiting, s1. simpl. destruct (q_running _); [|done]. by destruct (q_tasks (s_queue s)). }
  assert (Hwp : wake_pending hs i (s_queue s) -> wake_pending hs i (s_queue s1)).
  { intros [Hw|Hw]; [left|by right]. rewrite Hwait. apply elem_of_app. by left. }
  assert (Hb1 : busy (s_queue s1) = 1%nat) by (unfold busy; by rewrite decide_False by apply snoc_nonnil).
  assert (Hok1 : slot_ok n E hs i (upd (with_refs (q_refs (s_queue s) + Z.of_nat (1 - busy (s_queue s)))) s1)).
  { assert (Hle : (busy (s_queue s) <= 1)%nat) by (unfold busy; case_decide; lia).
    split; simpl; try done.
    - intros _. by apply Hk.
    - unfold busy in *. simpl in *. rewrite Hb1, Href. lia.
    - destruct (q_running _); [apply snoc_nonnil|done].
    - intros Hdy. specialize (Hd Hdy). done.
    - intros Ha. destruct (Hc Ha) as [?|[?|[?|?]]]; unfold covered; auto.
    - unfold sync_ok in *. simpl. destruct (q_sync _) as [[]|]; try done.
      destruct Hy as (? & ? & Hy). split_and!; [done|done|]. intros Hrt. destruct (Hy Hrt); auto.
    - intros _. by apply Hv. }
  assert (Hin : k = TimersTask -> TimersTask ∈ waiting (s_queue s1)).
  { intros ->. rewrite Hwait. apply elem_of_app. right. by left. }
  case_bool_decide as Hemp.
  - unfold ntt_queue_acquire, ntt_queue_use_count.
    rewrite (get_tqueue_ok _ i s1) by (done || apply lookup_set_slot). rewrite bind_ok.
    rewrite c_assert_true, bind_ok by (simpl; by destruct (Z.eqb_spec (q_refs (s_queue s)) 0)).
    rewrite set_slot_twice. eexists. split; [reflexivity|].
    assert (q_refs (s_queue s) + 1 <> 0) by lia.
    split_and!; [|done|by apply not_free|exact Hin|done].
    unfold busy in Hok1. by rewrite decide_True in Hok1 by done.
  - exists s1. split_and!; [done| |done|by apply not_free|exact Hin|done].
    unfold busy in Hok1. rewrite decide_False in Hok1 by done. by rewrite Z.add_0_r in Hok1.
Qed.
End prims.

(** ** Steps that only move the code of a running queue *)
Definition same_place s s' : Prop :=
  s_generation s' = s_generation s /\ s_dying s' = s_dying s /\
  q_refs (s_queue s') = q_refs (s_queue s) /\ q_clients (s_queue s') = q_clients (s_queue s) /\
  q_leaving (s_queue s') = q_leaving (s_queue s) /\ q_tasks (s_queue s') = q_tasks (s_queue s) /\
  q_running (s_queue s') = true /\ q_self_ref (s_queue s') = q_self_ref (s_queue s) /\
  q_service (s_queue s') = q_service (s_queue s) /\ q_reg_gen (s_queue s') = q_reg_gen (s_queue s) /\
  q_reg_deadline (s_queue s') = q_reg_deadline (s_queue s).

Section local.
Context `{Platform}.

(** What the timers and the calls in progress have to satisfy. *)
Definition place_ok hs i s : Prop :=
  timer_wf (q_timers (s_queue s)) /\
  (armed (q_timers (s_queue s)) <> ∅ -> q_self_ref (s_queue s) = true \/ sync_early (s_queue s) = true) /\
  (q_self_ref (s_queue s) = true -> armed (q_timers (s_queue s)) <> ∅ \/ unref_due (s_queue s) = true) /\
  (armed (q_timers (s_queue s)) <> ∅ -> covered hs i s) /\ sync_ok hs i s.

Lemma slot_ok_local n E hs i s s' :
  slot_ok n E hs i s -> q_tasks (s_queue s) <> [] -> ~ registering (s_queue s) -> same_place s s' ->
  place_ok hs i s' -> slot_ok n E hs i s'.
Proof.
  intros [Hg Hr Hk Href Hrun Hd Ht Hs Hu Hc Hy Hv] Htk Hnr
    (E1 & E2 & E3 & E4 & E5 & E6 & E7 & E8 & E9 & E10 & E11) (Ht' & Hs' & Hu' & Hc' & Hy').
  split; try done; unfold registered in *; rewrite ?E1, ?E2, ?E3, ?E4, ?E5, ?E6, ?E7, ?E8, ?E9, ?E10, ?E11; try done.
  - intros Hne Hreg. destruct (Hk Hne Hreg) as [?|?]; [done|by right].
  - rewrite Href. unfold busy. by rewrite E6.
Qed.

Lemma inv_local w hs i s s' :
  service_inv w hs -> qslots w !! i = Some s -> q_refs (s_queue s) <> 0 -> q_tasks (s_queue s) <> [] ->
  ~ registering (s_queue s) -> same_place s s' -> place_ok hs i s' ->
  bounded (set_slot i s' w) -> service_inv (set_slot i s' w) hs.
Proof.
  intros Hinv Hi Hne Htk Hnr Hsame Hp Hb.
  eapply inv_slot; [done|done| | |done].
  - apply succeeds_live; [apply Hsame|]. apply not_free. by destruct Hsame as (_ & _ & -> & _).
  - eapply slot_ok_local; eauto using si_slots.
Qed.

(** Being covered is a matter of the place only as far as the calls go. *)
Lemma covered_shrink hs i s s' :
  covered hs i s -> same_place s s' -> q_running (s_queue s) = true ->
  (forall tag, is_Some (armed (q_timers (s_queue s')) !! tag) ->
     armed (q_timers (s_queue s')) !! tag = armed (q_timers (s_queue s)) !! tag) ->
  (draining (s_queue s) = true -> draining (s_queue s') = true \/ sync_going (s_queue s') = true) ->
  (sync_going (s_queue s) = true -> sync_going (s_queue s') = true) ->
  covered hs i s'.
Proof.
  intros Hc (E1 & E2 & E3 & E4 & E5 & E6 & E7 & E8 & E9 & E10 & E11) Hrun Ha Hd Hg. unfold covered in *.
  destruct Hc as [[Hr Hn]|[Hw|[Hx|Hx]]].
  - left. split; [unfold registered in *; congruence|]. rewrite E11.
    intros tag tm Htm. apply (Hn tag). rewrite <- Ha; eauto.
  - right; left. unfold wake_pending, waiting in *. rewrite E6, E7. by rewrite Hrun in Hw.
  - right; right. tauto.
  - right; right; right. auto.
Qed.

Lemma run_tasks w hs i s :
  service_inv w hs -> qslots w !! i = Some s -> q_running (s_queue s) = true -> q_tasks (s_queue s) <> [].
Proof. intros Hinv Hi Hr. pose proof (so_run _ _ _ _ _ (si_slots _ _ Hinv _ _ Hi)) as Hs. by rewrite Hr in Hs. Qed.

Lemma sync_running w hs i s p :
  service_inv w hs -> qslots w !! i = Some s -> q_sync (s_queue s) = Some p -> q_running (s_queue s) = true.
Proof.
  intros Hinv Hi Hp. pose proof (so_run _ _ _ _ _ (si_slots _ _ Hinv _ _ Hi)) as Hs.
  destruct (q_running _); [done|]. destruct Hs as [_ Hs]. congruence.
Qed.
End local.

(** ** [ntt_queue_sync_timers] *)
Section sync.
Context `{Platform} (w : world) (hs : list handler) (i : Z) (s : slot).
Hypotheses (Hinv : service_inv w hs) (Hi : qslots w !! i = Some s) (Hne : q_refs (s_queue s) <> 0).

Let Hok := si_slots w hs Hinv i s Hi.

Lemma no_later_before h tag tm :
  armed h !! tag = Some tm ->
  (forall tag' tm', armed h !! tag' = Some tm' -> tag' <> tag -> before tm tm') ->
  no_later (tm_deadline tm) h.
Proof.
  intros Htm Hmin tag' tm' Htm'. destruct (decide (tag' = tag)) as [->|Hd].
  - assert (tm' = tm) as -> by congruence. lia.
  - destruct (Hmin _ _ Htm' Hd) as [?|[? _]]; lia.
Qed.

Lemma sync_load_ok :
  q_sync (s_queue s) = Some SyncLoad ->
  returns (sync_load w i s) (fun w' => bounded w' -> service_inv w' hs).
Proof.
  intros Hsy. unfold sync_load. pose proof (so_gen _ _ _ _ _ Hok) as Hg.
  rewrite (timer_generation_ok w i s Hi (si_bounded _ _ Hinv)) by lia. rewrite bind_ok.
  pose proof (sync_running w hs i s _ Hinv Hi Hsy) as Hrun.
  eapply returns_bind; [by apply peek_armed, Hok|]. intros [d h] (Hwf & Ha & Hd).
  apply returns_ok. intros Hb. eapply (inv_local w hs i s); try done.
  - by eapply run_tasks.
  - intros (? & ? & ? & ?). congruence.
  - destruct d as [d|].
    + destruct Hd as (tag & tm & Htm & <- & Hmin).
      assert (Hsome : armed h <> ∅) by (rewrite Ha; intros Hz; by rewrite Hz in Htm).
      split_and!; [done|by right|by left|by right; right; right|]. split_and!; simpl.
      * intros tag' tm'. rewrite Ha. by apply (no_later_before _ tag tm).
      * done.
      * intros Hreg%Z.eqb_eq. by left.
    + split_and!; [done| | | |].
      * simpl. rewrite Ha. done.
      * intros _. right. unfold unref_due. simpl. destruct (_ =? _); apply orb_true_r.
      * simpl. rewrite Ha. done.
      * unfold sync_ok. simpl. destruct (_ =? _); simpl; congruence.
Qed.

Lemma sync_unref_ok :
  q_sync (s_queue s) = Some SyncUnref ->
  returns (sync_unref w i s) (fun w' => bounded w' -> service_inv w' hs).
Proof.
  intros Hsy. pose proof (sync_running w hs i s _ Hinv Hi Hsy) as Hrun.
  pose proof Hok as [Hg Hr Hk Href Hrn Hd Ht Hs Hu Hc Hy Hv].
  assert (Hz : armed (q_timers (s_queue s)) = ∅) by (unfold sync_ok in Hy; by rewrite Hsy in Hy).
  unfold sync_unref, set_sync. set (s1 := upd _ (upd _ s)).
  assert (Hok1 : slot_ok (Nat.b2n (q_self_ref (s_queue s))) (entries_of w) hs i s1).
  { split; try done; simpl.
    - intros _ Hreg. destruct (Hk Hne Hreg) as [(? & ? & ? & ?)|?]; [congruence|by right].
    - rewrite Href. unfold busy. simpl. lia.
    - rewrite Hrun in *. done. }
  destruct (q_self_ref (s_queue s)).
  - destruct (release_ok 0 _ hs (set_slot i s1 w) i s1 (lookup_set_slot _ _ _) Hok1)
      as (s2 & -> & Hok2 & Hg2 & Hf & _).
    rewrite set_slot_twice. apply returns_ok. intros Hb. eapply inv_slot; [done|done| |done|done].
    by apply succeeds_live.
  - apply returns_ok. intros Hb. eapply inv_slot; [done|done| |done|done].
    apply succeeds_live; [done|]. by apply not_free.
Qed.

Lemma upd_refs_id : upd (with_refs (q_refs (s_queue s))) s = s.
Proof. clear. by destruct s as [g dy []]. Qed.

(** The reference for the timers is there. *)
Lemma keep_ref_ok :
  armed (q_timers (s_queue s)) <> ∅ ->
  let r := q_refs (s_queue s) + (if q_self_ref (s_queue s) then 0 else 1) in
  (if negb (q_self_ref (s_queue s)) then ntt_queue_acquire w i else Ok w) =
    Ok (set_slot i (upd (with_refs r) s) w) /\ r <> 0 /\
  slot_ok 0 (entries_of w) hs i (upd (with_self_ref true) (upd (with_refs r) s)).
Proof.
  intros Hsome. cbv zeta. pose proof Hok as [Hg Hr Hk Href Hrn Hd Ht Hs Hu Hc Hy Hv].
  assert (Hpos : 0 < q_refs (s_queue s)) by lia.
  split_and!.
  - destruct (q_self_ref (s_queue s)); cbn [negb].
    + by rewrite Z.add_0_r, upd_refs_id, set_slot_id.
    + by destruct (acquire_ok 0 _ hs w i s Hi Hok Hne) as [-> _].
  - destruct (q_self_ref (s_queue s)); lia.
  - split; try done; simpl.
    + intros _. by apply Hk.
    + rewrite Href. unfold busy. simpl. destruct (q_self_ref (s_queue s)); simpl; lia.
    + intros Hdy. specialize (Hd Hdy). lia.
    + by left.
    + by left.
    + intros _. by apply Hv.
Qed.

Lemma sync_keep_ok r d :
  q_sync (s_queue s) = Some (SyncKeep r d) ->
  returns (sync_keep w i s r d) (fun w' => bounded w' -> service_inv w' hs).
Proof.
  intros Hsy. pose proof (sync_running w hs i s _ Hinv Hi Hsy) as Hrun.
  pose proof (run_tasks w hs i s Hinv Hi Hrun) as Htk.
  pose proof (so_sync _ _ _ _ _ Hok) as Hy. unfold sync_ok in Hy. rewrite Hsy in Hy. destruct Hy as (Hmin & Hsome & Hrt).
  unfold sync_keep. destruct (keep_ref_ok Hsome) as (-> & Hr1 & Hok1). rewrite bind_ok.
  rewrite (get_tqueue_ok _ i _ (lookup_set_slot _ _ _)), bind_ok by exact Hr1.
  set (s1 := upd (with_self_ref true) _) in *. unfold set_sync.
  assert (Hstep : forall s', same_place s1 s' -> place_ok hs i s' ->
    returns (Ok (set_slot i s' (set_slot i (upd (with_refs (q_refs (s_queue s) +
      (if q_self_ref (s_queue s) then 0 else 1))) s) w))) (fun w' => bounded w' -> service_inv w' hs)).
  { intros s' Hsame Hp. rewrite set_slot_twice. apply returns_ok. intros Hb.
    eapply inv_slot; [done|done| | |done].
    - apply succeeds_live; [apply Hsame|]. apply not_free. by destruct Hsame as (_ & _ & -> & _).
    - apply (slot_ok_local 0 _ _ _ s1); try done. intros (? & ? & ? & Hx). simpl in Hx. congruence. }
  assert (Ht : timer_wf (q_timers (s_queue s))) by apply Hok.
  destruct (r && _) eqn:Hgood.
  - apply andb_true_iff in Hgood as [-> Hle%Z.leb_le]. apply Hstep; [done|].
    split_and!; [done|by left|by left|intros _|done].
    destruct (Hrt eq_refl) as [Hreg|Hw]; [left|by right; left]. split; [done|].
    intros tag tm Htm. specialize (Hmin tag tm Htm). simpl in Hle |- *. lia.
  - apply Hstep; [by destruct r|].
    assert (Hp : forall s', s_queue s' = with_sync (Some (SyncRetire d)) (s_queue s') ->
       q_timers (s_queue s') = q_timers (s_queue s) -> q_self_ref (s_queue s') = true -> place_ok hs i s').
    { intros s' E1 E2 E3. split_and!; rewrite ?E2, ?E3; [done|by left|by left| |].
      - intros _. right; right; right. unfold sync_going. by rewrite E1.
      - unfold sync_ok. rewrite E1. simpl. by rewrite E2. }
    apply Hp; by destruct r.
Qed.

(** A retirement by the queue itself: nothing of it stands any more. *)
Lemma retire_generation_ok :
  s_generation s + 1 < 2 ^ 64 ->
  ntt_queue_retire_timer_generation w i =
    Ok (u32 (u32 (s_generation s) + 1), set_slot i (mk_qslot (s_generation s + 1) (s_dying s) (s_queue s)) w).
Proof.
  intros Hs. pose proof (so_gen _ _ _ _ _ Hok). unfold ntt_queue_retire_timer_generation.
  rewrite (get_slot_ok w i s Hi), bind_ok. by rewrite (u64_small (s_generation s + 1)) by lia.
Qed.

Lemma sync_drop_ok :
  q_sync (s_queue s) = Some SyncDrop ->
  returns (sync_drop w i) (fun w' => bounded w' -> service_inv w' hs).
Proof.
  intros Hsy. pose proof (sync_running w hs i s _ Hinv Hi Hsy) as Hrun.
  pose proof Hok as [Hg Hr Hk Href Hrn Hd Ht Hs Hu Hc Hy Hv].
  assert (Hz : armed (q_timers (s_queue s)) = ∅) by (unfold sync_ok in Hy; by rewrite Hsy in Hy).
  pose proof (proj1 (si_bounded _ _ Hinv) i s Hi) as Hb0. simpl in Hb0.
  unfold sync_drop. rewrite retire_generation_ok, bind_ok by lia.
  rewrite (get_tqueue_ok _ i _ (lookup_set_slot _ _ _)), bind_ok by done. unfold set_sync.
  rewrite set_slot_twice. apply returns_ok. intros Hb. eapply inv_slot; [done|done| | |done].
  - split; simpl; [lia|]. intros _. right. lia.
  - split; try done; unfold registered; simpl; try lia.
    + by rewrite Hrun in *.
    + intros _. right. apply orb_true_r.
Qed.

Lemma sync_retire_ok d :
  q_sync (s_queue s) = Some (SyncRetire d) ->
  returns (sync_retire w i d) (fun w' => bounded w' -> service_inv w' hs).
Proof.
  intros Hsy. pose proof (sync_running w hs i s _ Hinv Hi Hsy) as Hrun.
  pose proof Hok as [Hg Hr Hk Href Hrn Hd Ht Hs Hu Hc Hy Hv].
  pose proof (proj1 (si_bounded _ _ Hinv) i s Hi) as Hb0. simpl in Hb0.
  unfold sync_retire. rewrite retire_generation_ok, bind_ok by lia.
  rewrite (get_tqueue_ok _ i _ (lookup_set_slot _ _ _)), bind_ok by done. unfold set_sync.
  rewrite set_slot_twice. apply returns_ok. intros Hb.
  pose proof (proj1 Hb i _ (lookup_set_slot _ _ _)) as Hb1. simpl in Hb1.
  assert (Hgen : u32 (u32 (s_generation s) + 1) = s_generation s + 1) by (no_wrap; lia).
  unfold sync_ok in Hy. rewrite Hsy in Hy.
  eapply inv_slot; [done|done| | |done].
  - split; simpl; [lia|]. intros _. right. lia.
  - split; try done; unfold registered; simpl; rewrite ?Hgen; try lia.
    + intros _ _. left. eexists _, _, _. reflexivity.
    + by rewrite Hrun in *.
    + intros Ha. unfold sync_early in Hs. rewrite Hsy in Hs. left. by destruct (Hs Ha).
    + unfold unref_due in *. by rewrite Hsy in Hu.
    + intros _. left. split; [unfold registered; simpl; lia|]. done.
Qed.
End sync.

(** ** The service *)
Section service.
Context `{Platform}.

(** The service and the handlers change, the slots do not. *)
Lemma inv_service w hs sv' hs' :
  service_inv w hs -> queue_wf (ntt_queue_timer_generation w) (sv_queues sv') ->
  (forall e, e ∈ qentries (sv_queues sv') -> entry_ok w e /\ sv_armed sv' <= qe_deadline e) ->
  (forall h e, h ∈ hs' -> e ∈ held h -> is_Some (qslots w !! qe_index e)) ->
  (forall j, total (wakes j) hs' = total (wakes j) hs /\ total (holds j) hs' = total (holds j) hs) ->
  (forall e, stands (ntt_queue_timer_generation w) e -> known (entries_of w) hs e ->
     known (qentries (sv_queues sv')) hs' e) ->
  fd_ok sv' hs' -> total has_lock hs' = Nat.b2n (sv_lock sv') ->
  qh_size (sv_queues sv') < MAX_REGISTRATIONS -> service_inv (set_service sv' w) hs'.
Proof.
  intros Hinv Hwf He Hd Hj Hk Hfd Hl Hsz. pose proof Hinv as [Hs Hn Hh _ _ _ _ _ Hc Hb]. split; try done.
  - intros j s Hjs. destruct (Hj j) as [Hw Hho]. eapply slot_ok_change; [by apply Hs|lia| |].
    + intros ?. right. lia.
    + intros e Hej Heg _. apply Hk. apply (stands_iff w hs e Hinv). exists s. by rewrite Hej.
  - intros j Hjn. destruct (Hj j) as [_ ->]. by apply Hn.
  - intros e Hin. by apply He.
  - intros e Hin. by apply He.
  - split; [apply Hb|done].
Qed.

(** The time asked for is a proper one. *)
Lemma settime_ok d fd :
  timerfd_settime (arm_value d) fd = Some (mk_timerfd (Some (timespec_ns (arm_value d))) false (tfd_edge fd)).
Proof.
  unfold timerfd_settime. assert (Hr : 0 <= tv_nsec (arm_value d) < NSEC_PER_SEC).
  { unfold arm_value. pose proof (Z.mod_pos_bound d NSEC_PER_SEC ltac:(done)).
    destruct (_ && _); simpl; unfold NSEC_PER_SEC in *; lia. }
  destruct (Z.leb_spec 0 (tv_nsec (arm_value d))), (Z.ltb_spec (tv_nsec (arm_value d)) NSEC_PER_SEC); lia || done.
Qed.

Lemma arm_locked_ok tg sv l :
  queue_inv tg (sv_queues sv) l ->
  exists sv', ntt_timer_service_arm_locked sv = Ok sv' /\ sv_queues sv' = sv_queues sv /\
    sv_lock sv' = sv_lock sv /\ (forall e, e ∈ l -> sv_armed sv' <= qe_deadline e) /\
    (sv' = sv \/ tfd_at (sv_fd sv') = Some (timespec_ns (arm_value (sv_armed sv')))).
Proof.
  intros Hq. unfold ntt_timer_service_arm_locked.
  destruct (qtop_ok _ _ _ Hq) as (o & -> & Ho). rewrite bind_ok.
  destruct o as [d|]; [|subst; exists sv; split_and!; try done; [by intros e ?%elem_of_nil|by left]].
  destruct Ho as [_ Ho]. destruct (Z.geb_spec d (sv_armed sv)) as [Hge|Hlt].
  - exists sv. split_and!; try done; [|by left]. intros e He. specialize (Ho e He). lia.
  - rewrite settime_ok. eexists. split; [reflexivity|]. split_and!; try done. by right.
Qed.

Lemma register_ok w hs i g d t :
  service_inv w hs -> is_Some (qslots w !! i) -> (forall s, qslots w !! i = Some s ->
    q_refs (s_queue s) <> 0 /\ g <= s_generation s) ->
  returns (ntt_timer_service_register w i g d t) (fun w' =>
    exists sv', w' = set_service sv' w /\ (bounded w' -> service_inv w' hs) /\
      (stands (ntt_queue_timer_generation w) (mk_qelem d i g) -> mk_qelem d i g ∈ qentries (sv_queues sv'))).
Proof.
  intros Hinv Hsome Hlive. pose proof (si_heap _ _ Hinv) as (l & Hq).
  assert (HE : entries_of w = l) by (apply qentries_eq, Hq).
  unfold ntt_timer_service_register. cbv zeta.
  eapply returns_bind; [apply (qpush_ok (ntt_queue_timer_generation w) _ l); [done|apply Hinv|by apply resolves_iff]|].
  intros h1 (l1 & Hq1 & Hp1).
  eapply (returns_bind _ _ (fun h2 => exists l2, queue_inv (ntt_queue_timer_generation w) h2 l2 /\
    (forall e, e ∈ l2 -> e ∈ l1) /\ (forall e, stands (ntt_queue_timer_generation w) e -> e ∈ l1 -> e ∈ l2))).
  { destruct (negb _); [|apply returns_ok; by exists l1].
    destruct (qretire_ok _ _ _ t Hq1) as (h2 & l2 & -> & Hq2 & Hst & Hsub & _).
    apply returns_ok. exists l2. split_and!; [done|done|]. intros e Hs He.
    assert (Hf : e ∈ filter (stands (ntt_queue_timer_generation w)) l1) by (by apply list_elem_of_filter).
    rewrite Hst in Hf. by apply list_elem_of_filter in Hf as [_ ?]. }
  intros h2 (l2 & Hq2 & Hsub & Hsup).
  destruct (arm_locked_ok _ (sv_with_queues h2 (service w)) l2 Hq2) as (sv & -> & Hqs & Hlk & Ha & Hfd).
  rewrite bind_ok. apply returns_ok. exists sv. split; [done|].
  assert (HE2 : qentries (sv_queues sv) = l2) by (rewrite Hqs; apply qentries_eq, Hq2).
  assert (Hkeep : forall e, stands (ntt_queue_timer_generation w) e -> e ∈ mk_qelem d i g :: l -> e ∈ l2).
  { intros e Hs He. apply Hsup; [done|]. by rewrite Hp1. }
  split; [intros Hb|rewrite HE2; intros Hs; apply Hkeep; [done|by left]].
  apply (inv_service w hs); try done.
  - rewrite Hqs. by exists l2.
  - rewrite HE2. intros e He. split; [|by apply Ha]. apply Hsub in He. rewrite Hp1 in He.
    apply elem_of_cons in He as [->|He]; [|apply Hinv; by rewrite HE].
    destruct Hsome as [s Hi]. destruct (Hlive s Hi) as [Hr Hg].
    exists s. split_and!; [done|done|]. intros Hf. by destruct (not_free s Hr).
  - apply Hinv.
  - intros e Hs [He|He]; [left|by right]. rewrite HE2. apply Hkeep; [done|]. right. by rewrite <- HE.
  - destruct Hfd as [->|Hfd]; [|by left]. apply (si_fd _ _ Hinv).
  - rewrite Hlk. apply Hinv.
  - apply Hb.
Qed.

Lemma bounded_same w i s s' :
  qslots w !! i = Some s -> s_generation s' = s_generation s -> bounded (set_slot i s' w) -> bounded w.
Proof.
  intros Hi Hg [Hb Hsz]. split; [|done]. intros j t Ht. simpl in Hb.
  destruct (decide (i = j)) as [->|Hne].
  - pose proof (Hb j s' (lookup_insert_eq _ _ _)) as Hb'. simpl in *. assert (t = s) as -> by congruence. lia.
  - apply (Hb j t). by rewrite lookup_insert_ne.
Qed.

Lemma sync_register_ok w hs i s g d t :
  service_inv w hs -> qslots w !! i = Some s -> q_refs (s_queue s) <> 0 ->
  q_sync (s_queue s) = Some (SyncRegister g d t) ->
  returns (ntt_queue_sync_timers w i s (SyncRegister g d t)) (fun w' => bounded w' -> service_inv w' hs).
Proof.
  intros Hinv Hi Hne Hsy. pose proof (si_slots _ _ Hinv i s Hi) as [Hg Hr Hk Href Hrn Hd Ht Hs Hu Hc Hy Hv].
  pose proof (sync_running w hs i s _ Hinv Hi Hsy) as Hrun.
  assert (g = q_reg_gen (s_queue s) /\ d = q_reg_deadline (s_queue s)) as [-> ->]
    by (unfold sync_ok in Hy; by rewrite Hsy in Hy).
  simpl. eapply returns_bind; [apply (register_ok w hs); [done|eauto|]|].
  { intros s' Hs'. assert (s' = s) as -> by congruence. split; [done|lia]. }
  intros w' (sv & -> & Hinv' & Hst). apply returns_ok. unfold set_sync. intros Hb.
  assert (Hi' : qslots (set_service sv w) !! i = Some s) by done.
  specialize (Hinv' (bounded_same _ i s (upd (with_sync None) s) Hi' eq_refl Hb)).
  eapply inv_slot; [done|done| | |done]; [by apply succeeds_live; [|apply not_free]|].
  split; try done; simpl.
  - intros _ Hreg. right. left. rewrite <- Hreg. apply Hst. apply (stands_iff w hs); [done|].
    exists s. done.
  - by rewrite Hrun in *.
  - intros Ha. unfold sync_early in Hs. rewrite Hsy in Hs. left. by destruct (Hs Ha).
  - unfold unref_due in *. by rewrite Hsy in Hu.
  - intros Ha. destruct (Hc Ha) as [?|[?|[?|Hgo]]]; unfold covered; auto.
    unfold sync_going in Hgo. by rewrite Hsy in Hgo.
Qed.
End service.

(** ** The loop over expired timers and the cancellation, cut at the callbacks *)
Section turns.
Context `{Platform}.

Lemma svc_turns {W} `{!TaskHost W} fuel (x : W) now cnt :
  ntt_timer_heap_svc (S fuel) x now cnt =
  '(o, h) ← svc_turn (th_heap x) now;
  match o with
  | None => Ok (cnt, x)
  | Some None => ntt_timer_heap_svc fuel (th_set_heap h x) now cnt
  | Some (Some task) =>
      x ← th_task_svc task (th_set_heap h x);
      x ← th_task_destroy task x;
      ntt_timer_heap_svc fuel x now (u64 (cnt + 1))
  end.
Proof.
  unfold svc_turn. cbn [ntt_timer_heap_svc].
  destruct (size (th_heap x) =? 0); [done|].
  destruct (ntt_timer_heap_elem_at _ _) as [e|f]; [|done]. rewrite !bind_ok.
  destruct (deadline e >? now); [done|].
  destruct (ntt_timer_heap_pop_root _) as [h|f]; [|done]. rewrite !bind_ok.
  destruct (ntt_timer_heap_elem_live _ _) as [[|]|f]; [| |done]; rewrite !bind_ok; cbn [negb].
  - destruct (ntt_timer_heap_slot_at _ _) as [sl|f]; [|done]. rewrite !bind_ok.
    destruct (defined _) as [t|f]; [|done]. rewrite !bind_ok.
    by destruct (ntt_timer_heap_free_slot _ _) as [h'|f].
  - by destruct (c_assert _) as [[]|f].
Qed.

Lemma cancel_halves {W} `{!TaskHost W} (x : W) tag :
  ntt_timer_heap_cancel x tag =
  '(o, h) ← cancel_begin (th_heap x) tag;
  match o with
  | None => Ok x
  | Some task =>
      x ← th_task_destroy task (th_set_heap h x);
      h ← ntt_timer_heap_compact (th_heap x);
      Ok (th_set_heap h x)
  end.
Proof.
  unfold cancel_begin, ntt_timer_heap_cancel.
  destruct (c_assert (negb _)) as [[]|f]; [|done]. rewrite !bind_ok.
  destruct (c_assert (_ <? _)) as [[]|f]; [|done]. rewrite !bind_ok.
  destruct (tag_index tag >=? _); [done|].
  destruct (ntt_timer_heap_slot_at _ _) as [sl|f]; [|done]. rewrite !bind_ok.
  destruct (defined (slot_version sl)) as [v|f]; [|done]. rewrite !bind_ok.
  destruct (c_assert (_ =? _)) as [[]|f]; [|done]. rewrite !bind_ok.
  destruct (negb _); [done|].
  destruct (defined _) as [t|f]; [|done]. rewrite !bind_ok.
  by destruct (ntt_timer_heap_free_slot _ _) as [h|f].
Qed.

(** A turn disarms at most the timer it fires. *)
Definition shrinks (h h' : ntt_timer_heap) : Prop :=
  forall tag, is_Some (armed h' !! tag) -> armed h' !! tag = armed h !! tag.

Lemma shrinks_same h h' : armed h' = armed h -> shrinks h h'.
Proof. intros Ha tag _. by rewrite Ha. Qed.

Lemma shrinks_delete h h' t : armed h' = delete t (armed h) -> shrinks h h'.
Proof.
  intros Ha tag Hs. rewrite Ha in *. destruct (decide (t = tag)) as [->|Hne].
  - rewrite lookup_delete_eq in Hs. by destruct Hs.
  - by rewrite lookup_delete_ne.
Qed.

Lemma shrinks_empty h h' : shrinks h h' -> armed h' <> ∅ -> armed h <> ∅.
Proof.
  intros Hs Hne Hz. apply Hne. apply map_empty. intros tag.
  destruct (armed h' !! tag) eqn:Ht; [|done]. specialize (Hs tag ltac:(eauto)).
  rewrite Hz, lookup_empty in Hs. congruence.
Qed.

Lemma svc_turn_ok h now :
  timer_wf h ->
  returns (svc_turn h now) (fun '(o, h') => timer_wf h' /\ shrinks h h').
Proof.
  intros Hwf. pose proof Hwf as (l & fl & Hinv). unfold svc_turn.
  pose proof (ai_size _ _ (ti_array _ _ _ Hinv)) as Hsz.
  destruct (Z.eqb_spec (size h) 0) as [Hz|Hnz]; [by split; [|apply shrinks_same]|].
  destruct (lookup_lt_is_Some_2 l 0) as [r Hr]; [lia|].
  rewrite (array_elem_at _ l 0 r (ti_array _ _ _ Hinv) Hr : ntt_timer_heap_elem_at _ 0 = _), bind_ok.
  destruct (Z.gtb_spec (deadline r) now) as [Hgt|Hle]; [by split; [|apply shrinks_same]|].
  eapply returns_bind; [by eapply pop_turn_ok|].
  intros s1 (l' & Hp & Hf & Hlv & Hdead & Hlive).
  rewrite Hlv, bind_ok. case_bool_decide as Hl; cbn [negb].
  - destruct (Hlive Hl) as (sl & t & s2 & Hat & Htk & _ & _ & Hfree & Hinv2 & Hrel & _).
    rewrite Hat, bind_ok, Htk. cbn [defined]. rewrite bind_ok, Hfree, bind_ok.
    destruct (turn_live _ l l' fl r s2 now Hinv Hp Hl Hle Hr Hinv2 Hrel) as [Ha _].
    apply returns_ok. split; [by exists l', (index r :: fl)|]. by eapply shrinks_delete.
  - destruct (Hdead Hl) as [Htb Hinv1].
    rewrite c_assert_true, bind_ok by (by destruct (Z.gtb_spec (tombstones s1) 0); [|lia]).
    destruct (turn_dead _ l l' fl r s1 now Hinv Hp Hf Hl Hle Hinv1) as [Ha _].
    apply returns_ok. split; [by exists l', fl|]. by apply shrinks_same.
Qed.

Lemma cancel_begin_ok h tag :
  timer_wf h -> is_Some (armed h !! tag) ->
  returns (cancel_begin h tag) (fun '(o, h') => is_Some o /\ timer_wf h' /\ armed h' = delete tag (armed h)).
Proof.
  intros (l & fl & Hinv) [tm Harm].
  destruct (armed_slot _ l fl tag tm Hinv Harm) as (Hv & Hodd & Htk & _).
  pose proof (ver_at_bounds _ _ _ Hv) as Hb.
  destruct (slot_at_ok _ fl _ (ti_slots _ _ _ Hinv) Hb) as (sl & v & Hat & Hsl & Hslv & Hv' & _).
  assert (v = tag_version tag) as -> by congruence.
  destruct (retire_ok _ l fl _ _ Hinv Hv Hodd) as (s1 & Hfree & Hf & Hinv1 & Hrel).
  unfold cancel_begin, ntt_timer_tag_is_null.
  rewrite (c_assert_true (negb _)), bind_ok.
  2:{ destruct (Z.eqb_spec (tag_version tag) 0) as [Hz|]; [by rewrite Hz in Hodd|done]. }
  assert_ok. destruct (Z.geb_spec (tag_index tag) (slot_cnt h)); [lia|].
  rewrite Hat, bind_ok, Hslv. cbn [defined]. rewrite bind_ok, Z.eqb_refl.
  rewrite c_assert_true, bind_ok by done. cbn [negb].
  assert (slot_task sl = Some (tm_task tm)) as ->.
  { unfold task_at in Htk. by rewrite Hsl in Htk. }
  cbn [defined]. rewrite bind_ok, Hfree, bind_ok. apply returns_ok.
  split_and!; [eauto|by exists l, (tag_index tag :: fl)|].
  eapply (armed_released _ l fl _ l); eauto.
Qed.
End turns.
