(* ===== verification/TimerServiceExec.v ===== *)
(** * The timer service: the code of queues, of the handler and of the clients

    The steps of [TimerServiceSteps] put together: every step of the system keeps
    the invariant, and none of the library fails. *)

From stdpp Require Import base numbers list gmap.
From Stdlib Require Import ZArith Lia.
From S2P Require Import Prelude.
From S2P Require Import TimerHeap.
From S2P Require Import TimerHeapArray.
From S2P Require Import TimerHeapInv.
From S2P Require Import TimerHeapOps.
From S2P Require Import TimerHeapSpec.
From S2P Require Import TimerHeapHost.
From S2P Require Import QueueHeap.
From S2P Require Import QueueHeapArray.
From S2P Require Import QueueHeapSpec.
From S2P Require Import TimerService.
From S2P Require Import TimerServiceInv.
From S2P Require Import TimerServiceSteps.

#[local] Open Scope Z_scope.

Implicit Types (w : world) (hs : list handler) (i j : Z) (q : tqueue) (s : slot)
  (e : ntt_queue_heap_elem) (E : list ntt_queue_heap_elem).

(** ** The code of a queue *)
Section queue.
Context `{Platform} (w : world) (hs : list handler) (i : Z) (s : slot).
Hypotheses (Hinv : service_inv w hs) (Hi : qslots w !! i = Some s) (Hne : q_refs (s_queue s) <> 0).

Let Hok := si_slots w hs Hinv i s Hi.

Section frames.
Hypotheses (Hsy : q_sync (s_queue s) = None) (Hrun : q_running (s_queue s) = true).

Let Htk := run_tasks w hs i s Hinv Hi Hrun.

(** A frame changes and timers may go; what is left is still covered. *)
Lemma frame_step s' :
  same_place s s' -> timer_wf (q_timers (s_queue s')) -> shrinks (q_timers (s_queue s)) (q_timers (s_queue s')) ->
  (q_sync (s_queue s') = None /\ (draining (s_queue s) = true -> draining (s_queue s') = true) /\
   (armed (q_timers (s_queue s)) <> ∅ -> armed (q_timers (s_queue s')) <> ∅ \/ unref_due (s_queue s') = true) /\
   (unref_due (s_queue s) = true -> unref_due (s_queue s') = true)) \/
  q_sync (s_queue s') = Some SyncLoad ->
  bounded (set_slot i s' w) -> service_inv (set_slot i s' w) hs.
Proof.
  intros Hsame Hwf Hsh Hsync Hb. pose proof (shrinks_empty _ _ Hsh) as Hemp.
  eapply inv_local; try done; [intros (? & ? & ? & ?); congruence|].
  split_and!; [done| | | |].
  - intros Ha. destruct (so_self _ _ _ _ _ Hok (Hemp Ha)) as [Hs|Hs].
    + left. destruct Hsame as (_ & _ & _ & _ & _ & _ & _ & -> & _). done.
    + unfold sync_early in Hs. by rewrite Hsy in Hs.
  - intros Hsf. destruct Hsync as [(_ & _ & Hn & Hd)|Hl].
    + destruct Hsame as (_ & _ & _ & _ & _ & _ & _ & Hse & _). rewrite Hse in Hsf.
      destruct (so_unref _ _ _ _ _ Hok Hsf); auto.
    + right. unfold unref_due. rewrite Hl. apply orb_true_r.
  - intros Ha. destruct Hsync as [(Hn & Hd & _)|Hl].
    + eapply covered_shrink; [by apply Hok, Hemp|done|done|done|auto|].
      unfold sync_going. by rewrite Hsy.
    + right; right; right. unfold sync_going. by rewrite Hl.
  - unfold sync_ok. by destruct Hsync as [(-> & _)| ->].
Qed.

Lemma drain_turn_ok now fs :
  q_frames (s_queue s) = Drain now :: fs ->
  returns (drain_turn w i s now fs) (fun w' => bounded w' -> service_inv w' hs).
Proof.
  intros Hf. unfold drain_turn. eapply returns_bind; [by apply svc_turn_ok, Hok|].
  intros [o h] [Hwf Hsh]. apply returns_ok. intros Hb.
  destruct o as [[task|]|]; (eapply frame_step; [by destruct s as [? ? []]|done|done| |exact Hb]).
  - left. split_and!; [done|done|by right|done].
  - left. split_and!; [done|done| |done]. intros _. right. unfold unref_due. simpl. by rewrite Hf.
  - by right.
Qed.

Lemma cancel_end_ok fs :
  returns (cancel_end w i s fs) (fun w' => bounded w' -> service_inv w' hs).
Proof.
  unfold cancel_end. eapply returns_bind; [by apply compact_armed, Hok|].
  intros h [Hwf Ha]. apply returns_ok. intros Hb.
  eapply frame_step; [done|done|by apply shrinks_same|by right|done].
Qed.

Lemma task_end_ok :
  q_frames (s_queue s) = [] ->
  returns (task_end w i s) (fun w' => bounded w' -> service_inv w' hs).
Proof.
  intros Hf. pose proof Hok as [Hg Hr Hk Href Hrn Hd Ht Hs Hu Hc Hy Hv].
  assert (Hres : forall s' rest, tail (q_tasks (s_queue s)) = rest ->
     s_generation s' = s_generation s -> s_dying s' = s_dying s ->
     s_queue s' = with_leaving (q_leaving (s_queue s) + (if decide (rest = []) then 1 else 0))
       (with_run false [] (with_tasks rest (s_queue s))) ->
     bounded (set_slot i s' w) -> service_inv (set_slot i s' w) hs).
  { intros s' rest Hrest E1 E2 E3 Hb. eapply inv_slot; [done|done| | |done].
    { apply succeeds_live; [done|]. apply not_free. by rewrite E3. }
    assert (Hbusy : busy (s_queue s) = 1%nat) by (unfold busy; by rewrite decide_False).
    split; unfold registered in *; rewrite ?E1, ?E2, ?E3; simpl; try done.
    - rewrite Href, Hbusy. unfold busy. simpl. case_decide; lia.
    - intros Hsf. left. unfold unref_due in Hu. rewrite Hf, Hsy in Hu. by destruct (Hu Hsf).
    - intros Ha. destruct (Hc Ha) as [[Hreg Hn]|[Hw|[Hx|Hx]]].
      + left. split; [unfold registered in *; by rewrite E1, E3|by rewrite E3].
      + right; left. unfold wake_pending, waiting in *. rewrite E3. simpl. by rewrite Hrun, Hrest in Hw.
      + unfold draining in Hx. by rewrite Hf in Hx.
      + unfold sync_going in Hx. by rewrite Hsy in Hx.
    - unfold sync_ok. by rewrite E3; simpl; rewrite Hsy. }
  unfold task_end. destruct (tail (q_tasks (s_queue s))) as [|k rest] eqn:Hrest; apply returns_ok; intros Hb.
  - eapply Hres; [reflexivity|done|done| |done]. rewrite decide_True by done.
    rewrite Nat.add_1_r. done.
  - eapply Hres; [reflexivity|done|done| |done]. rewrite decide_False by done. rewrite Nat.add_0_r. done.
Qed.
End frames.

Lemma task_begin_ok :
  q_sync (s_queue s) = None -> q_running (s_queue s) = false -> ntt_queue_empty (s_queue s) = false ->
  returns (task_begin w i s) (fun w' => bounded w' -> service_inv w' hs).
Proof.
  intros Hsy Hrun Hemp%bool_decide_eq_false. pose proof Hok as [Hg Hr Hk Href Hrn Hd Ht Hs Hu Hc Hy Hv].
  rewrite Hrun in Hrn. destruct Hrn as [Hfr _].
  unfold task_begin. destruct (q_tasks (s_queue s)) as [|k rest] eqn:Htk; [done|].
  assert (Hres : forall f, (k = TimersTask -> is_drain f = true) ->
     bounded (set_slot i (upd (with_run true [f]) s) w) ->
     service_inv (set_slot i (upd (with_run true [f]) s) w) hs).
  { intros f Hkf Hb. eapply inv_slot; [done|done| | |done].
    { apply succeeds_live; [done|]. by apply not_free. }
    split; simpl; try done.
    - congruence.
    - intros Hsf. left. unfold unref_due in Hu. rewrite Hfr, Hsy in Hu. by destruct (Hu Hsf).
    - intros Ha. destruct (Hc Ha) as [?|[[Hw|Hw]|[Hx|Hx]]].
      + by left.
      + unfold waiting in Hw. rewrite Hrun, Htk in Hw. apply elem_of_cons in Hw as [<-|Hw].
        * right; right; left. unfold draining. simpl. by rewrite Hkf.
        * right; left; left. unfold waiting. simpl. by rewrite Htk.
      + right; left; by right.
      + unfold draining in Hx. by rewrite Hfr in Hx.
      + unfold sync_going in Hx. by rewrite Hsy in Hx.
    - unfold sync_ok. simpl. by rewrite Hsy. }
  destruct k; apply returns_ok; intros Hb; by apply Hres.
Qed.

Lemma exec_queue_ok :
  queue_ready w (s_queue s) = true ->
  returns (exec_queue w i) (fun w' => bounded w' -> service_inv w' hs).
Proof.
  intros Hready. unfold exec_queue, queue_ready in *. rewrite (get_tqueue_ok w i s Hi Hne), bind_ok. cbv zeta.
  destruct (q_sync (s_queue s)) as [p|] eqn:Hsy.
  { destruct p.
    - by apply sync_load_ok.
    - by eapply sync_drop_ok.
    - by apply sync_unref_ok.
    - by apply sync_keep_ok.
    - by eapply sync_retire_ok.
    - by apply sync_register_ok. }
  destruct (q_running (s_queue s)) eqn:Hrun.
  2:{ apply task_begin_ok; try done. simpl in Hready. by apply negb_true_iff in Hready. }
  assert (Hwf : timer_wf (q_timers (s_queue s))) by apply Hok.
  destruct (q_frames (s_queue s)) as [|f fs] eqn:Hf; [by apply task_end_ok|].
  assert (Hpop : forall fs', (draining (s_queue s) = true -> existsb is_drain fs' = true) ->
    (existsb unref_frame (q_frames (s_queue s)) = true -> existsb unref_frame fs' = true) ->
    returns (Ok (set_slot i (upd (with_run true fs') s) w)) (fun w' => bounded w' -> service_inv w' hs)).
  { intros fs' Hd Hu. apply returns_ok. intros Hb. apply frame_step; try done. left.
    split_and!; [done|exact Hd|by left|]. unfold unref_due. simpl. rewrite Hsy, !orb_false_r. exact Hu. }
  unfold draining in Hpop. rewrite Hf in Hpop.
  destruct f; [by apply Hpop|by apply Hpop|by apply drain_turn_ok|by apply Hpop|by apply cancel_end_ok].
Qed.
End queue.

(** ** The handler of the timerfd *)
Section handler.
Context `{Platform} (w : world) (hs : list handler).

Lemma occurs_one i : occurs i [i] = 1%nat.
Proof. unfold occurs, total. simpl. by rewrite decide_True. Qed.

Lemma occurs_ne i j : i <> j -> occurs i [j] = 0%nat.
Proof. intros Hne. unfold occurs, total. simpl. by rewrite decide_False. Qed.

Lemma occurs_app i l l' : occurs i (l ++ l') = (occurs i l + occurs i l')%nat.
Proof. apply total_app. Qed.

Lemma occurs_cons i j l : occurs i (j :: l) = (occurs i [j] + occurs i l)%nat.
Proof. apply (total_app _ [j] l). Qed.

(** The handler moves and the service changes; the slots stay. *)
Lemma inv_handler_service h h' sv' :
  service_inv w (h :: hs) -> queue_wf (ntt_queue_timer_generation w) (sv_queues sv') ->
  (forall e, e ∈ qentries (sv_queues sv') -> e ∈ entries_of w) ->
  (forall e, e ∈ qentries (sv_queues sv') -> sv_armed sv' <= qe_deadline e) ->
  (forall e, e ∈ held h' -> e ∈ held h \/ e ∈ entries_of w) ->
  (forall j, wakes j h' = wakes j h /\ holds j h' = holds j h) ->
  (forall e, stands (ntt_queue_timer_generation w) e -> e ∈ entries_of w \/ e ∈ held h ->
     e ∈ qentries (sv_queues sv') \/ e ∈ held h') ->
  fd_ok sv' (h' :: hs) -> total has_lock (h' :: hs) = Nat.b2n (sv_lock sv') ->
  qh_size (sv_queues sv') < MAX_REGISTRATIONS -> service_inv (set_service sv' w) (h' :: hs).
Proof.
  intros Hinv Hwf Hsub Ha Hheld Hj Hk Hfd Hl Hsz. apply (inv_service w (h :: hs)); try done.
  - intros e He. split; [|by apply Ha]. by apply (si_entries _ _ Hinv), Hsub.
  - intros x e [->|Hx]%elem_of_cons Hxe; [|eapply (si_held _ _ Hinv x); [by right|done]].
    destruct (Hheld e Hxe) as [He|He]; [eapply (si_held _ _ Hinv h); [by left|done]|].
    destruct (si_entries _ _ Hinv e He) as (s & Hs & _). eauto.
  - intros j. destruct (Hj j). rewrite !total_cons. lia.
  - intros e Hs [He|(x & [->|Hx]%elem_of_cons & Hxe)].
    + destruct (Hk e Hs) as [?|?]; [by left|by left|right]. exists h'. split; [by left|done].
    + destruct (Hk e Hs) as [?|?]; [by right|by left|right]. exists h'. split; [by left|done].
    + right. exists x. split; [by right|done].
Qed.

(** The handler just moves on. *)
Lemma inv_handler h h' :
  service_inv w (h :: hs) -> has_lock h' = has_lock h -> held h' = held h ->
  (forall j, wakes j h' = wakes j h /\ holds j h' = holds j h) ->
  ((0 < will_arm h)%nat -> (0 < will_arm h')%nat) -> service_inv w (h' :: hs).
Proof.
  intros Hinv Hl Hh Hj Ha. replace w with (set_service (service w) w) by (by destruct w).
  eapply inv_handler_service; try done; try apply Hinv.
  - intros e He. left. by rewrite <- Hh.
  - rewrite Hh. done.
  - intros Hlt. destruct (si_fd _ _ Hinv Hlt) as [?|[?|Hw]]; [by left|by right; left|right; right].
    rewrite total_cons in *. lia.
  - pose proof (si_lock _ _ Hinv) as Hlk. rewrite total_cons in *. by rewrite Hl.
Qed.

Lemma holds_slot h i :
  service_inv w (h :: hs) -> (0 < holds i h)%nat -> exists s, qslots w !! i = Some s /\
    slot_ok 0 (entries_of w) (h :: hs) i s /\ q_refs (s_queue s) <> 0 /\ 0 < s_generation s.
Proof.
  intros Hinv Hh. destruct (qslots w !! i) as [s|] eqn:Hi.
  - exists s. pose proof (si_slots _ _ Hinv i s Hi) as Hok. pose proof (so_refs _ _ _ _ _ Hok) as Hr.
    pose proof (so_gen _ _ _ _ _ Hok). rewrite total_cons in Hr. split_and!; [done|done|lia|lia].
  - pose proof (si_none _ _ Hinv i Hi) as Hn. rewrite total_cons in Hn. lia.
Qed.

Lemma take_ok now batch :
  service_inv w (HTake now batch :: hs) ->
  returns (exec_handler (HTake now batch) w) (fun '(h', w') =>
    bounded w' -> service_inv w' (option_list h' ++ hs)).
Proof.
  intros Hinv. cbn [exec_handler]. destruct (_ <? _); [|apply returns_ok; intros _; by eapply inv_handler].
  pose proof (si_heap _ _ Hinv) as (l & Hq).
  assert (HE : entries_of w = l) by (apply qentries_eq, Hq).
  destruct (qtake_expired_ok _ _ _ now Hq) as (o & qs & l' & -> & Hq' & Hsub & Ho).
  rewrite bind_ok. apply returns_ok. intros Hb.
  assert (HE' : qentries qs = l') by (apply qentries_eq, Hq').
  assert (Hst : forall e, stands (ntt_queue_timer_generation w) e -> e ∈ l -> e ∈ l' \/ o = Some e).
  { intros e Hs He. assert (Hf : e ∈ filter (stands (ntt_queue_timer_generation w)) l) by (by apply list_elem_of_filter).
    destruct o as [e'|]; destruct Ho as [Hp _]; rewrite Hp in Hf.
    - apply elem_of_cons in Hf as [->|Hf]; [by right|left]. by apply list_elem_of_filter in Hf as [_ ?].
    - left. by apply list_elem_of_filter in Hf as [_ ?]. }
  assert (Hin : forall e, o = Some e -> e ∈ l).
  { intros e ->. destruct Ho as [Hp _].
    assert (Hf : e ∈ filter (stands (ntt_queue_timer_generation w)) l) by (rewrite Hp; by left).
    by apply list_elem_of_filter in Hf as [_ ?]. }
  eapply inv_handler_service; [exact Hinv|by exists l'|simpl; rewrite HE', HE; done| | | | | | |apply Hb].
  - simpl. rewrite HE'. intros e He. apply (si_armed _ _ Hinv). rewrite HE. auto.
  - rewrite HE. destruct o as [e|]; simpl; [|by intros ? ?%elem_of_nil].
    intros e' ->%list_elem_of_singleton. right. by apply Hin.
  - by destruct o.
  - simpl. rewrite HE', HE. intros e Hs [He|He]; [|by apply elem_of_nil in He].
    destruct (Hst e Hs He) as [?| ->]; [by left|right]. by left.
  - intros _. right; right. destruct o; rewrite total_cons; simpl; lia.
  - pose proof (si_lock _ _ Hinv) as Hl. rewrite total_cons in *. by destruct o.
Qed.

Lemma arm_ok batch :
  service_inv w (HArm batch :: hs) ->
  returns (exec_handler (HArm batch) w) (fun '(h', w') =>
    bounded w' -> service_inv w' (option_list h' ++ hs)).
Proof.
  intros Hinv. cbn [exec_handler]. pose proof (si_heap _ _ Hinv) as (l & Hq).
  assert (HE : entries_of w = l) by (apply qentries_eq, Hq).
  destruct (arm_locked_ok _ (sv_with_armed UINT64_MAX (service w)) l Hq) as (sv & -> & Hqs & Hlk & Ha & Hfd).
  rewrite bind_ok. apply returns_ok. intros Hb.
  pose proof (si_lock _ _ Hinv) as Hl. rewrite total_cons in Hl.
  eapply inv_handler_service; [exact Hinv|simpl; rewrite Hqs; by exists l|simpl; by rewrite Hqs| |by intros e ?%elem_of_nil|done| | | |apply Hb].
  - simpl. rewrite Hqs. intros e He. apply Ha. by rewrite <- HE.
  - simpl. rewrite Hqs. intros e _ [He|He]; [by left|by apply elem_of_nil in He].
  - intros Hlt. simpl in *. destruct Hfd as [->|Hfd]; [simpl in Hlt; lia|by left].
  - rewrite total_cons. simpl in *. destruct (sv_lock (service w)); simpl in Hl; lia.
Qed.
End handler.
(** The steps that work on one queue. *)
Section handler_slot.
Context `{Platform} (w : world) (hs : list handler).

Definition handler_keeps (r : res (option handler * world)) : Prop :=
  returns r (fun '(h', w') => bounded w' -> service_inv w' (option_list h' ++ hs)).

Lemma others_same h h' i :
  (forall j, j <> i -> occurs j (batch_of h') = occurs j (batch_of h)) ->
  (forall j, j <> i -> holds j h' = holds j h) ->
  forall j, j <> i -> wakes j h' = wakes j h /\ holds j h' = holds j h.
Proof. intros Hw Hh j Hj. split; [by apply Hw|by apply Hh]. Qed.

Lemma handler_acquire_ok now batch e :
  service_inv w (HAcquire now batch e :: hs) -> handler_keeps (exec_handler (HAcquire now batch e) w).
Proof.
  intros Hinv. unfold handler_keeps. cbn [exec_handler].
  destruct (si_held _ _ Hinv (HAcquire now batch e) e) as [s Hi]; [by left|by left|].
  pose proof (si_slots _ _ Hinv _ s Hi) as Hok.
  unfold ntt_queue_acquire_if_live. rewrite (get_slot_ok w _ s Hi), bind_ok. cbv zeta.
  destruct (Z.eqb_spec (q_refs (s_queue s)) 0) as [Hz|Hne]; rewrite bind_ok; apply returns_ok; intros Hb.
  - rewrite <- (set_slot_id _ s w Hi). eapply inv_handler_slot; try done.
    + by split; [|by left].
    + eapply slot_ok_change; [done|done|by right|done].
    + by intros e' ?%elem_of_nil.
    + intros e' ->%list_elem_of_singleton. by left.
    + by rewrite set_slot_id.
  - destruct (acquire_ok 0 _ _ w _ s Hi Hok Hne) as [_ Hok1].
    eapply inv_handler_slot; try done.
    + apply succeeds_live; [done|]. apply not_free. simpl. pose proof (so_refs _ _ _ _ _ Hok). lia.
    + eapply slot_ok_change; [exact Hok1| |by right|].
      * rewrite !total_cons. unfold holds. simpl. rewrite occurs_one. unfold wakes. simpl. lia.
      * intros e' _ _ _ [?|(x & [->|Hx]%elem_of_cons & Hxe)]; [by left| |].
        -- right. eexists. split; [by left|done].
        -- right. exists x. split; [by right|done].
    + intros j Hj. split; [done|]. unfold holds. simpl. by rewrite occurs_ne.
    + by right.
Qed.

Lemma handler_check_ok now batch e :
  service_inv w (HCheck now batch e :: hs) -> handler_keeps (exec_handler (HCheck now batch e) w).
Proof.
  intros Hinv. unfold handler_keeps. cbn [exec_handler].
  destruct (holds_slot w hs _ (qe_index e) Hinv) as (s & Hi & Hok & Hne & Hg).
  { unfold holds. rewrite occurs_one. lia. }
  rewrite (timer_generation_ok w _ s Hi (si_bounded _ _ Hinv)), bind_ok by lia.
  apply returns_ok. intros Hb. destruct (Z.eqb_spec (s_generation s) (qe_generation e)) as [Heq|Hd]; cbn [negb].
  - by eapply inv_handler.
  - rewrite <- (set_slot_id _ s w Hi). eapply inv_handler_slot; try done.
    + by apply succeeds_live; [|apply not_free].
    + eapply slot_ok_change; [done|done|by right|].
      intros e' _ He' _ [?|(x & [->|Hx]%elem_of_cons & Hxe)]; [by left| |].
      * apply list_elem_of_singleton in Hxe as ->. congruence.
      * right. exists x. split; [by right|done].
    + by intros e' ?%elem_of_nil.
    + intros e' ->%list_elem_of_singleton. by left.
    + by rewrite set_slot_id.
Qed.

(** The handler drops a reference. *)
Lemma handler_release_ok h h' i :
  service_inv w (h :: hs) -> has_lock h' = has_lock h -> will_arm h' = will_arm h ->
  held h' = held h -> (forall j, wakes j h' = wakes j h) ->
  (forall j, holds j h = holds j h' + occurs j [i])%nat ->
  handler_keeps (w ← ntt_queue_release w i; Ok (Some h', w)).
Proof.
  intros Hinv Hlk Har Hhd Hw Hho. unfold handler_keeps.
  destruct (holds_slot w hs h i Hinv) as (s & Hi & Hok & Hne & _).
  { rewrite Hho, occurs_one. lia. }
  assert (Hok1 : slot_ok 1 (entries_of w) (h' :: hs) i s).
  { eapply slot_ok_change; [exact Hok| | |].
    - rewrite !total_cons, Hho, occurs_one. lia.
    - rewrite !total_cons. intros ?. right. rewrite total_cons, Hw. lia.
    - intros e _ _ _ [?|(x & [->|Hx]%elem_of_cons & Hxe)]; [by left| |].
      + right. exists h'. rewrite Hhd. split; [by left|done].
      + right. exists x. split; [by right|done]. }
  destruct (release_ok 0 _ _ w i s Hi Hok1) as (s' & -> & Hok' & Hg & Hf & _).
  rewrite bind_ok. apply returns_ok. intros Hb.
  eapply inv_handler_slot; try done.
  - by apply succeeds_live.
  - intros j Hj. rewrite Hw, Hho, occurs_ne by done. split; [done|lia].
  - by rewrite Hhd.
  - rewrite Hhd. by right.
Qed.

Lemma handler_retire_ok now batch e :
  service_inv w (HRetire now batch e :: hs) -> handler_keeps (exec_handler (HRetire now batch e) w).
Proof.
  intros Hinv. unfold handler_keeps. cbn [exec_handler].
  destruct (holds_slot w hs _ (qe_index e) Hinv) as (s & Hi & Hok & Hne & Hg).
  { unfold holds. rewrite occurs_one. lia. }
  pose proof (proj1 (si_bounded _ _ Hinv) _ s Hi) as Hb0. simpl in Hb0.
  rewrite (retire_generation_ok w _ _ s Hinv Hi), bind_ok by lia.
  apply returns_ok. intros Hb. set (h' := HTake now (batch ++ [qe_index e])).
  assert (Hwk : wakes (qe_index e) h' = S (wakes (qe_index e) (HRetire now batch e))).
  { unfold wakes. simpl. rewrite occurs_app, occurs_one. lia. }
  assert (Hwp : wake_pending (h' :: hs) (qe_index e) (s_queue s)).
  { right. rewrite total_cons. lia. }
  eapply inv_handler_slot; try done.
  - split; simpl; [lia|]. intros _. right. lia.
  - destruct Hok as [_ Hr Hk Href Hrn Hd Ht Hs Hu Hc Hy Hv].
    split; unfold registered; simpl; try done; try lia.
    + rewrite Href, !total_cons. unfold holds at 1 3. rewrite Hwk, occurs_one. unfold wakes. simpl. lia.
    + intros _. by right; left.
    + unfold sync_ok in *. simpl in *. destruct (q_sync _) as [[]|]; try done.
      destruct Hy as (? & ? & _). split_and!; [done|done|]. by right.
  - apply others_same; intros j Hj; unfold holds, wakes; simpl; rewrite occurs_app, occurs_ne by done; lia.
  - by intros e' ?%elem_of_nil.
  - intros e' ->%list_elem_of_singleton. by left.
Qed.

Lemma handler_wake_ok cnt i todo :
  service_inv w (HWake cnt (i :: todo) :: hs) -> handler_keeps (exec_handler (HWake cnt (i :: todo)) w).
Proof.
  intros Hinv. unfold handler_keeps. cbn [exec_handler]. unfold ntt_queue_wakeup_timers.
  destruct (holds_slot w hs _ i Hinv) as (s & Hi & Hok & Hne & Hg).
  { unfold holds, wakes. simpl. rewrite occurs_cons, occurs_one. lia. }
  destruct (push_task_ok 0 _ _ w i s TimersTask Hi Hok Hne) as (s' & -> & Hok' & Hg' & Hf & Hw & _).
  rewrite bind_ok. apply returns_ok. intros Hb.
  eapply inv_handler_slot; try done.
  - by apply succeeds_live.
  - eapply slot_ok_change; [exact Hok'| | |].
    + rewrite !total_cons. unfold holds, wakes. simpl. rewrite (occurs_cons i i todo). lia.
    + intros _. left. by apply Hw.
    + intros e' _ _ _ [?|(x & [->|Hx]%elem_of_cons & Hxe)]; [by left|by apply elem_of_nil in Hxe|].
      right. exists x. split; [by right|done].
  - apply others_same; intros j Hj; unfold holds, wakes; simpl;
      rewrite (occurs_cons j i todo), occurs_ne by done; lia.
  - by intros e' ?%elem_of_nil.
Qed.
End handler_slot.

Lemma handler_done `{Platform} w cnt hs : service_inv w (HWake cnt [] :: hs) -> service_inv w hs.
Proof.
  intros Hinv. replace w with (set_service (service w) w) by (by destruct w).
  eapply inv_service; try apply Hinv; try done.
  - intros e He. by split; apply Hinv.
  - intros h e Hh. apply (si_held _ _ Hinv). by right.
  - intros e _ [?|(x & [->|Hx]%elem_of_cons & Hxe)]; [by left|by apply elem_of_nil in Hxe|].
    right. by exists x.
Qed.

Lemma exec_handler_ok `{Platform} w h hs :
  service_inv w (h :: hs) -> handler_ready w h = true -> handler_keeps hs (exec_handler h w).
Proof.
  intros Hinv Hready. destruct h.
  - apply returns_ok. intros Hb. eapply inv_handler_service; try done; try apply Hinv.
    + by intros e ?%elem_of_nil.
    + intros _. right; right. rewrite total_cons. simpl. lia.
  - apply returns_ok. intros _. by eapply inv_handler.
  - apply returns_ok. intros Hb. eapply inv_handler_service; try done; try apply Hinv.
    + by intros e ?%elem_of_nil.
    + pose proof (si_lock _ _ Hinv) as Hl. rewrite total_cons in *. simpl in *.
      destruct (sv_lock (service w)); [done|]. simpl in *. lia.
  - by apply take_ok.
  - by apply handler_acquire_ok.
  - by apply handler_check_ok.
  - eapply handler_release_ok; try done. intros j. unfold holds, wakes. simpl. lia.
  - by apply handler_retire_ok.
  - by apply arm_ok.
  - destruct todo as [|i todo]; [|by apply handler_wake_ok].
    apply returns_ok. intros _. destruct (_ <? _); simpl; [by eapply handler_done|].
    eapply inv_handler; [done|done|done|done|simpl; lia].
  - eapply handler_release_ok; try done. intros j. unfold holds, wakes. simpl. lia.
Qed.

(** ** The end of a queue *)
Section teardown.
Context `{Platform} (w : world) (hs : list handler) (i : Z) (s : slot).
Hypotheses (Hinv : service_inv w hs) (Hi : qslots w !! i = Some s).

Let Hok := si_slots w hs Hinv i s Hi.

Lemma server_leave_ok :
  (0 < q_leaving (s_queue s))%nat ->
  returns (server_leave w i) (fun w' => bounded w' -> service_inv w' hs).
Proof.
  intros Hl. pose proof Hok as [Hg Hr Hk Href Hrn Hd Ht Hs Hu Hc Hy Hv].
  assert (Hne : q_refs (s_queue s) <> 0) by lia.
  unfold server_leave. rewrite (get_tqueue_ok w i s Hi Hne), bind_ok. set (s1 := upd _ s).
  assert (Hok1 : slot_ok 1 (entries_of w) hs i s1).
  { split; try done. simpl. rewrite Href. unfold busy. simpl. lia. }
  destruct (release_ok 0 _ hs (set_slot i s1 w) i s1 (lookup_set_slot _ _ _) Hok1)
    as (s2 & -> & Hok2 & Hg2 & Hf & _).
  rewrite set_slot_twice. apply returns_ok. intros Hb. eapply inv_slot; [done|done| |done|done].
  by apply succeeds_live.
Qed.

(** A queue without references has no task, runs nothing and has no timer armed. *)
Lemma dead_queue :
  q_refs (s_queue s) = 0 ->
  q_tasks (s_queue s) = [] /\ q_running (s_queue s) = false /\ q_frames (s_queue s) = [] /\
  q_sync (s_queue s) = None /\ armed (q_timers (s_queue s)) = ∅ /\ q_self_ref (s_queue s) = false /\
  q_clients (s_queue s) = 0%nat /\ total (holds i) hs = 0%nat.
Proof.
  intros Hz. pose proof Hok as [Hg Hr Hk Href Hrn Hd Ht Hs Hu Hc Hy Hv]. rewrite Hz in Href.
  assert (Htk : q_tasks (s_queue s) = []).
  { unfold busy in Href. destruct (decide (q_tasks (s_queue s) = [])); [done|lia]. }
  assert (Hrun : q_running (s_queue s) = false) by (by destruct (q_running (s_queue s))).
  rewrite Hrun in Hrn. destruct Hrn as [Hf Hsy].
  assert (Hself : q_self_ref (s_queue s) = false) by (destruct (q_self_ref (s_queue s)); simpl in Href; [lia|done]).
  split_and!; try done; try lia.
  destruct (decide (armed (q_timers (s_queue s)) = ∅)) as [?|Ha]; [done|].
  destruct (Hs Ha) as [?|He]; [congruence|]. unfold sync_early in He. by rewrite Hsy in He.
Qed.

(** Tasks that leave the heap alone let it be taken down in every build. *)
Lemma plain_destroy_all l (h : ntt_timer_heap) : @destroy_all _ plain_host l h = Ok h.
Proof. by induction l. Qed.

Lemma plain_deinit h : timer_wf h -> @ntt_timer_heap_deinit _ _ plain_host h = Ok ntt_timer_heap_init.
Proof.
  intros (l & fl & Hh). unfold ntt_timer_heap_deinit.
  destruct (@deinit_loop_ok _ _ plain_host h l fl Hh ltac:(done) l (S (Z.to_nat (size h))) h) as [Heq _].
  - done.
  - rewrite (ai_size _ _ (ti_array _ _ _ Hh)). lia.
  - by exists [].
  - rewrite Nat.sub_diag in Heq. change (Z.of_nat 0) with 0 in Heq. cbn [th_heap plain_host]. unfold id.
    by rewrite Heq, plain_destroy_all.
Qed.

Lemma queue_destroy_ok :
  s_dying s = true -> returns (queue_destroy w i) (fun w' => bounded w' -> service_inv w' hs).
Proof.
  intros Hdy. pose proof Hok as [Hg Hr Hk Href Hrn Hd Ht Hs Hu Hc Hy Hv]. pose proof (Hd Hdy) as Hz.
  destruct (dead_queue Hz) as (Htk & Hrun & Hf & Hsy & Ha & Hself & Hcl & Hho).
  pose proof (proj1 (si_bounded _ _ Hinv) i s Hi) as Hb0. simpl in Hb0.
  unfold queue_destroy, ntt_queue_deinit, ntt_queue_use_count, ntt_queue_empty.
  rewrite (get_slot_ok w i s Hi), bind_ok, Hz, (bool_decide_true (_ = [])) by done.
  rewrite !c_assert_true, !bind_ok by (done || by apply size_armed).
  rewrite plain_deinit, !bind_ok by done. apply returns_ok. intros Hb.
  rewrite u64_small in * by lia.
  eapply inv_slot; [done|done| | |done].
  - split; simpl; [lia|]. intros _. right. lia.
  - split; unfold registered; simpl; try done; try lia.
    + apply init_wf.
    + congruence.
    + unfold sync_ok. simpl. by rewrite Hsy.
Qed.
End teardown.

(** ** The kernel *)
Lemma fire_ok `{Platform} w hs :
  service_inv w hs ->
  service_inv (set_service (sv_with_fd (timerfd_fire (sv_fd (service w))) (service w)) w) hs.
Proof.
  intros Hinv. eapply inv_service; try apply Hinv; try done.
  - intros e He. by split; apply Hinv.
  - intros _. by right; left.
Qed.

Lemma deliver_ok `{Platform} w hs :
  service_inv w hs ->
  service_inv (set_service (sv_with_fd (timerfd_deliver (sv_fd (service w))) (service w)) w) (HRead :: hs).
Proof.
  intros Hinv. eapply inv_service; try apply Hinv; try done.
  - intros e He. by split; apply Hinv.
  - intros h e [->|Hh]%elem_of_cons He; [by apply elem_of_nil in He|by eapply Hinv].
  - intros e _ [?|(x & Hx & Hxe)]; [by left|right]. exists x. split; [by right|done].
  - intros _. right; right. rewrite total_cons. simpl. lia.
Qed.

(** ** The calls of clients *)
Section clients.
Context `{Platform} (w : world) (hs : list handler) (i : Z).
Hypotheses (Hinv : service_inv w hs).

Lemma create_ok :
  (forall s, qslots w !! i = Some s -> q_refs (s_queue s) = 0 /\ s_dying s = false) ->
  bounded (ntt_queue_create_in w i) -> service_inv (ntt_queue_create_in w i) hs.
Proof.
  intros Hfree Hb. unfold ntt_queue_create_in in *. cbv zeta in *.
  set (g := match qslots w !! i with Some s => s_generation s | None => 1 end) in *.
  set (s' := mk_qslot g false _) in *.
  assert (Hho : total (holds i) hs = 0%nat).
  { destruct (qslots w !! i) as [s|] eqn:Hi; [|by apply Hinv].
    by apply (dead_queue w hs i s Hinv Hi), Hfree. }
  assert (Hg : 1 <= g).
  { unfold g. destruct (qslots w !! i) as [s|] eqn:Hi; [|done]. apply (si_slots _ _ Hinv i s Hi). }
  assert (Hok : slot_ok 0 (entries_of w) hs i s').
  { split; unfold registered; simpl; try done; try lia. apply init_wf. }
  destruct (qslots w !! i) as [s|] eqn:Hi.
  - eapply inv_slot; [done|done| |done|done]. split; simpl; [done|]. by intros [? _].
  - pose proof Hinv as [Hs Hn Hh He Hd Ha Hf Hl Hc _]. split; try done.
    + intros j t [[<- <-]|[Hne Ht]]%set_slot_lookup; [done|by apply Hs].
    + intros j Ht. simpl in Ht. apply Hn. by apply lookup_insert_None in Ht as [Ht _].
    + eapply queue_wf_resolves; [|exact Hh]. intros j. apply resolves_set_slot.
    + intros e Hin. destruct (He e Hin) as (t & Ht & Hr). exists t. split; [|done].
      simpl. rewrite lookup_insert_ne; [done|]. intros ->. congruence.
    + intros h e Hh' Hhe. destruct (Hd h e Hh' Hhe) as [t Ht]. exists t.
      simpl. rewrite lookup_insert_ne; [done|]. intros ->. congruence.
Qed.

Context (s : slot).
Hypotheses (Hi : qslots w !! i = Some s).

Let Hok := si_slots w hs Hinv i s Hi.

Lemma user_code_facts :
  user_code (s_queue s) = true ->
  q_sync (s_queue s) = None /\ q_running (s_queue s) = true /\ q_refs (s_queue s) <> 0.
Proof.
  unfold user_code. intros Hu. destruct (q_sync (s_queue s)) eqn:Hsy; [done|].
  assert (Hrun : q_running (s_queue s) = true).
  { destruct (q_frames (s_queue s)) as [|[] ?]; done. }
  split_and!; [done|done|]. pose proof (run_tasks w hs i s Hinv Hi Hrun) as Htk.
  rewrite (so_refs _ _ _ _ _ Hok). unfold busy. rewrite decide_False by done. lia.
Qed.

Lemma client_holds_live : client_holds (s_queue s) -> q_refs (s_queue s) <> 0.
Proof.
  intros [Hc|Hu]; [|by apply user_code_facts]. rewrite (so_refs _ _ _ _ _ Hok). lia.
Qed.

Lemma client_acquire_ok :
  client_holds (s_queue s) ->
  returns (ntt_queue_acquire (set_slot i (upd (with_clients (S (q_clients (s_queue s)))) s) w) i)
    (fun w' => bounded w' -> service_inv w' hs).
Proof.
  intros Hh%client_holds_live. set (s1 := upd _ s).
  unfold ntt_queue_acquire, ntt_queue_use_count.
  rewrite (get_tqueue_ok _ i s1 (lookup_set_slot _ _ _) Hh), bind_ok.
  rewrite c_assert_true, bind_ok by (simpl; by destruct (Z.eqb_spec (q_refs (s_queue s)) 0)).
  rewrite set_slot_twice. apply returns_ok. intros Hb.
  pose proof Hok as [Hg Hr Hk Href Hrn Hd Ht Hs Hu Hc Hy Hv].
  eapply inv_slot; [done|done| | |done].
  - apply succeeds_live; [done|]. apply not_free. simpl. lia.
  - split; simpl; try done.
    + intros _. by apply Hk.
    + rewrite Href. unfold busy. simpl. lia.
    + intros Hdy. specialize (Hd Hdy). done.
    + intros _. by apply Hv.
Qed.

Lemma client_release_ok :
  (0 < q_clients (s_queue s))%nat ->
  returns (ntt_queue_release (set_slot i (upd (with_clients (pred (q_clients (s_queue s)))) s) w) i)
    (fun w' => bounded w' -> service_inv w' hs).
Proof.
  intros Hh. set (s1 := upd _ s). pose proof Hok as [Hg Hr Hk Href Hrn Hd Ht Hs Hu Hc Hy Hv].
  assert (Hok1 : slot_ok 1 (entries_of w) hs i s1).
  { split; try done. simpl. rewrite Href. unfold busy. simpl. lia. }
  destruct (release_ok 0 _ hs (set_slot i s1 w) i s1 (lookup_set_slot _ _ _) Hok1)
    as (s2 & -> & Hok2 & Hg2 & Hf & _).
  rewrite set_slot_twice. apply returns_ok. intros Hb. eapply inv_slot; [done|done| |done|done].
  by apply succeeds_live.
Qed.

Lemma client_push_ok :
  client_holds (s_queue s) ->
  returns (ntt_queue_push_task w i UserTask) (fun w' => bounded w' -> service_inv w' hs).
Proof.
  intros Hh%client_holds_live.
  destruct (push_task_ok 0 _ hs w i s UserTask Hi Hok Hh) as (s' & -> & Hok' & Hg & Hf & _).
  apply returns_ok. intros Hb. eapply inv_slot; [done|done| |done|done]. by apply succeeds_live.
Qed.

Lemma wakeup_at_ok deadline task :
  user_code (s_queue s) = true -> push_ok (q_timers (s_queue s)) -> task <> NULL ->
  returns (ntt_self_wakeup_at w i deadline task) (fun '(tag, w') => bounded w' -> service_inv w' hs).
Proof.
  intros (Hsy & Hrun & Hne)%user_code_facts Hp Ht. unfold ntt_self_wakeup_at.
  rewrite (get_tqueue_ok w i s Hi Hne), bind_ok.
  rewrite (c_assert_true (q_service _)), bind_ok by (by apply (so_service _ _ _ _ _ Hok)).
  rewrite c_assert_true, bind_ok by (by destruct (Z.eqb_spec task NULL)).
  eapply returns_bind; [apply push_entry_armed; [apply Hok|done|done]|].
  intros [tag h] (Hwf & _). apply returns_ok. intros Hb.
  eapply inv_local; [done|done|done|by eapply run_tasks| |done| |done].
  - intros (? & ? & ? & ?). congruence.
  - split_and!; [done|by right| | |done]; intros _.
    + right. apply orb_true_r.
    + by right; right; right.
Qed.

Lemma cancel_timer_ok tag :
  user_code (s_queue s) = true -> is_Some (armed (q_timers (s_queue s)) !! tag) ->
  returns (ntt_self_cancel_timer w i tag) (fun w' => bounded w' -> service_inv w' hs).
Proof.
  intros (Hsy & Hrun & Hne)%user_code_facts Harm. unfold ntt_self_cancel_timer.
  rewrite (get_tqueue_ok w i s Hi Hne), bind_ok.
  eapply returns_bind; [apply cancel_begin_ok; [apply Hok|done]|].
  intros [o h] ([task ->] & Hwf & Ha). apply returns_ok. intros Hb.
  eapply frame_step; try done.
  - by eapply shrinks_delete.
  - left. split_and!; [done|done|by right|done].
Qed.
End clients.

(** ** Every step keeps the invariant *)
Lemma keeps_inv `{Platform} hs (m : res world) w' :
  returns m (fun w' => bounded w' -> service_inv w' hs) -> m = Ok w' -> bounded w' -> service_inv w' hs.
Proof. intros Hm Heq. exact (returns_inv _ _ _ Hm Heq). Qed.

Lemma service_step_inv `{Platform} w hs w' hs' :
  service_inv w hs -> service_step (w, hs) (w', hs') -> bounded w' -> service_inv w' hs'.
Proof.
  intros Hinv Hstep Hb. inversion Hstep; subst; simplify_eq.
  - eapply keeps_inv; [by eapply exec_queue_ok|done|done].
  - eapply keeps_inv; [by eapply server_leave_ok|done|done].
  - eapply keeps_inv; [by eapply queue_destroy_ok|done|done].
  - eapply service_inv_perm in Hinv; [|by rewrite <- Permutation_middle].
    eapply service_inv_perm; [apply Permutation_app_swap_app|].
    pose proof (exec_handler_ok _ _ _ Hinv ltac:(done)) as Hk.
    exact (returns_inv _ _ _ Hk ltac:(done) Hb).
  - by apply fire_ok.
  - by apply deliver_ok.
Qed.

Lemma user_step_inv `{Platform} w hs w' hs' :
  service_inv w hs -> user_step (w, hs) (w', hs') -> bounded w' -> service_inv w' hs'.
Proof.
  intros Hinv Hstep Hb. inversion Hstep; subst; simplify_eq.
  - by apply create_ok.
  - eapply keeps_inv; [by eapply client_acquire_ok|done|done].
  - eapply keeps_inv; [by eapply client_release_ok|done|done].
  - eapply keeps_inv; [by eapply client_push_ok|done|done].
  - exact (returns_inv _ _ _ (wakeup_at_ok w _ i Hinv s ltac:(done) deadline task ltac:(done) ltac:(done) ltac:(done)) ltac:(done) Hb).
  - exact (returns_inv _ _ _ (wakeup_at_ok w _ i Hinv s ltac:(done) _ task ltac:(done) ltac:(done) ltac:(done)) ltac:(done) Hb).
  - eapply keeps_inv; [by eapply cancel_timer_ok|done|done].
  - destruct Hinv as [Hs Hn Hh He Hd Ha Hf Hl Hc _]. split; try done. simpl. lia.
Qed.

Lemma fresh_service_inv `{Platform} t : 1 <= t < UINT64_MAX -> service_inv (fresh_service t).1 [].
Proof.
  intros Ht. split; simpl; try done.
  - exists []. split; [split; simpl; [by exists []|done|done|by left]| |].
    + intros p x px Hp _ Hx. by rewrite lookup_nil in Hx.
    + by intros e ?%elem_of_nil.
  - by intros e ?%elem_of_nil.
  - by intros h e ?%elem_of_nil.
  - by intros e ?%elem_of_nil.
Qed.

Lemma service_reachable_inv `{Platform} w hs : reachable w hs -> service_inv w hs.
Proof.
  intros (t & Ht & Hs). pose proof (fresh_service_inv t Ht) as H0.
  remember (fresh_service t) as c eqn:Ec. remember (w, hs) as d eqn:Ed.
  assert (Hgen : service_inv c.1 c.2) by (by subst). clear Ec H0 Ht.
  enough (service_inv d.1 d.2) by (by subst).
  clear Ed. induction Hs as [|[w1 h1] [w2 h2] z [[Hstep|Hstep] Hb] _ IH]; [done| |]; apply IH; simpl in *.
  - by eapply service_step_inv.
  - by eapply user_step_inv.
Qed.
