(* ===== verification/TimerServiceProps.v ===== *)
(** * The timer service: properties

    What the timers of queues promise, in every state that the system reaches,
    with witnesses on a schedule that is run by computation. *)

From stdpp Require Import base numbers list gmap.
From Stdlib Require Import ZArith Lia.
From S2P Require Import Prelude.
From S2P Require Import TimerHeap.
From S2P Require Import TimerHeapOps.
From S2P Require Import TimerHeapSpec.
From S2P Require Import QueueHeap.
From S2P Require Import QueueHeapArray.
From S2P Require Import QueueHeapSpec.
From S2P Require Import TimerService.
From S2P Require Import TimerServiceInv.
From S2P Require Import TimerServiceSteps.
From S2P Require Import TimerServiceExec.

#[local] Open Scope Z_scope.

Implicit Types (w : world) (hs : list handler) (i j : Z) (s : slot).

(** ** Time *)
Lemma arm_value_ns d : timespec_ns (arm_value d) = if decide (d = 0) then 1 else d.
Proof.
  assert (Hd : d / NSEC_PER_SEC * NSEC_PER_SEC + d mod NSEC_PER_SEC = d).
  { pose proof (Z.div_mod d NSEC_PER_SEC ltac:(done)). lia. }
  unfold timespec_ns, arm_value. simpl. destruct (decide (d = 0)) as [->|Hne]; [done|].
  destruct (Z.eqb_spec (d / NSEC_PER_SEC) 0) as [Hq|], (Z.eqb_spec (d mod NSEC_PER_SEC) 0) as [Hr|]; simpl; lia.
Qed.

Section rest.
Context `{Platform}.

(** ** A state in which nothing can move *)
Definition quiet w hs : Prop := forall c, ~ service_step (w, hs) c.

Lemma quiet_handlers w hs :
  (forall n, alloc_ok n = true) -> service_inv w hs -> quiet w hs -> hs = [].
Proof.
  intros Hal Hinv Hq.
  assert (Hno : forall h, h ∈ hs -> handler_ready w h = false).
  { intros h (l1 & l2 & ->)%list_elem_of_split. destruct (handler_ready w h) eqn:Hr; [exfalso|done].
    eapply service_inv_perm in Hinv; [|by rewrite <- Permutation_middle].
    destruct (returns_total _ _ Hal (exec_handler_ok w h _ Hinv Hr)) as ([h' w'] & Heq & _).
    eapply Hq. by eapply step_handler. }
  destruct hs as [|h hs]; [done|]. exfalso.
  assert (Hlk : sv_lock (service w) = true).
  { specialize (Hno h ltac:(by left)). destruct h; simpl in Hno; try done. by destruct (sv_lock (service w)). }
  pose proof (si_lock _ _ Hinv) as Hl. rewrite Hlk in Hl.
  destruct (total_pos has_lock (h :: hs)) as (x & Hx & Hpos); [by rewrite Hl; simpl; lia|].
  specialize (Hno x Hx). destruct x; simpl in *; try done; lia.
Qed.

Lemma quiet_queue w i s :
  (forall n, alloc_ok n = true) -> service_inv w [] -> quiet w [] -> qslots w !! i = Some s ->
  q_tasks (s_queue s) = [] /\ q_running (s_queue s) = false /\ q_frames (s_queue s) = [] /\
  q_sync (s_queue s) = None /\ q_leaving (s_queue s) = 0%nat /\ s_dying s = false.
Proof.
  intros Hal Hinv Hq Hi. pose proof (si_slots _ _ Hinv i s Hi) as Hok.
  assert (Hdy : s_dying s = false).
  { destruct (s_dying s) eqn:Hd; [exfalso|done].
    destruct (returns_total _ _ Hal (queue_destroy_ok w [] i s Hinv Hi Hd)) as (w' & Heq & _).
    eapply Hq. by eapply step_destroy. }
  assert (Hlv : q_leaving (s_queue s) = 0%nat).
  { destruct (decide (0 < q_leaving (s_queue s))%nat) as [Hd|]; [exfalso|lia].
    destruct (returns_total _ _ Hal (server_leave_ok w [] i s Hinv Hi Hd)) as (w' & Heq & _).
    eapply Hq. by eapply step_leave. }
  destruct (decide (q_refs (s_queue s) = 0)) as [Hz|Hne].
  { by destruct (dead_queue w [] i s Hinv Hi Hz) as (? & ? & ? & ? & _). }
  destruct (queue_ready w (s_queue s)) eqn:Hr.
  { exfalso. destruct (returns_total _ _ Hal (exec_queue_ok w [] i s Hinv Hi Hne Hr)) as (w' & Heq & _).
    eapply Hq. by eapply step_queue. }
  assert (Hlk : sv_lock (service w) = false).
  { pose proof (si_lock _ _ Hinv) as Hl. by destruct (sv_lock (service w)). }
  unfold queue_ready in Hr. pose proof (so_run _ _ _ _ _ Hok) as Hrn.
  destruct (q_sync (s_queue s)) as [[]|] eqn:Hsy; try done; [by rewrite Hlk in Hr|].
  apply orb_false_iff in Hr as [Hrun He%negb_false_iff%bool_decide_eq_true].
  rewrite Hrun in Hrn. destruct Hrn as [Hf _]. done.
Qed.

Lemma quiet_fd w :
  service_inv w [] -> quiet w [] -> sv_armed (service w) < UINT64_MAX -> clock w < sv_armed (service w).
Proof.
  intros Hinv Hq Hlt. pose proof (si_clock _ _ Hinv) as Hc.
  destruct (si_fd _ _ Hinv Hlt) as [Hat|[[_ He]|Hw]].
  - destruct (decide (timespec_ns (arm_value (sv_armed (service w))) <= clock w)) as [Hle|Hgt].
    + exfalso. eapply Hq. by eapply step_fire.
    + rewrite arm_value_ns in Hgt. case_decide; lia.
  - exfalso. eapply Hq. by eapply step_deliver.
  - unfold total in Hw. simpl in Hw. lia.
Qed.

(** What the invariant says about an armed timer of a queue at rest. *)
Lemma idle_covered w hs i s tag tm :
  service_inv w hs -> qslots w !! i = Some s -> q_running (s_queue s) = false ->
  armed (q_timers (s_queue s)) !! tag = Some tm ->
  q_self_ref (s_queue s) = true /\
  ((exists e, known (entries_of w) hs e /\ qe_index e = i /\ stands (ntt_queue_timer_generation w) e /\
      qe_deadline e <= tm_deadline tm) \/ wake_pending hs i (s_queue s)).
Proof.
  intros Hinv Hi Hrun Htm. pose proof (si_slots _ _ Hinv i s Hi) as [Hg Hr Hk Href Hrn Hd Ht Hs Hu Hc Hy Hv].
  rewrite Hrun in Hrn. destruct Hrn as [Hf Hsy].
  assert (Ha : armed (q_timers (s_queue s)) <> ∅) by (intros Hz; by rewrite Hz in Htm).
  split.
  { destruct (Hs Ha) as [?|He]; [done|]. unfold sync_early in He. by rewrite Hsy in He. }
  assert (Hne : q_refs (s_queue s) <> 0).
  { intros Hz. by destruct (dead_queue w hs i s Hinv Hi Hz) as (_ & _ & _ & _ & ? & _). }
  destruct (Hc Ha) as [[Hreg Hn]|[Hw|[Hx|Hx]]].
  - left. destruct (Hk Hne Hreg) as [(? & ? & ? & ?)|Hkn]; [congruence|]. eexists. split_and!; [exact Hkn|done| |].
    + apply (stands_iff w hs); [done|]. by exists s.
    + simpl. by apply (Hn tag).
  - by right.
  - unfold draining in Hx. by rewrite Hf in Hx.
  - unfold sync_going in Hx. by rewrite Hsy in Hx.
Qed.

Lemma quiet_not_due w hs i s tag tm :
  (forall n, alloc_ok n = true) -> service_inv w hs -> quiet w hs -> qslots w !! i = Some s ->
  armed (q_timers (s_queue s)) !! tag = Some tm -> clock w < tm_deadline tm.
Proof.
  intros Hal Hinv Hq Hi Htm. assert (hs = []) as -> by (by eapply quiet_handlers).
  destruct (quiet_queue w i s Hal Hinv Hq Hi) as (Htk & Hrun & _).
  destruct (idle_covered w [] i s tag tm Hinv Hi Hrun Htm) as [_ [(e & He & _ & _ & Hle)|[Hw|Hw]]].
  - destruct He as [He|(h & Hh & _)]; [|by apply elem_of_nil in Hh].
    pose proof (si_armed _ _ Hinv e He) as Ha. pose proof (si_clock _ _ Hinv) as Hc.
    destruct (decide (sv_armed (service w) < UINT64_MAX)) as [Hlt|]; [|lia].
    pose proof (quiet_fd w Hinv Hq Hlt). lia.
  - unfold waiting in Hw. rewrite Hrun, Htk in Hw. by apply elem_of_nil in Hw.
  - unfold total in Hw. simpl in Hw. lia.
Qed.
End rest.

Section props.
Context `{Platform}.

(** C4.  No timer is missed: when neither the library nor the timerfd can make
    a step, no armed timer of any queue is due, no handler is running and every
    task has been run. *)
Theorem timers_never_missed w hs :
  (forall n, alloc_ok n = true) -> reachable w hs -> (forall c, ~ service_step (w, hs) c) ->
  hs = [] /\ forall i s, qslots w !! i = Some s ->
    q_tasks (s_queue s) = [] /\
    forall tag tm, armed (q_timers (s_queue s)) !! tag = Some tm -> clock w < tm_deadline tm.
Proof.
  intros Hal Hinv%service_reachable_inv Hq. split; [by eapply quiet_handlers|]. intros i s Hi. split.
  - assert (hs = []) as -> by (by eapply quiet_handlers). by destruct (quiet_queue w i s Hal Hinv Hq Hi).
  - intros tag tm Htm. by eapply quiet_not_due.
Qed.

(** C24.  A timer of a queue that is not running is always covered: the service
    has, in its heap or in the hands of its handler, an entry of the queue with
    the current generation and a deadline that is not later; or the queue is going
    to run its timers, because the task for it is queued or the handler is about
    to queue it. *)
Theorem timer_registration_covers w hs i s tag tm :
  reachable w hs -> qslots w !! i = Some s -> q_running (s_queue s) = false ->
  armed (q_timers (s_queue s)) !! tag = Some tm ->
  (exists e, (e ∈ qentries (sv_queues (service w)) \/ exists h, h ∈ hs /\ e ∈ held h) /\ qe_index e = i /\
     qe_generation e = s_generation s /\ qe_deadline e <= tm_deadline tm) \/
  TimersTask ∈ q_tasks (s_queue s) \/ exists h, h ∈ hs /\ i ∈ batch_of h.
Proof.
  intros Hinv%service_reachable_inv Hi Hrun Htm.
  destruct (idle_covered w hs i s tag tm Hinv Hi Hrun Htm) as [_ [(e & He & Hei & Hst & Hle)|[Hw|Hw]]].
  - left. exists e. split_and!; [done|done| |done].
    apply (stands_iff w hs) in Hst as (s' & Hs' & ->); [|done]. rewrite Hei in Hs'. congruence.
  - right; left. unfold waiting in Hw. by rewrite Hrun in Hw.
  - right; right. destruct (total_pos _ _ Hw) as (h & Hh & Hp). exists h. split; [done|].
    destruct (total_pos _ _ Hp) as (j & Hj & Hjp). case_decide; [by subst|lia].
Qed.


(** C26.  The references of a queue are counted exactly, and the one that the
    queue holds to itself is there as long as a timer is armed and no longer: when
    its code does not run, the queue holds it exactly when a timer is armed, so
    that armed timers keep their queue alive and a queue without timers and users
    goes. *)
Theorem timer_self_reference w hs i s :
  reachable w hs -> qslots w !! i = Some s ->
  q_refs (s_queue s) = Z.of_nat (q_clients (s_queue s) + busy (s_queue s) + q_leaving (s_queue s) +
    Nat.b2n (q_self_ref (s_queue s)) + total (holds i) hs) /\
  (q_running (s_queue s) = false ->
   (q_self_ref (s_queue s) = true <-> armed (q_timers (s_queue s)) <> ∅)).
Proof.
  intros Hinv%service_reachable_inv Hi. pose proof (si_slots _ _ Hinv i s Hi) as [Hg Hr Hk Href Hrn Hd Ht Hs Hu Hc Hy Hv].
  split; [by rewrite Href, Nat.add_0_r|]. intros Hrun. rewrite Hrun in Hrn. destruct Hrn as [Hf Hsy]. split.
  - intros Hsf. destruct (Hu Hsf) as [?|Hx]; [done|]. unfold unref_due in Hx. by rewrite Hf, Hsy in Hx.
  - intros Ha. destruct (Hs Ha) as [?|Hx]; [done|]. unfold sync_early in Hx. by rewrite Hsy in Hx.
Qed.

(** Once every queue has been given back and no handler runs, no registration
    stands and nobody holds the lock: [ntt_timer_service_deinit] meets its
    assertion and leaves the heap of registrations without its array. *)
Theorem service_deinit_safe w :
  reachable w [] ->
  (forall i s, qslots w !! i = Some s -> q_refs (s_queue s) = 0 /\ s_dying s = false) ->
  exists self, ntt_timer_service_deinit w = Ok self /\ sv_queues self = ntt_queue_heap_init.
Proof.
  intros Hinv%service_reachable_inv Hfree. pose proof (si_heap _ _ Hinv) as (l & Hq).
  unfold ntt_timer_service_deinit. rewrite (qhas_live_ok _ _ _ Hq), bind_ok. rewrite c_assert_true.
  { pose proof (si_lock _ _ Hinv) as Hlk. rewrite bind_ok. simpl. destruct (sv_lock (service w)); [done|]. by eexists. }
  rewrite negb_involutive. apply bool_decide_eq_true.
  destruct (filter _ l) as [|e es] eqn:Hf; [done|exfalso].
  assert (He : e ∈ e :: es) by (by left). rewrite <- Hf in He. apply list_elem_of_filter in He as [Hst He].
  apply (stands_iff w []) in Hst as (s & Hs & Heq); [|done].
  destruct (si_entries _ _ Hinv e) as (s' & Hs' & _ & Hlt).
  { unfold entries_of. by rewrite (qentries_eq _ _ (qi_array _ _ _ Hq)). }
  assert (s' = s) as -> by congruence. specialize (Hlt (Hfree _ _ Hs)). lia.
Qed.

(** A queue whose last reference is gone has no timer armed, so that
    [ntt_queue_deinit] finds its heap empty and takes it down. *)
Lemma dying_timers w hs i s :
  reachable w hs -> qslots w !! i = Some s -> s_dying s = true ->
  ntt_timer_heap_empty (q_timers (s_queue s)) = true /\
  @ntt_timer_heap_deinit _ _ plain_host (q_timers (s_queue s)) = Ok ntt_timer_heap_init.
Proof.
  intros Hinv%service_reachable_inv Hi Hdy. pose proof (si_slots _ _ Hinv i s Hi) as Hok.
  pose proof (so_dying _ _ _ _ _ Hok Hdy) as Hz.
  destruct (dead_queue w hs i s Hinv Hi Hz) as (_ & _ & _ & _ & Ha & _).
  split; [by apply size_armed; [apply Hok|]|]. apply plain_deinit. apply Hok.
Qed.

(** Times survive the conversions: [ntt_now_ns] is the nanosecond count of
    the clock, and the time the timerfd is asked for is the deadline, or one
    nanosecond for a deadline of zero, which would disarm it. *)
Theorem timer_time_roundtrip t d :
  0 <= t < 2 ^ 64 -> 0 <= d ->
  ntt_now_ns t = t /\ timespec_ns (arm_value d) = Z.max 1 d /\
  0 <= tv_nsec (arm_value d) < NSEC_PER_SEC.
Proof.
  intros Ht Hd. assert (Hdm : t / NSEC_PER_SEC * NSEC_PER_SEC + t mod NSEC_PER_SEC = t).
  { pose proof (Z.div_mod t NSEC_PER_SEC ltac:(done)). lia. }
  pose proof (Z.mod_pos_bound t NSEC_PER_SEC ltac:(done)).
  pose proof (Z.mod_pos_bound d NSEC_PER_SEC ltac:(done)).
  assert (0 <= t / NSEC_PER_SEC <= t).
  { split; [apply Z.div_pos|apply Z.div_le_upper_bound]; unfold NSEC_PER_SEC in *; lia. }
  split_and!.
  - unfold ntt_now_ns, clock_gettime. simpl. unfold NSEC_PER_SEC in *. no_wrap. done.
  - rewrite arm_value_ns. case_decide; lia.
  - unfold arm_value. destruct (_ && _); simpl; unfold NSEC_PER_SEC in *; lia.
  - unfold arm_value. destruct (_ && _); simpl; unfold NSEC_PER_SEC in *; lia.
Qed.
End props.

(** ** Running a schedule *)
Inductive move : Type :=
  | Create (i : Z)
  | Push (i : Z)
  | Unref (i : Z)
  | WakeupAt (i deadline : Z) (task : ptr)
  | Cancel (i : Z) (tag : ntt_timer_tag)
  | Run (i : Z)
  | Leave (i : Z)
  | Destroy (i : Z)
  | Handle
  | Fire
  | Deliver
  | Tick (t : Z).

Definition holdsb (q : tqueue) : bool := bool_decide (0 < q_clients q)%nat || user_code q.

Definition in_slot {A} (w : world) (i : Z) (P : slot -> bool) (r : res A) : option A :=
  match qslots w !! i with
  | Some s => if P s then match r with Ok a => Some a | Err _ => None end else None
  | None => None
  end.

Section play.
Context `{Platform}.

Definition play (m : move) (c : config) : option config :=
  let '(w, hs) := c in
  let fd := sv_fd (service w) in
  match m with
  | Create i =>
      match qslots w !! i with
      | None => Some (ntt_queue_create_in w i, hs)
      | Some s => if (q_refs (s_queue s) =? 0) && negb (s_dying s)
                  then Some (ntt_queue_create_in w i, hs) else None
      end
  | Push i =>
      w ← in_slot w i (fun s => holdsb (s_queue s)) (ntt_queue_push_task w i UserTask); Some (w, hs)
  | Unref i =>
      s ← qslots w !! i;
      w ← in_slot w i (fun s => bool_decide (0 < q_clients (s_queue s))%nat)
        (ntt_queue_release (set_slot i (upd (with_clients (pred (q_clients (s_queue s)))) s) w) i);
      Some (w, hs)
  | WakeupAt i d task =>
      '(_, w) ← in_slot w i (fun s => user_code (s_queue s) && bool_decide (push_ok (q_timers (s_queue s))) &&
          negb (task =? NULL) && (0 <=? d) && (d <? 2 ^ 64)) (ntt_self_wakeup_at w i d task);
      Some (w, hs)
  | Cancel i tag =>
      w ← in_slot w i (fun s => user_code (s_queue s) &&
          bool_decide (is_Some (armed (q_timers (s_queue s)) !! tag))) (ntt_self_cancel_timer w i tag);
      Some (w, hs)
  | Run i =>
      w ← in_slot w i (fun s => negb (q_refs (s_queue s) =? 0) && queue_ready w (s_queue s)) (exec_queue w i);
      Some (w, hs)
  | Leave i =>
      w ← in_slot w i (fun s => bool_decide (0 < q_leaving (s_queue s))%nat) (server_leave w i); Some (w, hs)
  | Destroy i => w ← in_slot w i s_dying (queue_destroy w i); Some (w, hs)
  | Handle =>
      match hs with
      | h :: hs => if handler_ready w h then
          match exec_handler h w with Ok (h', w') => Some (w', option_list h' ++ hs) | Err _ => None end
          else None
      | [] => None
      end
  | Fire =>
      match tfd_at fd with
      | Some t => if t <=? clock w then Some (set_service (sv_with_fd (timerfd_fire fd) (service w)) w, hs) else None
      | None => None
      end
  | Deliver =>
      if tfd_edge fd then Some (set_service (sv_with_fd (timerfd_deliver fd) (service w)) w, HRead :: hs) else None
  | Tick t => if (clock w <=? t) && (t <? UINT64_MAX) then Some (mk_world (qslots w) (service w) t, hs) else None
  end.

Definition boundedb (w : world) : bool :=
  bool_decide (map_Forall (fun _ s => s_generation s < 2 ^ 32) (qslots w)) &&
  (qh_size (sv_queues (service w)) <? MAX_REGISTRATIONS).

Fixpoint plays (ms : list move) (c : config) : option config :=
  match ms with
  | [] => Some c
  | m :: ms => match play m c with
               | Some c => if boundedb c.1 then plays ms c else None
               | None => None
               end
  end.

Lemma in_slot_inv {A} w i P (r : res A) a :
  in_slot w i P r = Some a -> exists s, qslots w !! i = Some s /\ P s = true /\ r = Ok a.
Proof.
  unfold in_slot. destruct (qslots w !! i) as [s|]; [|done]. destruct (P s) eqn:HP; [|done].
  destruct r; [|done]. naive_solver.
Qed.

Lemma holdsb_holds q : holdsb q = true -> client_holds q.
Proof. unfold holdsb. intros [Hc%bool_decide_eq_true|Hc]%orb_true_iff; [by left|by right]. Qed.

Lemma play_step m c c' : play m c = Some c' -> service_step c c' \/ user_step c c'.
Proof.
  destruct c as [w hs]. unfold play. destruct m; intros Hp.
  - right. destruct (qslots w !! i) as [s|] eqn:Hi.
    + destruct (_ && _) eqn:Hb; [|done]. injection Hp as <-. apply client_create.
      intros s' Hs'. assert (s' = s) as -> by congruence.
      apply andb_true_iff in Hb as [?%Z.eqb_eq ?%negb_true_iff]. done.
    + injection Hp as <-. apply client_create. intros s Hs. congruence.
  - apply bind_Some in Hp as (w' & (s & Hi & Hh & Heq)%in_slot_inv & [= <-]). right.
    eapply client_push; eauto using holdsb_holds.
  - apply bind_Some in Hp as (s0 & Hs0 & Hp).
    apply bind_Some in Hp as (w' & (s & Hi & Hh%bool_decide_eq_true & Heq)%in_slot_inv & [= <-]). right.
    assert (s0 = s) as -> by congruence. by eapply client_release.
  - apply bind_Some in Hp as ([tag w'] & (s & Hi & Hh & Heq)%in_slot_inv & [= <-]). right.
    apply andb_true_iff in Hh as [Hh Hd2%Z.ltb_lt]. apply andb_true_iff in Hh as [Hh Hd1%Z.leb_le].
    apply andb_true_iff in Hh as [Hh Ht%negb_true_iff%Z.eqb_neq].
    apply andb_true_iff in Hh as [Hh Hok%bool_decide_eq_true].
    by eapply client_wakeup_at.
  - apply bind_Some in Hp as (w' & (s & Hi & Hh & Heq)%in_slot_inv & [= <-]). right.
    apply andb_true_iff in Hh as [Hh Ha%bool_decide_eq_true]. by eapply client_cancel.
  - apply bind_Some in Hp as (w' & (s & Hi & Hh & Heq)%in_slot_inv & [= <-]). left.
    apply andb_true_iff in Hh as [Hh%negb_true_iff%Z.eqb_neq Hr]. by eapply step_queue.
  - apply bind_Some in Hp as (w' & (s & Hi & Hh%bool_decide_eq_true & Heq)%in_slot_inv & [= <-]). left.
    by eapply step_leave.
  - apply bind_Some in Hp as (w' & (s & Hi & Hh & Heq)%in_slot_inv & [= <-]). left. by eapply step_destroy.
  - destruct hs as [|h hs]; [done|]. destruct (handler_ready w h) eqn:Hr; [|done].
    destruct (exec_handler h w) as [[h' w']|] eqn:Heq; [|done]. injection Hp as <-. left.
    by apply (step_handler w [] h hs).
  - destruct (tfd_at _) as [t|] eqn:Ht; [|done]. destruct (Z.leb_spec t (clock w)); [|done].
    injection Hp as <-. left. by eapply step_fire.
  - destruct (tfd_edge _) eqn:Ht; [|done]. injection Hp as <-. left. by apply step_deliver.
  - destruct (_ && _) eqn:Hb; [|done]. injection Hp as <-.
    apply andb_true_iff in Hb as [?%Z.leb_le ?%Z.ltb_lt]. right. by apply client_tick.
Qed.

Lemma service_plays_steps ms : forall c c', plays ms c = Some c' -> rtc any_step c c'.
Proof.
  induction ms as [|m ms IH]; intros c c' Heq; simpl in Heq; [by injection Heq as ->|].
  destruct (play m c) as [c1|] eqn:Hp; [|done]. destruct (boundedb c1.1) eqn:Hb; [|done].
  eapply rtc_l; [|by apply IH]. split; [by eapply play_step|].
  apply andb_true_iff in Hb as [Hb1%bool_decide_eq_true Hb2%Z.ltb_lt]. done.
Qed.
End play.

(** Whether nothing can move. *)
Definition slot_quiet (w : world) (s : slot) : bool :=
  ((q_refs (s_queue s) =? 0) || negb (queue_ready w (s_queue s))) &&
  bool_decide (q_leaving (s_queue s) = 0%nat) && negb (s_dying s).

Definition is_quiet (c : config) : bool :=
  bool_decide (c.2 = [] /\ map_Forall (fun _ s => slot_quiet c.1 s = true) (qslots c.1)) &&
  negb (tfd_edge (sv_fd (service c.1))) &&
  match tfd_at (sv_fd (service c.1)) with Some t => clock c.1 <? t | None => true end.

Lemma is_quiet_quiet `{Platform} c : is_quiet c = true -> quiet c.1 c.2.
Proof.
  unfold is_quiet. intros Hq. apply andb_true_iff in Hq as [Hq Hat].
  apply andb_true_iff in Hq as [[Hhs Hs]%bool_decide_eq_true Hed%negb_true_iff].
  assert (Hslot : forall i s, qslots c.1 !! i = Some s -> (q_refs (s_queue s) <> 0 -> queue_ready c.1 (s_queue s) = false) /\
    q_leaving (s_queue s) = 0%nat /\ s_dying s = false).
  { intros i s Hi. specialize (Hs i s Hi). simpl in Hs. unfold slot_quiet in Hs.
    apply andb_true_iff in Hs as [Hs Hdy%negb_true_iff]. apply andb_true_iff in Hs as [Hs Hl%bool_decide_eq_true].
    split_and!; [|done|done]. intros Hne. apply orb_true_iff in Hs as [?%Z.eqb_eq|?%negb_true_iff]; done. }
  destruct c as [w hs]. simpl in *. intros c' Hstep. inversion Hstep; subst; simplify_eq.
  - destruct (Hslot i s ltac:(done)) as (Hr & _). rewrite Hr in *; done.
  - destruct (Hslot i s ltac:(done)) as (_ & ? & _). lia.
  - destruct (Hslot i s ltac:(done)) as (_ & _ & ?). congruence.
  - by destruct l1.
  - destruct (tfd_at _) as [t'|]; simplify_eq. apply Z.ltb_lt in Hat. lia.
  - congruence.
Qed.

Module TimerServiceExample.
#[local] Instance machine : Platform := {| ndebug := false; alloc_ok := fun _ => true |}.

(** A queue is created, its task arms timers at 200 and at 100. *)
Definition arm_moves : list move :=
  [Create 0; Push 0; Run 0; WakeupAt 0 200 9] ++ replicate 4 (Run 0) ++ [WakeupAt 0 100 7] ++ replicate 6 (Run 0) ++
  [Leave 0; Unref 0].

(** Time passes, the timerfd wakes the handler, which wakes the queue. *)
Definition fire_moves (t : Z) : list move := [Tick t; Fire; Deliver] ++ replicate 12 Handle.

(** The queue runs the timer at 100 and registers the one at 200. *)
Definition run_moves : list move := replicate 10 (Run 0) ++ [Leave 0].

(** The last timer runs and the queue goes. *)
Definition end_moves : list move := fire_moves 250 ++ replicate 8 (Run 0) ++ [Leave 0; Destroy 0].

Definition after (ms : list move) : config := default (fresh_service 5) (plays ms (fresh_service 5)).

Lemma timers_after_reachable ms c : plays ms (fresh_service 5) = Some c -> reachable c.1 c.2.
Proof.
  intros Heq. exists 5. split; [done|]. rewrite <- surjective_pairing. exact (service_plays_steps ms _ _ Heq).
Qed.

Definition armed_two : config := after arm_moves.
Definition settled : config := after (arm_moves ++ fire_moves 150 ++ run_moves).
Definition gone : config := after (arm_moves ++ fire_moves 150 ++ run_moves ++ end_moves).

(** The last timer has run and the last reference is gone. *)
Definition dying : config :=
  after (arm_moves ++ fire_moves 150 ++ run_moves ++ fire_moves 250 ++ replicate 8 (Run 0) ++ [Leave 0]).

Lemma dying_reachable : reachable dying.1 dying.2.
Proof.
  apply (timers_after_reachable
    (arm_moves ++ fire_moves 150 ++ run_moves ++ fire_moves 250 ++ replicate 8 (Run 0) ++ [Leave 0])). by vm_compute.
Qed.


Lemma armed_two_reachable : reachable armed_two.1 armed_two.2.
Proof. apply (timers_after_reachable arm_moves). by vm_compute. Qed.

Lemma settled_reachable : reachable settled.1 settled.2.
Proof. apply (timers_after_reachable (arm_moves ++ fire_moves 150 ++ run_moves)). by vm_compute. Qed.

Lemma gone_reachable : reachable gone.1 gone.2.
Proof. apply (timers_after_reachable (arm_moves ++ fire_moves 150 ++ run_moves ++ end_moves)). by vm_compute. Qed.

(** The slot of the queue and its first timer in a state of the schedule. *)
Definition slot0 (c : config) : slot := default (mk_qslot 0 false ntt_queue_init) (qslots c.1 !! 0).
Definition tag1 : ntt_timer_tag := mk_tag 1 1.
Definition timer_at (c : config) (tag : ntt_timer_tag) : timer :=
  default (mk_timer 0 0 0) (armed (q_timers (s_queue (slot0 c))) !! tag).

Lemma timers_never_missed_witness :
  settled.2 = [] /\ clock settled.1 = 150 /\
  exists tag tm, armed (q_timers (s_queue (slot0 settled))) !! tag = Some tm /\ clock settled.1 < tm_deadline tm.
Proof.
  destruct (timers_never_missed settled.1 settled.2) as [Hhs Hs].
  { done. }
  { exact settled_reachable. }
  { apply is_quiet_quiet. by vm_compute. }
  split; [exact Hhs|]. split; [by vm_compute|].
  assert (Hi : qslots settled.1 !! 0 = Some (slot0 settled)) by (by vm_compute).
  exists (mk_tag 0 1), (timer_at settled (mk_tag 0 1)).
  assert (Ht : armed (q_timers (s_queue (slot0 settled))) !! mk_tag 0 1 = Some (timer_at settled (mk_tag 0 1)))
    by (by vm_compute).
  split; [exact Ht|]. exact (proj2 (Hs 0 _ Hi) _ _ Ht).
Defined.

Lemma timer_registration_covers_witness :
  exists e, e ∈ qentries (sv_queues (service armed_two.1)) /\ qe_index e = 0 /\ qe_deadline e <= 100.
Proof.
  destruct (timer_registration_covers armed_two.1 armed_two.2 0 (slot0 armed_two) tag1 (timer_at armed_two tag1))
    as [(e & He & Hei & _ & Hle)|[Ht|(h & Hh & _)]].
  - exact armed_two_reachable.
  - by vm_compute.
  - by vm_compute.
  - by vm_compute.
  - exists e. split; [|split; [exact Hei|by vm_compute in Hle |- *]].
    destruct He as [He|(h & Hh & _)]; [exact He|]. vm_compute in Hh. by apply elem_of_nil in Hh.
  - vm_compute in Ht. by apply elem_of_nil in Ht.
  - vm_compute in Hh. by apply elem_of_nil in Hh.
Defined.


Lemma timer_self_reference_witness :
  q_clients (s_queue (slot0 armed_two)) = 0%nat /\ q_self_ref (s_queue (slot0 armed_two)) = true /\
  q_refs (s_queue (slot0 armed_two)) = 1.
Proof.
  destruct (timer_self_reference armed_two.1 armed_two.2 0 (slot0 armed_two) armed_two_reachable) as [Hr Hs];
    [by vm_compute|].
  split; [by vm_compute|]. split; [apply Hs; by vm_compute|]. rewrite Hr. by vm_compute.
Defined.

Lemma timer_time_roundtrip_witness :
  ntt_now_ns 1234567890123 = 1234567890123 /\ timespec_ns (arm_value 0) = 1.
Proof.
  destruct (timer_time_roundtrip 1234567890123 0) as (Hn & Ha & _); [lia|lia|].
  split; [exact Hn|exact Ha].
Defined.
End TimerServiceExample.
