(* ===== verification/Worker.v ===== *)
(** * Workers and the life of the loop: data and operations

    Translates [src/worker.c] and the part of [src/loop.c] that starts, stops and
    synchronises the workers: the meeting of the workers at the start, the local
    queue of a worker and the signal that makes it look there, references to
    workers, the stop task, barriers, and the end of the loop.  A worker lives on
    the stack of its thread and the loop in memory that is freed at the end; using
    either after that is a fault.  What a worker does in its service callback
    ([Queue], [Event]) is code around this part: it may call in here at any time.
    A call that takes several steps is a [caller]; it goes on independently of
    the thread that made it, which only adds interleavings. *)

From stdpp Require Import base numbers list gmap.
From Stdlib Require Import ZArith Lia.
From S2P Require Import Prelude.

#[local] Open Scope Z_scope.

Definition NTT_MAX_LOOP_WIDTH : Z := 8.
Definition SIZE_MAX : Z := 2 ^ 64 - 1.

(** ** State *)
Inductive wtask : Type :=
  | StopTask                    (* stop_task_node of the worker *)
  | BarrierTask (b : nat)       (* ntt_barrier_svc *)
  | OtherTask.                  (* any other task *)

(** Where the thread of a worker stands in [ntt_worker_svc_with_mask]. *)
Inductive wpoint : Type :=
  | WStart                      (* before ntt_worker_init *)
  | WEnter                      (* at the start of ntt_loop_worker_enter *)
  | WMutex                      (* before its mutex *)
  | WWait                       (* in pthread_cond_wait *)
  | WWoken                      (* woken from it *)
  | WRelease                    (* before the reference of the thread is dropped *)
  | WHead                       (* at the head of the loop *)
  | WSvc                        (* in the service callback *)
  | WCheck                      (* after it *)
  | WRun                        (* ntt_queue_svc, before a task *)
  | WNext                       (* after it *)
  | WQueueRelease               (* after the loop over the tasks *)
  | WLeave                      (* before the leave callback *)
  | WGone.                      (* the function has returned *)

#[global] Instance wtask_eq_dec : EqDecision wtask.
Proof. solve_decision. Defined.

#[global] Instance wpoint_eq_dec : EqDecision wpoint.
Proof. solve_decision. Defined.

(** A worker.  [wk_clients] is not in the code: it counts those of [wk_refs]
    that belong to the code around the library.  [wk_signals] are the signals
    sent to its thread and not delivered. *)
Record ntt_worker : Type := mk_worker {
  wk_refs : Z;
  wk_clients : nat;
  wk_tasks : list wtask;
  wk_queue_refs : Z;
  wk_need_drain : bool;
  wk_stopped : bool;
  wk_signals : nat;
  wk_point : wpoint;
}.

(** A barrier context; [bc_ran] is not in the code: the workers that have run
    its task.  [bc_done] counts the runs of the barrier's own task. *)
Record ntt_barrier_context : Type := mk_barrier {
  bc_refs : Z;
  bc_ran : list nat;
  bc_done : nat;
  bc_freed : bool;
}.

(** The loop.  [lp_workers] holds the pointers of the worker contexts; not in
    the code are [lp_tokens], the work that belongs to the code around this part,
    and [lp_collected], set when the last work is gone and the references of the
    loop to its workers have been taken over. *)
Record ntt_loop : Type := mk_loop {
  lp_width : nat;
  lp_enter_cnt : nat;
  lp_work_cnt : Z;
  lp_workers : list (option nat);
  lp_tokens : nat;
  lp_collected : bool;
  lp_joined : nat;
  lp_alive : bool;
}.

Record lworld : Type := mk_lworld {
  lp : ntt_loop;
  wks : list ntt_worker;
  barriers : list ntt_barrier_context;
}.

Definition wk_with_refs r x := mk_worker r (wk_clients x) (wk_tasks x) (wk_queue_refs x) (wk_need_drain x)
  (wk_stopped x) (wk_signals x) (wk_point x).
Definition wk_with_clients c x := mk_worker (wk_refs x) c (wk_tasks x) (wk_queue_refs x) (wk_need_drain x)
  (wk_stopped x) (wk_signals x) (wk_point x).
Definition wk_with_tasks l x := mk_worker (wk_refs x) (wk_clients x) l (wk_queue_refs x) (wk_need_drain x)
  (wk_stopped x) (wk_signals x) (wk_point x).
Definition wk_with_queue_refs r x := mk_worker (wk_refs x) (wk_clients x) (wk_tasks x) r (wk_need_drain x)
  (wk_stopped x) (wk_signals x) (wk_point x).
Definition wk_with_drain b x := mk_worker (wk_refs x) (wk_clients x) (wk_tasks x) (wk_queue_refs x) b
  (wk_stopped x) (wk_signals x) (wk_point x).
Definition wk_with_stopped b x := mk_worker (wk_refs x) (wk_clients x) (wk_tasks x) (wk_queue_refs x)
  (wk_need_drain x) b (wk_signals x) (wk_point x).
Definition wk_with_signals n x := mk_worker (wk_refs x) (wk_clients x) (wk_tasks x) (wk_queue_refs x)
  (wk_need_drain x) (wk_stopped x) n (wk_point x).
Definition at_wpoint p x := mk_worker (wk_refs x) (wk_clients x) (wk_tasks x) (wk_queue_refs x)
  (wk_need_drain x) (wk_stopped x) (wk_signals x) p.

Definition lp_with_enter n l := mk_loop (lp_width l) n (lp_work_cnt l) (lp_workers l) (lp_tokens l)
  (lp_collected l) (lp_joined l) (lp_alive l).
Definition lp_with_work n t l := mk_loop (lp_width l) (lp_enter_cnt l) n (lp_workers l) t
  (lp_collected l) (lp_joined l) (lp_alive l).
Definition lp_with_workers ws l := mk_loop (lp_width l) (lp_enter_cnt l) (lp_work_cnt l) ws (lp_tokens l)
  (lp_collected l) (lp_joined l) (lp_alive l).
Definition lp_with_collected b l := mk_loop (lp_width l) (lp_enter_cnt l) (lp_work_cnt l) (lp_workers l)
  (lp_tokens l) b (lp_joined l) (lp_alive l).
Definition lp_with_end n a l := mk_loop (lp_width l) (lp_enter_cnt l) (lp_work_cnt l) (lp_workers l)
  (lp_tokens l) (lp_collected l) n a.

Definition set_lp l w := mk_lworld l (wks w) (barriers w).
Definition set_wk k x w := mk_lworld (lp w) (<[k := x]> (wks w)) (barriers w).
Definition set_wks l w := mk_lworld (lp w) l (barriers w).
Definition set_barriers l w := mk_lworld (lp w) (wks w) l.

(** ** Calls in progress *)

(** What goes on after a push to a worker. *)
Inductive cont : Type :=
  | KStop                       (* nothing *)
  | KRelease (todo : list (option nat)) (* the loop of ntt_loop_work_leave *)
  | KBarrier (b i : nat)        (* the loop of ntt_loop_push_barrier *)
  | KReturn (k : nat).          (* back in the caller, which lent a reference *)

Inductive caller : Type :=
  | CLeave                      (* at the start of ntt_loop_work_leave *)
  | CCollect                    (* the work is gone, before the workers are read *)
  | CRelease (todo : list (option nat)) (* before ntt_worker_release of the first *)
  | CPush (k : nat) (t : wtask) (next : cont)  (* ntt_queue_push_task, before its lock *)
  | CAcquire (k : nat) (next : cont)           (* the local queue was empty *)
  | CSignal (k : nat) (next : cont)            (* ntt_worker_local_queue_wakeup *)
  | CBarrier (b i : nat).       (* ntt_loop_push_barrier, at the worker i *)

Section ops.
Context `{Platform}.
Implicit Types (w : lworld) (x : ntt_worker) (k : nat).

(** The loop is used, which must not have been freed. *)
Definition get_loop w : res ntt_loop := if lp_alive (lp w) then Ok (lp w) else Err InvalidPointer.

(** A worker is used, which must be initialised and whose thread must not have
    left its frame. *)
Definition get_worker w k : res ntt_worker :=
  match wks w !! k with
  | Some x => if bool_decide (wk_point x = WStart \/ wk_point x = WGone) then Err InvalidPointer else Ok x
  | None => Err InvalidPointer
  end.

Definition ntt_loop_clamp_width (width : Z) : Z :=
  if width =? 0 then 1 else if width >? NTT_MAX_LOOP_WIDTH then NTT_MAX_LOOP_WIDTH else width.

(** ** Workers *)
Definition ntt_worker_init : ntt_worker := mk_worker 1 0 [] 1 false false 0 WEnter.

Definition ntt_worker_acquire w k : res lworld :=
  x ← get_worker w k;
  let prev := wk_refs x in
  c_assert (negb (prev =? 0)) ;;
  Ok (set_wk k (wk_with_refs (u64 (prev + 1)) x) w).

(** Drops a reference; [true] when the stop task has to be pushed. *)
Definition ntt_worker_release w k : res (bool * lworld) :=
  x ← get_worker w k;
  let prev := wk_refs x in
  let w := set_wk k (wk_with_refs (u64 (prev - 1)) x) w in
  c_assert (negb (prev =? SIZE_MAX)) ;;
  Ok (prev =? 1, w).

(** [ntt_queue_push_task] on the local queue, up to its lock; [true] when the
    queue was empty.  The node of the stop task is part of the worker and must
    not be linked already; the tasks of a barrier are made for the push, and any
    other task is the caller's. *)
Definition local_push w k (t : wtask) : res (bool * lworld) :=
  x ← get_worker w k;
  c_assert (bool_decide (t <> StopTask \/ StopTask ∉ wk_tasks x)) ;;
  let was_empty := bool_decide (wk_tasks x = []) in
  Ok (was_empty, set_wk k (wk_with_tasks (wk_tasks x ++ [t]) x) w).

(** [ntt_queue_acquire] of the local queue. *)
Definition local_acquire w k : res lworld :=
  x ← get_worker w k;
  c_assert (negb (wk_queue_refs x =? 0)) ;;
  Ok (set_wk k (wk_with_queue_refs (wk_queue_refs x + 1) x) w).

(** The signal is queued: [pthread_sigqueue] is repeated while it returns
    [EAGAIN], and has no other error for a thread that has not ended, which
    [get_worker] asks for. *)
Definition ntt_worker_local_queue_wakeup w k : res lworld :=
  x ← get_worker w k;
  Ok (set_wk k (wk_with_signals (S (wk_signals x)) x) w).

(** ** Barriers *)

(** [ntt_barrier_svc] on worker [k]: the last worker runs the task and frees
    the context. *)
Definition ntt_barrier_svc w k (b : nat) : res lworld :=
  match barriers w !! b with
  | Some c =>
      if bc_freed c then Err InvalidPointer
      else
        let prev := bc_refs c in
        let c := mk_barrier (prev - 1) (k :: bc_ran c) (bc_done c) false in
        let c := if negb (prev =? 1) then c
                 else mk_barrier (bc_refs c) (bc_ran c) (S (bc_done c)) true in
        Ok (set_barriers (<[b := c]> (barriers w)) w)
  | None => Err InvalidPointer
  end.

(** ** The thread of a worker *)

(** The callback of a task of the local queue. *)
Definition run_task w k x (t : wtask) : res lworld :=
  match t with
  | StopTask => Ok (set_wk k (wk_with_stopped true x) w)
  | BarrierTask b => ntt_barrier_svc w k b
  | OtherTask => Ok w
  end.

(** [pthread_cond_broadcast] *)
Definition broadcast (l : list ntt_worker) : list ntt_worker :=
  (fun x => if decide (wk_point x = WWait) then at_wpoint WWoken x else x) <$> l.

(** The critical section of [ntt_loop_worker_enter]. *)
Definition worker_meet w k x : res lworld :=
  l ← get_loop w;
  let l := lp_with_enter (S (lp_enter_cnt l)) l in
  let w := set_lp l w in
  Ok (if (lp_enter_cnt l <? lp_width l)%nat then set_wk k (at_wpoint WWait x) w
      else set_wk k (at_wpoint WRelease x) (set_wks (broadcast (wks w)) w)).

Definition worker_woken w k x : res lworld :=
  l ← get_loop w;
  Ok (set_wk k (at_wpoint (if (lp_enter_cnt l <? lp_width l)%nat then WWait else WRelease) x) w).

(** The start of [ntt_loop_worker_enter]. *)
Definition worker_enter w k : res lworld :=
  w ← ntt_worker_acquire w k;
  l ← get_loop w;
  x ← get_worker w k;
  Ok (set_wk k (at_wpoint WMutex x) (set_lp (lp_with_workers (<[k := Some k]> (lp_workers l)) l) w)).

(** One step of the thread; the caller it starts, if any, goes on by itself. *)
Definition exec_worker w k x : res (option caller * lworld) :=
  match wk_point x with
  | WStart => Ok (None, set_wk k ntt_worker_init w)
  | WEnter => w ← worker_enter w k; Ok (None, w)
  | WMutex => w ← worker_meet w k x; Ok (None, w)
  | WWait => Ok (None, w)
  | WWoken => w ← worker_woken w k x; Ok (None, w)
  | WRelease =>
      '(last, w) ← ntt_worker_release w k;
      x ← get_worker w k;
      Ok (if last : bool then Some (CPush k StopTask KStop) else None, set_wk k (at_wpoint WHead x) w)
  | WHead => Ok (None, set_wk k (at_wpoint (if wk_stopped x then WLeave else WSvc) x) w)
  | WSvc =>
      (* epoll_pwait is interrupted by the signal and its handler runs *)
      Ok (None, set_wk k (at_wpoint WCheck (wk_with_drain true (wk_with_signals (pred (wk_signals x)) x))) w)
  | WCheck =>
      if wk_need_drain x then
        c_assert (negb (bool_decide (wk_tasks x = []))) ;;
        Ok (None, set_wk k (at_wpoint WRun x) w)
      else Ok (None, set_wk k (at_wpoint WHead x) w)
  | WRun =>
      match wk_tasks x with
      | [] => Err InvalidPointer
      | t :: _ => w ← run_task w k x t; x ← get_worker w k; Ok (None, set_wk k (at_wpoint WNext x) w)
      end
  | WNext =>
      c_assert (negb (bool_decide (wk_tasks x = []))) ;;
      let x := wk_with_tasks (tail (wk_tasks x)) x in
      Ok (None, set_wk k (at_wpoint (if decide (wk_tasks x = []) then WQueueRelease else WRun) x) w)
  | WQueueRelease =>
      (* a local queue without references would be freed, but lives on a stack *)
      if wk_queue_refs x =? 1 then Err InvalidPointer
      else
        let x := wk_with_drain false (wk_with_queue_refs (wk_queue_refs x - 1) x) in
        Ok (None, set_wk k (at_wpoint WHead x) w)
  | WLeave => Ok (None, set_wk k (at_wpoint WGone x) w)
  | WGone => Ok (None, w)
  end.

(** ** The callers *)
Definition resume (next : cont) w : option caller * lworld :=
  match next with
  | KStop => (None, w)
  | KRelease todo => (Some (CRelease todo), w)
  | KBarrier b i => (Some (CBarrier b i), w)
  | KReturn k =>
      (None, match wks w !! k with
             | Some x => set_wk k (wk_with_clients (S (wk_clients x)) x) w
             | None => w
             end)
  end.

Definition ntt_loop_work_enter w : res lworld :=
  l ← get_loop w;
  let prev := lp_work_cnt l in
  c_assert (prev >? 0) ;;
  Ok (set_lp (lp_with_work (u64 (prev + 1)) (S (lp_tokens l)) l) w).

(** [ntt_loop_work_leave] up to the decision. *)
Definition ntt_loop_work_leave w : res (option caller * lworld) :=
  l ← get_loop w;
  let prev := lp_work_cnt l in
  c_assert (prev >? 0) ;;
  Ok (if negb (prev =? 1) then None else Some CCollect, set_lp (lp_with_work (u64 (prev - 1)) (lp_tokens l) l) w).

(** The workers are taken out of the loop, into an array of fixed size. *)
Definition collect_workers w : res (option caller * lworld) :=
  l ← get_loop w;
  if Z.of_nat (lp_width l) <=? NTT_MAX_LOOP_WIDTH
  then Ok (Some (CRelease (lp_workers l)), set_lp (lp_with_collected true l) w)
  else Err OutOfBounds.

Definition release_next w (todo : list (option nat)) : res (option caller * lworld) :=
  match todo with
  | [] => Ok (None, w)
  | None :: todo => c_assert false ;; Ok (Some (CRelease todo), w)
  | Some k :: todo =>
      '(last, w) ← ntt_worker_release w k;
      Ok (Some (if last : bool then CPush k StopTask (KRelease todo) else CRelease todo), w)
  end.

(** One turn of [ntt_loop_push_barrier]. *)
Definition barrier_next w (b i : nat) : res (option caller * lworld) :=
  l ← get_loop w;
  if (i <? lp_width l)%nat then
    match lp_workers l !! i with
    | Some (Some k) => Ok (Some (CPush k (BarrierTask b) (KBarrier b (S i))), w)
    | Some None => c_assert false ;; Err InvalidPointer
    | None => Err OutOfBounds
    end
  else Ok (None, set_lp (lp_with_work (lp_work_cnt l) (S (lp_tokens l)) l) w).

Definition exec_caller (c : caller) w : res (option caller * lworld) :=
  match c with
  | CLeave => ntt_loop_work_leave w
  | CCollect => collect_workers w
  | CRelease todo => release_next w todo
  | CPush k t next =>
      '(was_empty, w) ← local_push w k t;
      if was_empty : bool then Ok (Some (CAcquire k next), w) else Ok (resume next w)
  | CAcquire k next => w ← local_acquire w k; Ok (Some (CSignal k next), w)
  | CSignal k next => w ← ntt_worker_local_queue_wakeup w k; Ok (resume next w)
  | CBarrier b i => barrier_next w b i
  end.

(** The context of a barrier, and the call that pushes its tasks. *)
Definition ntt_loop_push_barrier w : res (caller * lworld) :=
  l ← get_loop w;
  let context := mk_barrier (Z.of_nat (lp_width l)) [] 0 false in
  Ok (CBarrier (length (barriers w)) 0, set_barriers (barriers w ++ [context]) w).

(** ** The thread that runs the loop *)

(** [ntt_loop_run] up to the start of the workers: the work of its own, which is
    given up once the first queue holds some; no worker has started. *)
Definition ntt_loop_run (width : Z) : lworld :=
  let n := Z.to_nat (ntt_loop_clamp_width width) in
  mk_lworld (mk_loop n 0 1 (replicate n None) 1 false 1 true)
    (replicate n (mk_worker 0 0 [] 0 false false 0 WStart)) [].

(** After its own worker has left: joins the others, then frees the loop. *)
Definition loop_end w : res lworld :=
  l ← get_loop w;
  if (lp_joined l <? lp_width l)%nat then Ok (set_lp (lp_with_end (S (lp_joined l)) true l) w)
  else Ok (set_lp (lp_with_end (lp_joined l) false l) w).
End ops.

(** ** The whole system *)
Definition lconfig : Type := lworld * list caller.

Definition gone_at (w : lworld) (k : nat) : Prop := exists x, wks w !! k = Some x /\ wk_point x = WGone.

(** A worker can go on: it is not waiting for the others, for a signal, or gone. *)
Definition worker_ready (x : ntt_worker) : bool :=
  match wk_point x with
  | WWait | WGone => false
  | WSvc => negb (bool_decide (wk_signals x = 0%nat))
  | _ => true
  end.

(** The workers have met. *)
Definition entered (p : wpoint) : bool :=
  match p with WStart | WEnter | WMutex | WWait | WWoken => false | _ => true end.

Definition started (w : lworld) : Prop := exists k x, wks w !! k = Some x /\ entered (wk_point x) = true.

Section steps.
Context `{Platform}.

(** Steps of the library and of the threads it starts. *)
Inductive worker_step : lconfig -> lconfig -> Prop :=
  | step_worker w cs k x c w' :
      wks w !! k = Some x -> worker_ready x = true -> exec_worker w k x = Ok (c, w') ->
      worker_step (w, cs) (w', option_list c ++ cs)
  | step_caller w l1 c l2 c' w' :
      exec_caller c w = Ok (c', w') -> worker_step (w, l1 ++ c :: l2) (w', l1 ++ option_list c' ++ l2)
  | step_end w cs w' :
      lp_alive (lp w) = true -> gone_at w 0 ->
      ((lp_joined (lp w) < lp_width (lp w))%nat -> gone_at w (lp_joined (lp w))) ->
      loop_end w = Ok w' -> worker_step (w, cs) (w', cs).

(** Steps of the code around, which runs once the workers have met, and of the
    system: other signals and spurious wake-ups. *)
Inductive outside_step : lconfig -> lconfig -> Prop :=
  | outside_enter w cs w' :
      started w -> (0 < lp_tokens (lp w))%nat -> ntt_loop_work_enter w = Ok w' -> outside_step (w, cs) (w', cs)
  | outside_leave w cs :
      started w -> (0 < lp_tokens (lp w))%nat ->
      outside_step (w, cs) (set_lp (lp_with_work (lp_work_cnt (lp w)) (pred (lp_tokens (lp w))) (lp w)) w, CLeave :: cs)
  | outside_barrier w cs c w' :
      started w -> (0 < lp_tokens (lp w))%nat ->
      ntt_loop_push_barrier (set_lp (lp_with_work (lp_work_cnt (lp w)) (pred (lp_tokens (lp w))) (lp w)) w) = Ok (c, w') ->
      outside_step (w, cs) (w', c :: cs)
  | outside_acquire w cs k x w' :
      started w -> wks w !! k = Some x -> (0 < wk_clients x)%nat \/ (0 < lp_tokens (lp w))%nat ->
      ntt_worker_acquire (set_wk k (wk_with_clients (S (wk_clients x)) x) w) k = Ok w' ->
      outside_step (w, cs) (w', cs)
  | outside_release w cs k x :
      started w -> wks w !! k = Some x -> (0 < wk_clients x)%nat ->
      outside_step (w, cs) (set_wk k (wk_with_clients (pred (wk_clients x)) x) w, CRelease [Some k] :: cs)
  | outside_push w cs k x :
      started w -> wks w !! k = Some x -> (0 < wk_clients x)%nat ->
      outside_step (w, cs) (set_wk k (wk_with_clients (pred (wk_clients x)) x) w, CPush k OtherTask (KReturn k) :: cs)
  | outside_interrupt w cs k x :
      wks w !! k = Some x -> wk_point x = WSvc -> outside_step (w, cs) (set_wk k (at_wpoint WCheck x) w, cs)
  | outside_spurious w cs k x :
      wks w !! k = Some x -> wk_point x = WWait -> outside_step (w, cs) (set_wk k (at_wpoint WWoken x) w, cs).

(** The counters of references and of work stay below their width. *)
Definition refs_bounded (w : lworld) : Prop :=
  lp_work_cnt (lp w) < SIZE_MAX /\ Forall (fun x => wk_refs x < SIZE_MAX) (wks w).

Definition life_step (c c' : lconfig) : Prop :=
  (worker_step c c' \/ outside_step c c') /\ refs_bounded c'.1.

Definition life (width : Z) (w : lworld) (cs : list caller) : Prop :=
  0 <= width < 2 ^ 32 /\ rtc life_step (ntt_loop_run width, []) (w, cs).
End steps.
