(* ===== verification/WorkerInv.v ===== *)
(** * Workers and the life of the loop: invariant

    The references of a worker are counted exactly; a local queue that is not
    empty has exactly one signal on its way or one drain in progress; the stop task
    is pushed once, when the last reference goes, and is the last task of its
    worker; a barrier counts the workers that have not run it. *)

From stdpp Require Import base numbers list gmap.
From Stdlib Require Import ZArith Lia.
From S2P Require Import Prelude.
From S2P Require Import Worker.

#[local] Open Scope Z_scope.

Implicit Types (w : lworld) (cs : list caller) (c : caller) (k j b : nat) (x : ntt_worker) (n : cont).

(** ** What callers hold *)
Definition one (P : Prop) `{Decision P} : nat := if decide P then 1 else 0.

Definition count {A} `{EqDecision A} (a : A) (l : list A) : nat := total (fun y => one (y = a)) l.

#[global] Arguments one : simpl never.
#[global] Arguments count : simpl never.

(** References to the worker [k]. *)
Definition kholds k n : nat :=
  match n with KRelease todo => count (Some k) todo | KReturn j => one (j = k) | _ => 0 end.
Definition wholds k c : nat :=
  match c with
  | CRelease todo => count (Some k) todo
  | CPush _ _ n | CAcquire _ n | CSignal _ n => kholds k n
  | _ => 0
  end.

(** A signal that is going to be sent to [k]. *)
Definition waking k c : nat :=
  match c with CAcquire j _ | CSignal j _ => one (j = k) | _ => 0 end.

(** A reference to the local queue of [k]. *)
Definition queue_holds k c : nat := match c with CSignal j _ => one (j = k) | _ => 0 end.

(** The stop task of [k], on its way. *)
Definition stopping k c : nat :=
  match c with CPush j StopTask _ => one (j = k) | _ => 0 end.

(** Work of the loop. *)
Definition kworks n : nat := match n with KBarrier _ _ => 1 | _ => 0 end.
Definition works c : nat :=
  match c with
  | CLeave | CBarrier _ _ => 1
  | CPush _ _ n | CAcquire _ n | CSignal _ n => kworks n
  | _ => 0
  end.

Definition collecting c : nat := match c with CCollect => 1 | _ => 0 end.

(** The task of the barrier [b] for [k], not pushed yet. *)
Definition kpends b k n : nat := match n with KBarrier b' i => one (b' = b /\ (i <= k)%nat) | _ => 0 end.
Definition pends b k c : nat :=
  match c with
  | CBarrier b' i => one (b' = b /\ (i <= k)%nat)
  | CPush j t n => one (t = BarrierTask b /\ j = k) + kpends b k n
  | CAcquire _ n | CSignal _ n => kpends b k n
  | _ => 0
  end.

(** ** A worker *)

(** The thread holds a reference, and the loop knows the worker. *)
Definition own (p : wpoint) : nat :=
  match p with WEnter | WMutex | WWait | WWoken | WRelease => 1 | _ => 0 end.
Definition known (p : wpoint) : bool := match p with WStart | WEnter => false | _ => true end.
Definition met (p : wpoint) : nat := match p with WStart | WEnter | WMutex => 0 | _ => 1 end.

(** The drain of the local queue, due or in progress. *)
Definition drains x : nat :=
  match wk_point x with WCheck => Nat.b2n (wk_need_drain x) | WRun | WNext => 1 | _ => 0 end.

(** The tasks that have not been run. *)
Definition to_run x : list wtask := if decide (wk_point x = WNext) then tail (wk_tasks x) else wk_tasks x.

Definition may_drain (p : wpoint) : bool :=
  match p with WCheck | WRun | WNext | WQueueRelease => true | _ => false end.

Definition inited (p : wpoint) : bool := match p with WStart => false | _ => true end.
Definition leaves_queue (p : wpoint) : nat := match p with WQueueRelease => 1 | _ => 0 end.

(** What a stopped worker is still going to do. *)
Definition winding_down x : Prop :=
  (wk_tasks x = [] /\ (wk_point x = WQueueRelease \/ wk_point x = WHead \/ wk_point x = WLeave \/ wk_point x = WGone)) \/
  (wk_tasks x = [StopTask] /\ wk_point x = WNext).

(** [h], [t], [s], [st]: the references, signals, references to the queue and
    stop tasks that callers have for the worker. *)
Record worker_ok (collected : bool) (h t s st : nat) x : Prop := {
  wo_start : wk_point x = WStart -> x = mk_worker 0 0 [] 0 false false 0 WStart;
  wo_refs : wk_refs x = Z.of_nat (own (wk_point x) + Nat.b2n (known (wk_point x) && negb collected) +
    wk_clients x + h);
  wo_token : (wk_signals x + drains x + t = one (wk_tasks x <> []))%nat;
  wo_drain : wk_need_drain x = true -> may_drain (wk_point x) = true;
  wo_queue : inited (wk_point x) = true ->
    wk_queue_refs x = Z.of_nat (1 + wk_signals x + drains x + s + leaves_queue (wk_point x));
  wo_stop : (count StopTask (to_run x) + Nat.b2n (wk_stopped x) + st =
    one (wk_refs x = 0%Z /\ inited (wk_point x) = true))%nat;
  wo_last : forall l1 l2, wk_tasks x = l1 ++ StopTask :: l2 -> l2 = [];
  wo_stopped : wk_stopped x = true -> winding_down x;
  wo_gone : wk_point x = WLeave \/ wk_point x = WGone -> wk_stopped x = true;
  wo_ran : wk_point x = WNext -> head (wk_tasks x) = Some StopTask -> wk_stopped x = true;
  wo_clients : known (wk_point x) = false -> wk_clients x = 0%nat;
}.

(** ** Calls *)
Definition todo_ok (width : nat) (todo : list (option nat)) : Prop :=
  Forall (fun o => exists j, o = Some j /\ (j < width)%nat) todo.
Definition cont_ok (width : nat) n : Prop :=
  match n with KRelease todo => todo_ok width todo | KReturn j => (j < width)%nat | _ => True end.
Definition caller_ok (width : nat) c : Prop :=
  match c with
  | CRelease todo => todo_ok width todo
  | CPush k t n => (k < width)%nat /\ cont_ok width n /\
      (t = StopTask \/ (exists b i, t = BarrierTask b /\ n = KBarrier b i) \/ (t = OtherTask /\ n = KReturn k))
  | CAcquire k n | CSignal k n => (k < width)%nat /\ cont_ok width n
  | _ => True
  end.

(** ** Barriers *)
Record barrier_ok (width : nat) (bc : ntt_barrier_context) : Prop := {
  bo_nodup : NoDup (bc_ran bc);
  bo_range : forall k, k ∈ bc_ran bc -> (k < width)%nat;
  bo_refs : bc_refs bc = Z.of_nat width - Z.of_nat (length (bc_ran bc));
  bo_freed : bc_freed bc = bool_decide (bc_refs bc = 0);
  bo_done : bc_done bc = Nat.b2n (bc_freed bc);
}.

(** How often the task of [b] is still going to run on [k]. *)
Definition outstanding (bs : list ntt_barrier_context) b k : nat :=
  match bs !! b with Some bc => one (k ∉ bc_ran bc) | None => 0 end.

(** ** The whole state *)
Record life_inv w cs : Prop := {
  lv_width : (1 <= lp_width (lp w))%nat /\ Z.of_nat (lp_width (lp w)) <= NTT_MAX_LOOP_WIDTH;
  lv_length : length (wks w) = lp_width (lp w);
  lv_worker : forall k x, wks w !! k = Some x ->
    worker_ok (lp_collected (lp w)) (total (wholds k) cs) (total (waking k) cs) (total (queue_holds k) cs)
      (total (stopping k) cs) x;
  lv_known : forall k x, wks w !! k = Some x ->
    lp_workers (lp w) !! k = Some (if known (wk_point x) then Some k else None);
  lv_table : length (lp_workers (lp w)) = lp_width (lp w);
  lv_enter : lp_enter_cnt (lp w) = total (fun x => met (wk_point x)) (wks w);
  lv_met : forall k x, wks w !! k = Some x -> entered (wk_point x) = true ->
    lp_enter_cnt (lp w) = lp_width (lp w);
  lv_wait : forall k x, wks w !! k = Some x -> wk_point x = WWait ->
    (lp_enter_cnt (lp w) < lp_width (lp w))%nat;
  lv_work : lp_work_cnt (lp w) = Z.of_nat (lp_tokens (lp w) + total works cs);
  lv_collect : total collecting cs = one (lp_work_cnt (lp w) = 0 /\ lp_collected (lp w) = false);
  lv_collected : lp_collected (lp w) = true -> lp_work_cnt (lp w) = 0;
  lv_callers : Forall (caller_ok (lp_width (lp w))) cs;
  lv_early : lp_enter_cnt (lp w) <> lp_width (lp w) -> cs = [] /\ lp_collected (lp w) = false;
  lv_joined : forall i, (0 < i < lp_joined (lp w))%nat -> (i < lp_width (lp w))%nat -> gone_at w i;
  lv_freed : lp_alive (lp w) = false -> forall i, (i < lp_width (lp w))%nat -> gone_at w i;
  lv_barrier : forall b bc, barriers w !! b = Some bc -> barrier_ok (lp_width (lp w)) bc;
  lv_tasks : forall b k x, wks w !! k = Some x ->
    (count (BarrierTask b) (to_run x) + total (pends b k) cs = outstanding (barriers w) b k)%nat;
}.

(** ** Counting *)
Lemma one_true (P : Prop) `{Decision P} : P -> one P = 1%nat.
Proof. intros HP. unfold one. by rewrite decide_True. Qed.

Lemma one_false (P : Prop) `{Decision P} : ~ P -> one P = 0%nat.
Proof. intros HP. unfold one. by rewrite decide_False. Qed.

Lemma one_le (P : Prop) `{Decision P} : (one P <= 1)%nat.
Proof. unfold one. case_decide; lia. Qed.

Lemma one_pos (P : Prop) `{Decision P} : (0 < one P)%nat -> P.
Proof. unfold one. case_decide; [done|lia]. Qed.

Lemma one_iff (P Q : Prop) `{Decision P, Decision Q} : (P <-> Q) -> one P = one Q.
Proof. intros HPQ. unfold one. destruct (decide P), (decide Q); tauto. Qed.

Lemma count_app {A} `{EqDecision A} (a : A) l l' : count a (l ++ l') = (count a l + count a l')%nat.
Proof. apply total_app. Qed.

Lemma count_cons {A} `{EqDecision A} (a b : A) l : count a (b :: l) = (one (b = a) + count a l)%nat.
Proof. done. Qed.

Lemma count_nil {A} `{EqDecision A} (a : A) : count a [] = 0%nat.
Proof. done. Qed.

Lemma count_elem {A} `{EqDecision A} (a : A) l : (0 < count a l)%nat <-> a ∈ l.
Proof.
  split.
  - intros Hc. destruct (total_pos _ _ Hc) as (y & Hy & Hp). apply one_pos in Hp. by subst.
  - intros Ha. pose proof (total_elem (fun y => one (y = a)) l a Ha) as Hle. simpl in Hle.
    rewrite one_true in Hle by done. unfold count. lia.
Qed.

(** ** One worker changes, and the callers that have to do with it *)

(** The callers [cs'] have for the workers other than [k] what [cs] had. *)
Record swap k cs cs' : Prop := {
  sw_holds : forall j, j <> k -> total (wholds j) cs' = total (wholds j) cs;
  sw_waking : forall j, j <> k -> total (waking j) cs' = total (waking j) cs;
  sw_queue : forall j, j <> k -> total (queue_holds j) cs' = total (queue_holds j) cs;
  sw_stop : forall j, j <> k -> total (stopping j) cs' = total (stopping j) cs;
  sw_pends : forall b j, j <> k -> total (pends b j) cs' = total (pends b j) cs;
  sw_works : total works cs' = total works cs;
  sw_collect : total collecting cs' = total collecting cs;
}.

Lemma swap_refl k cs : swap k cs cs.
Proof. by split. Qed.

(** The thread [x'] is as far as [x] in the meeting of the workers. *)
Definition same_stage w x x' : Prop :=
  known (wk_point x') = known (wk_point x) /\ met (wk_point x') = met (wk_point x) /\
  (entered (wk_point x') = true -> lp_enter_cnt (lp w) = lp_width (lp w)) /\
  (wk_point x' = WWait -> (lp_enter_cnt (lp w) < lp_width (lp w))%nat) /\
  (wk_point x = WGone -> wk_point x' = WGone).

Lemma insert_cases {A} (l : list A) k (x' : A) j y :
  <[k := x']> l !! j = Some y -> (j = k /\ y = x') \/ (j <> k /\ l !! j = Some y).
Proof. rewrite list_lookup_insert_Some. intros [(<- & -> & _)|[? ?]]; [by left|by right]. Qed.

Lemma gone_insert w k x x' i :
  wks w !! k = Some x -> (wk_point x = WGone -> wk_point x' = WGone) -> gone_at w i -> gone_at (set_wk k x' w) i.
Proof.
  intros Hk Hg (y & Hy & Hyg). destruct (decide (i = k)) as [->|Hne].
  - exists x'. simpl. rewrite list_lookup_insert_eq by (by eapply lookup_lt_Some).
    split; [done|]. apply Hg. congruence.
  - exists y. simpl. by rewrite list_lookup_insert_ne.
Qed.

Lemma life_update_barriers w cs cs' k x x' bs :
  life_inv w cs -> wks w !! k = Some x -> swap k cs cs' -> same_stage w x x' ->
  worker_ok (lp_collected (lp w)) (total (wholds k) cs') (total (waking k) cs') (total (queue_holds k) cs')
    (total (stopping k) cs') x' ->
  (forall b bc, bs !! b = Some bc -> barrier_ok (lp_width (lp w)) bc) ->
  (forall b, (count (BarrierTask b) (to_run x') + total (pends b k) cs' = outstanding bs b k)%nat) ->
  (forall b j, j <> k -> outstanding bs b j = outstanding (barriers w) b j) ->
  Forall (caller_ok (lp_width (lp w))) cs' ->
  (lp_enter_cnt (lp w) <> lp_width (lp w) -> cs' = []) ->
  life_inv (set_wk k x' (set_barriers bs w)) cs'.
Proof.
  intros [Hw Hlen Hwk Hkn Htb Hen Hmet Hwt Hwork Hcol Hcd Hcs Hea Hj Hf Hb Ht] Hk
    [S1 S2 S3 S4 S5 S6 S7] (K1 & K2 & K3 & K4 & K5) Hok Hbs Hbar Hoth Hcs' Hea'.
  pose proof (insert_cases (wks w) k x') as Hlk.
  split; simpl; try done.
  - by rewrite length_insert.
  - intros j y [[-> ->]|[Hne Hy]]%Hlk; [done|]. rewrite S1, S2, S3, S4 by done. by apply Hwk.
  - intros j y [[-> ->]|[Hne Hy]]%Hlk; [|by apply Hkn]. rewrite K1. by apply Hkn.
  - pose proof (total_insert (fun y => met (wk_point y)) (wks w) k x x' Hk). lia.
  - intros j y [[-> ->]|[Hne Hy]]%Hlk; [done|by eapply Hmet].
  - intros j y [[-> ->]|[Hne Hy]]%Hlk; [done|by eapply Hwt].
  - by rewrite S6.
  - by rewrite S7.
  - intros He. split; [by apply Hea'|]. by apply Hea.
  - intros i Hi Hiw. eapply gone_insert; eauto.
  - intros Ha i Hi. eapply gone_insert; eauto.
  - intros b j y [[-> ->]|[Hne Hy]]%Hlk; [by apply Hbar|]. rewrite S5, Hoth by done. by apply Ht.
Qed.

Lemma life_update w cs cs' k x x' :
  life_inv w cs -> wks w !! k = Some x -> swap k cs cs' -> same_stage w x x' ->
  worker_ok (lp_collected (lp w)) (total (wholds k) cs') (total (waking k) cs') (total (queue_holds k) cs')
    (total (stopping k) cs') x' ->
  (forall b, count (BarrierTask b) (to_run x') + total (pends b k) cs' =
             count (BarrierTask b) (to_run x) + total (pends b k) cs)%nat ->
  Forall (caller_ok (lp_width (lp w))) cs' ->
  (lp_enter_cnt (lp w) <> lp_width (lp w) -> cs' = []) ->
  life_inv (set_wk k x' w) cs'.
Proof.
  intros Hinv Hk Hsw Hst Hok Hbar Hcs He.
  replace w with (set_barriers (barriers w) w) by (by destruct w).
  eapply life_update_barriers; try done; [apply Hinv|].
  intros b. rewrite Hbar. by apply Hinv.
Qed.

Lemma life_perm w cs cs' : cs ≡ₚ cs' -> life_inv w cs -> life_inv w cs'.
Proof.
  intros Hp [Hw Hlen Hwk Hkn Htb Hen Hmet Hwt Hwork Hcol Hcd Hcs Hea Hj Hf Hb Ht].
  assert (Htot : forall f : caller -> nat, total f cs' = total f cs) by (intros f; by rewrite (total_perm f _ _ Hp)).
  split; try done.
  - intros k x Hk. rewrite !Htot. by apply Hwk.
  - by rewrite Htot.
  - by rewrite Htot.
  - by rewrite <- Hp.
  - intros He. destruct (Hea He) as [-> ?]. by apply Permutation_nil_l in Hp as ->.
  - intros b k x Hk. rewrite Htot. by apply Ht.
Qed.

(** Once the workers have met, the loop knows all of them. *)
Lemma total_full {A} (f : A -> nat) l :
  (forall y, (f y <= 1)%nat) -> total f l = length l -> forall y, y ∈ l -> f y = 1%nat.
Proof.
  intros Hf. induction l as [|z l IH]; [by intros _ y ?%elem_of_nil|].
  rewrite total_cons. simpl. intros Ht y Hy.
  assert (Hle : (total f l <= length l)%nat).
  { clear -Hf. induction l as [|z l IH]; [done|]. rewrite total_cons. simpl. specialize (Hf z). lia. }
  pose proof (Hf z). apply elem_of_cons in Hy as [->|Hy]; [lia|apply IH; [lia|done]].
Qed.

Lemma all_met w cs k x :
  life_inv w cs -> lp_enter_cnt (lp w) = lp_width (lp w) -> wks w !! k = Some x -> met (wk_point x) = 1%nat.
Proof.
  intros Hinv He Hk. apply (total_full (fun y => met (wk_point y)) (wks w)).
  - intros y. destruct (wk_point y); simpl; lia.
  - by rewrite <- (lv_enter _ _ Hinv), (lv_length _ _ Hinv).
  - by eapply list_elem_of_lookup_2.
Qed.

Lemma get_worker_ok `{Platform} w k x :
  wks w !! k = Some x -> wk_point x <> WStart -> wk_point x <> WGone -> get_worker w k = Ok x.
Proof.
  intros Hk Hs Hg. unfold get_worker. rewrite Hk. rewrite bool_decide_false; [done|]. by intros [?|?].
Qed.
