(* ===== verification/WorkerSteps.v ===== *)
(** * Workers and the life of the loop: the threads keep the invariant *)

From stdpp Require Import base numbers list gmap.
From Stdlib Require Import ZArith Lia.
From S2P Require Import Prelude.
From S2P Require Import Worker.
From S2P Require Import WorkerInv.

#[local] Open Scope Z_scope.

Implicit Types (w : lworld) (cs : list caller) (c : caller) (k j b : nat) (x : ntt_worker) (n : cont).

(** Uses the point of the thread in the invariant of its worker. *)
Ltac at_point Hp :=
  unfold drains, to_run, winding_down in *; rewrite ?Hp in *; simpl in *.

Lemma with_stopped_id (st : bool) x : wk_stopped x = st -> wk_with_stopped st x = x.
Proof. intros <-. by destruct x. Qed.

Lemma woken_worker_ok col h t s st x :
  worker_ok col h t s st x -> wk_point x = WWait -> worker_ok col h t s st (at_wpoint WWoken x).
Proof.
  intros [Hst Hr Htk Hd Hq Hs Hl Hsp Hg Hrn] Hp. split; at_point Hp; try done.
  - intros Hx. destruct (Hsp Hx) as [[_ [?|[?|[?|?]]]]|[_ ?]]; done.
  - by intros [?|?].
Qed.

Section thread.
Context `{Platform} (w : lworld) (cs : list caller) (k : nat) (x : ntt_worker).
Hypotheses (Hinv : life_inv w cs) (Hk : wks w !! k = Some x).

Let Hok := lv_worker w cs Hinv k x Hk.

(** The thread moves, the callers do not. *)
Lemma thread_moves x' :
  same_stage w x x' ->
  worker_ok (lp_collected (lp w)) (total (wholds k) cs) (total (waking k) cs) (total (queue_holds k) cs)
    (total (stopping k) cs) x' ->
  (forall b, count (BarrierTask b) (to_run x') = count (BarrierTask b) (to_run x)) ->
  life_inv (set_wk k x' w) cs.
Proof.
  intros Hs Hok' Hb. eapply life_update; [done|done|apply swap_refl|done|done| |apply Hinv|].
  - intros b. by rewrite Hb.
  - apply (lv_early _ _ Hinv).
Qed.

Lemma enter_le : (lp_enter_cnt (lp w) <= lp_width (lp w))%nat.
Proof.
  rewrite (lv_enter _ _ Hinv), <- (lv_length _ _ Hinv).
  generalize (wks w) as l. clear. induction l as [|y l IH]; [done|]. rewrite total_cons. simpl.
  destruct (wk_point y); simpl; lia.
Qed.

Lemma not_met_early : met (wk_point x) = 0%nat -> cs = [] /\ lp_collected (lp w) = false.
Proof.
  intros Hm. apply (lv_early _ _ Hinv). intros He. rewrite (all_met w cs k x Hinv He Hk) in Hm. done.
Qed.

Lemma start_ok :
  wk_point x = WStart -> life_inv (set_wk k ntt_worker_init w) cs.
Proof.
  intros Hp. pose proof Hok as Hok0. pose proof (wo_start _ _ _ _ _ _ Hok0 Hp) as Hx.
  rewrite Hx in Hok0. destruct Hok0 as [Hst Hr Htk Hd Hq Hs Hl Hsp Hg Hrn].
  apply thread_moves; rewrite ?Hx; [by split_and!| |done].
  destruct not_met_early as [Hz _]; [by rewrite Hp|]. rewrite Hz in *.
  unfold drains, to_run in *. simpl in *. split; unfold drains, to_run; simpl; try done; try lia.
  by intros [?|?].
Qed.

(** Moves within the loop of the worker. *)
Lemma loop_point_ok p x' :
  wk_point x = p -> entered p = true -> entered (wk_point x') = true -> own p = own (wk_point x') ->
  (p = WGone -> wk_point x' = WGone) ->
  worker_ok (lp_collected (lp w)) (total (wholds k) cs) (total (waking k) cs) (total (queue_holds k) cs)
    (total (stopping k) cs) x' ->
  (forall b, count (BarrierTask b) (to_run x') = count (BarrierTask b) (to_run x)) ->
  life_inv (set_wk k x' w) cs.
Proof.
  intros Hp He He' Ho Hg Hok' Hb. apply thread_moves; [|done|done].
  assert (Hm : lp_enter_cnt (lp w) = lp_width (lp w)) by (apply (lv_met _ _ Hinv k x Hk); by rewrite Hp).
  assert (Hall : forall q, entered q = true -> known q = true /\ met q = 1%nat /\ q <> WWait)
    by (by intros []).
  rewrite <- Hp in He. destruct (Hall _ He) as (? & ? & ?), (Hall _ He') as (? & ? & ?).
  split_and!; try congruence. by rewrite Hp.
Qed.

Lemma head_ok :
  wk_point x = WHead -> life_inv (set_wk k (at_wpoint (if wk_stopped x then WLeave else WSvc) x) w) cs.
Proof.
  intros Hp. pose proof Hok as [Hst Hr Htk Hd Hq Hs Hl Hsp Hg Hrn].
  assert (Hnd : wk_need_drain x = false) by (destruct (wk_need_drain x); [specialize (Hd eq_refl); by rewrite Hp in Hd|done]).
  destruct (wk_stopped x) eqn:Hx; (eapply (loop_point_ok WHead); [done|done|done|done|done| |by at_point Hp]).
  - split; at_point Hp; rewrite ?Hnd, ?Hx in *; try done; try lia.
    intros _. destruct (Hsp eq_refl) as [[? _]|[_ ?]]; [left|done]. tauto.
  - split; at_point Hp; rewrite ?Hnd, ?Hx in *; try done; try lia. by intros [?|?].
Qed.

Lemma svc_ok :
  wk_point x = WSvc -> wk_signals x <> 0%nat ->
  life_inv (set_wk k (at_wpoint WCheck (wk_with_drain true (wk_with_signals (pred (wk_signals x)) x))) w) cs.
Proof.
  intros Hp Hsig. pose proof Hok as [Hst Hr Htk Hd Hq Hs Hl Hsp Hg Hrn].
  eapply (loop_point_ok WSvc); [done|done|done|done|done| |by at_point Hp].
  split; at_point Hp; try done; try lia.
  - intros Hx. destruct (Hsp Hx) as [[_ [?|[?|[?|?]]]]|[_ ?]]; done.
  - intros [?|?]; done.
Qed.

Lemma interrupt_ok :
  wk_point x = WSvc -> life_inv (set_wk k (at_wpoint WCheck x) w) cs.
Proof.
  intros Hp. pose proof Hok as [Hst Hr Htk Hd Hq Hs Hl Hsp Hg Hrn].
  assert (Hnd : wk_need_drain x = false) by (destruct (wk_need_drain x); [specialize (Hd eq_refl); by rewrite Hp in Hd|done]).
  eapply (loop_point_ok WSvc); [done|done|done|done|done| |by at_point Hp].
  split; at_point Hp; rewrite ?Hnd in *; try done; try lia.
  - intros Hx. destruct (Hsp Hx) as [[_ [?|[?|[?|?]]]]|[_ ?]]; done.
  - intros [?|?]; done.
Qed.

Lemma drain_tasks : drains x = 1%nat -> wk_tasks x <> [].
Proof. intros Hd Hz. pose proof (wo_token _ _ _ _ _ _ Hok) as Ht. rewrite one_false in Ht by (by intros []). lia. Qed.

Lemma check_ok :
  wk_point x = WCheck ->
  returns (exec_worker w k x) (fun '(c, w') => life_inv w' (option_list c ++ cs)).
Proof.
  intros Hp. unfold exec_worker. rewrite Hp. pose proof Hok as [Hst Hr Htk Hd Hq Hs Hl Hsp Hg Hrn].
  destruct (wk_need_drain x) eqn:Hnd.
  - assert (Hne : wk_tasks x <> []) by (apply drain_tasks; unfold drains; by rewrite Hp, Hnd).
    rewrite c_assert_true, bind_ok by (by rewrite bool_decide_false). apply returns_ok.
    eapply (loop_point_ok WCheck); [done|done|done|done|done| |by at_point Hp].
    split; at_point Hp; rewrite ?Hnd in *; try done; try lia.
    + intros Hx. destruct (Hsp Hx) as [[_ [?|[?|[?|?]]]]|[_ ?]]; done.
    + intros [?|?]; done.
  - apply returns_ok. eapply (loop_point_ok WCheck); [done|done|done|done|done| |by at_point Hp].
    split; at_point Hp; rewrite ?Hnd in *; try done; try lia.
    + intros Hx. destruct (Hsp Hx) as [[_ [?|[?|[?|?]]]]|[_ ?]]; done.
    + intros [?|?]; done.
Qed.

Lemma tail_count (a : wtask) l : (count a (tail l) + one (head l = Some a) = count a l)%nat.
Proof.
  destruct l as [|t l]; [done|]. simpl. rewrite count_cons.
  rewrite (one_iff (Some t = Some a) (t = a)); [lia|]. naive_solver.
Qed.

Lemma worker_next_ok :
  wk_point x = WNext ->
  returns (exec_worker w k x) (fun '(c, w') => life_inv w' (option_list c ++ cs)).
Proof.
  intros Hp. unfold exec_worker. rewrite Hp. pose proof Hok as [Hst Hr Htk Hd Hq Hs Hl Hsp Hg Hrn].
  assert (Hne : wk_tasks x <> []) by (apply drain_tasks; unfold drains; by rewrite Hp).
  rewrite c_assert_true, bind_ok by (by rewrite bool_decide_false). apply returns_ok.
  cbv zeta. cbn [wk_tasks wk_with_tasks]. set (rest := tail (wk_tasks x)) in *.
  assert (Hone : one (wk_tasks x <> []) = 1%nat) by (by apply one_true).
  assert (Hlast : forall l1 l2, rest = l1 ++ StopTask :: l2 -> l2 = []).
  { intros l1 l2 Hrest. unfold rest in Hrest. destruct (wk_tasks x) as [|t l] eqn:Htl; [done|].
    simpl in Hrest. apply (Hl (t :: l1)). simpl. by rewrite Hrest. }
  destruct (decide (rest = [])) as [Hz|Hnz];
    (eapply (loop_point_ok WNext); [done|done|done|done|done| |at_point Hp; by fold rest]).
  - split; at_point Hp; fold rest in Hs |- *; rewrite ?Hz in *; try done; try lia.
    + rewrite one_false by (by intros []). lia.
    + intros Hx. left. tauto.
    + intros [?|?]; done.
  - split; at_point Hp; fold rest in Hs |- *; try done; try lia.
    + rewrite one_true by done. lia.
    + intros Hx. destruct (Hsp Hx) as [[_ [?|[?|[?|?]]]]|[Hl1 _]]; try done.
      by unfold rest in Hnz; rewrite Hl1 in Hnz.
    + intros [?|?]; done.
Qed.

Lemma queue_release_ok :
  wk_point x = WQueueRelease ->
  returns (exec_worker w k x) (fun '(c, w') => life_inv w' (option_list c ++ cs)).
Proof.
  intros Hp. unfold exec_worker. rewrite Hp. pose proof Hok as [Hst Hr Htk Hd Hq Hs Hl Hsp Hg Hrn].
  assert (Hq' : wk_queue_refs x = Z.of_nat (2 + wk_signals x + total (queue_holds k) cs)).
  { rewrite Hq by (by rewrite Hp). at_point Hp. lia. }
  destruct (Z.eqb_spec (wk_queue_refs x) 1) as [Hz|Hnz]; [lia|]. apply returns_ok.
  eapply (loop_point_ok WQueueRelease); [done|done|done|done|done| |by at_point Hp].
  split; at_point Hp; try done; try lia.
  - intros Hx. destruct (Hsp Hx) as [[? _]|[_ ?]]; [left; tauto|done].
  - intros [?|?]; done.
Qed.

Lemma leave_ok : wk_point x = WLeave -> life_inv (set_wk k (at_wpoint WGone x) w) cs.
Proof.
  intros Hp. pose proof Hok as [Hst Hr Htk Hd Hq Hs Hl Hsp Hg Hrn].
  eapply (loop_point_ok WLeave); [done|done|done|done|done| |by at_point Hp].
  split; at_point Hp; try done; try lia.
  - intros Hx. destruct (Hsp Hx) as [[? _]|[_ ?]]; [left; tauto|done].
  - intros _. apply Hg. by left.
Qed.

Lemma woken_ok :
  wk_point x = WWoken -> lp_alive (lp w) = true ->
  returns (exec_worker w k x) (fun '(c, w') => life_inv w' (option_list c ++ cs)).
Proof.
  intros Hp Ha. unfold exec_worker, worker_woken, get_loop. rewrite Hp, Ha, !bind_ok. apply returns_ok.
  pose proof Hok as [Hst Hr Htk Hd Hq Hs Hl Hsp Hg Hrn]. pose proof enter_le as Hle.
  assert (Hns : wk_stopped x = false).
  { destruct (wk_stopped x) eqn:Hx; [|done]. at_point Hp.
    destruct (Hsp eq_refl) as [[_ [?|[?|[?|?]]]]|[_ ?]]; done. }
  destruct (Nat.ltb_spec (lp_enter_cnt (lp w)) (lp_width (lp w))).
  - apply thread_moves; [|split; at_point Hp; rewrite ?Hns in *; try done; try lia; by intros [?|?]|by at_point Hp].
    split_and!; simpl; rewrite ?Hp; try done.
  - apply thread_moves; [|split; at_point Hp; rewrite ?Hns in *; try done; try lia; by intros [?|?]|by at_point Hp].
    split_and!; simpl; rewrite ?Hp; try done. lia.
Qed.

Lemma spurious_ok : wk_point x = WWait -> life_inv (set_wk k (at_wpoint WWoken x) w) cs.
Proof.
  intros Hp. apply thread_moves; [|by apply woken_worker_ok|by at_point Hp].
  split_and!; simpl; rewrite ?Hp; try done.
Qed.

(** ** Running the tasks of the local queue *)
Lemma run_head t l :
  wk_point x = WRun -> wk_tasks x = t :: l -> (t = StopTask -> l = []) /\
  forall st, st = wk_stopped x || bool_decide (t = StopTask) ->
  worker_ok (lp_collected (lp w)) (total (wholds k) cs) (total (waking k) cs) (total (queue_holds k) cs)
    (total (stopping k) cs) (at_wpoint WNext (wk_with_stopped st x)).
Proof.
  intros Hp Htl. pose proof Hok as [Hst Hr Htk Hd Hq Hs Hl Hsp Hg Hrn].
  assert (Hlast : t = StopTask -> l = []) by (intros ->; by apply (Hl [])).
  split; [done|]. intros st ->.
  assert (Hns : wk_stopped x = false).
  { destruct (wk_stopped x) eqn:Hx; [|done]. at_point Hp.
    destruct (Hsp eq_refl) as [[_ [?|[?|[?|?]]]]|[_ ?]]; done. }
  split; at_point Hp; rewrite ?Hns, ?Htl in *; try done; try lia.
  - rewrite count_cons in Hs. simpl. destruct (decide (t = StopTask)) as [->|Hne].
    + rewrite bool_decide_true by done. rewrite one_true in Hs by done. simpl in *. lia.
    + rewrite bool_decide_false by done. rewrite one_false in Hs by done. simpl in *. lia.
  - intros Ht%bool_decide_eq_true. right. by rewrite Ht, Hlast by done.
  - intros [?|?]; done.
  - intros _ [= ->]. by apply bool_decide_eq_true.
Qed.

(** A barrier that still has to run here has not been freed, and is freed when
    it has run everywhere. *)
Lemma barrier_runs width bc :
  barrier_ok width bc -> (k < width)%nat -> k ∉ bc_ran bc ->
  bc_freed bc = false /\ 0 < bc_refs bc /\
  barrier_ok width (if negb (bc_refs bc =? 1) then mk_barrier (bc_refs bc - 1) (k :: bc_ran bc) (bc_done bc) false
    else mk_barrier (bc_refs bc - 1) (k :: bc_ran bc) (S (bc_done bc)) true).
Proof.
  intros [Hnd Hrg Hrf Hfr Hdn] Hkw Hnin.
  assert (Hnd' : NoDup (k :: bc_ran bc)) by (by constructor).
  assert (Hrg' : forall j, j ∈ k :: bc_ran bc -> (j < width)%nat).
  { intros j [->|Hj]%elem_of_cons; auto. }
  assert (Hlen : (length (k :: bc_ran bc) <= width)%nat).
  { replace width with (length (seq 0 width)) at 1 by apply length_seq. apply submseteq_length, NoDup_submseteq; [done|].
    intros j Hj. apply elem_of_seq. specialize (Hrg' j Hj). lia. }
  simpl in Hlen. assert (Hpos : 0 < bc_refs bc) by lia.
  assert (Hf : bc_freed bc = false) by (rewrite Hfr; apply bool_decide_false; lia).
  rewrite Hf in Hdn. split_and!; [done|done|].
  simpl in Hdn. destruct (Z.eqb_spec (bc_refs bc) 1); simpl; split; simpl; try done; try lia.
  - symmetry. apply bool_decide_true. lia.
  - symmetry. apply bool_decide_false. lia.
Qed.

Lemma run_barrier_ok b l :
  wk_point x = WRun -> wk_tasks x = BarrierTask b :: l -> wk_stopped x = false ->
  worker_ok (lp_collected (lp w)) (total (wholds k) cs) (total (waking k) cs) (total (queue_holds k) cs)
    (total (stopping k) cs) (at_wpoint WNext x) ->
  returns (ntt_barrier_svc w k b) (fun w' => wks w' = wks w /\ life_inv (set_wk k (at_wpoint WNext x) w') cs).
Proof.
  intros Hp Htl Hns Hok'. pose proof (lookup_lt_Some _ _ _ Hk) as Hlt.
  assert (Hup : forall b', (count (BarrierTask b') (to_run x) = one (b = b') + count (BarrierTask b') l)%nat).
  { intros b'. unfold to_run. rewrite decide_False, Htl, count_cons by congruence. f_equal. apply one_iff. naive_solver. }
  pose proof (lv_tasks _ _ Hinv b k x Hk) as Ht. rewrite Hup, one_true in Ht by done.
  unfold ntt_barrier_svc, outstanding in *. destruct (barriers w !! b) as [bc|] eqn:Hb; [|lia].
  assert (Hnin : k ∉ bc_ran bc) by (apply (one_pos (k ∉ bc_ran bc)); lia). rewrite one_true in Ht by done.
  destruct (barrier_runs (lp_width (lp w)) bc) as (Hf & Hpos & Hbok);
    [by eapply lv_barrier|rewrite <- (lv_length _ _ Hinv); done|done|].
  rewrite Hf. cbn [bc_refs bc_ran bc_done]. set (bc' := if negb _ then _ else _) in *. apply returns_ok. split; [done|].
  assert (Hran : bc_ran bc' = k :: bc_ran bc) by (unfold bc'; by destruct (negb _)).
  assert (Hbl : (b < length (barriers w))%nat) by (by eapply lookup_lt_Some).
  eapply life_update_barriers; [done|done|apply swap_refl| |done| | | |apply Hinv|apply (lv_early _ _ Hinv)].
  - assert (Hm : lp_enter_cnt (lp w) = lp_width (lp w)) by (apply (lv_met _ _ Hinv k x Hk); by rewrite Hp).
    split_and!; simpl; rewrite ?Hp; done.
  - intros b' bc0 [[-> ->]|[Hne' Hb0]]%insert_cases; [done|by eapply lv_barrier].
  - intros b'. pose proof (lv_tasks _ _ Hinv b' k x Hk) as Ht'. rewrite Hup in Ht'.
    unfold to_run. rewrite decide_True by done. simpl. rewrite Htl. simpl. unfold outstanding in *.
    destruct (decide (b' = b)) as [->|Hne'].
    + rewrite list_lookup_insert_eq by done. rewrite one_false by (rewrite Hran; set_solver). lia.
    + rewrite list_lookup_insert_ne by done. rewrite one_false in Ht' by congruence. done.
  - intros b' j Hj. unfold outstanding. destruct (decide (b' = b)) as [->|Hne'].
    + rewrite list_lookup_insert_eq, Hb by done. apply one_iff. rewrite Hran. set_solver.
    + by rewrite list_lookup_insert_ne.
Qed.

Lemma run_ok :
  wk_point x = WRun ->
  returns (exec_worker w k x) (fun '(c, w') => life_inv w' (option_list c ++ cs)).
Proof.
  intros Hp. unfold exec_worker. rewrite Hp.
  assert (Hne : wk_tasks x <> []) by (apply drain_tasks; unfold drains; by rewrite Hp).
  destruct (wk_tasks x) as [|t l] eqn:Htl; [done|]. destruct (run_head t l Hp Htl) as [_ Hok'].
  assert (Hns : wk_stopped x = false).
  { destruct (wk_stopped x) eqn:Hx; [|done].
    destruct (wo_stopped _ _ _ _ _ _ Hok Hx) as [[? _]|[_ ?]]; congruence. }
  rewrite Hns in Hok'. simpl in Hok'. pose proof (with_stopped_id _ _ Hns) as Hsame.
  assert (Hsub : forall st, (forall b, t <> BarrierTask b) ->
    forall b, count (BarrierTask b) (to_run (at_wpoint WNext (wk_with_stopped st x))) = count (BarrierTask b) (to_run x)).
  { intros st Ht b. unfold to_run. rewrite decide_True, decide_False by (done || congruence). simpl.
    rewrite Htl, count_cons, one_false by apply Ht. done. }
  destruct t as [|b|]; simpl.
  - rewrite (get_worker_ok _ k (wk_with_stopped true x));
      [|by simpl; rewrite list_lookup_insert_eq by (by eapply lookup_lt_Some)|by simpl; rewrite Hp..].
    rewrite bind_ok. apply returns_ok. simpl.
    replace (set_wk _ _ (set_wk _ _ _)) with (set_wk k (at_wpoint WNext (wk_with_stopped true x)) w)
      by (unfold set_wk; simpl; by rewrite list_insert_insert_eq).
    eapply (loop_point_ok WRun); [done|done|done|done|done|by apply Hok'|by apply Hsub].
  - pose proof (Hok' false eq_refl) as Hok1. rewrite Hsame in Hok1.
    eapply returns_bind; [exact (run_barrier_ok b l Hp Htl Hns Hok1)|]. intros w' [Hw Hl].
    rewrite (get_worker_ok w' k x); [|by rewrite Hw|by rewrite Hp..]. by rewrite bind_ok.
  - rewrite (get_worker_ok _ k x) by (done || by rewrite Hp). rewrite bind_ok. apply returns_ok. simpl.
    replace (at_wpoint WNext x) with (at_wpoint WNext (wk_with_stopped false x)) by (by rewrite Hsame).
    eapply (loop_point_ok WRun); [done|done|done|done|done|by apply Hok'|by apply Hsub].
Qed.

(** ** Meeting the other workers *)
Lemma loop_alive : wk_point x <> WGone -> lp_alive (lp w) = true.
Proof.
  intros Hg. destruct (lp_alive (lp w)) eqn:Ha; [done|].
  destruct (lv_freed _ _ Hinv Ha k) as (y & Hy & Hyg); [|congruence].
  rewrite <- (lv_length _ _ Hinv). by eapply lookup_lt_Some.
Qed.

Lemma not_stopped_early : entered (wk_point x) = false -> wk_stopped x = false.
Proof.
  intros He. destruct (wk_stopped x) eqn:Hx; [|done].
  destruct (wo_stopped _ _ _ _ _ _ Hok Hx) as [[_ [Hp|[Hp|[Hp|Hp]]]]|[_ Hp]]; by rewrite Hp in He.
Qed.

Lemma refs_small : refs_bounded w -> 0 <= wk_refs x < SIZE_MAX.
Proof.
  intros [_ Hb]. split; [rewrite (wo_refs _ _ _ _ _ _ Hok); lia|].
  rewrite Forall_lookup in Hb. by eapply Hb.
Qed.

Lemma enter_ok :
  wk_point x = WEnter -> refs_bounded w ->
  returns (exec_worker w k x) (fun '(c, w') => life_inv w' (option_list c ++ cs)).
Proof.
  intros Hp Hbd. pose proof Hok as [Hst Hr Htk Hd Hq Hs Hl Hsp Hg Hrn].
  assert (Hns : wk_stopped x = false) by (apply not_stopped_early; by rewrite Hp).
  destruct not_met_early as [Hcs Hcol]; [by rewrite Hp|].
  pose proof (lookup_lt_Some _ _ _ Hk) as Hlt. pose proof (refs_small Hbd) as Hsm. unfold SIZE_MAX in Hsm.
  pose proof (loop_alive ltac:(by rewrite Hp)) as Hal.
  unfold exec_worker, worker_enter, ntt_worker_acquire, get_loop. rewrite Hp.
  rewrite (get_worker_ok w k x Hk), bind_ok by (by rewrite Hp).
  rewrite c_assert_true, bind_ok
    by (at_point Hp; destruct (Z.eqb_spec (wk_refs x) 0); [lia|done]).
  rewrite bind_ok. simpl. rewrite Hal, bind_ok.
  rewrite (get_worker_ok _ k (wk_with_refs (u64 (wk_refs x + 1)) x));
    [|by simpl; rewrite list_lookup_insert_eq|by simpl; rewrite Hp..].
  rewrite !bind_ok. apply returns_ok. unfold set_wk, set_lp. simpl. rewrite list_insert_insert_eq.
  rewrite u64_small by lia. set (x' := at_wpoint WMutex _).
  pose proof (insert_cases (wks w) k x') as Hlk.
  destruct Hinv as [Iw Ilen Iwk Ikn Itb Ien Imet Iwt Iwork Icol Icd Ics Iea Ij If Ib It]. split; simpl; try done.
  - by rewrite length_insert.
  - intros j y [[-> ->]|[Hne Hy]]%Hlk; [|by apply Iwk].
    unfold x'. split; at_point Hp; rewrite ?Hcol, ?Hns, ?Hcs in *; simpl in *; try done; try lia.
    + rewrite one_false in Hs |- * by lia. lia.
    + by intros [?|?].
  - intros j y [[-> ->]|[Hne Hy]]%Hlk.
    + rewrite list_lookup_insert_eq; [done|]. lia.
    + rewrite list_lookup_insert_ne by done. by apply Ikn.
  - by rewrite length_insert.
  - pose proof (total_insert (fun y => met (wk_point y)) (wks w) k x x' Hk) as Ht. simpl in Ht.
    rewrite Hp in Ht. simpl in Ht. lia.
  - intros j y [[-> ->]|[Hne Hy]]%Hlk; [done|by eapply Imet].
  - intros j y [[-> ->]|[Hne Hy]]%Hlk; [done|by eapply Iwt].
  - intros i Hi Hiw. apply (gone_insert w k x x' i Hk); [by rewrite Hp|by apply Ij].
  - intros Ha. congruence.
  - intros b j y [[-> ->]|[Hne Hy]]%Hlk; [|by apply It].
    pose proof (It b k x Hk) as It'. unfold to_run, x' in *. rewrite Hp in It'. done.
Qed.

Lemma met_le (l : list ntt_worker) j y :
  l !! j = Some y -> met (wk_point y) = 0%nat -> (total (fun z => met (wk_point z)) l < length l)%nat.
Proof.
  revert j. induction l as [|z l IH]; intros [|j] Hy Hm; [done|done| |]; rewrite total_cons; simpl in Hy |- *.
  - injection Hy as ->. rewrite Hm. clear. induction l as [|z l IH]; [unfold total; simpl; lia|]. rewrite total_cons. simpl.
    destruct (wk_point z); simpl; lia.
  - specialize (IH j Hy Hm). destruct (wk_point z); simpl; lia.
Qed.

Lemma broadcast_lookup l j y :
  broadcast l !! j = Some y -> exists z, l !! j = Some z /\
    ((wk_point z = WWait /\ y = at_wpoint WWoken z) \/ (wk_point z <> WWait /\ y = z)).
Proof.
  unfold broadcast. rewrite list_lookup_fmap. intros (z & Hz & ->)%fmap_Some. exists z. split; [done|].
  case_decide; [by left|by right].
Qed.

Lemma broadcast_met l : total (fun y => met (wk_point y)) (broadcast l) = total (fun y => met (wk_point y)) l.
Proof.
  unfold broadcast. induction l as [|y l IH]; [done|]. rewrite fmap_cons, !total_cons, IH. f_equal.
  case_decide as Hp; [|done]. by rewrite Hp.
Qed.

(** A worker at the mutex goes on in one of two ways. *)
Lemma mutex_worker_ok p :
  wk_point x = WMutex -> p = WWait \/ p = WRelease ->
  worker_ok (lp_collected (lp w)) (total (wholds k) cs) (total (waking k) cs) (total (queue_holds k) cs)
    (total (stopping k) cs) (at_wpoint p x) /\
  (forall b, count (BarrierTask b) (to_run (at_wpoint p x)) = count (BarrierTask b) (to_run x)).
Proof.
  intros Hp Hq. pose proof Hok as [Hst Hr Htk Hd Hqu Hs Hl Hsp Hg Hrn].
  assert (Hns : wk_stopped x = false) by (apply not_stopped_early; by rewrite Hp).
  split; [|intros b; unfold to_run; rewrite Hp; by destruct Hq as [-> | ->]].
  destruct Hq as [-> | ->]; split; at_point Hp; rewrite ?Hns in *; try done; try lia; by intros [?|?].
Qed.

(** The workers [wl] are those of [w] but for [k], which has arrived at [p], and
    for those that were woken. *)
Lemma arrive_ok p wl :
  wk_point x = WMutex -> p = WWait \/ p = WRelease ->
  (p = WWait -> (S (lp_enter_cnt (lp w)) < lp_width (lp w))%nat) ->
  (p = WRelease -> S (lp_enter_cnt (lp w)) = lp_width (lp w) /\ forall j y, wl !! j = Some y -> wk_point y <> WWait) ->
  length wl = length (wks w) ->
  S (total (fun y => met (wk_point y)) (wks w)) = total (fun y => met (wk_point y)) wl ->
  (forall j y, wl !! j = Some y -> (j = k /\ y = at_wpoint p x) \/
     (j <> k /\ exists z, wks w !! j = Some z /\ (y = z \/ (wk_point z = WWait /\ y = at_wpoint WWoken z)))) ->
  (forall i, gone_at w i -> exists y, wl !! i = Some y /\ wk_point y = WGone) ->
  life_inv (mk_lworld (lp_with_enter (S (lp_enter_cnt (lp w))) (lp w)) wl (barriers w)) cs.
Proof.
  intros Hp Hq Hwait Hlast Hlen Hmet Hlk Hgone.
  destruct not_met_early as [Hcs Hcol]; [by rewrite Hp|]. destruct (mutex_worker_ok p Hp Hq) as [Hok' Hrun].
  pose proof (loop_alive ltac:(by rewrite Hp)) as Hal.
  destruct Hinv as [Iw Ilen Iwk Ikn Itb Ien Imet Iwt Iwork Icol Icd Ics Iea Ij If Ib It]. split; simpl; try done.
  - by rewrite Hlen.
  - intros j y [[-> ->]|(Hne & z & Hz & [->|[Hzp ->]])]%Hlk; [done|by apply Iwk|].
    apply woken_worker_ok; [by apply Iwk|done].
  - intros j y [[-> ->]|(Hne & z & Hz & [->|[Hzp ->]])]%Hlk; [|by apply Ikn|pose proof (Ikn j z Hz) as Ik; by rewrite Hzp in Ik].
    pose proof (Ikn k x Hk) as Ik. rewrite Hp in Ik. by destruct Hq as [-> | ->].
  - lia.
  - intros j y Hy He. destruct (Hlk j y Hy) as [[-> ->]|(Hne & z & Hz & [->|[Hzp ->]])]; [|pose proof (Imet j z Hz He)|done].
    + destruct Hq as [-> | ->]; [done|]. by destruct (Hlast eq_refl).
    + destruct Hq as [-> | ->]; [specialize (Hwait eq_refl)|destruct (Hlast eq_refl)]; lia.
  - intros j y Hy Hw. destruct Hq as [-> | ->]; [by apply Hwait|]. by destruct (proj2 (Hlast eq_refl) j y Hy).
  - intros i Hi Hiw. by apply Hgone, Ij.
  - intros Ha. congruence.
  - intros b j y [[-> ->]|(Hne & z & Hz & [->|[Hzp ->]])]%Hlk; [rewrite Hrun; by apply It|by apply It|].
    pose proof (It b j z Hz) as It'. unfold to_run in *. rewrite Hzp in It'. done.
Qed.

Lemma meet_ok :
  wk_point x = WMutex ->
  returns (exec_worker w k x) (fun '(c, w') => life_inv w' (option_list c ++ cs)).
Proof.
  intros Hp. pose proof (loop_alive ltac:(by rewrite Hp)) as Hal.
  unfold exec_worker, worker_meet, get_loop. rewrite Hp, Hal, !bind_ok. apply returns_ok.
  assert (Hen : (lp_enter_cnt (lp w) < lp_width (lp w))%nat).
  { rewrite (lv_enter _ _ Hinv), <- (lv_length _ _ Hinv). eapply (met_le _ k x); [done|by rewrite Hp]. }
  cbn [lp_enter_cnt lp_width lp_with_enter]. unfold set_wk, set_lp, set_wks. simpl.
  destruct (Nat.ltb_spec (S (lp_enter_cnt (lp w))) (lp_width (lp w))) as [Hlt'|Hge].
  - apply (arrive_ok WWait); [done|by left|done|done|by rewrite length_insert| | |].
    + pose proof (total_insert (fun y => met (wk_point y)) (wks w) k x (at_wpoint WWait x) Hk) as Ht. simpl in Ht.
      rewrite Hp in Ht. simpl in Ht. lia.
    + intros j y [?|[Hne Hy]]%insert_cases; [by left|right]. eauto.
    + intros i Hi. apply (gone_insert w k x _ i Hk); [by rewrite Hp|done].
  - assert (Hkb : broadcast (wks w) !! k = Some x).
    { unfold broadcast. rewrite list_lookup_fmap, Hk. simpl. by rewrite decide_False by congruence. }
    apply (arrive_ok WRelease); [done|by right|done| | | | |].
    + intros _. split; [lia|]. intros j y [[-> ->]|[_ (z & _ & [[_ ->]|[? ->]])%broadcast_lookup]]%insert_cases; done.
    + unfold broadcast. by rewrite length_insert, length_fmap.
    + pose proof (total_insert (fun y => met (wk_point y)) _ k x (at_wpoint WRelease x) Hkb) as Ht.
      rewrite broadcast_met in Ht. simpl in Ht. rewrite Hp in Ht. simpl in Ht. lia.
    + intros j y [?|[Hne (z & Hz & [[Hzp ->]|[_ ->]])%broadcast_lookup]]%insert_cases; [by left|right; eauto 8..].
    + intros i (z & Hz & Hzg). destruct (decide (i = k)) as [->|Hne]; [congruence|]. exists z.
      rewrite list_lookup_insert_ne by done. unfold broadcast. rewrite list_lookup_fmap, Hz. simpl.
      by rewrite decide_False by congruence.
Qed.
End thread.
