(* ===== verification/WorkerCallers.v ===== *)
(** * Workers and the life of the loop: the callers keep the invariant *)

From stdpp Require Import base numbers list gmap.
From Stdlib Require Import ZArith Lia.
From S2P Require Import Prelude.
From S2P Require Import Worker.
From S2P Require Import WorkerInv.
From S2P Require Import WorkerSteps.

#[local] Open Scope Z_scope.

Implicit Types (w : lworld) (cs : list caller) (c : caller) (k j b : nat) (x : ntt_worker) (n : cont).

(** ** What happens to one worker *)

(** A reference of a caller goes; with the last one the stop task is on its way. *)
Lemma drop_ref_ok col h t s st x :
  worker_ok col (S h) t s st x -> inited (wk_point x) = true ->
  worker_ok col h t s (st + one (wk_refs x = 1)) (wk_with_refs (wk_refs x - 1) x) /\ wk_stopped x = false.
Proof.
  intros [Hst Hr Htk Hd Hq Hs Hl Hsp Hg Hrn] Hin.
  assert (Hpos : 1 <= wk_refs x) by lia.
  rewrite one_false in Hs by lia.
  assert (Hns : wk_stopped x = false) by (destruct (wk_stopped x); simpl in Hs; [lia|done]).
  split; [|done]. split; unfold drains, to_run, winding_down in *; simpl; try done; try lia.
  - intros Hp. by rewrite Hp in Hin.
  - rewrite (one_iff (wk_refs x - 1 = 0 /\ _) (wk_refs x = 1)) by (split; [lia|intros ->; done]).
    rewrite Hns in *. simpl in *. lia.
Qed.

(** The reference of the thread goes. *)
Lemma drop_own_ok col h t s st x :
  worker_ok col h t s st x -> wk_point x = WRelease ->
  worker_ok col h t s (st + one (wk_refs x = 1)) (at_wpoint WHead (wk_with_refs (wk_refs x - 1) x)).
Proof.
  intros [Hst Hr Htk Hd Hq Hs Hl Hsp Hg Hrn] Hp. at_point Hp.
  rewrite one_false in Hs by lia.
  assert (Hns : wk_stopped x = false) by (destruct (wk_stopped x); simpl in Hs; [lia|done]).
  split; unfold drains, to_run, winding_down in *; simpl; try done; try lia.
  - rewrite (one_iff (wk_refs x - 1 = 0 /\ _) (wk_refs x = 1)) by (split; [lia|intros ->; done]).
    rewrite Hns in *. simpl in *. lia.
  - congruence.
  - by intros [?|?].
Qed.

(** A task arrives: the stop task, or another one while there are references. *)
Lemma push_task_worker col h t s st x tk :
  worker_ok col h t s st x -> inited (wk_point x) = true ->
  (tk = StopTask -> st <> 0%nat) -> (tk <> StopTask -> wk_refs x <> 0) ->
  worker_ok col h (t + one (wk_tasks x = [])) s (st - one (tk = StopTask))
    (wk_with_tasks (wk_tasks x ++ [tk]) x) /\ wk_stopped x = false.
Proof.
  intros [Hst Hr Htk Hd Hq Hs Hl Hsp Hg Hrn] Hin Hstop Hother.
  assert (Hle : (one (wk_refs x = 0%Z /\ inited (wk_point x) = true) <= 1)%nat) by apply one_le.
  assert (Hcnt : count StopTask (to_run x) = 0%nat /\ wk_stopped x = false /\ (tk = StopTask -> st = 1%nat)).
  { destruct (decide (tk = StopTask)) as [->|Hne].
    - specialize (Hstop eq_refl). destruct (wk_stopped x); simpl in *; [lia|]. split_and!; [lia|done|lia].
    - specialize (Hother Hne). rewrite one_false in Hs by (by intros [? _]).
      destruct (wk_stopped x); simpl in *; [lia|]. split_and!; [lia|done|congruence]. }
  destruct Hcnt as (Hcnt & Hns & Hst1).
  assert (Hrun : wk_point x = WNext -> wk_tasks x <> []).
  { intros Hp Hz. unfold drains in Htk. rewrite Hp, Hz, one_false in Htk by (by intros []). lia. }
  assert (Happ : to_run (wk_with_tasks (wk_tasks x ++ [tk]) x) = to_run x ++ [tk]).
  { unfold to_run. cbn [wk_point wk_tasks wk_with_tasks].
    destruct (decide (wk_point x = WNext)) as [Hp|]; [|done]. specialize (Hrun Hp). by destruct (wk_tasks x). }
  assert (Hno : StopTask ∉ tail (wk_tasks x)).
  { intros Hin'. assert (Hc : (0 < count StopTask (tail (wk_tasks x)))%nat) by (by apply count_elem).
    unfold to_run in Hcnt. case_decide; [lia|]. pose proof (tail_count StopTask (wk_tasks x)). lia. }
  split; [|done]. split; try done.
  - simpl. intros Hp. by rewrite Hp in Hin.
  - change (drains _) with (drains x). cbn [wk_signals wk_tasks wk_with_tasks].
    rewrite (one_true (_ ++ _ <> [])) by (by destruct (wk_tasks x)).
    destruct (decide (wk_tasks x = [])) as [Hz|Hz].
    + rewrite (one_true (_ = [])) by done. rewrite one_false in Htk by (by intros []). lia.
    + rewrite (one_false (_ = [])) by done. rewrite one_true in Htk by done. lia.
  - cbn [wk_refs wk_stopped wk_point wk_with_tasks]. rewrite Happ, count_app, Hcnt, count_cons, count_nil.
    destruct (decide (tk = StopTask)) as [->|Hne].
    + rewrite one_true by done. specialize (Hst1 eq_refl). lia.
    + rewrite !(one_false (tk = StopTask)) by done. lia.
  - cbn [wk_tasks wk_with_tasks]. intros l1 l2 Heq. destruct l2 as [|y l2 _] using rev_ind; [done|exfalso].
    rewrite app_comm_cons, app_assoc in Heq. apply app_inj_tail in Heq as [Heq _].
    destruct l1 as [|z l1]; simpl in Heq.
    + unfold to_run in Hcnt. rewrite Heq in *. case_decide as Hp.
      * by rewrite Hrn in Hns.
      * rewrite count_cons, one_true in Hcnt by done. lia.
    + apply Hno. rewrite Heq. simpl. apply elem_of_app. right. by left.
  - intros Hx. cbn in Hx. congruence.
  - cbn [wk_point wk_tasks wk_stopped wk_with_tasks]. intros Hp Hh. specialize (Hrun Hp).
    apply Hrn; [done|]. by destruct (wk_tasks x).
Qed.

(** The signal of an acquired local queue is sent. *)
Lemma local_acquire_worker col h t s st x :
  worker_ok col h t s st x -> inited (wk_point x) = true ->
  worker_ok col h t (S s) st (wk_with_queue_refs (wk_queue_refs x + 1) x) /\ wk_queue_refs x <> 0.
Proof.
  intros [Hst Hr Htk Hd Hq Hs Hl Hsp Hg Hrn] Hin. specialize (Hq Hin). split; [|lia].
  split; try done; simpl.
  - intros Hp. by rewrite Hp in Hin.
  - intros _. change (drains (wk_with_queue_refs _ x)) with (drains x). lia.
Qed.

Lemma signal_worker col h t s st x :
  worker_ok col h (S t) (S s) st x -> inited (wk_point x) = true ->
  worker_ok col h t s st (wk_with_signals (S (wk_signals x)) x).
Proof.
  intros [Hst Hr Htk Hd Hq Hs Hl Hsp Hg Hrn] Hin. specialize (Hq Hin).
  split; try done; simpl.
  - intros Hp. by rewrite Hp in Hin.
  - change (drains (wk_with_signals _ x)) with (drains x). lia.
  - intros _. change (drains (wk_with_signals _ x)) with (drains x). lia.
Qed.

Section callers.
Context `{Platform} (w : lworld) (cs : list caller).

(** A caller is there, so the workers have met. *)
Lemma caller_met c : life_inv w (c :: cs) -> lp_enter_cnt (lp w) = lp_width (lp w).
Proof.
  intros Hinv. destruct (decide (lp_enter_cnt (lp w) = lp_width (lp w))) as [?|Hne]; [done|].
  by destruct (lv_early _ _ Hinv Hne).
Qed.

Lemma caller_worker c k :
  life_inv w (c :: cs) -> (k < lp_width (lp w))%nat -> exists x, wks w !! k = Some x /\
    met (wk_point x) = 1%nat /\ inited (wk_point x) = true /\ wk_point x <> WStart.
Proof.
  intros Hinv Hk. destruct (lookup_lt_is_Some_2 (wks w) k) as [x Hx]; [by rewrite (lv_length _ _ Hinv)|].
  exists x. pose proof (all_met w _ k x Hinv (caller_met c Hinv) Hx) as Hm.
  split_and!; [done|done|by destruct (wk_point x)|by destruct (wk_point x)].
Qed.

(** The worker is still there. *)
Lemma not_gone col h t s st x :
  worker_ok col h t s st x -> wk_stopped x = false -> wk_point x <> WGone.
Proof. intros Hok Hs Hg. assert (wk_stopped x = true); [apply (wo_gone _ _ _ _ _ _ Hok); by right|congruence]. Qed.

Lemma waking_there col h t s st x :
  worker_ok col h (1 + t) s st x -> wk_point x <> WGone.
Proof.
  intros Hok Hg. pose proof (wo_token _ _ _ _ _ _ Hok) as Ht.
  destruct (wo_stopped _ _ _ _ _ _ Hok) as [[Hz _]|[_ Hp]]; [by apply Hok; right| |congruence].
  rewrite Hz, one_false in Ht by (by intros []). lia.
Qed.

(** [c] becomes [c'] while it works on [k]. *)
Lemma caller_moves c c' k x x' :
  life_inv w (c :: cs) -> wks w !! k = Some x ->
  (forall j, j <> k -> wholds j c' = wholds j c) -> (forall j, j <> k -> waking j c' = waking j c) ->
  (forall j, j <> k -> queue_holds j c' = queue_holds j c) -> (forall j, j <> k -> stopping j c' = stopping j c) ->
  (forall b j, j <> k -> pends b j c' = pends b j c) -> works c' = works c -> collecting c' = collecting c ->
  wk_point x' = wk_point x ->
  worker_ok (lp_collected (lp w)) (wholds k c' + total (wholds k) cs) (waking k c' + total (waking k) cs)
    (queue_holds k c' + total (queue_holds k) cs) (stopping k c' + total (stopping k) cs) x' ->
  (forall b, count (BarrierTask b) (to_run x') + pends b k c' = count (BarrierTask b) (to_run x) + pends b k c)%nat ->
  caller_ok (lp_width (lp w)) c' -> life_inv (set_wk k x' w) (c' :: cs).
Proof.
  intros Hinv Hk Hh Hw Hq Hs Hpd Hwo Hco Hp Hok Hb Hc. pose proof (caller_met c Hinv) as Hm.
  pose proof (lv_callers _ _ Hinv) as Hcs. apply Forall_cons in Hcs as [_ Hcs].
  eapply life_update; [exact Hinv|exact Hk| | |exact Hok| | |].
  - split; [intros j Hj..|intros b j Hj| |]; rewrite !total_cons; auto.
  - split_and!; rewrite ?Hp; try done. intros Hx. exact (lv_wait _ _ Hinv k x Hk Hx).
  - intros b. rewrite !total_cons. specialize (Hb b). lia.
  - by apply Forall_cons.
  - done.
Qed.

(** ** The calls *)
Lemma release_one_ok k todo :
  life_inv w (CRelease (Some k :: todo) :: cs) -> refs_bounded w ->
  returns (exec_caller (CRelease (Some k :: todo)) w) (fun '(c, w') => life_inv w' (option_list c ++ cs)).
Proof.
  intros Hinv Hbd. pose proof (lv_callers _ _ Hinv) as Hcs. apply Forall_cons in Hcs as [Hc _].
  apply Forall_cons in Hc as [(k' & [= <-] & Hkw) Htodo].
  destruct (caller_worker _ k Hinv Hkw) as (x & Hx & Hm & Hin & Hns).
  pose proof (lv_worker _ _ Hinv k x Hx) as Hok. rewrite !total_cons in Hok. cbn [wholds] in Hok.
  rewrite count_cons, one_true in Hok by done.
  destruct (drop_ref_ok _ _ _ _ _ _ Hok Hin) as [Hok' Hst].
  pose proof (wo_refs _ _ _ _ _ _ Hok) as Hr.
  assert (Hlt : wk_refs x < SIZE_MAX) by (destruct Hbd as [_ Hbd]; rewrite Forall_lookup in Hbd; by eapply Hbd).
  unfold SIZE_MAX in Hlt. cbn [exec_caller release_next]. unfold ntt_worker_release.
  rewrite (get_worker_ok w k x Hx Hns) by (by eapply not_gone). rewrite bind_ok.
  rewrite c_assert_true by (unfold SIZE_MAX; by destruct (Z.eqb_spec (wk_refs x) (2 ^ 64 - 1)); [lia|]).
  rewrite !bind_ok, u64_small by lia. apply returns_ok.
  assert (Hnot : forall j, j <> k -> count (Some j) (Some k :: todo) = count (Some j) todo).
  { intros j Hj. rewrite count_cons, one_false; [done|]. congruence. }
  destruct (Z.eqb_spec (wk_refs x) 1) as [Hl|Hl]; simpl.
  - eapply caller_moves; [exact Hinv|done| | | | | |done|done|done| | |].
    + intros j Hj. simpl. by rewrite Hnot.
    + done.
    + done.
    + intros j Hj. simpl. by rewrite one_false.
    + done.
    + cbn [wholds waking queue_holds stopping kholds]. rewrite one_true in Hok' by done. rewrite one_true by done.
      rewrite Nat.add_1_r in Hok'. exact Hok'.
    + done.
    + simpl. split_and!; [done|done|by left].
  - eapply caller_moves; [exact Hinv|done| |done|done|done|done|done|done|done| |done|done].
    + intros j Hj. simpl. by rewrite Hnot.
    + cbn [wholds waking queue_holds stopping]. rewrite one_false, Nat.add_0_r in Hok' by done. exact Hok'.
Qed.

(** A caller that holds nothing is not needed. *)
Lemma drop_caller c :
  life_inv w (c :: cs) -> (forall j, wholds j c = 0%nat /\ waking j c = 0%nat /\ queue_holds j c = 0%nat /\
    stopping j c = 0%nat /\ forall b, pends b j c = 0%nat) -> works c = 0%nat -> collecting c = 0%nat -> life_inv w cs.
Proof.
  intros Hinv Hz Hw Hc. pose proof (caller_met c Hinv) as Hm.
  destruct Hinv as [Iw Ilen Iwk Ikn Itb Ien Imet Iwt Iwork Icol Icd Ics Iea Ij If Ib It]. split; try done.
  - intros k x Hk. specialize (Iwk k x Hk). destruct (Hz k) as (H1 & H2 & H3 & H4 & _).
    rewrite !total_cons, H1, H2, H3, H4 in Iwk. exact Iwk.
  - rewrite total_cons, Hw in Iwork. exact Iwork.
  - rewrite total_cons, Hc in Icol. exact Icol.
  - by apply Forall_cons in Ics as [_ ?].
  - intros b k x Hk. specialize (It b k x Hk). destruct (Hz k) as (_ & _ & _ & _ & H5).
    rewrite total_cons, H5 in It. exact It.
Qed.

(** What goes on after a push, as a caller. *)
Definition as_caller n : caller :=
  match n with
  | KStop => CRelease []
  | KRelease todo => CRelease todo
  | KBarrier b i => CBarrier b i
  | KReturn k => CRelease [Some k]
  end.

Lemma as_caller_counts n :
  (forall j, wholds j (as_caller n) = kholds j n) /\ (forall j, waking j (as_caller n) = 0%nat) /\
  (forall j, queue_holds j (as_caller n) = 0%nat) /\ (forall j, stopping j (as_caller n) = 0%nat) /\
  (forall b j, pends b j (as_caller n) = kpends b j n) /\ works (as_caller n) = kworks n /\
  collecting (as_caller n) = 0%nat.
Proof.
  destruct n; split_and!; try done. intros j. simpl. rewrite count_cons, count_nil, Nat.add_0_r.
  apply one_iff. naive_solver.
Qed.

Lemma as_caller_ok width n : cont_ok width n -> caller_ok width (as_caller n).
Proof.
  destruct n; simpl; try done.
  - intros _. by constructor.
  - intros Hk. constructor; [eauto|constructor].
Qed.

Lemma resume_ok n :
  life_inv w (as_caller n :: cs) -> life_inv (resume n w).2 (option_list (resume n w).1 ++ cs).
Proof.
  intros Hinv. destruct n as [|todo|b i|k]; simpl in *; try done.
  - by eapply drop_caller.
  - pose proof (lv_callers _ _ Hinv) as Hcs. apply Forall_cons in Hcs as [Hc Hcs].
    apply Forall_cons in Hc as [(k' & [= <-] & Hkw) _].
    destruct (caller_worker _ k Hinv Hkw) as (x & Hx & Hm & Hin & Hns). rewrite Hx.
    pose proof (lv_worker _ _ Hinv k x Hx) as Hok. rewrite !total_cons in Hok. cbn [wholds] in Hok.
    rewrite count_cons, one_true in Hok by done.
    pose proof (caller_met _ Hinv) as Hmet.
    eapply life_update; [exact Hinv|done| | | | |done|done].
    + split; [intros j Hj..|intros b j Hj| |]; rewrite !total_cons; simpl; try done.
      rewrite count_cons, one_false by congruence. done.
    + split_and!; try done. intros Hp. exact (lv_wait _ _ Hinv k x Hx Hp).
    + destruct Hok as [Hst Hr Htk Hd Hq Hs Hl Hsp Hg Hrn]. split; try done; simpl.
      * simpl in Hr. rewrite Hr. lia.
      * intros Hkn. by destruct (wk_point x).
    + intros b. rewrite total_cons. done.
Qed.

End callers.

Section calls.
Context `{Platform} (w : lworld) (cs : list caller).

(** A push finds its worker there. *)
Lemma push_target k t n x :
  life_inv w (CPush k t n :: cs) -> wks w !! k = Some x -> inited (wk_point x) = true -> met (wk_point x) = 1%nat ->
  (t = StopTask -> total (stopping k) (CPush k t n :: cs) <> 0%nat) /\ (t <> StopTask -> wk_refs x <> 0).
Proof.
  intros Hinv Hx Hin Hm. pose proof (lv_worker _ _ Hinv k x Hx) as Hok. pose proof (wo_refs _ _ _ _ _ _ Hok) as Hr.
  pose proof (lv_callers _ _ Hinv) as Hcs. apply Forall_cons in Hcs as [(_ & _ & Hc) _]. split.
  - intros ->. rewrite total_cons. simpl. rewrite one_true by done. lia.
  - intros Hne. destruct Hc as [?|[(b & i & -> & ->)|[-> ->]]]; [done| |].
    + pose proof (lv_work _ _ Hinv) as Hw. rewrite total_cons in Hw. simpl in Hw.
      assert (Hcol : lp_collected (lp w) = false).
      { destruct (lp_collected (lp w)) eqn:Hc; [|done]. pose proof (lv_collected _ _ Hinv Hc). lia. }
      rewrite Hcol in Hr. assert (Hkn : known (wk_point x) = true) by (by destruct (wk_point x)).
      rewrite Hkn in Hr. simpl in Hr. lia.
    + rewrite total_cons in Hr. simpl in Hr. rewrite one_true in Hr by done. lia.
Qed.

(** What a push counts for, as a caller. *)
Lemma push_counts k t n :
  stopping k (CPush k t n) = one (t = StopTask) /\ (forall j, j <> k -> stopping j (CPush k t n) = 0%nat) /\
  (forall b, pends b k (CPush k t n) = (one (t = BarrierTask b) + kpends b k n)%nat) /\
  (forall b j, j <> k -> pends b j (CPush k t n) = kpends b j n).
Proof.
  split_and!.
  - destruct t; simpl; [by rewrite !one_true|by rewrite one_false..].
  - intros j Hj. destruct t; simpl; [|done..]. by rewrite one_false by congruence.
  - intros b. simpl. f_equal. apply one_iff. tauto.
  - intros b j Hj. simpl. rewrite one_false; [done|]. intros [_ ?]. congruence.
Qed.

(** A task that is pushed is going to be run. *)
Lemma push_to_run col h t s st x tk (a : wtask) :
  worker_ok col h t s st x ->
  count a (to_run (wk_with_tasks (wk_tasks x ++ [tk]) x)) = (count a (to_run x) + one (tk = a))%nat.
Proof.
  intros Hok. unfold to_run. cbn [wk_point wk_tasks wk_with_tasks]. destruct (decide (wk_point x = WNext)) as [Hp|Hp].
  - assert (Hne : wk_tasks x <> []).
    { intros Hz. pose proof (wo_token _ _ _ _ _ _ Hok) as Htk. unfold drains in Htk.
      rewrite Hp, Hz, one_false in Htk by (by intros []). lia. }
    destruct (wk_tasks x) as [|z l]; [done|]. simpl. by rewrite count_app, count_cons, count_nil, Nat.add_0_r.
  - by rewrite count_app, count_cons, count_nil, Nat.add_0_r.
Qed.

(** The stop task is not in the queue when a task is pushed. *)
Lemma stop_unlinked col h t s st x tk :
  worker_ok col h t s st x -> (tk = StopTask -> st <> 0%nat) -> wk_stopped x = false ->
  tk <> StopTask \/ StopTask ∉ wk_tasks x.
Proof.
  intros Hok Hst Hns. destruct (decide (tk = StopTask)) as [->|]; [right|by left]. specialize (Hst eq_refl).
  pose proof (wo_stop _ _ _ _ _ _ Hok) as Hs. rewrite Hns in Hs. simpl in Hs.
  assert (count StopTask (to_run x) = 0%nat) as Hc.
  { assert (one (wk_refs x = 0%Z /\ inited (wk_point x) = true) <= 1)%nat by apply one_le. lia. }
  intros Hin. assert (Hin' : StopTask ∈ to_run x).
  { unfold to_run. destruct (decide (wk_point x = WNext)) as [Hp|Hp]; [|exact Hin]. pose proof (wo_ran _ _ _ _ _ _ Hok Hp) as Hr.
    destruct (wk_tasks x) as [|z l]; [by apply elem_of_nil in Hin|]. apply elem_of_cons in Hin as [<-|]; [|done].
    by rewrite (Hr eq_refl) in Hns. }
  apply count_elem in Hin'. lia.
Qed.

Lemma push_ok k t n :
  life_inv w (CPush k t n :: cs) ->
  returns (exec_caller (CPush k t n) w) (fun '(c, w') => life_inv w' (option_list c ++ cs)).
Proof.
  intros Hinv. pose proof (lv_callers _ _ Hinv) as Hcs. apply Forall_cons in Hcs as [(Hkw & Hn & Hc) _].
  destruct (caller_worker w cs _ k Hinv Hkw) as (x & Hx & Hm & Hin & Hns).
  destruct (push_target k t n x Hinv Hx Hin Hm) as [Hstop Hother].
  pose proof (lv_worker _ _ Hinv k x Hx) as Hok.
  destruct (push_task_worker _ _ _ _ _ _ t Hok Hin Hstop Hother) as [Hok' Hst].
  destruct (push_counts k t n) as (C1 & C2 & C3 & C4).
  rewrite !total_cons, C1 in Hok'. cbn [wholds waking queue_holds] in Hok'.
  rewrite (Nat.add_comm (one (t = StopTask))), Nat.add_sub in Hok'.
  cbn [exec_caller]. unfold local_push. rewrite (get_worker_ok w k x Hx Hns) by (by eapply not_gone).
  rewrite bind_ok, c_assert_true, !bind_ok by (apply bool_decide_eq_true; by eapply stop_unlinked).
  set (x' := wk_with_tasks _ x) in *.
  assert (Hpk : forall b, (count (BarrierTask b) (to_run x') + kpends b k n =
    count (BarrierTask b) (to_run x) + pends b k (CPush k t n))%nat).
  { intros b. unfold x'. rewrite (push_to_run _ _ _ _ _ _ _ _ Hok), C3. lia. }
  destruct (as_caller_counts n) as (A1 & A2 & A3 & A4 & A5 & A6 & A7).
  case_bool_decide as Hemp; apply returns_ok.
  - simpl. eapply caller_moves; [exact Hinv|done| | | | | | | | | |exact Hpk|]; try done.
    + intros j Hj. simpl. by rewrite one_false.
    + intros j Hj. by rewrite C2.
    + intros b j Hj. by rewrite C4.
    + cbn [wholds waking queue_holds stopping]. rewrite one_true in Hok' by done. rewrite one_true by done.
      rewrite Nat.add_0_l, Nat.add_1_r in Hok'. exact Hok'.
  - pose proof (resume_ok (set_wk k x' w) cs n) as Hres. destruct (resume n (set_wk k x' w)) as [o w'].
    apply Hres. eapply caller_moves; [exact Hinv|done| | | | | | | | | | |]; try done.
    + intros j Hj. by rewrite A4, C2.
    + intros b j Hj. by rewrite A5, C4.
    + rewrite A1, A2, A3, A4. rewrite one_false, Nat.add_0_r in Hok' by done. exact Hok'.
    + intros b. rewrite A5. apply Hpk.
    + by apply as_caller_ok.
Qed.

Lemma acquire_call_ok k n :
  life_inv w (CAcquire k n :: cs) ->
  returns (exec_caller (CAcquire k n) w) (fun '(c, w') => life_inv w' (option_list c ++ cs)).
Proof.
  intros Hinv. pose proof (lv_callers _ _ Hinv) as Hcs. apply Forall_cons in Hcs as [(Hkw & Hn) _].
  destruct (caller_worker w cs _ k Hinv Hkw) as (x & Hx & Hm & Hin & Hns).
  pose proof (lv_worker _ _ Hinv k x Hx) as Hok.
  rewrite !total_cons in Hok. cbn [wholds waking queue_holds stopping] in Hok. rewrite one_true in Hok by done.
  destruct (local_acquire_worker _ _ _ _ _ _ Hok Hin) as [Hok' Hq].
  cbn [exec_caller]. unfold local_acquire. rewrite (get_worker_ok w k x Hx Hns) by (by eapply waking_there).
  rewrite bind_ok, c_assert_true, !bind_ok by (by destruct (Z.eqb_spec (wk_queue_refs x) 0)).
  apply returns_ok. eapply caller_moves; [exact Hinv|done|done|done| |done|done|done|done|done| |done|done].
  - intros j Hj. simpl. by rewrite one_false.
  - cbn [wholds waking queue_holds stopping]. rewrite one_true by done. exact Hok'.
Qed.

Lemma signal_call_ok k n :
  life_inv w (CSignal k n :: cs) ->
  returns (exec_caller (CSignal k n) w) (fun '(c, w') => life_inv w' (option_list c ++ cs)).
Proof.
  intros Hinv. pose proof (lv_callers _ _ Hinv) as Hcs. apply Forall_cons in Hcs as [(Hkw & Hn) _].
  destruct (caller_worker w cs _ k Hinv Hkw) as (x & Hx & Hm & Hin & Hns).
  pose proof (lv_worker _ _ Hinv k x Hx) as Hok. pose proof Hok as Hok0.
  rewrite !total_cons in Hok. cbn [wholds waking queue_holds stopping] in Hok. rewrite one_true in Hok by done.
  pose proof (signal_worker _ _ _ _ _ _ Hok Hin) as Hok'.
  cbn [exec_caller]. unfold ntt_worker_local_queue_wakeup.
  rewrite (get_worker_ok w k x Hx Hns) by (by eapply waking_there). rewrite !bind_ok.
  apply returns_ok. set (x' := wk_with_signals _ x) in *.
  pose proof (resume_ok (set_wk k x' w) cs n) as Hres. destruct (resume n (set_wk k x' w)) as [o w'] eqn:Hre.
  destruct (as_caller_counts n) as (A1 & A2 & A3 & A4 & A5 & A6 & A7).
  apply Hres. eapply caller_moves; [exact Hinv|done| | | | | | | | | | |]; try done.
  - intros j Hj. rewrite A2. simpl. by rewrite one_false.
  - intros j Hj. rewrite A3. simpl. by rewrite one_false.
  - by rewrite A1, A2, A3, A4.
  - intros b. by rewrite A5.
  - by apply as_caller_ok.
Qed.
End calls.
