(* ===== verification/WorkerRest.v ===== *)
(** * Workers and the life of the loop: the remaining steps

    The reference of the thread, work of the loop, barriers, the end of the loop,
    and what the code around may do; then the invariant of every reachable state. *)

From stdpp Require Import base numbers list gmap.
From Stdlib Require Import ZArith Lia.
From S2P Require Import Prelude.
From S2P Require Import Worker.
From S2P Require Import WorkerInv.
From S2P Require Import WorkerSteps.
From S2P Require Import WorkerCallers.

#[local] Open Scope Z_scope.

Implicit Types (w : lworld) (cs : list caller) (c : caller) (k j b : nat) (x : ntt_worker) (n : cont).

(** ** The loop changes, the workers do not *)
Record same_meeting (l l' : ntt_loop) : Prop := {
  sm_width : lp_width l' = lp_width l;
  sm_enter : lp_enter_cnt l' = lp_enter_cnt l;
  sm_workers : lp_workers l' = lp_workers l;
  sm_joined : lp_joined l' = lp_joined l;
  sm_alive : lp_alive l' = lp_alive l;
}.

Lemma life_loop w l' cs cs' :
  life_inv w cs -> same_meeting (lp w) l' ->
  (forall k x, wks w !! k = Some x -> worker_ok (lp_collected l') (total (wholds k) cs') (total (waking k) cs')
    (total (queue_holds k) cs') (total (stopping k) cs') x) ->
  lp_work_cnt l' = Z.of_nat (lp_tokens l' + total works cs') ->
  total collecting cs' = one (lp_work_cnt l' = 0 /\ lp_collected l' = false) ->
  (lp_collected l' = true -> lp_work_cnt l' = 0) ->
  Forall (caller_ok (lp_width (lp w))) cs' ->
  (lp_enter_cnt (lp w) <> lp_width (lp w) -> cs' = [] /\ lp_collected l' = false) ->
  (forall b k, (k < lp_width (lp w))%nat -> total (pends b k) cs' = total (pends b k) cs) ->
  life_inv (set_lp l' w) cs'.
Proof.
  intros Hinv [M1 M2 M3 M4 M5] Hwk Hwork Hcol Hcd Hcs Hea Hp.
  destruct Hinv as [Iw Ilen Iwk Ikn Itb Ien Imet Iwt Iwork Icol Icd Ics Iea Ij If Ib It].
  split; simpl; rewrite ?M1, ?M2, ?M3, ?M4, ?M5; try done.
  intros b k x Hk. rewrite Hp; [by apply It|]. rewrite <- Ilen. by eapply lookup_lt_Some.
Qed.

(** [c] becomes [c'], neither having to do with single workers. *)
Definition plain c : Prop :=
  forall j, wholds j c = 0%nat /\ waking j c = 0%nat /\ queue_holds j c = 0%nat /\ stopping j c = 0%nat.

Lemma plain_total f cs l :
  (forall c, c ∈ l -> f c = 0%nat) -> total f (l ++ cs) = total f cs.
Proof.
  intros Hz. rewrite total_app. induction l as [|c l IH]; [done|]. rewrite total_cons, Hz by (by left).
  apply IH. intros c' Hc'. apply Hz. by right.
Qed.

Lemma life_plain w l' cs l m :
  life_inv w (l ++ cs) -> Forall plain l -> Forall plain m -> same_meeting (lp w) l' ->
  lp_collected l' = lp_collected (lp w) ->
  lp_work_cnt l' = Z.of_nat (lp_tokens l' + total works (m ++ cs)) ->
  total collecting (m ++ cs) = one (lp_work_cnt l' = 0 /\ lp_collected l' = false) ->
  (lp_collected l' = true -> lp_work_cnt l' = 0) ->
  Forall (caller_ok (lp_width (lp w))) m ->
  (lp_enter_cnt (lp w) = lp_width (lp w)) ->
  (forall b k, (k < lp_width (lp w))%nat -> total (pends b k) m = total (pends b k) l) ->
  life_inv (set_lp l' w) (m ++ cs).
Proof.
  intros Hinv Hl Hm Hsm Hc Hwork Hcol Hcd Hok Hen Hp. rewrite Forall_forall in Hl, Hm.
  eapply life_loop; try done.
  - intros k x Hk. pose proof (lv_worker _ _ Hinv k x Hk) as Hx. rewrite Hc.
    rewrite !plain_total in Hx by (intros c Hc'; by apply Hl).
    rewrite !plain_total by (intros c Hc'; by apply Hm). exact Hx.
  - apply Forall_app. split; [done|]. by apply (Forall_app _ l), Hinv.
  - intros b k Hk. rewrite !total_app, Hp by done. done.
Qed.

(** ** The reference of the thread *)
Lemma release_own_ok `{Platform} w cs k x :
  life_inv w cs -> wks w !! k = Some x -> wk_point x = WRelease -> refs_bounded w ->
  returns (exec_worker w k x) (fun '(c, w') => life_inv w' (option_list c ++ cs)).
Proof.
  intros Hinv Hk Hp Hbd. pose proof (lv_worker _ _ Hinv k x Hk) as Hok.
  pose proof (refs_small w cs k x Hinv Hk Hbd) as Hsm. unfold SIZE_MAX in Hsm.
  pose proof (wo_refs _ _ _ _ _ _ Hok) as Hr. pose proof (drop_own_ok _ _ _ _ _ _ Hok Hp) as Hok'.
  assert (Hm : lp_enter_cnt (lp w) = lp_width (lp w)) by (apply (lv_met _ _ Hinv k x Hk); by rewrite Hp).
  pose proof (lookup_lt_Some _ _ _ Hk) as Hlt. rewrite Hp in Hr. simpl in Hr.
  unfold exec_worker, ntt_worker_release. rewrite Hp, (get_worker_ok w k x Hk), bind_ok by (by rewrite Hp).
  rewrite c_assert_true, !bind_ok by (unfold SIZE_MAX; by destruct (Z.eqb_spec (wk_refs x) (2 ^ 64 - 1)); [lia|]).
  rewrite (get_worker_ok _ k (wk_with_refs (u64 (wk_refs x - 1)) x));
    [|by simpl; rewrite list_lookup_insert_eq|by simpl; rewrite Hp..].
  rewrite bind_ok. apply returns_ok. rewrite u64_small by lia.
  unfold set_wk at 2. cbn [lp wks barriers]. unfold set_wk. cbn [lp wks barriers]. rewrite list_insert_insert_eq.
  fold (set_wk k (at_wpoint WHead (wk_with_refs (wk_refs x - 1) x)) w).
  assert (Hst : same_stage w x (at_wpoint WHead (wk_with_refs (wk_refs x - 1) x)))
    by (split_and!; simpl; rewrite ?Hp; done).
  destruct (Z.eqb_spec (wk_refs x) 1) as [Hl|Hl]; simpl.
  - rewrite one_true, Nat.add_1_r in Hok' by done.
    eapply life_update; [done|done| |done| | | |congruence].
    + split; [intros j Hj..|intros b j Hj| |]; rewrite ?total_cons; simpl; try done.
      by rewrite one_false by congruence.
    + rewrite !total_cons. simpl. rewrite one_true by done. exact Hok'.
    + intros b. rewrite total_cons. unfold to_run. simpl. by rewrite Hp.
    + apply Forall_cons. split; [|apply Hinv]. simpl. split_and!; [|done|by left].
      by rewrite <- (lv_length _ _ Hinv).
  - rewrite one_false, Nat.add_0_r in Hok' by done.
    eapply thread_moves; try done. intros b. unfold to_run. simpl. by rewrite Hp.
Qed.

(** The assertion of a release does not notice a worker without references: the
    count goes round to its greatest value, and only the next release is caught. *)
Lemma release_at_zero `{Platform} w k x :
  get_worker w k = Ok x -> wk_refs x = 0 ->
  ntt_worker_release w k = Ok (false, set_wk k (wk_with_refs SIZE_MAX x) w).
Proof. intros Hg Hz. unfold ntt_worker_release. rewrite Hg, bind_ok, Hz, c_assert_true, bind_ok by done. done. Qed.

(** ** Every step of a thread *)
Lemma worker_exec_ok `{Platform} w cs k x :
  life_inv w cs -> wks w !! k = Some x -> worker_ready x = true -> refs_bounded w ->
  returns (exec_worker w k x) (fun '(c, w') => life_inv w' (option_list c ++ cs)).
Proof.
  intros Hinv Hk Hrd Hbd. unfold worker_ready in Hrd.
  destruct (wk_point x) eqn:Hp; try done.
  - unfold exec_worker. rewrite Hp. apply returns_ok. by eapply start_ok.
  - by apply enter_ok.
  - by apply meet_ok.
  - apply woken_ok; [done|done|done|]. eapply loop_alive; [done|done|by rewrite Hp].
  - by apply release_own_ok.
  - unfold exec_worker. rewrite Hp. apply returns_ok. by eapply head_ok.
  - unfold exec_worker. rewrite Hp. apply returns_ok. eapply svc_ok; [done|done|done|].
    by apply negb_true_iff, bool_decide_eq_false in Hrd.
  - by apply check_ok.
  - by apply run_ok.
  - by apply worker_next_ok.
  - by apply queue_release_ok.
  - unfold exec_worker. rewrite Hp. apply returns_ok. by eapply leave_ok.
Qed.

(** ** Work of the loop *)
Section work.
Context `{Platform} (w : lworld) (cs : list caller).

Lemma not_collected c : life_inv w (c :: cs) -> works c = 1%nat -> lp_collected (lp w) = false /\ 0 < lp_work_cnt (lp w).
Proof.
  intros Hinv Hw. pose proof (lv_work _ _ Hinv) as Hwk. rewrite total_cons, Hw in Hwk.
  destruct (lp_collected (lp w)) eqn:Hc; [pose proof (lv_collected _ _ Hinv Hc)|]; lia.
Qed.

(** The loop is there as long as it refers to its workers. *)
Lemma uncollected_alive cs' :
  life_inv w cs' -> lp_enter_cnt (lp w) = lp_width (lp w) -> lp_collected (lp w) = false -> lp_alive (lp w) = true.
Proof.
  intros Hinv He Hc. destruct (lp_alive (lp w)) eqn:Ha; [done|]. exfalso.
  destruct (lv_freed _ _ Hinv Ha 0%nat) as (x & Hx & Hg); [pose proof (lv_width _ _ Hinv); lia|].
  pose proof (lv_worker _ _ Hinv _ x Hx) as [Hst Hr Htk Hd Hq Hs Hl Hsp Hgo Hrn Hcl].
  rewrite Hgo in Hs by (by right). rewrite Hg, Hc in *. simpl in *. rewrite one_false in Hs by lia. lia.
Qed.

Lemma leave_call_ok :
  life_inv w (CLeave :: cs) -> refs_bounded w ->
  returns (exec_caller CLeave w) (fun '(c, w') => life_inv w' (option_list c ++ cs)).
Proof.
  intros Hinv [Hbd _]. pose proof (caller_met w cs _ Hinv) as Hm. unfold SIZE_MAX in Hbd.
  destruct (not_collected CLeave Hinv eq_refl) as [Hc Hpos].
  pose proof (lv_work _ _ Hinv) as Hwk. rewrite total_cons in Hwk. simpl in Hwk.
  pose proof (lv_collect _ _ Hinv) as Hcol. rewrite total_cons, one_false in Hcol by lia. simpl in Hcol.
  cbn [exec_caller]. unfold ntt_loop_work_leave, get_loop. rewrite (uncollected_alive _ Hinv Hm Hc), bind_ok.
  rewrite c_assert_true, bind_ok by (apply Z.gtb_lt; lia). apply returns_ok. rewrite u64_small by lia.
  eapply (life_plain w _ cs [CLeave]); try done; try (by constructor).
  - destruct (Z.eqb_spec (lp_work_cnt (lp w)) 1); simpl; by repeat constructor.
  - destruct (Z.eqb_spec (lp_work_cnt (lp w)) 1); simpl; rewrite ?total_cons; simpl; lia.
  - destruct (Z.eqb_spec (lp_work_cnt (lp w)) 1); simpl; rewrite ?total_cons; simpl; rewrite Hcol.
    + by rewrite one_true by (split; [lia|done]).
    + by rewrite one_false by lia.
  - simpl. congruence.
  - destruct (Z.eqb_spec (lp_work_cnt (lp w)) 1); simpl; by repeat constructor.
  - intros b k _. by destruct (Z.eqb_spec (lp_work_cnt (lp w)) 1).
Qed.

Lemma table_known cs' :
  life_inv w cs' -> lp_enter_cnt (lp w) = lp_width (lp w) -> lp_workers (lp w) = Some <$> seq 0 (lp_width (lp w)).
Proof.
  intros Hinv He. apply list_eq. intros i. rewrite list_lookup_fmap.
  destruct (decide (i < lp_width (lp w))%nat) as [Hi|Hi].
  - destruct (lookup_lt_is_Some_2 (wks w) i) as [x Hx]; [by rewrite (lv_length _ _ Hinv)|].
    rewrite (lv_known _ _ Hinv i x Hx), lookup_seq_lt by done. simpl.
    pose proof (all_met w _ i x Hinv He Hx) as Hmet. by destruct (wk_point x).
  - rewrite lookup_seq_ge by lia. simpl. apply lookup_ge_None. rewrite (lv_table _ _ Hinv). lia.
Qed.

Lemma count_table a m k : count (Some k) (Some <$> seq a m) = one (a <= k < a + m)%nat.
Proof.
  revert a. induction m as [|m IH]; intros a; simpl.
  - rewrite count_nil, one_false; [done|lia].
  - rewrite count_cons. setoid_rewrite IH. destruct (decide (a = k)) as [->|Hne].
    + rewrite one_true, one_false, one_true by (lia || done). done.
    + rewrite one_false by congruence. apply one_iff. lia.
Qed.

Lemma collect_call_ok :
  life_inv w (CCollect :: cs) ->
  returns (exec_caller CCollect w) (fun '(c, w') => life_inv w' (option_list c ++ cs)).
Proof.
  intros Hinv. pose proof (caller_met w cs _ Hinv) as Hm. pose proof (lv_width _ _ Hinv) as Hw.
  pose proof (lv_collect _ _ Hinv) as Hcol. rewrite total_cons in Hcol. simpl in Hcol.
  assert (Hc : lp_work_cnt (lp w) = 0 /\ lp_collected (lp w) = false) by (eapply one_pos; rewrite <- Hcol; lia).
  rewrite one_true in Hcol by done. destruct Hc as [Hz Hc].
  cbn [exec_caller]. unfold collect_workers, get_loop. rewrite (uncollected_alive _ Hinv Hm Hc), bind_ok.
  destruct (Z.leb_spec (Z.of_nat (lp_width (lp w))) NTT_MAX_LOOP_WIDTH); [|lia]. apply returns_ok.
  rewrite (table_known _ Hinv Hm). simpl.
  eapply life_loop; [exact Hinv|done| | | | | |by rewrite Hm|].
  - intros k x Hk. pose proof (lv_worker _ _ Hinv k x Hk) as Hx. rewrite Hc in Hx.
    assert (Hkl : (k < lp_width (lp w))%nat) by (rewrite <- (lv_length _ _ Hinv); by eapply lookup_lt_Some).
    pose proof (all_met w _ k x Hinv Hm Hk) as Hmet.
    assert (Hkn : known (wk_point x) = true) by (by destruct (wk_point x)).
    rewrite !total_cons in Hx |- *. cbn [wholds waking queue_holds stopping] in Hx |- *.
    rewrite count_table, one_true by lia. destruct Hx as [Hst Hr Htk Hd Hq Hs Hl Hsp Hg Hrn Hcl].
    split; try done. rewrite Hr, Hkn. simpl. lia.
  - simpl. by rewrite (lv_work _ _ Hinv), !total_cons.
  - rewrite total_cons. simpl. rewrite one_false by (by intros [_ ?]). lia.
  - done.
  - pose proof (lv_callers _ _ Hinv) as Hcs. apply Forall_cons in Hcs as [_ Hcs]. apply Forall_cons. split; [|done].
    simpl. apply Forall_fmap, Forall_forall. intros k Hk%elem_of_seq. exists k. split; [done|lia].
  - intros b k _. by rewrite !total_cons.
Qed.

(** ** Barriers *)
Lemma barrier_call_ok b i :
  life_inv w (CBarrier b i :: cs) ->
  returns (exec_caller (CBarrier b i) w) (fun '(c, w') => life_inv w' (option_list c ++ cs)).
Proof.
  intros Hinv. pose proof (caller_met w cs _ Hinv) as Hm.
  destruct (not_collected _ Hinv eq_refl) as [Hc Hpos].
  pose proof (lv_work _ _ Hinv) as Hwk. rewrite total_cons in Hwk. simpl in Hwk.
  pose proof (lv_collect _ _ Hinv) as Hcol. rewrite total_cons, one_false in Hcol by lia. simpl in Hcol.
  cbn [exec_caller]. unfold barrier_next, get_loop. rewrite (uncollected_alive _ Hinv Hm Hc), bind_ok.
  rewrite (table_known _ Hinv Hm), list_lookup_fmap.
  destruct (Nat.ltb_spec i (lp_width (lp w))) as [Hi|Hi].
  - rewrite lookup_seq_lt by done. simpl. apply returns_ok.
    replace w with (set_lp (lp w) w) at 1 by (by destruct w).
    eapply (life_plain w _ cs [CBarrier b i] [_]); try done; try (by repeat constructor); rewrite ?total_cons; simpl; try lia.
    + by rewrite one_false by lia.
    + congruence.
    + constructor; [|done]. simpl. split_and!; [done|done|]. right. left. eauto.
    + intros b' k Hk. unfold total. simpl.
      destruct (decide (b' = b)) as [->|Hne]; [|rewrite !one_false by (intros []; congruence); done].
      rewrite (one_iff (BarrierTask b = BarrierTask b /\ i = k) (i = k)) by tauto.
      rewrite (one_iff (b = b /\ (S i <= k)%nat) (S i <= k)%nat), (one_iff (b = b /\ (i <= k)%nat) (i <= k)%nat) by tauto.
      unfold one. repeat case_decide; lia.
  - apply returns_ok.
    eapply (life_plain w _ cs [CBarrier b i] []); try done; try (by repeat constructor); simpl; try lia.
    + by rewrite one_false by lia.
    + congruence.
    + intros b' k Hk. unfold total. simpl. by rewrite one_false by lia.
Qed.

(** ** Every call *)
Lemma caller_exec_ok c :
  life_inv w (c :: cs) -> refs_bounded w ->
  returns (exec_caller c w) (fun '(c', w') => life_inv w' (option_list c' ++ cs)).
Proof.
  intros Hinv Hbd. destruct c as [| |todo|k t n|k n|k n|b i].
  - by apply leave_call_ok.
  - by apply collect_call_ok.
  - destruct todo as [|[k|] todo].
    + apply returns_ok. by eapply drop_caller.
    + by apply release_one_ok.
    + pose proof (lv_callers _ _ Hinv) as Hcs. apply Forall_cons in Hcs as [Hc _].
      apply Forall_cons in Hc as [(? & ? & _) _]. done.
  - by apply push_ok.
  - by apply acquire_call_ok.
  - by apply signal_call_ok.
  - by apply barrier_call_ok.
Qed.
End work.

(** ** The end of the loop *)
Lemma end_ok `{Platform} w cs :
  life_inv w cs -> lp_alive (lp w) = true -> gone_at w 0 ->
  ((lp_joined (lp w) < lp_width (lp w))%nat -> gone_at w (lp_joined (lp w))) ->
  returns (loop_end w) (fun w' => life_inv w' cs).
Proof.
  intros Hinv Ha H0 Hj. unfold loop_end, get_loop. rewrite Ha, bind_ok.
  destruct Hinv as [Iw Ilen Iwk Ikn Itb Ien Imet Iwt Iwork Icol Icd Ics Iea Ij If Ib It].
  destruct (Nat.ltb_spec (lp_joined (lp w)) (lp_width (lp w))) as [Hlt|Hge]; apply returns_ok; split; simpl; try done.
  - intros i Hi Hiw. destruct (decide (i = lp_joined (lp w))) as [->|Hne]; [by apply Hj|]. apply Ij; lia.
  - intros _ i Hi. destruct (decide (i = 0%nat)) as [->|Hne]; [done|]. apply Ij; lia.
Qed.

(** ** The code around *)
Section outside.
Context `{Platform} (w : lworld) (cs : list caller).
Hypothesis (Hinv : life_inv w cs).

Lemma started_met : started w -> lp_enter_cnt (lp w) = lp_width (lp w).
Proof. intros (k & x & Hk & He). by eapply (lv_met _ _ Hinv). Qed.

Lemma tokens_work : (0 < lp_tokens (lp w))%nat ->
  lp_collected (lp w) = false /\ 0 < lp_work_cnt (lp w) /\ total collecting cs = 0%nat.
Proof.
  intros Ht. pose proof (lv_work _ _ Hinv) as Hw. pose proof (lv_collect _ _ Hinv) as Hc.
  rewrite one_false in Hc by lia. split_and!; [|lia|done].
  destruct (lp_collected (lp w)) eqn:Hx; [pose proof (lv_collected _ _ Hinv Hx); lia|done].
Qed.

Lemma outside_enter_ok :
  started w -> (0 < lp_tokens (lp w))%nat -> refs_bounded w ->
  returns (ntt_loop_work_enter w) (fun w' => life_inv w' cs).
Proof.
  intros Hs Ht [Hbd _]. pose proof (started_met Hs) as Hm. destruct (tokens_work Ht) as (Hc & Hpos & Hcol).
  pose proof (lv_work _ _ Hinv) as Hwk. unfold SIZE_MAX in Hbd.
  unfold ntt_loop_work_enter, get_loop. rewrite (uncollected_alive w _ Hinv Hm Hc), bind_ok.
  rewrite c_assert_true, bind_ok by (apply Z.gtb_lt; lia). apply returns_ok. rewrite u64_small by lia.
  eapply (life_plain w _ cs [] []); try done; simpl; try lia.
  - by rewrite one_false by lia.
  - congruence.
Qed.

Lemma outside_leave_ok :
  started w -> (0 < lp_tokens (lp w))%nat ->
  life_inv (set_lp (lp_with_work (lp_work_cnt (lp w)) (pred (lp_tokens (lp w))) (lp w)) w) (CLeave :: cs).
Proof.
  intros Hs Ht. pose proof (started_met Hs) as Hm. destruct (tokens_work Ht) as (Hc & Hpos & Hcol).
  pose proof (lv_work _ _ Hinv) as Hwk.
  eapply (life_plain w _ cs [] [CLeave]); try done; try (by repeat constructor); rewrite ?total_cons; simpl; try lia.
  - by rewrite one_false by lia.
  - congruence.
Qed.

(** A context is added that no caller and no task knows. *)
Lemma outstanding_new bs b k bc :
  bc_ran bc = [] ->
  outstanding (bs ++ [bc]) b k = (outstanding bs b k + one (b = length bs))%nat.
Proof.
  intros Hr. unfold outstanding. destruct (decide (b < length bs)%nat) as [Hlt|Hge].
  - rewrite lookup_app_l by done. rewrite one_false with (P := b = _) by lia. lia.
  - rewrite lookup_app_r by lia. destruct (decide (b = length bs)) as [->|Hne].
    + rewrite Nat.sub_diag. simpl. rewrite lookup_ge_None_2 by lia.
      rewrite !one_true; [done|done|]. rewrite Hr. apply not_elem_of_nil.
    + rewrite (lookup_ge_None_2 [bc]) by (simpl; lia). rewrite lookup_ge_None_2, one_false by lia. done.
Qed.

Lemma outside_barrier_ok :
  started w -> (0 < lp_tokens (lp w))%nat ->
  returns (ntt_loop_push_barrier (set_lp (lp_with_work (lp_work_cnt (lp w)) (pred (lp_tokens (lp w))) (lp w)) w))
    (fun '(c, w') => life_inv w' (c :: cs)).
Proof.
  intros Hs Ht. pose proof (started_met Hs) as Hm. destruct (tokens_work Ht) as (Hc & Hpos & Hcol).
  unfold ntt_loop_push_barrier, get_loop. cbn [lp set_lp lp_alive lp_with_work lp_width].
  rewrite (uncollected_alive w _ Hinv Hm Hc), bind_ok. apply returns_ok.
  destruct Hinv as [Iw Ilen Iwk Ikn Itb Ien Imet Iwt Iwork Icol Icd Ics Iea Ij If Ib It].
  split; rewrite ?total_cons; simpl; try done.
  - lia.
  - by apply Forall_cons.
  - intros b bc. rewrite lookup_app. destruct (barriers w !! b) as [bc'|] eqn:Hb; [intros [= <-]; by eapply Ib|].
    intros Hl. apply list_elem_of_lookup_2, list_elem_of_singleton in Hl as ->.
    split; simpl; try lia.
    + constructor.
    + intros k ?%elem_of_nil. done.
    + symmetry. apply bool_decide_false. lia.
  - intros b k x Hk. rewrite outstanding_new by done. specialize (It b k x Hk).
    rewrite (one_iff (length (barriers w) = b /\ (0 <= k)%nat) (b = length (barriers w))) by (split; [by intros [-> _]|intros ->; split; [done|lia]]).
    lia.
Qed.

Lemma referenced k x :
  started w -> wks w !! k = Some x -> (0 < wk_clients x)%nat \/ (0 < lp_tokens (lp w))%nat ->
  known (wk_point x) = true /\ 1 <= wk_refs x /\ wk_point x <> WStart /\ wk_point x <> WGone.
Proof.
  intros Hs Hk Hor. pose proof (started_met Hs) as Hm. pose proof (all_met w _ k x Hinv Hm Hk) as Hmet.
  pose proof (lv_worker _ _ Hinv k x Hk) as Hok. pose proof (wo_refs _ _ _ _ _ _ Hok) as Hr.
  assert (Hkn : known (wk_point x) = true) by (by destruct (wk_point x)). rewrite Hkn in Hr.
  assert (Hpos : 1 <= wk_refs x).
  { destruct Hor as [Hcl|Ht]; [lia|]. destruct (tokens_work Ht) as (Hc & _ & _). rewrite Hc in Hr. simpl in Hr. lia. }
  split_and!; [done|done|by intros Hp; rewrite Hp in Hkn|]. intros Hp.
  pose proof (wo_stop _ _ _ _ _ _ Hok) as Hst. rewrite one_false in Hst by lia.
  rewrite (wo_gone _ _ _ _ _ _ Hok) in Hst by (by right). simpl in Hst. lia.
Qed.

Lemma outside_acquire_ok k x :
  started w -> wks w !! k = Some x -> (0 < wk_clients x)%nat \/ (0 < lp_tokens (lp w))%nat -> refs_bounded w ->
  returns (ntt_worker_acquire (set_wk k (wk_with_clients (S (wk_clients x)) x) w) k) (fun w' => life_inv w' cs).
Proof.
  intros Hs Hk Hor Hbd. pose proof (started_met Hs) as Hm. destruct (referenced k x Hs Hk Hor) as (Hkn & Hpos & Hns & Hng).
  pose proof (refs_small w cs k x Hinv Hk Hbd) as Hsm. unfold SIZE_MAX in Hsm.
  pose proof (lookup_lt_Some _ _ _ Hk) as Hlt.
  unfold ntt_worker_acquire. rewrite (get_worker_ok _ k (wk_with_clients (S (wk_clients x)) x)), bind_ok;
    [|by simpl; rewrite list_lookup_insert_eq|done|done].
  rewrite c_assert_true, bind_ok by (simpl; destruct (Z.eqb_spec (wk_refs x) 0); [lia|done]). apply returns_ok.
  simpl. rewrite u64_small by lia. unfold set_wk at 1 2. cbn [lp wks barriers]. rewrite list_insert_insert_eq.
  fold (set_wk k (wk_with_refs (wk_refs x + 1) (wk_with_clients (S (wk_clients x)) x)) w).
  eapply thread_moves; [done|done| | |done].
  - split_and!; try done. intros Hp. exact (lv_wait _ _ Hinv k x Hk Hp).
  - destruct (lv_worker _ _ Hinv k x Hk) as [Hst Hr Htk Hd Hq Hsp Hl Hsd Hg Hrn Hcl]. split; try done; simpl.
    + rewrite Hr. lia.
    + rewrite one_false by lia. rewrite one_false in Hsp by lia. exact Hsp.
    + congruence.
Qed.

(** A reference of the outside is handed to a call. *)
Lemma lend_ok k x c :
  started w -> wks w !! k = Some x -> (0 < wk_clients x)%nat ->
  wholds k c = 1%nat -> waking k c = 0%nat -> queue_holds k c = 0%nat -> stopping k c = 0%nat ->
  (forall j, j <> k -> wholds j c = 0%nat /\ waking j c = 0%nat /\ queue_holds j c = 0%nat /\ stopping j c = 0%nat) ->
  (forall b j, pends b j c = 0%nat) -> works c = 0%nat -> collecting c = 0%nat -> caller_ok (lp_width (lp w)) c ->
  life_inv (set_wk k (wk_with_clients (pred (wk_clients x)) x) w) (c :: cs).
Proof.
  intros Hs Hk Hcl H1 H2 H3 H4 Hoth Hp Hw Hc Hok. pose proof (started_met Hs) as Hm.
  destruct (referenced k x Hs Hk (or_introl Hcl)) as (Hkn & _).
  eapply life_update; [exact Hinv|done| | | | | |by rewrite Hm].
  - split; [intros j Hj..|intros b j Hj| |]; rewrite total_cons; try (destruct (Hoth j Hj) as (E1 & E2 & E3 & E4));
      rewrite ?E1, ?E2, ?E3, ?E4, ?Hp, ?Hw, ?Hc; done.
  - split_and!; try done. intros Hx. exact (lv_wait _ _ Hinv k x Hk Hx).
  - rewrite !total_cons, H1, H2, H3, H4.
    destruct (lv_worker _ _ Hinv k x Hk) as [Hst Hr Htk Hd Hq Hsp Hl Hsd Hg Hrn Hcl']. split; try done; simpl.
    + intros Hx. by rewrite Hx in Hkn.
    + rewrite Hr. lia.
    + congruence.
  - intros b. rewrite total_cons, Hp. done.
  - apply Forall_cons. split; [done|apply Hinv].
Qed.

Lemma lookup_width k x : wks w !! k = Some x -> (k < lp_width (lp w))%nat.
Proof. intros Hk. rewrite <- (lv_length _ _ Hinv). by eapply lookup_lt_Some. Qed.

Lemma outside_release_ok k x :
  started w -> wks w !! k = Some x -> (0 < wk_clients x)%nat ->
  life_inv (set_wk k (wk_with_clients (pred (wk_clients x)) x) w) (CRelease [Some k] :: cs).
Proof.
  intros Hs Hk Hcl. apply lend_ok; simpl; try done.
  - by rewrite count_cons, one_true by done.
  - intros j Hj. by rewrite count_cons, one_false by congruence.
  - constructor; [|constructor]. exists k. split; [done|by eapply lookup_width].
Qed.

Lemma outside_push_ok k x :
  started w -> wks w !! k = Some x -> (0 < wk_clients x)%nat ->
  life_inv (set_wk k (wk_with_clients (pred (wk_clients x)) x) w) (CPush k OtherTask (KReturn k) :: cs).
Proof.
  intros Hs Hk Hcl. pose proof (lookup_width k x Hk). apply lend_ok; simpl; try done.
  - by rewrite one_true.
  - intros j Hj. by rewrite one_false by congruence.
  - split_and!; [done|done|]. by right; right.
Qed.
End outside.

(** ** Every reachable state *)
Lemma life_start `{Platform} width :
  0 <= width < 2 ^ 32 -> life_inv (ntt_loop_run width) [] /\ refs_bounded (ntt_loop_run width).
Proof.
  intros Hw. unfold ntt_loop_run. set (n := Z.to_nat (ntt_loop_clamp_width width)).
  assert (Hn : (1 <= n)%nat /\ Z.of_nat n <= NTT_MAX_LOOP_WIDTH).
  { unfold n, ntt_loop_clamp_width, NTT_MAX_LOOP_WIDTH. destruct (Z.eqb_spec width 0); [simpl; lia|].
    destruct (width >? 8) eqn:Hg; [simpl; lia|]. rewrite Z.gtb_ltb in Hg; apply Z.ltb_ge in Hg. lia. }
  set (x0 := mk_worker 0 0 [] 0 false false 0 WStart).
  assert (Hlk : forall k x, replicate n x0 !! k = Some x -> (k < n)%nat /\ x = x0)
    by (intros k x [-> ?]%lookup_replicate; done).
  split.
  - split; simpl; rewrite ?length_replicate; try done.
    + intros k x [_ ->]%Hlk. split; try done; by intros [].
    + intros k x [Hk ->]%Hlk. by rewrite lookup_replicate_2.
    + clear. induction n as [|m IH]; [done|]. exact IH.
    + by intros k x [_ ->]%Hlk.
    + by intros k x [_ ->]%Hlk.
    + lia.
    + by intros b k x [_ ->]%Hlk.
  - split; [done|]. simpl. by apply Forall_replicate.
Qed.

Lemma life_step_ok `{Platform} w cs w' cs' :
  life_inv w cs -> refs_bounded w -> worker_step (w, cs) (w', cs') \/ outside_step (w, cs) (w', cs') -> life_inv w' cs'.
Proof.
  intros Hinv Hbd [Hs|Hs].
  - remember (w, cs) as s eqn:Es. remember (w', cs') as s' eqn:Es'.
    destruct Hs as [w0 cs0 k x c w1 Hk Hr He|w0 l1 c l2 c' w1 He|w0 cs0 w1 Ha H0 Hj He]; simplify_eq.
    + exact (returns_inv _ _ _ (worker_exec_ok w cs k x Hinv Hk Hr Hbd) He).
    + apply (life_perm _ _ (c :: l1 ++ l2)) in Hinv; [|by rewrite Permutation_middle].
      eapply life_perm; [|exact (returns_inv _ _ _ (caller_exec_ok w _ c Hinv Hbd) He)].
      apply Permutation_app_swap_app.
    + exact (returns_inv _ _ _ (end_ok w _ Hinv Ha H0 Hj) He).
  - remember (w, cs) as s eqn:Es. remember (w', cs') as s' eqn:Es'. destruct Hs; simplify_eq.
    + exact (returns_inv _ _ _ (outside_enter_ok w _ Hinv ltac:(done) ltac:(done) Hbd) ltac:(eassumption)).
    + by apply outside_leave_ok.
    + exact (returns_inv _ _ _ (outside_barrier_ok w cs Hinv ltac:(done) ltac:(done)) ltac:(eassumption)).
    + exact (returns_inv _ _ _ (outside_acquire_ok w _ Hinv _ _ ltac:(done) ltac:(eassumption) ltac:(done) Hbd) ltac:(eassumption)).
    + by apply outside_release_ok.
    + by apply outside_push_ok.
    + by eapply interrupt_ok.
    + by eapply spurious_ok.
Qed.

Lemma life_reach `{Platform} width w cs : life width w cs -> life_inv w cs /\ refs_bounded w.
Proof.
  intros [Hw Hrtc].
  apply (rtc_ind_r (fun s : lconfig => life_inv s.1 s.2 /\ refs_bounded s.1)
           (ntt_loop_run width, [])) in Hrtc; [done|by apply life_start|].
  intros [w1 cs1] [w2 cs2] _ [Hstep Hb] [Hinv Hbd]. split; [|done]. by eapply life_step_ok.
Qed.
