(* ===== verification/WorkerLive.v ===== *)
(** * Workers and the life of the loop: termination

    The steps of the library alone come to an end: a measure that each of them
    lowers.  In a state without a next step every local queue has been drained,
    every barrier has run, and when the code around holds neither work nor
    references the loop has been freed. *)

From stdpp Require Import base numbers list gmap.
From Stdlib Require Import ZArith Lia.
From S2P Require Import Prelude.
From S2P Require Import Worker.
From S2P Require Import WorkerInv.
From S2P Require Import WorkerSteps.
From S2P Require Import WorkerCallers.
From S2P Require Import WorkerRest.

#[local] Open Scope nat_scope.

Implicit Types (w : lworld) (cs : list caller) (c : caller) (k j b : nat) (x : ntt_worker) (n : cont).

(** ** The measure *)
Definition point_cost (p : wpoint) : nat :=
  match p with
  | WStart => 26 | WEnter => 25 | WMutex => 24 | WWoken => 17 | WWait => 16 | WRelease => 15
  | WCheck => 7 | WRun => 6 | WNext => 5 | WQueueRelease => 4 | WHead => 3 | WSvc => 2 | WLeave => 1 | WGone => 0
  end.

Definition worker_cost x : nat := point_cost (wk_point x) + 6 * wk_signals x + 2 * length (wk_tasks x).

Definition todo_cost (todo : list (option nat)) : nat := 1 + 12 * length todo.
Definition barrier_cost (width i : nat) : nat := 1 + 12 * (width - i).

Definition cont_cost (width : nat) n : nat :=
  match n with KRelease todo => todo_cost todo | KBarrier _ i => barrier_cost width i | _ => 0 end.

Definition caller_cost (width : nat) c : nat :=
  match c with
  | CLeave => 3 + 12 * width
  | CCollect => 2 + 12 * width
  | CRelease todo => todo_cost todo
  | CPush _ _ n => 11 + cont_cost width n
  | CAcquire _ n => 8 + cont_cost width n
  | CSignal _ n => 7 + cont_cost width n
  | CBarrier _ i => barrier_cost width i
  end.

Definition end_cost (l : ntt_loop) : nat := (lp_width l - lp_joined l) + Nat.b2n (lp_alive l).

(** An upper bound of the steps that the library can still take by itself. *)
Definition life_measure (s : lconfig) : nat :=
  total worker_cost (wks s.1) + total (caller_cost (lp_width (lp s.1))) s.2 + end_cost (lp s.1).

Lemma worker_cost_insert w k x x' :
  wks w !! k = Some x -> total worker_cost (<[k := x']> (wks w)) + worker_cost x = total worker_cost (wks w) + worker_cost x'.
Proof. apply total_insert. Qed.

Lemma broadcast_cost l : total worker_cost (broadcast l) <= total worker_cost l + length l.
Proof.
  unfold broadcast. induction l as [|x l IH]; [done|]. rewrite fmap_cons, !total_cons. simpl.
  assert (worker_cost (if decide (wk_point x = WWait) then at_wpoint WWoken x else x) <= S (worker_cost x)); [|lia].
  case_decide as Hp; [|lia]. unfold worker_cost. simpl. rewrite Hp. simpl. lia.
Qed.

(** What a thread that only changes its own worker saves. *)
Lemma move_cost w cs k x x' :
  wks w !! k = Some x -> worker_cost x' < worker_cost x -> life_measure (set_wk k x' w, cs) < life_measure (w, cs).
Proof. intros Hk Hlt. pose proof (worker_cost_insert w k x x' Hk). unfold life_measure. simpl. lia. Qed.

Lemma cost_of x p : wk_point x = p -> worker_cost x = point_cost p + 6 * wk_signals x + 2 * length (wk_tasks x).
Proof. by intros <-. Qed.

Section measure.
Context `{Platform}.

Lemma get_worker_inv w k x : get_worker w k = Ok x -> wks w !! k = Some x.
Proof. unfold get_worker. destruct (wks w !! k) as [y|]; [|done]. case_bool_decide; [done|]. by intros [= ->]. Qed.

Lemma get_loop_inv w l : get_loop w = Ok l -> l = lp w.
Proof. unfold get_loop. destruct (lp_alive (lp w)); [by intros [= <-]|done]. Qed.

(** Taking and dropping references costs nothing. *)
Lemma acquire_cost w k w' :
  ntt_worker_acquire w k = Ok w' ->
  exists x r, wks w !! k = Some x /\ w' = set_wk k (wk_with_refs r x) w.
Proof.
  unfold ntt_worker_acquire. intros (x & Hx%get_worker_inv & Hr)%bind_inv_ok.
  apply bind_inv_ok in Hr as (u & _ & [= <-]). eauto.
Qed.

Lemma worker_release_cost w k o w' :
  ntt_worker_release w k = Ok (o, w') ->
  exists x r, wks w !! k = Some x /\ w' = set_wk k (wk_with_refs r x) w.
Proof.
  unfold ntt_worker_release. intros (x & Hx%get_worker_inv & Hr)%bind_inv_ok.
  apply bind_inv_ok in Hr as (u & _ & [= _ <-]). eauto.
Qed.

Lemma set_wk_twice w k x y : set_wk k y (set_wk k x w) = set_wk k y w.
Proof. unfold set_wk. simpl. by rewrite list_insert_insert_eq. Qed.

Lemma set_wk_lookup w k x y z :
  wks w !! k = Some z -> wks (set_wk k x w) !! k = Some y -> y = x.
Proof. intros Hk. simpl. rewrite list_lookup_insert_eq by (by eapply lookup_lt_Some). congruence. Qed.

Lemma barrier_svc_frame w k b w' : ntt_barrier_svc w k b = Ok w' -> lp w' = lp w /\ wks w' = wks w.
Proof.
  unfold ntt_barrier_svc. destruct (barriers w !! b) as [bc|]; [|done]. destruct (bc_freed bc); [done|].
  by intros [= <-].
Qed.

Lemma run_frame w k x t w' :
  wks w !! k = Some x -> run_task w k x t = Ok w' ->
  lp w' = lp w /\ exists st, wks w' = <[k := wk_with_stopped st x]> (wks w).
Proof.
  intros Hk. assert (Hid : <[k := wk_with_stopped (wk_stopped x) x]> (wks w) = wks w).
  { apply list_insert_id. rewrite Hk. f_equal. by destruct x. }
  destruct t as [|b|]; simpl.
  - intros [= <-]. split; [done|by exists true].
  - intros [-> ->]%barrier_svc_frame. split; [done|]. by eexists.
  - intros [= <-]. split; [done|]. by eexists.
Qed.

(** The last to arrive wakes up the others. *)
Lemma meet_cost w cs k x w' :
  life_inv w cs -> wks w !! k = Some x -> wk_point x = WMutex -> worker_meet w k x = Ok w' ->
  life_measure (w', cs) < life_measure (w, cs).
Proof.
  intros Hinv Hk Hp. unfold worker_meet. intros (l & ->%get_loop_inv & Hr)%bind_inv_ok. injection Hr as <-.
  pose proof (cost_of x _ Hp) as Hc. simpl in Hc.
  cbn [lp_enter_cnt lp_with_enter lp_width]. unfold set_wk, set_wks, set_lp. simpl.
  destruct (S (lp_enter_cnt (lp w)) <? lp_width (lp w)) eqn:Hlt; unfold life_measure, end_cost; simpl.
  - pose proof (worker_cost_insert w k x (at_wpoint WWait x) Hk) as Hi.
    unfold worker_cost in Hi at 4. simpl in Hi. lia.
  - pose proof (lv_length _ _ Hinv). pose proof (lv_width _ _ Hinv) as [_ Hw]. unfold NTT_MAX_LOOP_WIDTH in Hw.
    pose proof (broadcast_cost (wks w)) as Hb.
    assert (Hk' : broadcast (wks w) !! k = Some x).
    { unfold broadcast. rewrite list_lookup_fmap, Hk. simpl. by rewrite decide_False by congruence. }
    pose proof (total_insert worker_cost (broadcast (wks w)) k x (at_wpoint WRelease x) Hk') as Hi.
    unfold worker_cost in Hi at 4. simpl in Hi. lia.
Qed.

Ltac thread_cost Hk Hp :=
  pose proof (cost_of _ _ Hp) as Hcost; eapply move_cost; [exact Hk|]; rewrite Hcost; unfold worker_cost; simpl.

Lemma enter_cost w cs k x w' :
  wks w !! k = Some x -> wk_point x = WEnter -> worker_enter w k = Ok w' ->
  life_measure (w', cs) < life_measure (w, cs).
Proof.
  intros Hk Hp. unfold worker_enter. intros (w1 & (y & r & Hy & ->)%acquire_cost & Hr)%bind_inv_ok.
  apply bind_inv_ok in Hr as (l & ->%get_loop_inv & Hr). apply bind_inv_ok in Hr as (z & Hz%get_worker_inv & Hr).
  injection Hr as <-. apply (set_wk_lookup _ _ _ _ _ Hy) in Hz as ->. assert (y = x) as -> by congruence.
  pose proof (worker_cost_insert w k x (at_wpoint WMutex (wk_with_refs r x)) Hk) as Hi.
  unfold worker_cost in Hi at 2 4. simpl in Hi. rewrite Hp in Hi. simpl in Hi.
  unfold life_measure, end_cost. simpl. rewrite list_insert_insert_eq. lia.
Qed.

Lemma release_own_cost w cs k x o w' :
  wks w !! k = Some x -> wk_point x = WRelease -> exec_worker w k x = Ok (o, w') ->
  life_measure (w', option_list o ++ cs) < life_measure (w, cs).
Proof.
  intros Hk Hp. unfold exec_worker. rewrite Hp.
  intros ([last w1] & (y & r & Hy & ->)%worker_release_cost & Hr)%bind_inv_ok.
  apply bind_inv_ok in Hr as (z & Hz%get_worker_inv & Hr).
  injection Hr as <- <-. apply (set_wk_lookup _ _ _ _ _ Hy) in Hz as ->. assert (y = x) as -> by congruence.
  pose proof (worker_cost_insert w k x (at_wpoint WHead (wk_with_refs r x)) Hk) as Hi.
  unfold worker_cost in Hi at 2 4. simpl in Hi. rewrite Hp in Hi. simpl in Hi.
  rewrite set_wk_twice. unfold life_measure. simpl. destruct last; simpl; rewrite ?total_cons; simpl; lia.
Qed.

Lemma run_cost w cs k x t w' y :
  wks w !! k = Some x -> wk_point x = WRun -> run_task w k x t = Ok w' -> get_worker w' k = Ok y ->
  life_measure (set_wk k (at_wpoint WNext y) w', cs) < life_measure (w, cs).
Proof.
  intros Hk Hp Hr Hy%get_worker_inv. destruct (run_frame _ _ _ _ _ Hk Hr) as (Hl & st & Hw).
  rewrite Hw, list_lookup_insert_eq in Hy by (by eapply lookup_lt_Some). injection Hy as <-.
  pose proof (worker_cost_insert w k x (at_wpoint WNext (wk_with_stopped st x)) Hk) as Hi.
  unfold worker_cost in Hi at 2 4. simpl in Hi. rewrite Hp in Hi. simpl in Hi.
  unfold life_measure. simpl. rewrite Hl, Hw, list_insert_insert_eq. lia.
Qed.

Lemma thread_step_cost w cs k x o w' :
  life_inv w cs -> wks w !! k = Some x -> worker_ready x = true -> exec_worker w k x = Ok (o, w') ->
  life_measure (w', option_list o ++ cs) < life_measure (w, cs).
Proof.
  intros Hinv Hk Hrd. unfold worker_ready in Hrd. destruct (wk_point x) eqn:Hp; try done;
    try (by intros He; eapply release_own_cost); unfold exec_worker; rewrite Hp.
  - intros [= <- <-]. thread_cost Hk Hp. lia.
  - intros (w1 & He & [= <- <-])%bind_inv_ok. by eapply enter_cost.
  - intros (w1 & He & [= <- <-])%bind_inv_ok. by eapply meet_cost.
  - unfold worker_woken. intros (w1 & (l & ->%get_loop_inv & [= <-])%bind_inv_ok & [= <- <-])%bind_inv_ok.
    thread_cost Hk Hp. destruct (_ <? _); simpl; lia.
  - intros [= <- <-]. thread_cost Hk Hp. destruct (wk_stopped x); simpl; lia.
  - intros [= <- <-]. apply negb_true_iff, bool_decide_eq_false in Hrd. thread_cost Hk Hp. lia.
  - destruct (wk_need_drain x); [intros (u & _ & [= <- <-])%bind_inv_ok|intros [= <- <-]]; thread_cost Hk Hp; lia.
  - destruct (wk_tasks x) as [|t l]; [done|]. intros (w1 & Hr & Hg)%bind_inv_ok.
    apply bind_inv_ok in Hg as (y & Hy & [= <- <-]). by eapply run_cost.
  - intros (u & Hne & [= <- <-])%bind_inv_ok. thread_cost Hk Hp.
    destruct (wk_tasks x) as [|t l]; simpl; try case_decide; simpl; lia.
  - destruct (_ =? _)%Z; [done|]. intros [= <- <-]. thread_cost Hk Hp. lia.
  - intros [= <- <-]. thread_cost Hk Hp. lia.
Qed.
(** ** Calls *)

(** [c] becomes [o] and the workers cost at most [d] more. *)
Lemma call_cost w w' cs c o d :
  lp_width (lp w') = lp_width (lp w) -> end_cost (lp w') = end_cost (lp w) ->
  total worker_cost (wks w') <= total worker_cost (wks w) + d ->
  total (caller_cost (lp_width (lp w))) (option_list o) + d < caller_cost (lp_width (lp w)) c ->
  life_measure (w', option_list o ++ cs) < life_measure (w, c :: cs).
Proof.
  intros Hw He Hd Hc. unfold life_measure. cbn [fst snd]. rewrite total_app, total_cons, Hw, He. lia.
Qed.

Lemma resume_cost n w :
  lp (resume n w).2 = lp w /\ total worker_cost (wks (resume n w).2) = total worker_cost (wks w) /\
  total (caller_cost (lp_width (lp w))) (option_list (resume n w).1) = cont_cost (lp_width (lp w)) n.
Proof.
  destruct n as [|todo|b i|k]; simpl; split_and!; try done; rewrite ?total_cons; simpl; try (unfold total; simpl; lia).
  - by destruct (wks w !! k).
  - destruct (wks w !! k) as [x|] eqn:Hk; [|done].
    pose proof (worker_cost_insert w k x (wk_with_clients (S (wk_clients x)) x) Hk) as Hi. simpl.
    unfold worker_cost in Hi at 2 4. simpl in Hi. lia.
Qed.

Lemma insert_cost w k x x' d :
  wks w !! k = Some x -> worker_cost x' <= worker_cost x + d ->
  total worker_cost (wks (set_wk k x' w)) <= total worker_cost (wks w) + d.
Proof. intros Hk Hle. pose proof (worker_cost_insert w k x x' Hk). simpl. lia. Qed.

Ltac call_costs :=
  unfold todo_cost, barrier_cost, total; simpl; unfold todo_cost, barrier_cost; simpl length; lia.

Lemma caller_step_cost w cs c o w' :
  life_inv w (c :: cs) -> exec_caller c w = Ok (o, w') ->
  life_measure (w', option_list o ++ cs) < life_measure (w, c :: cs).
Proof.
  intros Hinv. pose proof (lv_table _ _ Hinv) as Htab. destruct c as [| |todo|k t n|k n|k n|b i]; simpl.
  - unfold ntt_loop_work_leave. intros (l & ->%get_loop_inv & Hr)%bind_inv_ok.
    apply bind_inv_ok in Hr as (u & _ & [= <- <-]). apply (call_cost _ _ _ _ _ 0); try done; simpl; try lia.
    destruct (negb _); unfold total; simpl; lia.
  - unfold collect_workers. intros (l & ->%get_loop_inv & Hr)%bind_inv_ok. destruct (_ <=? _)%Z; [|done].
    injection Hr as <- <-. apply (call_cost _ _ _ _ _ 0); try done; simpl; try lia.
  - destruct todo as [|[k|] todo]; simpl.
    + intros [= <- <-]. apply (call_cost _ _ _ _ _ 0); try done; simpl; try lia. call_costs.
    + intros ([last w1] & (y & r & Hy & ->)%worker_release_cost & [= <- <-])%bind_inv_ok.
      apply (call_cost _ _ _ _ _ 0); try done; [eapply insert_cost; [done|]; unfold worker_cost; simpl; lia|].
      destruct last; call_costs.
    + intros (u & _ & [= <- <-])%bind_inv_ok. apply (call_cost _ _ _ _ _ 0); try done; simpl; try lia.
      call_costs.
  - unfold local_push. intros ([e w1] & (x & Hx%get_worker_inv & (u & _ & [= <- <-])%bind_inv_ok)%bind_inv_ok & Hr)%bind_inv_ok.
    set (x' := wk_with_tasks _ x) in *.
    assert (Hc : total worker_cost (wks (set_wk k x' w)) <= total worker_cost (wks w) + 2).
    { eapply insert_cost; [done|]. unfold worker_cost. simpl. rewrite length_app. simpl. lia. }
    case_bool_decide.
    + injection Hr as <- <-. apply (call_cost _ _ _ _ _ 2); try done. unfold total. simpl. lia.
    + destruct (resume_cost n (set_wk k x' w)) as (E1 & E2 & E3).
      destruct (resume n (set_wk k x' w)) as [o' w2]. simplify_eq. simpl in E1, E2, E3.
      apply (call_cost _ _ _ _ _ 2); [by rewrite E1..|simpl in Hc; lia|]. rewrite E3. simpl. lia.
  - unfold local_acquire. intros (w1 & (x & Hx%get_worker_inv & Hr)%bind_inv_ok & [= <- <-])%bind_inv_ok.
    apply bind_inv_ok in Hr as (u & _ & [= <-]). apply (call_cost _ _ _ _ _ 0); try done.
    + eapply insert_cost; [done|]. unfold worker_cost. simpl. lia.
    + unfold total. simpl. lia.
  - unfold ntt_worker_local_queue_wakeup. intros (w1 & (x & Hx%get_worker_inv & [= <-])%bind_inv_ok & Hr)%bind_inv_ok.
    set (x' := wk_with_signals _ x) in *.
    assert (Hc : total worker_cost (wks (set_wk k x' w)) <= total worker_cost (wks w) + 6).
    { eapply insert_cost; [done|]. unfold worker_cost. simpl. lia. }
    destruct (resume_cost n (set_wk k x' w)) as (E1 & E2 & E3).
    destruct (resume n (set_wk k x' w)) as [o' w2]. simplify_eq. simpl in E1, E2, E3.
    apply (call_cost _ _ _ _ _ 6); [by rewrite E1..|simpl in Hc; lia|]. rewrite E3. simpl. lia.
  - unfold barrier_next. intros (l & ->%get_loop_inv & Hr)%bind_inv_ok.
    destruct (Nat.ltb_spec i (lp_width (lp w))) as [Hi|Hi].
    + destruct (lp_workers (lp w) !! i) as [[k|]|]; [|by apply bind_inv_ok in Hr as (u & _ & ?)|done].
      injection Hr as <- <-. apply (call_cost _ _ _ _ _ 0); try done; simpl; try lia.
      call_costs.
    + injection Hr as <- <-. apply (call_cost _ _ _ _ _ 0); try done; simpl; try lia.
      call_costs.
Qed.

(** ** Every step *)
Lemma worker_step_cost s s' :
  life_inv s.1 s.2 -> worker_step s s' -> life_measure s' < life_measure s.
Proof.
  intros Hinv Hs. destruct Hs as [w cs k x c w' Hk Hr He|w l1 c l2 c' w' He|w cs w' Ha H0 Hj He]; simpl in Hinv.
  - by eapply thread_step_cost.
  - apply (life_perm _ _ (c :: l1 ++ l2)) in Hinv; [|by rewrite Permutation_middle].
    pose proof (caller_step_cost w _ c c' w' Hinv He) as Hc. unfold life_measure in *. cbn [fst snd] in *.
    rewrite (total_perm _ (l1 ++ c :: l2) (c :: l1 ++ l2)) by (by rewrite Permutation_middle).
    rewrite (total_perm _ (l1 ++ option_list c' ++ l2) (option_list c' ++ l1 ++ l2)) by apply Permutation_app_swap_app.
    exact Hc.
  - unfold loop_end in He. apply bind_inv_ok in He as (l & ->%get_loop_inv & Hr).
    unfold life_measure, end_cost. destruct (Nat.ltb_spec (lp_joined (lp w)) (lp_width (lp w)));
      injection Hr as <-; simpl; rewrite Ha; simpl; lia.
Qed.
End measure.

(** ** The counters stay bounded *)
Section counters.
Context `{Platform}.
#[local] Open Scope Z_scope.

Lemma bounded_insert w k x' : refs_bounded w -> wk_refs x' < SIZE_MAX -> refs_bounded (set_wk k x' w).
Proof. intros [Hw Hf] Hx. split; [done|]. simpl. by apply Forall_insert. Qed.

Lemma bounded_lookup w k x : refs_bounded w -> wks w !! k = Some x -> wk_refs x < SIZE_MAX.
Proof. intros [_ Hf] Hk. rewrite Forall_lookup in Hf. by eapply Hf. Qed.

Lemma refs_bounded_same w k x x' :
  refs_bounded w -> wks w !! k = Some x -> wk_refs x' = wk_refs x -> refs_bounded (set_wk k x' w).
Proof. intros Hb Hk Hr. apply bounded_insert; [done|]. rewrite Hr. by eapply bounded_lookup. Qed.

Lemma dropped x : 1 <= wk_refs x < SIZE_MAX -> wk_refs (wk_with_refs (u64 (wk_refs x - 1)) x) < SIZE_MAX.
Proof. unfold SIZE_MAX. intros Hx. simpl. rewrite u64_small; lia. Qed.

Lemma release_bounded w k x o w' :
  refs_bounded w -> wks w !! k = Some x -> 1 <= wk_refs x -> ntt_worker_release w k = Ok (o, w') -> refs_bounded w'.
Proof.
  intros Hb Hk Hx. unfold ntt_worker_release. intros (y & Hy%get_worker_inv & Hr)%bind_inv_ok.
  assert (y = x) as -> by congruence. apply bind_inv_ok in Hr as (u & _ & [= _ <-]).
  apply bounded_insert; [done|]. apply dropped. split; [done|]. by eapply bounded_lookup.
Qed.

Lemma enter_bounded w cs k x w' :
  life_inv w cs -> refs_bounded w -> wks w !! k = Some x -> wk_point x = WEnter -> worker_enter w k = Ok w' ->
  refs_bounded w'.
Proof.
  intros Hinv Hb Hk Hp. pose proof (lv_worker _ _ Hinv k x Hk) as Hok.
  destruct (not_met_early w cs k x Hinv Hk) as [Hcs Hcol]; [by rewrite Hp|].
  pose proof (wo_refs _ _ _ _ _ _ Hok) as Hr. rewrite (wo_clients _ _ _ _ _ _ Hok), Hcs, Hp in Hr by (by rewrite Hp).
  simpl in Hr. unfold worker_enter, ntt_worker_acquire.
  intros (w1 & (y & Hy%get_worker_inv & Hr1)%bind_inv_ok & Hr2)%bind_inv_ok. assert (y = x) as -> by congruence.
  apply bind_inv_ok in Hr1 as (u & _ & [= <-]).
  apply bind_inv_ok in Hr2 as (l & ->%get_loop_inv & Hr2). apply bind_inv_ok in Hr2 as (z & Hz%get_worker_inv & Hr2).
  injection Hr2 as <-. apply (set_wk_lookup _ _ _ _ _ Hk) in Hz as ->.
  apply (bounded_insert (set_lp _ _)); [|simpl; rewrite Hr; done].
  destruct (bounded_insert w k (wk_with_refs (u64 (wk_refs x + 1)) x) Hb) as [Hw Hf]; [simpl; by rewrite Hr|done].
Qed.

Lemma thread_bounded w cs k x o w' :
  life_inv w cs -> refs_bounded w -> wks w !! k = Some x -> worker_ready x = true -> exec_worker w k x = Ok (o, w') ->
  refs_bounded w'.
Proof.
  intros Hinv Hb Hk Hrd. unfold worker_ready in Hrd.
  pose proof (lv_worker _ _ Hinv k x Hk) as Hok. unfold exec_worker. destruct (wk_point x) eqn:Hp; try done.
  - intros [= _ <-]. by apply bounded_insert.
  - intros (w1 & He & [= _ <-])%bind_inv_ok. by eapply enter_bounded.
  - unfold worker_meet. intros (w1 & (l & ->%get_loop_inv & [= <-])%bind_inv_ok & [= _ <-])%bind_inv_ok.
    pose proof (bounded_lookup _ _ _ Hb Hk) as Hx. destruct Hb as [Hw Hf].
    destruct (_ <? _)%nat; apply bounded_insert; try done; split; simpl; try done.
    unfold broadcast. apply Forall_fmap. eapply Forall_impl; [exact Hf|]. intros y Hy. simpl. by case_decide.
  - unfold worker_woken. intros (w1 & (l & ->%get_loop_inv & [= <-])%bind_inv_ok & [= _ <-])%bind_inv_ok.
    by eapply refs_bounded_same.
  - intros ([last w1] & He & Hr)%bind_inv_ok. apply bind_inv_ok in Hr as (z & Hz%get_worker_inv & [= _ <-]).
    assert (Hb1 : refs_bounded w1).
    { eapply release_bounded; [done|done| |done]. rewrite (wo_refs _ _ _ _ _ _ Hok), Hp. simpl. lia. }
    by eapply refs_bounded_same.
  - intros [= _ <-]. by eapply refs_bounded_same.
  - intros [= _ <-]. by eapply refs_bounded_same.
  - destruct (wk_need_drain x); [intros (u & _ & [= _ <-])%bind_inv_ok|intros [= _ <-]]; by eapply refs_bounded_same.
  - destruct (wk_tasks x) as [|t l]; [done|]. intros (w1 & Hr & Hg)%bind_inv_ok.
    apply bind_inv_ok in Hg as (y & Hy%get_worker_inv & [= _ <-]).
    destruct (run_frame _ _ _ _ _ Hk Hr) as (Hl & st & Hw).
    eapply (refs_bounded_same _ _ y); [|done|done]. destruct Hb as [Hb Hf]. split; [by rewrite Hl|]. rewrite Hw.
    apply Forall_insert; [done|]. simpl. rewrite Forall_lookup in Hf. exact (Hf k x Hk).
  - intros (u & _ & [= _ <-])%bind_inv_ok. by eapply refs_bounded_same.
  - destruct (_ =? _); [done|]. intros [= _ <-]. by eapply refs_bounded_same.
  - intros [= _ <-]. by eapply refs_bounded_same.
Qed.

Lemma resume_bounded n w : refs_bounded w -> refs_bounded (resume n w).2.
Proof.
  intros Hb. destruct n as [|todo|b i|k]; simpl; try done.
  destruct (wks w !! k) as [x|] eqn:Hk; [by eapply refs_bounded_same|done].
Qed.

Lemma call_bounded w cs c o w' :
  life_inv w (c :: cs) -> refs_bounded w -> exec_caller c w = Ok (o, w') -> refs_bounded w'.
Proof.
  intros Hinv Hb. destruct c as [| |todo|k t n|k n|k n|b i]; simpl.
  - destruct (not_collected w cs CLeave Hinv eq_refl) as [_ Hpos].
    unfold ntt_loop_work_leave. intros (l & ->%get_loop_inv & Hr)%bind_inv_ok.
    apply bind_inv_ok in Hr as (u & _ & [= _ <-]). destruct Hb as [Hb Hf]. split; [|done]. simpl.
    unfold SIZE_MAX in *. rewrite u64_small; lia.
  - unfold collect_workers. intros (l & ->%get_loop_inv & Hr)%bind_inv_ok. destruct (_ <=? _); [|done].
    by injection Hr as _ <-.
  - destruct todo as [|[k|] todo]; simpl; [by intros [= _ <-]| |by intros (u & _ & [= _ <-])%bind_inv_ok].
    intros ([last w1] & He & [= _ <-])%bind_inv_ok.
    pose proof (lv_callers _ _ Hinv) as Hcs. apply Forall_cons in Hcs as [Hc _].
    apply Forall_cons in Hc as [(k' & [= <-] & Hkw) _].
    destruct (caller_worker w cs _ k Hinv Hkw) as (x & Hx & _).
    eapply release_bounded; [done|done| |done].
    rewrite (wo_refs _ _ _ _ _ _ (lv_worker _ _ Hinv k x Hx)), total_cons. cbn [wholds].
    rewrite count_cons, one_true by done. lia.
  - unfold local_push. intros ([e w1] & (x & Hx%get_worker_inv & (u & _ & [= <- <-])%bind_inv_ok)%bind_inv_ok & Hr)%bind_inv_ok.
    assert (Hb' : refs_bounded (set_wk k (wk_with_tasks (wk_tasks x ++ [t]) x) w)) by (by eapply refs_bounded_same).
    case_bool_decide; [by simplify_eq|]. pose proof (resume_bounded n _ Hb') as Hres.
    destruct (resume n _) as [o' w2]. by simplify_eq.
  - unfold local_acquire. intros (w1 & (x & Hx%get_worker_inv & Hr)%bind_inv_ok & [= _ <-])%bind_inv_ok.
    apply bind_inv_ok in Hr as (u & _ & [= <-]). by eapply refs_bounded_same.
  - unfold ntt_worker_local_queue_wakeup. intros (w1 & (x & Hx%get_worker_inv & [= <-])%bind_inv_ok & Hr)%bind_inv_ok.
    assert (Hb' : refs_bounded (set_wk k (wk_with_signals (S (wk_signals x)) x) w)) by (by eapply refs_bounded_same).
    pose proof (resume_bounded n _ Hb') as Hres. destruct (resume n _) as [o' w2]. by simplify_eq.
  - unfold barrier_next. intros (l & ->%get_loop_inv & Hr)%bind_inv_ok.
    destruct (i <? lp_width (lp w))%nat; [|by injection Hr as _ <-].
    destruct (lp_workers (lp w) !! i) as [[k|]|]; [by injection Hr as _ <-|by apply bind_inv_ok in Hr as (u & _ & ?)|done].
Qed.

Lemma worker_step_bounded s s' : life_inv s.1 s.2 -> refs_bounded s.1 -> worker_step s s' -> refs_bounded s'.1.
Proof.
  intros Hinv Hb Hs. destruct Hs as [w cs k x c w' Hk Hr He|w l1 c l2 c' w' He|w cs w' Ha H0 Hj He]; simpl in *.
  - by eapply thread_bounded.
  - apply (life_perm _ _ (c :: l1 ++ l2)) in Hinv; [|by rewrite Permutation_middle]. by eapply call_bounded.
  - unfold loop_end in He. apply bind_inv_ok in He as (l & ->%get_loop_inv & Hr).
    destruct (_ <? _)%nat; by injection Hr as <-.
Qed.

(** Steps of the library alone stay in the reachable states, and there are only
    as many as the measure says. *)
Lemma worker_step_life width s s' : life width s.1 s.2 -> worker_step s s' -> life width s'.1 s'.2.
Proof.
  intros Hl Hs. destruct (life_reach _ _ _ Hl) as [Hinv Hb]. destruct Hl as [Hw Hrtc]. split; [done|].
  destruct s as [w cs], s' as [w' cs']. eapply rtc_r; [exact Hrtc|]. split; [by left|]. by eapply (worker_step_bounded (w, cs)).
Qed.

Lemma worker_steps_life width (n : nat) s s' :
  life width s.1 s.2 -> nsteps worker_step n s s' -> life width s'.1 s'.2 /\ (n + life_measure s' <= life_measure s)%nat.
Proof.
  intros Hl Hs. induction Hs as [s|n s s1 s2 Hs Hss IH]; [split; [done|lia]|].
  destruct IH as [Hl' Hle]; [by eapply worker_step_life|].
  destruct (life_reach _ _ _ Hl) as [Hinv _]. pose proof (worker_step_cost s s1 Hinv Hs). split; [done|lia].
Qed.
End counters.

(** ** States without a next step *)

(** Nothing here allocates, so nothing here aborts. *)
Definition no_die {A} (m : res A) : Prop := m <> Err Die.

Create HintDb no_die discriminated.

Lemma no_die_ok {A} (a : A) : no_die (Ok a).
Proof. done. Qed.

Lemma no_die_bind {A B} (m : res A) (f : A -> res B) : no_die m -> (forall a, no_die (f a)) -> no_die (m ≫= f).
Proof. intros Hm Hf. destruct m as [a|e]; [apply Hf|]. intros [= ->]. by apply Hm. Qed.

Lemma no_die_assert `{Platform} (b : bool) : no_die (c_assert b).
Proof. unfold c_assert. by destruct ndebug, b. Qed.

Lemma no_die_worker `{Platform} w k : no_die (get_worker w k).
Proof. unfold get_worker. destruct (wks w !! k); [|done]. by case_bool_decide. Qed.

Lemma no_die_loop `{Platform} w : no_die (get_loop w).
Proof. unfold get_loop. by destruct (lp_alive (lp w)). Qed.

#[export] Hint Resolve no_die_ok no_die_assert no_die_worker no_die_loop : no_die.
#[export] Hint Extern 0 (no_die (Err _)) => discriminate : no_die.

Ltac no_die := repeat (first [apply no_die_bind; [|intros ?] | case_match]; eauto with no_die).

Lemma exec_worker_no_die `{Platform} w k x : no_die (exec_worker w k x).
Proof.
  unfold exec_worker, worker_enter, worker_meet, worker_woken, ntt_worker_acquire, ntt_worker_release, run_task,
    ntt_barrier_svc. no_die.
Qed.

Lemma exec_caller_no_die `{Platform} c w : no_die (exec_caller c w).
Proof.
  unfold exec_caller, ntt_loop_work_leave, collect_workers, release_next, ntt_worker_release, local_push,
    local_acquire, ntt_worker_local_queue_wakeup, barrier_next. no_die.
Qed.

Lemma returns_exists `{Platform} {A} (m : res A) (Q : A -> Prop) : no_die m -> returns m Q -> exists a, m = Ok a.
Proof. destruct m as [a|[]]; simpl; eauto; try done. Qed.

Definition quiet `{Platform} (s : lconfig) : Prop := forall s', ~ worker_step s s'.

Section quiet.
Context `{Platform} (w : lworld) (cs : list caller).
Hypotheses (Hinv : life_inv w cs) (Hb : refs_bounded w) (Hq : quiet (w, cs)).

Lemma quiet_calls : cs = [].
Proof.
  destruct cs as [|c l] eqn:Hcs; [done|]. exfalso.
  destruct (returns_exists _ _ (exec_caller_no_die c w) (caller_exec_ok w l c Hinv Hb)) as [[o w'] He].
  exact (Hq _ (step_caller w [] c l o w' He)).
Qed.

Lemma quiet_worker k x : wks w !! k = Some x -> worker_ready x = false.
Proof.
  intros Hk. destruct (worker_ready x) eqn:Hr; [|done]. exfalso.
  destruct (returns_exists _ _ (exec_worker_no_die w k x) (worker_exec_ok w cs k x Hinv Hk Hr Hb)) as [[o w'] He].
  exact (Hq _ (step_worker w cs k x o w' Hk Hr He)).
Qed.

(** Every worker has got as far as waiting for a signal, so all have met. *)
Lemma quiet_met : lp_enter_cnt (lp w) = lp_width (lp w).
Proof.
  destruct (decide (lp_enter_cnt (lp w) = lp_width (lp w))) as [?|Hne]; [done|]. exfalso.
  pose proof (lv_enter _ _ Hinv) as He. pose proof (lv_length _ _ Hinv) as Hl.
  assert (Hall : forall y, y ∈ wks w -> met (wk_point y) = 1).
  { intros y [k Hk]%list_elem_of_lookup_1. pose proof (quiet_worker k y Hk) as Hr. unfold worker_ready in Hr.
    by destruct (wk_point y). }
  apply Hne. rewrite He, <- Hl. clear -Hall. induction (wks w) as [|y l IH]; [done|].
  rewrite total_cons, Hall by (by left). simpl. f_equal. apply IH. intros z Hz. apply Hall. by right.
Qed.

Lemma quiet_point k x :
  wks w !! k = Some x -> (wk_point x = WSvc /\ wk_signals x = 0) \/ wk_point x = WGone.
Proof.
  intros Hk. pose proof (quiet_worker k x Hk) as Hr. unfold worker_ready in Hr.
  pose proof quiet_met as Hm. destruct (wk_point x) eqn:Hp; try done.
  - pose proof (lv_wait _ _ Hinv k x Hk Hp). lia.
  - left. split; [done|]. by apply negb_false_iff, bool_decide_eq_true in Hr.
  - by right.
Qed.

(** No task is left behind in a local queue. *)
Lemma quiet_tasks k x : wks w !! k = Some x -> wk_tasks x = [].
Proof.
  intros Hk. pose proof (lv_worker _ _ Hinv k x Hk) as Hok.
  destruct (quiet_point k x Hk) as [[Hp Hs]|Hp].
  - pose proof (wo_token _ _ _ _ _ _ Hok) as Ht. rewrite quiet_calls, Hs in Ht. unfold drains in Ht. rewrite Hp in Ht.
    destruct (decide (wk_tasks x = [])) as [?|Hne]; [done|]. rewrite one_true in Ht by done. done.
  - destruct (wo_stopped _ _ _ _ _ _ Hok) as [[? _]|[_ ?]]; [|done|congruence].
    apply (wo_gone _ _ _ _ _ _ Hok). by right.
Qed.

(** Every barrier has run on every worker, and its own task once. *)
Lemma quiet_barrier b bc :
  barriers w !! b = Some bc -> bc_done bc = 1 /\ bc_freed bc = true /\ (forall k, k < lp_width (lp w) -> k ∈ bc_ran bc).
Proof.
  intros Hbc. destruct (lv_barrier _ _ Hinv b bc Hbc) as [Hnd Hrg Hrf Hfr Hdn].
  assert (Hall : forall k, k < lp_width (lp w) -> k ∈ bc_ran bc).
  { intros k Hk. destruct (lookup_lt_is_Some_2 (wks w) k) as [x Hx]; [by rewrite (lv_length _ _ Hinv)|].
    pose proof (lv_tasks _ _ Hinv b k x Hx) as Ht. unfold to_run, outstanding in Ht.
    rewrite (quiet_tasks k x Hx), quiet_calls, Hbc in Ht.
    destruct (decide (k ∈ bc_ran bc)) as [?|Hno]; [done|]. rewrite one_true in Ht by done.
    by destruct (decide (wk_point x = WNext)). }
  assert (Hle : lp_width (lp w) <= length (bc_ran bc)).
  { rewrite <- (length_seq (lp_width (lp w)) 0). apply submseteq_length, NoDup_submseteq; [apply NoDup_seq|].
    intros k Hk%elem_of_seq. apply Hall. lia. }
  assert (Hge : length (bc_ran bc) <= lp_width (lp w)).
  { rewrite <- (length_seq (lp_width (lp w)) 0). apply submseteq_length, NoDup_submseteq; [done|].
    intros k Hk. apply elem_of_seq. specialize (Hrg k Hk). lia. }
  assert (Hf : bc_freed bc = true) by (rewrite Hfr; apply bool_decide_true; lia).
  rewrite Hf in Hdn. split_and!; done.
Qed.

(** When nobody holds work or references, the workers are gone and the loop is
    freed. *)
Lemma quiet_end :
  lp_tokens (lp w) = 0 -> (forall k x, wks w !! k = Some x -> wk_clients x = 0) ->
  lp_alive (lp w) = false /\ forall k, k < lp_width (lp w) -> gone_at w k.
Proof.
  intros Ht Hc. pose proof quiet_calls as Hcs.
  assert (Hwork : lp_work_cnt (lp w) = 0%Z) by (rewrite (lv_work _ _ Hinv), Hcs, Ht; done).
  assert (Hcol : lp_collected (lp w) = true).
  { pose proof (lv_collect _ _ Hinv) as Hc0. rewrite Hcs in Hc0. destruct (lp_collected (lp w)); [done|].
    rewrite one_true in Hc0 by done. done. }
  assert (Hgone : forall k, k < lp_width (lp w) -> gone_at w k).
  { intros k Hk. destruct (lookup_lt_is_Some_2 (wks w) k) as [x Hx]; [by rewrite (lv_length _ _ Hinv)|].
    exists x. split; [done|]. destruct (quiet_point k x Hx) as [[Hp Hs]|Hp]; [exfalso|done].
    pose proof (lv_worker _ _ Hinv k x Hx) as Hok. pose proof (wo_refs _ _ _ _ _ _ Hok) as Hr.
    rewrite Hcs, Hcol, Hp, (Hc k x Hx) in Hr. simpl in Hr.
    pose proof (wo_stop _ _ _ _ _ _ Hok) as Hst. unfold to_run in Hst. rewrite (quiet_tasks k x Hx), Hcs, Hp in Hst.
    rewrite one_true in Hst by done. destruct (wk_stopped x) eqn:Hsp; [|done].
    destruct (wo_stopped _ _ _ _ _ _ Hok Hsp) as [[_ [?|[?|[?|?]]]]|[_ ?]]; congruence. }
  split; [|done]. destruct (lp_alive (lp w)) eqn:Ha; [exfalso|done].
  pose proof (lv_width _ _ Hinv) as [Hw1 _].
  assert (He : exists w', loop_end w = Ok w').
  { unfold loop_end, get_loop. rewrite Ha, bind_ok. destruct (_ <? _); eauto. }
  destruct He as [w' He]. apply (Hq (w', cs)). eapply step_end; [done|apply Hgone; lia|apply Hgone|done].
Qed.
End quiet.
