(* ===== verification/WorkerProps.v ===== *)
(** * Workers and the life of the loop: properties

    What holds in every state that the loop reaches, with witnesses on a schedule
    of two workers that is run by computation. *)

From stdpp Require Import base numbers list gmap.
From Stdlib Require Import ZArith Lia.
From S2P Require Import Prelude.
From S2P Require Import Worker.
From S2P Require Import WorkerInv.
From S2P Require Import WorkerSteps.
From S2P Require Import WorkerCallers.
From S2P Require Import WorkerRest.
From S2P Require Import WorkerLive.

#[local] Open Scope Z_scope.

Implicit Types (w : lworld) (cs : list caller) (c : caller) (k b : nat) (x : ntt_worker).

Section props.
Context `{Platform}.

Lemma gone_facts w cs k x :
  life_inv w cs -> wks w !! k = Some x -> wk_stopped x = true ->
  wk_refs x = 0 /\ wk_clients x = 0%nat /\ total (wholds k) cs = 0%nat /\ lp_collected (lp w) = true /\
  total (stopping k) cs = 0%nat /\ wk_signals x = 0%nat /\ total (waking k) cs = 0%nat.
Proof.
  intros Hinv Hk Hs. pose proof (lv_worker _ _ Hinv k x Hk) as [Hst Hr Htk Hd Hq Hsp Hl Hsd Hg Hrn Hcl].
  pose proof (Hsd Hs) as Hwd. rewrite Hs in Hsp. simpl in Hsp.
  assert (Hz : wk_refs x = 0 /\ inited (wk_point x) = true) by (eapply one_pos; rewrite <- Hsp; lia).
  pose proof (one_le (wk_refs x = 0 /\ inited (wk_point x) = true)).
  destruct Hz as [Hz _]. rewrite Hz in Hr.
  assert (Hkn : known (wk_point x) = true) by (destruct Hwd as [[_ [Hp|[Hp|[Hp|Hp]]]]|[_ Hp]]; by rewrite Hp).
  rewrite Hkn in Hr. destruct (lp_collected (lp w)); simpl in Hr; [|lia]. split_and!; try done; try lia.
  - pose proof (one_le (wk_tasks x <> [])). destruct Hwd as [[Ht _]|[_ Hp]].
    + rewrite Ht, one_false in Htk by (by intros []). lia.
    + unfold drains in Htk. rewrite Hp in Htk. lia.
  - pose proof (one_le (wk_tasks x <> [])). destruct Hwd as [[Ht _]|[_ Hp]].
    + rewrite Ht, one_false in Htk by (by intros []). lia.
    + unfold drains in Htk. rewrite Hp in Htk. lia.
Qed.

(** C18.  No step fails in a state that is reached: no thread and no call uses a
    worker that is not initialised or has left, or a loop that was freed; no
    assertion is violated; the stop task finds the queue of its worker; and the
    code around may enter and leave work, push barriers and take references as
    long as it holds work or a reference. *)
Theorem loop_life_no_fault width w cs :
  life width w cs ->
  (forall k x, wks w !! k = Some x -> worker_ready x = true -> exists r, exec_worker w k x = Ok r) /\
  (forall c, c ∈ cs -> exists r, exec_caller c w = Ok r) /\
  (started w -> (0 < lp_tokens (lp w))%nat ->
    returns (ntt_loop_work_enter w) (fun _ => True) /\ returns (ntt_loop_push_barrier w) (fun _ => True)) /\
  (forall k x, started w -> wks w !! k = Some x -> (0 < wk_clients x)%nat \/ (0 < lp_tokens (lp w))%nat ->
    returns (ntt_worker_acquire w k) (fun _ => True)).
Proof.
  intros [Hinv Hb]%life_reach. split_and!.
  - intros k x Hk Hr. eapply returns_exists; [apply exec_worker_no_die|by eapply worker_exec_ok].
  - intros c (l1 & l2 & ->)%list_elem_of_split.
    apply (life_perm _ _ (c :: l1 ++ l2)) in Hinv; [|by rewrite Permutation_middle].
    eapply returns_exists; [apply exec_caller_no_die|by eapply caller_exec_ok].
  - intros Hs Ht. pose proof (started_met w cs Hinv Hs) as Hm. destruct (tokens_work w cs Hinv Ht) as (Hc & _ & _).
    split; [by eapply returns_mono; [by eapply outside_enter_ok|]|].
    unfold ntt_loop_push_barrier, get_loop. by rewrite (uncollected_alive w cs Hinv Hm Hc), bind_ok.
  - intros k x Hs Hk Hor. destruct (referenced w cs Hinv k x Hs Hk Hor) as (_ & Hpos & Hns & Hng).
    unfold ntt_worker_acquire. rewrite (get_worker_ok w k x Hk Hns Hng), bind_ok, c_assert_true; [done|].
    destruct (Z.eqb_spec (wk_refs x) 0); [lia|done].
Qed.

(** C12.  The loop comes to its end: whatever the order of the threads, the
    library takes at most [life_measure] steps by itself, and when it cannot take
    another one while the code around holds neither work nor references, every
    worker has left and the loop has been freed, so that [ntt_loop_run] returns. *)
Theorem loop_run_returns width w cs :
  life width w cs ->
  (forall n s', nsteps worker_step n (w, cs) s' -> (n <= life_measure (w, cs))%nat) /\
  (forall w' cs', rtc worker_step (w, cs) (w', cs') -> quiet (w', cs') ->
     lp_tokens (lp w') = 0%nat -> Forall (fun x => wk_clients x = 0%nat) (wks w') ->
     cs' = [] /\ lp_alive (lp w') = false /\ forall k, (k < lp_width (lp w'))%nat -> gone_at w' k).
Proof.
  intros Hl. split.
  - intros n s' Hn. destruct (worker_steps_life width n (w, cs) s' Hl Hn). lia.
  - intros w' cs' [n Hn]%rtc_nsteps Hq Ht Hc.
    destruct (worker_steps_life width n (w, cs) (w', cs') Hl Hn) as [[Hinv Hb]%life_reach _]. simpl in Hinv, Hb.
    split; [by eapply quiet_calls|]. eapply quiet_end; try done. by rewrite Forall_lookup in Hc.
Qed.

(** A worker that has left its frame is not needed any more: its references
    are gone, the loop and every call in progress included, there is no work left,
    its local queue is empty, and no signal is on its way to its thread. *)
Theorem worker_left_unused width w cs k x :
  life width w cs -> wks w !! k = Some x -> wk_point x = WGone ->
  wk_refs x = 0 /\ wk_tasks x = [] /\ wk_signals x = 0%nat /\ lp_work_cnt (lp w) = 0 /\
  total (wholds k) cs = 0%nat /\ total (waking k) cs = 0%nat /\ total (stopping k) cs = 0%nat.
Proof.
  intros [Hinv _]%life_reach Hk Hp. pose proof (lv_worker _ _ Hinv k x Hk) as Hok.
  assert (Hs : wk_stopped x = true) by (apply (wo_gone _ _ _ _ _ _ Hok); by right).
  destruct (gone_facts w cs k x Hinv Hk Hs) as (? & ? & ? & Hcol & ? & ? & ?).
  split_and!; try done; [|by apply (lv_collected _ _ Hinv)].
  destruct (wo_stopped _ _ _ _ _ _ Hok Hs) as [[? _]|[_ ?]]; [done|congruence].
Qed.

(** Wake-ups of a local queue are neither lost nor doubled: while it holds
    tasks, exactly one of these is the case - a call is about to send the signal,
    the signal is on its way, the thread is going to drain the queue - and none
    while it is empty; and when the library cannot make a step, every local queue is
    empty. *)
Theorem local_queue_wakeup width w cs k x :
  life width w cs -> wks w !! k = Some x ->
  (wk_signals x + drains x + total (waking k) cs = if decide (wk_tasks x = []) then 0 else 1)%nat /\
  (quiet (w, cs) -> wk_tasks x = []).
Proof.
  intros [Hinv Hb]%life_reach Hk. split; [|intros Hq; by eapply quiet_tasks].
  rewrite (wo_token _ _ _ _ _ _ (lv_worker _ _ Hinv k x Hk)).
  destruct (decide (wk_tasks x = [])) as [Hz|Hz]; [apply one_false; by intros []|by apply one_true].
Qed.

(** C27.  A barrier is one: its own task runs at most once, and only after every
    worker has run the barrier's task, each exactly once; when the library cannot
    make a step, it has run. *)
Theorem barrier_after_all width w cs b bc :
  life width w cs -> barriers w !! b = Some bc ->
  NoDup (bc_ran bc) /\ (bc_done bc <= 1)%nat /\
  (bc_done bc = 1%nat <-> forall k, (k < lp_width (lp w))%nat -> k ∈ bc_ran bc) /\
  (quiet (w, cs) -> bc_done bc = 1%nat).
Proof.
  intros [Hinv Hb]%life_reach Hbc. pose proof (lv_width _ _ Hinv) as [Hw _].
  pose proof (lv_barrier _ _ Hinv b bc Hbc) as Hok. destruct Hok as [Hnd Hrg Hrf Hfr Hdn].
  assert (Hlen : (forall k, (k < lp_width (lp w))%nat -> k ∈ bc_ran bc) <-> length (bc_ran bc) = lp_width (lp w)).
  { split.
    - intros Hall. apply Nat.le_antisymm; (rewrite <- (length_seq (lp_width (lp w)) 0));
        apply submseteq_length, NoDup_submseteq; try done; [|apply NoDup_seq|].
      + intros k Hk. apply elem_of_seq. specialize (Hrg k Hk). lia.
      + intros k Hk%elem_of_seq. apply Hall. lia.
    - intros Hl k Hk. destruct (decide (k ∈ bc_ran bc)) as [?|Hno]; [done|exfalso].
      assert (Hle : (length (k :: bc_ran bc) <= length (seq 0 (lp_width (lp w))))%nat).
      { apply submseteq_length, NoDup_submseteq; [by constructor|].
        intros j [->|Hj]%elem_of_cons; apply elem_of_seq; [lia|]. specialize (Hrg j Hj). lia. }
      rewrite length_seq in Hle. simpl in Hle. lia. }
  split_and!; [done|rewrite Hdn; by destruct (bc_freed bc); simpl; lia| |intros Hq; by eapply quiet_barrier].
  rewrite Hlen, Hdn, Hfr. case_bool_decide; simpl; lia.
Qed.

(** Code runs on the loop only when the workers have met: from then on the
    loop has the pointer of every worker, so that barriers and the end of the work
    reach all of them, and the number of workers fits the array on the stack of
    [ntt_loop_work_leave]. *)
Theorem workers_met width w cs :
  life width w cs -> cs <> [] \/ started w ->
  lp_enter_cnt (lp w) = lp_width (lp w) /\ lp_workers (lp w) = Some <$> seq 0 (lp_width (lp w)) /\
  (1 <= lp_width (lp w))%nat /\ Z.of_nat (lp_width (lp w)) <= NTT_MAX_LOOP_WIDTH.
Proof.
  intros [Hinv _]%life_reach Hor.
  assert (Hm : lp_enter_cnt (lp w) = lp_width (lp w)).
  { destruct Hor as [Hne|Hs]; [|by eapply started_met]. destruct cs as [|c cs]; [done|by eapply caller_met]. }
  destruct (lv_width _ _ Hinv). split_and!; try done. by eapply table_known.
Qed.
End props.

(** ** Running a schedule *)
Module WorkerExample.

Inductive lmove : Type :=
  | Thread (k : nat)            (* a step of a worker *)
  | Call                        (* a step of the oldest call of the list *)
  | End
  | Enter
  | GiveUp
  | Barrier
  | Take (k : nat)
  | Drop (k : nat)
  | PushTo (k : nat).

Definition startedb (w : lworld) : bool := existsb (fun x => entered (wk_point x)) (wks w).
Definition goneb (w : lworld) (k : nat) : bool :=
  match wks w !! k with Some x => bool_decide (wk_point x = WGone) | None => false end.

Definition okay {A} (r : res A) : option A := match r with Ok a => Some a | Err _ => None end.

Section play.
Context `{Platform}.

Definition less_work (w : lworld) : lworld :=
  set_lp (lp_with_work (lp_work_cnt (lp w)) (pred (lp_tokens (lp w))) (lp w)) w.

Definition lplay (m : lmove) (s : lconfig) : option lconfig :=
  let '(w, cs) := s in
  let works := startedb w && negb (bool_decide (lp_tokens (lp w) = 0%nat)) in
  match m with
  | Thread k =>
      x ← wks w !! k;
      if worker_ready x then '(c, w') ← okay (exec_worker w k x); Some (w', option_list c ++ cs) else None
  | Call =>
      match cs with
      | c :: cs => '(c', w') ← okay (exec_caller c w); Some (w', option_list c' ++ cs)
      | [] => None
      end
  | End =>
      if lp_alive (lp w) && goneb w 0 &&
         (negb (lp_joined (lp w) <? lp_width (lp w))%nat || goneb w (lp_joined (lp w)))
      then w' ← okay (loop_end w); Some (w', cs) else None
  | Enter => if works then w' ← okay (ntt_loop_work_enter w); Some (w', cs) else None
  | GiveUp => if works then Some (less_work w, CLeave :: cs) else None
  | Barrier => if works then '(c, w') ← okay (ntt_loop_push_barrier (less_work w)); Some (w', c :: cs) else None
  | Take k =>
      x ← wks w !! k;
      if works then
        w' ← okay (ntt_worker_acquire (set_wk k (wk_with_clients (S (wk_clients x)) x) w) k); Some (w', cs)
      else None
  | Drop k =>
      x ← wks w !! k;
      if startedb w && negb (bool_decide (wk_clients x = 0%nat))
      then Some (set_wk k (wk_with_clients (pred (wk_clients x)) x) w, CRelease [Some k] :: cs) else None
  | PushTo k =>
      x ← wks w !! k;
      if startedb w && negb (bool_decide (wk_clients x = 0%nat))
      then Some (set_wk k (wk_with_clients (pred (wk_clients x)) x) w, CPush k OtherTask (KReturn k) :: cs) else None
  end.

Fixpoint lplays (ms : list lmove) (s : lconfig) : option lconfig :=
  match ms with
  | [] => Some s
  | m :: ms =>
      s' ← lplay m s;
      if (lp_work_cnt (lp s'.1) <? SIZE_MAX) && forallb (fun x => wk_refs x <? SIZE_MAX) (wks s'.1)
      then lplays ms s' else None
  end.

Lemma startedb_started w : startedb w = true -> started w.
Proof.
  unfold startedb. intros (x & Hx & He)%existsb_exists. apply list_elem_of_In, list_elem_of_lookup_1 in Hx as [k Hk].
  by exists k, x.
Qed.

Lemma goneb_gone w k : goneb w k = true -> gone_at w k.
Proof.
  unfold goneb. destruct (wks w !! k) as [x|] eqn:Hk; [|done]. intros Hp%bool_decide_eq_true. by exists x.
Qed.

Lemma okay_inv {A} (r : res A) a : okay r = Some a -> r = Ok a.
Proof. destruct r; simpl; congruence. Qed.

Lemma works_inv w :
  startedb w && negb (bool_decide (lp_tokens (lp w) = 0%nat)) = true -> started w /\ (0 < lp_tokens (lp w))%nat.
Proof. intros [Hs%startedb_started Ht%negb_true_iff%bool_decide_eq_false]%andb_true_iff. split; [done|lia]. Qed.

Lemma lplay_step m s s' : lplay m s = Some s' -> worker_step s s' \/ outside_step s s'.
Proof.
  destruct s as [w cs]. unfold lplay. destruct m; intros Hp.
  - apply bind_Some in Hp as (x & Hx & Hp). destruct (worker_ready x) eqn:Hr; [|done].
    apply bind_Some in Hp as ([c w'] & Heq%okay_inv & [= <-]). left. by eapply step_worker.
  - destruct cs as [|c cs]; [done|]. apply bind_Some in Hp as ([c' w'] & Heq%okay_inv & [= <-]).
    left. by apply (step_caller w [] c cs).
  - destruct (_ && _) eqn:Hb; [|done]. apply bind_Some in Hp as (w' & Heq%okay_inv & [= <-]).
    apply andb_true_iff in Hb as [[Ha Hg%goneb_gone]%andb_true_iff Hj]. left. apply step_end; try done.
    intros Hlt. apply Nat.ltb_lt in Hlt. rewrite Hlt in Hj. by apply goneb_gone.
  - destruct (_ && _) eqn:Hb; [|done]. apply works_inv in Hb as [Hs Ht].
    apply bind_Some in Hp as (w' & Heq%okay_inv & [= <-]). right. by apply outside_enter.
  - destruct (_ && _) eqn:Hb; [|done]. apply works_inv in Hb as [Hs Ht]. injection Hp as <-. right. by apply outside_leave.
  - destruct (_ && _) eqn:Hb; [|done]. apply works_inv in Hb as [Hs Ht].
    apply bind_Some in Hp as ([c w'] & Heq%okay_inv & [= <-]). right. by apply outside_barrier.
  - apply bind_Some in Hp as (x & Hx & Hp). destruct (_ && _) eqn:Hb; [|done]. apply works_inv in Hb as [Hs Ht].
    apply bind_Some in Hp as (w' & Heq%okay_inv & [= <-]). right. eapply outside_acquire; eauto.
  - apply bind_Some in Hp as (x & Hx & Hp). destruct (_ && _) eqn:Hb; [|done]. injection Hp as <-.
    apply andb_true_iff in Hb as [Hs%startedb_started Hc%negb_true_iff%bool_decide_eq_false].
    right. apply outside_release; [done|done|lia].
  - apply bind_Some in Hp as (x & Hx & Hp). destruct (_ && _) eqn:Hb; [|done]. injection Hp as <-.
    apply andb_true_iff in Hb as [Hs%startedb_started Hc%negb_true_iff%bool_decide_eq_false].
    right. apply outside_push; [done|done|lia].
Qed.

Lemma lplays_steps ms : forall s s', lplays ms s = Some s' -> rtc life_step s s'.
Proof.
  induction ms as [|m ms IH]; intros s s' Heq; cbn [lplays] in Heq; [by injection Heq as ->|].
  apply bind_Some in Heq as (s1 & Hp & Heq). destruct (_ && _) eqn:Hb; [|done].
  eapply rtc_l; [|by apply IH]. split; [by eapply lplay_step|].
  apply andb_true_iff in Hb as [Hb1%Z.ltb_lt Hb2]. split; [done|].
  rewrite forallb_forall in Hb2. apply Forall_forall. intros x Hx%list_elem_of_In. by apply Z.ltb_lt, Hb2.
Qed.

Lemma lplays_life width ms w cs :
  0 <= width < 2 ^ 32 -> lplays ms (ntt_loop_run width, []) = Some (w, cs) -> life width w cs.
Proof. intros Hw Heq. split; [done|]. by eapply lplays_steps. Qed.

(** Whether no step of the library is left. *)
Definition quietb (s : lconfig) : bool :=
  bool_decide (s.2 = []) && forallb (fun x => negb (worker_ready x)) (wks s.1) &&
  negb (lp_alive (lp s.1) && goneb s.1 0).

Lemma quietb_quiet s : quietb s = true -> quiet s.
Proof.
  unfold quietb. intros [[Hc%bool_decide_eq_true Hw]%andb_true_iff He%negb_true_iff]%andb_true_iff s' Hs.
  destruct Hs as [w cs k x c w' Hk Hr Heq|w l1 c l2 c' w' Heq|w cs w' Ha (x & Hx & Hg) Hj Heq]; simpl in *.
  - rewrite forallb_forall in Hw. specialize (Hw x). rewrite Hr in Hw. simpl in Hw.
    assert (false = true); [|done]. apply Hw. apply list_elem_of_In. by eapply list_elem_of_lookup_2.
  - by destruct l1.
  - unfold goneb in He. by rewrite Ha, Hx, Hg in He.
Qed.
End play.

(** Two workers meet; a reference is taken, a task and a barrier are pushed while
    they run; then the reference and the work are given up. *)
#[local] Instance machine : Platform := {| ndebug := false; alloc_ok := fun _ => true |}.

Definition thread (k m : nat) : list lmove := replicate m (Thread k).

Definition start_moves : list lmove :=
  [Thread 0; Thread 1; Thread 0; Thread 1; Thread 1; Thread 0; Thread 1; Thread 0; Thread 1].
Definition push_moves : list lmove :=
  start_moves ++ [Take 1; PushTo 1; Call; Call; Call; Barrier] ++ replicate 6 Call ++ thread 1 2 ++ thread 0 2.
Definition rest_moves : list lmove := push_moves ++ [Call] ++ thread 1 7 ++ thread 0 5.
Definition leave_moves : list lmove := rest_moves ++ [Drop 1; Call; Call; GiveUp] ++ replicate 11 Call.
Definition gone_moves : list lmove := leave_moves ++ thread 1 7 ++ thread 0 7.
Definition end_moves : list lmove := gone_moves ++ [End; End].

Definition lafter (ms : list lmove) : lconfig := default (ntt_loop_run 2, []) (lplays ms (ntt_loop_run 2, [])).

Lemma lafter_life ms :
  is_Some (lplays ms (ntt_loop_run 2, [])) -> life 2 (lafter ms).1 (lafter ms).2.
Proof.
  intros [[w cs] Heq]. unfold lafter. rewrite Heq. by apply (lplays_life 2 ms); [lia|].
Qed.

Definition worker_of (ms : list lmove) (k : nat) : ntt_worker :=
  default ntt_worker_init (wks (lafter ms).1 !! k).

Lemma loop_life_no_fault_witness :
  worker_ready (worker_of push_moves 1) = true /\
  (exists r, exec_worker (lafter push_moves).1 1 (worker_of push_moves 1) = Ok r) /\
  (exists c r, c ∈ (lafter push_moves).2 /\ exec_caller c (lafter push_moves).1 = Ok r).
Proof.
  destruct (loop_life_no_fault 2 (lafter push_moves).1 (lafter push_moves).2) as (Hw & Hc & _).
  { apply lafter_life. vm_compute. eexists. reflexivity. }
  assert (Hr : worker_ready (worker_of push_moves 1) = true) by (by vm_compute).
  split; [exact Hr|]. split; [apply Hw; [by vm_compute|exact Hr]|].
  assert (He : CBarrier 0 2 ∈ (lafter push_moves).2) by (vm_compute; by left).
  destruct (Hc _ He) as [r Hr']. exists (CBarrier 0 2), r. split; [exact He|exact Hr'].
Defined.

Lemma loop_run_returns_witness :
  life_measure (lafter rest_moves) = 6%nat /\
  lp_alive (lp (lafter end_moves).1) = false /\ gone_at (lafter end_moves).1 0 /\ gone_at (lafter end_moves).1 1.
Proof.
  split; [by vm_compute|].
  destruct (loop_run_returns 2 (lafter end_moves).1 (lafter end_moves).2) as [_ Hend].
  { apply lafter_life. vm_compute. eexists. reflexivity. }
  destruct (Hend (lafter end_moves).1 (lafter end_moves).2) as (_ & Ha & Hg).
  - apply rtc_refl.
  - apply quietb_quiet. by vm_compute.
  - by vm_compute.
  - vm_compute. by repeat constructor.
  - split; [exact Ha|]. split; apply Hg; vm_compute; lia.
Defined.

Lemma worker_left_unused_witness :
  wk_point (worker_of gone_moves 1) = WGone /\ wk_refs (worker_of gone_moves 1) = 0 /\
  lp_work_cnt (lp (lafter gone_moves).1) = 0.
Proof.
  destruct (worker_left_unused 2 (lafter gone_moves).1 (lafter gone_moves).2 1 (worker_of gone_moves 1))
    as (Hr & _ & _ & Hw & _).
  - apply lafter_life. vm_compute. eexists. reflexivity.
  - by vm_compute.
  - by vm_compute.
  - split; [by vm_compute|]. split; [exact Hr|exact Hw].
Defined.

Lemma local_queue_wakeup_witness :
  wk_tasks (worker_of push_moves 1) = [OtherTask; BarrierTask 0] /\
  (wk_signals (worker_of push_moves 1) + drains (worker_of push_moves 1) + total (waking 1) (lafter push_moves).2 = 1)%nat /\
  wk_tasks (worker_of rest_moves 1) = [].
Proof.
  split; [by vm_compute|]. split.
  - destruct (local_queue_wakeup 2 (lafter push_moves).1 (lafter push_moves).2 1 (worker_of push_moves 1)) as [Ht _].
    + apply lafter_life. vm_compute. eexists. reflexivity.
    + by vm_compute.
    + rewrite Ht. by vm_compute.
  - apply (local_queue_wakeup 2 (lafter rest_moves).1 (lafter rest_moves).2 1 (worker_of rest_moves 1)).
    + apply lafter_life. vm_compute. eexists. reflexivity.
    + by vm_compute.
    + apply quietb_quiet. by vm_compute.
Defined.

Lemma barrier_after_all_witness :
  exists bc, barriers (lafter rest_moves).1 !! 0%nat = Some bc /\ bc_done bc = 1%nat /\ 1%nat ∈ bc_ran bc.
Proof.
  exists (default (mk_barrier 0 [] 0 false) (barriers (lafter rest_moves).1 !! 0%nat)). split; [by vm_compute|].
  destruct (barrier_after_all 2 (lafter rest_moves).1 (lafter rest_moves).2 0
    (default (mk_barrier 0 [] 0 false) (barriers (lafter rest_moves).1 !! 0%nat))) as (_ & _ & Hall & Hq).
  - apply lafter_life. vm_compute. eexists. reflexivity.
  - by vm_compute.
  - assert (Hd : bc_done (default (mk_barrier 0 [] 0 false) (barriers (lafter rest_moves).1 !! 0%nat)) = 1%nat).
    { apply Hq, quietb_quiet. by vm_compute. }
    split; [exact Hd|]. apply Hall; [exact Hd|]. vm_compute. lia.
Defined.

Lemma workers_met_witness :
  startedb (lafter start_moves).1 = true /\ lp_workers (lp (lafter start_moves).1) = [Some 0%nat; Some 1%nat].
Proof.
  assert (Hs : startedb (lafter start_moves).1 = true) by (by vm_compute). split; [exact Hs|].
  destruct (workers_met 2 (lafter start_moves).1 (lafter start_moves).2) as (_ & Hw & _).
  - apply lafter_life. vm_compute. eexists. reflexivity.
  - right. by apply startedb_started.
  - rewrite Hw. by vm_compute.
Defined.
End WorkerExample.
