(* ===== verification/LoopRun.v ===== *)
(** * The life of a loop and its resources: data and operations

    Translates how [ntt_loop_run] and [ntt_loop_destroy] of [src/loop.c] build a
    loop and take it down: descriptors, memory, the two slabs, the events that
    the loop owns itself, the timer service of [src/timer_service.c] and the
    wrappers that abort when a system call fails.  The components are those of
    the other files: [EventTable] for the events, [Slab] for the queues,
    [TimerService] and [Queue] for what they assert at the end.  The memory of
    the process is the memory of the table. *)

From stdpp Require Import base numbers list gmap.
From Stdlib Require Import ZArith Lia.
From S2P Require Import Prelude.
From S2P Require Import Queue.
From S2P Require Import LoopStart.
From S2P Require Import TimerService.
From S2P Require Import Worker.
From S2P Require Import Slab.
From S2P Require Import Task.
From S2P Require Import Event.
From S2P Require Import EventTable.

#[local] Open Scope Z_scope.

(** ** The system *)

(** Which descriptor the kernel hands out, when it has one, and whether the
    other calls succeed. *)
Class System : Type := {
  new_fd : gset Z -> option Z;
  mutex_init_ok : bool;
  cond_init_ok : bool;
  pthread_create_ok : bool;
}.

(** A new descriptor is not open already. *)
Class SystemLaws `{System} : Prop := {
  new_fd_fresh : forall fds fd, new_fd fds = Some fd -> fd ∉ fds;
}.

(** The sizes of structures, in bytes. *)
Class Layout : Type := {
  sizeof_ntt_loop : Z;
  sizeof_ntt_loop_worker_ctx : Z;
  sizeof_ntt_queue : Z;
}.

Class LayoutLaws `{Layout} : Prop := {
  loop_size_pos : 0 < sizeof_ntt_loop <= 2 ^ 24 /\ 0 <= sizeof_ntt_loop_worker_ctx <= 2 ^ 24;
  queue_size_fits : 0 < sizeof_ntt_queue <= 2 ^ 24;
}.

(** ** The loop *)
Record loop_run : Type := mk_loop_run {
  lr_addr : ptr;
  lr_width : Z;
  lr_epoll_fd : Z;
  lr_mtx : bool;                 (* initialised *)
  lr_cv : bool;
  lr_combine_eventfd : Z;
  lr_combine_event : Z;
  lr_timer_fd : Z;
  lr_timer_event : Z;
  lr_queue_slab : ntt_slab;
  lr_table : table;              (* the event slab, the epoll, and the memory *)
  lr_fds : gset Z;               (* the descriptors the process has open *)
}.

Definition lr_with_table T r :=
  mk_loop_run (lr_addr r) (lr_width r) (lr_epoll_fd r) (lr_mtx r) (lr_cv r) (lr_combine_eventfd r)
    (lr_combine_event r) (lr_timer_fd r) (lr_timer_event r) (lr_queue_slab r) T (lr_fds r).
Definition lr_with_queues s r :=
  mk_loop_run (lr_addr r) (lr_width r) (lr_epoll_fd r) (lr_mtx r) (lr_cv r) (lr_combine_eventfd r)
    (lr_combine_event r) (lr_timer_fd r) (lr_timer_event r) s (lr_table r) (lr_fds r).

Definition EPOLLEXCLUSIVE : Z := 2 ^ 28.

(** The events of the loop itself have a handler for the readable side only. *)
Definition ntt_g_combine_eventfd_cbs : ntt_event_vtbl := mk_vtbl true false false false.
Definition ntt_g_timer_service_vtbl : ntt_event_vtbl := mk_vtbl true false false false.

Section ops.
Context `{Platform} `{Allocator} `{Epoll} `{System} `{Layout}.

(** ** Wrappers that abort *)
Definition epoll_create_or_abort (fds : gset Z) : res (Z * gset Z) :=
  match new_fd fds with Some fd => Ok (fd, {[fd]} ∪ fds) | None => Err Die end.

Definition ntt_eventfd_or_die (fds : gset Z) : res (Z * gset Z) :=
  match new_fd fds with Some fd => Ok (fd, {[fd]} ∪ fds) | None => Err Die end.

(** The check of [timerfd_create] in [ntt_timer_service_init]. *)
Definition timerfd_create_or_die (fds : gset Z) : res (Z * gset Z) :=
  match new_fd fds with Some fd => Ok (fd, {[fd]} ∪ fds) | None => Err Die end.

Definition ntt_pthread_mutex_init_or_die : res bool := if mutex_init_ok then Ok true else Err Die.
Definition ntt_pthread_cond_init_or_die : res bool := if cond_init_ok then Ok true else Err Die.
Definition ntt_pthread_create_or_die : res unit := if pthread_create_ok then Ok tt else Err Die.

(** [close]: a descriptor that is not open may be somebody else's by now. *)
Definition close (fd : Z) (fds : gset Z) : res (gset Z) :=
  if decide (fd ∈ fds) then Ok (fds ∖ {[fd]}) else Err InvalidPointer.

(** [pthread_cond_destroy] and [pthread_mutex_destroy], of what was initialised. *)
Definition pthread_destroy (ready : bool) : res bool := if ready then Ok false else Err InvalidPointer.

(** ** Starting *)

(** Threads of the table, when nobody else runs. *)
Fixpoint run_alone (fuel : nat) (ts : list tthread) (T : table) : res table :=
  match ts with
  | [] => Ok T
  | t :: ts =>
      match fuel with
      | O => Err OutOfFuel
      | S fuel => '(T, new) ← texec t T; run_alone fuel (new ++ ts) T
      end
  end.

(** [ntt_event_open] before the loop has workers, with the handle it writes. *)
Definition event_open (prm : ntt_event_params) (fd events fl : Z) (T : table) : res (Z * table) :=
  T ← run_alone 4 [Opening prm fd events fl] T;
  match tb_issued T with (h, _) :: _ => Ok (h, T) | [] => Err InvalidPointer end.

Definition own_params (vtbl : ntt_event_vtbl) : ntt_event_params :=
  mk_params vtbl NTT_INTEREST_READABLE NULL NULL.

(** The descriptor of [ntt_timer_service_init]. *)
Definition timer_service_open (fds : gset Z) (T : table) : res (Z * Z * gset Z * table) :=
  '(fd, fds) ← timerfd_create_or_die fds;
  '(h, T) ← event_open (own_params ntt_g_timer_service_vtbl) fd
              (Z.lor EPOLLIN (Z.lor EPOLLET EPOLLEXCLUSIVE)) 0 T;
  Ok (fd, h, fds, T).

(** The threads of the workers after the first. *)
Fixpoint create_followers (n : nat) : res unit :=
  match n with O => Ok tt | S n => ntt_pthread_create_or_die ;; create_followers n end.

(** The size of a loop with the contexts of its workers behind it. *)
Definition loop_bytes (width : Z) : Z := u64 (sizeof_ntt_loop + u64 (sizeof_ntt_loop_worker_ctx * width)).

(** [ntt_loop_run] up to its own [ntt_worker_svc]: the first queue, the queues
    and the loop. *)
Definition loop_setup (task : ptr) (width : Z) (fds : gset Z) (m : memory) :
    res (ptr * Queue.ntt_loop * loop_run) :=
  let width := ntt_loop_clamp_width width in
  '(self, m) ← ntt_malloc_or_die m (loop_bytes width);
  '(epoll_fd, fds) ← epoll_create_or_abort fds;
  mtx ← ntt_pthread_mutex_init_or_die;
  cv ← ntt_pthread_cond_init_or_die;
  '(combine_eventfd, fds) ← ntt_eventfd_or_die fds;
  let queue_slab := ntt_slab_init sizeof_ntt_queue in
  '(combine_event, T) ← event_open (own_params ntt_g_combine_eventfd_cbs) combine_eventfd
                          (Z.lor EPOLLIN EPOLLEXCLUSIVE) 0 (fresh_table m);
  '(timer_fd, timer_event, fds, T) ← timer_service_open fds T;
  '(queue, (queue_slab, m)) ← ntt_slab_take queue_slab (tb_mem T);
  q ← ntt_slab_index m queue;
  w ← start_queue loop_queues q task;
  create_followers (Z.to_nat (width - 1)) ;;
  Ok (queue, w, mk_loop_run self width epoll_fd mtx cv combine_eventfd combine_event timer_fd timer_event
                  queue_slab (tb_with_slab (tb_slab T) m T) fds).

(** ** Ending *)

(** [ntt_timer_service_deinit] with its resources: the assertion and the heap
    of [TimerService], the descriptor, and the array of the heap, which lies at
    [elems] ([NULL] when it was never allocated). *)
Definition timer_service_close (service : world) (fd : Z) (elems : ptr) (fds : gset Z) (m : memory) :
    res (ntt_timer_service * gset Z * memory) :=
  service ← ntt_timer_service_deinit service;
  fds ← close fd fds;
  m ← ntt_free m elems;
  Ok (service, fds, m).

(** [ntt_loop_destroy], with the timer service and the queues as they are when
    every worker has joined; [close] also takes a descriptor out of the epoll. *)
Definition ntt_loop_destroy (r : loop_run) (service : world) (elems : ptr) (queues : Queue.ntt_loop) :
    res (ntt_timer_service * loop_run) :=
  let T := lr_table r in
  '(service, fds, m) ← timer_service_close service (lr_timer_fd r) elems (lr_fds r) (tb_mem T);
  let epoll := delete (lr_timer_fd r) (tb_epoll T) in
  '(queue_slab, m) ← ntt_slab_deinit (lr_queue_slab r) m;
  '(event_slab, m) ← ntt_slab_deinit (tb_slab T) m;
  _ ← ntt_combine_deinit queues;
  fds ← close (lr_combine_eventfd r) fds;
  fds ← close (lr_epoll_fd r) fds;
  cv ← pthread_destroy (lr_cv r);
  mtx ← pthread_destroy (lr_mtx r);
  Ok (service, mk_loop_run (lr_addr r) (lr_width r) (lr_epoll_fd r) mtx cv (lr_combine_eventfd r)
        (lr_combine_event r) (lr_timer_fd r) (lr_timer_event r) queue_slab
        (mk_table event_slab m (tb_objs T) (delete (lr_combine_eventfd r) epoll) (tb_issued T) (tb_log T)) fds).

(** The end of [ntt_loop_run]: what is left to the process, and what is left in
    the memory of the timer service. *)
Definition loop_finish (r : loop_run) (service : world) (elems : ptr) (queues : Queue.ntt_loop) :
    res (ntt_timer_service * gset Z * memory) :=
  '(service, r) ← ntt_loop_destroy r service elems queues;
  m ← ntt_free (tb_mem (lr_table r)) (lr_addr r);
  Ok (service, lr_fds r, m).
End ops.
