(* ===== verification/LoopRunInv.v ===== *)
(** * The life of a loop and its resources: the invariant

    The two slabs, the loop itself and everything else that is allocated share
    one memory; the invariant says which allocation is whose. *)

From stdpp Require Import base numbers list gmap relations.
From Stdlib Require Import ZArith Lia.
From S2P Require Import Prelude.
From S2P Require Import Worker.
From S2P Require Import Slab.
From S2P Require Import SlabInv.
From S2P Require Import SlabOps.
From S2P Require Import SlabProps.
From S2P Require Import SlabFrame.
From S2P Require Import Event.
From S2P Require Import EventInv.
From S2P Require Import EventSteps.
From S2P Require Import EventTable.
From S2P Require Import EventTableInv.
From S2P Require Import EventTableSteps.
From S2P Require Import EventTableOpen.
From S2P Require Import LoopRun.

#[local] Open Scope Z_scope.

(** ** In between

    Everything that happens to the memory while the loop runs: events come and
    go, queues take, retire and give back slots, and anything else is allocated
    and freed.  A state is the loop, the threads of the events, the queues in
    use, and the allocations that are not the loop's. *)
Definition run_state : Type := loop_run * list tthread * gset Z * list (ptr * Z).

Definition lr_mem (r : loop_run) : memory := tb_mem (lr_table r).
Definition lr_with_mem m r := lr_with_table (tb_with_slab (tb_slab (lr_table r)) m (lr_table r)) r.

Inductive run_step `{Platform, Allocator, Epoll} : run_state -> run_state -> Prop :=
  | run_events r ts T' ts' L others :
      table_step (lr_table r, ts) (T', ts') -> gens_bounded T' ->
      run_step (r, ts, L, others) (lr_with_table T' r, ts', L, others)
  | run_queues r ts L qs m L' others :
      slab_step (lr_queue_slab r, lr_mem r, L) (qs, m, L') ->
      gens_bounded (lr_table (lr_with_mem m r)) ->
      run_step (r, ts, L, others) (lr_with_queues qs (lr_with_mem m r), ts, L', others)
  | run_alloc r ts L others align s p m :
      0 < s -> ntt_aligned_or_die (lr_mem r) align s = Ok (p, m) ->
      gens_bounded (lr_table (lr_with_mem m r)) ->
      run_step (r, ts, L, others) (lr_with_mem m r, ts, L, (p, s) :: others)
  | run_free r ts L others p s m :
      (p, s) ∈ others -> ntt_free (lr_mem r) p = Ok m ->
      gens_bounded (lr_table (lr_with_mem m r)) ->
      run_step (r, ts, L, others) (lr_with_mem m r, ts, L, filter (fun b => b.1 <> p) others).

(** ** Lists of allocations *)

Lemma blocks_nodup m l : mem_sound m -> mem_blocks m ≡ₚ l -> NoDup l.*1.
Proof. intros Hs%mem_sound_nodup Hp. by rewrite <- Hp. Qed.

Lemma nodup_fst_app_ne (A B : list (ptr * Z)) b c :
  NoDup (A ++ B).*1 -> b ∈ A -> c ∈ B -> b.1 <> c.1.
Proof.
  rewrite fmap_app, NoDup_app. intros (_ & Hdis & _) Hb Hc Heq.
  apply (Hdis b.1); [by apply list_elem_of_fmap_2|]. rewrite Heq. by apply list_elem_of_fmap_2.
Qed.

(** Allocations of different owners do not overlap. *)
Lemma owners_apart m (rest A B : list (ptr * Z)) :
  mem_sound m -> mem_blocks m ≡ₚ rest ++ A ++ B -> forall b c, b ∈ A -> c ∈ B -> apart b c.
Proof.
  intros Hs Hp b c Hb Hc. pose proof (blocks_nodup _ _ Hs Hp) as Hnd.
  rewrite fmap_app in Hnd. apply NoDup_app in Hnd as (_ & _ & Hnd).
  destruct Hs as [Hap _]. eapply apart_elem; [exact Hap| | |].
  - rewrite Hp. apply elem_of_app. right. apply elem_of_app. by left.
  - rewrite Hp. apply elem_of_app. right. apply elem_of_app. by right.
  - intros ->. by eapply nodup_fst_app_ne.
Qed.

(** Freeing the allocations [A] leaves the others. *)
Lemma filter_out (l A B : list (ptr * Z)) :
  l ≡ₚ A ++ B -> NoDup l.*1 -> filter (fun b => b.1 ∉ A.*1) l ≡ₚ B.
Proof.
  intros Hp Hnd. rewrite Hp in Hnd. rewrite (filter_Permutation (fun b => b.1 ∉ A.*1) _ _ Hp), filter_app.
  assert (filter (fun b => b.1 ∉ A.*1) A = []) as ->.
  { apply elem_of_nil_inv. intros b [Hn Hb]%list_elem_of_filter. apply Hn. by apply list_elem_of_fmap_2. }
  rewrite filter_all; [done|]. intros b Hb (c & Heq & Hc)%list_elem_of_fmap.
  by eapply nodup_fst_app_ne; [exact Hnd|exact Hc|exact Hb|].
Qed.

Lemma sound_filter m m' P `{!forall b, Decision (P b)} :
  mem_sound m -> mem_blocks m' = filter P (mem_blocks m) -> mem_sound m'.
Proof.
  intros [Hap Hpos] Heq. unfold mem_sound. rewrite Heq. clear Heq. split.
  - induction Hap as [|b l Hb Hl IH]; [constructor|]. apply Forall_cons in Hpos as [_ Hpos].
    rewrite filter_cons. case_decide; [|by apply IH]. constructor; [|by apply IH].
    apply List.Forall_forall. intros c Hc%list_elem_of_In%list_elem_of_filter.
    rewrite List.Forall_forall in Hb. apply Hb, list_elem_of_In, Hc.
  - apply Forall_forall. intros b [_ Hb]%list_elem_of_filter. rewrite Forall_forall in Hpos. by apply Hpos.
Qed.

Section inv.
Context `{Platform} `{Allocator, !AllocatorLaws} `{Epoll}.

(** ** The effect of the threads of events *)
Lemma effect_refl self m : slab_effect self self m m.
Proof. split; [by left|done]. Qed.

Lemma texec_effect T t rest L sl T' ts :
  table_inv T (t :: rest) L sl -> gens_bounded T -> texec t T = Ok (T', ts) ->
  slab_effect (tb_slab T) (tb_slab T') (tb_mem T) (tb_mem T').
Proof.
  intros Hinv [_ Hfit] Hex.
  destruct t as [prm fd events fl|p prm fd events fl|p fd id fl events|p fd id events|h events|h|p t]; simpl in Hex.
  - apply bind_inv_ok in Hex as ([q [s m]] & Htake & [= <- <-]). simpl.
    eapply take_effect; [apply (ti_wf _ _ _ _ Hinv)|by right|exact Htake].
  - apply bind_inv_ok in Hex as (g & _ & (id & _ & [= <- <-])%bind_inv_ok). apply effect_refl.
  - apply bind_inv_ok in Hex as (o & _ & Hex). unfold open_enter in Hex. case_match. injection Hex as <- <-.
    apply effect_refl.
  - apply bind_inv_ok in Hex as (o & _ & (T1 & Hadd & [= <- <-])%bind_inv_ok).
    apply epoll_add_inv in Hadd as [_ ->]. apply effect_refl.
  - apply bind_inv_ok in Hex as (p & _ & [= <- <-]). apply effect_refl.
  - apply bind_inv_ok in Hex as (p & _ & [= <- <-]). apply effect_refl.
  - destruct (on_sees _ _ _ _ _ _ Hinv) as (i & o & Hi & -> & Ho & _ & _ & Hix & Hsi & _).
    apply bind_inv_ok in Hex as (o' & _ & (g & _ & (T1 & Hout & Hex)%bind_inv_ok)%bind_inv_ok).
    destruct (exec t _) as [v new]. injection Hex as <- <-. simpl.
    destruct (gives t) eqn:Hg.
    + assert (Hr : reporter t = 1%nat) by (by destruct t).
      destruct (reporter_alone _ _ _ Hsi Hr) as (Hu & _).
      pose proof (so_live _ _ _ _ _ (ti_slots _ _ _ _ Hinv i Hi)) as Hlv. rewrite Hu in Hlv.
      case_bool_decide as HiL; [|simpl in Hlv; lia].
      assert (exists s m, ntt_slab_give (tb_slab T) (tb_mem T) i = Ok (s, m) /\ T1 = tb_with_slab s m T)
        as (s & m & Hgive & ->).
      { destruct t; try done; simpl in Hout; rewrite Hix, bind_ok in Hout;
          apply bind_inv_ok in Hout as ([s m] & Hgive & [= <-]); eauto. }
      eapply give_effect; [apply (ti_wf _ _ _ _ Hinv)|exact HiL|exact Hgive].
    + assert (tb_slab T1 = tb_slab T /\ tb_mem T1 = tb_mem T) as [-> ->]; [|apply effect_refl].
      destruct t; try done; simpl in Hout; try (injection Hout as <-; done).
      by apply epoll_del_inv in Hout as [_ ->].
Qed.

Lemma table_step_effect T ts T' ts' :
  gens_bounded T -> (exists L sl, table_inv T ts L sl) -> table_step (T, ts) (T', ts') ->
  slab_effect (tb_slab T) (tb_slab T') (tb_mem T) (tb_mem T').
Proof.
  intros Hb (L & sl & Hinv) Hs.
  inversion Hs as [? l1 t l2 ? new Hex| | |]; subst; try apply effect_refl.
  eapply table_inv_perm in Hinv; [|by rewrite <- Permutation_middle]. by eapply texec_effect.
Qed.

(** ** The invariant *)

(** The descriptors of the loop, on top of those the process had. *)
Definition lr_own (r : loop_run) : list Z := [lr_timer_fd r; lr_combine_eventfd r; lr_epoll_fd r].

Record run_inv (base : gset Z) (r : loop_run) (ts : list tthread) (L : gset Z) (others : list (ptr * Z)) : Prop := {
  ri_table : table_reachable (lr_table r) ts;
  ri_queues : slab_wf (lr_queue_slab r) (lr_mem r) L;
  ri_sound : mem_sound (lr_mem r);
  ri_blocks : exists size, mem_blocks (lr_mem r) ≡ₚ
    others ++ [(lr_addr r, size)] ++ slab_blocks (tb_slab (lr_table r)) ++ slab_blocks (lr_queue_slab r);
  ri_addr : 0 < lr_addr r;
  ri_fds : NoDup (lr_own r) /\ lr_fds r = list_to_set (lr_own r) ∪ base /\
    forall fd, fd ∈ lr_own r -> fd ∉ base;
  ri_locks : lr_mtx r = true /\ lr_cv r = true;
}.

Lemma table_reachable_step T ts T' ts' :
  table_reachable T ts -> bounded_step (T, ts) (T', ts') -> table_reachable T' ts'.
Proof. intros (m & Hb & Hs) Hst. exists m. split; [done|]. by eapply rtc_r. Qed.

(** A change of the memory outside of the allocations of events. *)
Lemma table_memory T ts m (mine : list (ptr * Z)) :
  table_reachable T ts -> gens_bounded (tb_with_slab (tb_slab T) m T) ->
  (forall a, (forall b, b ∈ mine -> ~ within a b) -> mem_heads m !! a = mem_heads (tb_mem T) !! a) ->
  (forall b, b ∈ slab_blocks (tb_slab T) -> b ∈ mem_blocks m) ->
  (forall b c, b ∈ mine -> c ∈ slab_blocks (tb_slab T) -> apart b c) ->
  table_reachable (tb_with_slab (tb_slab T) m T) ts.
Proof.
  intros Hr Hb Hh Hlive Hap. eapply table_reachable_step; [exact Hr|]. split; [right|done].
  constructor; [done|]. intros a c Hc Hw. apply Hh. intros b Hbm Hwb.
  destruct (Hap b c Hbm Hc); unfold within in *; lia.
Qed.

Lemma effect_blocks self self' m m' rest tail :
  slab_effect self self' m m' -> mem_blocks m ≡ₚ rest ++ slab_blocks self ++ tail ->
  mem_blocks m' ≡ₚ rest ++ slab_blocks self' ++ tail.
Proof.
  intros [[[Hb Hs]|(b & al & Hb & Hs & _)] _] Hp; rewrite Hb, Hs; [done|]. rewrite Hp, <- app_assoc.
  rewrite (Permutation_app_comm [b] tail), !app_assoc. rewrite (Permutation_app_comm _ [b]). by rewrite !app_assoc.
Qed.

Lemma elem_of_tail (rest A B : list (ptr * Z)) b : b ∈ A \/ b ∈ B -> b ∈ rest ++ A ++ B.
Proof. rewrite !elem_of_app. tauto. Qed.

Definition run_ok (base : gset Z) (c : run_state) : Prop :=
  let '(r, ts, L, others) := c in run_inv base r ts L others.

Lemma run_events_inv base r ts T' ts' L others :
  run_inv base r ts L others -> table_step (lr_table r, ts) (T', ts') -> gens_bounded T' ->
  run_inv base (lr_with_table T' r) ts' L others.
Proof.
  intros [Ht Hq Hs [size Hp] Ha Hfd Hlk] Hst Hb'. pose proof (table_reachable_inv _ _ Ht) as (Hb & Hinv).
  pose proof (table_step_effect _ _ _ _ Hb Hinv Hst) as Heff.
  pose proof (effect_sound _ _ _ _ Heff Hs) as Hs'.
  assert (Hp' : mem_blocks (tb_mem T') ≡ₚ
    (others ++ [(lr_addr r, size)]) ++ slab_blocks (tb_slab T') ++ slab_blocks (lr_queue_slab r)).
  { eapply effect_blocks; [exact Heff|]. by rewrite <- app_assoc. }
  split; try done.
  - eapply table_reachable_step; [exact Ht|]. split; [by left|done].
  - eapply (wf_frame _ _ _ _ (slab_blocks (tb_slab T'))); [exact Hq|apply (se_heads _ _ _ _ Heff)| |].
    + intros b Hbq. rewrite Hp'. apply elem_of_tail. by right.
    + by eapply owners_apart.
  - exists size. by rewrite app_assoc.
Qed.

Lemma run_queues_inv base r ts L qs m L' others :
  run_inv base r ts L others -> slab_step (lr_queue_slab r, lr_mem r, L) (qs, m, L') ->
  gens_bounded (lr_table (lr_with_mem m r)) -> run_inv base (lr_with_queues qs (lr_with_mem m r)) ts L' others.
Proof.
  intros [Ht Hq Hs [size Hp] Ha Hfd Hlk] Hst Hb'. pose proof (table_reachable_inv _ _ Ht) as (Hb & Hinv).
  pose proof (step_effect _ _ _ _ _ _ Hst Hq) as Heff. pose proof (effect_sound _ _ _ _ Heff Hs) as Hs'.
  assert (Hp' : mem_blocks m ≡ₚ
    (others ++ [(lr_addr r, size)]) ++ slab_blocks (tb_slab (lr_table r)) ++ slab_blocks qs).
  { rewrite (app_assoc _ _ (slab_blocks qs)). rewrite <- (app_nil_r (slab_blocks qs)).
    eapply effect_blocks; [exact Heff|]. rewrite app_nil_r. by rewrite <- !app_assoc. }
  split; try done.
  - simpl. eapply (table_memory _ _ _ (slab_blocks qs)); [exact Ht|exact Hb'|apply (se_heads _ _ _ _ Heff)| |].
    + intros b Hbq. rewrite Hp'. apply elem_of_tail. by left.
    + intros b c Hb1 Hc1. apply apart_sym. by eapply owners_apart.
  - by apply (slab_step_ok _ _ _ _ _ _ Hst Hq).
  - exists size. by rewrite app_assoc.
Qed.

Lemma run_alloc_inv base r ts L others al s p m :
  run_inv base r ts L others -> 0 < s -> ntt_aligned_or_die (lr_mem r) al s = Ok (p, m) ->
  gens_bounded (lr_table (lr_with_mem m r)) -> run_inv base (lr_with_mem m r) ts L ((p, s) :: others).
Proof.
  intros [Ht Hq Hs [size Hp] Ha Hfd Hlk] Hpos Hal Hb'. pose proof (table_reachable_inv _ _ Ht) as (Hb & Hinv).
  unfold ntt_aligned_or_die in Hal. destruct (alloc_ok s); [|done]. injection Hal as <- <-.
  set (p := aligned_addr _ _ _) in *. set (m := mk_memory _ _) in *.
  assert (Hs' : mem_sound m) by (by apply (alloc_sound (lr_mem r) m (p, s) al)).
  assert (Hp' : mem_blocks m ≡ₚ ((p, s) :: others) ++
    [(lr_addr r, size)] ++ slab_blocks (tb_slab (lr_table r)) ++ slab_blocks (lr_queue_slab r)).
  { simpl. by rewrite Hp. }
  assert (Hap : forall b c, b ∈ [(p, s)] ->
    c ∈ others ++ [(lr_addr r, size)] ++ slab_blocks (tb_slab (lr_table r)) ++ slab_blocks (lr_queue_slab r) ->
    apart b c) by (by apply (owners_apart m [])).
  assert (Hh : forall a, (forall b, b ∈ [(p, s)] -> ~ within a b) -> mem_heads m !! a = mem_heads (lr_mem r) !! a).
  { intros a Hna. simpl. apply option_eq. intros h. rewrite map_lookup_filter_Some. split; [by intros [? _]|].
    intros Hh. split; [done|]. apply (Hna (p, s)). by left. }
  split; try done.
  - simpl. eapply (table_memory _ _ _ [(p, s)]); [exact Ht|exact Hb'|done| |].
    + intros b Hbq. rewrite Hp'. rewrite !elem_of_app. tauto.
    + intros b c Hb1 Hc1. apply Hap; [done|]. rewrite !elem_of_app. tauto.
  - eapply (wf_frame _ _ _ _ [(p, s)]); [exact Hq|done| |].
    + intros b Hbq. rewrite Hp'. rewrite !elem_of_app. tauto.
    + intros b c Hb1 Hc1. apply Hap; [done|]. rewrite !elem_of_app. tauto.
  - by exists size.
Qed.

Lemma run_free_inv base r ts L others p s m :
  run_inv base r ts L others -> (p, s) ∈ others -> ntt_free (lr_mem r) p = Ok m ->
  gens_bounded (lr_table (lr_with_mem m r)) ->
  run_inv base (lr_with_mem m r) ts L (filter (fun b => b.1 <> p) others).
Proof.
  intros [Ht Hq Hs [size Hp] Ha Hfd Hlk] Hin Hfr Hb'. pose proof (table_reachable_inv _ _ Ht) as (Hb & Hinv).
  set (l := [(lr_addr r, size)] ++ slab_blocks (tb_slab (lr_table r)) ++ slab_blocks (lr_queue_slab r)) in *.
  pose proof (blocks_nodup _ _ Hs Hp) as Hnd.
  assert (Hm : mem_heads m = mem_heads (lr_mem r) /\
    mem_blocks m = filter (fun b => b.1 <> p) (mem_blocks (lr_mem r))).
  { unfold ntt_free in Hfr. destruct (Z.eqb_spec p NULL) as [->|_].
    - exfalso. destruct Hs as [_ Hpos]. rewrite Forall_forall in Hpos.
      destruct (Hpos (NULL, s)) as [Hx _]; [rewrite Hp; apply elem_of_app; by left|]. by vm_compute in Hx.
    - case_decide; [|done]. by injection Hfr as <-. }
  destruct Hm as [Hmh Hmb].
  assert (Hp' : mem_blocks m ≡ₚ filter (fun b => b.1 <> p) others ++ l).
  { rewrite Hmb, (filter_Permutation _ _ _ Hp), filter_app. rewrite (filter_all _ l); [done|].
    intros b Hb1 Heq. eapply (nodup_fst_app_ne others l (p, s) b); [done|done|done|]. by rewrite Heq. }
  split; try done.
  - simpl. eapply (table_memory _ _ _ []); [exact Ht|exact Hb'|by rewrite Hmh| |by intros b c ?%elem_of_nil].
    intros b Hbq. rewrite Hp'. unfold l. rewrite !elem_of_app. tauto.
  - eapply (wf_frame _ _ _ _ []); [exact Hq|intros a _; exact (f_equal (lookup a) Hmh)| |by intros b c ?%elem_of_nil].
    intros b Hbq. rewrite Hp'. unfold l. rewrite !elem_of_app. tauto.
  - by eapply sound_filter.
  - by exists size.
Qed.

Lemma run_step_inv base st st' : run_step st st' -> run_ok base st -> run_ok base st'.
Proof.
  intros [] Hi; simpl in *; eauto using run_events_inv, run_queues_inv, run_alloc_inv, run_free_inv.
Qed.

Lemma run_steps_inv base st st' : rtc run_step st st' -> run_ok base st -> run_ok base st'.
Proof. induction 1; eauto using run_step_inv. Qed.
End inv.
