(* ===== verification/LoopRunSetup.v ===== *)
(** * The life of a loop and its resources: starting

    What [ntt_loop_run] has built before its own worker starts. *)

From stdpp Require Import base numbers list gmap relations.
From Stdlib Require Import ZArith Lia.
From S2P Require Import Prelude.
From S2P Require Import Queue.
From S2P Require Import LoopStart.
From S2P Require Import Worker.
From S2P Require Import Slab.
From S2P Require Import Task.
From S2P Require Import SlabInv.
From S2P Require Import SlabOps.
From S2P Require Import SlabProps.
From S2P Require Import SlabFrame.
From S2P Require Import Event.
From S2P Require Import EventTable.
From S2P Require Import EventTableInv.
From S2P Require Import EventTableSteps.
From S2P Require Import EventTableOpen.
From S2P Require Import EventTableProps.
From S2P Require Import LoopRun.
From S2P Require Import LoopRunInv.

#[local] Open Scope Z_scope.

(** ** What the start asks for *)
Definition combine_mask : Z := Z.lor EPOLLIN EPOLLEXCLUSIVE.
Definition timer_mask : Z := Z.lor EPOLLIN (Z.lor EPOLLET EPOLLEXCLUSIVE).

(** The allocations: the loop, and the first block of each slab. *)
Definition start_sizes `{Layout} (width : Z) : list Z :=
  [loop_bytes (ntt_loop_clamp_width width); block_bytes (ntt_slab_init NTT_EVENT_SIZE);
   block_bytes (ntt_slab_init sizeof_ntt_queue)].

(** One of [n] descriptors asked for one after the other is refused. *)
Fixpoint fd_refused `{System} (n : nat) (fds : gset Z) : bool :=
  match n with
  | O => false
  | S n => match new_fd fds with Some fd => fd_refused n ({[fd]} ∪ fds) | None => true end
  end.

(** The registration of the eventfd with the new epoll, or the one of the
    timerfd next to it, is refused. *)
Definition epoll_refused `{System, Epoll} (fds : gset Z) : Prop :=
  exists efd cfd, new_fd fds = Some efd /\ new_fd ({[efd]} ∪ fds) = Some cfd /\
    (epoll_accepts EPOLL_CTL_ADD cfd ∅ = false \/
     exists tfd h, new_fd ({[cfd]} ∪ ({[efd]} ∪ fds)) = Some tfd /\
       epoll_accepts EPOLL_CTL_ADD tfd {[cfd := (combine_mask, h)]} = false).

(** The system has refused something that the start of a loop of this width asks
    for: one of its allocations, one of its three descriptors, a lock, a
    registration, or a thread, of which a loop of width one needs none. *)
Definition refused `{Platform, System, Epoll, Layout} (width : Z) (fds : gset Z) : Prop :=
  (exists bytes, bytes ∈ start_sizes width /\ alloc_ok bytes = false) \/
  fd_refused 3 fds = true \/ mutex_init_ok = false \/ cond_init_ok = false \/
  epoll_refused fds \/ (1 < ntt_loop_clamp_width width /\ pthread_create_ok = false).

(** Three descriptors, one after the other. *)
Lemma own_fds (tfd cfd efd : Z) (fds : gset Z) :
  efd ∉ fds -> cfd ∉ {[efd]} ∪ fds -> tfd ∉ {[cfd]} ∪ ({[efd]} ∪ fds) ->
  NoDup [tfd; cfd; efd] /\ {[tfd]} ∪ ({[cfd]} ∪ ({[efd]} ∪ fds)) = list_to_set [tfd; cfd; efd] ∪ fds /\
  forall fd, fd ∈ [tfd; cfd; efd] -> fd ∉ fds.
Proof. intros He Hc Ht. split_and!; [repeat constructor; set_solver|set_solver..]. Qed.

Section setup.
Context `{Platform} `{Allocator, !AllocatorLaws} `{Epoll} `{System, !SystemLaws} `{Layout, !LayoutLaws}.

(** ** A descriptor or a thread *)
Lemma new_fd_starts (f : gset Z -> res (Z * gset Z)) fds :
  (f = epoll_create_or_abort \/ f = ntt_eventfd_or_die \/ f = timerfd_create_or_die) ->
  returns_or (new_fd fds = None) (f fds) (fun '(fd, fds') =>
    new_fd fds = Some fd /\ (fd ∉ fds) /\ fds' = {[fd]} ∪ fds).
Proof.
  intros Hf. assert (f fds = (match new_fd fds with Some fd => Ok (fd, {[fd]} ∪ fds) | None => Err Die end)) as ->
    by (by destruct Hf as [-> | [-> | ->]]).
  destruct (new_fd fds) as [fd|] eqn:Hn; simpl; [|done]. split_and!; [done|by apply new_fd_fresh|done].
Qed.

Lemma create_followers_starts n :
  returns_or ((0 < n)%nat /\ pthread_create_ok = false) (create_followers n) (fun _ => True).
Proof.
  induction n as [|n IH]; simpl; [done|]. unfold ntt_pthread_create_or_die.
  destruct pthread_create_ok eqn:Hp; simpl; [|by split; [lia|]].
  eapply returns_or_mono; [exact IH|by intros [_ ?]|done].
Qed.

(** ** [ntt_event_open] with nobody else *)
Lemma run_alone_cons fuel t ts T T' new :
  texec t T = Ok (T', new) -> run_alone (S fuel) (t :: ts) T = run_alone fuel (new ++ ts) T'.
Proof. intros Hex. simpl. by rewrite Hex. Qed.

Lemma alone_step T t T' ts :
  table_reachable T [t] -> texec t T = Ok (T', ts) -> gens_bounded T' -> table_reachable T' ts.
Proof.
  intros Hr Hex Hb. eapply table_reachable_step; [exact Hr|]. split; [left|done].
  rewrite <- (app_nil_r ts). by apply (tb_step_exec T [] t []).
Qed.

(** A step that leaves the slab and the memory alone. *)
Lemma alone_plain T t T' ts :
  table_reachable T [t] -> texec t T = Ok (T', ts) -> tb_slab T' = tb_slab T -> tb_mem T' = tb_mem T ->
  table_reachable T' ts.
Proof.
  intros Hr Hex Hs Hm. eapply alone_step; [done|done|].
  destruct (table_reachable_inv _ _ Hr) as (Hb & _). unfold gens_bounded. by rewrite Hs, Hm.
Qed.

Lemma alone_total T t :
  table_reachable T [t] -> ~ step_refused t T -> exists r, texec t T = Ok r.
Proof.
  intros (Hb & L & sl & Hinv)%table_reachable_inv Hne. pose proof (texec_ok _ _ _ _ _ Hinv Hb) as Ht.
  destruct (texec t T) as [r|[]]; try done. eauto.
Qed.

(** From the slot to the registration. *)
Lemma filling_ok T p prm fd events fl :
  table_reachable T [Filling p prm fd events fl] ->
  returns_or (epoll_accepts EPOLL_CTL_ADD fd (tb_epoll T) = false) (run_alone 3 [Filling p prm fd events fl] T)
    (fun T' => exists h, table_reachable T' [] /\
      tb_epoll T' = <[fd := (events, h)]> (tb_epoll T) /\ tb_issued T' = (h, fd) :: tb_issued T /\
      tb_slab T' = tb_slab T /\ tb_mem T' = tb_mem T).
Proof.
  intros Hr. destruct (alone_total _ _ Hr ltac:(by intros [])) as [[T1 ts1] Hex1].
  pose proof Hex1 as (g & _ & (id & _ & Hx)%bind_inv_ok)%bind_inv_ok. cbn zeta in Hx.
  destruct (ntt_event_open _ _ _ _) as [sl0 t0]. injection Hx as HT1 <-.
  pose proof (alone_plain _ _ _ _ Hr Hex1 ltac:(by rewrite <- HT1) ltac:(by rewrite <- HT1)) as Hr1.
  destruct (alone_total _ _ Hr1 ltac:(by intros [])) as [[T2 ts2] Hex2].
  pose proof Hex2 as (o & _ & Hx)%bind_inv_ok. cbn zeta in Hx.
  destruct (exec _ _) as [sl1 t1]. injection Hx as HT2 <-.
  pose proof (alone_plain _ _ _ _ Hr1 Hex2 ltac:(by rewrite <- HT2) ltac:(by rewrite <- HT2)) as Hr2.
  rewrite (run_alone_cons _ _ _ _ _ _ Hex1). cbn [app]. rewrite (run_alone_cons _ _ _ _ _ _ Hex2). cbn [app].
  destruct (table_reachable_inv _ _ Hr2) as (Hb & L & sl & Hinv). pose proof (texec_ok _ _ _ _ _ Hinv Hb) as Hadd.
  destruct (texec (StartAdd p fd id events) T2) as [[T3 ts3]|[]] eqn:Hex3; try done.
  2:{ cbn [run_alone]. rewrite Hex3. simpl in Hadd |- *. by rewrite <- HT2, <- HT1 in Hadd. }
  pose proof Hex3 as (o' & _ & (T' & [_ ->]%epoll_add_inv & [= HT3 <-])%bind_inv_ok)%bind_inv_ok.
  pose proof (alone_plain _ _ _ _ Hr2 Hex3 ltac:(by rewrite <- HT3) ltac:(by rewrite <- HT3)) as Hr3.
  rewrite (run_alone_cons _ _ _ _ _ _ Hex3). exists id. split_and!; try done; by rewrite <- HT3, <- HT2, <- HT1.
Qed.

Lemma event_open_ok T prm fd events fl :
  table_reachable T [] -> tb_epoll T !! fd = None -> (slab_size (tb_slab T) + 2) * stride (tb_slab T) <= 2 ^ 32 ->
  returns_or (block_refused (tb_slab T) \/ epoll_accepts EPOLL_CTL_ADD fd (tb_epoll T) = false)
    (event_open prm fd events fl T) (fun '(h, T') =>
    table_reachable T' [] /\ tb_epoll T' = <[fd := (events, h)]> (tb_epoll T) /\
    slab_effect (tb_slab T) (tb_slab T') (tb_mem T) (tb_mem T') /\
    0 < slab_size (tb_slab T') <= slab_size (tb_slab T) + 1 /\ stride (tb_slab T') = stride (tb_slab T)).
Proof.
  intros Hr Hn Hfit. destruct (table_reachable_inv _ _ Hr) as (Hb & L & sl & Hinv).
  assert (Hr0 : table_reachable T [Opening prm fd events fl]).
  { eapply table_reachable_step; [exact Hr|]. split; [left|done]. by constructor. }
  pose proof (ti_wf _ _ _ _ Hinv) as Hwf. destruct Hb as [Hg Hfit1].
  pose proof (take_wf _ _ L Hwf (or_intror Hfit1)) as Htk. unfold event_open.
  assert (Hx : texec (Opening prm fd events fl) T = open_take prm fd events fl T) by done. unfold open_take in Hx.
  destruct (ntt_slab_take (tb_slab T) (tb_mem T)) as [[p [s m]]|[]] eqn:Htake; try done.
  2:{ cbn [run_alone]. rewrite Hx. by left. }
  destruct Htk as (i & _ & Hi & _ & _ & Hst & _ & _ & Hile & Hsz & _). rewrite bind_ok in Hx.
  assert (Hr1 : table_reachable (tb_with_slab s m T) [Filling p prm fd events fl]).
  { eapply alone_step; [done|done|]. split; [by eapply take_generations|]. simpl. rewrite Hst.
    destruct Hwf as (fl0 & [Hge _ _ _ _] & _). pose proof (sb_stride _ _ _ Hge). nia. }
  rewrite (run_alone_cons _ _ _ _ _ _ Hx). cbn [app].
  eapply returns_or_bind; [eapply returns_or_mono; [by apply filling_ok|by right|exact (fun _ x => x)]|].
  intros T' (h & Hr' & He & Hi' & Hs & Hm). rewrite Hi'. simpl. rewrite Hs, Hm. simpl.
  split_and!; try done; [|lia|lia]. by eapply take_effect; [exact Hwf|right|exact Htake].
Qed.

(** ** The whole start *)

Lemma clamp_range width : 0 <= width -> 1 <= ntt_loop_clamp_width width <= NTT_MAX_LOOP_WIDTH.
Proof.
  intros Hw. unfold ntt_loop_clamp_width, NTT_MAX_LOOP_WIDTH. destruct (Z.eqb_spec width 0); [lia|].
  destruct (Z.gtb_spec width 8); lia.
Qed.

(** The memory of the loop itself. *)
Lemma loop_malloc width m :
  0 <= width -> mem_sound m -> gens_bounded (fresh_table m) ->
  let size := loop_bytes (ntt_loop_clamp_width width) in
  returns_or (alloc_ok size = false) (ntt_malloc_or_die m size) (fun '(p, m') =>
    0 < p /\ mem_blocks m' = (p, size) :: mem_blocks m /\ mem_sound m' /\ gens_bounded (fresh_table m')).
Proof.
  intros Hw Hs [Hg Hfit] size. pose proof (clamp_range width Hw) as Hc.
  pose proof loop_size_pos as [[Hl0 Hl1] [Hc0 Hc1]].
  assert (Hsize : 0 < size).
  { unfold size, loop_bytes, NTT_MAX_LOOP_WIDTH in *. rewrite (u64_small (_ * _)) by nia. rewrite u64_small by nia. nia. }
  rewrite malloc_or_die_aligned. unfold ntt_aligned_or_die. destruct (alloc_ok size) eqn:Ha; [|done].
  set (p := aligned_addr _ _ _). simpl. split_and!.
  - apply aligned_pos.
  - done.
  - by apply (alloc_sound m _ (p, size) 16).
  - split; [|done]. simpl. intros a h [Hh _]%map_lookup_filter_Some. by eapply Hg.
Qed.

(** The second slot of a slab is in the block of the first. *)
Lemma second_slot self m L : slab_wf self m L -> 0 < slab_size self <= 1 -> ~ block_refused self.
Proof.
  intros (fl & [Hge _ _ _ _] & _) Hsz [He _]. pose proof (sb_cnt _ _ _ Hge) as Hcnt. unfold slab_end, first in He.
  destruct (Z.eqb_spec (block_cnt self) 27); [lia|]. destruct (decide (block_cnt self = 0)) as [Hz|Hz].
  - rewrite Hz in He. simpl in He. lia.
  - pose proof (Z.pow_le_mono_r 2 1 (block_cnt self) ltac:(lia) ltac:(lia)). lia.
Qed.

(** What may be refused to the two events of the loop. *)
Definition events_refused (fds : gset Z) (cfd : Z) : Prop :=
  alloc_ok (block_bytes (ntt_slab_init NTT_EVENT_SIZE)) = false \/
  epoll_accepts EPOLL_CTL_ADD cfd ∅ = false \/ new_fd fds = None \/
  exists tfd h, new_fd fds = Some tfd /\ epoll_accepts EPOLL_CTL_ADD tfd {[cfd := (combine_mask, h)]} = false.

Lemma own_events m fds cfd :
  mem_sound m -> gens_bounded (fresh_table m) -> cfd ∈ fds ->
  returns_or (events_refused fds cfd)
    ('(combine_event, T) ← event_open (own_params ntt_g_combine_eventfd_cbs) cfd combine_mask 0 (fresh_table m);
     '(timer_fd, timer_event, fds, T) ← timer_service_open fds T;
     Ok (combine_event, timer_fd, timer_event, fds, T))
    (fun '(combine_event, timer_fd, timer_event, fds', T) =>
      table_reachable T [] /\ (timer_fd ∉ fds) /\ fds' = {[timer_fd]} ∪ fds /\
      tb_epoll T = <[timer_fd := (timer_mask, timer_event)]> {[cfd := (combine_mask, combine_event)]} /\
      mem_sound (tb_mem T) /\ mem_blocks (tb_mem T) ≡ₚ mem_blocks m ++ slab_blocks (tb_slab T)).
Proof.
  intros Hs Hb Hc. unfold events_refused.
  assert (Hr : table_reachable (fresh_table m) []) by (exists m; split; [done|apply rtc_refl]).
  eapply returns_or_bind;
    [eapply returns_or_mono; [apply event_open_ok; [done|done|by vm_compute]|intros [[_ ?]|?]; tauto|exact (fun _ x => x)]|].
  intros [ce T1] (Hr1 & He1 & Heff1 & Hsz1 & Hst1). cbn [fresh_table tb_slab tb_mem tb_epoll] in *.
  rewrite insert_empty in He1. unfold timer_service_open. rewrite bind_assoc.
  change (slab_size (ntt_slab_init NTT_EVENT_SIZE)) with 0 in Hsz1.
  eapply returns_or_bind; [eapply returns_or_mono; [apply new_fd_starts; tauto|tauto|exact (fun _ x => x)]|].
  intros [tfd fds'] (Hnew & Hfresh & ->). cbv beta iota. rewrite bind_assoc.
  destruct (table_reachable_inv _ _ Hr1) as (_ & L1 & sl1 & Hinv1).
  eapply returns_or_bind; [eapply returns_or_mono; [apply event_open_ok| |exact (fun _ x => x)]|]; [done| | | |].
  - rewrite He1. apply lookup_singleton_ne. by intros ->.
  - rewrite Hst1. change (stride (ntt_slab_init NTT_EVENT_SIZE)) with 64. lia.
  - intros [Hx|Hx]; [by destruct (second_slot _ _ _ (ti_wf _ _ _ _ Hinv1) Hsz1)|]. rewrite He1 in Hx. eauto 10.
  - intros [te T2] (Hr2 & He2 & Heff2 & _). simpl. rewrite He1 in He2. split_and!; try done.
    + eapply effect_sound; [exact Heff2|]. by eapply effect_sound.
    + rewrite <- (app_nil_r (slab_blocks (tb_slab T2))). eapply effect_blocks; [exact Heff2|].
      eapply effect_blocks; [exact Heff1|]. simpl. by rewrite app_nil_r.
Qed.

(** The loop that [ntt_loop_run] has built. *)
Definition loop_ready (task : ptr) (fds : gset Z) (m : memory) (queue : ptr) (w : Queue.ntt_loop) (r : loop_run) : Prop :=
  run_inv fds r [] {[0]} (mem_blocks m) /\ ntt_slab_at (lr_queue_slab r) 0 = Ok queue /\
  w = one_task task /\ 1 <= lr_width r <= NTT_MAX_LOOP_WIDTH /\
  tb_epoll (lr_table r) =
    <[lr_timer_fd r := (timer_mask, lr_timer_event r)]> {[lr_combine_eventfd r := (combine_mask, lr_combine_event r)]}.

Lemma queue_slab_wf m : slab_wf (ntt_slab_init sizeof_ntt_queue) m ∅.
Proof.
  pose proof queue_size_fits. exists []. split; [apply slab_init_inv; lia|].
  intros i. rewrite elem_of_empty. simpl. lia.
Qed.

Lemma queue_slab_room : take_ok (ntt_slab_init sizeof_ntt_queue).
Proof.
  pose proof queue_size_fits. right. simpl. pose proof (Z.div_mod (sizeof_ntt_queue + 63) 64 ltac:(lia)).
  pose proof (Z.mod_pos_bound (sizeof_ntt_queue + 63) 64 ltac:(lia)).
  rewrite (u64_small (_ + _)), u64_small, u32_small by lia. lia.
Qed.

(** The slot of the first queue. *)
Lemma first_queue fds r m :
  run_inv fds r [] ∅ (mem_blocks m) -> lr_queue_slab r = ntt_slab_init sizeof_ntt_queue ->
  returns_or (alloc_ok (block_bytes (ntt_slab_init sizeof_ntt_queue)) = false)
    (ntt_slab_take (lr_queue_slab r) (lr_mem r)) (fun '(queue, (qs, m')) =>
    run_inv fds (lr_with_queues qs (lr_with_mem m' r)) [] {[0]} (mem_blocks m) /\ ntt_slab_at qs 0 = Ok queue /\
    ntt_slab_index m' queue = Ok 0).
Proof.
  intros Hinv Hq. pose proof (queue_slab_wf (lr_mem r)) as Hwf. rewrite Hq. pose proof queue_slab_room as Hok.
  pose proof (take_wf _ _ _ Hwf Hok) as Htk.
  destruct (ntt_slab_take _ _) as [[queue [qs m']]|[]] eqn:Htake; try done; [|by destruct Htk].
  destruct Htk as (i & _ & Hi & -> & (fl & Hsl & HL) & _ & _ & _ & Hile & _).
  change (slab_size (ntt_slab_init sizeof_ntt_queue)) with 0 in Hile. assert (i = 0) as -> by lia.
  pose proof (index_ok _ _ fl 0 Hsl Hi) as Hix. split_and!; [|by apply (at_ok _ m' fl)|done]. rewrite <- (right_id_L ∅ (∪) {[0]}).
  eapply run_queues_inv; [exact Hinv| |].
  - rewrite Hq. by eapply step_take; [done|exact Htake|].
  - destruct (table_reachable_inv _ _ (ri_table _ _ _ _ _ Hinv)) as ([Hg Hfit] & _).
    split; [by eapply take_generations|done].
Qed.

(** The requests of the start, as what may be refused to it. *)
Lemma refused_size width fds bytes : bytes ∈ start_sizes width -> alloc_ok bytes = false -> refused width fds.
Proof. intros. left. eauto. Qed.

Lemma refused_events width fds efd cfd :
  new_fd fds = Some efd -> new_fd ({[efd]} ∪ fds) = Some cfd ->
  events_refused ({[cfd]} ∪ ({[efd]} ∪ fds)) cfd -> refused width fds.
Proof.
  intros He Hc [Ha|[Ha|[Ha|Ha]]].
  - eapply refused_size; [|exact Ha]. right. by left.
  - unfold refused, epoll_refused. eauto 12.
  - right. left. simpl. by rewrite He, Hc, Ha.
  - unfold refused, epoll_refused. eauto 12.
Qed.

Lemma loop_setup_ok task width fds m :
  0 <= width -> mem_sound m -> gens_bounded (fresh_table m) ->
  returns_or (refused width fds) (loop_setup task width fds m)
    (fun '(queue, w, r) => loop_ready task fds m queue w r).
Proof.
  intros Hw Hs Hb. unfold loop_setup. cbv zeta.
  eapply returns_or_bind; [eapply returns_or_mono; [by apply loop_malloc| |exact (fun _ x => x)]|].
  { intros Ha. eapply refused_size; [|exact Ha]. by left. }
  intros [p m1] (Hp & Hblk & Hs1 & Hb1).
  eapply returns_or_bind; [eapply returns_or_mono; [apply new_fd_starts; tauto| |exact (fun _ x => x)]|].
  { intros Ha. right. left. simpl. by rewrite Ha. }
  intros [efd fds1] (Hnefd & Hefd & ->).
  eapply (returns_or_bind _ _ _ (fun b => b = true));
    [unfold ntt_pthread_mutex_init_or_die; destruct mutex_init_ok eqn:?; [done|unfold returns_or, refused; tauto]|].
  intros mtx Hmtx.
  eapply (returns_or_bind _ _ _ (fun b => b = true));
    [unfold ntt_pthread_cond_init_or_die; destruct cond_init_ok eqn:?; [done|unfold returns_or, refused; tauto]|].
  intros cv Hcv.
  eapply returns_or_bind; [eapply returns_or_mono; [apply new_fd_starts; tauto| |exact (fun _ x => x)]|].
  { intros Ha. right. left. simpl. by rewrite Hnefd, Ha. }
  intros [cfd fds2] (Hncfd & Hcfd & ->).
  pose proof (own_events m1 ({[cfd]} ∪ ({[efd]} ∪ fds)) cfd Hs1 Hb1 ltac:(set_solver)) as Hev.
  pose proof (returns_or_mono _ (refused width fds) _ _ _ Hev ltac:(by apply refused_events) (fun _ x => x)) as Hev'.
  clear Hev. rename Hev' into Hev.
  change (Z.lor EPOLLIN EPOLLEXCLUSIVE) with combine_mask.
  destruct (event_open _ _ _ _ _) as [[ce T1]|[]]; try done. rewrite bind_ok in Hev. rewrite bind_ok. cbv beta iota in Hev |- *.
  destruct (timer_service_open _ _) as [[[[tfd te] fds3] T]|[]]; try done. rewrite bind_ok in Hev. rewrite bind_ok. cbv beta iota in Hev |- *.
  destruct Hev as (Hr & Htfd & -> & He & HsT & HbT).
  set (r0 := mk_loop_run p (ntt_loop_clamp_width width) efd mtx cv cfd ce tfd te
    (ntt_slab_init sizeof_ntt_queue) T ({[tfd]} ∪ ({[cfd]} ∪ ({[efd]} ∪ fds)))).
  assert (Hinv : run_inv fds r0 [] ∅ (mem_blocks m)).
  { split; simpl; try done.
    - apply queue_slab_wf.
    - exists (loop_bytes (ntt_loop_clamp_width width)).
      unfold lr_mem. simpl. rewrite HbT, Hblk. simpl. rewrite app_nil_r. by rewrite <- Permutation_middle.
    - by apply own_fds. }
  eapply returns_or_bind; [eapply returns_or_mono; [by apply (first_queue fds r0 m)| |exact (fun _ x => x)]|].
  { intros Ha. eapply refused_size; [|exact Ha]. do 2 right. by left. }
  intros [queue [qs m']] (Hinv' & Hat & Hix). rewrite Hix, bind_ok, start_queue_ok, bind_ok.
  eapply returns_or_bind; [eapply returns_or_mono; [apply create_followers_starts| |exact (fun _ x => x)]|].
  { intros [Hn Ha]. do 5 right. split; [lia|done]. }
  intros _ _. split; [exact Hinv'|]. split_and!; [done|done|apply clamp_range; done..|done].
Qed.
End setup.
