(* ===== verification/LoopRunProps.v ===== *)
(** * The life of a loop and its resources: properties

    [ntt_loop_run] gives back what it took. *)

From stdpp Require Import base numbers list gmap relations.
From Stdlib Require Import ZArith Lia.
From S2P Require Import Prelude.
From S2P Require Import Queue.
From S2P Require Import QueueInv.
From S2P Require Import QueueProps.
From S2P Require Import LoopStart.
From S2P Require Import QueueHeap.
From S2P Require Import TimerService.
From S2P Require Import TimerServiceProps.
From S2P Require Import Worker.
From S2P Require Import Slab.
From S2P Require Import SlabInv.
From S2P Require Import SlabOps.
From S2P Require Import SlabProps.
From S2P Require Import SlabFrame.
From S2P Require Import Event.
From S2P Require Import EventTable.
From S2P Require Import EventTableInv.
From S2P Require Import EventTableOpen.
From S2P Require Import EventTableProps.
From S2P Require Import LoopRun.
From S2P Require Import LoopRunInv.
From S2P Require Import LoopRunSetup.

#[local] Open Scope Z_scope.

Section lemmas.
Context `{Platform} `{Allocator, !AllocatorLaws} `{Epoll} `{System, !SystemLaws} `{Layout, !LayoutLaws}.

(** [ntt_slab_deinit] frees the allocations of the slab and no other. *)
Lemma deinit_blocks self m n rest :
  slab_geom self m n -> NoDup (mem_blocks m).*1 -> mem_blocks m ≡ₚ slab_blocks self ++ rest ->
  exists self' m', ntt_slab_deinit self m = Ok (self', m') /\ mem_blocks m' ≡ₚ rest.
Proof.
  intros Hge Hnd Hp. destruct (slab_deinit_geom _ _ _ Hge) as (self' & m' & Hd & _ & _ & Hb).
  exists self', m'. split; [done|]. rewrite Hb, <- slab_blocks_addrs. by apply filter_out.
Qed.

Lemma free_block m p size rest :
  0 < p -> NoDup (mem_blocks m).*1 -> mem_blocks m ≡ₚ (p, size) :: rest ->
  exists m', ntt_free m p = Ok m' /\ mem_blocks m' ≡ₚ rest.
Proof.
  intros Hpos Hnd Hp. unfold ntt_free. rewrite (proj2 (Z.eqb_neq p NULL)) by (unfold NULL; lia).
  rewrite decide_True by (rewrite Hp; by left). eexists. split; [done|]. simpl.
  rewrite <- (filter_out _ [(p, size)] rest Hp Hnd).
  rewrite (list_filter_iff (fun b => b.1 <> p) (fun b => b.1 ∉ [(p, size)].*1)); [done|].
  intros b. simpl. rewrite list_elem_of_singleton. done.
Qed.

Lemma close_one fd (fds : gset Z) : fd ∉ fds -> close fd ({[fd]} ∪ fds) = Ok fds.
Proof. intros Hn. unfold close. rewrite decide_True by set_solver. f_equal. set_solver. Qed.

(** The array of the registrations lies in an allocation of its own, when
    there is one. *)
Definition elems_at (elems : ptr) (service : world) (others : list (ptr * Z)) : Prop :=
  if qh_capacity (sv_queues (TimerService.service service)) =? 0 then elems = NULL
  else exists bytes, (elems, bytes) ∈ others.

(** It is freed like any other allocation. *)
Lemma free_elems base r ts L others elems service :
  run_inv base r ts L others -> elems_at elems service others ->
  exists m, ntt_free (lr_mem r) elems = Ok m /\
    run_inv base (lr_with_mem m r) ts L (filter (fun b => b.1 <> elems) others).
Proof.
  intros Hinv Hel. pose proof Hinv as [Ht _ [Hap Hpos] [size Hp] _ _ _].
  assert (Hall : forall b, b ∈ others -> b.1 <> NULL /\ b.1 ∈ (mem_blocks (lr_mem r)).*1).
  { intros b Hb. assert (Hin : b ∈ mem_blocks (lr_mem r)) by (rewrite Hp; apply elem_of_app; by left).
    rewrite Forall_forall in Hpos. specialize (Hpos b Hin). split; [unfold NULL; destruct b; simpl in *; lia|by apply list_elem_of_fmap_2]. }
  destruct (decide (elems = NULL)) as [->|Hne].
  - exists (lr_mem r). split; [done|]. rewrite filter_all by (intros b Hb; by apply Hall).
    by destruct r as [? ? ? ? ? ? ? ? ? ? [] ?].
  - unfold elems_at in Hel. destruct (_ =? 0); [done|]. destruct Hel as [bytes Hin].
    destruct (Hall _ Hin) as [_ Hx]. simpl in Hx. eexists. split.
    + unfold ntt_free. rewrite (proj2 (Z.eqb_neq elems NULL)) by done. by rewrite decide_True.
    + eapply run_free_inv; [exact Hinv|exact Hin| |].
      * unfold ntt_free. rewrite (proj2 (Z.eqb_neq elems NULL)) by done. by rewrite decide_True.
      * destruct (table_reachable_inv _ _ Ht) as (Hb & _). exact Hb.
Qed.

(** The memory at the end: both slabs, then the loop. *)
Lemma slabs_finish r ts size rest fq :
  table_reachable (lr_table r) ts -> slab_inv (lr_queue_slab r) (lr_mem r) fq -> mem_sound (lr_mem r) ->
  mem_blocks (lr_mem r) ≡ₚ
    rest ++ [(lr_addr r, size)] ++ slab_blocks (tb_slab (lr_table r)) ++ slab_blocks (lr_queue_slab r) ->
  0 < lr_addr r ->
  exists qs m1 es m2 m3, ntt_slab_deinit (lr_queue_slab r) (lr_mem r) = Ok (qs, m1) /\
    ntt_slab_deinit (tb_slab (lr_table r)) m1 = Ok (es, m2) /\
    ntt_free m2 (lr_addr r) = Ok m3 /\ mem_blocks m3 ≡ₚ rest.
Proof.
  intros Ht Hq Hs Hp Ha. destruct (table_reachable_inv _ _ Ht) as (_ & Le & sl & [(fe & He & _) _ _ _ _ _ _ _ _]).
  pose proof (mem_sound_nodup _ Hs) as Hm.
  set (E := slab_blocks (tb_slab (lr_table r))) in *. set (Q := slab_blocks (lr_queue_slab r)) in *.
  destruct (deinit_blocks (lr_queue_slab r) (lr_mem r) _ (rest ++ [(lr_addr r, size)] ++ E) (sb_geom _ _ _ Hq) Hm)
    as (qs & m1 & Hd1 & Hp1).
  { rewrite Hp. fold Q. rewrite (Permutation_app_comm Q). by rewrite <- !app_assoc. }
  assert (Hm1 : NoDup (rest ++ [(lr_addr r, size)] ++ E).*1).
  { rewrite Hp in Hm. rewrite !app_assoc in Hm. rewrite fmap_app in Hm. apply NoDup_app in Hm as [Hm _].
    by rewrite <- app_assoc in Hm. }
  destruct (deinit_blocks (tb_slab (lr_table r)) m1 (slab_size (tb_slab (lr_table r))) (rest ++ [(lr_addr r, size)]))
    as (es & m2 & Hd2 & Hp2).
  { eapply slab_geom_frame; [apply He|]. intros b Hb. rewrite Hp1, !elem_of_app. tauto. }
  { by rewrite Hp1. }
  { rewrite Hp1. fold E. rewrite (Permutation_app_comm E). by rewrite <- !app_assoc. }
  destruct (free_block m2 (lr_addr r) size rest Ha) as (m3 & Hf & Hp3).
  { rewrite Hp2. rewrite app_assoc, fmap_app in Hm1. by apply NoDup_app in Hm1 as [Hm1 _]. }
  { by rewrite Hp2, Permutation_app_comm. }
  by exists qs, m1, es, m2, m3.
Qed.

(** The end of a loop, from wherever a run has left it. *)
Lemma loop_finish_ok base r ts L others service self elems queues :
  run_inv base r ts L others -> elems_at elems service others ->
  ntt_timer_service_deinit service = Ok self -> ntt_combine_deinit queues = Ok tt ->
  exists m, loop_finish r service elems queues = Ok (self, base, m) /\
    mem_blocks m ≡ₚ filter (fun b => b.1 <> elems) others.
Proof.
  intros Hinv Hel Hsv Hcm. destruct (free_elems _ _ _ _ _ _ _ Hinv Hel) as (m0 & Hf0 & Hinv0). clear Hel.
  pose proof (ri_fds _ _ _ _ _ Hinv) as (Hnd & Hfds & Hbase).
  set (rest := filter _ others) in *. clearbody rest.
  destruct Hinv0 as [Ht (fq & Hq & _) Hs [size Hp] Ha _ [Hmtx Hcv]].
  unfold loop_finish, ntt_loop_destroy, timer_service_close. rewrite Hsv, bind_ok, Hfds.
  unfold lr_own in *. cbn [list_to_set]. rewrite <- !(assoc_L (∪)), (left_id_L ∅ (∪)).
  apply NoDup_cons in Hnd as [Hn1 Hnd]. apply NoDup_cons in Hnd as [Hn2 _].
  rewrite close_one by (pose proof (Hbase (lr_timer_fd r)); set_solver). rewrite bind_ok.
  unfold lr_mem in Hf0. rewrite Hf0, !bind_ok. cbv beta iota.
  destruct (slabs_finish (lr_with_mem m0 r) ts size rest fq Ht Hq Hs Hp Ha)
    as (qs & m1 & es & m2 & m3 & Hd1 & Hd2 & Hf & Hp3). unfold lr_mem in Hd1. simpl in Hd1, Hd2, Hf.
  rewrite Hd1, bind_ok. cbv beta iota.
  rewrite Hd2, bind_ok. cbv beta iota. rewrite Hcm, bind_ok.
  rewrite close_one by (pose proof (Hbase (lr_combine_eventfd r)); set_solver). rewrite bind_ok.
  rewrite close_one by (pose proof (Hbase (lr_epoll_fd r)); set_solver).
  simpl in Hcv, Hmtx. rewrite bind_ok, Hcv, Hmtx.
  cbn [pthread_destroy]. rewrite !bind_ok. cbv beta iota. cbn [tb_mem lr_table lr_addr lr_fds].
  rewrite Hf, bind_ok. by exists m3.
Qed.

(** A run that starts from what [ntt_loop_run] has built. *)
Lemma run_reaches task width fds m queue w r r' ts L others :
  0 <= width -> mem_sound m -> gens_bounded (fresh_table m) -> loop_setup task width fds m = Ok (queue, w, r) ->
  rtc run_step (r, [], {[0]}, mem_blocks m) (r', ts, L, others) -> w = one_task task /\ run_inv fds r' ts L others.
Proof.
  intros Hw Hs Hb Hset Hrun.
  destruct (returns_or_inv _ _ _ _ (loop_setup_ok task width fds m Hw Hs Hb) Hset) as (Hinv & _ & Hq & _).
  split; [exact Hq|]. exact (run_steps_inv _ _ _ Hrun Hinv).
Qed.
End lemmas.

(** ** Claims *)
Section props.
Context `{Platform} `{Allocator, !AllocatorLaws} `{Epoll} `{System, !SystemLaws} `{Layout, !LayoutLaws}.

(** C17.  The start of [ntt_loop_run] aborts only when the system refuses
    something that this start asks for: the allocation of the loop or of the first
    block of a slab, one of its three descriptors, its mutex or condition, the
    registration of one of its two descriptors with the new epoll, or, for a loop
    of more than one worker, a thread; it never asks [epoll_ctl] for a descriptor
    that is registered.  Otherwise it leaves a sound loop: the descriptors
    are new, the epoll watches the eventfd of the combine and the timerfd, each
    under its own handle, and the first queue is the first slot of a slab whose
    memory is apart from everything else. *)
Theorem loop_setup_sound task width fds m :
  0 <= width -> mem_sound m -> gens_bounded (fresh_table m) ->
  returns_or (refused width fds) (loop_setup task width fds m)
    (fun '(queue, w, r) => loop_ready task fds m queue w r).
Proof. apply loop_setup_ok. Qed.

(** The events of the loop itself are not cancelled: as long as the epoll has
    them, their slots are in use, also when [ntt_loop_destroy] takes the event
    slab down. *)
Theorem loop_events_outlive task width fds m queue w r r' L others fd mask h :
  0 <= width -> mem_sound m -> gens_bounded (fresh_table m) -> loop_setup task width fds m = Ok (queue, w, r) ->
  rtc run_step (r, [], {[0]}, mem_blocks m) (r', [], L, others) ->
  tb_epoll (lr_table r') !! fd = Some (mask, h) ->
  exists E, slab_wf (tb_slab (lr_table r')) (lr_mem r') E /\ ntt_event_handle_index h ∈ E.
Proof.
  intros Hw Hs Hb Hset Hrun Hfd.
  destruct (run_reaches _ _ _ _ _ _ _ _ _ _ _ Hw Hs Hb Hset Hrun) as [_ Hri].
  destruct (table_reachable_inv _ _ (ri_table _ _ _ _ _ Hri)) as (_ & E & sl & Hinv).
  exists E. split; [apply (ti_wf _ _ _ _ Hinv)|by eapply registered_live].
Qed.
End props.

(** ** Witnesses *)
Module LoopRunExample.
#[local] Existing Instances SlabExample.machine SlabExample.bump SlabExample.bump_laws.

#[local] Instance kernel : Epoll := {| epoll_accepts := fun _ _ _ => true |}.

(** A system that numbers descriptors upwards and refuses nothing. *)
#[local] Instance system : System :=
  {| new_fd := fun fds => Some (1 + foldr Z.max 2 (elements fds));
     mutex_init_ok := true; cond_init_ok := true; pthread_create_ok := true |}.

Lemma below_max (l : list Z) x : x ∈ l -> x <= foldr Z.max 2 l.
Proof.
  induction l as [|y l IH]; [by intros ?%elem_of_nil|].
  intros [->|Hx]%elem_of_cons; simpl; [lia|]. specialize (IH Hx). lia.
Qed.

#[local] Instance system_laws : SystemLaws.
Proof.
  split. intros fds fd [= <-] Hin%elem_of_elements. apply below_max in Hin. lia.
Qed.

#[local] Instance layout : Layout :=
  {| sizeof_ntt_loop := 512; sizeof_ntt_loop_worker_ctx := 24; sizeof_ntt_queue := 192 |}.

#[local] Instance layout_laws : LayoutLaws.
Proof. split; by vm_compute. Qed.

(** A process with its standard descriptors and one allocation of its own. *)
Definition fds0 : gset Z := {[0; 1; 2]}.
Definition heap0 : memory := mk_memory [(4096, 100)] ∅.

Lemma heap0_sound : mem_sound heap0 /\ gens_bounded (fresh_table heap0).
Proof. split; [split; repeat constructor|apply gens_boundedb_true]; by vm_compute. Qed.

Definition built : res (ptr * Queue.ntt_loop * loop_run) := loop_setup 1000 4 fds0 heap0.
Definition loop0 : loop_run :=
  match built with
  | Ok (_, _, r) => r
  | Err _ => mk_loop_run 0 0 0 false false 0 0 0 0 (ntt_slab_init 0) (fresh_table heap0) ∅
  end.
Definition queue0 : ptr := match built with Ok (q, _, _) => q | Err _ => 0 end.

Lemma built_ok : loop_setup 1000 4 fds0 heap0 = Ok (queue0, one_task 1000, loop0).
Proof. by vm_compute. Qed.

(** The first queue goes. *)
Definition left_slab : ntt_slab * memory :=
  match ntt_slab_give (lr_queue_slab loop0) (lr_mem loop0) 0 with
  | Ok sm => sm
  | Err _ => (ntt_slab_init 0, heap0)
  end.
Definition loop1 : loop_run := lr_with_queues left_slab.1 (lr_with_mem left_slab.2 loop0).

Lemma loop1_run :
  rtc run_step (loop0, [], {[0]}, mem_blocks heap0) (loop1, [], {[0]} ∖ {[0]}, mem_blocks heap0).
Proof.
  apply rtc_once, run_queues.
  - apply step_give; [set_solver|]. by vm_compute.
  - apply gens_boundedb_true. by vm_compute.
Qed.

Lemma loop_setup_sound_witness : exists queue r, loop_setup 1000 4 fds0 heap0 = Ok (queue, one_task 1000, r) /\
  lr_own r = [5; 4; 3] /\ loop_ready 1000 fds0 heap0 queue (one_task 1000) r.
Proof.
  destruct heap0_sound as [Hs Hb]. exists queue0, loop0. split; [exact built_ok|]. split; [by vm_compute|].
  exact (returns_or_inv _ _ _ _ (loop_setup_sound 1000 4 fds0 heap0 ltac:(lia) Hs Hb) built_ok).
Defined.

Lemma loop_events_outlive_witness :
  exists E, slab_wf (tb_slab (lr_table loop1)) (lr_mem loop1) E /\ 1 ∈ E.
Proof.
  destruct heap0_sound as [Hs Hb].
  exact (loop_events_outlive 1000 4 fds0 heap0 queue0 (one_task 1000) loop0 loop1 _ _ 5 timer_mask
    (ntt_event_handle_of 1 1) ltac:(lia) Hs Hb built_ok loop1_run ltac:(by vm_compute)).
Defined.
End LoopRunExample.
