(* ===== verification/LoopJoint.v ===== *)
(** * One run of a loop: queues, their slots and the memory

    Joins the models of the queues ([Queue]), of the slab that their slots come
    from ([Slab]) and of the memory and the events of a loop ([LoopRun]) to one
    run: [ntt_queue_create_in] initialises the slot that [ntt_slab_take] returned,
    and the last [ntt_queue_release] takes the queue down, with the heap of its
    timers, and gives that slot back.  The queues in use are then the live slots,
    and a loop that stops has none. *)

From stdpp Require Import base numbers list gmap relations.
From Stdlib Require Import ZArith Lia.
From S2P Require Import Prelude.
From S2P Require Import TimerHeap.
From S2P Require Import TimerHeapOps.
From S2P Require Import QueueHeap.
From S2P Require Import TimerService.
From S2P Require Import TimerServiceProps.
From S2P Require Import Queue.
From S2P Require Import QueueInv.
From S2P Require Import QueueSteps.
From S2P Require Import QueueProps.
From S2P Require Import LoopStart.
From S2P Require Import Slab.
From S2P Require Import SlabInv.
From S2P Require Import SlabOps.
From S2P Require Import SlabProps.
From S2P Require Import SlabFrame.
From S2P Require Import Event.
From S2P Require Import EventTable.
From S2P Require Import EventTableInv.
From S2P Require Import EventTableOpen.
From S2P Require Import EventTableProps.
From S2P Require Import LoopRun.
From S2P Require Import LoopRunInv.
From S2P Require Import LoopRunSetup.
From S2P Require Import LoopRunProps.

#[local] Open Scope Z_scope.

(** ** Steps *)

(** The queues with their threads, and the rest of the loop. *)
Definition joint : Type := Queue.ntt_loop * list Queue.thread * run_state.

(** The loop after its queue slab has changed. *)
Definition lr_after (r : loop_run) (qs : ntt_slab) (m : memory) : loop_run :=
  lr_with_queues qs (lr_with_mem m r).

Section ops.
Context `{Platform} `{Allocator} `{Epoll}.

(** [ntt_queue_create_in]: a slot of the slab, and the queue in it. *)
Definition ntt_queue_create_in (w : Queue.ntt_loop) (r : loop_run) : res (Z * Queue.ntt_loop * loop_run) :=
  '(p, (qs, m)) ← ntt_slab_take (lr_queue_slab r) (lr_mem r);
  q ← ntt_slab_index m p;
  w ← Queue.ntt_queue_init w q;
  Ok (q, w, lr_after r qs m).

(** [ntt_queue_deinit] of a queue whose timers are in [timers]: the assertions
    about references, tasks and links are those of [Queue]. *)
Definition queue_deinit (w : Queue.ntt_loop) (q : Z) (timers : ntt_timer_heap) :
    res (option call * Queue.ntt_loop * ntt_timer_heap) :=
  '(c, w) ← Queue.ntt_queue_deinit w q;
  c_assert (ntt_timer_heap_empty timers) ;;
  timers ← @ntt_timer_heap_deinit _ _ plain_host timers;
  Ok (c, w, timers).

(** The last [ntt_queue_release]: [ntt_queue_deinit], and the slot goes back. *)
Definition queue_destroy (w : Queue.ntt_loop) (q : Z) (timers : ntt_timer_heap) (r : loop_run) :
    res (option call * Queue.ntt_loop * ntt_timer_heap * loop_run) :=
  '(c, w, timers) ← queue_deinit w q timers;
  '(qs, m) ← ntt_slab_give (lr_queue_slab r) (lr_mem r) q;
  Ok (c, w, timers, lr_after r qs m).

(** A step of the whole: anything that neither makes nor destroys a queue is as
    in its own model. *)
Inductive joint_step : joint -> joint -> Prop :=
  | joint_queues c c' st :
      loop_step c c' -> dom (queues c'.1) = dom (queues c.1) -> joint_step (c, st) (c', st)
  | joint_memory c r ts L others r' ts' others' :
      run_step (r, ts, L, others) (r', ts', L, others') ->
      joint_step (c, (r, ts, L, others)) (c, (r', ts', L, others'))
  | joint_create w ths q w' r ts L others r' :
      0 < work_cnt w -> take_ok (lr_queue_slab r) -> ntt_queue_create_in w r = Ok (q, w', r') ->
      gens_bounded (lr_table r') ->
      joint_step ((w, ths), (r, ts, L, others)) ((w', ths), (r', ts, {[q]} ∪ L, others))
  | joint_destroy w l1 q p tq l2 timers c w' timers' r ts L others r' :
      queue_destroy w q timers r = Ok (c, w', timers', r') -> gens_bounded (lr_table r') ->
      joint_step ((w, l1 ++ mk_thread (Some (Queue.Destroy q)) p tq :: l2), (r, ts, L, others))
        ((w', l1 ++ mk_thread c p tq :: l2), (r', ts, L ∖ {[q]}, others)).
End ops.

(** ** The invariant *)
Record joint_inv `{Platform, Allocator, Epoll} (base : gset Z) (s : joint) : Prop := {
  ji_queues : reachable s.1.1 s.1.2;
  ji_run : run_ok base s.2;
  ji_slots : let '(_, _, L, _) := s.2 in L = dom (queues s.1.1);
}.

Section inv.
Context `{Platform} `{Allocator, !AllocatorLaws} `{Epoll}.

Lemma queue_reachable_step c c' : reachable c.1 c.2 -> loop_step c c' -> reachable c'.1 c'.2.
Proof.
  destruct c, c'. simpl. intros (ts0 & Hts & Hr) Hs. exists ts0. split; [done|]. by eapply rtc_r.
Qed.

(** A slot that the slab hands out holds no queue. *)
Lemma take_unused base w ths r ts L others p qs m q :
  joint_inv base ((w, ths), (r, ts, L, others)) -> take_ok (lr_queue_slab r) ->
  ntt_slab_take (lr_queue_slab r) (lr_mem r) = Ok (p, (qs, m)) -> ntt_slab_index m p = Ok q ->
  queues w !! q = None.
Proof.
  intros [_ Hr HL] Hok Htake Hix. simpl in *.
  pose proof (take_wf _ _ L (ri_queues _ _ _ _ _ Hr) Hok) as Hpost. rewrite Htake in Hpost.
  destruct Hpost as (i & Hni & Hi & -> & (fl & Hinv & _) & _). rewrite (index_ok _ _ _ _ Hinv Hi) in Hix.
  injection Hix as <-. apply not_elem_of_dom. by rewrite <- HL.
Qed.

(** The slot of a queue that goes is live. *)
Lemma destroy_live base w l1 q p tq l2 r ts L others :
  joint_inv base ((w, l1 ++ mk_thread (Some (Queue.Destroy q)) p tq :: l2), (r, ts, L, others)) ->
  exists c w' qs m, Queue.ntt_queue_deinit w q = Ok (c, w') /\
    ntt_slab_give (lr_queue_slab r) (lr_mem r) q = Ok (qs, m) /\ q ∈ L /\ dom (queues w') = dom (queues w) ∖ {[q]} /\
    loop_step (w, l1 ++ mk_thread (Some (Queue.Destroy q)) p tq :: l2) (w', l1 ++ mk_thread c p tq :: l2).
Proof.
  intros [Hq Hr HL]. simpl in *. apply loop_reachable_inv in Hq.
  eapply loop_inv_perm in Hq; [|by rewrite <- Permutation_middle].
  destruct (deinit_facts _ _ _ _ _ Hq) as (x & Hx & _).
  destruct (exec_call_total _ _ _ _ _ Hq) as [[c w'] Hex]. simpl in Hex.
  assert (HqL : q ∈ L) by (rewrite HL; by eapply elem_of_dom_2).
  destruct (give_wf _ _ _ _ (ri_queues _ _ _ _ _ Hr) HqL) as (qs & m & g & Hg & _).
  exists c, w', qs, m. split_and!; [done|done|done| |].
  - unfold Queue.ntt_queue_deinit, Queue.get_queue in Hex. rewrite Hx, bind_ok in Hex.
    repeat (apply bind_inv_ok in Hex as (? & _ & Hex)). injection Hex as <- <-. simpl. by rewrite dom_delete_L.
  - apply Queue.step_exec. unfold Queue.exec. simpl. by rewrite Hex, bind_ok.
Qed.

Lemma joint_step_inv base s s' : joint_step s s' -> joint_inv base s -> joint_inv base s'.
Proof.
  intros [c c' [[[r ts] L] others] Hs Hd|c r ts L others r' ts' others' Hs
         |w ths q w' r ts L others r' Hw Hok Hcr Hb|w l1 q p tq l2 timers c w' timers' r ts L others r' Hde Hb] Hj.
  - destruct Hj as [Hq Hr HL]. split; simpl in *; [by eapply queue_reachable_step|done|by rewrite Hd].
  - destruct Hj as [Hq Hr HL]. split; simpl in *; [done| |done]. by eapply (run_step_inv base _ _ Hs).
  - unfold ntt_queue_create_in in Hcr. apply bind_inv_ok in Hcr as ([p [qs m]] & Ht & Hcr).
    apply bind_inv_ok in Hcr as (i & Hi & (w1 & Hin & [= <- <- <-])%bind_inv_ok).
    pose proof (take_unused _ _ _ _ _ _ _ _ _ _ _ Hj Hok Ht Hi) as Hnew. destruct Hj as [Hq Hr HL].
    split; simpl in *.
    + eapply (queue_reachable_step (w, ths) (w1, ths)); [done|]. by eapply Queue.step_create.
    + eapply run_queues_inv; [done| |done]. by eapply step_take.
    + unfold Queue.ntt_queue_init, ntt_loop_work_enter in Hin. apply bind_inv_ok in Hin as (_ & _ & [= <-]).
      simpl. by rewrite dom_insert_L, HL.
  - destruct (destroy_live _ _ _ _ _ _ _ _ _ _ _ Hj) as (c1 & w1 & qs & m & Hd & Hg & HqL & Hdom & Hs).
    unfold queue_destroy, queue_deinit in Hde. rewrite Hd, bind_ok in Hde.
    apply bind_inv_ok in Hde as ([[c2 w2] h2] & (_ & _ & (h3 & _ & [= <- <- <-])%bind_inv_ok)%bind_inv_ok & Hde).
    rewrite Hg, bind_ok in Hde. injection Hde as <- <- <- <-.
    destruct Hj as [Hq Hr HL]. split; simpl in *.
    + by eapply (queue_reachable_step (w, _) (w1, _)).
    + eapply run_queues_inv; [done| |done]. by apply step_give.
    + by rewrite Hdom, HL.
Qed.

Lemma joint_steps_inv base s s' : rtc joint_step s s' -> joint_inv base s -> joint_inv base s'.
Proof. induction 1; eauto using joint_step_inv. Qed.
End inv.

(** ** Claims *)

(** The states of a run of [ntt_loop_run], after its own start. *)
Definition joint_reachable `{Platform, Allocator, Epoll, System, Layout}
    (task : ptr) (width : Z) (fds : gset Z) (m : memory) (s : joint) : Prop :=
  0 <= width /\ mem_sound m /\ gens_bounded (fresh_table m) /\
  exists queue w r, loop_setup task width fds m = Ok (queue, w, r) /\
    rtc joint_step ((w, outsider :: replicate (Z.to_nat (lr_width r)) worker), (r, [], {[0]}, mem_blocks m)) s.

Section props.
Context `{Platform} `{Allocator, !AllocatorLaws} `{Epoll} `{System, !SystemLaws} `{Layout, !LayoutLaws}.

Lemma joint_reachable_inv task width fds m s : joint_reachable task width fds m s -> joint_inv fds s.
Proof.
  intros (Hw & Hs & Hb & queue & w & r & Hset & Hrun). eapply joint_steps_inv; [exact Hrun|].
  destruct (run_reaches _ _ _ _ _ _ _ _ _ _ _ Hw Hs Hb Hset ltac:(reflexivity)) as [-> Hinv].
  split; simpl; [apply one_task_reachable|done|by rewrite dom_singleton_L].
Qed.

(** C16.  The queues in use are the live slots of the queue slab: a queue is
    created in a slot that holds none, so that no queue is ever overwritten, and
    [ntt_queue_create_in] aborts only when the slab needs a block that is refused.
    The thread that drops the last reference of a queue gives back a slot that is
    live, once, after every assertion of [ntt_queue_deinit] has held: no reference,
    no task and no link is left, and, of a queue that the timer service knows at
    the same point, no armed timer either, so that the heap of its timers is taken
    down. *)
Theorem queue_slots_agree task width fds m w ths r ts L others :
  joint_reachable task width fds m ((w, ths), (r, ts, L, others)) ->
  L = dom (queues w) /\ slab_wf (lr_queue_slab r) (lr_mem r) L /\
  (0 < work_cnt w -> take_ok (lr_queue_slab r) ->
   returns_or (block_refused (lr_queue_slab r)) (ntt_queue_create_in w r) (fun '(q, w', r') => queues w !! q = None /\
     slab_wf (lr_queue_slab r') (lr_mem r') (dom (queues w')))) /\
  (forall q p tq service handlers s, mk_thread (Some (Queue.Destroy q)) p tq ∈ ths ->
   TimerService.reachable service handlers -> qslots service !! q = Some s -> s_dying s = true ->
   exists c w' r', queue_destroy w q (q_timers (s_queue s)) r = Ok (c, w', ntt_timer_heap_init, r') /\
     queues w' !! q = None /\ slab_wf (lr_queue_slab r') (lr_mem r') (dom (queues w'))).
Proof.
  intros Hj%joint_reachable_inv. pose proof Hj as [Hq Hr HL]. simpl in *. pose proof (ri_queues _ _ _ _ _ Hr) as Hwf.
  split_and!; [done|done| |].
  - intros Hw Hok. unfold ntt_queue_create_in. eapply returns_or_bind; [by apply take_wf|].
    intros [p [qs m1]] (i & Hni & Hi & -> & Hwf' & _). pose proof Hwf' as (fl & Hinv & _).
    rewrite (index_ok _ _ _ _ Hinv Hi), bind_ok. unfold Queue.ntt_queue_init, ntt_loop_work_enter.
    rewrite c_assert_true, bind_ok by (simpl; lia). apply returns_or_ok. simpl. split.
    + apply not_elem_of_dom. by rewrite <- HL.
    + by rewrite dom_insert_L, <- HL.
  - intros q p tq service handlers s (l1 & l2 & ->)%list_elem_of_split Hsv Hs Hdy.
    destruct (dying_timers _ _ _ _ Hsv Hs Hdy) as [Hem Hde].
    destruct (destroy_live _ _ _ _ _ _ _ _ _ _ _ Hj) as (c & w' & qs & m1 & Hd & Hg & HqL & Hdom & _).
    exists c, w', (lr_after r qs m1). unfold queue_destroy, queue_deinit.
    rewrite Hd, bind_ok, Hem, c_assert_true, bind_ok, Hde, !bind_ok by done. cbv beta iota. rewrite Hg, bind_ok.
    split_and!; [done|apply not_elem_of_dom; rewrite Hdom; set_solver|].
    rewrite Hdom, <- HL. destruct (give_wf _ _ _ _ Hwf HqL) as (qs' & m' & g & Hg' & Hwf' & _).
    rewrite Hg in Hg'. by injection Hg' as <- <-.
Qed.

(** C15.  A loop leaves nothing behind: once the workers were told to stop, no
    queue is left and every slot of the queue slab is free; [ntt_loop_destroy]
    then meets every assertion, and the end of [ntt_loop_run] closes every
    descriptor of the loop and frees every allocation of it, once each, the array
    of the registered queues included, and nothing else; the heap of the timer
    service is empty.  The timer service is one in which no handler runs any more,
    whose queues are queues of this loop, and whose array is one of the
    allocations that were made while the loop ran. *)
Theorem loop_leaves_nothing task width fds m w ths r ts L others service elems :
  joint_reachable task width fds m ((w, ths), (r, ts, L, others)) -> Stop ∈ Queue.log w ->
  TimerService.reachable service [] ->
  (forall i s, qslots service !! i = Some s -> q_refs (s_queue s) <> 0 \/ s_dying s = true ->
    is_Some (queues w !! i)) ->
  elems_at elems service others ->
  L = ∅ /\ exists self m', loop_finish r service elems w = Ok (self, fds, m') /\
    sv_queues self = ntt_queue_heap_init /\ mem_blocks m' ≡ₚ filter (fun b => b.1 <> elems) others.
Proof.
  intros Hj%joint_reachable_inv Hstop Hsv Hown Hel. destruct Hj as [Hq Hr HL]. simpl in *.
  destruct (stopped_idle _ _ (loop_reachable_inv _ _ Hq) Hstop) as (He & _ & Hc & _).
  split; [by rewrite HL, He, dom_empty_L|].
  destruct (service_deinit_safe service Hsv) as (self & Hde & Hself).
  { intros i s Hi. destruct (decide (q_refs (s_queue s) = 0)) as [Hz|Hz], (s_dying s) eqn:Hd; try done;
      destruct (Hown i s Hi) as [x Hx]; auto; by rewrite He in Hx. }
  destruct (loop_finish_ok _ _ _ _ _ _ _ _ _ Hr Hel Hde Hc) as (m' & Hfin & Hp). by exists self, m'.
Qed.
End props.

(** ** Witnesses *)
Module LoopJointExample.
Import LoopRunExample.
#[local] Existing Instances SlabExample.machine SlabExample.bump SlabExample.bump_laws.
#[local] Existing Instances kernel system system_laws layout layout_laws.

Definition start : joint :=
  ((one_task 1000, outsider :: replicate 4 worker), (loop0, [], {[0]}, mem_blocks heap0)).

(** Plays the moves of the queues that neither make nor destroy one. *)
Fixpoint joint_plays (ms : list QueueProps.move) (s : joint) : option joint :=
  match ms with
  | [] => Some s
  | mv :: ms =>
      match QueueProps.play mv s.1 with
      | Some c => if decide (dom (queues c.1) = dom (queues s.1.1)) then joint_plays ms (c, s.2) else None
      | None => None
      end
  end.

Lemma joint_plays_steps ms : forall s s', joint_plays ms s = Some s' -> rtc joint_step s s'.
Proof.
  induction ms as [|mv ms IH]; intros [c st] s' Heq; simpl in Heq; [by injection Heq as ->|].
  destruct (QueueProps.play mv c) as [c1|] eqn:Hp; [|done]. case_decide as Hd; [|done].
  eapply rtc_l; [|by apply IH]. apply joint_queues; [by eapply loop_play_step|done].
Qed.

(** The worker has run the task and is about to destroy its queue. *)
Definition last_ref : joint := default start (joint_plays (replicate 9 (QueueProps.Exec 1)) start).

(** The queue is destroyed. *)
Definition remains : option call * Queue.ntt_loop * loop_run :=
  match queue_destroy last_ref.1.1 0 ntt_timer_heap_init last_ref.2.1.1.1 with
  | Ok (c, w, _, r) => (c, w, r)
  | Err _ => (None, last_ref.1.1, loop0)
  end.

Definition destroyed : joint :=
  ((remains.1.2, [outsider] ++ mk_thread remains.1.1 (Top Unlimited) None :: replicate 3 worker),
   (remains.2, [], {[0]} ∖ {[0]}, mem_blocks heap0)).

(** The loop is told to stop. *)
Definition told : joint := default start (joint_plays [QueueProps.Exec 1] destroyed).

Lemma start_steps s : rtc joint_step start s -> joint_reachable 1000 4 fds0 heap0 s.
Proof.
  intros Hs. destruct heap0_sound as [Hm Hb]. split_and!; [lia|done|done|].
  exists queue0, (one_task 1000), loop0. split; [exact built_ok|]. exact Hs.
Qed.

Lemma last_ref_steps : rtc joint_step start last_ref.
Proof. apply (joint_plays_steps (replicate 9 (QueueProps.Exec 1))). by vm_compute. Qed.

Lemma destroyed_step : joint_step last_ref destroyed.
Proof.
  assert (Hl : last_ref = ((last_ref.1.1, [outsider] ++ mk_thread (Some (Queue.Destroy 0)) (Top Unlimited) None ::
    replicate 3 worker), (last_ref.2.1.1.1, [], {[0]}, mem_blocks heap0))) by (by vm_compute).
  assert (Hd : queue_destroy last_ref.1.1 0 ntt_timer_heap_init last_ref.2.1.1.1 =
    Ok (remains.1.1, remains.1.2, ntt_timer_heap_init, remains.2)) by (by vm_compute).
  assert (Hb : gens_bounded (lr_table remains.2)) by (apply gens_boundedb_true; by vm_compute).
  rewrite Hl. exact (joint_destroy _ [outsider] 0 (Top Unlimited) None _ _ _ _ _ _ _ _ _ _ Hd Hb).
Qed.

Lemma told_steps : rtc joint_step start told.
Proof.
  etransitivity; [exact last_ref_steps|]. apply (rtc_l _ _ destroyed); [exact destroyed_step|].
  apply (joint_plays_steps [QueueProps.Exec 1]). by vm_compute.
Qed.

(** The array of the registrations, allocated while the loop ran. *)
Definition array : ptr * memory :=
  match ntt_aligned_or_die (lr_mem told.2.1.1.1) 16 256 with Ok x => x | Err _ => (0, heap0) end.
Definition with_array : loop_run := lr_with_mem array.2 told.2.1.1.1.

Lemma with_array_reachable :
  joint_reachable 1000 4 fds0 heap0
    ((told.1.1, told.1.2), (with_array, [], {[0]} ∖ {[0]}, (array.1, 256) :: mem_blocks heap0)).
Proof.
  apply start_steps. eapply rtc_r; [exact told_steps|].
  assert (Hl : told = ((told.1.1, told.1.2), (told.2.1.1.1, [], {[0]} ∖ {[0]}, mem_blocks heap0))) by (by vm_compute).
  assert (Ha : ntt_aligned_or_die (lr_mem told.2.1.1.1) 16 256 = Ok (array.1, array.2)) by (by vm_compute).
  assert (Hb : gens_bounded (lr_table with_array)) by (apply gens_boundedb_true; by vm_compute).
  rewrite Hl at 1. apply joint_memory. apply (run_alloc _ _ _ _ 16 256 _ _ ltac:(lia) Ha Hb).
Qed.

Lemma gone_at_rest : TimerService.reachable TimerServiceExample.gone.1 [].
Proof.
  assert (Hn : TimerServiceExample.gone.2 = []) by (by vm_compute).
  pose proof TimerServiceExample.gone_reachable as Hr. by rewrite Hn in Hr.
Qed.

Lemma queue_slots_agree_witness :
  exists c w' r', queue_destroy last_ref.1.1 0 (q_timers (s_queue (TimerServiceExample.slot0 TimerServiceExample.dying)))
      last_ref.2.1.1.1 = Ok (c, w', ntt_timer_heap_init, r') /\ queues w' !! 0 = None.
Proof.
  destruct (queue_slots_agree 1000 4 fds0 heap0 last_ref.1.1 last_ref.1.2 last_ref.2.1.1.1 [] {[0]}
    (mem_blocks heap0)) as (_ & _ & _ & Hd).
  { apply start_steps. exact last_ref_steps. }
  destruct (Hd 0 (Top Unlimited) None TimerServiceExample.dying.1 TimerServiceExample.dying.2
    (TimerServiceExample.slot0 TimerServiceExample.dying)) as (c & w' & r' & Heq & Hn & _).
  - apply (list_elem_of_lookup_2 _ 1). by vm_compute.
  - exact TimerServiceExample.dying_reachable.
  - by vm_compute.
  - by vm_compute.
  - exists c, w', r'. split; [exact Heq|exact Hn].
Defined.

Lemma loop_leaves_nothing_witness :
  exists self m', loop_finish with_array TimerServiceExample.gone.1 array.1 told.1.1 = Ok (self, fds0, m') /\
    sv_queues self = ntt_queue_heap_init /\ mem_blocks m' ≡ₚ [(4096, 100)].
Proof.
  assert (Hall : map_Forall (fun _ s => q_refs (s_queue s) = 0 /\ s_dying s = false)
    (qslots TimerServiceExample.gone.1)) by (apply (bool_decide_eq_true_1 _); by vm_compute).
  assert (Hstop : Stop ∈ Queue.log told.1.1) by (apply (list_elem_of_lookup_2 _ 4); by vm_compute).
  assert (Hcap : (qh_capacity (sv_queues (service TimerServiceExample.gone.1)) =? 0) = false) by (by vm_compute).
  assert (Hrest : filter (fun b => b.1 <> array.1) ((array.1, 256) :: mem_blocks heap0) = [(4096, 100)])
    by (by vm_compute).
  destruct (loop_leaves_nothing 1000 4 fds0 heap0 told.1.1 told.1.2 with_array [] ({[0]} ∖ {[0]})
    ((array.1, 256) :: mem_blocks heap0) TimerServiceExample.gone.1 array.1) as [_ (self & m' & Hfin & Hself & Hp)].
  - exact with_array_reachable.
  - exact Hstop.
  - exact gone_at_rest.
  - intros i s Hi Hu. destruct (Hall i s Hi) as [Hz Hd]. exfalso. destruct Hu as [Hu|Hu]; congruence.
  - unfold elems_at. rewrite Hcap. exists 256. by left.
  - exists self, m'. split; [exact Hfin|]. split; [exact Hself|]. by rewrite Hrest in Hp.
Defined.
End LoopJointExample.
