(* ===== verification/LoopWhole.v ===== *)
(** * Queues and workers in one run

    [Queue] runs the threads of a loop as if they always ran, and [Worker] takes
    what a worker does in its service callback for granted.  Here both are one
    system: the thread of a worker runs [ntt_combine_svc] while the worker is in
    [ntt_loop_worker_svc], leaves it when [epoll_pwait] is interrupted, runs the
    tasks of the local queue, and comes back; and the work that queues take and give
    up is the work of the loop, whose last leave stops the workers.  The lines are
    those of [src/loop.c] and [src/worker.c] where the two models meet. *)

From stdpp Require Import base numbers list gmap relations.
From Stdlib Require Import ZArith Lia.
From S2P Require Import Prelude.
From S2P Require Import Worker.
From S2P Require Import WorkerInv.
From S2P Require Import Queue.
From S2P Require Import QueueInv.
From S2P Require Import QueueRest.
From S2P Require Import QueueProps.
From S2P Require Import LoopStart.

#[local] Open Scope Z_scope.

(** ** State *)

(** The loop in both models, with all threads: those that are no workers first,
    then one for each worker, in their order. *)
Record whole : Type := mk_whole {
  wh_queues : Queue.ntt_loop;
  wh_threads : list thread;
  wh_life : lworld;
  wh_calls : list caller;
}.

(** The worker is in its service callback, or in a task of its local queue. *)
Definition serving (lw : lworld) (k : nat) : bool :=
  match wks lw !! k with Some x => bool_decide (wk_point x = WSvc) | None => false end.

Definition in_local_task (lw : lworld) (k : nat) : bool :=
  match wks lw !! k with Some x => bool_decide (wk_point x = WRun) | None => false end.

Section ops.
Context `{Platform}.

(** ** Steps of the threads *)

(** The last work of a queue, or of the code around, is left: one call in both
    models, made with work that its caller holds. *)
Definition leave_work (lw : lworld) : res (option caller * lworld) :=
  Worker.ntt_loop_work_leave (set_lp (lp_with_work (lp_work_cnt (lp lw)) (pred (lp_tokens (lp lw))) (lp lw)) lw).

Definition exec_thread (t : thread) (w : Queue.ntt_loop) (lw : lworld) :
    res (thread * Queue.ntt_loop * option caller * lworld) :=
  '(t', w) ← exec t w;
  match in_call t with
  | Some WorkLeave => '(c, lw) ← leave_work lw; Ok (t', w, c, lw)
  | _ => Ok (t', w, None, lw)
  end.

(** The thread [t] of a worker when the worker makes a step: it leaves
    [ntt_loop_worker_svc] only from [epoll_pwait], and a task of the local queue has
    to return from its calls first. *)
Definition worker_svc_leave (x : ntt_worker) (t : thread) : option thread :=
  match wk_point x, in_call t with
  | WSvc, None => match at_point t with Wait => Some (mk_thread None Handler (t_queue t)) | _ => None end
  | WSvc, Some _ | WRun, Some _ => None
  | _, _ => Some t
  end.

(** [n] threads are no workers; the thread [i] may go on, or make a new call. *)
Definition scheduled (n : nat) (lw : lworld) (i : nat) (t : thread) : Prop :=
  if decide (i < n)%nat then Worker.started lw
  else serving lw (i - n) = true \/ in_local_task lw (i - n) = true /\ in_call t <> None.

Definition may_call (n : nat) (lw : lworld) (i : nat) : Prop :=
  if decide (i < n)%nat then Worker.started lw
  else serving lw (i - n) = true \/ in_local_task lw (i - n) = true.

(** Steps of the library and of the threads it starts. *)
Inductive library_step (n : nat) : whole -> whole -> Prop :=
  | lib_thread w ths lw cs i t t' w' c lw' :
      ths !! i = Some t -> scheduled n lw i t -> ~ resting w t ->
      exec_thread t w lw = Ok (t', w', c, lw') ->
      library_step n (mk_whole w ths lw cs) (mk_whole w' (<[i := t']> ths) lw' (option_list c ++ cs))
  | lib_worker w ths lw cs k x t t' c lw' :
      wks lw !! k = Some x -> worker_ready x = true -> ths !! (n + k)%nat = Some t ->
      worker_svc_leave x t = Some t' -> exec_worker lw k x = Ok (c, lw') ->
      library_step n (mk_whole w ths lw cs) (mk_whole w (<[(n + k)%nat := t']> ths) lw' (option_list c ++ cs))
  | lib_caller w ths lw l1 c l2 c' lw' :
      exec_caller c lw = Ok (c', lw') ->
      library_step n (mk_whole w ths lw (l1 ++ c :: l2)) (mk_whole w ths lw' (l1 ++ option_list c' ++ l2))
  | lib_end w ths lw cs lw' :
      lp_alive (lp lw) = true -> gone_at lw 0 ->
      ((lp_joined (lp lw) < lp_width (lp lw))%nat -> gone_at lw (lp_joined (lp lw))) ->
      loop_end lw = Ok lw' ->
      library_step n (mk_whole w ths lw cs) (mk_whole w ths lw' cs).

(** Steps of the code around, and of the system: calls, new queues and other
    work, events of the epoll, barriers, which need work that is not given up
    meanwhile, the use of workers, and signals that are not of the library. *)
Inductive around_step (n : nat) : whole -> whole -> Prop :=
  | around_call w ths lw cs i t t' w' :
      ths !! i = Some t -> may_call n lw i -> client_code (at_point t) = true -> client ths w t w' t' ->
      (in_call t' = Some WorkLeave -> (total works cs < other_work w)%nat) ->
      around_step n (mk_whole w ths lw cs) (mk_whole w' (<[i := t']> ths) lw cs)
  | around_create w ths lw cs q w' lw' :
      Worker.started lw -> (0 < lp_tokens (lp lw))%nat -> queues w !! q = None ->
      Queue.ntt_queue_create_in w q = Ok w' -> Worker.ntt_loop_work_enter lw = Ok lw' ->
      around_step n (mk_whole w ths lw cs) (mk_whole w' ths lw' cs)
  | around_work w ths lw cs w' lw' :
      Worker.started lw -> (0 < lp_tokens (lp lw))%nat ->
      Queue.ntt_loop_work_enter w (S (other_work w)) = Ok w' -> Worker.ntt_loop_work_enter lw = Ok lw' ->
      around_step n (mk_whole w ths lw cs) (mk_whole w' ths lw' cs)
  | around_notify w ths lw cs k tq :
      ths !! (n + k)%nat = Some (mk_thread None Wait tq) -> serving lw k = true ->
      around_step n (mk_whole w ths lw cs) (mk_whole w (<[(n + k)%nat := mk_thread None Handler tq]> ths) lw cs)
  | around_barrier w ths lw cs c lw' :
      Worker.started lw -> (total works cs < other_work w)%nat ->
      ntt_loop_push_barrier (set_lp (lp_with_work (lp_work_cnt (lp lw)) (pred (lp_tokens (lp lw))) (lp lw)) lw) = Ok (c, lw') ->
      around_step n (mk_whole w ths lw cs) (mk_whole w ths lw' (c :: cs))
  | around_interrupt w ths lw cs k x t t' :
      wks lw !! k = Some x -> wk_point x = WSvc -> ths !! (n + k)%nat = Some t -> worker_svc_leave x t = Some t' ->
      around_step n (mk_whole w ths lw cs)
        (mk_whole w (<[(n + k)%nat := t']> ths) (set_wk k (at_wpoint WCheck x) lw) cs)
  | around_worker w ths lw cs lw' cs' :
      outside_step (lw, cs) (lw', cs') -> lp (lw') = lp lw -> total works cs' = total works cs ->
      (forall k, serving lw' k = serving lw k /\ in_local_task lw' k = in_local_task lw k) ->
      around_step n (mk_whole w ths lw cs) (mk_whole w ths lw' cs').

Definition whole_step (n : nat) (s s' : whole) : Prop :=
  (library_step n s s' \/ around_step n s s') /\ refs_bounded (wh_life s').

(** After the start of [ntt_loop_run], with its task in the first queue. *)
Definition whole_start (n : nat) (width : Z) (w : Queue.ntt_loop) : whole :=
  mk_whole w (replicate n outsider ++ replicate (Z.to_nat (ntt_loop_clamp_width width)) worker)
    (Worker.ntt_loop_run width) [].

Definition whole_reachable (n : nat) (task : ptr) (width : Z) (s : whole) : Prop :=
  (0 < n)%nat /\ 0 <= width < 2 ^ 32 /\
  exists w, start_queue loop_queues 0 task = Ok w /\ rtc (whole_step n) (whole_start n width w) s.
End ops.
