(* ===== verification/LoopWholeInv.v ===== *)
(** * Queues and workers in one run: the invariant

    Each half of a step is a step, or a few, of its own model, so that what is
    proved of [Queue] and of [Worker] holds in the run of both; what links them is
    the work of the loop, and where the thread of a worker may be. *)

From stdpp Require Import base numbers list gmap relations.
From Stdlib Require Import ZArith Lia.
From S2P Require Import Prelude.
From S2P Require Import Worker.
From S2P Require Import WorkerInv.
From S2P Require Import WorkerSteps.
From S2P Require Import WorkerCallers.
From S2P Require Import WorkerRest.
From S2P Require Import WorkerLive.
From S2P Require Import WorkerProps.
From S2P Require Import Queue.
From S2P Require Import QueueInv.
From S2P Require Import QueueSteps.
From S2P Require Import QueueRest.
From S2P Require Import QueueProps.
From S2P Require Import LoopStart.
From S2P Require Import LoopWhole.

#[local] Open Scope Z_scope.

Implicit Types (w : Queue.ntt_loop) (lw : lworld) (cs : list caller) (t : thread) (ths : list thread) (x : ntt_worker).

(** ** What the steps of the workers leave alone *)

(** The thread of a worker, as far as [LoopWhole] looks at it. *)
Definition same_service lw lw' : Prop :=
  forall k, serving lw' k = serving lw k /\ in_local_task lw' k = in_local_task lw k.

Lemma same_service_refl lw lw' : wks lw' = wks lw -> same_service lw lw'.
Proof. intros Heq k. unfold serving, in_local_task. by rewrite Heq. Qed.

Lemma same_service_trans lw lw1 lw2 : same_service lw lw1 -> same_service lw1 lw2 -> same_service lw lw2.
Proof. intros H1 H2 k. destruct (H1 k), (H2 k). split; congruence. Qed.

Lemma same_service_set lw k x x' :
  wks lw !! k = Some x -> wk_point x' = wk_point x -> same_service lw (set_wk k x' lw).
Proof.
  intros Hk Hp j. unfold serving, in_local_task. simpl. destruct (decide (j = k)) as [->|Hne].
  - rewrite list_lookup_insert_eq by (by eapply lookup_lt_Some). by rewrite Hk, Hp.
  - by rewrite list_lookup_insert_ne.
Qed.

Lemma serving_set_ne lw k j x' :
  j <> k -> serving (set_wk k x' lw) j = serving lw j /\ in_local_task (set_wk k x' lw) j = in_local_task lw j.
Proof. intros Hne. unfold serving, in_local_task. simpl. by rewrite list_lookup_insert_ne. Qed.

Section frames.
Context `{Platform}.

(** What a caller leaves alone. *)
Definition call_frame lw lw' : Prop :=
  same_service lw lw' /\ lp_work_cnt (lp lw') = lp_work_cnt (lp lw) /\ lp_width (lp lw') = lp_width (lp lw).

Lemma worker_release_frame lw k o lw' : ntt_worker_release lw k = Ok (o, lw') -> call_frame lw lw'.
Proof. intros (x & r & Hx & ->)%worker_release_cost. split; [by eapply same_service_set|done]. Qed.

Lemma resume_frame nx lw : call_frame lw (resume nx lw).2.
Proof.
  destruct nx as [|todo|b i|k]; simpl; try (by split; [apply same_service_refl|]).
  destruct (wks lw !! k) as [x|] eqn:Hk; [split; [by eapply same_service_set|done]|by split; [apply same_service_refl|]].
Qed.

Lemma resume_works nx lw : total works (option_list (resume nx lw).1) = kworks nx /\ (CLeave ∉ option_list (resume nx lw).1).
Proof.
  destruct nx as [|todo|b i|k]; simpl; split; try done; try apply not_elem_of_nil; by intros ?%list_elem_of_singleton.
Qed.

Lemma call_frame_resume lw lw1 nx o lw' :
  call_frame lw lw1 -> resume nx lw1 = (o, lw') ->
  call_frame lw lw' /\ (total works (option_list o) <= kworks nx)%nat /\ (CLeave ∉ option_list o).
Proof.
  intros (H1 & H2 & H3) Heq. pose proof (resume_frame nx lw1) as (G1 & G2 & G3).
  pose proof (resume_works nx lw1) as (G4 & G5). rewrite Heq in *. simpl in *.
  split_and!; [|lia|done]. split_and!; [by eapply same_service_trans|congruence|congruence].
Qed.

Lemma caller_frame lw c o lw' :
  c <> CLeave -> exec_caller c lw = Ok (o, lw') ->
  call_frame lw lw' /\ (total works (option_list o) <= works c)%nat /\ (CLeave ∉ option_list o).
Proof.
  assert (Hsame : call_frame lw lw) by (split; [by apply same_service_refl|done]).
  assert (Hone : forall c', c' <> CLeave -> CLeave ∉ [c']) by (intros c' Hc; by rewrite list_elem_of_singleton).
  assert (Hnil : CLeave ∉ []) by apply not_elem_of_nil.
  intros Hc. destruct c as [| |todo|k t nx|k nx|k nx|b i]; try done; simpl.
  - unfold collect_workers. intros (l & ->%get_loop_inv & Hr)%bind_inv_ok. destruct (_ <=? _); [|done].
    injection Hr as <- <-. split_and!; [split; [by apply same_service_refl|done]|done|by apply Hone].
  - destruct todo as [|[k|] todo]; simpl.
    + intros [= <- <-]. by split_and!.
    + intros ([last lw1] & Hf%worker_release_frame & [= <- <-])%bind_inv_ok.
      split_and!; [done|destruct last; simpl; unfold total; simpl; lia|by destruct last; apply Hone].
    + intros (u & _ & [= <- <-])%bind_inv_ok. split_and!; [done|done|by apply Hone].
  - unfold local_push. intros ([e lw1] & (x & Hx%get_worker_inv & (u & _ & [= <- <-])%bind_inv_ok)%bind_inv_ok & Hr)%bind_inv_ok.
    assert (Hf : call_frame lw (set_wk k (wk_with_tasks (wk_tasks x ++ [t]) x) lw)) by (split; [by eapply same_service_set|done]).
    case_bool_decide; [injection Hr as <- <-; split_and!; [done|unfold total; simpl; lia|by apply Hone]|].
    eapply call_frame_resume; [exact Hf|]. by injection Hr.
  - unfold local_acquire. intros (lw1 & (x & Hx%get_worker_inv & Hr)%bind_inv_ok & [= <- <-])%bind_inv_ok.
    apply bind_inv_ok in Hr as (u & _ & [= <-]).
    split_and!; [split; [by eapply same_service_set|done]|unfold total; simpl; lia|by apply Hone].
  - unfold ntt_worker_local_queue_wakeup. intros (lw1 & (x & Hx%get_worker_inv & [= <-])%bind_inv_ok & Hr)%bind_inv_ok.
    assert (Hf : call_frame lw (set_wk k (wk_with_signals (S (wk_signals x)) x) lw)) by (split; [by eapply same_service_set|done]).
    eapply call_frame_resume; [exact Hf|]. by injection Hr.
  - unfold barrier_next. intros (l & ->%get_loop_inv & Hr)%bind_inv_ok.
    destruct (i <? lp_width (lp lw))%nat.
    + destruct (lp_workers (lp lw) !! i) as [[k|]|]; [|by apply bind_inv_ok in Hr as (u & _ & ?)|done].
      injection Hr as <- <-. split_and!; [done|unfold total; simpl; lia|by apply Hone].
    + injection Hr as <- <-. split_and!; [split; [by apply same_service_refl|done]|unfold total; simpl; lia|done].
Qed.

(** What the step of a worker leaves alone of the others and of the loop. *)
Definition step_frame k lw lw' : Prop :=
  (forall j, j <> k -> serving lw' j = serving lw j /\ in_local_task lw' j = in_local_task lw j) /\
  lp_work_cnt (lp lw') = lp_work_cnt (lp lw) /\ lp_width (lp lw') = lp_width (lp lw).

Lemma step_frame_set k lw lw1 x' : call_frame lw lw1 -> step_frame k lw (set_wk k x' lw1).
Proof.
  intros (H1 & H2 & H3). split_and!; [|done..]. intros j Hj. destruct (H1 j) as [<- <-]. by apply serving_set_ne.
Qed.

Lemma call_frame_refl lw lw' :
  wks lw' = wks lw -> lp_work_cnt (lp lw') = lp_work_cnt (lp lw) -> lp_width (lp lw') = lp_width (lp lw) -> call_frame lw lw'.
Proof. intros. by split_and!; [apply same_service_refl|..]. Qed.

Lemma broadcast_service lw : same_service lw (set_wks (broadcast (wks lw)) lw).
Proof.
  intros k. unfold serving, in_local_task, broadcast. simpl. rewrite list_lookup_fmap.
  destruct (wks lw !! k) as [x|]; [|done]. simpl. case_decide as Hp; [|done]. simpl. rewrite Hp. done.
Qed.

Lemma worker_frame lw k x o lw' :
  wks lw !! k = Some x -> exec_worker lw k x = Ok (o, lw') ->
  step_frame k lw lw' /\ total works (option_list o) = 0%nat /\ (CLeave ∉ option_list o).
Proof.
  assert (Hnil : CLeave ∉ []) by apply not_elem_of_nil.
  assert (Hsame : call_frame lw lw) by (by apply call_frame_refl).
  intros Hk. unfold exec_worker. destruct (wk_point x) eqn:Hp.
  - intros [= <- <-]. split_and!; [by apply step_frame_set|done..].
  - unfold worker_enter, ntt_worker_acquire.
    intros (lw2 & (lw1 & (y & Hy%get_worker_inv & Hr1)%bind_inv_ok & Hr2)%bind_inv_ok & [= <- <-])%bind_inv_ok.
    apply bind_inv_ok in Hr1 as (u & _ & [= <-]). apply bind_inv_ok in Hr2 as (l & ->%get_loop_inv & Hr2).
    apply bind_inv_ok in Hr2 as (z & _ & [= <-]). split_and!; [|done..]. apply step_frame_set.
    split; [|done]. eapply same_service_trans; [by eapply (same_service_set lw k y (wk_with_refs (u64 (wk_refs y + 1)) y))|].
    by apply same_service_refl.
  - unfold worker_meet. intros (lw1 & (l & ->%get_loop_inv & [= <-])%bind_inv_ok & [= <- <-])%bind_inv_ok.
    split_and!; [|done..]. destruct (_ <? _)%nat; apply step_frame_set; [by apply call_frame_refl|].
    split; [|done]. exact (broadcast_service lw).
  - intros [= <- <-]. split_and!; [by split_and!|done..].
  - unfold worker_woken. intros (lw1 & (l & ->%get_loop_inv & [= <-])%bind_inv_ok & [= <- <-])%bind_inv_ok.
    split_and!; [by apply step_frame_set|done..].
  - intros ([last lw1] & Hf%worker_release_frame & Hr)%bind_inv_ok. apply bind_inv_ok in Hr as (z & _ & [= <- <-]).
    split_and!; [by apply step_frame_set|by destruct last|]. destruct last; [|done]. by intros ?%list_elem_of_singleton.
  - intros [= <- <-]. split_and!; [by apply step_frame_set|done..].
  - intros [= <- <-]. split_and!; [by apply step_frame_set|done..].
  - destruct (wk_need_drain x); [intros (u & _ & [= <- <-])%bind_inv_ok|intros [= <- <-]];
      (split_and!; [by apply step_frame_set|done..]).
  - destruct (wk_tasks x) as [|t l]; [done|]. intros (lw1 & Hr & Hg)%bind_inv_ok.
    apply bind_inv_ok in Hg as (y & _ & [= <- <-]). destruct (run_frame _ _ _ _ _ Hk Hr) as (Hl & st & Hw).
    split_and!; [|done..]. apply step_frame_set. split; [|by rewrite Hl].
    eapply same_service_trans; [by eapply (same_service_set lw k x (wk_with_stopped st x))|]. by apply same_service_refl.
  - intros (u & _ & [= <- <-])%bind_inv_ok. split_and!; [by apply step_frame_set|done..].
  - destruct (_ =? _); [done|]. intros [= <- <-]. split_and!; [by apply step_frame_set|done..].
  - intros [= <- <-]. split_and!; [by apply step_frame_set|done..].
  - intros [= <- <-]. split_and!; [by split_and!|done..].
Qed.

Lemma end_frame lw lw' : loop_end lw = Ok lw' -> call_frame lw lw'.
Proof.
  unfold loop_end. intros (l & ->%get_loop_inv & Hr)%bind_inv_ok.
  destruct (_ <? _)%nat; injection Hr as <-; by apply call_frame_refl.
Qed.
End frames.

(** ** What the steps of the threads leave alone *)

(** The call of a thread that is no worker: it is made with a reference. *)
Definition lent_call (c : option call) : Prop :=
  match c with
  | Some (PushTask _ _ own) | Some (PushAcquire _ own) | Some (CombinePush _ own) | Some (CombineWakeup _ own)
  | Some (Acquire _ own) => own = true
  | _ => True
  end.

(** The queues in use, and the threads that are about to leave the work of one. *)
Definition to_leave w ths : nat := size (queues w) + total leaving ths.

Section threads.
Context `{Platform}.

Lemma finish_frame w q own c' w' :
  finish w q own = Ok (c', w') ->
  c' = None /\ work_cnt w' = work_cnt w /\ other_work w' = other_work w /\ size (queues w') = size (queues w).
Proof.
  unfold finish. destruct own; [|by intros [= <- <-]].
  intros (x & Hx%get_queue_ok & [= <- <-])%bind_inv_ok. split_and!; try done. simpl. by apply map_size_insert_Some.
Qed.

Lemma call_step_frame c b w c' w' :
  c <> WorkLeave -> exec_call c b w = Ok (c', w') ->
  work_cnt w' = work_cnt w /\ other_work w' = other_work w /\
  (size (queues w') + leaving (mk_thread c' Outside None) <= size (queues w))%nat /\
  (lent_call (Some c) -> lent_call c').
Proof.
  intros Hc. destruct c as [q task own|q own|q own|q own|q own|q|q|]; try done; simpl.
  - unfold ntt_queue_push_task. intros (x & Hx%get_queue_ok & Hr)%bind_inv_ok. apply bind_inv_ok in Hr as (u & _ & Hr).
    assert (Hs : size (queues (emit (Pushed q task) (set_queue q (set_tasks (task_list x ++ [task]) x) w))) = size (queues w))
      by (simpl; by apply map_size_insert_Some).
    destruct (ntt_queue_empty x); [injection Hr as <- <-; simpl in *; split_and!; done || lia|].
    apply finish_frame in Hr as (-> & -> & -> & ->). simpl in *. split_and!; done || lia.
  - unfold push_acquire. intros (x & Hx%get_queue_ok & Hr)%bind_inv_ok. apply bind_inv_ok in Hr as (u & _ & [= <- <-]).
    simpl. rewrite map_size_insert_Some by done. split_and!; done || lia.
  - unfold ntt_combine_push. intros (x & Hx%get_queue_ok & Hr)%bind_inv_ok. apply bind_inv_ok in Hr as (u & _ & Hr).
    apply bind_inv_ok in Hr as (u' & _ & Hr). case_bool_decide; [injection Hr as <- <-; simpl; split_and!; done || lia|].
    apply finish_frame in Hr as (-> & -> & -> & ->). simpl. split_and!; done || lia.
  - assert (Hw : forall v, work_cnt (ntt_loop_combine_wakeup v b) = work_cnt v /\
      other_work (ntt_loop_combine_wakeup v b) = other_work v /\ queues (ntt_loop_combine_wakeup v b) = queues v).
    { intros v. unfold ntt_loop_combine_wakeup, eventfd_write. destruct b; simpl; [done|]. by destruct (_ <? _). }
    intros (-> & -> & -> & ->)%finish_frame. destruct (Hw w) as (-> & -> & ->). simpl. split_and!; done || lia.
  - unfold ntt_queue_acquire. intros (x & Hx%get_queue_ok & Hr)%bind_inv_ok. apply bind_inv_ok in Hr as (u & _ & [= <- <-]).
    simpl. rewrite map_size_insert_Some by done. split_and!; done || lia.
  - unfold ntt_queue_release. intros (x & Hx%get_queue_ok & [= <- <-])%bind_inv_ok. simpl.
    rewrite map_size_insert_Some by done. destruct (_ =? 1); simpl; split_and!; done || lia.
  - unfold ntt_queue_deinit. intros (x & Hx%get_queue_ok & Hr)%bind_inv_ok. apply bind_inv_ok in Hr as (u & _ & Hr).
    apply bind_inv_ok in Hr as (u' & _ & Hr). apply bind_inv_ok in Hr as (u2 & _ & [= <- <-]). simpl.
    split_and!; try done. rewrite map_size_delete_Some by done.
    assert (size (queues w) <> 0%nat) by (apply (map_size_ne_0_lookup_2 _ q); eauto). lia.
Qed.

Lemma point_step_frame p tq w t' w' :
  exec_point p tq w = Ok (t', w') ->
  work_cnt w' = work_cnt w /\ other_work w' = other_work w /\ size (queues w') = size (queues w) /\
  leaving t' = 0%nat /\ in_loop (at_point t') = in_loop p /\ (p = Outside -> t' = mk_thread None Outside tq).
Proof.
  destruct p as [|m|q m|q task cnt m|q task cnt m|q task cnt m|q task next cnt m|q next cnt m|q cnt m| | |]; simpl;
    try (by intros [= <- <-]).
  - destruct m as [|cnt l1 l2]; simpl.
    + unfold ntt_combine_try_take. destruct (combine w); intros [= <- <-]; by split_and!.
    + destruct (cnt <? l1); [|intros [= <- <-]; by split_and!]. unfold ntt_combine_try_take.
      destruct (combine w); intros [= <- <-]; by split_and!.
  - unfold svc_enter. intros (t & (x & _ & Hr)%bind_inv_ok & [= <- <-])%bind_inv_ok.
    apply bind_inv_ok in Hr as (u & _ & Hr). apply bind_inv_ok in Hr as (u1 & _ & Hr).
    apply bind_inv_ok in Hr as (u2 & _ & Hr). apply bind_inv_ok in Hr as (u3 & _ & Hr).
    destruct (task_list x); [done|]. by injection Hr as <-.
  - unfold ntt_queue_next. intros ([next w1] & (x & Hx%get_queue_ok & Hr)%bind_inv_ok & [= <- <-])%bind_inv_ok.
    apply bind_inv_ok in Hr as (u & _ & Hr). apply bind_inv_ok in Hr as (u1 & _ & [= _ <-]).
    split_and!; try done. simpl. by apply map_size_insert_Some.
  - intros [= <- <-]. split_and!; try done. destruct m as [|c l1 l2]; simpl; [by destruct next|].
    destruct (_ =? _); [done|]. by destruct next.
  - unfold svc_leave. intros (t & (u & _ & [= <-])%bind_inv_ok & [= <- <-])%bind_inv_ok.
    split_and!; try done; [|by destruct m]. simpl. by destruct (match m with Unlimited => _ | _ => _ end).
  - intros [= <- <-]. split_and!; try done. by destruct (_ >? _).
  - intros [= <- <-]. unfold ntt_combine_eventfd_ready. by destruct (_ >? _).
Qed.

(** One step of a thread that leaves no work. *)
Lemma thread_exec_frame t w t' w' :
  exec t w = Ok (t', w') -> in_call t <> Some WorkLeave ->
  work_cnt w' = work_cnt w /\ other_work w' = other_work w /\
  (size (queues w') + leaving t' <= size (queues w))%nat /\ in_loop (at_point t') = in_loop (at_point t) /\
  (in_call t <> None -> at_point t' = at_point t /\ t_queue t' = t_queue t) /\
  (at_point t = Outside -> lent_call (in_call t) -> at_point t' = Outside /\ lent_call (in_call t')).
Proof.
  unfold exec. destruct t as [[c|] p tq]; simpl.
  - intros ([c' w1] & Hc & [= <- <-])%bind_inv_ok Hne.
    destruct (call_step_frame c _ w c' w1 ltac:(congruence) Hc) as (-> & -> & Hs & Hl).
    split_and!; try done. intros -> Hlc. split; [done|by apply Hl].
  - intros (-> & -> & -> & -> & Hin & Ho)%point_step_frame _. split_and!; try done; [lia|].
    intros Hp _. by rewrite (Ho Hp).
Qed.

(** Leaving work. *)
Lemma leave_frame p tq w t' w' :
  exec (mk_thread (Some WorkLeave) p tq) w = Ok (t', w') ->
  t' = mk_thread None p tq /\ work_cnt w' = work_cnt w - 1 /\ other_work w' = other_work w /\ queues w' = queues w.
Proof.
  unfold exec. simpl. unfold Queue.ntt_loop_work_leave. intros ([c w1] & (u & _ & [= <- <-])%bind_inv_ok & [= <- <-])%bind_inv_ok.
  by destruct (negb _).
Qed.

(** A new call. *)
Lemma client_frame ts w t w' t' :
  client ts w t w' t' ->
  work_cnt w' = work_cnt w /\ at_point t' = at_point t /\
  other_work w = (other_work w' + leaving t')%nat /\
  (t_queue t = None -> lent_call (in_call t')).
Proof.
  destruct 1; simpl; split_and!; try done; try lia.
Qed.
End threads.

(** ** The invariant *)
Definition pool_ok lw (k : nat) t : Prop :=
  in_loop (at_point t) = true /\
  (serving lw k = false ->
    (at_point t = Handler \/ at_point t = Top Unlimited) /\ (in_local_task lw k = false -> in_call t = None)).

Definition outsider_ok t : Prop := at_point t = Outside /\ lent_call (in_call t).

Record whole_inv `{Platform} (n : nat) (width : Z) (s : whole) : Prop := {
  wi_queues : reachable (wh_queues s) (wh_threads s);
  wi_life : life width (wh_life s) (wh_calls s);
  wi_work : lp_work_cnt (lp (wh_life s)) = work_cnt (wh_queues s);
  wi_leave : CLeave ∉ wh_calls s;
  wi_lent : (total works (wh_calls s) <= other_work (wh_queues s))%nat;
  wi_length : length (wh_threads s) = (n + lp_width (lp (wh_life s)))%nat;
  wi_outside : forall i t, (i < n)%nat -> wh_threads s !! i = Some t -> outsider_ok t;
  wi_pool : forall k t, wh_threads s !! (n + k)%nat = Some t -> pool_ok (wh_life s) k t;
}.

Lemma pool_ok_same lw lw' k t :
  serving lw' k = serving lw k /\ in_local_task lw' k = in_local_task lw k -> pool_ok lw k t -> pool_ok lw' k t.
Proof. unfold pool_ok. by intros [-> ->]. Qed.

Section inv.
Context `{Platform} (n : nat) (width : Z).
Implicit Types (s : whole).

Lemma thread_loop_step w ths i t t' w' :
  ths !! i = Some t -> exec t w = Ok (t', w') -> loop_step (w, ths) (w', <[i := t']> ths).
Proof.
  intros Hi Hex. rewrite insert_take_drop by (by eapply lookup_lt_Some).
  rewrite <- (take_drop_middle ths i t Hi) at 1. by constructor.
Qed.

Lemma call_loop_step w ths i t t' w' :
  ths !! i = Some t -> client_code (at_point t) = true -> client ths w t w' t' ->
  loop_step (w, ths) (w', <[i := t']> ths).
Proof.
  intros Hi Hc Hcl. rewrite insert_take_drop by (by eapply lookup_lt_Some).
  rewrite <- (take_drop_middle ths i t Hi) in Hcl. rewrite <- (take_drop_middle ths i t Hi) at 1. by apply step_client.
Qed.

Lemma notify_loop_step w ths i tq :
  ths !! i = Some (mk_thread None Wait tq) -> loop_step (w, ths) (w, <[i := mk_thread None Handler tq]> ths).
Proof.
  intros Hi. rewrite insert_take_drop by (by eapply lookup_lt_Some).
  rewrite <- (take_drop_middle ths i _ Hi) at 1. apply step_notify.
Qed.

Lemma reachable_step w ths w' ths' : reachable w ths -> loop_step (w, ths) (w', ths') -> reachable w' ths'.
Proof. intros Hr Hs. eapply reachable_steps; [exact Hr|]. by apply rtc_once. Qed.

Lemma life_steps lw cs lw' cs' : life width lw cs -> rtc life_step (lw, cs) (lw', cs') -> life width lw' cs'.
Proof. intros [Hw Hr] Hs. split; [done|]. by etransitivity. Qed.

Lemma life_once lw cs lw' cs' :
  life width lw cs -> worker_step (lw, cs) (lw', cs') \/ outside_step (lw, cs) (lw', cs') -> refs_bounded lw' ->
  life width lw' cs'.
Proof. intros Hl Hs Hb. eapply life_steps; [exact Hl|]. apply rtc_once. by split. Qed.

(** The work that the code around this part holds is what no barrier has lent. *)
Lemma whole_tokens s :
  whole_inv n width s ->
  Z.of_nat (lp_tokens (lp (wh_life s))) = work_cnt (wh_queues s) - Z.of_nat (total works (wh_calls s)).
Proof.
  intros Hi. destruct (life_reach _ _ _ (wi_life _ _ _ Hi)) as [Hl _].
  pose proof (lv_work _ _ Hl) as Hw. rewrite (wi_work _ _ _ Hi) in Hw. lia.
Qed.

(** A thread that leaves work holds some. *)
Lemma leaving_tokens s i t :
  whole_inv n width s -> wh_threads s !! i = Some t -> leaving t = 1%nat -> (0 < lp_tokens (lp (wh_life s)))%nat.
Proof.
  intros Hi Ht Hl. pose proof (whole_tokens s Hi) as Htok. pose proof (wi_lent _ _ _ Hi) as Hlent.
  pose proof (i_work _ _ (loop_reachable_inv _ _ (wi_queues _ _ _ Hi))) as Hw.
  pose proof (total_elem leaving _ t (list_elem_of_lookup_2 _ _ _ Ht)) as Hle. lia.
Qed.

Lemma scheduled_started lw i t : scheduled n lw i t -> Worker.started lw.
Proof.
  unfold scheduled. case_decide; [done|]. unfold serving, in_local_task.
  intros [Hs|[Hs _]]; destruct (wks lw !! (i - n)%nat) as [x|] eqn:Hx; try done;
    apply bool_decide_eq_true in Hs; exists (i - n)%nat, x; by rewrite Hs.
Qed.

(** Leaving work is two steps of [Worker]. *)
Lemma leave_life lw cs c lw' :
  life width lw cs -> Worker.started lw -> (0 < lp_tokens (lp lw))%nat -> leave_work lw = Ok (c, lw') ->
  refs_bounded lw' -> life width lw' (option_list c ++ cs) /\
  lp_work_cnt (lp lw') = lp_work_cnt (lp lw) - 1 /\ lp_width (lp lw') = lp_width (lp lw) /\ same_service lw lw' /\
  total works (option_list c) = 0%nat /\ (CLeave ∉ option_list c).
Proof.
  intros Hl Hst Ht Hex Hb. destruct (life_reach _ _ _ Hl) as [Hinv [Hb1 Hb2]].
  pose proof (lv_work _ _ Hinv) as Hwk. split.
  - eapply life_steps; [exact Hl|]. eapply rtc_l.
    + split; [right; by apply outside_leave|]. split; [exact Hb1|exact Hb2].
    + eapply rtc_once. split; [left|exact Hb]. apply (step_caller _ [] CLeave). exact Hex.
  - unfold leave_work, Worker.ntt_loop_work_leave in Hex.
    apply bind_inv_ok in Hex as (l & ->%get_loop_inv & Hr). apply bind_inv_ok in Hr as (u & _ & [= <- <-]).
    simpl. unfold SIZE_MAX in Hb1. rewrite u64_small by lia. split_and!; try done; try lia.
    + by destruct (_ =? 1).
    + destruct (_ =? 1); [by intros ?%list_elem_of_singleton|apply not_elem_of_nil].
Qed.

(** The thread [i] has moved. *)
Lemma threads_update lw lw' ths i t' :
  (forall j t, (j < n)%nat -> ths !! j = Some t -> outsider_ok t) ->
  (forall k t, ths !! (n + k)%nat = Some t -> pool_ok lw k t) ->
  ((i < n)%nat -> outsider_ok t') ->
  (forall k, i = (n + k)%nat -> pool_ok lw' k t') ->
  (forall k, i <> (n + k)%nat -> serving lw' k = serving lw k /\ in_local_task lw' k = in_local_task lw k) ->
  (forall j t, (j < n)%nat -> <[i := t']> ths !! j = Some t -> outsider_ok t) /\
  (forall k t, <[i := t']> ths !! (n + k)%nat = Some t -> pool_ok lw' k t).
Proof.
  intros Ho Hp Ho' Hp' Hs. split.
  - intros j t Hj [(-> & <- & _)|[Hne Ht]]%list_lookup_insert_Some; [by apply Ho'|by eapply Ho].
  - intros k t [(-> & <- & _)|[Hne Ht]]%list_lookup_insert_Some; [by apply Hp'|].
    eapply pool_ok_same; [by apply Hs|by apply Hp].
Qed.

(** ** The steps *)
Lemma svc_leave_cases x t t' :
  worker_svc_leave x t = Some t' ->
  t' = t /\ wk_point x <> WSvc /\ (wk_point x = WRun -> in_call t = None) \/
  wk_point x = WSvc /\ exists tq, t = mk_thread None Wait tq /\ t' = mk_thread None Handler tq.
Proof.
  unfold worker_svc_leave. destruct t as [c p tq]. simpl. destruct (wk_point x) eqn:Hp; try (by intros [= <-]; left).
  - destruct c; [done|]. destruct p; try done. intros [= <-]. right. eauto.
  - destruct c; [done|]. intros [= <-]. by left.
Qed.

Lemma exec_thread_cases t w lw t' w' c lw' :
  exec_thread t w lw = Ok (t', w', c, lw') ->
  exec t w = Ok (t', w') /\
  (in_call t <> Some WorkLeave /\ leaving t = 0%nat /\ c = None /\ lw' = lw \/
   in_call t = Some WorkLeave /\ leaving t = 1%nat /\ leave_work lw = Ok (c, lw')).
Proof.
  unfold exec_thread. intros ([t1 w1] & -> & Hr)%bind_inv_ok. destruct t as [[[]|] p tq]; simpl in *;
    try (injection Hr as -> -> <- <-; split; [done|]; by left).
  apply bind_inv_ok in Hr as ([c1 lw1] & Hlv & [= -> -> -> ->]). split; [done|]. by right.
Qed.

Lemma lib_thread_inv w ths lw cs i t t' w' c lw' :
  whole_inv n width (mk_whole w ths lw cs) -> ths !! i = Some t -> scheduled n lw i t ->
  exec_thread t w lw = Ok (t', w', c, lw') -> refs_bounded lw' ->
  whole_inv n width (mk_whole w' (<[i := t']> ths) lw' (option_list c ++ cs)).
Proof.
  intros Hi Ht Hsch Hex Hb. pose proof Hi as [Iq Il Iw Ilv Ilt Iln Io Ip]. simpl in *.
  destruct (exec_thread_cases _ _ _ _ _ _ _ Hex) as [Hex' Hcase].
  pose proof (reachable_step _ _ _ _ Iq (thread_loop_step _ _ _ _ _ _ Ht Hex')) as Iq'.
  destruct Hcase as [(Hne & _ & -> & ->)|(Hc & Hl & Hlv)].
  2:{ destruct t as [cl p tq]. simpl in Hc. subst cl. pose proof (leaving_tokens _ _ _ Hi Ht Hl) as Htok.
    destruct (leave_life lw cs c lw' Il (scheduled_started _ _ _ Hsch) Htok Hlv Hb) as (Hlf & Hwk & Hwd & Hsv & Hz & Hnl).
    apply leave_frame in Hex' as (-> & Hw' & Ho' & _).
    destruct (threads_update lw lw' ths i (mk_thread None p tq) Io Ip) as [Io' Ip'].
    { intros Hin. destruct (Io _ _ Hin Ht) as [Hp _]. by split. }
    { intros k ->. destruct (Ip _ _ Ht) as [H1 H2]. split; [done|]. destruct (Hsv k) as [-> ->]. intros Hs.
      destruct (H2 Hs) as [Hp _]. by split. }
    { intros k _. apply Hsv. }
    split; simpl; try done; [lia| |rewrite total_app, Hz, Ho'; done|rewrite length_insert; congruence].
    rewrite elem_of_app. tauto. }
  destruct (thread_exec_frame _ _ _ _ Hex' Hne) as (Hw & Hot & _ & Hin & Hcall & Hout).
    destruct (threads_update lw lw ths i t' Io Ip) as [Io' Ip'].
    { intros Hlt. destruct (Io _ _ Hlt Ht) as [Hp Hlc]. by apply Hout. }
    { intros k ->. destruct (Ip _ _ Ht) as [H1 H2]. split; [by rewrite Hin|]. intros Hs. destruct (H2 Hs) as [Hp Hnc].
      unfold scheduled in Hsch. rewrite decide_False in Hsch by lia. replace (n + k - n)%nat with k in Hsch by lia.
      destruct Hsch as [?|[Hlt Hc]]; [congruence|]. destruct (Hcall Hc) as [-> _]. split; [done|congruence]. }
    { done. }
    split; simpl; try done; [by rewrite Hw|by rewrite Hot|by rewrite length_insert].
Qed.

Lemma lib_worker_inv w ths lw cs k x t t' c lw' :
  whole_inv n width (mk_whole w ths lw cs) -> wks lw !! k = Some x -> ths !! (n + k)%nat = Some t ->
  worker_svc_leave x t = Some t' -> life width lw' (option_list c ++ cs) -> step_frame k lw lw' ->
  total works (option_list c) = 0%nat -> (CLeave ∉ option_list c) ->
  whole_inv n width (mk_whole w (<[(n + k)%nat := t']> ths) lw' (option_list c ++ cs)).
Proof.
  intros [Iq Il Iw Ilv Ilt Iln Io Ip] Hk Ht Hsv Hl' (Hot & Hwk & Hwd) Hz Hnl. simpl in *.
  destruct (Ip _ _ Ht) as [H1 H2].
  assert (Ht' : in_call t' = None /\ (at_point t' = Handler \/ at_point t' = Top Unlimited) /\
    reachable w (<[(n + k)%nat := t']> ths)).
  { destruct (svc_leave_cases _ _ _ Hsv) as [(-> & Hns & Hrun)|(Hs & tq & -> & ->)].
    - assert (Hnsv : serving lw k = false) by (unfold serving; rewrite Hk; by apply bool_decide_eq_false).
      destruct (H2 Hnsv) as [Hp Hc]. rewrite list_insert_id by done. split_and!; try done.
      destruct (decide (wk_point x = WRun)) as [Hr|Hr]; [by apply Hrun|]. apply Hc. unfold in_local_task. rewrite Hk.
      by apply bool_decide_eq_false.
    - split_and!; [done|by left|]. eapply reachable_step; [exact Iq|]. by apply notify_loop_step. }
  destruct Ht' as (Hc' & Hp' & Iq').
  destruct (threads_update lw lw' ths (n + k)%nat t' Io Ip) as [Io' Ip'].
  { lia. }
  { intros j Hj. split; [by destruct Hp' as [-> | ->]|]. by intros _. }
  { intros j Hj. apply Hot. lia. }
  split; simpl; try done; [congruence| |rewrite total_app; lia|rewrite length_insert; congruence].
  rewrite elem_of_app. tauto.
Qed.

(** A step that moves no thread. *)
Lemma still_inv w ths lw cs w' lw' cs' :
  whole_inv n width (mk_whole w ths lw cs) -> reachable w' ths -> life width lw' cs' -> same_service lw lw' ->
  lp_work_cnt (lp lw') = work_cnt w' -> lp_width (lp lw') = lp_width (lp lw) ->
  (CLeave ∉ cs') -> (total works cs' <= other_work w')%nat -> whole_inv n width (mk_whole w' ths lw' cs').
Proof.
  intros [Iq Il Iw Ilv Ilt Iln Io Ip] Hq Hl Hs Hwk Hwd Hnl Hlt. simpl in *. split; simpl; try done; [congruence|].
  intros k t Ht. eapply pool_ok_same; [apply Hs|by apply Ip].
Qed.

Lemma library_step_inv s s' :
  whole_inv n width s -> library_step n s s' -> refs_bounded (wh_life s') -> whole_inv n width s'.
Proof.
  intros Hi Hs Hb. destruct Hs as [w ths lw cs i t t' w' c lw' Ht Hsch _ Hex|w ths lw cs k x t t' c lw' Hk Hr Ht Hsv Hex|
    w ths lw l1 c l2 c' lw' Hex|w ths lw cs lw' Ha H0 Hj Hex]; simpl in Hb.
  - by eapply lib_thread_inv.
  - destruct (worker_frame _ _ _ _ _ Hk Hex) as (Hf & Hz & Hnl).
    eapply lib_worker_inv; try done. eapply life_once; [exact (wi_life _ _ _ Hi)| |done]. left. by eapply step_worker.
  - pose proof Hi as [Iq Il Iw Ilv Ilt Iln Io Ip]. simpl in *. rewrite elem_of_app, elem_of_cons in Ilv.
    destruct (caller_frame lw c c' lw') as ((Hsv & Hwk & Hwd) & Hle & Hnl); [naive_solver|done|].
    eapply still_inv; [exact Hi|done| |done|congruence|done| |].
    + eapply life_once; [exact Il| |done]. left. by apply step_caller.
    + rewrite !elem_of_app. naive_solver.
    + rewrite total_app, total_cons in Ilt. rewrite !total_app. lia.
  - pose proof Hi as [Iq Il Iw Ilv Ilt Iln Io Ip]. simpl in *. pose proof (end_frame _ _ Hex) as (Hsv & Hwk & Hwd).
    eapply still_inv; [exact Hi|done| |done|congruence|done|done|done].
    eapply life_once; [exact Il| |done]. left. by apply step_end.
Qed.

Lemma work_enter_frame lw lw' :
  Worker.ntt_loop_work_enter lw = Ok lw' -> 0 <= lp_work_cnt (lp lw) < SIZE_MAX ->
  lp_work_cnt (lp lw') = lp_work_cnt (lp lw) + 1 /\ lp_width (lp lw') = lp_width (lp lw) /\ same_service lw lw'.
Proof.
  unfold Worker.ntt_loop_work_enter, SIZE_MAX. intros (l & ->%get_loop_inv & Hr)%bind_inv_ok Hb.
  apply bind_inv_ok in Hr as (u & _ & [= <-]). simpl. rewrite u64_small by lia. by split_and!; [|..|apply same_service_refl].
Qed.

Lemma entered_work_inv w ths lw cs w' lw' :
  whole_inv n width (mk_whole w ths lw cs) -> Worker.started lw -> (0 < lp_tokens (lp lw))%nat ->
  Worker.ntt_loop_work_enter lw = Ok lw' -> refs_bounded lw' ->
  loop_step (w, ths) (w', ths) -> work_cnt w' = work_cnt w + 1 -> (other_work w <= other_work w')%nat ->
  whole_inv n width (mk_whole w' ths lw' cs).
Proof.
  intros Hi Hst Htok He Hb Hs Hw Ho. pose proof Hi as [Iq Il Iw Ilv Ilt Iln Io Ip]. simpl in *.
  destruct (life_reach _ _ _ Il) as [Hinv [Hb1 _]]. pose proof (lv_work _ _ Hinv).
  destruct (work_enter_frame _ _ He) as (Hwk & Hwd & Hsv); [lia|].
  eapply still_inv; [exact Hi|by eapply reachable_step| |done|lia|done|done|lia].
  eapply life_once; [exact Il| |done]. right. by apply outside_enter.
Qed.

Lemma around_worker_leave lw cs lw' cs' :
  outside_step (lw, cs) (lw', cs') -> lp lw' = lp lw -> (CLeave ∉ cs) -> CLeave ∉ cs'.
Proof.
  intros Hs Hlp Hn. inversion Hs; subst; try done; rewrite not_elem_of_cons; split; try done.
  - exfalso. apply (f_equal lp_tokens) in Hlp. simpl in Hlp. lia.
  - unfold ntt_loop_push_barrier in *. match goal with Hp : _ = Ok (_, lw') |- _ => apply bind_inv_ok in Hp as (l & _ & [= <- _]) end. done.
Qed.

Lemma around_step_inv s s' :
  whole_inv n width s -> around_step n s s' -> refs_bounded (wh_life s') -> whole_inv n width s'.
Proof.
  intros Hi Hs Hb. pose proof Hi as [Iq Il Iw Ilv Ilt Iln Io Ip].
  destruct Hs as [w ths lw cs i t t' w' Ht Hmay Hcc Hcl Hlv|w ths lw cs q w' lw' Hst Htok Hq Hc He|
    w ths lw cs w' lw' Hst Htok Hc He|w ths lw cs k tq Ht Hsv|w ths lw cs c lw' Hst Hlt He|
    w ths lw cs k x t t' Hk Hp Ht Hsl|w ths lw cs lw' cs' Hos Hlp Hwk Hsv]; simpl in *.
  - destruct (client_frame _ _ _ _ _ Hcl) as (Hw & Hp & Ho & Hlc).
    pose proof (loop_reachable_inv _ _ Iq) as Hinv. pose proof (i_threads _ _ Hinv) as Hths.
    destruct (threads_update lw lw ths i t' Io Ip) as [Io' Ip'].
    { intros Hin. destruct (Io _ _ Hin Ht) as [Hpo _]. split; [congruence|]. apply Hlc.
      rewrite Forall_lookup in Hths. rewrite (t_self _ _ (Hths _ _ Ht)), Hpo. done. }
    { intros k ->. destruct (Ip _ _ Ht) as [H1 H2]. split; [by rewrite Hp|]. intros Hs. destruct (H2 Hs) as [Hpt _].
      unfold may_call in Hmay. rewrite decide_False in Hmay by lia. replace (n + k - n)%nat with k in Hmay by lia.
      rewrite Hp. split; [done|]. destruct Hmay; congruence. }
    { done. }
    split; simpl; try done; [|congruence| |by rewrite length_insert].
    + eapply reachable_step; [exact Iq|]. by eapply call_loop_step.
    + unfold leaving in Ho. destruct (in_call t') as [[]|]; try (specialize (Hlv eq_refl)); lia.
  - eapply entered_work_inv; try done; [by apply (step_create _ _ q); [|pose proof (whole_tokens _ Hi) as Hto; simpl in Hto; lia|]|..];
      unfold Queue.ntt_queue_create_in, ntt_queue_init, Queue.ntt_loop_work_enter in Hc;
      apply bind_inv_ok in Hc as (u & _ & [= <-]); simpl; lia.
  - eapply entered_work_inv; try done; [apply step_work; [pose proof (whole_tokens _ Hi) as Hto; simpl in Hto; lia|done]|..];
      unfold Queue.ntt_loop_work_enter in Hc; apply bind_inv_ok in Hc as (u & _ & [= <-]); simpl; lia.
  - destruct (threads_update lw lw ths (n + k)%nat (mk_thread None Handler tq) Io Ip) as [Io' Ip']; [lia| |done|].
    { intros j Hj. split; [done|]. intros _. split; [by left|done]. }
    split; simpl; try done; [|by rewrite length_insert].
    eapply reachable_step; [exact Iq|]. by apply notify_loop_step.
  - pose proof (i_work _ _ (loop_reachable_inv _ _ Iq)) as Hw. pose proof (whole_tokens _ Hi) as Hto. simpl in Hto.
    assert (Hl' : life width lw' (c :: cs)).
    { eapply life_once; [exact Il| |done]. right. apply outside_barrier; [done|lia|done]. }
    unfold ntt_loop_push_barrier in He. apply bind_inv_ok in He as (l & ->%get_loop_inv & [= <- <-]).
    eapply still_inv; [exact Hi|done|exact Hl'|by apply same_service_refl|done|done| |rewrite total_cons; simpl; lia].
    by rewrite not_elem_of_cons.
  - apply (lib_worker_inv w ths lw cs k x t t' None); try done; [| |apply not_elem_of_nil].
    + eapply life_once; [exact Il| |done]. right. by apply outside_interrupt.
    + apply step_frame_set. by apply call_frame_refl.
  - eapply still_inv; [exact Hi|done| |done|by rewrite Hlp|by rewrite Hlp|by eapply around_worker_leave|lia].
    eapply life_once; [exact Il| |done]. by right.
Qed.

Lemma whole_start_inv task w :
  (0 < n)%nat -> 0 <= width < 2 ^ 32 -> start_queue loop_queues 0 task = Ok w -> whole_inv n width (whole_start n width w).
Proof.
  intros Hn Hw. rewrite start_queue_ok. intros [= <-].
  assert (Hwk : forall k t, (replicate n outsider ++ replicate (Z.to_nat (ntt_loop_clamp_width width)) worker) !! (n + k)%nat = Some t -> t = worker).
  { intros k t. rewrite lookup_app_r by (rewrite length_replicate; lia). by intros [-> _]%lookup_replicate. }
  split; simpl; try done.
  - destruct n as [|m]; [lia|]. simpl. eexists. split; [|apply start_queue_steps].
    + constructor; [by right|]. apply Forall_app. split; apply Forall_replicate; [by right|by left].
    + rewrite total_app. assert (Hz : forall (f : thread -> nat) j y, f y = 0%nat -> total f (replicate j y) = 0%nat).
      { intros f j y Hy. induction j as [|j IH]; [done|]. cbn [replicate]. by rewrite total_cons, Hy. }
      by rewrite !Hz.
  - apply not_elem_of_nil.
  - by rewrite length_app, !length_replicate.
  - intros i t Hi. rewrite lookup_app_l by (by rewrite length_replicate). intros [-> _]%lookup_replicate. done.
  - intros k t ->%Hwk. split; [done|]. intros _. split; [by right|done].
Qed.

Lemma whole_reachable_inv task s : whole_reachable n task width s -> whole_inv n width s.
Proof.
  intros (Hn & Hw & w & Hst & Hs).
  apply (rtc_ind_r (whole_inv n width) (whole_start n width w)) in Hs; [done|by eapply whole_start_inv|].
  intros s1 s2 _ [[Hl|Ha] Hb] Hi; [by eapply library_step_inv|by eapply around_step_inv].
Qed.
End inv.
