(* ===== verification/LoopWholeProps.v ===== *)
(** * Queues and workers in one run: properties

    A loop ends when, and only when, all it was given has been done. *)

From stdpp Require Import base numbers list gmap relations.
From Stdlib Require Import ZArith Lia.
From S2P Require Import Prelude.
From S2P Require Import Worker.
From S2P Require Import WorkerInv.
From S2P Require Import WorkerSteps.
From S2P Require Import WorkerCallers.
From S2P Require Import WorkerRest.
From S2P Require Import WorkerLive.
From S2P Require Import WorkerProps.
From S2P Require Import Queue.
From S2P Require Import QueueInv.
From S2P Require Import QueueSteps.
From S2P Require Import QueueRest.
From S2P Require Import QueueProps.
From S2P Require Import Executor.
From S2P Require Import QueueRefine.
From S2P Require Import LoopStart.
From S2P Require Import LoopWhole.
From S2P Require Import LoopWholeInv.

#[local] Open Scope Z_scope.

Section props.
Context `{Platform} (n : nat) (width : Z).
Implicit Types (w : Queue.ntt_loop) (lw : lworld) (cs : list caller) (t : thread) (ths : list thread) (s : whole).

(** ** No step is stuck *)
Lemma exec_thread_total w ths lw cs i t :
  whole_inv n width (mk_whole w ths lw cs) -> ths !! i = Some t -> scheduled n lw i t ->
  exists r, exec_thread t w lw = Ok r.
Proof.
  intros Hi Ht Hsch. pose proof (loop_reachable_inv _ _ (wi_queues _ _ _ Hi)) as Hinv. simpl in Hinv.
  destruct (exec_total w t (take i ths ++ drop (S i) ths)) as [[t' w'] Hex].
  { eapply loop_inv_perm; [|exact Hinv]. rewrite <- (take_drop_middle ths i t Ht) at 1. by rewrite <- Permutation_middle. }
  unfold exec_thread. rewrite Hex, bind_ok. destruct (in_call t) as [[]|] eqn:Hc; eauto.
  destruct (life_reach _ _ _ (wi_life _ _ _ Hi)) as [Hlf Hb]. simpl in Hlf, Hb.
  assert (Htok : (0 < lp_tokens (lp lw))%nat)
    by (apply (leaving_tokens n width _ _ _ Hi Ht); unfold leaving; by rewrite Hc).
  pose proof (outside_leave_ok lw cs Hlf (scheduled_started _ _ _ _ Hsch) Htok) as Hlf'.
  destruct (returns_exists _ _ (exec_caller_no_die CLeave _) (caller_exec_ok _ _ _ Hlf' Hb)) as [[c lw'] He].
  exists (t', w', c, lw'). unfold leave_work. cbn [exec_caller] in He. by rewrite He, bind_ok.
Qed.

(** ** Termination *)
Lemma library_bounded s s' : whole_inv n width s -> library_step n s s' -> refs_bounded (wh_life s').
Proof.
  intros Hi Hs. destruct (life_reach _ _ _ (wi_life _ _ _ Hi)) as [Hlf Hb].
  destruct Hs as [w ths lw cs i t t' w' c lw' Ht Hsch _ Hex|w ths lw cs k x t t' c lw' Hk Hr Ht Hsv Hex|
    w ths lw l1 c l2 c' lw' Hex|w ths lw cs lw' Ha H0 Hj Hex]; simpl in *.
  - destruct (exec_thread_cases _ _ _ _ _ _ _ Hex) as [_ [(_ & _ & _ & ->)|(_ & Hl & Hlv)]]; [done|].
    pose proof (leaving_tokens n width _ _ _ Hi Ht Hl) as Htok.
    pose proof (outside_leave_ok lw cs Hlf (scheduled_started _ _ _ _ Hsch) Htok) as Hlf'.
    by eapply (call_bounded _ cs CLeave).
  - exact (worker_step_bounded (lw, cs) _ Hlf Hb (step_worker lw cs k x c lw' Hk Hr Hex)).
  - exact (worker_step_bounded (lw, l1 ++ c :: l2) _ Hlf Hb (step_caller lw l1 c l2 c' lw' Hex)).
  - exact (worker_step_bounded (lw, cs) _ Hlf Hb (step_end lw cs lw' Ha H0 Hj Hex)).
Qed.

Definition stage s : nat := to_leave (wh_queues s) (wh_threads s).
Definition life_left s : nat := life_measure (wh_life s, wh_calls s).
Definition tasks_cost s : nat := potential (wh_queues s) (wh_threads s).

Lemma thread_potential w ths i t t' w' :
  loop_inv w ths -> ths !! i = Some t -> exec t w = Ok (t', w') -> ~ resting w t ->
  (potential w' (<[i := t']> ths) < potential w ths)%nat.
Proof.
  intros Hinv Hi Hex Hr. rewrite insert_take_drop by (by eapply lookup_lt_Some).
  pose proof (take_drop_middle ths i t Hi) as Hm. rewrite <- Hm in Hinv.
  assert (Hs : quiet_step (w, take i ths ++ t :: drop (S i) ths) (w', take i ths ++ t' :: drop (S i) ths)) by (by constructor).
  pose proof (proj2 (loop_quiet_potential _ _ _ _ Hinv Hs)) as Hlt. by rewrite Hm in Hlt.
Qed.

(** A step lowers the number of queues whose work is to be left, or else what the
    workers can still do, or else what the queues can. *)
Lemma library_measure s s' :
  whole_inv n width s -> library_step n s s' ->
  (stage s' < stage s)%nat \/
  stage s' = stage s /\ ((life_left s' < life_left s)%nat \/
    life_left s' = life_left s /\ (tasks_cost s' < tasks_cost s)%nat).
Proof.
  intros Hi Hs. destruct (life_reach _ _ _ (wi_life _ _ _ Hi)) as [Hlf Hb].
  pose proof (loop_reachable_inv _ _ (wi_queues _ _ _ Hi)) as Hinv.
  destruct Hs as [w ths lw cs i t t' w' c lw' Ht Hsch Hnr Hex|w ths lw cs k x t t' c lw' Hk Hr Ht Hsv Hex|
    w ths lw l1 c l2 c' lw' Hex|w ths lw cs lw' Ha H0 Hj Hex]; unfold stage, life_left, tasks_cost, to_leave; simpl in *.
  - destruct (exec_thread_cases _ _ _ _ _ _ _ Hex) as [Hex' Hcase].
    pose proof (total_insert leaving ths i t t' Ht) as Htot. destruct Hcase as [(Hc & Hl & -> & ->)|(Hc & Hl & _)].
    + pose proof (thread_potential _ _ _ _ _ _ Hinv Ht Hex' Hnr) as Hpot.
      destruct (thread_exec_frame _ _ _ _ Hex' Hc) as (_ & _ & Hle & _).
      destruct (decide (size (queues w') + total leaving (<[i:=t']> ths) = size (queues w) + total leaving ths)%nat);
        [right; split; [done|]; right; by split|left; lia].
    + left. destruct t as [cl p tq]. simpl in Hc. subst cl. apply leave_frame in Hex' as (-> & _ & _ & ->). simpl in Htot. lia.
  - right. pose proof (total_insert leaving ths (n + k)%nat t t' Ht) as Htot.
    assert (leaving t' = leaving t) by (destruct (svc_leave_cases _ _ _ Hsv) as [(-> & _)|(_ & tq & -> & ->)]; done).
    split; [lia|]. left. exact (worker_step_cost (lw, cs) _ Hlf (step_worker lw cs k x c lw' Hk Hr Hex)).
  - right. split; [done|]. left. exact (worker_step_cost (lw, l1 ++ c :: l2) _ Hlf (step_caller lw l1 c l2 c' lw' Hex)).
  - right. split; [done|]. left. exact (worker_step_cost (lw, cs) _ Hlf (step_end lw cs lw' Ha H0 Hj Hex)).
Qed.

Lemma library_terminates s : whole_inv n width s -> sn (library_step n) s.
Proof.
  remember (stage s) as m eqn:Em. revert s Em. induction m as [m IHm] using lt_wf_ind. intros s.
  remember (life_left s) as l eqn:El. revert s El. induction l as [l IHl] using lt_wf_ind. intros s.
  remember (tasks_cost s) as p eqn:Ep. revert s Ep. induction p as [p IHp] using lt_wf_ind.
  intros s Ep El Em Hi. constructor. intros s' Hs. simpl in Hs.
  pose proof (library_step_inv _ _ _ _ Hi Hs (library_bounded _ _ Hi Hs)) as Hi'.
  destruct (library_measure _ _ Hi Hs) as [Hlt|[Hm [Hlt|[Hl Hlt]]]].
  - by apply (IHm (stage s') ltac:(lia) s').
  - by apply (IHl (life_left s') ltac:(lia) s' eq_refl ltac:(congruence)).
  - by apply (IHp (tasks_cost s') ltac:(lia) s' eq_refl ltac:(congruence) ltac:(congruence)).
Qed.

(** ** At rest *)
Definition at_rest s : Prop := forall s', ~ library_step n s s'.

Lemma rest_thread w ths lw cs i t :
  whole_inv n width (mk_whole w ths lw cs) -> at_rest (mk_whole w ths lw cs) -> ths !! i = Some t ->
  scheduled n lw i t -> resting w t.
Proof.
  intros Hi Hr Ht Hs. destruct (decide (resting w t)) as [?|Hnr]; [done|]. exfalso.
  destruct (exec_thread_total _ _ _ _ _ _ Hi Ht Hs) as [[[[t' w'] c] lw'] Hex].
  exact (Hr _ (lib_thread n _ _ _ cs _ _ _ _ _ _ Ht Hs Hnr Hex)).
Qed.

Lemma pool_lookup w ths lw cs k x :
  whole_inv n width (mk_whole w ths lw cs) -> wks lw !! k = Some x -> exists t, ths !! (n + k)%nat = Some t.
Proof.
  intros Hi Hk. destruct (life_reach _ _ _ (wi_life _ _ _ Hi)) as [Hlf _]. apply lookup_lt_Some in Hk.
  apply lookup_lt_is_Some_2. pose proof (lv_length _ _ Hlf). pose proof (wi_length _ _ _ Hi). simpl in *. lia.
Qed.

Lemma scheduled_pool lw k t :
  serving lw k = true \/ in_local_task lw k = true /\ in_call t <> None -> scheduled n lw (n + k) t.
Proof.
  unfold scheduled. rewrite decide_False by lia. by replace (n + k - n)%nat with k by lia.
Qed.

(** A worker that could make a step is not held up by its thread. *)
Lemma rest_quiet w ths lw cs :
  whole_inv n width (mk_whole w ths lw cs) -> at_rest (mk_whole w ths lw cs) -> WorkerLive.quiet (lw, cs).
Proof.
  intros Hi Hr s' Hs. remember (lw, cs) as s0 eqn:Es.
  destruct Hs as [lw0 cs0 k x c lw' Hk Hrd Hex|lw0 l1 c l2 c' lw' Hex|lw0 cs0 lw' Ha H0 Hj Hex]; injection Es as -> Ecs; subst.
  - destruct (pool_lookup _ _ _ _ _ _ Hi Hk) as [t Ht].
    destruct (worker_svc_leave x t) as [t'|] eqn:Hsv; [exact (Hr _ (lib_worker n _ _ _ _ _ _ _ _ _ _ Hk Hrd Ht Hsv Hex))|].
    destruct (wi_pool _ _ _ Hi k t Ht) as [Hin _].
    assert (Hsch : scheduled n lw (n + k) t /\ ~ resting w t).
    { unfold worker_svc_leave in Hsv. unfold resting. destruct (wk_point x) eqn:Hp; try done.
      - split; [apply scheduled_pool; left; unfold serving; rewrite Hk; by apply bool_decide_eq_true|].
        intros [Hc [Ho|[Hw _]]]; [by rewrite Ho in Hin|]. by rewrite Hc, Hw in Hsv.
      - destruct (in_call t) as [cl|] eqn:Hc; [|done]. split; [|by intros [? _]].
        apply scheduled_pool. right. rewrite Hc. split; [|done]. unfold in_local_task. rewrite Hk. by apply bool_decide_eq_true. }
    destruct Hsch as [Hsch Hnr]. apply Hnr. by eapply rest_thread.
  - exact (Hr _ (lib_caller n _ _ _ _ _ _ _ _ Hex)).
  - exact (Hr _ (lib_end n _ _ _ _ _ Ha H0 Hj Hex)).
Qed.

(** At rest a worker has left, or all of them wait and so do the other threads. *)
Lemma rest_all w ths lw cs :
  whole_inv n width (mk_whole w ths lw cs) -> at_rest (mk_whole w ths lw cs) ->
  (exists k, gone_at lw k) \/
  (forall t, t ∈ ths -> resting w t) /\ (exists t, t ∈ ths /\ in_loop (at_point t) = true).
Proof.
  intros Hi Hr. destruct (life_reach _ _ _ (wi_life _ _ _ Hi)) as [Hlf Hb]. simpl in Hlf, Hb.
  pose proof (rest_quiet _ _ _ _ Hi Hr) as Hq. pose proof (lv_width _ _ Hlf) as [Hw1 _]. pose proof (lv_length _ _ Hlf) as Hlen.
  destruct (decide (Exists (fun x => wk_point x = WGone) (wks lw))) as [Hg|Hg].
  { left. apply Exists_exists in Hg as (x & [k Hk]%list_elem_of_lookup_1 & Hp). by exists k, x. }
  right. assert (Hsvc : forall k, (k < lp_width (lp lw))%nat -> serving lw k = true).
  { intros k Hk. destruct (lookup_lt_is_Some_2 (wks lw) k) as [x Hx]; [lia|]. unfold serving. rewrite Hx.
    apply bool_decide_eq_true. destruct (quiet_point _ _ Hlf Hb Hq k x Hx) as [[Hp _]|Hp]; [done|]. exfalso. apply Hg.
    apply Exists_exists. exists x. split; [by eapply list_elem_of_lookup_2|done]. }
  assert (Hst : Worker.started lw).
  { apply (scheduled_started n lw (n + 0) worker), scheduled_pool. left. apply Hsvc. lia. }
  split.
  - intros t [i Ht]%list_elem_of_lookup_1. eapply rest_thread; [exact Hi|exact Hr|exact Ht|].
    destruct (decide (i < n)%nat) as [Hlt|Hge]; [unfold scheduled; by rewrite decide_True|].
    apply lookup_lt_Some in Ht as Hil. pose proof (wi_length _ _ _ Hi) as Hln. simpl in Hln.
    replace i with (n + (i - n))%nat by lia. apply scheduled_pool. left. apply Hsvc. lia.
  - destruct (lookup_lt_is_Some_2 (wks lw) 0) as [x Hx]; [lia|].
    destruct (pool_lookup _ _ _ _ _ _ Hi Hx) as [t Ht]. exists t. split; [by eapply list_elem_of_lookup_2|].
    apply (wi_pool _ _ _ Hi 0%nat t Ht).
Qed.

(** ** What is left when there is no work *)
Lemma idle_queues w ths : reachable w ths -> work_cnt w = 0 -> queues w = ∅ /\ combine w = [] /\ other_work w = 0%nat.
Proof.
  intros Hinv%loop_reachable_inv Hz. rewrite (i_work _ _ Hinv) in Hz.
  assert (He : queues w = ∅) by (apply map_size_empty_iff; lia). split_and!; [done| |lia].
  destruct (combine w) as [|q l] eqn:Hc; [done|].
  destruct (in_use w ths q Hinv) as [x Hx]; [|by rewrite He in Hx].
  right. right. rewrite Hc. unfold count_in. rewrite total_cons. unfold QueueInv.one. rewrite decide_True by done. lia.
Qed.

Lemma gone_no_work w ths lw cs k :
  whole_inv n width (mk_whole w ths lw cs) -> gone_at lw k -> work_cnt w = 0.
Proof.
  intros Hi (x & Hk & Hp). destruct (life_reach _ _ _ (wi_life _ _ _ Hi)) as [Hlf _]. simpl in Hlf.
  pose proof (lv_worker _ _ Hlf k x Hk) as Hok.
  assert (Hs : wk_stopped x = true) by (apply (wo_gone _ _ _ _ _ _ Hok); by right).
  destruct (gone_facts lw cs k x Hlf Hk Hs) as (_ & _ & _ & Hcol & _).
  pose proof (wi_work _ _ _ Hi) as Hw. simpl in Hw. rewrite <- Hw. by apply (lv_collected _ _ Hlf).
Qed.

(** A thread that is no worker is in no call when nothing is left. *)
Lemma idle_outsider w ths i t :
  reachable w ths -> work_cnt w = 0 -> ths !! i = Some t -> outsider_ok t -> in_call t = None.
Proof.
  intros Hr Hz Ht [Hp Hl]. destruct (idle_queues _ _ Hr Hz) as (He & _ & _).
  pose proof (loop_reachable_inv _ _ Hr) as Hinv. pose proof (list_elem_of_lookup_2 _ _ _ Ht) as Hin.
  assert (Hno : forall q, hold q t = 0%nat /\ dying q t = 0%nat).
  { intros q. pose proof (total_elem (hold q) ths t Hin). pose proof (total_elem (dying q) ths t Hin).
    pose proof (i_queues _ _ Hinv q) as Hq. unfold queue_inv in Hq. rewrite He, lookup_empty in Hq. simpl in Hq. lia. }
  pose proof (total_elem leaving ths t Hin) as Hlv. pose proof (i_work _ _ Hinv) as Hw.
  destruct t as [[c|] p tq]; [exfalso|done]. simpl in Hp, Hl, Hlv. subst p.
  destruct c as [q task own|q own|q own|q own|q own|q|q|]; simpl in *; try subst own; try lia;
    destruct (Hno q) as [Hh Hd]; simpl in Hh, Hd; rewrite ?one_same in *; lia.
Qed.

Lemma no_queue_done w ths q : reachable w ths -> queues w = ∅ -> runs_of q (log w) = pushed q (log w).
Proof.
  intros Hinv%loop_reachable_inv He. pose proof (i_queues _ _ Hinv q) as Hq. unfold queue_inv in Hq.
  rewrite He, lookup_empty in Hq. by destruct Hq as (_ & _ & _ & _ & _ & ->).
Qed.

(** Without references from outside a queue at rest is gone. *)
Lemma rest_no_work w ths :
  loop_inv w ths -> (forall t, t ∈ ths -> resting w t) -> (exists t, t ∈ ths /\ in_loop (at_point t) = true) ->
  map_Forall (fun _ x => client_refs x = 0%nat) (queues w) -> other_work w = 0%nat -> work_cnt w = 0.
Proof.
  intros Hinv Hrest Hwk Hc Ho.
  pose proof (fun f => resting_total w ths f Hrest) as Hz.
  assert (He : queues w = ∅).
  { apply map_empty. intros q. destruct (queues w !! q) as [x|] eqn:Hx; [exfalso|done].
    pose proof (i_queues _ _ Hinv q) as Hq. unfold queue_inv in Hq. rewrite Hx in Hq. simpl in Hq.
    destruct (rest_done w ths Hinv Hrest Hwk q) as [_ Hnil]. rewrite (Hnil x Hx), (Hc q x Hx) in Hq.
    rewrite (Hz (hold q)), (Hz (dying q)) in Hq
      by (intros [c p tq] [Hcall Hp]; simpl in *; subst; destruct Hp as [-> |[-> _]]; done).
    destruct Hq as (Hr & Ht & Hd & _). rewrite decide_True in Ht by done. rewrite decide_True in Hd by lia. lia. }
  rewrite (i_work _ _ Hinv), He, map_size_empty, Ho.
  rewrite (Hz leaving) by (intros [c p tq] [Hcall Hp]; simpl in *; by subst). done.
Qed.

Lemma ends_without_work w ths lw cs :
  whole_inv n width (mk_whole w ths lw cs) -> WorkerLive.quiet (lw, cs) -> work_cnt w = 0 ->
  Forall (fun x => wk_clients x = 0%nat) (wks lw) ->
  queues w = ∅ /\ (forall q, drops_of q (log w) ≡ₚ pushed q (log w)) /\
  lp_alive (lp lw) = false /\ forall k, (k < lp_width (lp lw))%nat -> gone_at lw k.
Proof.
  intros Hi Hq Hz Hcl. destruct (life_reach _ _ _ (wi_life _ _ _ Hi)) as [Hlf Hb]. simpl in Hlf, Hb.
  pose proof (wi_queues _ _ _ Hi) as Hre. simpl in Hre. destruct (idle_queues _ _ Hre Hz) as (He & _ & _).
  split_and!; [done|intros q; eapply (task_life w ths q (log w)); [done|done|by rewrite He]|..];
    apply (quiet_end lw cs Hlf Hb Hq); try (by rewrite Forall_lookup in Hcl);
    pose proof (whole_tokens _ _ _ Hi) as Ht; simpl in Ht; lia.
Qed.

(** ** Claims *)

(** C5.  A loop does all it was given and then ends.  The queues and the workers
    together take no more than finitely many steps by themselves, whatever the
    order of the threads.  When they cannot take another one, every queue has run
    every task pushed to it; and if the code around then holds no queue, no work and
    no worker, all queues are gone, every task was also dropped, every worker has
    left, and the loop was freed: [ntt_loop_run] has returned. *)
Theorem loop_run_completes task s :
  whole_reachable n task width s ->
  sn (library_step n) s /\
  (at_rest s ->
   (forall q, runs_of q (log (wh_queues s)) = pushed q (log (wh_queues s))) /\
   (map_Forall (fun _ x => client_refs x = 0%nat) (queues (wh_queues s)) -> other_work (wh_queues s) = 0%nat ->
    Forall (fun x => wk_clients x = 0%nat) (wks (wh_life s)) ->
    queues (wh_queues s) = ∅ /\
    (forall q, drops_of q (log (wh_queues s)) ≡ₚ pushed q (log (wh_queues s))) /\
    lp_alive (lp (wh_life s)) = false /\
    forall k, (k < lp_width (lp (wh_life s)))%nat -> gone_at (wh_life s) k)).
Proof.
  intros Hi%whole_reachable_inv. split; [by apply library_terminates|]. destruct s as [w ths lw cs]. simpl. intros Hr.
  pose proof (rest_quiet _ _ _ _ Hi Hr) as Hq. destruct (life_reach _ _ _ (wi_life _ _ _ Hi)) as [Hlf Hb]. simpl in Hlf, Hb.
  pose proof (wi_queues _ _ _ Hi) as Hre. simpl in Hre. pose proof (loop_reachable_inv _ _ Hre) as Hinv.
  destruct (rest_all _ _ _ _ Hi Hr) as [[k Hg]|[Hrest Hwk]].
  - pose proof (gone_no_work _ _ _ _ _ Hi Hg) as Hz. destruct (idle_queues _ _ Hre Hz) as (He & _ & _).
    split; [intros q; by apply (no_queue_done w ths)|]. intros _ _ Hcl. by apply (ends_without_work w ths lw cs).
  - pose proof (rest_done w ths Hinv Hrest Hwk) as Hd. split; [intros q; apply Hd|]. intros Hc Ho Hcl.
    apply (ends_without_work w ths lw cs); try done. by apply (rest_no_work w ths).
Qed.

(** C6.  No worker leaves, and the loop is not freed, before all is done: every queue
    is gone, every task that was pushed has been run and dropped, there is no work
    left; and no thread is then inside of a call of the library, but for those of
    workers that have not left yet. *)
Theorem loop_left_done task s :
  whole_reachable n task width s -> lp_alive (lp (wh_life s)) = false \/ (exists k, gone_at (wh_life s) k) ->
  queues (wh_queues s) = ∅ /\ combine (wh_queues s) = [] /\ work_cnt (wh_queues s) = 0 /\
  (forall q, runs_of q (log (wh_queues s)) = pushed q (log (wh_queues s)) /\
    drops_of q (log (wh_queues s)) ≡ₚ pushed q (log (wh_queues s))) /\
  (forall i t, wh_threads s !! i = Some t -> in_call t <> None ->
    exists k, i = (n + k)%nat /\ ~ gone_at (wh_life s) k /\ lp_alive (lp (wh_life s)) = true).
Proof.
  intros Hi%whole_reachable_inv Hor. destruct s as [w ths lw cs]. simpl in *.
  destruct (life_reach _ _ _ (wi_life _ _ _ Hi)) as [Hlf _]. simpl in Hlf. pose proof (lv_width _ _ Hlf) as [Hw1 _].
  assert (Hg : exists k, gone_at lw k).
  { destruct Hor as [Ha|?]; [|done]. exists 0%nat. by apply (lv_freed _ _ Hlf). }
  destruct Hg as [k0 Hg]. pose proof (gone_no_work _ _ _ _ _ Hi Hg) as Hz. pose proof (wi_queues _ _ _ Hi) as Hre. simpl in Hre.
  destruct (idle_queues _ _ Hre Hz) as (He & Hc & _). split_and!; try done.
  - intros q. split; [by apply (no_queue_done w ths)|]. eapply (task_life w ths q (log w)); [done|done|by rewrite He].
  - intros i t Ht Hcall. destruct (decide (i < n)%nat) as [Hlt|Hge].
    { exfalso. apply Hcall. eapply idle_outsider; [done|done|done|]. by apply (wi_outside _ _ _ Hi i). }
    apply lookup_lt_Some in Ht as Hil. pose proof (wi_length _ _ _ Hi) as Hln. simpl in Hln.
    exists (i - n)%nat. replace i with (n + (i - n))%nat in Ht by lia.
    assert (Hng : ~ gone_at lw (i - n)).
    { intros (x & Hx & Hp). apply Hcall. destruct (wi_pool _ _ _ Hi _ _ Ht) as [_ Hpool]. simpl in Hpool.
      apply Hpool; [unfold serving|unfold in_local_task]; rewrite Hx, Hp; done. }
    split_and!; [lia|done|]. destruct (lp_alive (lp lw)) eqn:Ha; [done|]. exfalso. apply Hng, (lv_freed _ _ Hlf); [done|lia].
Qed.
End props.

(** ** Running a schedule *)
Section play.
Context `{Platform} (n : nat).

Inductive wmove : Type :=
  | MoveThread (i : nat)
  | MoveWorker (k : nat)
  | MoveCall
  | MoveEnd.

Definition startedb (lw : lworld) : bool := existsb (fun x => entered (wk_point x)) (wks lw).

Definition scheduledb (lw : lworld) (i : nat) (t : thread) : bool :=
  if decide (i < n)%nat then startedb lw
  else serving lw (i - n) || in_local_task lw (i - n) && match in_call t with None => false | _ => true end.

Definition whole_play (m : wmove) (s : whole) : option whole :=
  let '(mk_whole w ths lw cs) := s in
  match m with
  | MoveThread i =>
      t ← ths !! i;
      if scheduledb lw i t && negb (bool_decide (resting w t)) then
        match exec_thread t w lw with
        | Ok (t', w', c, lw') => Some (mk_whole w' (<[i := t']> ths) lw' (option_list c ++ cs))
        | Err _ => None
        end
      else None
  | MoveWorker k =>
      x ← wks lw !! k; t ← ths !! (n + k)%nat; t' ← worker_svc_leave x t;
      if worker_ready x then
        match exec_worker lw k x with
        | Ok (c, lw') => Some (mk_whole w (<[(n + k)%nat := t']> ths) lw' (option_list c ++ cs))
        | Err _ => None
        end
      else None
  | MoveCall =>
      match cs with
      | [] => None
      | c :: cs =>
          match exec_caller c lw with
          | Ok (c', lw') => Some (mk_whole w ths lw' (option_list c' ++ cs))
          | Err _ => None
          end
      end
  | MoveEnd =>
      let gone k := match wks lw !! k with Some x => bool_decide (wk_point x = WGone) | None => false end in
      if lp_alive (lp lw) && gone 0%nat && ((lp_width (lp lw) <=? lp_joined (lp lw))%nat || gone (lp_joined (lp lw))) then
        match loop_end lw with Ok lw' => Some (mk_whole w ths lw' cs) | Err _ => None end
      else None
  end.

Fixpoint whole_plays (ms : list wmove) (s : whole) : option whole :=
  match ms with [] => Some s | m :: ms => s ← whole_play m s; whole_plays ms s end.

Lemma scheduledb_ok lw i t : scheduledb lw i t = true -> scheduled n lw i t.
Proof.
  unfold scheduledb, scheduled. case_decide.
  - unfold startedb. intros (x & Hx & He)%existsb_exists. apply list_elem_of_In, list_elem_of_lookup_1 in Hx as [k Hk].
    by exists k, x.
  - intros [Hs|[Hs Hc]%andb_true_iff]%orb_true_iff; [by left|right]. split; [done|]. by destruct (in_call t).
Qed.

Lemma whole_play_step m s s' : whole_play m s = Some s' -> library_step n s s'.
Proof.
  destruct s as [w ths lw cs]. destruct m as [i|k| |]; simpl; intros Hp.
  - apply bind_Some in Hp as (t & Ht & Hp). destruct (_ && _) eqn:Hb; [|done].
    apply andb_true_iff in Hb as [Hs%scheduledb_ok Hr%negb_true_iff%bool_decide_eq_false].
    destruct (exec_thread t w lw) as [[[[t' w'] c] lw']|] eqn:Hex; [|done]. injection Hp as <-. by eapply lib_thread.
  - apply bind_Some in Hp as (x & Hk & Hp). apply bind_Some in Hp as (t & Ht & Hp). apply bind_Some in Hp as (t' & Hsv & Hp).
    destruct (worker_ready x) eqn:Hr; [|done]. destruct (exec_worker lw k x) as [[c lw']|] eqn:Hex; [|done].
    injection Hp as <-. by eapply lib_worker.
  - destruct cs as [|c cs]; [done|]. destruct (exec_caller c lw) as [[c' lw']|] eqn:Hex; [|done]. injection Hp as <-.
    by apply (lib_caller n w ths lw []).
  - assert (Hg : forall k, match wks lw !! k with Some x => bool_decide (wk_point x = WGone) | None => false end = true -> gone_at lw k).
    { intros k Hk. destruct (wks lw !! k) as [x|] eqn:Hx; [|done]. apply bool_decide_eq_true in Hk. by exists x. }
    destruct (_ && _) eqn:Hb; [|done]. apply andb_true_iff in Hb as [[Ha H0]%andb_true_iff Hj].
    destruct (loop_end lw) as [lw'|] eqn:Hex; [|done]. injection Hp as <-. apply lib_end; [done|by apply Hg| |done].
    intros Hlt. apply orb_true_iff in Hj as [Hj%Nat.leb_le|Hj]; [lia|by apply Hg].
Qed.

Lemma whole_plays_steps ms : forall s s', whole_plays ms s = Some s' -> rtc (library_step n) s s'.
Proof.
  induction ms as [|m ms IH]; intros s s' Heq; simpl in Heq; [by injection Heq as ->|].
  apply bind_Some in Heq as (s1 & Hp & Heq). eapply rtc_l; [by eapply whole_play_step|by apply IH].
Qed.

Lemma library_steps_reachable task width s s' :
  whole_reachable n task width s -> rtc (library_step n) s s' -> whole_reachable n task width s'.
Proof.
  intros Hr Hs. induction Hs as [s|s s1 s2 Hs _ IH]; [done|]. apply IH. pose proof (whole_reachable_inv _ _ _ _ Hr) as Hi.
  destruct Hr as (Hn & Hw & w & Hst & Hs0). split_and!; [done|lia|lia|]. exists w. split; [done|]. eapply rtc_r; [exact Hs0|].
  split; [by left|]. by eapply library_bounded.
Qed.

(** Whether no step of the library is left, once the loop was freed. *)
Definition freed_restb (s : whole) : bool :=
  let '(mk_whole w ths lw cs) := s in
  bool_decide (cs = []) && forallb (fun x => negb (worker_ready x) && negb (bool_decide (wk_point x = WSvc))) (wks lw) &&
  negb (lp_alive (lp lw)) && forallb (fun t => match in_call t with None => true | _ => false end) ths &&
  forallb (fun t => bool_decide (resting w t)) (take n ths).

Lemma freed_restb_rest s : freed_restb s = true -> at_rest n s.
Proof.
  destruct s as [w ths lw cs]. simpl.
  intros [[[[Hc%bool_decide_eq_true Hw]%andb_true_iff Ha%negb_true_iff]%andb_true_iff Hn]%andb_true_iff Ho]%andb_true_iff s' Hs.
  rewrite forallb_forall in Hw, Hn, Ho.
  inversion Hs as [? ? ? ? i t ? ? ? ? Ht Hsch Hr Hex|? ? ? ? k x ? ? ? ? Hk Hr|? ? ? l1 c l2 ? ? Hex|]; subst; try congruence.
  - specialize (Hn t ltac:(apply list_elem_of_In; by eapply list_elem_of_lookup_2)). unfold scheduled in Hsch.
    case_decide as Hlt.
    + apply Hr. specialize (Ho t). rewrite bool_decide_eq_true in Ho. apply Ho, list_elem_of_In, (list_elem_of_lookup_2 _ i).
      by rewrite lookup_take_lt.
    + destruct Hsch as [Hsv|[_ Hcall]]; [|by destruct (in_call t)]. unfold serving in Hsv.
      destruct (wks lw !! (i - n)%nat) as [x|] eqn:Hx; [|done].
      specialize (Hw x ltac:(apply list_elem_of_In; by eapply list_elem_of_lookup_2)). rewrite Hsv in Hw.
      by apply andb_true_iff in Hw as [_ ?].
  - specialize (Hw x ltac:(apply list_elem_of_In; by eapply list_elem_of_lookup_2)). by rewrite Hr in Hw.
  - by destruct l1.
Qed.
End play.

(** ** Witnesses *)
Module WholeExample.
#[local] Instance machine : Platform := {| ndebug := false; alloc_ok := fun _ => true |}.

(** One worker, one thread that is no worker, and a loop with one task. *)
Definition start : whole := whole_start 1 1 (one_task 16).

Lemma start_reachable : whole_reachable 1 16 1 start.
Proof. split_and!; [lia|lia|lia|]. exists (one_task 16). split; [apply start_queue_ok|apply rtc_refl]. Qed.

(** The worker starts, serves the queue to its end and waits; the last work that was
    left tells it to stop; it is interrupted, runs the stop task and leaves. *)
Definition moves : list wmove :=
  replicate 5 (MoveWorker 0) ++ replicate 15 (MoveThread 1) ++ replicate 6 MoveCall ++ replicate 7 (MoveWorker 0) ++ [MoveEnd].

Definition final : whole := default start (whole_plays 1 moves start).

Lemma final_plays : whole_plays 1 moves start = Some final.
Proof. by vm_compute. Qed.

Lemma final_reachable : whole_reachable 1 16 1 final.
Proof.
  eapply library_steps_reachable; [exact start_reachable|]. by apply (whole_plays_steps 1 moves), final_plays.
Qed.

Lemma loop_run_completes_witness :
  at_rest 1 final /\ lp_alive (lp (wh_life final)) = false /\ queues (wh_queues final) = ∅ /\
  runs_of 0 (log (wh_queues final)) = pushed 0 (log (wh_queues final)) /\ pushed 0 (log (wh_queues final)) = [16].
Proof.
  assert (Hr : at_rest 1 final) by (apply freed_restb_rest; by vm_compute).
  destruct (loop_run_completes 1 1 16 final final_reachable) as [_ Hend]. destruct (Hend Hr) as [Hrun Hall].
  destruct Hall as (He & _ & Ha & _).
  - apply map_Forall_lookup_2. intros q x Hq. assert (Hn : queues (wh_queues final) = ∅) by (by vm_compute). by rewrite Hn in Hq.
  - by vm_compute.
  - apply Forall_forall. intros x Hx. assert (Hw : forallb (fun x => (wk_clients x =? 0)%nat) (wks (wh_life final)) = true) by (by vm_compute).
    rewrite forallb_forall in Hw. by apply Nat.eqb_eq, Hw, list_elem_of_In.
  - split_and!; [exact Hr|exact Ha|exact He|exact (Hrun 0)|by vm_compute].
Defined.

Lemma loop_left_done_witness :
  lp_alive (lp (wh_life final)) = false /\ work_cnt (wh_queues final) = 0 /\
  drops_of 0 (log (wh_queues final)) ≡ₚ [16].
Proof.
  assert (Ha : lp_alive (lp (wh_life final)) = false) by (by vm_compute).
  destruct (loop_left_done 1 1 16 final final_reachable (or_introl Ha)) as (_ & _ & Hw & Hd & _).
  split_and!; [exact Ha|exact Hw|exact (proj2 (Hd 0))].
Defined.
End WholeExample.
