(* ===== verification/Reader.v ===== *)
(** * The reader: data and operations

    Translates [src/reader.c]: a reader is a client of one event.  The event is
    the component [Event]; whenever one of its threads calls the handler of the
    readable side or reports the cancellation, the callbacks of the reader run.
    The descriptor is what [read] shows of it. *)

From stdpp Require Import base numbers list.
From Stdlib Require Import ZArith Lia.
From S2P Require Import Prelude.
From S2P Require Import Event.

#[local] Open Scope Z_scope.

Definition EINTR : Z := 4.
Definition EAGAIN : Z := 11.
Definition EWOULDBLOCK : Z := EAGAIN.

(** ** The descriptor *)

(** What [read] says when no byte is left. *)
Inductive fd_end : Type :=
  | StillOpen
  | AtEof
  | Broken (errno : Z).

Record fd : Type := mk_fd {
  fd_pending : list Z;
  fd_ended : fd_end;
}.

(** How one call of [read] goes: the bytes that arrive before it, and whether a
    signal interrupts it or how many bytes it returns at most. *)
Inductive manner : Type :=
  | Interrupted
  | AtMost (n : nat).

Record turn : Type := mk_turn {
  t_arrive : list Z;
  t_manner : manner;
}.

Definition fd_arrive (l : list Z) (d : fd) : fd := mk_fd (fd_pending d ++ l) (fd_ended d).

(** [read(fd, buf, size)] of a descriptor that does not block: the bytes, or errno. *)
Definition read (size : nat) (how : manner) (d : fd) : (list Z + Z) * fd :=
  match how with
  | Interrupted => (inr EINTR, d)
  | AtMost n =>
      match fd_pending d, fd_ended d with
      | [], StillOpen => (inr EAGAIN, d)
      | [], AtEof => (inl [], d)
      | [], Broken errno => (inr errno, d)
      | _ :: _, _ =>
          let n := Nat.min (Nat.max 1 n) size in
          (inl (take n (fd_pending d)), mk_fd (drop n (fd_pending d)) (fd_ended d))
      end
  end.

(** ** The reader *)
Definition SIZEOF_DATA : nat := Z.to_nat 1024.

Record ntt_reader : Type := mk_reader {
  rd_queue : ptr;
  rd_event : Z;
  rd_ec : Z;
  rd_data : list Z;
}.

Definition rd_with_ec ec r := mk_reader (rd_queue r) (rd_event r) ec (rd_data r).
Definition rd_with_data l r := mk_reader (rd_queue r) (rd_event r) (rd_ec r) l.

Definition NTT_EVENT_HANDLE_NONE : Z := 0.

(** The buffer holds anything. *)
Definition ntt_reader_init (data : list Z) : ntt_reader := mk_reader NULL NTT_EVENT_HANDLE_NONE 0 data.

Definition ntt_reader_create `{Platform} (size : Z) (data : list Z) : option ntt_reader :=
  if alloc_ok size then Some (ntt_reader_init data) else None.

(** [g_ntt_reader_vtbl] *)
Definition ntt_reader_vtbl : ntt_event_vtbl := mk_vtbl true false false true.

(** What a run of the handler comes to: the chunks given to [on_data], whether the
    event is cancelled, the reader and the descriptor afterwards, and the bytes
    that arrived meanwhile. *)
Record handled : Type := mk_handled {
  h_chunks : list (list Z);
  h_cancel : bool;
  h_self : ntt_reader;
  h_fd : fd;
  h_arrived : list Z;
}.

(** The run goes on after a chunk, or after nothing. *)
Definition more (chunks : list (list Z)) (arrived : list Z) (h : handled) : handled :=
  mk_handled (chunks ++ h_chunks h) (h_cancel h) (h_self h) (h_fd h) (arrived ++ h_arrived h).

(** The handler of the readable side; nothing as long as it goes on reading. *)
Fixpoint ntt_reader_readable (turns : list turn) (self : ntt_reader) (d : fd) : option handled :=
  match turns with
  | [] => None
  | u :: turns =>
      let new := t_arrive u in
      let '(rc, d) := read SIZEOF_DATA (t_manner u) (fd_arrive new d) in
      match rc with
      | inl bytes =>
          let self := rd_with_data (bytes ++ drop (length bytes) (rd_data self)) self in
          if (0 <? length bytes)%nat
          then more [take (length bytes) (rd_data self)] new <$> ntt_reader_readable turns self d
          else Some (mk_handled [] true self d new)
      | inr errno =>
          if errno =? EINTR then more [] new <$> ntt_reader_readable turns self d
          else if (errno =? EAGAIN) || (errno =? EWOULDBLOCK) then Some (mk_handled [] false self d new)
          else Some (mk_handled [] true (rd_with_ec errno self) d new)
      end
  end.

(** ** The system: the slot of the event, its threads and the reader *)
Inductive callback : Type :=
  | OnData (data : list Z)
  | OnCancel (ec : Z).

(** [r_gen] is the generation of the event of the reader, once it is started;
    [r_arrived] is every byte that ever arrived; [r_live] says that the reader is
    not deleted. *)
Record rworld : Type := mk_rworld {
  r_slot : slot;
  r_threads : list thread;
  r_self : ntt_reader;
  r_fd : fd;
  r_calls : list callback;
  r_arrived : list Z;
  r_gen : option Z;
  r_live : bool;
}.

Definition r_with_event sl ts w :=
  mk_rworld sl ts (r_self w) (r_fd w) (r_calls w) (r_arrived w) (r_gen w) (r_live w).
Definition r_with_fd d l w :=
  mk_rworld (r_slot w) (r_threads w) (r_self w) d (r_calls w) l (r_gen w) (r_live w).

(** [ntt_event_cancel] with the handle of the reader, as a thread. *)
Definition cancel_event (self : ntt_reader) : thread := Cancel (ntt_event_handle_generation (rd_event self)).

(** The event calls the handler of the readable side. *)
Definition react_call (turns : list turn) (w : rworld) : res (option rworld) :=
  if r_live w then
    match ntt_reader_readable turns (r_self w) (r_fd w) with
    | None => Ok None
    | Some h =>
        Ok (Some (mk_rworld (r_slot w) ((if h_cancel h then [cancel_event (h_self h)] else []) ++ r_threads w)
          (h_self h) (h_fd h) (r_calls w ++ (OnData <$> h_chunks h)) (r_arrived w ++ h_arrived h) (r_gen w) true))
    end
  else Err InvalidPointer.

(** [ntt_reader_cancelled] *)
Definition ntt_reader_cancelled (w : rworld) : res (option rworld) :=
  if r_live w then
    Ok (Some (mk_rworld (r_slot w) (r_threads w) (r_self w) (r_fd w) (r_calls w ++ [OnCancel (rd_ec (r_self w))])
      (r_arrived w) (r_gen w) true))
  else Err InvalidPointer.

(** What a new entry of the log of the event means for the reader. *)
Definition react (turns : list turn) (x : entry) (w : rworld) : res (option rworld) :=
  match x with
  | Call Readable g => if decide (r_gen w = Some g) then react_call turns w else Ok (Some w)
  | Report Readable g => if decide (r_gen w = Some g) then ntt_reader_cancelled w else Ok (Some w)
  | _ => Ok (Some w)
  end.

(** Entries one after the other; at most one of them calls the handler. *)
Fixpoint reacts (turns : list turn) (l : list entry) (w : rworld) : res (option rworld) :=
  match l with
  | [] => Ok (Some w)
  | x :: l =>
      o ← react turns x w;
      match o with Some w => reacts turns l w | None => Ok None end
  end.

(** [ntt_reader_start] in the slot that the slab hands out, at [index]. *)
Definition ntt_reader_start `{Platform} (queue_loop : ptr -> ptr) (index : Z) (queue : ptr) (w : rworld) : res rworld :=
  let g := generation (r_slot w) in
  let self := mk_reader queue (ntt_event_handle_of index g) (rd_ec (r_self w)) (rd_data (r_self w)) in
  let params := mk_params ntt_reader_vtbl NTT_INTEREST_READABLE queue NULL in
  '(sl, t) ← ntt_event_start queue_loop (r_slot w) params;
  Ok (mk_rworld sl (t :: r_threads w) self (r_fd w) (r_calls w) (r_arrived w) (Some g) (r_live w)).

(** [ntt_reader_cancel]: the thread that cancels the event, if the reader was
    started. *)
Definition ntt_reader_cancel (self : ntt_reader) : list thread :=
  if rd_queue self =? NULL then [] else [cancel_event self].

(** [ntt_reader_delete], which the client may call from [on_cancel] on. *)
Definition ntt_reader_delete (w : rworld) : rworld :=
  mk_rworld (r_slot w) (r_threads w) (r_self w) (r_fd w) (r_calls w) (r_arrived w) (r_gen w) false.

(** Entries that a step of the event has added. *)
Definition news (sl sl' : slot) : list entry := drop (length (log sl)) (log sl').

Inductive reader_step `{Platform} (queue_loop : ptr -> ptr) : rworld -> rworld -> Prop :=
  | reader_start w index queue w' :
      r_gen w = None -> r_live w = true -> queue <> NULL -> in_use (r_slot w) = false ->
      ntt_reader_start queue_loop index queue w = Ok w' -> reader_step queue_loop w w'
  | reader_event w l1 t l2 sl' ts turns w' :
      r_threads w = l1 ++ t :: l2 -> exec t (r_slot w) = (sl', ts) ->
      reacts turns (news (r_slot w) sl') (r_with_event sl' (l1 ++ ts ++ l2) w) = Ok (Some w') ->
      reader_step queue_loop w w'
  | reader_cancel w :
      r_live w = true ->
      reader_step queue_loop w (r_with_event (r_slot w) (ntt_reader_cancel (r_self w) ++ r_threads w) w)
  | reader_delete w :
      (exists ec, OnCancel ec ∈ r_calls w) -> reader_step queue_loop w (ntt_reader_delete w)
  | reader_input w l : reader_step queue_loop w (r_with_fd (fd_arrive l (r_fd w)) (r_arrived w ++ l) w)
  | reader_ends w e :
      fd_ended (r_fd w) = StillOpen -> reader_step queue_loop w (r_with_fd (mk_fd (fd_pending (r_fd w)) e) (r_arrived w) w)
  | reader_others w sl' ts' :
      (* notifications, stale handles, and other events that live in the slot *)
      (exists g events, sl' = r_slot w /\ ts' = Dispatch g events :: r_threads w) \/
      (exists g, sl' = r_slot w /\ ts' = Cancel g :: r_threads w) \/
      (exists p events fl t, in_use (r_slot w) = false /\ ntt_event_open (r_slot w) p events fl = (sl', t) /\
         ts' = t :: r_threads w) ->
      reader_step queue_loop w (r_with_event sl' ts' w).

(** A reader that was not started, beside a slot that may have been used. *)
Definition fresh_reader (w : rworld) (sl : slot) (data : list Z) : Prop :=
  w = mk_rworld sl [] (ntt_reader_init data) (mk_fd [] StillOpen) [] [] None true /\ length data = SIZEOF_DATA.
