(* ===== verification/ReaderProps.v ===== *)
(** * The reader: properties

    A run of the handler, then the reader together with its event, in every order
    of notifications, cancellations and input. *)

From stdpp Require Import base numbers list relations.
From Stdlib Require Import ZArith Lia.
From S2P Require Import Prelude.
From S2P Require Import Event.
From S2P Require Import EventInv.
From S2P Require Import EventSteps.
From S2P Require Import EventProps.
From S2P Require Import Reader.

#[local] Open Scope Z_scope.

Implicit Types (w : rworld) (self : ntt_reader) (d : fd) (turns : list turn) (sl : slot) (ts : list thread).

(** ** One run of the handler *)
Definition chunk_ok (c : list Z) : Prop := (1 <= length c <= SIZEOF_DATA)%nat.

Record run_ok self d (h : handled) : Prop := {
  ro_stream : concat (h_chunks h) ++ fd_pending (h_fd h) = fd_pending d ++ h_arrived h;
  ro_chunks : Forall chunk_ok (h_chunks h);
  ro_size : length (rd_data (h_self h)) = SIZEOF_DATA;
  ro_ended : fd_ended (h_fd h) = fd_ended d;
  ro_ids : rd_queue (h_self h) = rd_queue self /\ rd_event (h_self h) = rd_event self;
  ro_ec : rd_ec (h_self h) = rd_ec self \/ fd_ended d = Broken (rd_ec (h_self h));
  ro_drained : fd_pending (h_fd h) = [];
  ro_cancel : h_cancel h = true <-> fd_ended d <> StillOpen /\ fd_ended d <> Broken EAGAIN;
}.

(** What a successful [read] returns. *)
Lemma read_bytes how d bytes d' :
  read SIZEOF_DATA how d = (inl bytes, d') ->
  bytes ++ fd_pending d' = fd_pending d /\ fd_ended d' = fd_ended d /\ (length bytes <= SIZEOF_DATA)%nat /\
  (bytes = [] -> fd_pending d = [] /\ fd_ended d = AtEof).
Proof.
  unfold read. destruct how as [|n]; [done|]. destruct (fd_pending d) as [|z l] eqn:Hp.
  - destruct (fd_ended d) eqn:He; try done. intros [= <- <-]. rewrite Hp. split_and!; try done. simpl. lia.
  - intros [= <- <-]. rewrite length_take. split_and!; [apply take_drop|done|lia|].
    intros Hz%(f_equal length). rewrite length_take in Hz. unfold SIZEOF_DATA in Hz. simpl in Hz. lia.
Qed.

Lemma read_fails how d errno d' :
  read SIZEOF_DATA how d = (inr errno, d') ->
  d' = d /\ ((how = Interrupted /\ errno = EINTR) \/ (fd_pending d = [] /\ fd_ended d = StillOpen /\ errno = EAGAIN) \/
             (fd_pending d = [] /\ fd_ended d = Broken errno)).
Proof.
  unfold read. destruct how as [|n]; [intros [= <- <-]; by split; [|left]|].
  destruct (fd_pending d) as [|z l] eqn:Hp; [|done].
  destruct (fd_ended d) eqn:He; try done; intros [= <- <-]; split; auto.
Qed.

Lemma readable_run turns : forall self d h,
  length (rd_data self) = SIZEOF_DATA -> ntt_reader_readable turns self d = Some h -> run_ok self d h.
Proof.
  induction turns as [|u turns IH]; intros self d h Hsz Heq; cbn [ntt_reader_readable] in Heq; [done|].
  destruct (read _ _ _) as [[bytes|errno] d'] eqn:Hr.
  - apply read_bytes in Hr as (Hb & He & Hle & Hz). simpl in Hb, He.
    set (self' := rd_with_data _ self) in *.
    assert (Hsz' : length (rd_data self') = SIZEOF_DATA) by (simpl; rewrite length_app, length_drop; lia).
    assert (Htk : take (length bytes) (bytes ++ drop (length bytes) (rd_data self)) = bytes) by (by rewrite take_app_length).
    destruct (Nat.ltb_spec 0 (length bytes)) as [Hpos|Hnil].
    + apply fmap_Some in Heq as (h' & Hh & ->). destruct (IH _ _ _ Hsz' Hh) as [R1 R2 R3 R4 R5 R6 R7 R8].
      split; simpl; rewrite ?Htk, <- ?He; try done.
      * rewrite <- app_assoc, R1, (app_assoc bytes), Hb. by rewrite <- app_assoc.
      * by constructor; [split; [lia|]|].
    + destruct bytes; [|simpl in Hnil; lia]. destruct (Hz eq_refl) as [Hp Hf]. simpl in Hb, Hp, Hf.
      injection Heq as <-. split; simpl; try done; rewrite ?Hb; try done; [by left|]. rewrite Hf. done.
  - apply read_fails in Hr as (-> & Hr). simpl in Hr.
    destruct (Z.eqb_spec errno EINTR) as [->|Hni].
    + apply fmap_Some in Heq as (h' & Hh & ->). destruct (IH _ _ _ Hsz Hh) as [R1 R2 R3 R4 R5 R6 R7 R8].
      split; simpl; try done. rewrite R1. simpl. by rewrite app_assoc.
    + destruct Hr as [[_ ?]|[(Hp & Hf & ->)|(Hp & Hf)]]; [done| |].
      * injection Heq as <-. split; simpl; try done; [by left|]. rewrite Hf. naive_solver.
      * unfold EWOULDBLOCK in Heq. destruct (Z.eqb_spec errno EAGAIN) as [->|Hna]; injection Heq as <-;
          (split; simpl; try done; [by auto|rewrite Hf; naive_solver]).
Qed.

(** ** The handler comes to an end *)
Definition calm : turn := mk_turn [] (AtMost SIZEOF_DATA).

Definition arrivals turns : nat := length (concat (t_arrive <$> turns)).

Lemma calm_ends n : forall self d,
  (length (fd_pending d) <= n)%nat -> fd_ended d <> Broken EINTR ->
  is_Some (ntt_reader_readable (replicate (S n) calm) self d).
Proof.
  induction n as [n IH] using lt_wf_ind. intros self d Hn He. rewrite replicate_S. cbn [ntt_reader_readable].
  destruct (read _ _ _) as [[bytes|errno] d'] eqn:Hr.
  - apply read_bytes in Hr as (Hb & Hf & _ & _). simpl in Hb, Hf. rewrite app_nil_r in Hb.
    apply (f_equal length) in Hb. rewrite length_app in Hb.
    destruct (Nat.ltb_spec 0 (length bytes)); [|by eexists]. apply fmap_is_Some.
    destruct n as [|n]; [lia|]. apply IH; [lia|lia|]. by rewrite Hf.
  - apply read_fails in Hr as (-> & Hr). simpl in Hr.
    destruct (Z.eqb_spec errno EINTR) as [->|]; [|by destruct (_ || _); eexists].
    destruct Hr as [[? _]|[(_ & _ & ?)|(_ & ?)]]; done.
Qed.

(** What happens after the handler has returned does not matter. *)
Lemma readable_extends turns l : forall self d,
  is_Some (ntt_reader_readable turns self d) -> is_Some (ntt_reader_readable (turns ++ l) self d).
Proof.
  induction turns as [|u turns IH]; intros self d; cbn [app ntt_reader_readable]; [by intros []|].
  destruct (read _ _ _) as [[bytes|errno] d']; repeat case_match; rewrite ?fmap_is_Some; eauto.
Qed.

Lemma readable_ends turns : forall self d,
  fd_ended d <> Broken EINTR ->
  is_Some (ntt_reader_readable (turns ++ replicate (S (length (fd_pending d) + arrivals turns)) calm) self d).
Proof.
  induction turns as [|u turns IH]; intros self d He.
  - apply calm_ends; [|done]. unfold arrivals. simpl. lia.
  - assert (Ha : arrivals (u :: turns) = (length (t_arrive u) + arrivals turns)%nat)
      by (unfold arrivals; rewrite fmap_cons; cbn [concat]; by rewrite length_app).
    assert (Hgo : forall self' d', fd_ended d' = fd_ended d ->
      (length (fd_pending d') <= length (fd_pending d) + length (t_arrive u))%nat ->
      is_Some (ntt_reader_readable (turns ++ replicate (S (length (fd_pending d) + arrivals (u :: turns))) calm) self' d')).
    { intros self' d' Hf Hl. rewrite Ha.
      replace (S (length (fd_pending d) + (length (t_arrive u) + arrivals turns)))
        with (S (length (fd_pending d') + arrivals turns) +
              (length (fd_pending d) + length (t_arrive u) - length (fd_pending d')))%nat by lia.
      rewrite replicate_add, app_assoc. apply readable_extends, IH. by rewrite Hf. }
    cbn [app ntt_reader_readable]. destruct (read _ _ _) as [[bytes|errno] d'] eqn:Hr.
    + apply read_bytes in Hr as (Hb & Hf & _ & _). apply (f_equal length) in Hb. simpl in Hb, Hf.
      rewrite !length_app in Hb. destruct (Nat.ltb_spec 0 (length bytes)); [|by eexists].
      apply fmap_is_Some, Hgo; [done|lia].
    + apply read_fails in Hr as (-> & Hr).
      destruct (Z.eqb_spec errno EINTR) as [->|]; [|by destruct (_ || _); eexists].
      apply fmap_is_Some, Hgo; [done|]. simpl. by rewrite length_app.
Qed.

(** ** The event, seen from its client *)

(** A step of the event appends to its log and keeps what the event was opened
    with; the slot goes with [Finish] or [Teardown] only. *)
Record frame sl sl' (t : thread) : Prop := {
  fr_log : log sl' = log sl ++ news sl sl';
  fr_vtbl : vtbl (ev sl') = vtbl (ev sl);
  fr_queue : queue0 (ev sl') = queue0 (ev sl);
  fr_interest : interest (ev sl') = interest (ev sl);
  fr_stays : (generation sl' = generation sl /\ in_use sl' = in_use sl) \/
    ((t = Finish \/ t = Teardown) /\ generation sl' = generation sl + 1);
}.

Lemma news_app sl sl' l : log sl' = log sl ++ l -> news sl sl' = l.
Proof. intros Hl. unfold news. by rewrite Hl, drop_app_length. Qed.

Lemma frame_intro sl sl' t l :
  log sl' = log sl ++ l -> vtbl (ev sl') = vtbl (ev sl) -> queue0 (ev sl') = queue0 (ev sl) ->
  interest (ev sl') = interest (ev sl) ->
  (generation sl' = generation sl /\ in_use sl' = in_use sl) \/
    ((t = Finish \/ t = Teardown) /\ generation sl' = generation sl + 1) -> frame sl sl' t.
Proof. intros Hl Hv Hq Hi Hg. split; try done. by rewrite (news_app _ _ _ Hl). Qed.

Lemma release_frame sl sl' ts t : ntt_event_release sl = (sl', ts) -> frame sl sl' t.
Proof.
  unfold ntt_event_release. intros Heq. repeat case_match; simplify_eq;
    (apply (frame_intro _ _ _ []); [by rewrite app_nil_r|done|done|done|by left]).
Qed.

Lemma set_state_frame sl st t : frame sl (set_ev (with_state st (ev sl)) sl) t.
Proof. apply (frame_intro _ _ _ []); [by rewrite app_nil_r|done|done|done|by left]. Qed.

Lemma same_frame sl t : frame sl sl t.
Proof. apply (frame_intro _ _ _ []); [by rewrite app_nil_r|done|done|done|by left]. Qed.

Lemma emit_frame sl l t : frame sl (emit l sl) t.
Proof. apply (frame_intro _ _ _ l); [done|done|done|done|by left]. Qed.

Create HintDb event_frame discriminated.
#[export] Hint Resolve set_state_frame same_frame emit_frame : event_frame.

Lemma exec_frame t sl sl' ts : exec t sl = (sl', ts) -> frame sl sl' t.
Proof.
  intros Heq. destruct t as [g events|g events|g [|s todo]|s g todo|g sides|g k|s g k|s g k|s g k|s g k|s g k| |s|g|g|g|g|g|g|s| | |g fl events|g events];
    cbn [exec] in Heq; try (injection Heq as <- <-; by auto with event_frame).
  - unfold live_acquire, ntt_event_acquire_if_live in Heq. destruct (_ =? _); injection Heq as <- <-;
      [by auto with event_frame|]. by apply (frame_intro _ _ _ []); [by rewrite app_nil_r|done|done|done|left].
  - unfold ntt_event_deliver_side in Heq. repeat case_match; simplify_eq; auto with event_frame.
  - injection Heq as <- <-. by apply (frame_intro _ _ _ []); [by rewrite app_nil_r|done|done|done|left].
  - by eapply release_frame.
  - unfold live_acquire, ntt_event_acquire_if_live in Heq. destruct (_ =? _); injection Heq as <- <-;
      [by auto with event_frame|]. by apply (frame_intro _ _ _ []); [by rewrite app_nil_r|done|done|done|left].
  - destruct (ntt_event_release sl) as [sl1 ts1] eqn:Hr. injection Heq as <- <-. by eapply release_frame.
  - destruct (ntt_event_release sl) as [sl1 ts1] eqn:Hr. injection Heq as <- <-.
    destruct (release_frame _ _ _ (CancelRelease g) Hr) as [F1 F2 F3 F4 F5].
    eapply (frame_intro _ _ _ (news sl sl1 ++ [CancelReturned g])); try done.
    simpl. by rewrite F1 at 1; rewrite <- app_assoc.
  - unfold ntt_event_cancelled_task_svc in Heq. destruct (_ && _); injection Heq as <- <-; auto with event_frame.
  - injection Heq as <- <-. eapply frame_intro; [done|done|done|done|]. right. by auto.
  - injection Heq as <- <-. eapply frame_intro; [done|done|done|done|]. right. by auto.
  - destruct (negb _); injection Heq as <- <-; auto with event_frame.
Qed.

(** ** The reader and its event *)

(** The cancellation of the reader's event was reported. *)
Definition reported_in (g : option Z) (l : list entry) : Prop :=
  match g with Some g => Report Readable g ∈ l | None => False end.

#[global] Instance reported_in_dec g l : Decision (reported_in g l).
Proof. destruct g; simpl; apply _. Defined.

(** What the reader has done when the entries [seen] have taken effect. *)
Record calls_inv (seen : list entry) w : Prop := {
  ci_calls : exists chunks, r_calls w = (OnData <$> chunks) ++
      (if decide (reported_in (r_gen w) seen) then [OnCancel (rd_ec (r_self w))] else []) /\
    concat chunks ++ fd_pending (r_fd w) = r_arrived w /\ Forall chunk_ok chunks;
  ci_size : length (rd_data (r_self w)) = SIZEOF_DATA;
  ci_ec : rd_ec (r_self w) = 0 \/ fd_ended (r_fd w) = Broken (rd_ec (r_self w));
  ci_live : r_live w = false -> reported_in (r_gen w) seen;
}.

(** The event of the reader is there, or has been reported. *)
Definition linked sl (g : option Z) : Prop :=
  match g with
  | None => True
  | Some g =>
      (generation sl = g /\ in_use sl = true /\ vtbl (ev sl) = ntt_reader_vtbl /\ queue0 (ev sl) <> NULL /\
         interest (ev sl) = NTT_INTEREST_READABLE) \/
      (g < generation sl /\ Report Readable g ∈ log sl)
  end.

Record reader_inv w : Prop := {
  ri_slot : slot_inv (r_slot w) (r_threads w);
  ri_calls : calls_inv (log (r_slot w)) w;
  ri_link : linked (r_slot w) (r_gen w);
}.

Lemma calls_skip seen x w :
  calls_inv seen w -> (forall g, r_gen w = Some g -> x <> Report Readable g) -> calls_inv (seen ++ [x]) w.
Proof.
  intros [(chunks & Hc & Hs & Hk) Hz He Hl] Hx.
  assert (Hiff : reported_in (r_gen w) (seen ++ [x]) <-> reported_in (r_gen w) seen).
  { destruct (r_gen w) as [g|]; [|done]. simpl. rewrite elem_of_app, list_elem_of_singleton.
    specialize (Hx g eq_refl). naive_solver. }
  split; try done; [|by intros ?%Hl%Hiff]. exists chunks. split_and!; try done. rewrite Hc. f_equal.
  destruct (decide (reported_in (r_gen w) seen)), (decide (reported_in (r_gen w) (seen ++ [x]))); tauto.
Qed.

(** No handler starts and nothing is reported again after the report. *)
Lemma after_report seen x g :
  ordered (seen ++ [x]) -> Report Readable g ∈ seen -> x <> Call Readable g /\ x <> Report Readable g.
Proof.
  intros (_ & _ & Ho)%ordered_app Hr. specialize (Ho _ x Hr ltac:(by left)). unfold may_precede in Ho.
  split; intros ->; specialize (Ho eq_refl _ _ eq_refl eq_refl); lia.
Qed.

(** The reader is still there when a callback of it runs. *)
Lemma react_live seen x w g :
  calls_inv seen w -> ordered (seen ++ [x]) -> r_gen w = Some g ->
  x = Call Readable g \/ x = Report Readable g -> r_live w = true /\ ~ reported_in (r_gen w) seen.
Proof.
  intros Hi Ho Hg Hx.
  assert (Hn : ~ reported_in (r_gen w) seen).
  { rewrite Hg. simpl. intros Hr. destruct (after_report seen x g Ho Hr). naive_solver. }
  split; [|done]. destruct (r_live w) eqn:Hl; [done|]. by destruct Hn; apply (ci_live _ _ Hi).
Qed.

Lemma react_ok turns seen x w :
  calls_inv seen w -> ordered (seen ++ [x]) ->
  exists o, react turns x w = Ok o /\
    forall w', o = Some w' -> calls_inv (seen ++ [x]) w' /\ r_slot w' = r_slot w /\ r_gen w' = r_gen w /\
      exists gs, r_threads w' = (Cancel <$> gs) ++ r_threads w.
Proof.
  intros Hi Ho.
  assert (Hskip : (forall g, r_gen w = Some g -> x <> Report Readable g) ->
    calls_inv (seen ++ [x]) w /\ r_slot w = r_slot w /\ r_gen w = r_gen w /\ exists gs, r_threads w = (Cancel <$> gs) ++ r_threads w).
  { intros Hx. split_and!; [by apply calls_skip|done|done|by exists []]. }
  destruct x as [[] g|s g|s g|g|g e|g|g|[] g|g|s g|g]; simpl;
    try (eexists; split; [done|]; intros w' [= <-]; apply Hskip; congruence).
  - destruct (decide (r_gen w = Some g)) as [Hg|Hg];
      [|eexists; split; [done|]; intros w' [= <-]; apply Hskip; congruence].
    destruct (react_live seen _ w g Hi Ho Hg (or_introl eq_refl)) as [Hl Hn].
    unfold react_call. rewrite Hl. destruct (ntt_reader_readable turns (r_self w) (r_fd w)) as [h|] eqn:Hh;
      [|by eexists; split; [done|]]. eexists. split; [done|]. intros w' [= <-].
    destruct Hi as [(chunks & Hc & Hs & Hk) Hz He Hlv]. destruct (readable_run _ _ _ _ Hz Hh) as [R1 R2 R3 R4 R5 R6 R7 R8].
    split_and!; [|done|done|].
    + apply calls_skip; [|simpl; congruence]. rewrite decide_False, app_nil_r in Hc by done. split; simpl; try done.
      * exists (chunks ++ h_chunks h). rewrite decide_False, app_nil_r by done. split_and!; [by rewrite Hc, fmap_app| |].
        -- by rewrite concat_app, <- app_assoc, R1, app_assoc, Hs.
        -- by apply Forall_app.
      * destruct R6 as [Heq|Heq]; [|by right; rewrite R4]. rewrite R4, Heq. done.
    + simpl. destruct (h_cancel h); [by eexists [_]|by exists []].
  - destruct (decide (r_gen w = Some g)) as [Hg|Hg];
      [|eexists; split; [done|]; intros w' [= <-]; apply Hskip; congruence].
    destruct (react_live seen _ w g Hi Ho Hg (or_intror eq_refl)) as [Hl Hn].
    unfold ntt_reader_cancelled. rewrite Hl. eexists. split; [done|]. intros w' [= <-].
    destruct Hi as [(chunks & Hc & Hs & Hk) Hz He Hlv]. split_and!; [|done|done|by exists []].
    split; simpl; try done. exists chunks. rewrite decide_False, app_nil_r in Hc by done.
    rewrite decide_True; [by rewrite Hc|]. rewrite Hg. simpl. apply elem_of_app. right. by left.
Qed.

Lemma reacts_ok turns l : forall seen w,
  calls_inv seen w -> ordered (seen ++ l) ->
  exists o, reacts turns l w = Ok o /\
    forall w', o = Some w' -> calls_inv (seen ++ l) w' /\ r_slot w' = r_slot w /\ r_gen w' = r_gen w /\
      exists gs, r_threads w' = (Cancel <$> gs) ++ r_threads w.
Proof.
  induction l as [|x l IH]; intros seen w Hi Ho; cbn [reacts].
  - eexists. split; [done|]. intros w' [= <-]. rewrite app_nil_r. split_and!; [done|done|done|by exists []].
  - rewrite cons_middle, app_assoc in Ho |- *. pose proof (proj1 (proj1 (ordered_app _ _) Ho)) as Hox.
    destruct (react_ok turns seen x w Hi Hox) as (o & -> & Hw). rewrite bind_ok.
    destruct o as [w1|]; [|by eexists; split; [done|]]. destruct (Hw w1 eq_refl) as (Hi1 & Hs1 & Hg1 & gs1 & Ht1).
    destruct (IH _ w1 Hi1 Ho) as (o & -> & Hw'). eexists. split; [done|]. intros w' ->.
    destruct (Hw' w' eq_refl) as (Hi' & Hs' & Hg' & gs & Ht').
    split_and!; [done|congruence|congruence|]. exists (gs ++ gs1). by rewrite fmap_app, <- app_assoc, <- Ht1.
Qed.

Lemma add_cancels sl ts gs : slot_inv sl ts -> slot_inv sl ((Cancel <$> gs) ++ ts).
Proof.
  intros Hi. induction gs as [|g gs IH]; [done|]. simpl. eapply event_step_inv; [|exact IH]. constructor.
Qed.

Lemma linked_exec sl l1 t l2 sl' ts g :
  slot_inv sl (l1 ++ t :: l2) -> exec t sl = (sl', ts) -> linked sl g -> linked sl' g.
Proof.
  intros Hi Hex Hl. destruct (exec_frame _ _ _ _ Hex) as [Flog Fv Fq Fi Fs]. destruct g as [g|]; [|done]. simpl in *.
  destruct Hl as [(Hg & Hu & Hv & Hq & Hin)|[Hg Hr]].
  - destruct Fs as [[Hg' Hu']|[Ht Hg']].
    + left. rewrite Hg', Hu', Fv, Fq, Fi. done.
    + right. split; [lia|]. rewrite Flog. apply elem_of_app. destruct Ht as [-> | ->].
      * left. pose proof (i_done _ _ Hi) as Hd. apply Forall_app in Hd as [_ Hd]. apply Forall_inv in Hd as [_ Hd].
        unfold reported in Hd. rewrite <- Hg. apply Hd; [done|]. by rewrite Hv.
      * right. cbn [exec] in Hex. injection Hex as <- <-.
        rewrite (news_app sl (ntt_event_teardown sl) _ eq_refl), Hin. unfold ntt_event_report_cancelled.
        simpl. rewrite Hv, Hg. by left.
  - right. split; [destruct Fs as [[? _]|[_ ?]]; lia|]. rewrite Flog. apply elem_of_app. by left.
Qed.

Lemma calls_world seen w w' :
  calls_inv seen w -> r_self w' = r_self w -> r_fd w' = r_fd w -> r_calls w' = r_calls w -> r_arrived w' = r_arrived w ->
  r_gen w' = r_gen w -> r_live w' = r_live w -> calls_inv seen w'.
Proof.
  intros [Hc Hz He Hl] E1 E2 E3 E4 E5 E6. split; rewrite ?E1, ?E2, ?E3, ?E4, ?E5, ?E6; done.
Qed.

(** Entries that are not reports of the reader's event. *)
Lemma calls_more seen l w :
  calls_inv seen w -> (forall g, r_gen w = Some g -> Report Readable g ∉ l) -> calls_inv (seen ++ l) w.
Proof.
  revert seen. induction l as [|x l IH]; intros seen Hi Hx; [by rewrite app_nil_r|].
  rewrite cons_middle, app_assoc. apply IH.
  - apply calls_skip; [done|]. intros g Hg ->. apply (Hx g Hg). by left.
  - intros g Hg Hin. apply (Hx g Hg). by right.
Qed.

(** An event that is opened in the free slot is not the one of a reader that was
    started before. *)
Lemma open_ok w p events fl sl' t :
  reader_inv w -> in_use (r_slot w) = false -> ntt_event_open (r_slot w) p events fl = (sl', t) ->
  reader_inv (r_with_event sl' (t :: r_threads w) w).
Proof.
  intros [Hi Hc Hl] Hu Ho. split; simpl.
  - eapply event_step_inv; [|exact Hi]. by econstructor.
  - apply (calls_world _ w); try done. unfold ntt_event_open in Ho. injection Ho as <- <-. simpl.
    apply calls_more; [done|]. intros g _ Hin. repeat case_match; set_solver.
  - unfold ntt_event_open in Ho. injection Ho as <- <-. destruct (r_gen w) as [g|]; [|done]. simpl in *.
    destruct Hl as [(_ & ? & _)|[Hg Hr]]; [congruence|]. right. split; [done|]. apply elem_of_app. by left.
Qed.

Lemma start_reader_ok `{Platform} queue_loop index queue w w' :
  reader_inv w -> r_gen w = None -> queue <> NULL -> in_use (r_slot w) = false ->
  ntt_reader_start queue_loop index queue w = Ok w' -> reader_inv w'.
Proof.
  intros [Hi Hc Hl] Hg Hq Hu. unfold ntt_reader_start, ntt_event_start.
  intros ([sl t] & Hs & [= <-])%bind_inv_ok.
  repeat (apply bind_inv_ok in Hs as (? & _ & Hs)). cbn -[Z.lor] in Hs.
  injection Hs as Hsl Ht.
  assert (Ho : exists p events fl, ntt_event_open (r_slot w) p events fl = (sl, t))
    by (eexists (mk_params ntt_reader_vtbl NTT_INTEREST_READABLE queue NULL), _, _; unfold ntt_event_open; by f_equal).
  destruct Ho as (p & events & fl & Ho).
  assert (Hlog : exists l, log sl = log (r_slot w) ++ l /\ (forall g, Report Readable g ∉ l)).
  { rewrite <- Hsl. simpl. eexists. split; [done|]. intros g Hin. repeat case_match; set_solver. }
  destruct Hlog as (l & Hlog & Hno).
  assert (Hfresh : ~ Report Readable (generation (r_slot w)) ∈ log sl).
  { rewrite Hlog. intros [Hin|Hin]%elem_of_app; [|by eapply Hno].
    destruct (i_level _ _ Hi _ Hin eq_refl) as [? _]. congruence. }
  split; simpl.
  - eapply event_step_inv; [|exact Hi]. by econstructor.
  - destruct Hc as [(chunks & Hc & Hst & Hk) Hz He Hlv]. split; simpl; try done.
    + exists chunks. rewrite decide_False by done. rewrite Hg in Hc. simpl in Hc. done.
    + intros Hx. specialize (Hlv Hx). by rewrite Hg in Hlv.
  - left. rewrite <- Hsl. simpl. done.
Qed.

Lemma reader_step_inv `{Platform} queue_loop w w' : reader_inv w -> reader_step queue_loop w w' -> reader_inv w'.
Proof.
  intros Hinv Hs.
  destruct Hs as [w index queue w' Hg Hlv Hq Hu Hst|w l1 t l2 sl' ts turns w' Hth Hex Hr|w Hlv|w [ec Hec]|w l|w e He|w sl' ts' Hor].
  - by eapply start_reader_ok.
  - destruct Hinv as [Hi Hc Hl]. rewrite Hth in Hi.
    assert (Hi' : slot_inv sl' (l1 ++ ts ++ l2)) by (eapply event_step_inv; [|exact Hi]; by constructor).
    destruct (exec_frame _ _ _ _ Hex) as [Flog _ _ _ _].
    destruct (reacts_ok turns (news (r_slot w) sl') (log (r_slot w)) (r_with_event sl' (l1 ++ ts ++ l2) w))
      as (o & Ho & Hw); [by apply (calls_world _ w)|rewrite <- Flog; apply Hi'|].
    rewrite Hr in Ho. injection Ho as <-. destruct (Hw w' eq_refl) as (Hc' & Hs' & Hg' & gs & Ht').
    simpl in Hs', Hg', Ht'. split; rewrite ?Hs', ?Hg', ?Ht'.
    + by apply add_cancels.
    + by rewrite Flog.
    + by eapply linked_exec.
  - destruct Hinv as [Hi Hc Hl]. split; simpl; [|by apply (calls_world _ w)|done].
    unfold ntt_reader_cancel. destruct (_ =? _); [done|]. by apply (add_cancels _ _ [_]).
  - destruct Hinv as [Hi Hc Hl]. split; simpl; [done| |done]. destruct Hc as [Hc Hz He Hlv]. split; simpl; try done.
    intros _. destruct Hc as (chunks & Hc & _). rewrite Hc in Hec.
    destruct (decide (reported_in (r_gen w) (log (r_slot w)))) as [?|]; [done|]. rewrite app_nil_r in Hec.
    apply list_elem_of_fmap in Hec as (? & ? & _). done.
  - destruct Hinv as [Hi Hc Hl]. split; simpl; [done| |done]. destruct Hc as [(chunks & Hc & Hst & Hk) Hz He Hlv].
    split; simpl; try done. exists chunks. split_and!; try done. by rewrite app_assoc, Hst.
  - destruct Hinv as [Hi Hc Hl]. split; simpl; [done| |done]. destruct Hc as [(chunks & Hc & Hst & Hk) Hz Hec Hlv].
    split; simpl; try done; [by exists chunks|]. left. destruct Hec as [?|Hb]; [done|]. rewrite He in Hb. done.
  - destruct Hor as [(g & events & -> & ->)|[(g & -> & ->)|(p & events & fl & t & Hu & Ho & ->)]].
    + destruct Hinv as [Hi Hc Hl]. split; simpl; [|by apply (calls_world _ w)|done].
      eapply event_step_inv; [|exact Hi]. constructor.
    + destruct Hinv as [Hi Hc Hl]. split; simpl; [|by apply (calls_world _ w)|done]. by apply (add_cancels _ _ [_]).
    + by eapply open_ok.
Qed.

(** ** Reachable states *)
Definition reader_reachable `{Platform} (queue_loop : ptr -> ptr) w : Prop :=
  exists w0 e g data, fresh_reader w0 (fresh_slot e g) data /\ rtc (reader_step queue_loop) w0 w.

Lemma reader_reach `{Platform} queue_loop w : reader_reachable queue_loop w -> reader_inv w.
Proof.
  intros (w0 & e & g & data & [-> Hd] & Hrtc).
  apply (rtc_ind_r reader_inv (mk_rworld (fresh_slot e g) [] (ntt_reader_init data) (mk_fd [] StillOpen) [] [] None true))
    in Hrtc; [done| |intros ? ? _ Hs Hi; by eapply reader_step_inv].
  split; simpl; [apply fresh_inv| |done]. split; simpl; try done; [|by left]. exists []. done.
Qed.

Definition chunks_of (l : list callback) : list (list Z) :=
  omap (fun c => match c with OnData data => Some data | OnCancel _ => None end) l.

Lemma chunks_of_data chunks : chunks_of (OnData <$> chunks) = chunks.
Proof. induction chunks as [|c l IH]; [done|]. unfold chunks_of in *. simpl. by f_equal. Qed.

Section props.
Context `{Platform} (queue_loop : ptr -> ptr).

(** C35.  The data of the descriptor reaches the client complete and in order: the
    chunks given to [on_data], one after the other, and the bytes that were not
    read yet are the bytes that arrived; every chunk has at least one byte and
    fits the buffer of the reader. *)
Theorem reader_stream w :
  reader_reachable queue_loop w ->
  concat (chunks_of (r_calls w)) ++ fd_pending (r_fd w) = r_arrived w /\
  Forall (fun c => (1 <= length c <= SIZEOF_DATA)%nat) (chunks_of (r_calls w)).
Proof.
  intros [_ [(chunks & Hc & Hs & Hk) _ _ _] _]%reader_reach.
  assert (Hch : chunks_of (r_calls w) = chunks).
  { rewrite Hc. unfold chunks_of. rewrite omap_app. fold (chunks_of (OnData <$> chunks)). rewrite chunks_of_data.
    by case_decide; simpl; rewrite app_nil_r. }
  by rewrite Hch.
Qed.

(** The handler returns once signals and input stop coming, and when it
    returns the descriptor is drained, as the edge-triggered registration needs;
    it has cancelled the event exactly when the input is at its end or broken. *)
Theorem reader_drains turns self d :
  length (rd_data self) = SIZEOF_DATA -> fd_ended d <> Broken EINTR ->
  is_Some (ntt_reader_readable (turns ++ replicate (S (length (fd_pending d) + arrivals turns)) calm) self d) /\
  forall h, ntt_reader_readable turns self d = Some h ->
    fd_pending (h_fd h) = [] /\ concat (h_chunks h) = fd_pending d ++ h_arrived h /\
    (h_cancel h = true <-> fd_ended d <> StillOpen /\ fd_ended d <> Broken EAGAIN).
Proof.
  intros Hz He. split; [by apply readable_ends|]. intros h Hh.
  destruct (readable_run _ _ _ _ Hz Hh) as [R1 R2 R3 R4 R5 R6 R7 R8]. rewrite R7, app_nil_r in R1. done.
Qed.

(** [on_cancel] comes at most once and is the last callback; its code is zero
    or the error that broke the descriptor; and when the event of the reader has
    given its slot back, it has come. *)
Theorem reader_cancel_once w :
  reader_reachable queue_loop w ->
  (forall l1 ec l2, r_calls w = l1 ++ OnCancel ec :: l2 -> l2 = [] /\ (ec = 0 \/ fd_ended (r_fd w) = Broken ec)) /\
  (forall g, r_gen w = Some g -> generation (r_slot w) <> g -> exists ec, OnCancel ec ∈ r_calls w).
Proof.
  intros [_ [(chunks & Hc & Hs & Hk) _ He _] Hl]%reader_reach. split.
  - intros l1 ec l2 Heq. rewrite Hc in Heq. clear Hc Hs Hk. revert l1 Heq.
    induction chunks as [|c chunks IH]; intros l1 Heq.
    + simpl in Heq. case_decide; [|by destruct l1]. destruct l1 as [|? [|]]; simplify_eq/=. done.
    + destruct l1 as [|y l1]; [done|]. injection Heq as _ Heq. by eapply IH.
  - intros g Hg Hne. rewrite Hg in Hl. destruct Hl as [(? & _)|[_ Hr]]; [done|].
    exists (rd_ec (r_self w)). rewrite Hc, Hg, decide_True by done. apply elem_of_app. right. by left.
Qed.

(** Nothing of the reader is touched after [on_cancel], so that the client
    may delete it there: whichever thread of the event goes on, no callback of
    the reader runs on a deleted reader. *)
Theorem reader_delete_safe w l1 t l2 sl' ts turns :
  reader_reachable queue_loop w -> r_threads w = l1 ++ t :: l2 -> exec t (r_slot w) = (sl', ts) ->
  exists o, reacts turns (news (r_slot w) sl') (r_with_event sl' (l1 ++ ts ++ l2) w) = Ok o.
Proof.
  intros [Hi Hc _]%reader_reach Hth Hex. rewrite Hth in Hi.
  assert (Hi' : slot_inv sl' (l1 ++ ts ++ l2)) by (eapply event_step_inv; [|exact Hi]; by constructor).
  destruct (exec_frame _ _ _ _ Hex) as [Flog _ _ _ _].
  destruct (reacts_ok turns (news (r_slot w) sl') (log (r_slot w)) (r_with_event sl' (l1 ++ ts ++ l2) w))
    as (o & Ho & _); [by apply (calls_world _ w)|rewrite <- Flog; apply Hi'|]. eauto.
Qed.
End props.

(** ** Running a schedule *)
Module ReaderExample.
#[local] Instance machine : Platform := {| ndebug := false; alloc_ok := fun _ => true |}.

Inductive rmove : Type :=
  | RStart
  | RExec (i : nat) (turns : list turn)
  | RNotify
  | RCancel
  | RDelete
  | RInput (l : list Z)
  | REof.

Definition one_loop : ptr -> ptr := fun _ => 4096.

Definition rplay (m : rmove) (w : rworld) : option rworld :=
  match m with
  | RStart =>
      if bool_decide (r_gen w = None) && r_live w && negb (in_use (r_slot w)) then
        match ntt_reader_start one_loop 0 64 w with Ok w' => Some w' | Err _ => None end
      else None
  | RExec i turns =>
      t ← r_threads w !! i;
      let '(sl', ts) := exec t (r_slot w) in
      match reacts turns (news (r_slot w) sl')
              (r_with_event sl' (take i (r_threads w) ++ ts ++ drop (S i) (r_threads w)) w) with
      | Ok o => o
      | Err _ => None
      end
  | RNotify => Some (r_with_event (r_slot w) (Dispatch (generation (r_slot w)) EPOLLIN :: r_threads w) w)
  | RCancel =>
      if r_live w then Some (r_with_event (r_slot w) (ntt_reader_cancel (r_self w) ++ r_threads w) w) else None
  | RDelete =>
      if existsb (fun c => match c with OnCancel _ => true | _ => false end) (r_calls w)
      then Some (ntt_reader_delete w) else None
  | RInput l => Some (r_with_fd (fd_arrive l (r_fd w)) (r_arrived w ++ l) w)
  | REof =>
      match fd_ended (r_fd w) with
      | StillOpen => Some (r_with_fd (mk_fd (fd_pending (r_fd w)) AtEof) (r_arrived w) w)
      | _ => None
      end
  end.

Fixpoint rplays (ms : list rmove) (w : rworld) : option rworld :=
  match ms with
  | [] => Some w
  | m :: ms => w' ← rplay m w; rplays ms w'
  end.

Lemma rplay_step m w w' : rplay m w = Some w' -> reader_step one_loop w w'.
Proof.
  destruct m as [|i turns| | | |l|]; simpl; intros Heq.
  - destruct (_ && _) eqn:Hb; [|done]. apply andb_true_iff in Hb as [[Hg%bool_decide_eq_true Hl]%andb_true_iff Hu%negb_true_iff].
    destruct (ntt_reader_start one_loop 0 64 w) as [w1|] eqn:Hs; [|done]. injection Heq as <-.
    by apply (reader_start one_loop w 0 64).
  - apply bind_Some in Heq as (t & Ht & Heq). destruct (exec t (r_slot w)) as [sl' ts] eqn:Hex.
    destruct (reacts _ _ _) as [o|] eqn:Hr; [|done]. rewrite Heq in Hr.
    eapply reader_event; [|exact Hex|exact Hr]. by rewrite take_drop_middle.
  - injection Heq as <-. apply reader_others. left. eauto.
  - destruct (r_live w) eqn:Hl; [|done]. injection Heq as <-. by apply reader_cancel.
  - destruct (existsb _ _) eqn:He; [|done]. injection Heq as <-. apply reader_delete.
    apply existsb_exists in He as ([|ec] & Hin%list_elem_of_In & He); [done|]. by exists ec.
  - injection Heq as <-. apply reader_input.
  - destruct (fd_ended (r_fd w)) eqn:He; try done. injection Heq as <-. by apply reader_ends.
Qed.

Lemma rplays_steps ms : forall w w', rplays ms w = Some w' -> rtc (reader_step one_loop) w w'.
Proof.
  induction ms as [|m ms IH]; intros w w' Heq; cbn [rplays] in Heq; [by injection Heq as ->|].
  apply bind_Some in Heq as (w1 & Hp & Heq). eapply rtc_l; [by eapply rplay_step|by apply IH].
Qed.

Definition blank_reader : rworld :=
  mk_rworld (fresh_slot (mk_event ntt_reader_vtbl NULL NULL 0 0 0 0) 1) []
    (ntt_reader_init (replicate SIZEOF_DATA 0)) (mk_fd [] StillOpen) [] [] None true.

Definition rafter (ms : list rmove) : rworld := default blank_reader (rplays ms blank_reader).

Lemma rafter_reachable ms : is_Some (rplays ms blank_reader) -> reader_reachable one_loop (rafter ms).
Proof.
  intros [w Hw]. unfold rafter. rewrite Hw. exists blank_reader, (mk_event ntt_reader_vtbl NULL NULL 0 0 0 0), 1,
    (replicate SIZEOF_DATA 0). split; [split; [done|apply length_replicate]|by eapply rplays_steps].
Qed.

(** The reader starts, input arrives and is read, interrupted once; the input ends
    and the handler cancels the event, which is reported; then the reader is
    deleted. *)
Definition steps (n : nat) : list rmove := replicate n (RExec 0 []).
Definition data_moves : list rmove :=
  [RStart] ++ steps 2 ++ [RInput [104; 105]; RNotify] ++ steps 8 ++
  [RExec 0 []; RExec 0 [mk_turn [] Interrupted; mk_turn [33] (AtMost 2); mk_turn [] (AtMost 9); calm]] ++ steps 4 ++ [RInput [10]].
Definition eof_moves : list rmove :=
  data_moves ++ [REof; RNotify] ++ steps 8 ++ [RExec 0 []; RExec 0 [calm; calm]].
Definition done_moves : list rmove := eof_moves ++ steps 11 ++ [RDelete].
Definition gone_moves : list rmove := done_moves ++ steps 1.

Lemma reader_stream_witness :
  chunks_of (r_calls (rafter data_moves)) = [[104; 105]; [33]] /\
  concat (chunks_of (r_calls (rafter data_moves))) ++ [10] = [104; 105; 33; 10].
Proof.
  split; [by vm_compute|].
  destruct (reader_stream one_loop (rafter data_moves)) as [Hs _].
  { apply rafter_reachable. vm_compute. eexists. reflexivity. }
  replace [10] with (fd_pending (r_fd (rafter data_moves))) by (by vm_compute). rewrite Hs. by vm_compute.
Defined.

Lemma reader_drains_witness :
  is_Some (ntt_reader_readable (replicate 3 calm) (r_self blank_reader) (mk_fd [1; 2] AtEof)) /\
  forall h, ntt_reader_readable [calm; calm] (r_self blank_reader) (mk_fd [1; 2] AtEof) = Some h ->
    concat (h_chunks h) = [1; 2] ++ h_arrived h /\ h_cancel h = true.
Proof.
  destruct (reader_drains [] (r_self blank_reader) (mk_fd [1; 2] AtEof)) as [He _]; [by vm_compute|done|].
  split; [exact He|]. intros h Hh.
  destruct (reader_drains [calm; calm] (r_self blank_reader) (mk_fd [1; 2] AtEof)) as [_ Hr]; [by vm_compute|done|].
  destruct (Hr h Hh) as (_ & Hc & Hx). split; [exact Hc|]. apply Hx. done.
Defined.

Lemma reader_cancel_once_witness :
  generation (r_slot (rafter gone_moves)) = 2 /\ r_live (rafter gone_moves) = false /\
  exists ec, OnCancel ec ∈ r_calls (rafter gone_moves).
Proof.
  split; [by vm_compute|]. split; [by vm_compute|].
  destruct (reader_cancel_once one_loop (rafter gone_moves)) as [_ Hg].
  { apply rafter_reachable. vm_compute. eexists. reflexivity. }
  apply (Hg 1); by vm_compute.
Defined.

Lemma reader_delete_safe_witness :
  r_live (rafter done_moves) = false /\
  exists o, reacts [] (news (r_slot (rafter done_moves)) (exec Finish (r_slot (rafter done_moves))).1)
    (r_with_event (exec Finish (r_slot (rafter done_moves))).1 [] (rafter done_moves)) = Ok o.
Proof.
  split; [by vm_compute|].
  apply (reader_delete_safe one_loop (rafter done_moves) [] Finish [] _ (exec Finish (r_slot (rafter done_moves))).2).
  - apply rafter_reachable. vm_compute. eexists. reflexivity.
  - by vm_compute.
  - by vm_compute.
Defined.
(** A reader that is cancelled by its client reports the code of the end of input. *)
Lemma cancel_code_zero :
  let w := rafter ([RStart] ++ steps 2 ++ [RInput [104]; RCancel] ++ steps 7) in
  r_calls w = [OnCancel 0] /\ fd_ended (r_fd w) = StillOpen.
Proof. by vm_compute. Qed.
End ReaderExample.
