(* ===== verification/Signal.v ===== *)
(** * Signals: data and operations

    Translates [src/signal.c]: for SIGTERM, SIGINT and SIGHUP a handler that
    counts the signal in an eventfd.  The state of the process that the code
    works on is here too: actions, the mask of the thread, pending signals and the
    open eventfds.  What other handlers do is not. *)

From stdpp Require Import base numbers list gmap strings pretty.
From Stdlib Require Import ZArith Lia.
From S2P Require Import Prelude.

#[local] Open Scope Z_scope.

Definition SIGHUP : Z := 1.
Definition SIGINT : Z := 2.
Definition SIGQUIT : Z := 3.
Definition SIGABRT : Z := 6.
Definition SIGKILL : Z := 9.
Definition SIGUSR1 : Z := 10.
Definition SIGSEGV : Z := 11.
Definition SIGUSR2 : Z := 12.
Definition SIGPIPE : Z := 13.
Definition SIGALRM : Z := 14.
Definition SIGTERM : Z := 15.
Definition SIGRTMIN : Z := 34.
Definition SIGRTMAX : Z := 64.
Definition NSIG : Z := 65.
Definition NTT_SIGRTUP : Z := SIGRTMIN.

(** ** Names *)

(** [snprintf(buf, 32, ...)] cuts what does not fit. *)
Definition snprintf32 (s : string) : string := String.substring 0 31 s.

Definition sig_name (sig : Z) : string :=
  if (sig >=? SIGRTMIN) && (sig <=? SIGRTMAX) then snprintf32 ("SIGRTMIN+" +:+ pretty (sig - SIGRTMIN))
  else if sig =? SIGINT then "SIGINT"
  else if sig =? SIGTERM then "SIGTERM"
  else if sig =? SIGKILL then "SIGKILL"
  else if sig =? SIGSEGV then "SIGSEGV"
  else if sig =? SIGABRT then "SIGABRT"
  else if sig =? SIGPIPE then "SIGPIPE"
  else if sig =? SIGALRM then "SIGALRM"
  else if sig =? SIGHUP then "SIGHUP"
  else if sig =? SIGQUIT then "SIGQUIT"
  else if sig =? SIGUSR1 then "SIGUSR1"
  else if sig =? SIGUSR2 then "SIGUSR2"
  else snprintf32 ("UNKNOWN(" +:+ pretty sig +:+ ")").

(** ** State *)

(** [struct sigaction]: the handler of the library, or what someone else set. *)
Inductive sigaction_t : Type :=
  | NttHandler
  | OtherAction (a : Z).

Definition SIG_DFL : sigaction_t := OtherAction 0.

#[global] Instance sigaction_eq_dec : EqDecision sigaction_t.
Proof. solve_decision. Defined.

Record ntt_signal : Type := mk_signal {
  old_action : sigaction_t;
  eventfd : Z;
}.

Inductive sigslot : Type := g_siterm | g_sigint | g_sighup.

#[global] Instance sigslot_eq_dec : EqDecision sigslot.
Proof. solve_decision. Defined.

Record process : Type := mk_process {
  ntt_signals : sigslot -> ntt_signal;
  actions : Z -> sigaction_t;
  blocked : gset Z;
  pending : gset Z;
  eventfds : gmap Z Z;
}.

Definition set_signal (k : sigslot) (x : ntt_signal) (p : process) :=
  mk_process (fun j => if decide (j = k) then x else ntt_signals p j) (actions p) (blocked p) (pending p) (eventfds p).
Definition set_action (sig : Z) (a : sigaction_t) (p : process) :=
  mk_process (ntt_signals p) (fun s => if decide (s = sig) then a else actions p s) (blocked p) (pending p) (eventfds p).
Definition set_mask (m pend : gset Z) (p : process) := mk_process (ntt_signals p) (actions p) m pend (eventfds p).
Definition set_fds (m : gmap Z Z) (p : process) := mk_process (ntt_signals p) (actions p) (blocked p) (pending p) m.

(** At the start of the program nothing is set up. *)
Definition fresh_process (acts : Z -> sigaction_t) (m : gset Z) (fds : gmap Z Z) : process :=
  mk_process (fun _ => mk_signal SIG_DFL (-1)) acts m ∅ fds.

(** ** The library *)
Definition ntt_signal_select (sig : Z) : option sigslot :=
  if sig =? SIGTERM then Some g_siterm
  else if sig =? SIGINT then Some g_sigint
  else if sig =? SIGHUP then Some g_sighup
  else None.

(** [write] of an eight byte one to an eventfd: an eventfd that is full refuses it,
    and so does a descriptor that is not open. *)
Definition eventfd_write_one (fd : Z) (m : gmap Z Z) : gmap Z Z :=
  match m !! fd with
  | Some n => if n + 1 <? UINT64_MAX then <[fd := n + 1]> m else m
  | None => m
  end.

Definition ntt_signal_raise (k : sigslot) (p : process) : process :=
  set_fds (eventfd_write_one (eventfd (ntt_signals p k)) (eventfds p)) p.

Definition ntt_signal_handler (sig : Z) (p : process) : process :=
  match ntt_signal_select sig with
  | Some k => ntt_signal_raise k p
  | None => p
  end.

(** ** The system *)

(** The action of a signal is taken. *)
Definition take_action (sig : Z) (p : process) : process :=
  match actions p sig with
  | NttHandler => ntt_signal_handler sig p
  | OtherAction _ => p
  end.

(** A signal for the thread. *)
Definition deliver (sig : Z) (p : process) : process :=
  if decide (sig ∈ blocked p) then set_mask (blocked p) ({[sig]} ∪ pending p) p
  else take_action sig p.

Definition block_one (sig : Z) (p : process) : process := set_mask ({[sig]} ∪ blocked p) (pending p) p.

(** Unblocking delivers a pending signal at once. *)
Definition unblock_one (sig : Z) (p : process) : process :=
  let was := bool_decide (sig ∈ pending p) in
  let p := set_mask (blocked p ∖ {[sig]}) (pending p ∖ {[sig]}) p in
  if was then take_action sig p else p.

Definition ntt_sigup_blocked (mask : option (gset Z)) : Z :=
  match mask with
  | None => 1
  | Some m => if decide (NTT_SIGRTUP ∈ m) then 1 else 0
  end.

(** What [ntt_print_blocked_signals] prints, line by line. *)
Definition ntt_print_blocked_signals (sigset : gset Z) : list string :=
  sig_name <$> filter (fun i => i ∈ sigset) (seqZ 0 NSIG).

(** ** Setting up and reverting, one system call after the other; [fd] is what
    [eventfd] returns *)
Definition setup_open (k : sigslot) (fd : Z) (p : process) : process :=
  set_signal k (mk_signal (old_action (ntt_signals p k)) fd)
    (if fd >=? 0 then set_fds (<[fd := 0]> (eventfds p)) p else p).

Definition setup_install (k : sigslot) (sig : Z) (p : process) : process :=
  set_action sig NttHandler (set_signal k (mk_signal (actions p sig) (eventfd (ntt_signals p k))) p).

Definition setup_calls (k : sigslot) (sig fd : Z) : list (process -> process) :=
  [block_one sig; setup_open k fd; setup_install k sig; unblock_one sig].

Definition revert_restore (k : sigslot) (sig : Z) (p : process) : process :=
  set_action sig (old_action (ntt_signals p k)) p.

Definition revert_close (k : sigslot) (p : process) : process :=
  set_fds (delete (eventfd (ntt_signals p k)) (eventfds p)) p.

Definition revert_calls (k : sigslot) (sig : Z) : list (process -> process) :=
  [block_one sig; revert_restore k sig; revert_close k; unblock_one sig].

Definition run_calls (l : list (process -> process)) (p : process) : process := foldl (fun p f => f p) p l.

Definition ntt_signal_setup (sig fd : Z) (p : process) : process :=
  match ntt_signal_select sig with
  | None => p
  | Some k => run_calls (setup_calls k sig fd) p
  end.

Definition ntt_signal_revert (sig : Z) (p : process) : process :=
  match ntt_signal_select sig with
  | None => p
  | Some k => run_calls (revert_calls k sig) p
  end.

Definition ntt_signal_get_eventfd (sig : Z) (p : process) : Z :=
  match ntt_signal_select sig with
  | Some k => eventfd (ntt_signals p k)
  | None => -1
  end.
