(* ===== verification/SignalProps.v ===== *)
(** * Signals: properties

    Setting up and reverting is a round trip, and no signal is lost on the way. *)

From stdpp Require Import base numbers list gmap strings pretty.
From Stdlib Require Import ZArith Lia.
From S2P Require Import Prelude.
From S2P Require Import Signal.

#[local] Open Scope Z_scope.

Implicit Types (p : process) (k : sigslot) (sig fd : Z).

(** Everything but the pending signals. *)
Record same_but_pending p p' : Prop := {
  sp_signals : ntt_signals p' = ntt_signals p;
  sp_actions : actions p' = actions p;
  sp_blocked : blocked p' = blocked p;
  sp_fds : eventfds p' = eventfds p;
}.

Lemma same_trans p1 p2 p3 : same_but_pending p1 p2 -> same_but_pending p2 p3 -> same_but_pending p1 p3.
Proof. intros [E1 E2 E3 E4] [F1 F2 F3 F4]. split; congruence. Qed.

(** Signals that arrive while they are blocked are pending, as one. *)
Lemma deliver_blocked m sig p :
  sig ∈ blocked p -> sig ∉ pending p ->
  same_but_pending p (Nat.iter m (deliver sig) p) /\
  (sig ∈ pending (Nat.iter m (deliver sig) p) <-> m <> 0%nat).
Proof.
  intros Hb Hp. induction m as [|m [IH1 IH2]]; simpl; [split; [done|by split]|].
  assert (Hb' : sig ∈ blocked (Nat.iter m (deliver sig) p)) by (by rewrite (sp_blocked _ _ IH1)).
  unfold deliver at 1 3. rewrite decide_True by done. split.
  - eapply same_trans; [exact IH1|done].
  - simpl. split; [done|]. intros _. set_solver.
Qed.

Lemma select_inj sig1 sig2 k : ntt_signal_select sig1 = Some k -> ntt_signal_select sig2 = Some k -> sig1 = sig2.
Proof.
  unfold ntt_signal_select. destruct (Z.eqb_spec sig1 SIGTERM), (Z.eqb_spec sig2 SIGTERM), (Z.eqb_spec sig1 SIGINT),
    (Z.eqb_spec sig2 SIGINT), (Z.eqb_spec sig1 SIGHUP), (Z.eqb_spec sig2 SIGHUP); congruence.
Qed.

(** The handler is installed, counts in [fd], and no signal is on its way. *)
Record counting k sig fd (n : Z) p : Prop := {
  ct_action : actions p sig = NttHandler;
  ct_fd : eventfd (ntt_signals p k) = fd;
  ct_open : eventfds p !! fd = Some n;
  ct_free : sig ∉ blocked p;
}.

Lemma counts_one k sig fd n p :
  ntt_signal_select sig = Some k -> counting k sig fd n p -> n + 1 < UINT64_MAX -> counting k sig fd (n + 1) (deliver sig p).
Proof.
  intros Hk [Ha Hf Ho Hb] Hn. unfold deliver. rewrite decide_False by done. unfold take_action. rewrite Ha.
  unfold ntt_signal_handler, ntt_signal_raise, eventfd_write_one. rewrite Hk, Hf, Ho.
  apply Z.ltb_lt in Hn. rewrite Hn. split; simpl; try done. by rewrite lookup_insert_eq.
Qed.

Lemma counts_many k sig fd (m : nat) : forall n p,
  ntt_signal_select sig = Some k -> counting k sig fd n p -> n + Z.of_nat m < UINT64_MAX ->
  counting k sig fd (n + Z.of_nat m) (Nat.iter m (deliver sig) p).
Proof.
  induction m as [|m IH]; intros n p Hk Hc Hn; [by rewrite Z.add_0_r|].
  simpl Nat.iter. replace (n + Z.of_nat (S m)) with (n + Z.of_nat m + 1) by lia.
  apply counts_one; [done| |lia]. apply IH; [done|done|lia].
Qed.

(** ** Setting up, with signals arriving after the system call [i] *)
Lemma window_counts k sig fd i (m : nat) p :
  ntt_signal_select sig = Some k -> 0 <= fd -> sig ∉ pending p -> (1 <= i <= 3)%nat ->
  counting k sig fd (Z.of_nat (Nat.min m 1))
    (run_calls (drop i (setup_calls k sig fd)) (Nat.iter m (deliver sig) (run_calls (take i (setup_calls k sig fd)) p))).
Proof.
  intros Hk Hfd Hp Hi.
  assert (Hfd' : (fd >=? 0) = true) by (by apply Z.geb_le).
  assert (Hb1 : sig ∈ {[sig]} ∪ blocked p) by set_solver.
  assert (Hgo : forall q, actions q sig = NttHandler -> eventfd (ntt_signals q k) = fd -> eventfds q !! fd = Some 0 ->
    (sig ∈ pending q <-> m <> 0%nat) -> counting k sig fd (Z.of_nat (Nat.min m 1)) (unblock_one sig q)).
  { intros q Ha Hf Ho Hm. unfold unblock_one. destruct m as [|m].
    - rewrite bool_decide_false by tauto. split; simpl; try done. set_solver.
    - rewrite bool_decide_true by (by apply Hm). unfold take_action. simpl. rewrite Ha.
      unfold ntt_signal_handler, ntt_signal_raise, eventfd_write_one. rewrite Hk. simpl. rewrite Hf, Ho.
      split; simpl; try done; [|set_solver]. rewrite lookup_insert_eq. f_equal. lia. }
  destruct i as [|[|[|[|i]]]]; try lia; cbn [run_calls setup_calls take drop foldl].
  - destruct (deliver_blocked m sig (block_one sig p) Hb1 Hp) as [[E1 E2 E3 E4] Hm].
    set (q := Nat.iter m _ _) in *. unfold setup_open. rewrite Hfd'. apply Hgo; [| | |exact Hm]; simpl.
    + by rewrite decide_True by done.
    + by rewrite !decide_True by done.
    + by rewrite lookup_insert_eq.
  - destruct (deliver_blocked m sig (setup_open k fd (block_one sig p))) as [[E1 E2 E3 E4] Hm];
      [unfold setup_open; by rewrite Hfd'..|].
    set (q := Nat.iter m _ _) in *. unfold setup_open in *. rewrite Hfd' in *. apply Hgo; [| | |exact Hm]; simpl.
    + by rewrite decide_True by done.
    + rewrite decide_True by done. simpl. rewrite E1. simpl. by rewrite decide_True by done.
    + rewrite E4. simpl. by rewrite lookup_insert_eq.
  - destruct (deliver_blocked m sig (setup_install k sig (setup_open k fd (block_one sig p)))) as [[E1 E2 E3 E4] Hm];
      [unfold setup_open; by rewrite Hfd'..|].
    set (q := Nat.iter m _ _) in *. unfold setup_install, setup_open in *. rewrite Hfd' in *.
    apply Hgo; [| | |exact Hm].
    + rewrite E2. simpl. by rewrite decide_True by done.
    + rewrite E1. simpl. by rewrite !decide_True by done.
    + rewrite E4. simpl. by rewrite lookup_insert_eq.
Qed.

(** No signal is lost by setting up: a signal that arrives between two system
    calls of [ntt_signal_setup] is counted in the eventfd when the call returns -
    several of them as one, as the system merges them - and every signal after it
    is counted, until the counter is full. *)
Theorem signal_counted k sig fd i (m n : nat) p :
  ntt_signal_select sig = Some k -> 0 <= fd -> sig ∉ pending p -> (1 <= i <= 3)%nat ->
  Z.of_nat (S n) < UINT64_MAX ->
  let calls := setup_calls k sig fd in
  let p' := Nat.iter n (deliver sig) (run_calls (drop i calls) (Nat.iter m (deliver sig) (run_calls (take i calls) p))) in
  ntt_signal_get_eventfd sig p' = fd /\ eventfds p' !! fd = Some (Z.of_nat (Nat.min m 1 + n)).
Proof.
  intros Hk Hfd Hp Hi Hn calls p'.
  destruct (counts_many k sig fd n _ _ Hk (window_counts k sig fd i m p Hk Hfd Hp Hi)) as [Ha Hf Ho Hb]; [lia|].
  fold calls in Ha, Hf, Ho, Hb. fold p' in Ha, Hf, Ho, Hb. split.
  - unfold ntt_signal_get_eventfd. by rewrite Hk.
  - rewrite Ho. f_equal. lia.
Qed.

Lemma unblock_quiet sig p :
  sig ∉ pending p -> unblock_one sig p = set_mask (blocked p ∖ {[sig]}) (pending p ∖ {[sig]}) p.
Proof. intros Hp. unfold unblock_one. by rewrite bool_decide_false. Qed.

(** C36.  When the eventfd could be opened and the signal is not pending,
    [ntt_signal_revert] undoes [ntt_signal_setup]: every action and every
    open eventfd is as before; the signal itself is left unblocked, also where it
    was blocked before; a signal that the library does not manage is left alone by
    both. *)
Theorem signal_setup_revert sig fd p :
  0 <= fd -> eventfds p !! fd = None -> sig ∉ pending p ->
  let p' := ntt_signal_revert sig (ntt_signal_setup sig fd p) in
  match ntt_signal_select sig with
  | None => p' = p
  | Some k =>
      (forall s, actions p' s = actions p s) /\ eventfds p' = eventfds p /\ pending p' = pending p /\
      blocked p' = blocked p ∖ {[sig]} /\ (forall j, j <> k -> ntt_signals p' j = ntt_signals p j)
  end.
Proof.
  intros Hfd Hnone Hp p'. unfold p', ntt_signal_revert, ntt_signal_setup.
  destruct (ntt_signal_select sig) as [k|] eqn:Hk; [|done].
  assert (Hfd' : (fd >=? 0) = true) by (by apply Z.geb_le).
  cbn [run_calls setup_calls revert_calls foldl]. unfold setup_open. rewrite Hfd'.
  rewrite (unblock_quiet sig (setup_install _ _ _)) by done.
  rewrite unblock_quiet by (simpl; set_solver). simpl.
  split_and!.
  - intros s. destruct (decide (k = k)); [|done]. by destruct (decide (s = sig)) as [->|].
  - destruct (decide (k = k)); [|done]. by rewrite delete_insert_id.
  - set_solver.
  - set_solver.
  - intros j Hj. by rewrite !decide_False by done.
Qed.

(** The names that are printed tell signals apart, and fit their buffer. *)
Lemma sig_name_distinct :
  NoDup (sig_name <$> seqZ 0 NSIG) /\ Forall (fun i => (String.length (sig_name i) < 32)%nat) (seqZ 0 NSIG).
Proof.
  split; (apply (bool_decide_eq_true_1 _); by vm_compute).
Qed.

(** ** Witnesses *)
Module SignalExample.
Definition start : process := fresh_process (fun s => if decide (s = SIGTERM) then OtherAction 7 else SIG_DFL) {[SIGTERM]} ∅.

Lemma signal_counted_witness :
  eventfds (Nat.iter 2 (deliver SIGTERM) (run_calls (drop 2 (setup_calls g_siterm SIGTERM 5))
    (Nat.iter 3 (deliver SIGTERM) (run_calls (take 2 (setup_calls g_siterm SIGTERM 5)) start)))) !! 5 = Some 3.
Proof.
  apply (signal_counted g_siterm SIGTERM 5 2 3 2 start); [done|lia|set_solver|lia|done].
Defined.

Lemma signal_setup_revert_witness :
  actions (ntt_signal_revert SIGTERM (ntt_signal_setup SIGTERM 5 start)) SIGTERM = OtherAction 7 /\
  eventfds (ntt_signal_revert SIGTERM (ntt_signal_setup SIGTERM 5 start)) = ∅.
Proof.
  destruct (signal_setup_revert SIGTERM 5 start) as (Ha & He & _); [lia|done|set_solver|].
  split; [rewrite Ha; by vm_compute|exact He].
Defined.
End SignalExample.
