(* ===== verification/Process.v ===== *)
(** * State of the process: the log and the keys of threads

    Translates [src/log.c] and the keys of threads of [src/worker.c]: what all
    loops of a process share.  The text that [vprintf] makes of a format is a
    sequence of pieces, written one after the other; another thread may run in
    between. *)

From stdpp Require Import base numbers list strings relations.
From Stdlib Require Import ZArith Lia.
From S2P Require Import Prelude.

#[local] Open Scope Z_scope.

(** ** State *)
Definition message : Type := list string.

(** Where a thread stands in [ntt_log]; [sofar] and [rest] are what [vprintf]
    has written of the message and what is left. *)
Inductive log_point : Type :=
  | LogOutside
  | LogEnter (msg : message)
  | LogLock (msg : message)
  | LogPrint (sofar rest : message).

(** A thread.  [called] is not in the code: the messages it has passed to
    [ntt_log], in order, noted where the call is made and nowhere else. *)
Record pthread : Type := mk_pthread {
  pt_point : log_point;
  g_thread_key : Z;
  called : list message;
}.

(** [written] is not in the code: who printed which message, in the order in
    which the lock was given back. *)
Record process : Type := mk_process {
  g_ntt_log_enabled : bool;
  g_mutex : option nat;
  stdout : list string;
  g_thread_next_key : Z;
  pthreads : list pthread;
  written : list (nat * message);
}.

Definition with_threads ts P :=
  mk_process (g_ntt_log_enabled P) (g_mutex P) (stdout P) (g_thread_next_key P) ts (written P).
Definition at_log p t := mk_pthread p (g_thread_key t) (called t).
Definition call_log msg t := mk_pthread (LogEnter msg) (g_thread_key t) (called t ++ [msg]).
Definition set_thread i t P := with_threads (<[i := t]> (pthreads P)) P.

(** [mylibrary_load], the constructor of the library, with [n] threads to come;
    [env] is what [getenv("NTT_ENABLE_LOG")] returns. *)
Definition mylibrary_load (env : option string) (n : nat) : process :=
  mk_process (match env with Some _ => true | None => false end) None [] 1
    (replicate n (mk_pthread LogOutside 0 [])) [].

(** ** Operations *)

(** A step of the thread [i] inside of [ntt_log]; [None] when it has to wait. *)
Definition ntt_log (i : nat) (t : pthread) (P : process) : option process :=
  match pt_point t with
  | LogOutside => None
  | LogEnter msg =>
      if negb (g_ntt_log_enabled P) then Some (set_thread i (at_log LogOutside t) P)
      else Some (set_thread i (at_log (LogLock msg) t) P)
  | LogLock msg =>
      match g_mutex P with
      | Some _ => None
      | None =>
          Some (set_thread i (at_log (LogPrint [] msg) t)
            (mk_process (g_ntt_log_enabled P) (Some i) (stdout P) (g_thread_next_key P) (pthreads P) (written P)))
      end
  | LogPrint sofar (piece :: rest) =>
      Some (set_thread i (at_log (LogPrint (sofar ++ [piece]) rest) t)
        (mk_process (g_ntt_log_enabled P) (g_mutex P) (stdout P ++ [piece]) (g_thread_next_key P) (pthreads P)
           (written P)))
  | LogPrint sofar [] =>
      Some (set_thread i (at_log LogOutside t)
        (mk_process (g_ntt_log_enabled P) None (stdout P) (g_thread_next_key P) (pthreads P)
           (written P ++ [(i, sofar)])))
  end.

(** [ntt_this_thread_key] of the thread [i]. *)
Definition ntt_this_thread_key (i : nat) (t : pthread) (P : process) : Z * process :=
  if g_thread_key t =? 0 then
    let key := g_thread_next_key P in
    (key, set_thread i (mk_pthread (pt_point t) key (called t))
       (mk_process (g_ntt_log_enabled P) (g_mutex P) (stdout P) (u64 (key + 1)) (pthreads P) (written P)))
  else (g_thread_key t, P).

Inductive process_step : process -> process -> Prop :=
  | step_log i t P P' : pthreads P !! i = Some t -> ntt_log i t P = Some P' -> process_step P P'
  | step_log_call i t P msg :
      pthreads P !! i = Some t -> pt_point t = LogOutside ->
      process_step P (set_thread i (call_log msg t) P)
  | step_key i t P : pthreads P !! i = Some t -> process_step P (ntt_this_thread_key i t P).2.

Definition process_reachable (env : option string) (n : nat) (P : process) : Prop :=
  rtc process_step (mylibrary_load env n) P.

(** ** The invariant *)

(** What the thread that holds the lock has written of its message. *)
Definition partial (t : pthread) : message := match pt_point t with LogPrint sofar _ => sofar | _ => [] end.
Definition printing (t : pthread) : bool := match pt_point t with LogPrint _ _ => true | _ => false end.
(** The message that the thread has passed to [ntt_log] when the call has not returned. *)
Definition in_call (t : pthread) : list message :=
  match pt_point t with
  | LogOutside => []
  | LogEnter msg | LogLock msg => [msg]
  | LogPrint sofar rest => [sofar ++ rest]
  end.
Definition keyed (t : pthread) : nat := if decide (g_thread_key t = 0) then 0 else 1.

Definition messages_of (i : nat) (l : list (nat * message)) : list message :=
  omap (fun x => if decide (x.1 = i) then Some x.2 else None) l.

Record log_inv (P : process) : Prop := {
  lg_out : stdout P = concat (written P).*2 ++
    match g_mutex P with Some i => from_option partial [] (pthreads P !! i) | None => [] end;
  lg_lock : forall i t, pthreads P !! i = Some t -> printing t = true <-> g_mutex P = Some i;
  lg_own : g_ntt_log_enabled P = true -> forall i t, pthreads P !! i = Some t ->
    called t = messages_of i (written P) ++ in_call t;
  lg_who : Forall (fun x => (x.1 < length (pthreads P))%nat) (written P);
  lg_off : g_ntt_log_enabled P = false -> stdout P = [] /\
    forall i t, pthreads P !! i = Some t -> match pt_point t with LogLock _ | LogPrint _ _ => False | _ => True end;
}.

Record keys_inv (P : process) : Prop := {
  ky_next : g_thread_next_key P = 1 + Z.of_nat (total keyed (pthreads P));
  ky_range : forall i t, pthreads P !! i = Some t -> 0 <= g_thread_key t < g_thread_next_key P;
  ky_unique : forall i j t u, pthreads P !! i = Some t -> pthreads P !! j = Some u ->
    g_thread_key t = g_thread_key u -> g_thread_key t <> 0 -> i = j;
}.
