(* ===== verification/ProcessProps.v ===== *)
(** * State of the process: properties *)

From stdpp Require Import base numbers list strings relations.
From Stdlib Require Import ZArith Lia.
From S2P Require Import Prelude.
From S2P Require Import Process.

#[local] Open Scope Z_scope.

Section lemmas.
Implicit Types (P : process) (t : pthread).

(** ** One thread changes *)
Lemma set_thread_lookup (ts : list pthread) i t t' j u :
  ts !! i = Some t -> <[i := t']> ts !! j = Some u -> j = i /\ u = t' \/ j <> i /\ ts !! j = Some u.
Proof.
  intros Hi. rewrite list_lookup_insert_Some. intros [(-> & -> & _)|[Hne Hj]]; [by left|right]. done.
Qed.

Lemma partial_same P i t t' :
  pthreads P !! i = Some t -> printing t = false -> (printing t = true <-> g_mutex P = Some i) ->
  match g_mutex P with Some j => from_option partial [] (<[i := t']> (pthreads P) !! j) | None => [] end =
  match g_mutex P with Some j => from_option partial [] (pthreads P !! j) | None => [] end.
Proof.
  intros Hi Hp Hl. destruct (g_mutex P) as [j|]; [|done]. rewrite list_lookup_insert_ne; [done|].
  intros ->. rewrite Hp in Hl. by destruct Hl as [_ Hl]; specialize (Hl eq_refl).
Qed.

(** A thread that does not print moves to a place where it does not; what it
    has called since is what it has in hand. *)
Lemma log_move_inv P i t t' :
  log_inv P -> pthreads P !! i = Some t -> printing t = false -> printing t' = false ->
  (g_ntt_log_enabled P = false -> match pt_point t' with LogLock _ => False | _ => True end) ->
  (g_ntt_log_enabled P = true -> exists l, called t' = called t ++ l /\ in_call t' = in_call t ++ l) ->
  log_inv (set_thread i t' P).
Proof.
  intros [Ho Hl Hw Hid Hoff] Hi Hp Hp' He Hc. pose proof (Hl i t Hi) as Hit. split; simpl.
  - by erewrite partial_same.
  - intros j u Hj. destruct (set_thread_lookup _ _ _ _ _ _ Hi Hj) as [[-> ->]|[Hne Hj']]; [|by apply Hl].
    rewrite Hp'. rewrite Hp in Hit. done.
  - intros Hen j u Hj. destruct (set_thread_lookup _ _ _ _ _ _ Hi Hj) as [[-> ->]|[Hne Hj']]; [|by apply Hw].
    destruct (Hc Hen) as (l & -> & ->). by rewrite (Hw Hen i t Hi), app_assoc.
  - by rewrite length_insert.
  - intros Hen. destruct (Hoff Hen) as [Hout Hpt]. split; [done|]. intros j u Hj.
    destruct (set_thread_lookup _ _ _ _ _ _ Hi Hj) as [[-> ->]|[Hne Hj']]; [|by eapply Hpt].
    specialize (He Hen). unfold printing in Hp'. by destruct (pt_point t').
Qed.

Lemma messages_of_app i l l' : messages_of i (l ++ l') = messages_of i l ++ messages_of i l'.
Proof. apply omap_app. Qed.

Lemma messages_of_one i j m : messages_of i [(j, m)] = if decide (j = i) then [m] else [].
Proof. unfold messages_of. simpl. by case_decide. Qed.

(** The thread takes the lock. *)
Lemma log_lock_inv P i t msg :
  log_inv P -> pthreads P !! i = Some t -> pt_point t = LogLock msg -> g_mutex P = None ->
  log_inv (set_thread i (at_log (LogPrint [] msg) t)
    (mk_process (g_ntt_log_enabled P) (Some i) (stdout P) (g_thread_next_key P) (pthreads P) (written P))).
Proof.
  intros [Ho Hl Hw Hid Hoff] Hi Hp Hm. rewrite Hm in Ho. split; simpl.
  - rewrite list_lookup_insert_eq by (by eapply lookup_lt_Some). by rewrite Ho.
  - intros j u Hj. destruct (set_thread_lookup _ _ _ _ _ _ Hi Hj) as [[-> ->]|[Hne Hj']]; [done|].
    rewrite (Hl j u Hj'), Hm. split; [done|]. intros [= ->]. done.
  - intros Hen j u Hj. destruct (set_thread_lookup _ _ _ _ _ _ Hi Hj) as [[-> ->]|[Hne Hj']]; [|by apply Hw].
    simpl. rewrite (Hw Hen i t Hi). unfold in_call. by rewrite Hp.
  - by rewrite length_insert.
  - intros Hen. destruct (Hoff Hen) as [_ Hpt]. specialize (Hpt i t Hi). by rewrite Hp in Hpt.
Qed.

Lemma print_enabled P i t sofar rest :
  log_inv P -> pthreads P !! i = Some t -> pt_point t = LogPrint sofar rest ->
  g_mutex P = Some i /\ g_ntt_log_enabled P = true /\ stdout P = concat (written P).*2 ++ sofar.
Proof.
  intros [Ho Hl Hw Hid Hoff] Hi Hp.
  assert (Hm : g_mutex P = Some i) by (apply (Hl i t Hi); unfold printing; by rewrite Hp). split_and!; [done| |].
  - destruct (g_ntt_log_enabled P) eqn:He; [done|]. destruct (Hoff eq_refl) as [_ Hpt]. specialize (Hpt i t Hi).
    by rewrite Hp in Hpt.
  - rewrite Ho, Hm, Hi. simpl. unfold partial. by rewrite Hp.
Qed.

(** The thread writes one more piece of its message. *)
Lemma log_piece_inv P i t sofar piece rest :
  log_inv P -> pthreads P !! i = Some t -> pt_point t = LogPrint sofar (piece :: rest) ->
  log_inv (set_thread i (at_log (LogPrint (sofar ++ [piece]) rest) t)
    (mk_process (g_ntt_log_enabled P) (g_mutex P) (stdout P ++ [piece]) (g_thread_next_key P) (pthreads P) (written P))).
Proof.
  intros Hinv Hi Hp. destruct (print_enabled _ _ _ _ _ Hinv Hi Hp) as (Hm & Hen & Ho).
  destruct Hinv as [_ Hl Hw Hid _]. split; simpl; rewrite ?Hen; [| |intros _| |done].
  - rewrite Hm, list_lookup_insert_eq by (by eapply lookup_lt_Some). simpl. by rewrite Ho, <- app_assoc.
  - intros j u Hj. destruct (set_thread_lookup _ _ _ _ _ _ Hi Hj) as [[-> ->]|[Hne Hj']]; [done|]. by apply Hl.
  - intros j u Hj. destruct (set_thread_lookup _ _ _ _ _ _ Hi Hj) as [[-> ->]|[Hne Hj']]; [|by apply Hw].
    simpl. rewrite (Hw Hen i t Hi). unfold in_call. rewrite Hp. simpl. by rewrite <- app_assoc.
  - by rewrite length_insert.
Qed.

(** The message is out: the thread gives the lock back. *)
Lemma log_unlock_inv P i t sofar :
  log_inv P -> pthreads P !! i = Some t -> pt_point t = LogPrint sofar [] ->
  log_inv (set_thread i (at_log LogOutside t)
    (mk_process (g_ntt_log_enabled P) None (stdout P) (g_thread_next_key P) (pthreads P) (written P ++ [(i, sofar)]))).
Proof.
  intros Hinv Hi Hp. destruct (print_enabled _ _ _ _ _ Hinv Hi Hp) as (Hm & Hen & Ho).
  destruct Hinv as [_ Hl Hw Hid _]. split; simpl; rewrite ?Hen; [| |intros _| |done].
  - rewrite Ho, fmap_app, concat_app. simpl. by rewrite !app_nil_r.
  - intros j u Hj. destruct (set_thread_lookup _ _ _ _ _ _ Hi Hj) as [[-> ->]|[Hne Hj']]; [done|].
    rewrite (Hl j u Hj'), Hm. split; [|done]. intros [= ->]. done.
  - intros j u Hj. rewrite messages_of_app, messages_of_one.
    destruct (set_thread_lookup _ _ _ _ _ _ Hi Hj) as [[-> ->]|[Hne Hj']].
    + rewrite decide_True by done. simpl. rewrite (Hw Hen i t Hi). unfold in_call. by rewrite Hp, !app_nil_r.
    + rewrite decide_False by done. rewrite app_nil_r. by apply Hw.
  - rewrite length_insert. apply Forall_app. split; [done|]. constructor; [|done]. by eapply lookup_lt_Some.
Qed.

Lemma log_exec_inv P i t P' :
  log_inv P -> pthreads P !! i = Some t -> ntt_log i t P = Some P' -> log_inv P'.
Proof.
  intros Hinv Hi Heq. unfold ntt_log in Heq. destruct (pt_point t) as [|msg|msg|sofar [|piece rest]] eqn:Hp; [done|..].
  - destruct (g_ntt_log_enabled P) eqn:He; injection Heq as <-;
      (apply (log_move_inv _ _ t); [done|done|unfold printing; by rewrite Hp|done|by rewrite He|]); rewrite He; [|done].
    intros _. exists []. unfold in_call. simpl. by rewrite Hp, app_nil_r.
  - destruct (g_mutex P) as [|] eqn:Hm; [done|]. injection Heq as <-. by apply log_lock_inv.
  - injection Heq as <-. by eapply log_unlock_inv.
  - injection Heq as <-. by eapply log_piece_inv.
Qed.

Lemma log_step_inv P P' : process_step P P' -> log_inv P -> log_inv P'.
Proof.
  intros Hs Hinv. inversion Hs as [i t ? ? Hi Heq|i t ? msg Hi Hp|i t ? Hi]; subst.
  - by eapply log_exec_inv.
  - apply (log_move_inv _ _ t); try done; [unfold printing; by rewrite Hp|]. intros _. exists [msg].
    unfold in_call. simpl. by rewrite Hp.
  - unfold ntt_this_thread_key. destruct (g_thread_key t =? 0); [|done]. destruct Hinv as [Ho Hl Hw Hid Hoff].
    assert (Hall : forall j u, <[i := mk_pthread (pt_point t) (g_thread_next_key P) (called t)]> (pthreads P) !! j = Some u ->
      exists v, pthreads P !! j = Some v /\ pt_point u = pt_point v /\ called u = called v).
    { intros j u Hj. destruct (set_thread_lookup _ _ _ _ _ _ Hi Hj) as [[-> ->]|[_ Hj']]; eauto. }
    split; simpl.
    + rewrite Ho. f_equal. destruct (g_mutex P) as [j|]; [|done].
      destruct (decide (j = i)) as [->|Hne]; [|by rewrite list_lookup_insert_ne].
      by rewrite list_lookup_insert_eq, Hi by (by eapply lookup_lt_Some).
    + intros j u (v & Hv & Hp & _)%Hall. unfold printing. rewrite Hp. by apply Hl.
    + intros Hen j u (v & Hv & Hp & ->)%Hall. unfold in_call. rewrite Hp. by apply Hw.
    + by rewrite length_insert.
    + intros Hen. destruct (Hoff Hen) as [Hout Hpt]. split; [done|]. intros j u (v & Hv & -> & _)%Hall. by eapply Hpt.
Qed.

(** ** Keys *)
Lemma keys_same P P' i t t' :
  keys_inv P -> pthreads P !! i = Some t -> pthreads P' = <[i := t']> (pthreads P) ->
  g_thread_key t' = g_thread_key t -> g_thread_next_key P' = g_thread_next_key P -> keys_inv P'.
Proof.
  intros [Hn Hr Hu] Hi Hts Hk Hnext.
  assert (Hall : forall j u, pthreads P' !! j = Some u -> exists v, pthreads P !! j = Some v /\ g_thread_key u = g_thread_key v).
  { rewrite Hts. intros j u Hj. destruct (set_thread_lookup _ _ _ _ _ _ Hi Hj) as [[-> ->]|[_ Hj']]; eauto. }
  split.
  - rewrite Hnext, Hn, Hts. pose proof (total_insert keyed _ i t t' Hi) as Ht. unfold keyed in Ht at 2 4.
    rewrite Hk in Ht. lia.
  - intros j u (v & Hv & ->)%Hall. rewrite Hnext. by eapply Hr.
  - intros j j' u u' (v & Hv & ->)%Hall (v' & Hv' & ->)%Hall. by apply Hu.
Qed.

Lemma keyed_length (ts : list pthread) : (total keyed ts <= length ts)%nat.
Proof.
  induction ts as [|t ts IH]; [done|]. rewrite total_cons. simpl. unfold keyed at 1. case_decide; lia.
Qed.

Lemma keys_step_inv P P' :
  Z.of_nat (length (pthreads P)) < 2 ^ 64 - 1 -> process_step P P' -> keys_inv P ->
  keys_inv P' /\ length (pthreads P') = length (pthreads P).
Proof.
  intros Hlen Hs Hinv. inversion Hs as [i t ? ? Hi Heq|i t ? msg Hi Hp|i t ? Hi]; subst.
  - assert (exists t', pthreads P' = <[i := t']> (pthreads P) /\ g_thread_key t' = g_thread_key t /\
      g_thread_next_key P' = g_thread_next_key P) as (t' & Hts & Hk & Hn).
    { unfold ntt_log in Heq. destruct (pt_point t) as [| | |? []]; try done; repeat case_match; try done;
        injection Heq as <-; simpl; eauto. }
    split; [by eapply keys_same|]. rewrite Hts. apply length_insert.
  - split; [by eapply keys_same|]. apply length_insert.
  - unfold ntt_this_thread_key. destruct (Z.eqb_spec (g_thread_key t) 0) as [Hz|]; [|done].
    split; [|apply length_insert]. destruct Hinv as [Hn Hr Hu]. simpl.
    pose proof (total_insert keyed (pthreads P) i t (mk_pthread (pt_point t) (g_thread_next_key P) (called t)) Hi) as Ht.
    assert (Hk : keyed (mk_pthread (pt_point t) (g_thread_next_key P) (called t)) = 1%nat).
    { unfold keyed. rewrite decide_False; [done|]. simpl. lia. }
    pose proof (keyed_length (<[i := mk_pthread (pt_point t) (g_thread_next_key P) (called t)]> (pthreads P))) as Hle.
    rewrite length_insert in Hle. rewrite Hk in Ht. unfold keyed at 2 in Ht. rewrite decide_True in Ht by done.
    split; simpl; rewrite ?(u64_small (g_thread_next_key P + 1)) by lia.
    + lia.
    + intros j u Hj. destruct (set_thread_lookup _ _ _ _ _ _ Hi Hj) as [[-> ->]|[_ Hj']]; simpl; [lia|].
      pose proof (Hr j u Hj'). lia.
    + intros j j' u u' Hj Hj' Heq Hne.
      destruct (set_thread_lookup _ _ _ _ _ _ Hi Hj) as [[-> ->]|[Hn1 Hj1]],
        (set_thread_lookup _ _ _ _ _ _ Hi Hj') as [[-> ->]|[Hn2 Hj2]]; simpl in *; try done.
      * pose proof (Hr j' u' Hj2). lia.
      * pose proof (Hr j u Hj1). lia.
      * by eapply Hu.
Qed.
End lemmas.

Section props.
Implicit Types (P : process).

Lemma load_log_inv env n : log_inv (mylibrary_load env n).
Proof.
  assert (Hall : forall i t, pthreads (mylibrary_load env n) !! i = Some t -> t = mk_pthread LogOutside 0 [])
    by (intros i t [-> _]%lookup_replicate; done).
  split; simpl; try done.
  - by intros i t ->%Hall.
  - by intros _ i t ->%Hall.
  - intros _. split; [done|]. by intros i t ->%Hall.
Qed.

Lemma process_log_inv env n P : process_reachable env n P -> log_inv P.
Proof.
  intros Hr. unfold process_reachable in Hr. pose proof (load_log_inv env n) as Hi.
  induction Hr; eauto using log_step_inv.
Qed.

Lemma load_keys_inv env n : keys_inv (mylibrary_load env n).
Proof.
  assert (Hall : forall i t, pthreads (mylibrary_load env n) !! i = Some t -> t = mk_pthread LogOutside 0 [])
    by (intros i t [-> _]%lookup_replicate; done).
  split; simpl.
  - assert (total keyed (replicate n (mk_pthread LogOutside 0 [])) = 0%nat) as -> by (clear; by induction n). done.
  - intros i t ->%Hall. simpl. lia.
  - by intros i j t u ->%Hall.
Qed.

Lemma process_keys_inv env n P :
  Z.of_nat n < 2 ^ 64 - 1 -> process_reachable env n P -> keys_inv P /\ length (pthreads P) = n.
Proof.
  intros Hn Hr. unfold process_reachable in Hr.
  assert (Hi : keys_inv (mylibrary_load env n) /\ length (pthreads (mylibrary_load env n)) = n)
    by (split; [apply load_keys_inv|apply length_replicate]).
  induction Hr as [|x y z Hs _ IH]; [done|]. destruct Hi as [Hk Hl].
  destruct (keys_step_inv x y) as [Hk' Hl']; [by rewrite Hl|done|done|]. apply IH. by rewrite Hl'.
Qed.

Lemma reachable_enabled env n P : process_reachable env n P -> g_ntt_log_enabled P = g_ntt_log_enabled (mylibrary_load env n).
Proof.
  intros Hr. unfold process_reachable in Hr. remember (mylibrary_load env n) as P0 eqn:E. clear E.
  induction Hr as [|x y z Hs _ IH]; [done|]. rewrite IH. inversion Hs as [i t ? ? Hi Heq| |i t]; subst; try done.
  - unfold ntt_log in Heq. destruct (pt_point t) as [| | |? []]; try done; repeat case_match; try done;
      by injection Heq as <-.
  - unfold ntt_this_thread_key. by destruct (_ =? 0).
Qed.

Lemma step_length P P' : process_step P P' -> length (pthreads P') = length (pthreads P).
Proof.
  intros Hs. inversion Hs as [i t ? ? Hi Heq|i t ? msg Hi Hp|i t ? Hi]; subst.
  - unfold ntt_log in Heq. destruct (pt_point t) as [| | |? []]; try done; repeat case_match; try done;
      injection Heq as <-; apply length_insert.
  - apply length_insert.
  - unfold ntt_this_thread_key. destruct (_ =? 0); [|done]. apply length_insert.
Qed.

Lemma reachable_length env n P : process_reachable env n P -> length (pthreads P) = n.
Proof.
  intros Hr. unfold process_reachable in Hr. assert (Hl : length (pthreads (mylibrary_load env n)) = n) by apply length_replicate.
  induction Hr as [|x y z Hs _ IH]; [done|]. apply IH. by rewrite (step_length _ _ Hs).
Qed.

(** C38.  Messages of the log come out whole and are never mixed.  With
    [NTT_ENABLE_LOG] set, the standard output is a sequence of messages of the
    threads of the process, followed by what the holder of the lock has written of
    its own; the messages a thread has passed to [ntt_log] are, in the order of
    its calls, the ones of that sequence that are its own, complete, and then the
    one of a call that has not returned, of which nothing is written before the
    thread holds the lock.  Without [NTT_ENABLE_LOG] nothing is written at all. *)
Theorem log_messages_whole env n P :
  process_reachable env n P ->
  (env <> None ->
   exists msgs sofar, stdout P = concat msgs.*2 ++ sofar /\
     Forall (fun x => (x.1 < n)%nat) msgs /\
     (g_mutex P = None -> sofar = []) /\
     forall i t, pthreads P !! i = Some t ->
       match pt_point t with
       | LogOutside => called t = messages_of i msgs
       | LogEnter msg | LogLock msg => called t = messages_of i msgs ++ [msg]
       | LogPrint start rest =>
           g_mutex P = Some i /\ sofar = start /\ called t = messages_of i msgs ++ [start ++ rest]
       end) /\
  (env = None -> stdout P = []).
Proof.
  intros Hr. pose proof (process_log_inv _ _ _ Hr) as Hinv. pose proof (reachable_enabled _ _ _ Hr) as Hen.
  pose proof (reachable_length _ _ _ Hr) as Hlen. pose proof Hinv as [Ho Hl Hw Hid Hoff]. split.
  - intros Henv. assert (He : g_ntt_log_enabled P = true) by (rewrite Hen; by destruct env).
    exists (written P). eexists. split_and!; [exact Ho|by rewrite Hlen in Hid|by intros ->|].
    intros i t Hi. specialize (Hw He i t Hi). unfold in_call in Hw. destruct (pt_point t) as [| | |start rest] eqn:Hp; try done.
    + by rewrite app_nil_r in Hw.
    + destruct (print_enabled _ _ _ _ _ Hinv Hi Hp) as (Hm & _ & _). split_and!; [done| |done].
      rewrite Hm, Hi. simpl. unfold partial. by rewrite Hp.
  - intros ->. apply Hoff. by rewrite Hen.
Qed.

(** Keys of threads are unique: [ntt_this_thread_key] returns a key that no
    other thread has, never zero, and the same one each time, as long as there
    are fewer threads than keys. *)
Theorem thread_keys_unique env n P i t :
  Z.of_nat n < 2 ^ 64 - 1 -> process_reachable env n P -> pthreads P !! i = Some t ->
  let '(key, P') := ntt_this_thread_key i t P in
  0 < key < 2 ^ 64 /\
  (exists t', pthreads P' !! i = Some t' /\ g_thread_key t' = key /\ ntt_this_thread_key i t' P' = (key, P')) /\
  (forall j u, pthreads P' !! j = Some u -> g_thread_key u = key -> j = i).
Proof.
  intros Hn Hr Hi. destruct (ntt_this_thread_key i t P) as [key P'] eqn:Hk.
  assert (Hs : process_step P P') by (replace P' with (ntt_this_thread_key i t P).2 by (by rewrite Hk); by constructor).
  assert (Hr' : process_reachable env n P') by (by eapply rtc_r).
  destruct (process_keys_inv _ _ _ Hn Hr) as [[Hnx Hrg Hu] Hlen], (process_keys_inv _ _ _ Hn Hr') as [[Hnx' Hrg' Hu'] Hlen'].
  pose proof (keyed_length (pthreads P')) as Hle. unfold ntt_this_thread_key in Hk.
  assert (Ht' : exists t', pthreads P' !! i = Some t' /\ g_thread_key t' = key /\ key <> 0).
  { destruct (Z.eqb_spec (g_thread_key t) 0) as [Hz|Hz]; injection Hk as <- <-; [|eauto].
    eexists. simpl. rewrite list_lookup_insert_eq by (by eapply lookup_lt_Some). split_and!; [done|done|]. simpl. lia. }
  destruct Ht' as (t' & Hi' & Hkey & Hnz). pose proof (Hrg' i t' Hi') as Hin. split_and!; [lia|lia| |].
  - exists t'. split_and!; [done|done|]. unfold ntt_this_thread_key. rewrite Hkey.
    by rewrite (proj2 (Z.eqb_neq _ _) Hnz).
  - intros j u Hj Heq. symmetry. eapply (Hu' i j t' u); congruence.
Qed.
End props.

(** ** Witnesses: two threads log *)
Module ProcessExample.
Open Scope string_scope.

(** A thread that has a key logs; the other one waits for the lock. *)
Inductive pmove : Type := PLog (i : nat) | PCall (i : nat) (msg : message) | PKey (i : nat).

Definition pplay (mv : pmove) (P : process) : option process :=
  match mv with
  | PLog i => match pthreads P !! i with Some t => ntt_log i t P | None => None end
  | PCall i msg =>
      match pthreads P !! i with
      | Some t => match pt_point t with
                  | LogOutside => Some (set_thread i (call_log msg t) P)
                  | _ => None
                  end
      | None => None
      end
  | PKey i => match pthreads P !! i with Some t => Some (ntt_this_thread_key i t P).2 | None => None end
  end.

Definition pplays (ms : list pmove) (P : process) : option process :=
  foldl (fun o mv => match o with Some P => pplay mv P | None => None end) (Some P) ms.

Lemma pplay_step mv P P' : pplay mv P = Some P' -> process_step P P'.
Proof.
  destruct mv as [i|i msg|i]; simpl; destruct (pthreads P !! i) as [t|] eqn:Hi; try done.
  - by apply step_log.
  - destruct (pt_point t) eqn:Hp; try done. intros [= <-]. by apply step_log_call.
  - intros [= <-]. by apply step_key.
Qed.

Lemma pplays_steps ms P P' : pplays ms P = Some P' -> rtc process_step P P'.
Proof.
  unfold pplays. revert P. induction ms as [|mv ms IH]; intros P; simpl; [by intros [= <-]|].
  destruct (pplay mv P) as [P1|] eqn:Hp.
  - intros Heq. eapply rtc_l; [by eapply pplay_step|by apply IH].
  - intros Heq. exfalso. clear -Heq. induction ms; [done|]. by apply IHms.
Qed.

Definition moves : list pmove :=
  [PKey 0; PCall 0 ["a"; "b"]; PCall 1 ["c"]; PLog 0; PLog 1; PLog 0; PLog 0; PLog 0; PLog 0; PLog 1; PLog 1].

Definition logging : process := default (mylibrary_load None 2) (pplays moves (mylibrary_load (Some "1") 2)).

Lemma logging_reachable : process_reachable (Some "1") 2 logging.
Proof. apply (pplays_steps moves). by vm_compute. Qed.

Lemma log_messages_whole_witness :
  stdout logging = ["a"; "b"; "c"] /\
  exists msgs sofar, stdout logging = (concat msgs.*2 ++ sofar)%list /\
    [["a"; "b"]] = messages_of 0 msgs /\ [["c"]] = (messages_of 1 msgs ++ [["c"]])%list /\ sofar = ["c"].
Proof.
  split; [by vm_compute|].
  destruct (proj1 (log_messages_whole (Some "1") 2 logging logging_reachable) ltac:(done))
    as (msgs & sofar & Ho & _ & _ & Ht).
  exists msgs, sofar. pose proof (Ht 0%nat _ eq_refl) as H0. destruct (Ht 1%nat _ eq_refl) as (_ & Hs & H1).
  split_and!; [exact Ho|exact H0|exact H1|exact Hs].
Defined.

Definition second : pthread := mk_pthread (LogPrint ["c"] []) 0 [["c"]].

Lemma thread_keys_unique_witness :
  (ntt_this_thread_key 1 second logging).1 = 2 /\
  forall j u, pthreads (ntt_this_thread_key 1 second logging).2 !! j = Some u -> g_thread_key u = 2 -> j = 1%nat.
Proof.
  split; [by vm_compute|].
  assert (Hi : pthreads logging !! 1%nat = Some second) by (by vm_compute).
  pose proof (thread_keys_unique (Some "1") 2 logging 1 second ltac:(lia) logging_reachable Hi) as Hk.
  exact (proj2 (proj2 Hk)).
Defined.
End ProcessExample.
